(* ===== verification/_CoqProject ===== *)
-Q . S2P
Prelude.v
CString.v
Prog.v
Net.v
User.v
Directory.v
UserStore.v
ThreadSafeMap.v
Utf8.v
JsonValue.v
JsonAccess.v
JsonIter.v
JsonRanges.v
JsonCompare.v
JsonHash.v
JsonMemory.v
JsonOwnership.v
JsonOrdered.v
JsonLexer.v
JsonLexerState.v
JsonParser.v
JsonDump.v
JsonStrings.v
JsonNumbers.v
JsonPointer.v
JsonConvert.v
RtcCallback.v
RtcNalUnit.v
JsonFlatten.v
JsonPatch.v
JsonDiff.v
JsonMerge.v
JsonRoundTrip.v
JsonParsed.v
JsonInput.v
JsonSax.v
JsonMessages.v
JsonCallback.v
BinaryIO.v
BinaryReads.v
Cbor.v
CborSpec.v
MsgPack.v
MsgPackSpec.v
Bson.v
BsonSpec.v
Ubjson.v
UbjsonSpec.v
UbjsonTotal.v
Grisu.v
GrisuArith.v
GrisuDigits.v
GrisuSpec.v
GrisuText.v
Plog.v
PlogRolling.v
PlogInit.v
Server.v
ServerSpec.v
Protocol.v
ServerEffect.v
ServerSystem.v
ServerSafety.v
ServerShutdown.v
Peer.v
Descriptions.v
Client.v
ClientSpec.v
Dialogue.v
CallDialogue.v
Offerer.v
Answerer.v
SimplePeers.v
PeerSpec.v
