(* ===== verification/Prelude.v ===== *)
(** * Verification of the client/server signalling program

    The repository holds a signalling server ([src/server.cpp] with [User.cpp],
    [UserStore.cpp] and the unused [ThreadSafeMap.cpp]), the client that talks to it
    ([src/client.cpp]), and two pairs of peers that exchange session descriptions
    without it ([src/offerer.cpp] with [src/answerer.cpp] over TCP,
    [src/simple_offerer.cpp] with [src/simple_answerer.cpp] over the console).  The
    clients speak WebRTC through libdatachannel, which the repository has as binaries, and
    JSON through the single header [include/nlohmann/json.hpp], which is source and
    is modelled beyond what the programs use of it; so are the headers of the logger plog
    ([include/plog/]) and the inline code of two headers of libdatachannel ([include/rtc/]).  Paths are relative to the root of the
    repository.

    ** How the programs interact

    A client connects to the server on a fixed port and announces, with CLIENT, an
    address and a port on which it listens; the server connects back to it, so that
    each client has two connections.  SIGNUP, LOGIN, LOGOUT and EXIT are answered on the
    first.  CALL makes the server send INVITE on the second connection of the user
    called, wait for the answer there and forward it to the second connection of the
    caller.  Every message is an array of 1024 bytes (2048 for INVITE) whose text ends at
    its first zero; session descriptions travel as JSON objects.

    ** Method

    A C++ function that acts on its surroundings is a program ([Prog.prog]): a tree of
    calls in program order, whose answers an environment chooses.  Exceptions, [exit] and
    undefined behaviour are outcomes, not omissions: a string function that C leaves undefined
    on its arguments gives a value of [CString.cres] that names the rule broken.  A
    [while] loop is its body, a program that says whether to go round again.  Bytes
    are [ascii], [std::string] and [char] arrays are lists of bytes (an array with its
    terminator and what lies behind it), integers are [Z] with their width where it
    matters ([in_int], [wrap], the modulus of [size_t], the 64 bits of JSON numbers).

    ** Files

    - Shared: [Prelude] (bytes, lengths, tactics, the hint databases [bytes], [blen] and [no_nul]), [CString]
      (the C string functions, [sscanf], [sprintf], [stoi], [atoi]), [Prog] (programs,
      execution, weakest preconditions), [Net] (socket calls).
    - Store: [User] ([User.cpp]), [Directory] (the contract the server relies on, a class
      with its laws), [UserStore] ([UserStore.cpp], and its instance of the contract),
      [ThreadSafeMap] ([ThreadSafeMap.cpp] with its text file).
    - JSON text ([json.hpp]): [Utf8] (both validators and the encoder), [JsonInput] (input in
      wide characters, [wide_string_input_adapter]), [JsonValue],
      [JsonLexer] ([lexer], as functions on the input that is left), [JsonLexerState] (the same
      class with its state, [unget] and positions), [JsonParser] ([parser], [json_sax_dom_parser]), [JsonSax] (the
      parser over any handler of its events, with the class [Simulation] by which two
      handlers are compared; [json_sax_acceptor]), [JsonMessages] (the parser on the lexer with its
      state, and the exceptions it throws with their texts; the class [Reports] relates its handlers to
      those of [JsonSax]), [JsonCallback]
      ([json_sax_dom_callback_parser]), [JsonDump] ([serializer]), and the theorems in
      [JsonStrings], [JsonNumbers], [JsonRoundTrip] and [JsonParsed].
    - JSON values: [JsonMemory] (the destructor), [JsonOwnership] (constructors, copies, moves and
      assignments over a memory in which any allocation may fail), [JsonHash], [JsonOrdered] ([ordered_map]), [JsonConvert]
      ([to_json], [from_json], [get], [value], over a universe of C++ types), [JsonAccess] (the container interface and [merge_patch], as actions on
      a value), [JsonIter] ([iter_impl], [json_reverse_iterator], [items()], over variables that
      hold values), [JsonRanges] ([erase], [insert], [update], [swap] and the constructor with
      iterators, as actions on those variables), [JsonCompare] ([==], [<]), [JsonPointer]
      (class [json_pointer], [flatten]), [JsonPatch] ([patch], [diff]), and the theorems in
      [JsonFlatten], [JsonDiff] and [JsonMerge].
    - JSON binary formats ([binary_reader], [binary_writer]): [BinaryIO] (what they share:
      a reader is a state monad over the input), [BinaryReads] (the two predicates [reads]
      and [ends] all their proofs are about), and [Cbor], [MsgPack], [Bson] and [Ubjson]
      with their theorems in [CborSpec], [MsgPackSpec], [BsonSpec], [UbjsonSpec] and
      [UbjsonTotal].
    - JSON floating-point text (namespace [dtoa_impl], [to_chars], [dump_float]): [Grisu],
      the exact arithmetic of its parts in [GrisuArith] and [GrisuDigits], and the theorems
      in [GrisuSpec] and [GrisuText].
    - The logger: [Plog] ([Severity.h], [Util.h], [Record.h], [Logger.h], [Formatters/],
      [Converters/]), [PlogRolling] ([Appenders/RollingFileAppender.h] over the file
      system, a class [FileSystem]) and [PlogInit] (consoles, [Init.h], [Initializers/] and the
      macro of [Log.h], with loggers that are appenders of other loggers).
    - libdatachannel: [RtcCallback] ([rtc/utils.hpp], the callbacks that keep the last missed call) and
      [RtcNalUnit] ([rtc/nalunit.hpp]).
    - Server ([server.cpp]): [Server] holds [client_handler] and [main]: [handler_body]
      is a round of the loop of [client_handler], [dispatch] its chain of commands, [cmd_*]
      each branch, [forward_call] the branch of CALL for an online user, [handler_end] what
      follows the loop; [main_setup], [accept_body] and [main_end] are [main].  [ServerSpec]
      is the abstract syntax of the commands and what each does; [Protocol] a specification of
      the dialogue that uses no part of the handler; [ServerEffect] the effect of each command on the store and the network;
      [ServerSystem] the threads, the mutex of the store and the signals as a step relation, with an executable
      schedule; [ServerSafety] and [ServerShutdown] what holds of every run.
    - Peers: [Peer] (calls of the programs with a peer connection, the callbacks they
      register), [Descriptions] (the JSON text of a description), [Client]
      ([client.cpp]), [Offerer], [Answerer], [SimplePeers], and the theorems in
      [ClientSpec], [Dialogue] and [CallDialogue] (clients and server together) and
      [PeerSpec].

    ** What the theorems show

    - Of every run of the server, for any clients and any interleaving: the process ends before [main] returns in
      four ways only, which are undefined behaviour in the loop of a handler, a data race with [logOutUser], SIGPIPE
      at a [send], and the exception of a thread that the system does not start
      ([no_terminate]); names come online by a right password only
      ([online_by_login]), accounts persist up to the end of the run ([accounts_persist]), [main] returns after
      its handlers ([exit_after_join]), after SIGINT there are no more steps than a number
      linear in that of the threads ([shutdown]), and there is no deadlock
      ([server_live]).  [logout_race] is a reachable race on the store.
    - Of the commands: what a round does with a message, for every text of a request
      ([dispatch_protocol], [decode_encode]); the exact effect of each
      request, or the condition under which it is undefined ([*_effect],
      [call_message_defined], [full_buffer_undefined], [client_address_overflow],
      [ghost_call_undefined], [foreign_logout]).
    - Of the client: what its menu sends is what the server serves
      ([menu_request_served], [call_peer_message], [client_announced]); a call from a client
      through the server to the client called, which ends the latter
      ([call_between_clients]); what it does with other invitations and answers
      ([accept_ends_caller], [one_invitation], [login_ignores_reply]).
    - Of JSON text: [json_roundtrip] (parsing inverts dumping), [parse_well_formed] (what
      the parser gives is well formed) and [reparse] (so its text is read as the same
      value), [parse_total], [accept] and [parse] with and without exceptions agree
      ([accept_parse]), the lexer with its state gives the tokens of its functional form ([lexer_tokens])
      and the parser on it the values and exceptions of [parse], with positions that are those of the text
      ([json_parse_what_refines]), the parser with a callback is safe for every callback, one that changes
      values or throws included, and is
      [parse] when it keeps everything ([callback_safe], [callback_keep_all]), the bounds of both buffers of the serializer
      ([dump_escaped_no_overflow], [dump_integer_decimal]), the agreement of the two UTF-8
      validators, that wide input is read as its UTF-8 ([wide_input_utf8]), and that the text of a double is nearest to it and is one literal
      ([grisu2_correct], [dump_float_roundtrip]).
    - Of the memory of JSON values: the destructor releases every block once, without deep recursion
      ([destroy_deep]); every block has one owner whatever a program constructs, copies, moves and
      assigns, [std::bad_alloc] at any point included, but the allocation of the destructor, which is [noexcept]
      and terminates the program ([values_own_memory]).
    - Of conversions: [get] gives back what [to_json] was given, but for the values that an initializer list turns
      into objects ([get_to_json]), and on any value it gives a value of the type, or the exception of a
      part that the type of C++ does not accept, or is undefined for a number in it that does not fit
      ([from_json_sound]).
    - Of JSON values: equal values of the same types have equal hashes ([hash_respects_equality]), [ordered_map]
      is a finite map under its operations ([ordered_map_refines], [erase_range_spec]), applying a difference gives the target ([diff_patch]), [merge_patch]
      is that of RFC 7396 ([merge_patch_spec]), pointers are printed and parsed back
      ([pointer_roundtrip]), [unflatten] inverts [flatten] ([unflatten_flatten]), how equality
      and order agree ([json_order]), every loop over a value ends with its elements in order
      ([iteration]), what is inserted can be erased by the iterators it gave
      ([insert_erase], [whole_range]), and [update] over iterators is the recursive
      one ([update_iterators]).
    - Of each binary format: what is written is read as the same value ([*_roundtrip]), and
      reading any input ends, in a value or a documented error ([*_total]).
    - Of the logger: the files of [RollingFileAppender] are at every point the newest part of
      what was written, in order, rolled at their size, if the system refuses no call ([rolling_log]), a line of the CSV
      formatter is read back field by field, with a message that is cut after 32000 characters ([csv_roundtrip]), and a record reaches the consoles and
      files below its logger, in order, while no logger is below itself ([logged]).
    - Of libdatachannel: a stored callback whose functions return and do not assign it delivers no call twice or
      out of order, and the last one ([stored_callback_delivers]; the examples after it show what happens otherwise), and the fields of NAL unit headers are read back ([header_fields],
      [fragment_reads]).
    - Of the store and the map: the contract ([UserStore] implements [Directory]), and
      [operations_spec], [readFromFile_writeToFile], [readFromFile_drops_empty_value].
    - Of the peers: [descriptions_exchanged], [candidates_merged], [packets_bounded],
      [typed_candidates], [busy_wait].

    ** Fuel

    [dec_digits] takes one unit per decimal digit, of which there are no more than binary
    ones; the parser and the lexer take one unit per character and per container
    ([parse_fuel]; [accept_fuel] is one more), and [parse_total] shows that it suffices; a loop of the lexer with its state takes one
      unit per character and two ([with_fuel], [lexer_tokens]), and the loop of the destructor one per value
      ([destroy_deep]); [dump] is structural.  The
    readers of CBOR, MessagePack and BSON take one unit per byte and two for the end of the
    input; UBJSON has containers whose values take no input, so its reader takes the limit on
    sizes in addition ([UbjsonTotal]).  A loop over iterators takes one unit per element and one
    for the end ([iteration]).  Grisu2 takes 64 units to normalize, nine to round
    and 19 for the digits of a fraction; [grisu2_correct] shows that they suffice.  The calls of [write] on loggers
    nest as deep as [PLOG] is told; [logged] shows what suffices.  Functions and callbacks that call each other
    nest as deep as [RtcCallback.run] is told, for they need not come to an end.  Loops
    over the network have no fuel: the theorems are about a round, about [exec_loop] with every
    fuel, or about the step relation.

    ** What is not modelled, and why

    - The text the server and the peers print, except that printing an array reads it up to its
      terminator, which may be undefined.
    - libdatachannel, libsrtp and usrsctp, which are binaries: a call returns or throws as the
      environment chooses.  [RtpHeader::setSsrc] is the class [SetSsrc].
    - [strtod], and so the conversion between a literal and a double: a floating-point value
      is represented by its literal.  [FloatText] is its text, [FloatBits] (with the laws
      [FloatBitsLaws]) its bits, [FloatOps] its comparisons; [dump_float] is on bits.
      [json_roundtrip] covers values without floating-point numbers, the binary formats
      cover them, and [dump_float_roundtrip] covers their text.
    - The appenders of plog that only call the platform (debug output, Android, event log), and Windows.
    - The files behind [RollingFileAppender] are the class [FileSystem], which [rolling_log]
      takes to be [Healthy]; the calendar and the text of a pointer are parameters of the formatters.
      A callback of [parse] keeps no reference to the value it is shown.  What
      [char_traits<char16_t>] makes of the value of [eof()] is a parameter of [JsonInput].
    - Conversions between doubles and integers ([FloatCast]), [std::hash] ([StdHash]), the order in which the
      compiler evaluates arguments ([left_first]) and what a move leaves behind ([moved]) are parameters.
    - Positions in the errors of the binary formats, iterators that a change of their container
      invalidates, overload resolution, the adapters that hand on single bytes, and [JSON_DIAGNOSTICS],
      which is off.
    - Machines other than x86-64 with libstdc++: the byte order is little-endian, and a
      container holds at most [OBJECT_MAX_SIZE] or [ARRAY_MAX_SIZE] elements.
    - The iteration order of [std::unordered_map], a parameter of [writeToFile].
    - The memory model: a store operation is two steps, entering and leaving, and two threads that are in the store
      at once without the mutex of both are a data race, which ends the run.  [running] is atomic and
      the socket calls act on nothing the threads share.
    - Allocations that fail in the programs; [JsonOwnership] has them.
    - [client.cpp] holds merge-conflict markers, so it does not compile; both sides hold only
      comments, and the model is of the file without the markers.

    ** What would come next

    Several clients with the server as one system (the theorems about runs of the server take the clients to
    be arbitrary, and [CallDialogue] composes two of them with it); iterators that become
    invalid; the positions in the errors of the binary formats. *)

From stdpp Require Export base list strings gmap sorting.
From Stdlib Require Export Ascii ZArith Lia.
Open Scope Z_scope.
Set Default Proof Using "Type".

(** ** Bytes

    A byte is an [ascii]; a [std::string], the contents of a [char] array and a
    message on a socket are lists of bytes.  [str] turns a string literal of the
    source into bytes. *)

Abbreviation bytes := (list ascii).

Fixpoint str (s : string) : bytes :=
  match s with
  | EmptyString => []
  | String c s' => c :: str s'
  end.

Declare Scope bytes_scope.
Delimit Scope bytes_scope with bytes.
Notation "'b#' s" := (str s%string) (at level 1, s at level 0, format "'b#' s") : bytes_scope.
Open Scope bytes_scope.

Definition NUL : ascii := "000".
Definition LF : ascii := "010".
Definition SPC : ascii := " ".
Definition QUOTE : ascii := "034".

(** The unsigned value of a byte. *)
Definition byteZ (c : ascii) : Z := Z.of_N (N_of_ascii c).

(** The byte of an integer, modulo 256. *)
Definition Zbyte (z : Z) : ascii := ascii_of_N (Z.to_N (z mod 256)).

(** Length as an integer. *)
Definition blen {A} (l : list A) : Z := Z.of_nat (length l).

(** [memset(buf, 0, n)] over a whole array of [n] bytes. *)
Definition zeros (n : Z) : bytes := replicate (Z.to_nat n) NUL.

(** An array of [n] bytes whose first bytes are [s] and whose other bytes are zero. *)
Definition padded (n : Z) (s : bytes) : bytes := s ++ zeros (n - blen s).

(** Writing [s] over the first bytes of the array [buf]. *)
Definition overlay {A} (s buf : list A) : list A := s ++ drop (length s) buf.

(** Wrap-around of the unsigned machine types. *)
Definition wrap (w z : Z) : Z := z mod 2 ^ w.

(** Range of [int]. *)
Definition INT_MIN : Z := - 2 ^ 31.
Definition INT_MAX : Z := 2 ^ 31 - 1.
Definition in_int (z : Z) : bool := (INT_MIN <=? z) && (z <=? INT_MAX).

(** No byte of a string is the terminator. *)
Definition no_nul (s : bytes) : bool := forallb (λ c, bool_decide (c ≠ NUL)) s.

(** Lexicographic order on byte strings, [std::less<std::string>]
    ([char_traits<char>::lt] compares bytes as [unsigned char]). *)
Fixpoint bytes_ltb (s t : bytes) : bool :=
  match s, t with
  | [], [] => false
  | [], _ :: _ => true
  | _ :: _, [] => false
  | c :: s', d :: t' =>
      if byteZ c <? byteZ d then true
      else if byteZ d <? byteZ c then false else bytes_ltb s' t'
  end.

(** ** Automation *)

(** Split the conjunctions and existentials of the context. *)
Ltac split_hyps :=
  repeat match goal with
  | H : _ ∧ _ |- _ => destruct H
  | H : ∃ _, _ |- _ => destruct H
  | H : _ && _ = true |- _ => apply andb_true_iff in H
  | H : (?a, ?b) = (?c, ?d) |- _ => injection H as ? ?; subst
  end.

(** Case analysis on the innermost scrutinee of a [match] or [if] of the goal. *)
Ltac case_goal :=
  match goal with
  | |- context [match ?x with _ => _ end] =>
      lazymatch x with
      | context [match _ with _ => _ end] => fail
      | _ => destruct x eqn:?
      end
  end.

(** Boolean comparisons of integers as propositions, then [lia]. *)
Ltac zify_bools :=
  repeat match goal with
  | H : (_ <? _) = true |- _ => apply Z.ltb_lt in H
  | H : (_ <? _) = false |- _ => apply Z.ltb_ge in H
  | H : (_ <=? _) = true |- _ => apply Z.leb_le in H
  | H : (_ <=? _) = false |- _ => apply Z.leb_gt in H
  | H : (_ =? _) = true |- _ => apply Z.eqb_eq in H
  | H : (_ =? _) = false |- _ => apply Z.eqb_neq in H
  end.
Ltac blia := unfold blen in *; zify_bools; lia.

Create HintDb bytes discriminated.
#[export] Hint Constants Opaque : bytes.
Create Rewrite HintDb blen.

(** ** Lengths *)

Lemma str_app s t : str (s +:+ t) = str s ++ str t.
Proof. induction s as [|c s IH]; [done|]. cbn. by rewrite <- IH. Qed.

Lemma blen_app {A} (s t : list A) : blen (s ++ t) = blen s + blen t.
Proof. unfold blen. rewrite length_app. lia. Qed.

Lemma blen_cons {A} (x : A) s : blen (x :: s) = 1 + blen s.
Proof. unfold blen. cbn [length]. lia. Qed.

Lemma blen_nil {A} : blen (@nil A) = 0.
Proof. done. Qed.

Lemma blen_nonneg {A} (s : list A) : 0 ≤ blen s.
Proof. unfold blen. lia. Qed.

Lemma blen_zeros n : 0 ≤ n → blen (zeros n) = n.
Proof. intros. unfold blen, zeros. rewrite length_replicate. lia. Qed.

Lemma blen_zeros_max n : blen (zeros n) = n `max` 0.
Proof. unfold blen, zeros. rewrite length_replicate. lia. Qed.

Lemma blen_padded n s : blen s ≤ n → blen (padded n s) = n.
Proof. intros. unfold padded. rewrite blen_app, blen_zeros; lia. Qed.

Lemma blen_overlay {A} (s buf : list A) : blen s ≤ blen buf → blen (overlay s buf) = blen buf.
Proof. unfold overlay, blen. intros. rewrite length_app, length_drop. lia. Qed.

Lemma blen_take {A} n (s : list A) : 0 ≤ n → blen (take (Z.to_nat n) s) = n `min` blen s.
Proof. intros. unfold blen. rewrite length_take. lia. Qed.

Lemma blen_drop {A} n (s : list A) : 0 ≤ n ≤ blen s → blen (drop (Z.to_nat n) s) = blen s - n.
Proof. unfold blen. intros. rewrite length_drop. lia. Qed.

#[export] Hint Rewrite @blen_app @blen_cons @blen_nil blen_zeros_max : blen.

(** Normalise lengths and finish with [lia]. *)
Ltac len :=
  repeat match goal with
  | s : list _ |- _ =>
      lazymatch goal with
      | _ : 0 ≤ blen s |- _ => fail
      | _ => pose proof (blen_nonneg s)
      end
  end;
  autorewrite with blen in *; zify_bools; try lia.

(** Lengths of literals are evaluated, lengths of variables are non-negative. *)
Ltac eval_blen :=
  repeat match goal with
  | |- context [blen (str (String ?c ?s))] =>
      let n := eval vm_compute in (blen (str (String c s))) in
      change (blen (str (String c s))) with n
  end.
Ltac pose_blen :=
  repeat match goal with
  | |- context [blen ?s] =>
      lazymatch goal with _ : 0 ≤ blen s |- _ => fail | _ => pose proof (blen_nonneg s) end
  end.

(** Split a conjunction of boolean conditions among the hypotheses. *)
Ltac split_bools :=
  repeat match goal with
  | H : _ && _ = true |- _ => apply andb_true_iff in H as [? ?]
  end; zify_bools.

Lemma zeros_add n m : 0 ≤ n → 0 ≤ m → zeros (n + m) = zeros n ++ zeros m.
Proof. intros. unfold zeros. rewrite Z2Nat.inj_add by lia. apply replicate_add. Qed.

Lemma zeros_cons n : 0 < n → zeros n = NUL :: zeros (n - 1).
Proof.
  intros. unfold zeros. replace (Z.to_nat n) with (S (Z.to_nat (n - 1))) by lia. done.
Qed.

Lemma drop_zeros k n : drop k (zeros n) = zeros (n - Z.of_nat k).
Proof. unfold zeros. rewrite drop_replicate. f_equal. lia. Qed.

(** Receiving into a zeroed array leaves the received bytes followed by zeros. *)
Lemma overlay_zeros s n : overlay s (zeros n) = padded n s.
Proof. unfold overlay, padded, blen. by rewrite drop_zeros. Qed.

Lemma padded_full n s : blen s = n → padded n s = s.
Proof. intros <-. unfold padded. by rewrite Z.sub_diag, app_nil_r. Qed.

(** A proper prefix is followed by a terminator. *)
Lemma padded_nul n s : blen s < n → padded n s = s ++ NUL :: zeros (n - blen s - 1).
Proof. intros. unfold padded. by rewrite zeros_cons by lia. Qed.

Lemma padded_snoc_nul n s : blen s < n → padded n (s ++ [NUL]) = padded n s.
Proof.
  intros. rewrite (padded_nul n s) by done. unfold padded.
  rewrite blen_app, blen_cons, blen_nil, <- app_assoc. cbn. do 3 f_equal. lia.
Qed.

(** A small negative number wraps to the top of the range. *)
Lemma wrap_neg w z : 0 < w → - 2 ^ w ≤ z < 0 → wrap w z = z + 2 ^ w.
Proof. intros. unfold wrap. symmetry. apply Z.mod_unique_pos with (q := -1); lia. Qed.

(** ** Bytes as integers *)

Lemma byteZ_range c : 0 ≤ byteZ c < 256.
Proof. unfold byteZ. pose proof (N_ascii_bounded c). lia. Qed.

Lemma Zbyte_byteZ c : Zbyte (byteZ c) = c.
Proof.
  unfold Zbyte. rewrite Z.mod_small by apply byteZ_range.
  unfold byteZ. rewrite N2Z.id. apply ascii_N_embedding.
Qed.

Lemma byteZ_Zbyte z : byteZ (Zbyte z) = z mod 256.
Proof.
  unfold byteZ, Zbyte. pose proof (Z.mod_pos_bound z 256).
  rewrite N_ascii_embedding by lia. lia.
Qed.

Lemma forallb_Forall {A} (f : A → bool) l : forallb f l = true ↔ Forall (λ x, f x = true) l.
Proof. rewrite forallb_forall, Forall_forall. by setoid_rewrite list_elem_of_In. Qed.

Lemma byteZ_inj c d : byteZ c = byteZ d → c = d.
Proof. intros H. by rewrite <- (Zbyte_byteZ c), <- (Zbyte_byteZ d), H. Qed.

(** ** Terminators *)

Lemma no_nul_app s t : no_nul (s ++ t) = no_nul s && no_nul t.
Proof. apply forallb_app. Qed.

Lemma no_nul_cons c s : no_nul (c :: s) = true ↔ c ≠ NUL ∧ no_nul s = true.
Proof. unfold no_nul. cbn. by rewrite andb_true_iff, bool_decide_eq_true. Qed.

(** [no_nul] of concatenations of literals and terminator-free parts. *)
Create HintDb no_nul discriminated.
Ltac no_nul := rewrite ?no_nul_app; repeat (apply andb_true_iff; split); auto with no_nul.
#[export] Hint Extern 1 (no_nul (str _) = true) => reflexivity : no_nul.

(** ** Lexicographic order *)

Lemma bytes_ltb_irrefl s : bytes_ltb s s = false.
Proof. induction s as [|c s IH]; cbn; [done|]. by rewrite !Z.ltb_irrefl. Qed.

Lemma bytes_ltb_trans s t u : bytes_ltb s t = true → bytes_ltb t u = true → bytes_ltb s u = true.
Proof.
  revert t u. induction s as [|c s IH]; intros [|d t] [|e u]; cbn; try done.
  destruct (Z.ltb_spec (byteZ c) (byteZ d)), (Z.ltb_spec (byteZ d) (byteZ c)),
    (Z.ltb_spec (byteZ d) (byteZ e)), (Z.ltb_spec (byteZ e) (byteZ d)),
    (Z.ltb_spec (byteZ c) (byteZ e)), (Z.ltb_spec (byteZ e) (byteZ c));
    try done; try lia; eauto.
Qed.

(** Two strings neither of which is below the other are equal. *)
Lemma bytes_ltb_total s t : bytes_ltb s t = false → bytes_ltb t s = false → s = t.
Proof.
  revert t. induction s as [|c s IH]; intros [|d t]; cbn; try done.
  destruct (Z.ltb_spec (byteZ c) (byteZ d)), (Z.ltb_spec (byteZ d) (byteZ c)); try done.
  intros ? ?. f_equal; [apply byteZ_inj; lia | auto].
Qed.
