(* ===== verification/CString.v ===== *)
(** * The C string functions the programs call

    [strlen], [strncmp], [strncpy], [sscanf], [sprintf], [std::stoi] on arrays of
    bytes.  A function that the C standard leaves undefined on some arguments
    (a read past the end of an array, a write past the end of the destination, an
    overflowing conversion) returns a value of [cres] that says which rule is broken. *)

From S2P Require Import Prelude.

(** Why a call is undefined behaviour. *)
Inductive ub :=
| UB_over_read          (** a string function runs past the end of an array *)
| UB_buffer_overflow    (** a write past the end of an array *)
| UB_int_overflow       (** a conversion that does not fit in the integer type *)
| UB_indeterminate      (** an uninitialised object is read *)
| UB_out_of_bounds      (** an index past the end of an array is read *)
| UB_null               (** a null pointer is used as a string *)
| UB_iterator           (** an iterator is used that is not into a living container, or leaves it *)
| UB_assertion.         (** an assertion fails: the process is aborted *)

#[export] Instance ub_eq_dec : EqDecision ub.
Proof. solve_decision. Defined.

(** The result of a C function that may be undefined. *)
Inductive cres (A : Type) :=
| Def (a : A)
| UB (u : ub).
Arguments Def {A} a.
Arguments UB {A} u.

#[export] Instance cres_ret : MRet cres := @Def.
#[export] Instance cres_bind : MBind cres :=
  λ A B f m, match m with Def a => f a | UB u => UB u end.

(** ** Reading strings *)

(** The string that starts at the first byte of an array: the bytes before the
    first terminator, undefined when the array holds none. *)
Fixpoint cstr (b : bytes) : cres bytes :=
  match b with
  | [] => UB UB_over_read
  | c :: b' =>
      if bool_decide (c = NUL) then Def []
      else match cstr b' with Def s => Def (c :: s) | UB u => UB u end
  end.

Definition strlen (b : bytes) : cres Z := s ← cstr b; mret (blen s).

(** The sign of the first difference within [n] bytes; the comparison stops at a
    common terminator. *)
Fixpoint strncmp_nat (a b : bytes) (n : nat) {struct n} : cres Z :=
  match n with
  | O => Def 0
  | S n' =>
      match a, b with
      | c :: a', d :: b' =>
          if byteZ c =? byteZ d
          then if bool_decide (c = NUL) then Def 0 else strncmp_nat a' b' n'
          else Def (byteZ c - byteZ d)
      | _, _ => UB UB_over_read
      end
  end.
Definition strncmp (a b : bytes) (n : Z) : cres Z := strncmp_nat a b (Z.to_nat n).

(** A string literal in memory: its bytes and the terminator. *)
Definition lit (s : string) : bytes := str s ++ [NUL].

(** [strncmp(buf, "LIT", n) == 0]. *)
Definition starts_with (buf : bytes) (s : string) (n : Z) : cres bool :=
  r ← strncmp buf (lit s) n; mret (r =? 0).

(** The at most [n] bytes [strncpy] reads: it stops at a terminator and never
    looks past [n] bytes. *)
Fixpoint strn_src (src : bytes) (n : nat) {struct n} : cres bytes :=
  match n with
  | O => Def []
  | S n' =>
      match src with
      | [] => UB UB_over_read
      | c :: src' =>
          if bool_decide (c = NUL) then Def []
          else match strn_src src' n' with Def s => Def (c :: s) | UB u => UB u end
      end
  end.

(** [strncpy(dst, src, n)]: at most [n] bytes of the string [src], then zeros up to
    [n] bytes.  All [n] bytes are written, so [n] past the end of [dst] overflows. *)
Definition strncpy (dst src : bytes) (n : Z) : cres bytes :=
  if blen dst <? n then UB UB_buffer_overflow
  else s ← strn_src src (Z.to_nat n); mret (overlay (padded n s) dst).

(** Writing the string [s] and its terminator at the start of [dst]. *)
Definition store_cstr (dst s : bytes) : cres bytes :=
  if blen dst <? blen s + 1 then UB UB_buffer_overflow
  else mret (overlay (s ++ [NUL]) dst).

(** Pointer arithmetic: the array from index [n] on; one past the end is allowed. *)
Definition from_index (b : bytes) (n : Z) : cres bytes :=
  if (0 <=? n) && (n <=? blen b) then Def (drop (Z.to_nat n) b) else UB UB_out_of_bounds.

(** ** Characters and numbers *)

(** [isspace] in the "C" locale. *)
Definition isspace (c : ascii) : bool :=
  let z := byteZ c in (z =? 32) || ((9 <=? z) && (z <=? 13)).

Definition isdigit (c : ascii) : bool := (48 <=? byteZ c) && (byteZ c <=? 57).
Definition digit_val (c : ascii) : Z := byteZ c - 48.
Definition digit_char (d : Z) : ascii := Zbyte (48 + d).

Fixpoint skip_ws (s : bytes) : bytes :=
  match s with
  | c :: s' => if isspace c then skip_ws s' else s
  | [] => []
  end.

(** The longest prefix whose bytes satisfy [p], and what follows it. *)
Fixpoint span (p : ascii → bool) (s : bytes) : bytes * bytes :=
  match s with
  | c :: s' => if p c then let '(t, r) := span p s' in (c :: t, r) else ([], s)
  | [] => ([], [])
  end.

Definition not_space (c : ascii) : bool := negb (isspace c).

Definition digits_val (ds : bytes) : Z :=
  fold_left (λ acc c, acc * 10 + digit_val c) ds 0.

(** The subject sequence of [strtol] in base 10: optional sign, digits. *)
Definition scan_int (s : bytes) : option (Z * bytes) :=
  let s := skip_ws s in
  let '(sign, s1) :=
    match s with
    | c :: s' => if bool_decide (c = "-"%char) then (-1, s')
                 else if bool_decide (c = "+"%char) then (1, s') else (1, s)
    | [] => (1, [])
    end in
  let '(ds, rest) := span isdigit s1 in
  match ds with [] => None | _ => Some (sign * digits_val ds, rest) end.

(** Decimal digits of a non-negative integer, most significant first. *)
Fixpoint dec_digits (fuel : nat) (n : Z) : bytes :=
  match fuel with
  | O => []
  | S f => if n <? 10 then [digit_char n]
           else dec_digits f (n / 10) ++ [digit_char (n mod 10)]
  end.
Definition dec_nonneg (n : Z) : bytes := dec_digits (S (Z.to_nat (Z.log2 n))) n.
Arguments dec_nonneg : simpl never.

(** What [%d] prints. *)
Definition dec (n : Z) : bytes :=
  if n <? 0 then "-"%char :: dec_nonneg (- n) else dec_nonneg n.

(** ** Format strings *)

Inductive directive :=
| FChar (c : ascii)
| FStr                  (** [%s] *)
| FInt.                 (** [%d] *)

Fixpoint parse_fmt (f : bytes) : list directive :=
  match f with
  | [] => []
  | c :: f' =>
      match f' with
      | d :: f'' =>
          if bool_decide (c = "%"%char) then
            if bool_decide (d = "s"%char) then FStr :: parse_fmt f''
            else if bool_decide (d = "d"%char) then FInt :: parse_fmt f''
            else FChar c :: parse_fmt f'
          else FChar c :: parse_fmt f'
      | [] => [FChar c]
      end
  end.

Inductive fval :=
| VStr (s : bytes)
| VInt (z : Z).

(** [sscanf]: the values converted before the first mismatch, in order.  A white
    space byte of the format skips any white space; [%s] skips white space and
    takes the longest run of other bytes; an [int] out of range is undefined. *)
Fixpoint scan (fmt : list directive) (s : bytes) : cres (list fval) :=
  match fmt with
  | [] => Def []
  | FChar c :: fmt' =>
      if isspace c then scan fmt' (skip_ws s)
      else match s with
           | d :: s' => if bool_decide (c = d) then scan fmt' s' else Def []
           | [] => Def []
           end
  | FStr :: fmt' =>
      match span not_space (skip_ws s) with
      | ([], _) => Def []
      | (tok, rest) => vs ← scan fmt' rest; mret (VStr tok :: vs)
      end
  | FInt :: fmt' =>
      match scan_int s with
      | None => Def []
      | Some (z, rest) =>
          if in_int z then vs ← scan fmt' rest; mret (VInt z :: vs) else UB UB_int_overflow
      end
  end.
Definition sscanf (buf : bytes) (fmt : string) : cres (list fval) :=
  s ← cstr buf; scan (parse_fmt (str fmt)) s.

(** [sscanf] stores the [k]-th converted value, if there is one, in its argument. *)
Definition store_str (dst : bytes) (v : option fval) : cres bytes :=
  match v with Some (VStr s) => store_cstr dst s | _ => Def dst end.
Definition store_int (dst : Z) (v : option fval) : Z :=
  match v with Some (VInt z) => z | _ => dst end.

(** The output of [printf]; an argument list that does not fit the format is
    undefined. *)
Fixpoint print (fmt : list directive) (args : list fval) : cres bytes :=
  match fmt, args with
  | [], _ => Def []
  | FChar c :: fmt', _ => s ← print fmt' args; mret (c :: s)
  | FStr :: fmt', VStr t :: args' => s ← print fmt' args'; mret (t ++ s)
  | FInt :: fmt', VInt z :: args' => s ← print fmt' args'; mret (dec z ++ s)
  | _, _ => UB UB_indeterminate
  end.
Definition sprintf (dst : bytes) (fmt : string) (args : list fval) : cres bytes :=
  s ← print (parse_fmt (str fmt)) args; store_cstr dst s.

(** ** [std::stoi] *)

Inductive stoi_result := StoiOk (z : Z) | StoiInvalidArgument | StoiOutOfRange.

Definition stoi (s : bytes) : stoi_result :=
  match scan_int s with
  | None => StoiInvalidArgument
  | Some (z, _) => if in_int z then StoiOk z else StoiOutOfRange
  end.

(** [atoi]: 0 when there is no number. *)
Definition atoi (s : bytes) : cres Z :=
  match scan_int s with
  | None => Def 0
  | Some (z, _) => if in_int z then Def z else UB UB_int_overflow
  end.

(** ** The bytes of an [int], the least significant first *)

Definition int_bytes (z : Z) : bytes :=
  let x := wrap 32 z in
  [Zbyte x; Zbyte (x / 256); Zbyte (x / 65536); Zbyte (x / 16777216)].

Definition int_of_bytes (s : bytes) : Z :=
  let x := foldr (λ c acc, byteZ c + 256 * acc) 0 (take 4 s) in
  if x <? 2 ^ 31 then x else x - 2 ^ 32.

(** ** Tokens: what [%s] can carry *)

(** A non-empty string with no white space and no terminator. *)
Definition token (s : bytes) : bool :=
  negb (bool_decide (s = [])) && forallb not_space s && no_nul s.

(** ** Lemmas *)

Lemma cstr_nul s r : no_nul s = true → cstr (s ++ NUL :: r) = Def s.
Proof.
  induction s as [|c s IH]; cbn; [done|].
  intros [Hc Hs]%no_nul_cons. rewrite bool_decide_eq_false_2 by done. by rewrite IH.
Qed.

Lemma cstr_padded n s : no_nul s = true → blen s < n → cstr (padded n s) = Def s.
Proof. intros. rewrite padded_nul by done. by apply cstr_nul. Qed.

Lemma cstr_no_nul b : no_nul b = true → cstr b = UB UB_over_read.
Proof.
  induction b as [|c b IH]; cbn; [done|].
  intros [Hc Hb]%no_nul_cons. rewrite bool_decide_eq_false_2 by done. by rewrite IH.
Qed.

(** What [cstr] returns is the prefix before the first terminator. *)
Lemma cstr_split b s :
  cstr b = Def s → no_nul s = true ∧ ∃ r, b = s ++ NUL :: r.
Proof.
  revert s. induction b as [|c b IH]; intros s; cbn; [done|].
  case_bool_decide as Hc.
  - intros [= <-]. subst c. eauto.
  - destruct (cstr b) as [t|] eqn:Hb; [|done]. intros [= <-].
    destruct (IH t eq_refl) as (Ht & r & ->). split; [by apply no_nul_cons|]. by exists r.
Qed.

Lemma cstr_blen b s : cstr b = Def s → blen s < blen b.
Proof. intros (_ & r & ->)%cstr_split. len. Qed.

(** An array with a terminator somewhere is a string. *)
Lemma cstr_defined b : NUL ∈ b → ∃ s, cstr b = Def s.
Proof.
  induction b as [|c b IH]; [by intros ?%not_elem_of_nil|].
  intros Hin. cbn. case_bool_decide as Hc; [eauto|].
  apply elem_of_cons in Hin as [Heq|Hin]; [congruence|].
  destruct (IH Hin) as [s ->]. eauto.
Qed.

Lemma in_zeros n : 0 < n → NUL ∈ zeros n.
Proof. intros. rewrite zeros_cons by done. apply elem_of_cons. by left. Qed.

Lemma in_padded n s : blen s < n → NUL ∈ padded n s.
Proof. intros. apply elem_of_app. right. apply in_zeros. lia. Qed.

Lemma strncmp_self s r n :
  no_nul s = true → blen s = n → strncmp (s ++ r) (s ++ [NUL]) n = Def 0.
Proof.
  intros Hs <-. unfold strncmp, blen. rewrite Nat2Z.id. revert Hs.
  induction s as [|c s IH]; [done|]. intros [Hc Hs]%no_nul_cons.
  cbn. rewrite Z.eqb_refl, bool_decide_eq_false_2 by done. auto.
Qed.

Lemma starts_with_lit (s : string) r n :
  no_nul (str s) = true → blen (str s) = n → starts_with (str s ++ r) s n = Def true.
Proof. intros. unfold starts_with, lit. by rewrite strncmp_self. Qed.

Lemma strn_src_exact s r n :
  no_nul s = true → blen s = Z.of_nat n → strn_src (s ++ r) n = Def s.
Proof.
  unfold blen. intros Hs Hn. assert (length s = n) as <- by lia. clear Hn. revert Hs.
  induction s as [|c s IH]; [done|]. intros [Hc Hs]%no_nul_cons.
  cbn. rewrite bool_decide_eq_false_2 by done. by rewrite IH.
Qed.

(** Copying a whole string into a zeroed array that has room for it. *)
Lemma strncpy_zeros m n s r :
  no_nul s = true → blen s = n → n ≤ m → strncpy (zeros m) (s ++ r) n = Def (padded m s).
Proof.
  intros Hs Hn Hm. pose proof (blen_nonneg s).
  unfold strncpy. rewrite blen_zeros by lia.
  destruct (Z.ltb_spec m n); [lia|].
  rewrite strn_src_exact by (done || lia). cbn.
  rewrite padded_full by done. by rewrite overlay_zeros.
Qed.

(** A count above the size of the destination overflows it. *)
Lemma strncpy_overflow dst src n : blen dst < n → strncpy dst src n = UB UB_buffer_overflow.
Proof. intros. unfold strncpy. by destruct (Z.ltb_spec (blen dst) n); [|lia]. Qed.

Lemma store_cstr_zeros n s : blen s < n → store_cstr (zeros n) s = Def (padded n s).
Proof.
  intros Hs. pose proof (blen_nonneg s). unfold store_cstr. rewrite blen_zeros by lia.
  destruct (Z.ltb_spec n (blen s + 1)); [lia|].
  by rewrite overlay_zeros, padded_snoc_nul.
Qed.

Lemma store_cstr_overflow dst s : blen dst ≤ blen s → store_cstr dst s = UB UB_buffer_overflow.
Proof. intros. unfold store_cstr. by destruct (Z.ltb_spec (blen dst) (blen s + 1)); [|lia]. Qed.

(** ** Scanning tokens *)

Lemma span_all p s r :
  forallb p s = true → (∀ c r', r = c :: r' → p c = false) → span p (s ++ r) = (s, r).
Proof.
  intros Hs Hr. induction s as [|c s IH]; cbn in *.
  - destruct r as [|c r]; [done|]. cbn. by rewrite (Hr c r).
  - apply andb_true_iff in Hs as [-> Hs]. by rewrite IH.
Qed.

Lemma token_inv s :
  token s = true → ∃ c s', s = c :: s' ∧ isspace c = false ∧ forallb not_space s = true ∧ no_nul s = true.
Proof.
  unfold token. intros [[Hn Hs]%andb_true_iff Hz]%andb_true_iff.
  destruct s as [|c s']; [done|]. exists c, s'. repeat split; try done.
  cbn in Hs. unfold not_space in Hs. by destruct (isspace c).
Qed.

Lemma token_no_nul s : token s = true → no_nul s = true.
Proof. by intros (?&?&?&?&?&?)%token_inv. Qed.

Lemma token_blen s : token s = true → 0 < blen s.
Proof. intros (c&s'&->&_)%token_inv. rewrite blen_cons. pose proof (blen_nonneg s'). lia. Qed.

Lemma skip_ws_token s r : token s = true → skip_ws (s ++ r) = s ++ r.
Proof. intros (c&s'&->&Hc&_)%token_inv. cbn. by rewrite Hc. Qed.

Lemma skip_ws_idem s : skip_ws (skip_ws s) = skip_ws s.
Proof. induction s as [|c s IH]; cbn; [done|]. destruct (isspace c) eqn:E; [done|]. cbn. by rewrite E. Qed.

(** A token followed by white space or by the end is converted whole by [%s]. *)
Lemma scan_token fmt s r :
  token s = true → (∀ c r', r = c :: r' → isspace c = true) →
  scan (FStr :: fmt) (s ++ r) = (vs ← scan fmt r; mret (VStr s :: vs)).
Proof.
  intros Hs Hr. pose proof (token_inv s Hs) as (c&s'&Heq&Hc&Hns&_).
  cbn. rewrite skip_ws_token by done. rewrite span_all; [by subst s|done|].
  intros d r' ->. unfold not_space. by rewrite (Hr d r').
Qed.

(** A token at the end of the input. *)
Lemma scan_last_token s : token s = true → scan [FStr] (skip_ws s) = Def [VStr s].
Proof.
  intros Hs. pose proof (skip_ws_token s [] Hs) as E. pose proof (scan_token [] s [] Hs) as F.
  rewrite app_nil_r in E, F. rewrite E. by apply F.
Qed.

Lemma scan_space fmt c s : isspace c = true → scan (FChar c :: fmt) s = scan fmt (skip_ws s).
Proof. intros H. cbn. by rewrite H. Qed.

(** ** Decimal numbers *)

Lemma span_parts p s t r : span p s = (t, r) → s = t ++ r ∧ forallb p t = true.
Proof.
  revert t r. induction s as [|c s IH]; intros t r; cbn; [by intros [= <- <-]|].
  destruct (p c) eqn:Hc; [|by intros [= <- <-]].
  destruct (span p s) as [t' r'] eqn:E. intros [= <- <-].
  destruct (IH t' r' eq_refl) as [-> ?]. split; [done|]. cbn. by rewrite Hc.
Qed.

Lemma digit_char_isdigit d : 0 ≤ d < 10 → isdigit (digit_char d) = true.
Proof.
  intros. unfold isdigit, digit_char. rewrite byteZ_Zbyte, Z.mod_small by lia.
  apply andb_true_iff. split; apply Z.leb_le; lia.
Qed.

Lemma digit_val_char d : 0 ≤ d < 10 → digit_val (digit_char d) = d.
Proof. intros. unfold digit_val, digit_char. rewrite byteZ_Zbyte, Z.mod_small; lia. Qed.

Lemma dec_digits_spec fuel n :
  0 ≤ n < 10 ^ Z.of_nat fuel → (0 < fuel)%nat →
  digits_val (dec_digits fuel n) = n ∧ forallb isdigit (dec_digits fuel n) = true
  ∧ dec_digits fuel n ≠ [].
Proof.
  revert n. induction fuel as [|f IH]; intros n Hn Hf; [lia|].
  cbn [dec_digits]. destruct (Z.ltb_spec n 10) as [Hlt|Hge].
  - unfold digits_val. cbn. rewrite digit_val_char, digit_char_isdigit by lia. done.
  - rewrite Nat2Z.inj_succ, Z.pow_succ_r in Hn by lia.
    assert (0 < n / 10) by (apply Z.div_str_pos; lia).
    assert (0 ≤ n / 10 < 10 ^ Z.of_nat f) as Hq
      by (split; [lia | apply Z.div_lt_upper_bound; lia]).
    assert (0 < f)%nat by (destruct f; cbn in Hq; lia).
    destruct (IH (n / 10) Hq ltac:(done)) as (Hv & Hd & Hnn).
    pose proof (Z.mod_pos_bound n 10 ltac:(lia)).
    repeat split.
    + unfold digits_val in *. rewrite fold_left_app, Hv. cbn.
      rewrite digit_val_char by lia. pose proof (Z.div_mod n 10). lia.
    + rewrite forallb_app, Hd. cbn. by rewrite digit_char_isdigit by lia.
    + by destruct (dec_digits f (n / 10)).
Qed.

Lemma dec_nonneg_spec n :
  0 ≤ n →
  digits_val (dec_nonneg n) = n ∧ forallb isdigit (dec_nonneg n) = true ∧ dec_nonneg n ≠ [].
Proof.
  intros Hn. apply dec_digits_spec; [|lia]. split; [done|].
  destruct (Z.eq_dec n 0) as [->|]; [done|].
  pose proof (Z.log2_spec n ltac:(lia)) as [_ Hlt].
  pose proof (Z.log2_nonneg n).
  replace (Z.of_nat (S (Z.to_nat (Z.log2 n)))) with (Z.succ (Z.log2 n)) by lia.
  eapply Z.lt_le_trans; [done|]. apply Z.pow_le_mono_l. lia.
Qed.

Lemma isdigit_not_space c : isdigit c = true → isspace c = false.
Proof.
  unfold isdigit, isspace. intros [H1 H2]%andb_true_iff. zify_bools.
  destruct (Z.eqb_spec (byteZ c) 32), (Z.leb_spec 9 (byteZ c)), (Z.leb_spec (byteZ c) 13);
    cbn; lia || done.
Qed.

Lemma isdigit_not_nul c : isdigit c = true → c ≠ NUL.
Proof. by intros H ->. Qed.

Lemma isdigit_not_sign c : isdigit c = true → c ≠ "-"%char ∧ c ≠ "+"%char.
Proof. intros H. by split; intros ->. Qed.

(** Reading back what [%d] prints. *)
Lemma scan_int_dec n r :
  (∀ c r', r = c :: r' → isdigit c = false) → scan_int (dec n ++ r) = Some (n, r).
Proof.
  intros Hr. unfold dec.
  assert (∀ m, 0 ≤ m → ∃ c ds, dec_nonneg m = c :: ds ∧ isdigit c = true
    ∧ span isdigit (dec_nonneg m ++ r) = (dec_nonneg m, r) ∧ digits_val (dec_nonneg m) = m) as Hm.
  { intros m Hm. destruct (dec_nonneg_spec m Hm) as (Hv & Hd & Hn).
    pose proof (span_all isdigit (dec_nonneg m) r Hd Hr).
    destruct (dec_nonneg m) as [|c ds]; [done|]. cbn in Hd.
    apply andb_true_iff in Hd as [Hc _]. by exists c, ds. }
  destruct (Z.ltb_spec n 0) as [Hneg|Hpos].
  - destruct (Hm (- n) ltac:(lia)) as (c & ds & Hd & Hc & Hsp & Hv).
    unfold scan_int. cbn [app skip_ws]. change (isspace "-") with false. cbn [bool_decide decide].
    rewrite bool_decide_eq_true_2 by done. rewrite Hsp, Hv, Hd. do 2 f_equal. lia.
  - destruct (Hm n Hpos) as (c & ds & Hd & Hc & Hsp & Hv).
    unfold scan_int. rewrite Hd in *. cbn [app skip_ws] in *.
    rewrite isdigit_not_space by done.
    destruct (isdigit_not_sign c Hc). rewrite !bool_decide_eq_false_2 by done.
    rewrite Hsp, Hv. do 2 f_equal. lia.
Qed.

Lemma forallb_impl (p q : ascii → bool) s :
  (∀ c, p c = true → q c = true) → forallb p s = true → forallb q s = true.
Proof.
  intros H. induction s as [|c s IH]; cbn; [done|].
  intros [? ?]%andb_true_iff. apply andb_true_iff. auto.
Qed.

Lemma dec_no_nul n : no_nul (dec n) = true.
Proof.
  assert (∀ m, 0 ≤ m → no_nul (dec_nonneg m) = true) as H.
  { intros m Hm. destruct (dec_nonneg_spec m Hm) as (_ & Hd & _). revert Hd.
    apply forallb_impl. intros c Hc. by apply bool_decide_eq_true, isdigit_not_nul. }
  unfold dec. destruct (Z.ltb_spec n 0); [apply no_nul_cons; split; [done|]|]; apply H; lia.
Qed.

Lemma forallb_and (p q : ascii → bool) s :
  forallb p s = true → forallb q s = true → forallb (λ c, p c && q c) s = true.
Proof.
  induction s as [|c s IH]; cbn; [done|].
  intros [-> ?]%andb_true_iff [-> ?]%andb_true_iff. auto.
Qed.

(** A printed number is a token. *)
Lemma dec_token n : token (dec n) = true.
Proof.
  assert (∀ m, 0 ≤ m → forallb not_space (dec_nonneg m) = true ∧ dec_nonneg m ≠ []) as H.
  { intros m Hm. destruct (dec_nonneg_spec m Hm) as (_ & Hd & Hn). split; [|done].
    revert Hd. apply forallb_impl. intros c Hc. unfold not_space. by rewrite isdigit_not_space. }
  unfold token. rewrite dec_no_nul, andb_true_r. unfold dec.
  destruct (Z.ltb_spec n 0).
  - destruct (H (- n) ltac:(lia)) as [Hd ?]. cbn [forallb]. by rewrite Hd.
  - destruct (H n ltac:(done)) as [Hd ?]. rewrite Hd. by rewrite bool_decide_eq_false_2.
Qed.

(** The last [%d] of a format reads a printed number. *)
Lemma scan_last_int n : in_int n = true → scan [FInt] (skip_ws (dec n)) = Def [VInt n].
Proof.
  intros Hn. pose proof (scan_int_dec n [] ltac:(done)) as E.
  pose proof (skip_ws_token (dec n) [] (dec_token n)) as F. rewrite app_nil_r in E, F.
  rewrite F. cbn [scan]. by rewrite E, Hn.
Qed.

Lemma from_index_app s r n : blen s = n → from_index (s ++ r) n = Def r.
Proof.
  intros <-. unfold from_index. rewrite blen_app. pose proof (blen_nonneg s). pose proof (blen_nonneg r).
  destruct (Z.leb_spec 0 (blen s)), (Z.leb_spec (blen s) (blen s + blen r)); try lia. cbn.
  f_equal. unfold blen. rewrite Nat2Z.id. apply drop_app_length.
Qed.

Lemma store_cstr_overlay dst s :
  blen s < blen dst → store_cstr dst s = Def (overlay (s ++ [NUL]) dst).
Proof. intros. unfold store_cstr. by destruct (Z.ltb_spec (blen dst) (blen s + 1)); [lia|]. Qed.

Lemma cstr_overlay dst s : no_nul s = true → cstr (overlay (s ++ [NUL]) dst) = Def s.
Proof. intros. unfold overlay. rewrite <- app_assoc. by apply cstr_nul. Qed.

Lemma length_dec_digits fuel n k :
  0 ≤ n < 10 ^ Z.of_nat (S k) → (length (dec_digits fuel n) ≤ S k)%nat.
Proof.
  revert n k. induction fuel as [|f IH]; intros n k Hn; cbn [dec_digits length]; [lia|].
  destruct (Z.ltb_spec n 10); [cbn; lia|]. destruct k as [|k]; [cbn in Hn; lia|].
  rewrite length_app. cbn [length]. rewrite Nat2Z.inj_succ, Z.pow_succ_r in Hn by lia.
  assert (0 ≤ n / 10 < 10 ^ Z.of_nat (S k)) as H10
    by (split; [apply Z.div_pos; lia | apply Z.div_lt_upper_bound; lia]).
  specialize (IH _ _ H10). lia.
Qed.

(** An [int] prints in at most eleven characters. *)
Lemma dec_blen n : in_int n = true → blen (dec n) ≤ 11.
Proof.
  unfold in_int, INT_MIN, INT_MAX. intros [H1 H2]%andb_true_iff. zify_bools.
  unfold dec, dec_nonneg, blen. destruct (Z.ltb_spec n 0).
  - pose proof (length_dec_digits (S (Z.to_nat (Z.log2 (- n)))) (- n) 9). cbn [length]. lia.
  - pose proof (length_dec_digits (S (Z.to_nat (Z.log2 n))) n 9). lia.
Qed.

#[export] Hint Resolve token_no_nul dec_no_nul : no_nul.
