(* ===== verification/Prog.v ===== *)
(** * Programs that act on their environment

    A C++ function that calls the operating system, a shared object or a library is a
    value of [prog]: a tree whose nodes are the calls, in program order, and whose
    leaves say how it ends.  [try_catch] is the [try] statement, [exec] runs a program
    against a deterministic environment and [wp] is the weakest precondition over all
    the answers an environment may give, with a ghost state that a proof may thread
    through the calls.  A [while] loop is its body, a program that
    says whether to go round again, iterated by [exec_loop] with fuel.  [≡] is the equality of
    programs: the same calls, and equal programs after each answer. *)

From S2P Require Import Prelude CString.

(** C++ exceptions the programs can meet. *)
Inductive exn :=
| ExRuntimeError (what : bytes)       (** [std::runtime_error] *)
| ExInvalidArgument                   (** [std::invalid_argument], from [std::stoi] *)
| ExOutOfRange                        (** [std::out_of_range], from [std::stoi] and [vector::at] *)
| ExJsonParse (id : Z)                (** [nlohmann::json::parse_error] *)
| ExJsonType (id : Z)                 (** [nlohmann::json::type_error] *)
| ExJsonOutOfRange (id : Z)           (** [nlohmann::json::out_of_range] *)
| ExJsonOther (id : Z)                (** [nlohmann::json::other_error] *)
| ExJsonIterator (id : Z)             (** [nlohmann::json::invalid_iterator] *)
| ExLengthError                       (** [std::length_error], from [vector::resize] *)
| ExSystemError                       (** [std::system_error], from the constructor of [std::thread] *)
| ExLibrary.                          (** an exception of libdatachannel *)

#[export] Instance exn_eq_dec : EqDecision exn.
Proof. solve_decision. Defined.

(** What the body of a loop asks for: go round again, or leave with a result. *)
Inductive ctl (A : Type) :=
| Continue (a : A)
| Break (a : A).
Arguments Continue {A} a.
Arguments Break {A} a.

(** How a run ends. *)
Inductive outcome (A : Type) :=
| Done (a : A)          (** a value is returned *)
| Threw (e : exn)       (** an exception leaves the function *)
| Undefined (u : ub)    (** undefined behaviour *)
| Exited (code : Z).    (** [exit(code)] *)
Arguments Done {A} a.
Arguments Threw {A} e.
Arguments Undefined {A} u.
Arguments Exited {A} code.

Section prog.
Context {action : Type} {result : action → Type}.

Inductive prog (A : Type) : Type :=
| Ret (a : A)
| Act (c : action) (k : result c → prog A)
| Raise (e : exn)
| Undef (u : ub)
| Halt (code : Z).

Fixpoint prog_bind {A B} (f : A → prog B) (p : prog A) : prog B :=
  match p with
  | Ret _ a => f a
  | Act _ c k => Act B c (λ r, prog_bind f (k r))
  | Raise _ e => Raise B e
  | Undef _ u => Undef B u
  | Halt _ c => Halt B c
  end.

(** [try { p } catch (e) { h }]. *)
Fixpoint try_catch {A} (p : prog A) (h : exn → prog A) : prog A :=
  match p with
  | Act _ c k => Act A c (λ r, try_catch (k r) h)
  | Raise _ e => h e
  | Ret _ _ | Undef _ _ | Halt _ _ => p
  end.

(** One call. *)
Definition call (c : action) : prog (result c) := Act _ c (Ret _).

(** A C function of [CString]. *)
Definition lift_c {A} (m : cres A) : prog A :=
  match m with Def a => Ret _ a | UB u => Undef _ u end.

(** ** Running against a deterministic environment *)

Section exec.
Context {S : Type} (env : ∀ c : action, S → result c * S).

Fixpoint exec {A} (p : prog A) (s : S) : outcome A * S :=
  match p with
  | Ret _ a => (Done a, s)
  | Act _ c k => let '(r, s') := env c s in exec (k r) s'
  | Raise _ e => (Threw e, s)
  | Undef _ u => (Undefined u, s)
  | Halt _ c => (Exited c, s)
  end.

(** [while (true) body], the loop variables being threaded; [None] when the fuel
    ends before the loop does. *)
Fixpoint exec_loop {A} (fuel : nat) (body : A → prog (ctl A)) (x : A) (s : S)
    : option (outcome A * S) :=
  match fuel with
  | O => None
  | Datatypes.S f =>
      match exec (body x) s with
      | (Done (Continue y), s') => exec_loop f body y s'
      | (Done (Break y), s') => Some (Done y, s')
      | (Threw e, s') => Some (Threw e, s')
      | (Undefined u, s') => Some (Undefined u, s')
      | (Exited c, s') => Some (Exited c, s')
      end
  end.
End exec.

(** ** Weakest precondition over every allowed answer *)

Section wp.
(** [G] is what the proof keeps track of while the program runs.  [pre g c]: the
    call [c] may be made knowing [g]; [ok g c r g']: the environment may answer [r],
    after which [g'] is known. *)
Context {G : Type} (pre : G → action → Prop) (ok : G → ∀ c, result c → G → Prop).

Fixpoint wp {A} (g : G) (p : prog A) (Q : G → outcome A → Prop) : Prop :=
  match p with
  | Ret _ a => Q g (Done a)
  | Act _ c k => pre g c ∧ ∀ r g', ok g c r g' → wp g' (k r) Q
  | Raise _ e => Q g (Threw e)
  | Undef _ u => Q g (Undefined u)
  | Halt _ c => Q g (Exited c)
  end.
End wp.
End prog.

Arguments prog {action} result A.
Arguments Ret {action result A} a.
Arguments Act {action result A} c k.
Arguments Raise {action result A} e.
Arguments Undef {action result A} u.
Arguments Halt {action result A} code.

#[export] Instance prog_mret {action} {result : action → Type} : MRet (prog result) := @Ret action result.
#[export] Instance prog_mbind {action} {result : action → Type} : MBind (prog result) :=
  λ A B f p, prog_bind f p.

(** ** Equality of programs *)

Inductive prog_equiv {action} {result : action → Type} {A} : Equiv (prog result A) :=
| equiv_ret a : Ret a ≡ Ret a
| equiv_act c k k' : (∀ r, k r ≡ k' r) → Act c k ≡ Act c k'
| equiv_raise e : Raise e ≡ Raise e
| equiv_undef u : Undef u ≡ Undef u
| equiv_halt c : Halt c ≡ Halt c.
#[export] Existing Instance prog_equiv.

Lemma prog_equiv_inv {action} {result : action → Type} {A} (p q : prog result A) :
  p ≡ q → match p with Act c k => ∃ k', q = Act c k' ∧ ∀ r, k r ≡ k' r | _ => q = p end.
Proof. by intros []; eauto. Qed.

#[export] Instance prog_equivalence {action} {result : action → Type} {A} : Equivalence (≡@{prog result A}).
Proof.
  split.
  - intros p. induction p; by constructor.
  - intros p q H. induction H; by constructor.
  - intros p q r H. revert r. induction H as [|c k k' Hk IH| | |]; intros r Hr; try exact Hr.
    apply prog_equiv_inv in Hr as (k1 & -> & Hk1). constructor. auto.
Qed.

#[export] Instance prog_bind_proper {action} {result : action → Type} {A B} :
  Proper (pointwise_relation _ (≡) ==> (≡) ==> (≡)) (mbind (M := prog result) (A := A) (B := B)).
Proof. intros f g Hf p q H. induction H; cbn; [apply Hf|constructor..]; auto. Qed.

(** The postcondition a prefix must establish for [f] to establish [Q]. *)
Definition bind_post {action A B G} {result : action → Type} (pre : G → action → Prop)
    (ok : G → ∀ c, result c → G → Prop) (f : A → prog result B) (Q : G → outcome B → Prop)
    (g : G) (o : outcome A) : Prop :=
  match o with
  | Done a => wp pre ok g (f a) Q
  | Threw e => Q g (Threw e)
  | Undefined u => Q g (Undefined u)
  | Exited c => Q g (Exited c)
  end.

(** ** Lemmas *)

Section lemmas.
Context {action : Type} {result : action → Type}.
Implicit Types A B S : Type.

Lemma exec_bind {S A B} (env : ∀ c : action, S → result c * S) (p : prog result A)
    (f : A → prog result B) (s : S) :
  exec env (p ≫= f) s =
  match exec env p s with
  | (Done a, s') => exec env (f a) s'
  | (Threw e, s') => (Threw e, s')
  | (Undefined u, s') => (Undefined u, s')
  | (Exited c, s') => (Exited c, s')
  end.
Proof.
  revert s. induction p as [a|c k IH|e|u|c]; intros s; try done.
  cbn. destruct (env c s) as [r s']. apply IH.
Qed.

(** Equal programs run alike, in every environment. *)
#[global] Instance exec_proper {S A} (env : ∀ c : action, S → result c * S) :
  Proper ((≡) ==> (=) ==> (=)) (exec (A := A) env).
Proof.
  intros p q H s s' <-. revert s. induction H as [|c k k' _ IH| | |]; intros s; try done. cbn.
  destruct (env c s) as [r s']. apply IH.
Qed.

#[global] Instance wp_proper {A G} (pre : G → action → Prop) (ok : G → ∀ c, result c → G → Prop) g :
  Proper ((≡) ==> (=) ==> iff) (wp (A := A) pre ok g).
Proof.
  intros p q H Q Q' <-. revert g. induction H as [|c k k' _ IH| | |]; intros g; try done. cbn.
  by setoid_rewrite IH.
Qed.

Lemma exec_try_catch {S A} (env : ∀ c : action, S → result c * S) (p : prog result A) h (s : S) :
  exec env (try_catch p h) s =
  match exec env p s with
  | (Threw e, s') => exec env (h e) s'
  | o => o
  end.
Proof.
  revert s. induction p as [a|c k IH|e|u|c]; intros s; try done; cbn.
  destruct (env c s) as [r s']. apply IH.
Qed.

Lemma wp_mono {A G} (pre pre' : G → action → Prop) (ok ok' : G → ∀ c, result c → G → Prop)
    (p : prog result A) (Q Q' : G → outcome A → Prop) g :
  (∀ g c, pre g c → pre' g c) → (∀ g c r g', ok' g c r g' → ok g c r g') →
  (∀ g o, Q g o → Q' g o) → wp pre ok g p Q → wp pre' ok' g p Q'.
Proof.
  intros Hpre Hok HQ. revert g. induction p as [a|c k IH|e|u|c]; intros g; cbn; eauto.
  intros [? Hk]. split; [auto|]. intros r g' Hr. eauto.
Qed.

Lemma wp_bind {A B G} (pre : G → action → Prop) ok (p : prog result A) (f : A → prog result B) Q g :
  wp pre ok g p (bind_post pre ok f Q) → wp pre ok g (p ≫= f) Q.
Proof.
  revert g. induction p as [a|c k IH|e|u|c]; intros g; cbn; try done.
  intros [? Hk]. split; [done|]. intros r g' Hr. apply IH. auto.
Qed.

Lemma wp_try_catch {A G} (pre : G → action → Prop) ok (p : prog result A) h Q g :
  wp pre ok g p (λ g o, match o with Threw e => wp pre ok g (h e) Q | _ => Q g o end) →
  wp pre ok g (try_catch p h) Q.
Proof.
  revert g. induction p as [a|c k IH|e|u|c]; intros g; cbn; try done.
  intros [? Hk]. split; [done|]. intros r g' Hr. apply IH. auto.
Qed.

Lemma wp_lift_c {A G} (pre : G → action → Prop) ok (m : cres A) (Q : G → outcome A → Prop) g :
  (∀ a, m = Def a → Q g (Done a)) → (∀ u, m = UB u → Q g (Undefined u)) →
  wp (result:=result) pre ok g (lift_c m) Q.
Proof. destruct m; cbn; auto. Qed.

(** What holds over every allowed answer holds in every run whose environment
    gives allowed answers. *)
Lemma wp_exec {S A G} (env : ∀ c : action, S → result c * S) (pre : G → action → Prop)
    (ok : G → ∀ c, result c → G → Prop) (inv : G → S → Prop) (p : prog result A) Q g (s : S) :
  (∀ g c s, pre g c → inv g s → ∃ g', ok g c (env c s).1 g' ∧ inv g' (env c s).2) →
  inv g s → wp pre ok g p Q → ∃ g', Q g' (exec env p s).1 ∧ inv g' (exec env p s).2.
Proof.
  intros Hok. revert g s. induction p as [a|c k IH|e|u|c]; intros g s Hs; cbn; eauto.
  intros [Hp Hk]. destruct (Hok g c s Hp Hs) as (g' & Hr & Hs').
  destruct (env c s) as [r s']. cbn in *. eauto.
Qed.

(** Any run of a loop with enough fuel agrees with any other. *)
Lemma exec_loop_fuel {S A} (env : ∀ c : action, S → result c * S) (body : A → prog result (ctl A))
    f g x s r :
  (f ≤ g)%nat → exec_loop env f body x s = Some r → exec_loop env g body x s = Some r.
Proof.
  revert g x s. induction f as [|f IH]; intros g x s Hfg; [done|].
  destruct g as [|g]; [lia|]. cbn.
  destruct (exec env (body x) s) as [[[y|y]|e|u|c] s']; try done.
  apply IH. lia.
Qed.
End lemmas.

(** Symbolic execution of a bind chain: push [exec] through one step at a time. *)
Ltac exec_step := first [rewrite exec_bind | rewrite exec_try_catch]; cbn [exec].
Ltac wp_step :=
  match goal with
  | |- wp _ _ _ (_ ≫= _) _ => apply wp_bind
  | |- wp _ _ _ (try_catch _ _) _ => apply wp_try_catch
  | |- wp _ _ _ (lift_c _) _ => apply wp_lift_c; intros ? ?
  end.
