(* ===== verification/Net.v ===== *)
(** * Net: the socket calls of the programs

    The operating system is the environment: a socket call is a node of [Prog.prog]
    whose answer the environment chooses.  [net_ok] is what POSIX promises of the
    answers.  A [send] on a connection that the peer has closed has no answer when the process
    does not ignore SIGPIPE, and none of the programs does: the signal ends the process.  The
    environment chooses; the step relation of [ServerSystem] has that end. *)

From S2P Require Import Prelude CString Prog.

Inductive recv_result :=
| RecvError               (** [-1] *)
| RecvBytes (s : bytes).  (** the bytes received; none after an orderly shutdown *)

Inductive net_call :=
| NSocket (dgram : bool)
| NInetPton (addr : bytes)
| NConnect (fd : Z) (addr : bytes) (sin_port : Z)
| NSetsockopt (fd : Z)
| NBind (fd : Z) (addr : bytes) (sin_port : Z)
| NListen (fd : Z)
| NAccept (fd : Z)
| NSend (fd : Z) (data : bytes)
| NSendTo (fd : Z) (data : bytes) (sin_family : Z) (s_addr : bytes) (sin_port : Z)
| NRecv (fd : Z) (n : Z)
| NClose (fd : Z).

#[export] Instance net_call_eq_dec : EqDecision net_call.
Proof. solve_decision. Defined.

Definition net_result (c : net_call) : Type :=
  match c with NRecv _ _ => recv_result | NClose _ => unit | _ => Z end.

(** POSIX: [recv] gives at most the bytes asked for; [send] reports at most the
    bytes it was given. *)
Definition net_ok (c : net_call) : net_result c → Prop :=
  match c with
  | NRecv _ n => λ r, match r with RecvError => True | RecvBytes s => blen s ≤ n end
  | NSend _ data | NSendTo _ data _ _ _ => λ r, -1 ≤ r ≤ blen data
  | NClose _ => λ _, True
  | _ => λ r, -1 ≤ r
  end.

(** The value [recv] returns and the array it leaves. *)
Definition recv_count (r : recv_result) : Z :=
  match r with RecvError => -1 | RecvBytes s => blen s end.
Definition recv_into (r : recv_result) (buf : bytes) : bytes :=
  match r with RecvError => buf | RecvBytes s => overlay s buf end.

(** [htons]: the two bytes of a 16-bit integer, swapped. *)
Definition htons (hostshort : Z) : Z :=
  let x := wrap 16 hostshort in (x mod 256) * 256 + x / 256.

(** [INADDR_ANY], and the address of the machine itself. *)
Definition INADDR_ANY : bytes := b#"0.0.0.0".
Definition LOCALHOST : bytes := b#"127.0.0.1".

Definition AF_INET : Z := 2.

Definition SOCKET_BUFFER_SIZE : Z := 1024.

(** A text as the programs send it: in a zeroed array of [SOCKET_BUFFER_SIZE]
    bytes, all of which go on the wire. *)
Definition packet (s : bytes) : bytes := padded SOCKET_BUFFER_SIZE s.

Lemma recv_into_zeros s n : recv_into (RecvBytes s) (zeros n) = padded n s.
Proof. apply overlay_zeros. Qed.

Lemma blen_packet s : blen s ≤ SOCKET_BUFFER_SIZE → blen (packet s) = SOCKET_BUFFER_SIZE.
Proof. apply blen_padded. Qed.

Lemma cstr_packet s : no_nul s = true → blen s < SOCKET_BUFFER_SIZE → cstr (packet s) = Def s.
Proof. apply cstr_padded. Qed.

(** A whole packet fills the array it is received into. *)
Lemma recv_packet s :
  blen s ≤ SOCKET_BUFFER_SIZE →
  recv_into (RecvBytes (packet s)) (zeros SOCKET_BUFFER_SIZE) = packet s.
Proof. intros. rewrite recv_into_zeros. apply padded_full. by apply blen_packet. Qed.

(** The kernel reads back the port a program stored, modulo 2^16. *)
Lemma htons_involutive p : htons (htons p) = wrap 16 p.
Proof.
  unfold htons, wrap. change (2 ^ 16) with 65536.
  pose proof (Z.mod_pos_bound p 65536 ltac:(lia)).
  generalize dependent (p mod 65536). intros x Hx.
  pose proof (Z.mod_pos_bound x 256 ltac:(lia)).
  assert (0 ≤ x / 256 < 256) by (split; [apply Z.div_pos | apply Z.div_lt_upper_bound]; lia).
  rewrite (Z.mod_small (_ + _) 65536) by lia.
  assert ((x mod 256 * 256 + x / 256) mod 256 = x / 256) as ->
    by (rewrite Z.add_comm, Z.mod_add, Z.mod_small; lia).
  rewrite Z.div_add_l, (Z.div_small (x / 256)) by lia.
  pose proof (Z.div_mod x 256). lia.
Qed.
