(* ===== verification/User.v ===== *)
(** * User: the record of a registered user ([src/User.cpp])

    The two scalar members have no initial value after the default constructor
    [User() {}]; [None] is such an indeterminate value. *)

From S2P Require Import Prelude CString.

Record User := mkUser {
  username_ : bytes;
  password_ : bytes;
  islogin_ : option bool;
  socket_fd_ : option Z
}.

#[export] Instance User_eq_dec : EqDecision User.
Proof. solve_decision. Defined.

(** [User(username, password, islogin, socket_fd)]. *)
Definition User_make (username password : bytes) (islogin : bool) (socket_fd : Z) : User :=
  mkUser username password (Some islogin) (Some socket_fd).

(** [User() {}]: empty strings, indeterminate scalars. *)
Definition User_default : User := mkUser [] [] None None.

(** Reading a scalar. *)
Definition read {A} (m : option A) : cres A :=
  match m with Some a => Def a | None => UB UB_indeterminate end.

(** The copy constructor reads every member. *)
Definition User_copy (other : User) : cres User :=
  b ← read (islogin_ other);
  fd ← read (socket_fd_ other);
  mret (mkUser (username_ other) (password_ other) (Some b) (Some fd)).

Definition getUsername (u : User) : bytes := username_ u.
Definition setUsername (username : bytes) (u : User) : User :=
  mkUser username (password_ u) (islogin_ u) (socket_fd_ u).

Definition getPassword (u : User) : bytes := password_ u.
Definition setPassword (password : bytes) (u : User) : User :=
  mkUser (username_ u) password (islogin_ u) (socket_fd_ u).

Definition getIslogin (u : User) : cres bool := read (islogin_ u).
Definition setIslogin (islogin : bool) (u : User) : User :=
  mkUser (username_ u) (password_ u) (Some islogin) (socket_fd_ u).

Definition getSocketFd (u : User) : cres Z := read (socket_fd_ u).
Definition setSocketFd (socket_fd : Z) (u : User) : User :=
  mkUser (username_ u) (password_ u) (islogin_ u) (Some socket_fd).

(** Every scalar has been given a value. *)
Definition determinate (u : User) : bool :=
  bool_decide (is_Some (islogin_ u)) && bool_decide (is_Some (socket_fd_ u)).

Lemma User_copy_determinate u : determinate u = true → User_copy u = Def u.
Proof. by destruct u as [? ? [?|] [?|]]. Qed.

Lemma User_copy_indeterminate u : determinate u = false → User_copy u = UB UB_indeterminate.
Proof. by destruct u as [? ? [?|] [?|]]. Qed.
