(* ===== verification/Directory.v ===== *)
(** * Directory: what the server relies on in its user store

    [Directory D] lists the operations the server calls on the store, with the
    results they give back; [DirectoryLaws D] is the contract, stated on the
    accounts a store presents ([dir_account]).  [Server] is verified against the
    contract and [UserStore] discharges it. *)

From S2P Require Import Prelude CString User.

(** A registered account as clients see it: [acc_endpoint] is the socket on which
    the owner is reached, [None] when it was never recorded. *)
Record account := mkAccount {
  acc_name : bytes;
  acc_password : bytes;
  acc_online : bool;
  acc_endpoint : option Z
}.

#[export] Instance account_eq_dec : EqDecision account.
Proof. solve_decision. Defined.

Class Directory (D : Type) := {
  dir_empty : D;
  dir_addUser : D → User → cres D;
  dir_loginUser : D → bytes → bytes → bool * D;
  dir_logOutUser : D → bytes → D;
  dir_hasUser : D → bytes → bool;
  dir_isLogin : D → bytes → cres bool;
  (** [Def None] when [std::runtime_error("User not found")] is thrown. *)
  dir_getUser : D → bytes → cres (option User);
  dir_account : D → bytes → option account;
  dir_ok : D → Prop
}.

(** The account a sign-up creates, whatever was there before. *)
Definition signup_account (u : User) (islogin : bool) : account :=
  mkAccount (username_ u) (password_ u) islogin (socket_fd_ u).

(** The account of a name that is logged out without being registered. *)
Definition ghost_account : account := mkAccount [] [] false None.

Definition set_online (b : bool) (a : account) : account :=
  mkAccount (acc_name a) (acc_password a) b (acc_endpoint a).

Definition acc_user (a : account) : cres User :=
  User_copy (mkUser (acc_name a) (acc_password a) (Some (acc_online a)) (acc_endpoint a)).

(** [accepts d n p]: [p] is the password of [n]. *)
Definition accepts `{Directory D} (d : D) (n p : bytes) : bool :=
  match dir_account d n with
  | Some a => bool_decide (acc_password a = p)
  | None => false
  end.

Definition online `{Directory D} (d : D) (n : bytes) : bool :=
  match dir_account d n with Some a => acc_online a | None => false end.

Class DirectoryLaws (D : Type) `{Directory D} := {
  dir_empty_ok : dir_ok dir_empty;
  dir_empty_account k : dir_account dir_empty k = None;
  dir_add_spec d u b fd :
    dir_ok d → islogin_ u = Some b → socket_fd_ u = Some fd →
    ∃ d', dir_addUser d u = Def d' ∧ dir_ok d' ∧
      ∀ k, dir_account d' k =
        if bool_decide (k = username_ u) then Some (signup_account u b) else dir_account d k;
  dir_login_spec d n p :
    dir_ok d →
    (dir_loginUser d n p).1 = accepts d n p ∧ dir_ok (dir_loginUser d n p).2 ∧
    ∀ k, dir_account (dir_loginUser d n p).2 k =
      if bool_decide (k = n) && accepts d n p then set_online true <$> dir_account d k
      else dir_account d k;
  dir_logout_spec d n :
    dir_ok d →
    dir_ok (dir_logOutUser d n) ∧
    ∀ k, dir_account (dir_logOutUser d n) k =
      if bool_decide (k = n)
      then Some (default ghost_account (set_online false <$> dir_account d k))
      else dir_account d k;
  dir_has_spec d n : dir_ok d → dir_hasUser d n = bool_decide (is_Some (dir_account d n));
  dir_isLogin_spec d n : dir_ok d → dir_isLogin d n = Def (online d n);
  dir_get_spec d n :
    dir_ok d →
    dir_getUser d n =
      match dir_account d n with
      | Some a => u ← acc_user a; mret (Some u)
      | None => Def None
      end
}.
