(* ===== verification/UserStore.v ===== *)
(** * UserStore: the registered users ([src/UserStore.cpp])

    [std::unordered_map<std::string, User>] is a finite map, and a member function is a function on it:
    what a call does when no other is in the store.  Every member function but [logOutUser] holds the mutex for its
    whole body; [ServerSystem] has the mutex ([Server.takes_mutex]) and the races of [logOutUser] with the others. *)

From S2P Require Import Prelude CString User Directory.

Abbreviation users_map := (gmap bytes User).

(** [users[key]] creates a default [User] for a key that is absent.  [subscript]
    gives the user the reference designates and the map after the access;
    [update_at] calls a setter through it. *)
Definition subscript (users : users_map) (key : bytes) : User * users_map :=
  match users !! key with
  | Some u => (u, users)
  | None => (User_default, <[key := User_default]> users)
  end.
Definition update_at (users : users_map) (key : bytes) (f : User → User) : users_map :=
  let '(u, users') := subscript users key in <[key := f u]> users'.

Definition addUser (users : users_map) (user : User) : cres users_map :=
  let users := update_at users (getUsername user) (setUsername (getUsername user)) in
  let users := update_at users (getUsername user) (setPassword (getPassword user)) in
  b ← getIslogin user;
  let users := update_at users (getUsername user) (setIslogin b) in
  fd ← getSocketFd user;
  mret (update_at users (getUsername user) (setSocketFd fd)).

Definition loginUser (users : users_map) (username password : bytes) : bool * users_map :=
  match users !! username with
  | Some _ =>
      let '(u, users) := subscript users username in
      if bool_decide (getPassword u = password)
      then (true, update_at users username (setIslogin true))
      else (false, users)
  | None => (false, users)
  end.

Definition logOutUser (users : users_map) (username : bytes) : users_map :=
  update_at users username (setIslogin false).

Definition hasUser (users : users_map) (username : bytes) : bool :=
  bool_decide (is_Some (users !! username)).

Definition isLogin (users : users_map) (username : bytes) : cres bool :=
  match users !! username with
  | Some _ => getIslogin (subscript users username).1
  | None => Def false
  end.

(** [Def None]: [throw std::runtime_error("User not found")]. *)
Definition getUser (users : users_map) (username : bytes) : cres (option User) :=
  match users !! username with
  | Some u => u' ← User_copy u; mret (Some u')
  | None => Def None
  end.

(** ** The store as a directory *)

(** What a stored user presents; [islogin_] always has a value in a store that the
    member functions built ([users_ok]). *)
Definition user_account (u : User) : account :=
  mkAccount (username_ u) (password_ u) (default false (islogin_ u)) (socket_fd_ u).

(** The well-formedness invariant: the login flag of every entry has a value, and
    an entry either is complete and filed under its own name or is the ghost that
    logging out an unknown name leaves behind. *)
Definition entry_ok (key : bytes) (u : User) : Prop :=
  is_Some (islogin_ u) ∧
  (username_ u = key ∧ is_Some (socket_fd_ u) ∨
   username_ u = [] ∧ password_ u = [] ∧ socket_fd_ u = None).
Definition users_ok (users : users_map) : Prop := map_Forall entry_ok users.

#[export] Instance UserStore_Directory : Directory users_map := {
  dir_empty := ∅;
  dir_addUser := addUser;
  dir_loginUser := loginUser;
  dir_logOutUser := logOutUser;
  dir_hasUser := hasUser;
  dir_isLogin := isLogin;
  dir_getUser := getUser;
  dir_account users key := user_account <$> users !! key;
  dir_ok := users_ok
}.

(** ** Lemmas *)

Lemma update_at_eq (users : users_map) key f :
  update_at users key f = <[key := f (default User_default (users !! key))]> users.
Proof.
  unfold update_at, subscript. destruct (users !! key) as [u|] eqn:H; [done|].
  by rewrite insert_insert_eq.
Qed.

(** The four setters of [addUser] leave exactly the new user under its name. *)
Lemma addUser_eq users u b fd :
  islogin_ u = Some b → socket_fd_ u = Some fd →
  addUser users u = Def (<[username_ u := u]> users).
Proof.
  intros Hb Hfd. unfold addUser, getIslogin, getSocketFd, getUsername, getPassword.
  rewrite Hb, Hfd. cbn [read mret cres_ret mbind cres_bind].
  rewrite !update_at_eq. simplify_map_eq. rewrite !insert_insert_eq.
  destruct u; cbn in *; by subst.
Qed.

Lemma loginUser_eq users n p :
  loginUser users n p =
    match users !! n with
    | Some u => if bool_decide (password_ u = p)
                then (true, <[n := setIslogin true u]> users) else (false, users)
    | None => (false, users)
    end.
Proof.
  unfold loginUser, subscript, getPassword. destruct (users !! n) as [u|] eqn:H; [|done].
  case_bool_decide; [|done]. by rewrite update_at_eq, H.
Qed.

Lemma users_ok_insert (users : users_map) key u :
  users_ok users → entry_ok key u → users_ok (<[key := u]> users).
Proof. intros. by apply map_Forall_insert_2. Qed.

Lemma entry_ok_setIslogin key b u : entry_ok key u → entry_ok key (setIslogin b u).
Proof. intros [? ?]. by split. Qed.

Lemma lookup_account_insert (users : users_map) key u k :
  user_account <$> <[key := u]> users !! k =
  if bool_decide (k = key) then Some (user_account u) else user_account <$> users !! k.
Proof.
  case_bool_decide; subst; [by rewrite lookup_insert_eq | by rewrite lookup_insert_ne].
Qed.

#[export] Instance UserStore_laws : DirectoryLaws users_map.
Proof.
  split; cbn.
  - apply map_Forall_empty.
  - done.
  - intros d u b fd Hd Hb Hfd. exists (<[username_ u := u]> d).
    split; [by eapply addUser_eq|]. split.
    + apply users_ok_insert; [done|]. unfold entry_ok. rewrite Hb, Hfd. eauto.
    + intros k. rewrite lookup_account_insert. case_bool_decide; [|done].
      unfold user_account, signup_account. by rewrite Hb.
  - intros d n p Hd. rewrite loginUser_eq. unfold accepts. cbn.
    destruct (d !! n) as [u|] eqn:Hn; cbn.
    + case_bool_decide as Hp; cbn.
      * split; [done|]. split.
        { apply users_ok_insert; [done|]. apply entry_ok_setIslogin. by apply (Hd n). }
        intros k. rewrite lookup_account_insert. case_bool_decide; [|done].
        subst. by rewrite Hn.
      * do 2 (split; [done|]). intros k. by rewrite andb_false_r.
    + do 2 (split; [done|]). intros k. by rewrite andb_false_r.
  - intros d n Hd. unfold logOutUser. rewrite update_at_eq. split.
    + apply users_ok_insert; [done|]. destruct (d !! n) as [u|] eqn:Hn; cbn.
      * apply entry_ok_setIslogin. by apply (Hd n).
      * split; [done|]. by right.
    + intros k. rewrite lookup_account_insert. case_bool_decide; [|done]. subst.
      by destruct (d !! n).
  - intros d n _. unfold hasUser. by destruct (d !! n).
  - intros d n Hd. unfold isLogin, subscript, online. cbn.
    destruct (d !! n) as [u|] eqn:Hn; [|done]. cbn.
    destruct (Hd n u Hn) as [[b Hb] _]. unfold getIslogin. by rewrite Hb.
  - intros d n Hd. unfold getUser. cbn. destruct (d !! n) as [u|] eqn:Hn; [|done]. cbn.
    destruct (Hd n u Hn) as [[b Hb] _]. unfold acc_user, user_account. cbn.
    destruct u; cbn in *; by subst.
Qed.
