(* ===== verification/ThreadSafeMap.v ===== *)
(** * ThreadSafeMap: a locked map with a text file format
      ([include/ThreadSafeMap.hpp], [src/ThreadSafeMap.cpp])

    Every member function but [readFromFile] holds the mutex for its whole body, so
    a call is one step on [map_]; [readFromFile] takes the lock once per entry,
    inside [add].  The container is [std::map]: a finite map visited in ascending
    order of its keys ([entries]).  [getline] follows the standard's rules for
    [eofbit] and [failbit], which decide what [readFromFile] accepts. *)

From S2P Require Import Prelude.

(** ** The container operations, for any key and value type *)

Section operations.
Context {K V : Type} `{Countable K} (value_init : V).   (** [V()] *)

Definition add (map_ : gmap K V) (key : K) (value : V) : gmap K V := <[key := value]> map_.

Definition edit (map_ : gmap K V) (key : K) (value : V) : gmap K V :=
  if bool_decide (is_Some (map_ !! key)) then <[key := value]> map_ else map_.

Definition remove (map_ : gmap K V) (key : K) : gmap K V := delete key map_.

Definition get (map_ : gmap K V) (key : K) : V :=
  match map_ !! key with Some v => v | None => value_init end.

Definition contains (map_ : gmap K V) (key : K) : bool := bool_decide (is_Some (map_ !! key)).
End operations.

(** ** Input streams *)

(** What is left to read, and whether neither [eofbit] nor [failbit] is set. *)
Record istream := mkIstream { rest : bytes; good : bool }.

Definition open_stream (content : bytes) : istream := mkIstream content true.

(** The bytes up to the delimiter, whether the delimiter was met, and what follows. *)
Fixpoint take_until (delim : ascii) (s : bytes) : bytes * bool * bytes :=
  match s with
  | [] => ([], false, [])
  | c :: s' =>
      if bool_decide (c = delim) then ([], true, s')
      else let '(t, found, r) := take_until delim s' in (c :: t, found, r)
  end.

(** [std::getline(in, line, delim)]: [None] when the stream converts to [false]. *)
Definition getline (delim : ascii) (s : istream) : option bytes * istream :=
  if good s then
    let '(t, found, r) := take_until delim (rest s) in
    if (found : bool) then (Some t, mkIstream r true)
    else (if bool_decide (t = []) then None else Some t, mkIstream r false)
  else (None, s).

(** ** Files *)

(** Entries in the order [std::map] visits them. *)
Definition key_le {V} (p q : bytes * V) : Prop := bytes_ltb q.1 p.1 = false.
#[export] Instance key_le_dec {V} : RelDecision (@key_le V).
Proof. intros p q. unfold key_le. apply _. Defined.

Definition entries {V} (map_ : gmap bytes V) : list (bytes * V) :=
  merge_sort key_le (map_to_list map_).

Definition file_line (delimiter : ascii) (entry : bytes * bytes) : bytes :=
  entry.1 ++ delimiter :: entry.2 ++ [LF].

(** What [print] sends to the console. *)
Definition print_line (pair : bytes * bytes) : bytes :=
  b#"Key: " ++ pair.1 ++ b#" Value: " ++ pair.2 ++ [LF].
Definition print (map_ : gmap bytes bytes) : bytes := concat (print_line <$> entries map_).

(** The contents of the files of the system. *)
Abbreviation files := (gmap bytes bytes).

Section files.
(** Whether the system lets the program open a file for writing. *)
Context (can_write : bytes → bool).

(** A file that cannot be opened leaves the stream failed and every output dropped. *)
Definition writeToFile (map_ : gmap bytes bytes) (fs : files) (filename : bytes) (delimiter : ascii)
    : files :=
  if can_write filename
  then <[filename := concat (file_line delimiter <$> entries map_)]> fs
  else fs.
End files.

(** One line: a key up to the delimiter, then a value up to the end of the line;
    [add] runs only when both reads succeed. *)
Definition readLine (delimiter : ascii) (map_ : gmap bytes bytes) (line : bytes) : gmap bytes bytes :=
  let iss := open_stream line in
  match getline delimiter iss with
  | (Some key, iss) =>
      match getline LF iss with
      | (Some value, _) => add map_ key value
      | (None, _) => map_
      end
  | (None, _) => map_
  end.

(** [while (std::getline(infile, line))]. *)
Fixpoint read_loop (fuel : nat) (delimiter : ascii) (infile : istream) (map_ : gmap bytes bytes)
    : option (gmap bytes bytes) :=
  match fuel with
  | O => None
  | S f =>
      match getline LF infile with
      | (Some line, infile) => read_loop f delimiter infile (readLine delimiter map_ line)
      | (None, _) => Some map_
      end
  end.

(** Fuel for a whole file: each round but the last consumes a byte. *)
Definition read_fuel (content : bytes) : nat := 2 + length content.

Definition readFromFile (map_ : gmap bytes bytes) (fs : files) (filename : bytes) (delimiter : ascii)
    : option (gmap bytes bytes) :=
  match fs !! filename with
  | Some content => read_loop (read_fuel content) delimiter (open_stream content) map_
  | None => Some map_
  end.

(** Entries the file format can carry. *)
Definition storable (delimiter : ascii) (key value : bytes) : Prop :=
  (delimiter ∉ key) ∧ (LF ∉ key) ∧ (LF ∉ value) ∧ value ≠ [].

(** ** Lemmas *)

Lemma take_until_found delim s r : delim ∉ s → take_until delim (s ++ delim :: r) = (s, true, r).
Proof.
  induction s as [|c s IH]; intros Hs; cbn.
  - by rewrite bool_decide_eq_true_2.
  - apply not_elem_of_cons in Hs as [Hc Hs].
    rewrite bool_decide_eq_false_2 by done. by rewrite IH.
Qed.

Lemma take_until_absent delim s : delim ∉ s → take_until delim s = (s, false, []).
Proof.
  induction s as [|c s IH]; intros Hs; cbn; [done|].
  apply not_elem_of_cons in Hs as [Hc Hs].
  rewrite bool_decide_eq_false_2 by done. by rewrite IH.
Qed.

Lemma take_until_length delim s t found r :
  take_until delim s = (t, found, r) →
  (length r + (if found then 1 else 0) + length t = length s)%nat.
Proof.
  revert t found r. induction s as [|c s IH]; intros t found r; cbn; [by intros [= <- <- <-]|].
  case_bool_decide; [intros [= <- <- <-]; cbn; lia|].
  destruct (take_until delim s) as [[t' f'] r'] eqn:E. intros [= <- <- <-].
  specialize (IH _ _ _ eq_refl). cbn. lia.
Qed.

Lemma getline_found delim s r :
  delim ∉ s → getline delim (open_stream (s ++ delim :: r)) = (Some s, open_stream r).
Proof. intros. unfold getline. cbn. by rewrite take_until_found. Qed.

Lemma getline_last delim s :
  delim ∉ s → s ≠ [] → getline delim (open_stream s) = (Some s, mkIstream [] false).
Proof.
  intros. unfold getline. cbn. rewrite take_until_absent by done.
  by rewrite bool_decide_eq_false_2.
Qed.

(** A storable line is read back as its entry. *)
Lemma readLine_entry delim m k v :
  storable delim k v → readLine delim m (k ++ delim :: v) = add m k v.
Proof.
  intros (Hk & _ & Hv & Hnv). unfold readLine. rewrite getline_found by done.
  by rewrite getline_last.
Qed.

(** Reading a file of storable lines adds its entries in order. *)
Lemma read_loop_lines delim (es : list (bytes * bytes)) fuel m :
  delim ≠ LF → Forall (λ e, storable delim e.1 e.2) es → (length es < fuel)%nat →
  read_loop fuel delim (open_stream (concat (file_line delim <$> es))) m =
  Some (foldl (λ m e, add m e.1 e.2) m es).
Proof.
  intros Hd. revert fuel m. induction es as [|[k v] es IH]; intros fuel m Hes Hf.
  - destruct fuel; [lia|]. done.
  - destruct fuel as [|fuel]; [cbn in Hf; lia|].
    inversion Hes as [|? ? Hkv Hes']; subst. cbn in Hkv.
    cbn [fmap list_fmap concat]. unfold file_line at 1. cbn [fst snd].
    replace ((k ++ delim :: v ++ [LF]) ++ concat (file_line delim <$> es))
      with ((k ++ delim :: v) ++ LF :: concat (file_line delim <$> es))
      by (rewrite <- !app_assoc; cbn; by rewrite <- app_assoc).
    cbn [read_loop]. rewrite getline_found.
    + rewrite IH; [|done|cbn in Hf; lia]. cbn. by rewrite readLine_entry.
    + destruct Hkv as (? & ? & ? & ?).
      rewrite not_elem_of_app, not_elem_of_cons. done.
Qed.

(** Adding all the entries of a map, in any order, gives the map over what was there. *)
Lemma foldl_add_perm (es : list (bytes * bytes)) m m0 :
  es ≡ₚ map_to_list m → foldl (λ m e, add m e.1 e.2) m0 es = m ∪ m0.
Proof.
  revert m m0. induction es as [|[k v] es IH]; intros m m0 Hp; cbn.
  - apply Permutation_nil_l in Hp. symmetry in Hp. apply map_to_list_empty_iff in Hp as ->.
    by rewrite (left_id_L ∅ (∪)).
  - assert (m !! k = Some v) as Hk.
    { apply elem_of_map_to_list. rewrite <- Hp. apply elem_of_cons. by left. }
    rewrite (IH (delete k m)).
    + unfold add. apply map_eq. intros i. rewrite !lookup_union.
      destruct (decide (i = k)) as [->|Hi].
      * rewrite lookup_delete_eq, lookup_insert_eq, Hk. by destruct (m0 !! k).
      * by rewrite lookup_delete_ne, lookup_insert_ne by done.
    + apply (Permutation_cons_inv (a:=(k, v))). rewrite Hp.
      symmetry. by apply map_to_list_delete.
Qed.

Lemma entries_perm {V} (m : gmap bytes V) : entries m ≡ₚ map_to_list m.
Proof. apply merge_sort_Permutation. Qed.

Lemma length_concat_lines delim (es : list (bytes * bytes)) :
  (length es ≤ length (concat (file_line delim <$> es)))%nat.
Proof.
  induction es as [|[k v] es IH]; cbn [fmap list_fmap concat length]; [lia|].
  rewrite length_app. assert (0 < length (file_line delim (k, v)))%nat; [|lia].
  unfold file_line. rewrite !length_app. cbn. lia.
Qed.

(** Each round of the reading loop shortens the stream or ends it. *)
Lemma getline_decreases s line s' :
  getline LF s = (Some line, s') →
  (length (rest s') + (if good s' then 1 else 0) < length (rest s) + (if good s then 1 else 0))%nat.
Proof.
  unfold getline. destruct (good s) eqn:Hg; [|done].
  destruct (take_until LF (rest s)) as [[t f] r] eqn:E. pose proof (take_until_length _ _ _ _ _ E).
  destruct f; [intros [= <- <-]; cbn; lia|].
  case_bool_decide; [done|]. intros [= <- <-]. cbn. lia.
Qed.

(** ** Properties *)

(** Reading any file ends: with the fuel [readFromFile] uses the
    loop over its lines has run to its end, whatever the bytes of the file are. *)
Lemma readFromFile_total map_ fs filename delimiter :
  is_Some (readFromFile map_ fs filename delimiter).
Proof.
  assert (∀ fuel s m, (length (rest s) + (if good s then 1 else 0) < fuel)%nat →
    is_Some (read_loop fuel delimiter s m)) as Hloop.
  { induction fuel as [|fuel IH]; intros s m Hf; [lia|]. cbn.
    destruct (getline LF s) as [[line|] s'] eqn:E; [|eauto].
    apply IH. pose proof (getline_decreases _ _ _ E). lia. }
  unfold readFromFile. destruct (fs !! filename) as [content|]; [|eauto].
  apply Hloop. unfold read_fuel. cbn. lia.
Qed.

(** C38 (roundtrip): what [writeToFile] writes, [readFromFile] reads back: the
    entries of the written map over those that were already there, provided no key
    holds the delimiter or a line feed and every value is non-empty and holds no
    line feed. *)
Theorem readFromFile_writeToFile can_write map_ map0 fs filename delimiter :
  can_write filename = true → delimiter ≠ LF →
  map_Forall (storable delimiter) map_ →
  readFromFile map0 (writeToFile can_write map_ fs filename delimiter) filename delimiter
  = Some (map_ ∪ map0).
Proof.
  intros Hw Hd Hs. unfold writeToFile, readFromFile. rewrite Hw, lookup_insert_eq.
  rewrite read_loop_lines; [by rewrite (foldl_add_perm _ map_) by apply entries_perm|done| |].
  - rewrite entries_perm. apply Forall_forall. intros [k v] Hin%elem_of_map_to_list. by apply Hs.
  - unfold read_fuel. pose proof (length_concat_lines delimiter (entries map_)). lia.
Qed.

Lemma readFromFile_writeToFile_witness :
  readFromFile ∅ (writeToFile (λ _, true)
      (<[b#"test" := b#"123"]> (<[b#"test2" := b#"12345"]> ∅)) ∅ b#"db/users.txt" SPC)
    b#"db/users.txt" SPC
  = Some (<[b#"test" := b#"123"]> (<[b#"test2" := b#"12345"]> ∅) ∪ ∅).
Proof.
  apply (readFromFile_writeToFile (λ _, true) _ ∅ ∅ b#"db/users.txt" SPC); [done|done|].
  apply map_Forall_insert_2; [|apply map_Forall_insert_2; [|apply map_Forall_empty]];
    unfold storable; vm_compute; set_solver.
Defined.

(** An entry whose value is empty does not survive the file: the
    second [getline] meets the end of the line and fails, so the entry is skipped. *)
Lemma readFromFile_drops_empty_value can_write key map0 fs filename delimiter :
  can_write filename = true → delimiter ≠ LF → delimiter ∉ key → LF ∉ key →
  readFromFile map0 (writeToFile can_write {[ key := [] ]} fs filename delimiter) filename delimiter
  = Some map0.
Proof.
  intros Hw Hd Hk Hl. unfold writeToFile, readFromFile. rewrite Hw, lookup_insert_eq.
  assert (entries ({[ key := [] ]} : gmap bytes bytes) = [(key, [])]) as ->.
  { apply Permutation_singleton_r. rewrite entries_perm. by rewrite map_to_list_singleton. }
  unfold read_fuel. cbn [fmap list_fmap concat]. unfold file_line. cbn [fst snd].
  rewrite app_nil_r. replace (key ++ delimiter :: [] ++ [LF]) with ((key ++ [delimiter]) ++ [LF])
    by (by rewrite <- app_assoc).
  cbn [Nat.add read_loop]. rewrite getline_found by set_solver. cbn.
  unfold readLine. by rewrite getline_found by done.
Qed.

Lemma readFromFile_drops_empty_value_witness :
  readFromFile ∅ (writeToFile (λ _, true) {[ b#"bob" := [] ]} ∅ b#"f" SPC) b#"f" SPC = Some ∅.
Proof.
  apply (readFromFile_drops_empty_value (λ _, true) b#"bob"); vm_compute; set_solver.
Defined.

(** The container operations agree with a map: after [add] the key
    is contained with its value, [edit] changes only a key that is present,
    [remove] removes it, [get] of an absent key is [V()], and other keys keep what
    they had. *)
Lemma operations_spec {V} (value_init : V) (m : gmap bytes V) k v k' :
  get value_init (add m k v) k' = (if bool_decide (k' = k) then v else get value_init m k') ∧
  get value_init (edit m k v) k' =
    (if bool_decide (k' = k) && contains m k then v else get value_init m k') ∧
  get value_init (remove m k) k' =
    (if bool_decide (k' = k) then value_init else get value_init m k') ∧
  contains (edit m k v) k' = contains m k' ∧
  contains (remove m k) k' = contains m k' && negb (bool_decide (k' = k)) ∧
  contains (add m k v) k' = contains m k' || bool_decide (k' = k).
Proof.
  unfold get, add, edit, remove, contains.
  destruct (decide (k' = k)) as [->|Hk].
  - rewrite !bool_decide_eq_true_2 with (P := k = k) by done. simplify_map_eq.
    destruct (m !! k) eqn:Hm; cbn; simplify_map_eq; done.
  - rewrite !bool_decide_eq_false_2 with (P := k' = k) by done. simplify_map_eq.
    destruct (m !! k) eqn:Hm; cbn; simplify_map_eq; rewrite ?andb_true_r, ?orb_false_r; done.
Qed.
