(* ===== verification/Utf8.v ===== *)
(** * Utf8: the two UTF-8 validators of the JSON library
      ([include/nlohmann/json.hpp])

    The serializer checks strings with a table-driven automaton ([decode], the array
    [utf8d]); the lexer checks them with ranges per lead byte ([string_ranges],
    [next_byte_in_range]) and turns code points into bytes ([utf8_encode]).  The two
    validators are proved to be the same automaton, and the automaton to compute the
    code points that [utf8_encode] encodes. *)

From S2P Require Import Prelude.

(** ** The automaton of the serializer *)

Definition UTF8_ACCEPT : Z := 0.
Definition UTF8_REJECT : Z := 1.

(** [utf8d]: the classes of the 256 bytes, then the transitions of the nine states. *)
Definition utf8d : list Z :=
  replicate 128 0 ++
  replicate 16 1 ++ replicate 16 9 ++ replicate 32 7 ++ replicate 2 8 ++ replicate 30 2 ++
  [0xA; 0x3; 0x3; 0x3; 0x3; 0x3; 0x3; 0x3; 0x3; 0x3; 0x3; 0x3; 0x3; 0x4; 0x3; 0x3] ++
  [0xB; 0x6; 0x6; 0x6; 0x5; 0x8; 0x8; 0x8; 0x8; 0x8; 0x8; 0x8; 0x8; 0x8; 0x8; 0x8] ++
  [0x0; 0x1; 0x2; 0x3; 0x5; 0x8; 0x7; 0x1; 0x1; 0x1; 0x4; 0x6; 0x1; 0x1; 0x1; 0x1] ++
  [1; 1; 1; 1; 1; 1; 1; 1; 1; 1; 1; 1; 1; 1; 1; 1; 1; 0; 1; 1; 1; 1; 1; 0; 1; 0; 1; 1; 1; 1; 1; 1] ++
  [1; 2; 1; 1; 1; 1; 1; 2; 1; 2; 1; 1; 1; 1; 1; 1; 1; 1; 1; 1; 1; 1; 1; 2; 1; 1; 1; 1; 1; 1; 1; 1] ++
  [1; 2; 1; 1; 1; 1; 1; 1; 1; 2; 1; 1; 1; 1; 1; 1; 1; 1; 1; 1; 1; 1; 1; 3; 1; 3; 1; 1; 1; 1; 1; 1] ++
  [1; 3; 1; 1; 1; 1; 1; 3; 1; 3; 1; 1; 1; 1; 1; 1; 1; 3; 1; 1; 1; 1; 1; 1; 1; 1; 1; 1; 1; 1; 1; 1].

Definition utf8d_at (i : Z) : Z := nth (Z.to_nat i) utf8d 0.

(** [decode(state, codep, byte)]: the new state and code point. *)
Definition decode (state codep byte : Z) : Z * Z :=
  let type := utf8d_at byte in
  let codep :=
    if negb (state =? UTF8_ACCEPT)
    then Z.lor (Z.land byte 0x3F) (wrap 32 (Z.shiftl codep 6))
    else Z.land (Z.shiftr 0xFF type) byte in
  let index := 256 + state * 16 + type in
  (utf8d_at index, codep).

Arguments decode : simpl never.

(** ** The ranges of the lexer *)

(** The [switch] of [scan_string] over bytes that start a character copied as it is:
    the ranges of the bytes that must follow, [None] for an ill-formed start; characters
    of three bytes, of four bytes, and the whole switch. *)
Definition three_byte_ranges (current : Z) : option (list (Z * Z)) :=
  if current =? 0xE0 then Some [(0xA0, 0xBF); (0x80, 0xBF)]
  else if (0xE1 <=? current) && (current <=? 0xEC) || (0xEE <=? current) && (current <=? 0xEF)
       then Some [(0x80, 0xBF); (0x80, 0xBF)]
  else if current =? 0xED then Some [(0x80, 0x9F); (0x80, 0xBF)]
  else None.

Definition four_byte_ranges (current : Z) : option (list (Z * Z)) :=
  if current =? 0xF0 then Some [(0x90, 0xBF); (0x80, 0xBF); (0x80, 0xBF)]
  else if (0xF1 <=? current) && (current <=? 0xF3)
       then Some [(0x80, 0xBF); (0x80, 0xBF); (0x80, 0xBF)]
  else if current =? 0xF4 then Some [(0x80, 0x8F); (0x80, 0xBF); (0x80, 0xBF)]
  else None.

Definition string_ranges (current : Z) : option (list (Z * Z)) :=
  if (0x20 <=? current) && (current <=? 0x7F) then Some []
  else if (0xC2 <=? current) && (current <=? 0xDF) then Some [(0x80, 0xBF)]
  else match three_byte_ranges current with
       | Some ranges => Some ranges
       | None => four_byte_ranges current
       end.

(** [next_byte_in_range(ranges)] on the input that is left: the bytes it adds after
    the current one and the input after them, [None] when a byte is missing or out of
    its range. *)
Fixpoint next_byte_in_range (ranges : list (Z * Z)) (s : bytes) : option (bytes * bytes) :=
  match ranges with
  | [] => Some ([], s)
  | (lo, hi) :: ranges =>
      match s with
      | c :: s =>
          if (lo <=? byteZ c) && (byteZ c <=? hi)
          then '(t, r) ← next_byte_in_range ranges s; Some (c :: t, r)
          else None
      | [] => None
      end
  end.

(** The bytes the lexer adds for a code point of a [\u] escape. *)
Definition utf8_encode (codepoint : Z) : bytes :=
  if codepoint <? 0x80 then [Zbyte codepoint]
  else if codepoint <=? 0x7FF then
    [Zbyte (Z.lor 0xC0 (Z.shiftr codepoint 6)); Zbyte (Z.lor 0x80 (Z.land codepoint 0x3F))]
  else if codepoint <=? 0xFFFF then
    [Zbyte (Z.lor 0xE0 (Z.shiftr codepoint 12));
     Zbyte (Z.lor 0x80 (Z.land (Z.shiftr codepoint 6) 0x3F));
     Zbyte (Z.lor 0x80 (Z.land codepoint 0x3F))]
  else
    [Zbyte (Z.lor 0xF0 (Z.shiftr codepoint 18));
     Zbyte (Z.lor 0x80 (Z.land (Z.shiftr codepoint 12) 0x3F));
     Zbyte (Z.lor 0x80 (Z.land (Z.shiftr codepoint 6) 0x3F));
     Zbyte (Z.lor 0x80 (Z.land codepoint 0x3F))].

(** ** Specification *)

(** A Unicode scalar value: a code point that is not a surrogate. *)
Definition scalar (cp : Z) : bool :=
  (0 <=? cp) && (cp <? 0xD800) || (0xE000 <=? cp) && (cp <=? 0x10FFFF).

(** The automaton over a whole string: the states after each byte. *)
Fixpoint run_decode (state codep : Z) (s : bytes) : Z * Z :=
  match s with
  | [] => (state, codep)
  | c :: s => let '(state, codep) := decode state codep (byteZ c) in run_decode state codep s
  end.

(** What a state still waits for, in the lexer's terms. *)
Definition state_ranges (state : Z) : option (list (Z * Z)) :=
  match state with
  | 0 => Some []
  | 2 => Some [(0x80, 0xBF)]
  | 3 => Some [(0x80, 0xBF); (0x80, 0xBF)]
  | 4 => Some [(0xA0, 0xBF); (0x80, 0xBF)]
  | 5 => Some [(0x80, 0x9F); (0x80, 0xBF)]
  | 6 => Some [(0x90, 0xBF); (0x80, 0xBF); (0x80, 0xBF)]
  | 7 => Some [(0x80, 0xBF); (0x80, 0xBF); (0x80, 0xBF)]
  | 8 => Some [(0x80, 0x8F); (0x80, 0xBF); (0x80, 0xBF)]
  | _ => None
  end.

(** One byte in the lexer's automaton: bytes below 0x20 count as characters. *)
Definition ranges_step (ranges : list (Z * Z)) (byte : Z) : option (list (Z * Z)) :=
  match ranges with
  | [] => if byte <? 0x20 then Some [] else string_ranges byte
  | (lo, hi) :: ranges => if (lo <=? byte) && (byte <=? hi) then Some ranges else None
  end.

(** A string is valid UTF-8 when it is a sequence of encoded scalar values. *)
Definition utf8_valid (s : bytes) : Prop :=
  ∃ cps, Forall (λ cp, scalar cp = true) cps ∧ s = concat (utf8_encode <$> cps).

(** ** Small integers, by computation *)

Lemma forall_below (n : Z) (P : Z → bool) :
  forallb P (Z.of_nat <$> seq 0 (Z.to_nat n)) = true → ∀ z, 0 ≤ z < n → P z = true.
Proof.
  intros H z Hz. rewrite forallb_forall in H. apply H.
  apply list_elem_of_In, list_elem_of_fmap. exists (Z.to_nat z). split; [lia|].
  apply elem_of_seq. lia.
Qed.

(** Bits that do not meet add up. *)
Lemma lor_shift n x c : 0 ≤ n → 0 ≤ x < 2 ^ n → Z.lor x (Z.shiftl c n) = c * 2 ^ n + x.
Proof.
  intros Hn Hx.
  assert (Z.land x (Z.shiftl c n) = 0) as Hl.
  { apply Z.bits_inj'. intros i Hi. rewrite Z.land_spec, Z.bits_0.
    rewrite <- (Z.mod_small x (2 ^ n)) by done.
    destruct (Z.ltb_spec i n); [by rewrite Z.shiftl_spec_low, andb_false_r by lia|].
    by rewrite Z.mod_pow2_bits_high by lia. }
  rewrite <- Z.lxor_lor, <- Z.add_nocarry_lxor by done. rewrite Z.shiftl_mul_pow2 by lia. lia.
Qed.

Lemma lor_shift_low x c : 0 ≤ x < 64 → Z.lor x (Z.shiftl c 6) = c * 64 + x.
Proof. intros. by apply (lor_shift 6). Qed.

(** ** The two automata agree *)

(** One entry of the table against one step of the lexer's automaton. *)
Definition entry_ok (s b : Z) : bool :=
  let '(s', _) := decode s 0 b in
  match state_ranges s with
  | Some r => bool_decide (state_ranges s' = ranges_step r b) && (0 <=? s') && (s' <? 9)
              && ((s' =? UTF8_REJECT) || bool_decide (is_Some (state_ranges s')))
  | None => true
  end.

Lemma entries_ok : ∀ s, 0 ≤ s < 9 → ∀ b, 0 ≤ b < 256 → entry_ok s b = true.
Proof.
  intros s Hs. apply (forall_below 256 (entry_ok s)). revert s Hs.
  apply (forall_below 9 (λ s, forallb (entry_ok s) (Z.of_nat <$> seq 0 (Z.to_nat 256)))).
  vm_compute. reflexivity.
Qed.

Lemma state_ranges_range s r : state_ranges s = Some r → 0 ≤ s < 9.
Proof. destruct s as [|p|p]; [done| |done]. do 4 (destruct p as [p|p|]; try done). Qed.

Lemma decode_fst s c b : (decode s c b).1 = (decode s 0 b).1.
Proof. done. Qed.

(** The state after a byte waits for what the lexer's automaton waits for. *)
Lemma decode_ranges s r codep b :
  state_ranges s = Some r → 0 ≤ b < 256 →
  state_ranges (decode s codep b).1 = ranges_step r b ∧
  ((decode s codep b).1 = UTF8_REJECT ∨ is_Some (state_ranges (decode s codep b).1)) ∧
  0 ≤ (decode s codep b).1 < 9.
Proof.
  intros Hr Hb. pose proof (entries_ok s (state_ranges_range s r Hr) b Hb) as H.
  unfold entry_ok in H. rewrite (decode_fst s codep b). destruct (decode s 0 b) as [s' c'].
  rewrite Hr in H. cbn [fst]. split_bools.
  repeat match goal with H : bool_decide _ = true |- _ => apply bool_decide_eq_true in H end.
  split; [done|]. split; [|lia].
  match goal with H : _ || _ = true |- _ => apply orb_true_iff in H as [Hq|Hq] end.
  - left. by apply Z.eqb_eq.
  - right. by apply bool_decide_eq_true in Hq.
Qed.

(** The lexer's automaton over a string. *)
Fixpoint run_ranges (ranges : list (Z * Z)) (s : bytes) : option (list (Z * Z)) :=
  match s with
  | [] => Some ranges
  | c :: s => ranges ← ranges_step ranges (byteZ c); run_ranges ranges s
  end.

(** Once rejected, always rejected: the row of state 1 holds only 1. *)
Lemma decode_reject codep b : 0 ≤ b < 256 → (decode UTF8_REJECT codep b).1 = UTF8_REJECT.
Proof.
  intros Hb. rewrite decode_fst. apply Z.eqb_eq.
  by apply (forall_below 256 (λ b, (decode UTF8_REJECT 0 b).1 =? UTF8_REJECT)).
Qed.

Lemma run_decode_reject codep s : (run_decode UTF8_REJECT codep s).1 = UTF8_REJECT.
Proof.
  revert codep. induction s as [|c s IH]; intros codep; [done|]. cbn [run_decode].
  pose proof (decode_reject codep (byteZ c) (byteZ_range c)) as E.
  destruct (decode UTF8_REJECT codep (byteZ c)) as [s' c']. cbn in E. by subst s'.
Qed.

(** The serializer's automaton reaches a state that waits for what the lexer's waits for. *)
Lemma run_decode_ranges s st codep r :
  state_ranges st = Some r →
  state_ranges (run_decode st codep s).1 = run_ranges r s ∧
  ((run_decode st codep s).1 = UTF8_REJECT ↔ run_ranges r s = None).
Proof.
  revert st codep r. induction s as [|c s IH]; intros st codep r Hr.
  - cbn. rewrite Hr. split; [done|]. split; [|done]. intros ->. by cbn in Hr.
  - cbn [run_decode run_ranges].
    destruct (decode_ranges st r codep (byteZ c) Hr (byteZ_range c)) as (Hstep & Hrej & _).
    destruct (decode st codep (byteZ c)) as [st' codep']. cbn [fst] in *.
    destruct (ranges_step r (byteZ c)) as [r'|]; cbn [mbind option_bind].
    + apply IH. done.
    + destruct Hrej as [->|[x Hx]]; [|congruence]. rewrite run_decode_reject. done.
Qed.

(** ** Characters *)

(** The payload bits of a lead byte, and the code point of a whole character. *)
Definition lead_bits (b : Z) : Z :=
  if b <? 0x80 then b else if b <? 0xE0 then b - 0xC0 else if b <? 0xF0 then b - 0xE0 else b - 0xF0.
Definition push_bits (cp : Z) (t : bytes) : Z := fold_left (λ cp x, cp * 64 + (byteZ x - 0x80)) t cp.

(** [c :: t] is one character: a lead byte and the bytes its ranges ask for. *)
Definition character (c : ascii) (t : bytes) : Prop :=
  ∃ r, ranges_step [] (byteZ c) = Some r ∧ next_byte_in_range r t = Some (t, []).

Lemma lor_add (m n x : Z) :
  forallb (λ x, Z.lor m x =? m + x) (Z.of_nat <$> seq 0 (Z.to_nat n)) = true →
  0 ≤ x < n → Z.lor m x = m + x.
Proof. intros H Hx. apply Z.eqb_eq. by apply (forall_below n (λ x, Z.lor m x =? m + x)). Qed.

Lemma lor_C0 x : 0 ≤ x < 32 → Z.lor 0xC0 x = 0xC0 + x.
Proof. by apply (lor_add 0xC0 32). Qed.
Lemma lor_E0 x : 0 ≤ x < 16 → Z.lor 0xE0 x = 0xE0 + x.
Proof. by apply (lor_add 0xE0 16). Qed.
Lemma lor_F0 x : 0 ≤ x < 8 → Z.lor 0xF0 x = 0xF0 + x.
Proof. by apply (lor_add 0xF0 8). Qed.
Lemma lor_80 x : 0 ≤ x < 64 → Z.lor 0x80 x = 0x80 + x.
Proof. by apply (lor_add 0x80 64). Qed.

Lemma land_3F x : Z.land x 0x3F = x mod 64.
Proof. change 0x3F with (Z.ones 6). by rewrite Z.land_ones by lia. Qed.

Lemma shiftr_div x n : 0 ≤ n → Z.shiftr x n = x / 2 ^ n.
Proof. apply Z.shiftr_div_pow2. Qed.

(** [utf8_encode] with the bit operations as arithmetic. *)
Lemma utf8_encode_arith cp :
  0 ≤ cp ≤ 0x10FFFF →
  utf8_encode cp =
  if cp <? 0x80 then [Zbyte cp]
  else if cp <=? 0x7FF then [Zbyte (0xC0 + cp / 64); Zbyte (0x80 + cp mod 64)]
  else if cp <=? 0xFFFF then
    [Zbyte (0xE0 + cp / 4096); Zbyte (0x80 + cp / 64 mod 64); Zbyte (0x80 + cp mod 64)]
  else
    [Zbyte (0xF0 + cp / 262144); Zbyte (0x80 + cp / 4096 mod 64);
     Zbyte (0x80 + cp / 64 mod 64); Zbyte (0x80 + cp mod 64)].
Proof.
  intros Hcp. unfold utf8_encode. rewrite !land_3F, !shiftr_div by lia.
  change (2 ^ 6) with 64. change (2 ^ 12) with 4096. change (2 ^ 18) with 262144.
  pose proof (Z.mod_pos_bound cp 64 ltac:(lia)).
  pose proof (Z.mod_pos_bound (cp / 64) 64 ltac:(lia)).
  pose proof (Z.mod_pos_bound (cp / 4096) 64 ltac:(lia)).
  rewrite !lor_80 by done.
  destruct (Z.ltb_spec cp 0x80); [done|].
  destruct (Z.leb_spec cp 0x7FF); [rewrite lor_C0; [done|Z.div_mod_to_equations; lia]|].
  destruct (Z.leb_spec cp 0xFFFF); [rewrite lor_E0; [done|Z.div_mod_to_equations; lia]|].
  rewrite lor_F0; [done|Z.div_mod_to_equations; lia].
Qed.

Lemma next_byte_in_range_parts r s t rest :
  next_byte_in_range r s = Some (t, rest) →
  s = t ++ rest ∧ next_byte_in_range r t = Some (t, []) ∧ length t = length r.
Proof.
  revert s t. induction r as [|[lo hi] r IH]; intros s t; cbn; [by intros [= <- <-]|].
  destruct s as [|c s]; [done|]. destruct (_ && _) eqn:E; [|done].
  destruct (next_byte_in_range r s) as [[t' rest']|] eqn:Hn; [|done]. cbn. intros [= <- <-].
  destruct (IH _ _ Hn) as (-> & Ht & Hl). cbn. rewrite E, Ht, Hl. done.
Qed.

Lemma next_byte_in_range_app r t rest :
  next_byte_in_range r t = Some (t, []) → next_byte_in_range r (t ++ rest) = Some (t, rest).
Proof.
  revert t. induction r as [|[lo hi] r IH]; intros t; cbn; [by intros [= <-]|].
  destruct t as [|c t]; [done|]. cbn. destruct (_ && _); [|done].
  destruct (next_byte_in_range r t) as [[t' r']|] eqn:E; [|done]. cbn. intros [= -> ->].
  by rewrite IH.
Qed.

(** The lead bytes by the length of their character. *)
Definition lead_spec (b : Z) : option (list (Z * Z)) :=
  if b <? 0x80 then Some []
  else if b <? 0xC2 then None
  else if b <? 0xE0 then Some [(0x80, 0xBF)]
  else if b <? 0xF0 then
    Some [(if b =? 0xE0 then 0xA0 else 0x80, if b =? 0xED then 0x9F else 0xBF); (0x80, 0xBF)]
  else if b <? 0xF5 then
    Some [(if b =? 0xF0 then 0x90 else 0x80, if b =? 0xF4 then 0x8F else 0xBF); (0x80, 0xBF); (0x80, 0xBF)]
  else None.

Definition lead_ok (b : Z) : bool := bool_decide (ranges_step [] b = lead_spec b).

Lemma ranges_step_lead b : 0 ≤ b < 256 → ranges_step [] b = lead_spec b.
Proof.
  intros Hb. assert (lead_ok b = true) as E by by apply (forall_below 256 lead_ok).
  by apply bool_decide_eq_true in E.
Qed.

(** The digits of a code point in base 64. *)
Lemma base64_2 cp : cp = cp / 64 * 64 + cp mod 64 ∧ 0 ≤ cp mod 64 < 64.
Proof. pose proof (Z.div_mod cp 64). pose proof (Z.mod_pos_bound cp 64). lia. Qed.
Lemma base64_3 cp :
  cp = cp / 4096 * 4096 + cp / 64 mod 64 * 64 + cp mod 64 ∧
  0 ≤ cp / 64 mod 64 < 64 ∧ 0 ≤ cp mod 64 < 64.
Proof.
  destruct (base64_2 cp) as [H1 H2]. destruct (base64_2 (cp / 64)) as [H3 H4].
  rewrite Z.div_div in H3 by lia. change (64 * 64) with 4096 in H3. lia.
Qed.
Lemma base64_4 cp :
  cp = cp / 262144 * 262144 + cp / 4096 mod 64 * 4096 + cp / 64 mod 64 * 64 + cp mod 64 ∧
  0 ≤ cp / 4096 mod 64 < 64 ∧ 0 ≤ cp / 64 mod 64 < 64 ∧ 0 ≤ cp mod 64 < 64.
Proof.
  destruct (base64_3 cp) as (H1 & H2 & H3). destruct (base64_2 (cp / 4096)) as [H4 H5].
  rewrite Z.div_div in H4 by lia. change (4096 * 64) with 262144 in H4. lia.
Qed.

(** Forget where the digits come from. *)
Ltac digits H := revert H; repeat match goal with
  | |- context [?a mod 64] => let x := fresh "d" in generalize (a mod 64); intros x
  end; try match goal with |- context [?a / ?b] => let x := fresh "q" in generalize (a / b); intros x end;
  intros H.
Ltac decide_cmp :=
  repeat match goal with
  | |- context [?a <? ?b] => destruct (Z.ltb_spec a b); try lia
  | |- context [?a <=? ?b] => destruct (Z.leb_spec a b); try lia
  | |- context [?a =? ?b] => destruct (Z.eqb_spec a b); try lia
  end; cbn [andb orb]; try lia.

Lemma byteZ_small z : 0 ≤ z < 256 → byteZ (Zbyte z) = z.
Proof. intros. by rewrite byteZ_Zbyte, Z.mod_small. Qed.

(** A list of bytes given by their values is one character. *)
Lemma character_bytes b ts r :
  0 ≤ b < 256 → Forall (λ z, 0 ≤ z < 256) ts → lead_spec b = Some r →
  Forall2 (λ p z, p.1 ≤ z ≤ p.2) r ts →
  character (Zbyte b) (Zbyte <$> ts) ∧
  push_bits (lead_bits (byteZ (Zbyte b))) (Zbyte <$> ts)
  = fold_left (λ cp z, cp * 64 + (z - 0x80)) ts (lead_bits b).
Proof.
  intros Hb Hts Hr H2. rewrite byteZ_small by done. split.
  - exists r. rewrite byteZ_small, ranges_step_lead by done. split; [done|]. clear Hr.
    induction H2 as [|[lo hi] z r ts Hz H2 IH]; [done|]. inversion Hts; subst. cbn in *.
    rewrite byteZ_small by done. rewrite IH by done.
    by destruct (Z.leb_spec lo z), (Z.leb_spec z hi); try lia.
  - unfold push_bits. generalize (lead_bits b). clear H2.
    induction Hts as [|z ts Hz Hts IH]; intros acc; [done|]. cbn. by rewrite byteZ_small, IH by done.
Qed.

(** An encoded scalar value is a character with that code point. *)
Lemma encode_character cp :
  scalar cp = true →
  ∃ c t, utf8_encode cp = c :: t ∧ character c t ∧ push_bits (lead_bits (byteZ c)) t = cp.
Proof.
  unfold scalar. intros Hcp.
  assert (0 ≤ cp < 0xD800 ∨ 0xE000 ≤ cp ≤ 0x10FFFF) as Hr
    by (apply orb_true_iff in Hcp as [H|H]; split_bools; lia).
  rewrite utf8_encode_arith by lia. clear Hcp.
  assert (∀ b ts r, 0 ≤ b < 256 → Forall (λ z, 0 ≤ z < 256) ts → lead_spec b = Some r →
    Forall2 (λ p z, p.1 ≤ z ≤ p.2) r ts → fold_left (λ cp z, cp * 64 + (z - 0x80)) ts (lead_bits b) = cp →
    ∃ c t, Zbyte <$> (b :: ts) = c :: t ∧ character c t ∧ push_bits (lead_bits (byteZ c)) t = cp) as Hmk.
  { intros b ts r Hb Hts Hl H2 Hv. destruct (character_bytes b ts r Hb Hts Hl H2) as [Hc Hp].
    exists (Zbyte b), (Zbyte <$> ts). split; [done|]. split; [done|]. by rewrite Hp. }
  destruct (Z.ltb_spec cp 0x80); [|destruct (Z.leb_spec cp 0x7FF); [|destruct (Z.leb_spec cp 0xFFFF)]].
  - apply (Hmk cp [] []); [lia|done| |done|]; unfold lead_spec, lead_bits; by decide_cmp.
  - pose proof (base64_2 cp) as Hd. digits Hd.
    apply (Hmk (0xC0 + q) [0x80 + d] [(0x80, 0xBF)]); [lia|by repeat constructor; lia| | |];
      unfold lead_spec, lead_bits; cbn [fold_left]; [by decide_cmp|by repeat constructor; cbn; lia|decide_cmp].
  - pose proof (base64_3 cp) as Hd. digits Hd.
    apply (Hmk (0xE0 + q) [0x80 + d; 0x80 + d0]
      [(if 0xE0 + q =? 0xE0 then 0xA0 else 0x80, if 0xE0 + q =? 0xED then 0x9F else 0xBF); (0x80, 0xBF)]);
      [lia|by repeat constructor; lia| | |]; unfold lead_spec, lead_bits; cbn [fold_left].
    + by decide_cmp.
    + repeat constructor; cbn [fst snd]; decide_cmp.
    + decide_cmp.
  - pose proof (base64_4 cp) as Hd. digits Hd.
    apply (Hmk (0xF0 + q) [0x80 + d; 0x80 + d0; 0x80 + d1]
      [(if 0xF0 + q =? 0xF0 then 0x90 else 0x80, if 0xF0 + q =? 0xF4 then 0x8F else 0xBF);
       (0x80, 0xBF); (0x80, 0xBF)]);
      [lia|by repeat constructor; lia| | |]; unfold lead_spec, lead_bits; cbn [fold_left].
    + by decide_cmp.
    + repeat constructor; cbn [fst snd]; decide_cmp.
    + decide_cmp.
Qed.

Lemma next_byte_in_range_cons lo hi r s t rest :
  next_byte_in_range ((lo, hi) :: r) s = Some (t, rest) →
  ∃ x s' t', s = x :: s' ∧ t = x :: t' ∧ lo ≤ byteZ x ≤ hi ∧ next_byte_in_range r s' = Some (t', rest).
Proof.
  cbn. destruct s as [|x s]; [done|]. destruct (_ && _) eqn:E; [|done]. split_bools.
  destruct (next_byte_in_range r s) as [[t' r']|] eqn:Hn; [|done]. cbn. intros [= <- <-]. by eauto 10.
Qed.

Lemma Zbyte_eq z c : z = byteZ c → Zbyte z = c.
Proof. intros ->. apply Zbyte_byteZ. Qed.

(** The bytes of a character that is [k] bytes long. *)
Ltac next_bytes :=
  repeat match goal with
  | H : next_byte_in_range (_ :: _) _ = Some _ |- _ =>
      apply next_byte_in_range_cons in H as (?x & ?s' & ?t' & ? & ? & ? & H); simplify_eq
  | H : next_byte_in_range [] _ = Some _ |- _ => cbn in H; simplify_eq/=
  end.

(** A character is the encoding of a scalar value, its code point. *)
Lemma character_encode c t :
  character c t →
  scalar (push_bits (lead_bits (byteZ c)) t) = true ∧
  utf8_encode (push_bits (lead_bits (byteZ c)) t) = c :: t.
Proof.
  intros (r & Hr & Ht). pose proof (byteZ_range c) as Hc. rewrite ranges_step_lead in Hr by done.
  unfold lead_spec in Hr. unfold lead_bits. revert Hr Ht.
  decide_cmp; intros [= <-] Ht; next_bytes; unfold push_bits; cbn [fold_left].
  all: match goal with |- scalar ?z = true ∧ _ => set (cp := z) end.
  all: assert (0 ≤ cp ≤ 0x10FFFF) as Hcp by (unfold cp; lia).
  all: pose proof (base64_4 cp) as Hb4; pose proof (base64_3 cp) as Hb3; pose proof (base64_2 cp) as Hb2.
  all: rewrite utf8_encode_arith by done; unfold scalar.
  all: assert (cp = cp) as Hcp' by done; unfold cp at 2 in Hcp'; clearbody cp.
  all: decide_cmp; split; try done; repeat (apply (f_equal2 cons); [apply Zbyte_eq; lia|]); done.
Qed.

(** ** Strings *)

Lemma run_ranges_app r t rest :
  next_byte_in_range r t = Some (t, []) → run_ranges r (t ++ rest) = run_ranges [] rest.
Proof.
  revert t. induction r as [|[lo hi] r IH]; intros t; [cbn; by intros [= <-]|].
  intros (x & s' & t' & -> & [= ->] & Hx & Ht)%next_byte_in_range_cons. cbn.
  destruct (Z.leb_spec lo (byteZ x)), (Z.leb_spec (byteZ x) hi); try lia. cbn. by apply IH.
Qed.

Lemma run_ranges_inv r s :
  run_ranges r s = Some [] →
  ∃ t rest, s = t ++ rest ∧ next_byte_in_range r t = Some (t, []) ∧ run_ranges [] rest = Some [].
Proof.
  revert s. induction r as [|[lo hi] r IH]; intros s Hs; [by exists [], s|].
  destruct s as [|c s]; [done|]. cbn in Hs. destruct (_ && _) eqn:E; [|done]. cbn in Hs.
  destruct (IH s Hs) as (t & rest & -> & Ht & Hr). exists (c :: t), rest.
  split; [done|]. split; [|done]. cbn. by rewrite E, Ht.
Qed.

(** Induction over the characters of a string that the automaton accepts. *)
Lemma utf8_ind (P : bytes → Prop) :
  P [] →
  (∀ c t s, character c t → run_ranges [] s = Some [] → P s → P (c :: t ++ s)) →
  ∀ s, run_ranges [] s = Some [] → P s.
Proof.
  intros Hnil Hcons s. remember (length s) as n eqn:Hn. revert s Hn.
  induction (lt_wf n) as [n _ IH]. intros [|c s] Hn Hs; [done|].
  cbn [run_ranges] in Hs. destruct (ranges_step [] (byteZ c)) as [r|] eqn:Hr; [|done]. cbn in Hs.
  destruct (run_ranges_inv r s Hs) as (t & rest & -> & Ht & Hrest).
  apply Hcons; [by exists r|done|]. eapply IH; [|done|done].
  subst n. cbn. rewrite length_app. lia.
Qed.

Lemma run_ranges_character c t s : character c t → run_ranges [] (c :: t ++ s) = run_ranges [] s.
Proof. intros (r & Hr & Ht). cbn [run_ranges]. rewrite Hr. cbn. by apply run_ranges_app. Qed.

(** The lexer's automaton accepts exactly the valid strings. *)
Lemma run_ranges_valid s : run_ranges [] s = Some [] ↔ utf8_valid s.
Proof.
  split.
  - revert s. apply utf8_ind; [by exists []|]. intros c t s Hc _ (cps & Hcps & ->).
    destruct (character_encode c t Hc) as [Hs He].
    exists (push_bits (lead_bits (byteZ c)) t :: cps). split; [by constructor|].
    cbn. by rewrite He.
  - intros (cps & Hcps & ->). induction Hcps as [|cp cps Hcp _ IH]; [done|]. cbn [fmap list_fmap concat].
    destruct (encode_character cp Hcp) as (c & t & -> & Hc & _). cbn [app].
    by rewrite run_ranges_character.
Qed.

(** ** Code points *)

(** The payload of a lead byte, as the table computes it. *)
Definition lead_codep_ok (b : Z) : bool :=
  match ranges_step [] b with Some _ => (decode 0 0 b).2 =? lead_bits b | None => true end.

Lemma decode_lead codep b r :
  0 ≤ b < 256 → ranges_step [] b = Some r → (decode 0 codep b).2 = lead_bits b.
Proof.
  intros Hb Hr. assert (lead_codep_ok b = true) as E by by apply (forall_below 256 lead_codep_ok).
  unfold lead_codep_ok in E. rewrite Hr in E. by apply Z.eqb_eq in E.
Qed.

Lemma decode_next st codep b :
  st ≠ 0 → 0x80 ≤ b ≤ 0xBF → 0 ≤ codep < 2 ^ 26 → (decode st codep b).2 = codep * 64 + (b - 0x80).
Proof.
  intros Hst Hb Hc. unfold decode. cbn [snd]. destruct (Z.eqb_spec st UTF8_ACCEPT); [done|]. cbn [negb].
  rewrite land_3F. unfold wrap. rewrite (Z.mod_small (Z.shiftl codep 6)).
  - rewrite lor_shift_low by (apply Z.mod_pos_bound; lia).
    rewrite (Z.mod_eq b 64), <- (Z.div_unique b 64 2 (b - 128)); lia.
  - rewrite Z.shiftl_mul_pow2 by lia. lia.
Qed.

(** Every range of a character's later bytes lies in 80..BF. *)
Definition ranges_tight (r : list (Z * Z)) : bool := forallb (λ p, (0x80 <=? p.1) && (p.2 <=? 0xBF)) r.

Lemma state_ranges_tight st r : state_ranges st = Some r → ranges_tight r = true ∧ (length r ≤ 3)%nat.
Proof.
  intros H. pose proof (state_ranges_range st r H) as Hr.
  assert (match state_ranges st with Some r => ranges_tight r && (length r <=? 3)%nat | None => true end = true) as E
    by by apply (forall_below 9 (λ st, match state_ranges st with
        | Some r => ranges_tight r && (length r <=? 3)%nat | None => true end)).
  rewrite H in E. apply andb_true_iff in E as [? ?%Nat.leb_le]. done.
Qed.

Lemma state_accept st : state_ranges st = Some [] → st = 0.
Proof.
  intros H. pose proof (state_ranges_range st [] H) as Hr.
  assert ((match state_ranges st with Some [] => st =? 0 | _ => true end) = true) as E
    by by apply (forall_below 9 (λ st, match state_ranges st with Some [] => st =? 0 | _ => true end)).
  rewrite H in E. by apply Z.eqb_eq.
Qed.

(** Room for [n] more bytes within 26 bits. *)
Definition codep_cap (n : nat) : Z :=
  match n with 0%nat => 2 ^ 26 | 1%nat => 2 ^ 20 | 2%nat => 2 ^ 14 | 3%nat => 2 ^ 8 | _ => 0 end.

Lemma run_decode_next r st codep t :
  state_ranges st = Some r → next_byte_in_range r t = Some (t, []) →
  0 ≤ codep < codep_cap (length r) →
  run_decode st codep t = (0, push_bits codep t).
Proof.
  revert st codep t. induction r as [|[lo hi] r IH]; intros st codep t Hst Ht Hc.
  - cbn in Ht. injection Ht as <-. cbn. f_equal. by apply state_accept.
  - apply next_byte_in_range_cons in Ht as (x & s' & t' & -> & [= ->] & Hx & Ht).
    destruct (state_ranges_tight _ _ Hst) as [Htight Hlen]. cbn in Htight, Hlen. split_bools. cbn [fst snd] in *.
    destruct (decode_ranges st _ codep (byteZ x) Hst (byteZ_range x)) as (Hstep & _ & _).
    cbn in Hstep. destruct (Z.leb_spec lo (byteZ x)), (Z.leb_spec (byteZ x) hi); try lia. cbn in Hstep.
    assert (st ≠ 0) by (by intros ->).
    cbn [run_decode].
    assert (0 ≤ codep < 2 ^ 26 ∧ codep * 64 + 63 < codep_cap (length r)) as [Hc26 Hcap]
      by (destruct r as [|? [|? [|]]]; cbn in *; lia).
    pose proof (decode_next st codep (byteZ x) ltac:(done) ltac:(lia) Hc26) as Hcp.
    destruct (decode st codep (byteZ x)) as [st' codep']. cbn [fst snd] in *. subst codep'.
    rewrite IH; [done|done|done|lia].
Qed.

(** The serializer's automaton computes the code point of each character. *)
Lemma run_decode_character codep c t :
  character c t → run_decode 0 codep (c :: t) = (0, push_bits (lead_bits (byteZ c)) t).
Proof.
  intros (r & Hr & Ht). cbn [run_decode].
  destruct (decode_ranges 0 [] codep (byteZ c) eq_refl (byteZ_range c)) as (Hstep & _ & _).
  rewrite Hr in Hstep. pose proof (decode_lead codep (byteZ c) r (byteZ_range c) Hr) as Hl.
  destruct (decode 0 codep (byteZ c)) as [st cp]. cbn [fst snd] in *. subst cp.
  apply (run_decode_next r); [done|done|].
  rewrite ranges_step_lead in Hr by apply byteZ_range. pose proof (byteZ_range c) as Hb.
  unfold lead_spec in Hr. unfold lead_bits. revert Hr. decide_cmp; intros [= <-]; cbn; lia.
Qed.

(** The automaton accepts a string when the lexer's does. *)
Lemma run_decode_accept codep s :
  (run_decode UTF8_ACCEPT codep s).1 = UTF8_ACCEPT ↔ run_ranges [] s = Some [].
Proof.
  destruct (run_decode_ranges s UTF8_ACCEPT codep [] eq_refl) as [Hr _].
  split; intros H.
  - by rewrite <- Hr, H.
  - apply state_accept. by rewrite Hr.
Qed.

Lemma run_decode_encode codep cp :
  scalar cp = true → run_decode UTF8_ACCEPT codep (utf8_encode cp) = (UTF8_ACCEPT, cp).
Proof.
  intros Hcp. destruct (encode_character cp Hcp) as (c & t & -> & Hc & Hp).
  unfold UTF8_ACCEPT. by rewrite run_decode_character, Hp.
Qed.

(** ** Properties *)

(** The table of the serializer and the ranges of the lexer accept the same
    strings, and these are the concatenations of encoded Unicode scalar values. *)
Lemma utf8_validators_agree s codep :
  ((run_decode UTF8_ACCEPT codep s).1 = UTF8_ACCEPT ↔ run_ranges [] s = Some []) ∧
  (run_ranges [] s = Some [] ↔ utf8_valid s).
Proof. split; [apply run_decode_accept|apply run_ranges_valid]. Qed.

(** Decoding the bytes the lexer writes for a scalar value gives that value,
    whatever code point was decoded before. *)
Lemma decode_utf8_encode codep cp :
  scalar cp = true → run_decode UTF8_ACCEPT codep (utf8_encode cp) = (UTF8_ACCEPT, cp).
Proof. apply run_decode_encode. Qed.

Lemma decode_utf8_encode_witness : run_decode UTF8_ACCEPT 7 (utf8_encode 0x1F600) = (UTF8_ACCEPT, 0x1F600).
Proof. by apply (decode_utf8_encode 7 0x1F600). Defined.

(** The index into [utf8d] stays below its 400 entries: from a state of the
    automaton every byte leads to a state, and class and index are in range. *)
Lemma decode_index_bound state codep b :
  0 ≤ state < 9 → 0 ≤ b < 256 →
  0 ≤ (decode state codep b).1 < 9 ∧ length utf8d = 400%nat ∧
  0 ≤ 256 + state * 16 + utf8d_at b < 400.
Proof.
  intros Hs Hb. assert (0 ≤ utf8d_at b ≤ 11) as Ht.
  { assert ((0 <=? utf8d_at b) && (utf8d_at b <=? 11) = true) as E
      by by apply (forall_below 256 (λ b, (0 <=? utf8d_at b) && (utf8d_at b <=? 11))).
    split_bools. lia. }
  split; [|split; [done|lia]].
  assert (∀ i, 0 ≤ i < 400 → 256 ≤ i → (0 <=? utf8d_at i) && (utf8d_at i <? 9) = true) as Hi.
  { intros i Hi1 Hi2. assert ((i <? 256) || (0 <=? utf8d_at i) && (utf8d_at i <? 9) = true) as E
      by by apply (forall_below 400 (λ i, (i <? 256) || (0 <=? utf8d_at i) && (utf8d_at i <? 9))).
    destruct (Z.ltb_spec i 256); [lia|done]. }
  unfold decode. cbn [fst]. specialize (Hi (256 + state * 16 + utf8d_at b) ltac:(lia) ltac:(lia)).
  split_bools. lia.
Qed.

Lemma decode_index_bound_witness :
  0 ≤ (decode 8 0 0xBF).1 < 9 ∧ length utf8d = 400%nat ∧ 0 ≤ 256 + 8 * 16 + utf8d_at 0xBF < 400.
Proof. apply decode_index_bound; lia. Defined.
