(* ===== verification/JsonValue.v ===== *)
(** * JsonValue: values of the JSON library ([include/nlohmann/json.hpp])

    [basic_json] with its default template arguments: objects are [std::map]s, that
    is lists of members in ascending order of their keys, without duplicates; integers
    are 64 bits wide.  A floating-point number is represented by the literal that
    [strtod] converts. *)

From S2P Require Import Prelude CString Prog.

(** What a call of the library gives: a value, an exception, or undefined behaviour. *)
Inductive dres (A : Type) :=
| DOk (a : A)
| DThrow (e : exn)
| DUndef (u : ub).
Arguments DOk {A} a.
Arguments DThrow {A} e.
Arguments DUndef {A} u.

#[export] Instance dres_ret : MRet dres := @DOk.
#[export] Instance dres_bind : MBind dres :=
  λ A B f m, match m with DOk a => f a | DThrow e => DThrow e | DUndef u => DUndef u end.

(** [value_t] with the member of the union it selects. *)
#[warnings="-register-all"]
Inductive json :=
| JNull
| JObject (members : list (bytes * json))
| JArray (elements : list json)
| JString (s : bytes)
| JBoolean (b : bool)
| JInteger (z : Z)            (** [std::int64_t] *)
| JUnsigned (z : Z)           (** [std::uint64_t] *)
| JFloat (literal : bytes)
| JBinary (data : bytes) (subtype : option Z)
| JDiscarded.

(** Induction with hypotheses for the members and the elements. *)
Section json_rect.
Context (P : json → Prop)
  (HNull : P JNull) (HObject : ∀ ms, Forall (λ m, P m.2) ms → P (JObject ms))
  (HArray : ∀ es, Forall P es → P (JArray es)) (HString : ∀ s, P (JString s))
  (HBoolean : ∀ b, P (JBoolean b)) (HInteger : ∀ z, P (JInteger z))
  (HUnsigned : ∀ z, P (JUnsigned z)) (HFloat : ∀ l, P (JFloat l))
  (HBinary : ∀ d t, P (JBinary d t)) (HDiscarded : P JDiscarded).

Fixpoint json_induction (j : json) : P j :=
  match j with
  | JNull => HNull
  | JObject ms =>
      HObject ms ((fix go (ms : list (bytes * json)) : Forall (λ m, P m.2) ms :=
        match ms with
        | [] => Forall_nil_2 _
        | (k, v) :: ms => Forall_cons_2 (λ m, P m.2) (k, v) ms (json_induction v) (go ms)
        end) ms)
  | JArray es =>
      HArray es ((fix go (es : list json) : Forall P es :=
        match es with
        | [] => Forall_nil_2 _
        | e :: es => Forall_cons_2 P e es (json_induction e) (go es)
        end) es)
  | JString s => HString s
  | JBoolean b => HBoolean b
  | JInteger z => HInteger z
  | JUnsigned z => HUnsigned z
  | JFloat l => HFloat l
  | JBinary d t => HBinary d t
  | JDiscarded => HDiscarded
  end.
End json_rect.

(** ** Objects as [std::map<std::string, basic_json>] *)

Fixpoint map_find (key : bytes) (ms : list (bytes * json)) : option json :=
  match ms with
  | [] => None
  | (k, v) :: ms => if bool_decide (k = key) then Some v else map_find key ms
  end.

(** [std::map::operator[]] and assignment to the element. *)
Fixpoint map_assign (key : bytes) (v : json) (ms : list (bytes * json)) : list (bytes * json) :=
  match ms with
  | [] => [(key, v)]
  | (k, w) :: ms' =>
      if bool_decide (k = key) then (k, v) :: ms'
      else if bytes_ltb key k then (key, v) :: ms
      else (k, w) :: map_assign key v ms'
  end.

(** [map->emplace(key, v)]: an existing member stays. *)
Definition map_emplace (key : bytes) (v : json) (ms : list (bytes * json)) : list (bytes * json) :=
  match map_find key ms with Some _ => ms | None => map_assign key v ms end.

(** [map::erase(key)]. *)
Definition map_erase (key : bytes) (ms : list (bytes * json)) : list (bytes * json) :=
  List.filter (λ m, negb (bool_decide (m.1 = key))) ms.

(** Keys in strictly ascending order. *)
Fixpoint sorted_keys (ms : list (bytes * json)) : bool :=
  match ms with
  | (k, _) :: ms' =>
      match ms' with (k', _) :: _ => bytes_ltb k k' | [] => true end && sorted_keys ms'
  | [] => true
  end.

(** Every object of a value is a [std::map]. *)
Fixpoint maps_sorted (j : json) : bool :=
  match j with
  | JObject ms => sorted_keys ms && forallb (λ m, maps_sorted m.2) ms
  | JArray es => forallb maps_sorted es
  | _ => true
  end.

(** [std::vector<basic_json>::max_size()]. *)
Definition ARRAY_MAX_SIZE : Z := 576460752303423487.

(** Every array of a value fits in a [std::vector]. *)
Fixpoint arrays_fit (j : json) : bool :=
  match j with
  | JObject ms => forallb (λ m, arrays_fit m.2) ms
  | JArray es => (blen es <=? ARRAY_MAX_SIZE) && forallb arrays_fit es
  | _ => true
  end.

(** ** Member functions *)

Definition type_name (j : json) : string :=
  match j with
  | JNull => "null"
  | JObject _ => "object"
  | JArray _ => "array"
  | JString _ => "string"
  | JBoolean _ => "boolean"
  | JBinary _ _ => "binary"
  | JDiscarded => "discarded"
  | JInteger _ | JUnsigned _ | JFloat _ => "number"
  end.

(** [operator[](key)] on a value that is not [const]: the member, and the value after
    the access, which gains a null member when there was none; [null] becomes an
    object first; other types throw [type_error.305]. *)
Definition subscript (j : json) (key : bytes) : (json * json) + exn :=
  let object :=
    match j with JNull => Some [] | JObject ms => Some ms | _ => None end in
  match object with
  | Some ms =>
      match map_find key ms with
      | Some v => inl (v, JObject ms)
      | None => inl (JNull, JObject (map_assign key JNull ms))
      end
  | None => inr (ExJsonType 305)
  end.

(** [get<std::string>()]: [type_error.302] for anything but a string. *)
Definition get_string (j : json) : bytes + exn :=
  match j with JString s => inl s | _ => inr (ExJsonType 302) end.

(** The constructor from an initializer list whose elements are values. *)
Definition is_pair (j : json) : bool := match j with JArray [JString _; _] => true | _ => false end.
Definition json_of_list (init : list json) : json :=
  if forallb is_pair init
  then JObject (foldl (λ ms e, match e with JArray [JString k; v] => map_emplace k v ms | _ => ms end)
                  [] init)
  else JArray init.

(** ** Lemmas *)

Lemma map_find_assign k k' v ms :
  map_find k (map_assign k' v ms) = if bool_decide (k' = k) then Some v else map_find k ms.
Proof.
  induction ms as [|[k0 w] ms IH]; [done|]. cbn [map_assign map_find].
  destruct (decide (k0 = k')) as [->|Hk0].
  - rewrite (bool_decide_eq_true_2 (k' = k')) by done. cbn. by case_bool_decide.
  - rewrite (bool_decide_eq_false_2 (k0 = k')) by done. destruct (bytes_ltb k' k0); [done|].
    cbn. rewrite IH. repeat case_bool_decide; congruence.
Qed.

(** Every key of [ms] is above [k]. *)
Definition above (k : bytes) (ms : list (bytes * json)) : Prop := Forall (λ m, bytes_ltb k m.1 = true) ms.

Lemma sorted_keys_cons k v ms : sorted_keys ((k, v) :: ms) = true ↔ above k ms ∧ sorted_keys ms = true.
Proof.
  unfold above. cbn. rewrite andb_true_iff. split.
  - intros [Hh Hs]. split; [|done]. revert k v Hh Hs.
    induction ms as [|[k' v'] ms IH]; intros k v Hh Hs; [by constructor|]. constructor; [done|].
    cbn in Hs. apply andb_true_iff in Hs as [Hh' Hs].
    eapply Forall_impl; [by apply (IH k' v')|]. intros [k2 v2] Hk2. cbn in *. by eapply bytes_ltb_trans.
  - intros [Ha Hs]. split; [|done]. destruct ms as [|[k' v'] ms]; [done|]. by inversion Ha.
Qed.

Lemma map_assign_sorted k v ms : sorted_keys ms = true → sorted_keys (map_assign k v ms) = true.
Proof.
  induction ms as [|[k0 w] ms IH]; [done|]. intros Hs.
  pose proof (proj1 (sorted_keys_cons k0 w ms) Hs) as [Ha Hms]. cbn [map_assign].
  case_bool_decide as Hk; [by apply sorted_keys_cons|].
  destruct (bytes_ltb k k0) eqn:Hlt.
  - apply sorted_keys_cons. split; [|done]. constructor; [done|].
    eapply Forall_impl; [done|]. intros [k2 v2] Hk2. cbn in *. by eapply bytes_ltb_trans.
  - apply sorted_keys_cons. split; [|by apply IH].
    assert (bytes_ltb k0 k = true) as Hlt'.
    { destruct (bytes_ltb k0 k) eqn:E; [done|]. by destruct Hk; apply bytes_ltb_total. }
    clear -Ha Hlt'. induction Ha as [|[k2 v2] ms Hk2 Ha IH]; cbn; [by repeat constructor|].
    case_bool_decide; [by constructor|]. destruct (bytes_ltb k k2); [by repeat constructor|].
    by constructor.
Qed.

(** A member above every key goes to the end. *)
Lemma map_assign_last k v ms :
  Forall (λ m, bytes_ltb m.1 k = true) ms → map_assign k v ms = ms ++ [(k, v)].
Proof.
  induction 1 as [|[k0 w] ms Hk _ IH]; [done|]. cbn in *.
  rewrite bool_decide_eq_false_2 by (intros ->; by rewrite bytes_ltb_irrefl in Hk).
  destruct (bytes_ltb k k0) eqn:E; [|by rewrite IH].
  exfalso. pose proof (bytes_ltb_trans _ _ _ Hk E) as C. by rewrite bytes_ltb_irrefl in C.
Qed.

Lemma sorted_keys_before ms0 k v ms : sorted_keys (ms0 ++ (k, v) :: ms) = true → Forall (λ m, bytes_ltb m.1 k = true) ms0.
Proof.
  induction ms0 as [|[k1 v1] ms0 IH]; [constructor|]. cbn [app]. intros [Ha Hs]%sorted_keys_cons. constructor; [|by apply IH].
  unfold above in Ha. rewrite Forall_forall in Ha. apply (Ha (k, v)). set_solver.
Qed.

Lemma above_find k ms : above k ms → map_find k ms = None.
Proof.
  induction 1 as [|[k' v] ms Hk _ IH]; [done|]. cbn in *.
  rewrite bool_decide_eq_false_2; [done|]. intros ->. by rewrite bytes_ltb_irrefl in Hk.
Qed.

Lemma map_find_erase k k' ms :
  map_find k (map_erase k' ms) = if bool_decide (k = k') then None else map_find k ms.
Proof.
  unfold map_erase. induction ms as [|[k0 v] ms IH]; cbn; [by case_bool_decide|].
  destruct (decide (k0 = k')) as [->|Hk0].
  - rewrite (bool_decide_eq_true_2 (k' = k')) by done. cbn. rewrite IH. by repeat case_bool_decide; subst.
  - rewrite (bool_decide_eq_false_2 (k0 = k')) by done. cbn. rewrite IH. by repeat case_bool_decide; subst.
Qed.

Lemma map_erase_sorted k ms : sorted_keys ms = true → sorted_keys (map_erase k ms) = true.
Proof.
  unfold map_erase. induction ms as [|[k0 v] ms IH]; [done|]. intros [Ha Hs]%sorted_keys_cons. cbn.
  case_bool_decide; cbn [negb]; [by apply IH|]. apply sorted_keys_cons. split; [|by apply IH].
  unfold above in *. clear -Ha. induction Ha as [|m ms Hm _ IH]; cbn; [done|]. case_match; [by constructor|done].
Qed.

Lemma map_find_Some k v ms : map_find k ms = Some v → (k, v) ∈ ms.
Proof.
  induction ms as [|[k0 w] ms IH]; cbn; [done|]. case_bool_decide as E.
  - intros [= ->]. subst. by left.
  - intros H. right. by apply IH.
Qed.

Lemma map_find_elem k v ms : sorted_keys ms = true → (k, v) ∈ ms → map_find k ms = Some v.
Proof.
  induction ms as [|[k0 w] ms IH]; intros Hs Hin; [by apply not_elem_of_nil in Hin|].
  apply sorted_keys_cons in Hs as [Ha Hs]. cbn. apply elem_of_cons in Hin as [[= <- <-]|Hin].
  - by rewrite bool_decide_eq_true_2.
  - rewrite bool_decide_eq_false_2; [by apply IH|]. intros <-.
    unfold above in Ha. rewrite Forall_forall in Ha. specialize (Ha _ Hin). cbn in Ha. by rewrite bytes_ltb_irrefl in Ha.
Qed.

(** Two maps with related members under every key are related member by member. *)
Lemma map_Forall2 (R : json → json → Prop) ms ns :
  sorted_keys ms = true → sorted_keys ns = true →
  (∀ k, option_Forall2 R (map_find k ms) (map_find k ns)) →
  Forall2 (λ x y, x.1 = y.1 ∧ R x.2 y.2) ms ns.
Proof.
  revert ns. induction ms as [|[k v] ms IH]; intros [|[k' v'] ns] Hms Hns HR.
  - constructor.
  - specialize (HR k'). cbn in HR. rewrite bool_decide_eq_true_2 in HR by done. inversion HR.
  - specialize (HR k). cbn in HR. rewrite bool_decide_eq_true_2 in HR by done. inversion HR.
  - apply sorted_keys_cons in Hms as [Ha Hms]. apply sorted_keys_cons in Hns as [Ha' Hns].
    assert (k = k') as <-.
    { destruct (bytes_ltb k k') eqn:E1; [|destruct (bytes_ltb k' k) eqn:E2; [|by apply bytes_ltb_total]]; exfalso.
      - pose proof (HR k) as Hk. rewrite (above_find k ((k', v') :: ns)) in Hk;
          [cbn in Hk; rewrite bool_decide_eq_true_2 in Hk by done; inversion Hk|].
        constructor; [done|]. eapply Forall_impl; [exact Ha'|]. intros m. by apply bytes_ltb_trans.
      - pose proof (HR k') as Hk. rewrite (above_find k' ((k, v) :: ms)) in Hk;
          [cbn in Hk; rewrite bool_decide_eq_true_2 in Hk by done; inversion Hk|].
        constructor; [done|]. eapply Forall_impl; [exact Ha|]. intros m. by apply bytes_ltb_trans. }
    constructor.
    + pose proof (HR k) as Hk. cbn in Hk. rewrite !bool_decide_eq_true_2 in Hk by done. split; [done|]. by inversion Hk.
    + apply IH; [done..|]. intros k0. specialize (HR k0). cbn in HR. case_bool_decide; [|done].
      subst k0. rewrite !above_find by done. constructor.
Qed.

Lemma map_assign_twice k v w ms : map_assign k v (map_assign k w ms) = map_assign k v ms.
Proof.
  induction ms as [|[k0 u] ms IH]; cbn [map_assign]; [by rewrite bool_decide_eq_true_2|].
  case_bool_decide as E; cbn [map_assign].
  - by rewrite bool_decide_eq_true_2.
  - destruct (bytes_ltb k k0) eqn:El; cbn [map_assign].
    + by rewrite bool_decide_eq_true_2.
    + by rewrite bool_decide_eq_false_2, El, IH.
Qed.

Lemma map_assign_elem k v ms m : m ∈ map_assign k v ms → m = (k, v) ∨ m ∈ ms.
Proof.
  induction ms as [|[k0 w] ms IH]; cbn [map_assign]; [set_solver|]. case_bool_decide; [set_solver|].
  case_match; [set_solver|]. intros [->|H1]%elem_of_cons; [set_solver|]. apply IH in H1. set_solver.
Qed.

Lemma maps_sorted_object ms :
  maps_sorted (JObject ms) = true ↔ sorted_keys ms = true ∧ Forall (λ m, maps_sorted m.2 = true) ms.
Proof.
  cbn. by rewrite andb_true_iff, forallb_Forall.
Qed.

Lemma maps_sorted_array es : maps_sorted (JArray es) = true ↔ Forall (λ e, maps_sorted e = true) es.
Proof. apply forallb_Forall. Qed.

Lemma maps_sorted_assign k v ms :
  maps_sorted (JObject ms) = true → maps_sorted v = true → maps_sorted (JObject (map_assign k v ms)) = true.
Proof.
  intros [Hs Hv]%maps_sorted_object Hk. apply maps_sorted_object. split; [by apply map_assign_sorted|].
  rewrite Forall_forall in *. intros m [->|Hm]%map_assign_elem; [done|by apply Hv].
Qed.

Lemma maps_sorted_erase k ms : maps_sorted (JObject ms) = true → maps_sorted (JObject (map_erase k ms)) = true.
Proof.
  intros [Hs Hv]%maps_sorted_object. apply maps_sorted_object. split; [by apply map_erase_sorted|].
  rewrite Forall_forall in *. intros m Hm. apply Hv.
  unfold map_erase in Hm. apply list_elem_of_In, filter_In in Hm as [Hm _]. by apply list_elem_of_In.
Qed.

Lemma maps_sorted_find k v ms : maps_sorted (JObject ms) = true → map_find k ms = Some v → maps_sorted v = true.
Proof.
  intros [_ Hv]%maps_sorted_object Hk%map_find_Some. rewrite Forall_forall in Hv. by apply (Hv _ Hk).
Qed.
