(* ===== verification/JsonAccess.v ===== *)
(** * JsonAccess: the container interface of a JSON value
      ([include/nlohmann/json.hpp], class [basic_json])

    A member function that changes the value, or gives a reference into it, is an
    action [jact]: it maps the value to a result and the value after it, also when it
    throws.  A reference is what an action on the value it refers to is run
    through: [subscript_member key m] is [m] on [j[key]], with what [operator[]] does
    to [j] on the way.  Memory is taken to be unlimited, up to [vector::max_size]. *)

From S2P Require Import Prelude CString Prog JsonValue.

(** ** Actions on a value *)

Definition jact (A : Type) : Type := json → dres A * json.

#[export] Instance jact_ret : MRet jact := λ A a j, (DOk a, j).
#[export] Instance jact_bind : MBind jact :=
  λ A B f m j,
    match m j with
    | (DOk a, j') => f a j'
    | (DThrow e, j') => (DThrow e, j')
    | (DUndef u, j') => (DUndef u, j')
    end.

Definition jthrow {A} (e : exn) : jact A := λ j, (DThrow e, j).
Definition jundef {A} (u : ub) : jact A := λ j, (DUndef u, j).
Definition jget : jact json := λ j, (DOk j, j).
Definition jput (v : json) : jact unit := λ _, (DOk tt, v).
Definition jlift {A} (r : dres A) : jact A := λ j, (r, j).

(** ** Types *)

Definition is_null (j : json) : bool := match j with JNull => true | _ => false end.
Definition is_object (j : json) : bool := match j with JObject _ => true | _ => false end.
Definition is_array (j : json) : bool := match j with JArray _ => true | _ => false end.
Definition is_string (j : json) : bool := match j with JString _ => true | _ => false end.
Definition is_structured (j : json) : bool := is_array j || is_object j.
Definition is_primitive (j : json) : bool :=
  match j with JObject _ | JArray _ | JDiscarded => false | _ => true end.

(** ** Element access *)

(** [vector::resize(n)] to a larger size. *)
Definition resize (es : list json) (n : Z) : list json :=
  es ++ replicate (Z.to_nat (n - blen es)) JNull.

(** [at(idx)]. *)
Definition at_element {A} (idx : Z) (m : jact A) : jact A := λ j,
  match j with
  | JArray es =>
      match es !! Z.to_nat idx with
      | Some v => let '(r, v) := m v in (r, JArray (<[Z.to_nat idx := v]> es))
      | None => (DThrow (ExJsonOutOfRange 401), j)
      end
  | _ => (DThrow (ExJsonType 304), j)
  end.

(** [at(key)]. *)
Definition at_member {A} (key : bytes) (m : jact A) : jact A := λ j,
  match j with
  | JObject ms =>
      match map_find key ms with
      | Some v => let '(r, v) := m v in (r, JObject (map_assign key v ms))
      | None => (DThrow (ExJsonOutOfRange 403), j)
      end
  | _ => (DThrow (ExJsonType 304), j)
  end.

(** [operator[](idx)]: [null] becomes an array, which is filled up to the index. *)
Definition subscript_element {A} (idx : Z) (m : jact A) : jact A := λ j,
  match (match j with JNull => JArray [] | _ => j end) with
  | JArray es =>
      if blen es <=? idx then
        if ARRAY_MAX_SIZE <? idx + 1 then (DThrow ExLengthError, JArray es)
        else
          let es := resize es idx in
          let '(r, v) := m JNull in (r, JArray (es ++ [v]))
      else
        let '(r, v) := m (nth (Z.to_nat idx) es JNull) in (r, JArray (<[Z.to_nat idx := v]> es))
  | j => (DThrow (ExJsonType 305), j)
  end.

(** [operator[](key)]: [null] becomes an object, in which the member is created. *)
Definition subscript_member {A} (key : bytes) (m : jact A) : jact A := λ j,
  match (match j with JNull => JObject [] | _ => j end) with
  | JObject ms =>
      let '(r, v) := m (default JNull (map_find key ms)) in (r, JObject (map_assign key v ms))
  | j => (DThrow (ExJsonType 305), j)
  end.

(** [operator[]] on a [const] value: a missing element is undefined behaviour, a missing
    member fails an assertion. *)
Definition const_subscript_element (idx : Z) (j : json) : dres json :=
  match j with
  | JArray es => match es !! Z.to_nat idx with Some v => DOk v | None => DUndef UB_out_of_bounds end
  | _ => DThrow (ExJsonType 305)
  end.

Definition const_subscript_member (key : bytes) (j : json) : dres json :=
  match j with
  | JObject ms => match map_find key ms with Some v => DOk v | None => DUndef UB_assertion end
  | _ => DThrow (ExJsonType 305)
  end.

(** ** Lookup *)

(** [find(key)], [None] for [end()]. *)
Definition find (key : bytes) (j : json) : option json :=
  match j with JObject ms => map_find key ms | _ => None end.
Definition count (key : bytes) (j : json) : Z :=
  match find key j with Some _ => 1 | None => 0 end.
Definition contains_key (key : bytes) (j : json) : bool :=
  match find key j with Some _ => true | None => false end.

(** [value(key, default_value)] for strings. *)
Definition value_of (key default_value : bytes) (j : json) : dres bytes :=
  match j with
  | JObject _ =>
      match find key j with
      | Some v => match get_string v with inl s => DOk s | inr e => DThrow e end
      | None => DOk default_value
      end
  | _ => DThrow (ExJsonType 306)
  end.

(** ** Capacity *)

Definition empty (j : json) : bool :=
  match j with
  | JNull => true
  | JArray es => match es with [] => true | _ => false end
  | JObject ms => match ms with [] => true | _ => false end
  | _ => false
  end.

Definition size (j : json) : Z :=
  match j with JNull => 0 | JArray es => blen es | JObject ms => blen ms | _ => 1 end.

(** ** Modifiers *)

(** [erase(key)]: the number of members removed. *)
Definition erase_key (key : bytes) : jact Z := λ j,
  match j with
  | JObject ms => (DOk (match map_find key ms with Some _ => 1 | None => 0 end), JObject (map_erase key ms))
  | _ => (DThrow (ExJsonType 307), j)
  end.

(** [erase(idx)]. *)
Definition erase_idx (idx : Z) : jact unit := λ j,
  match j with
  | JArray es =>
      if size j <=? idx then (DThrow (ExJsonOutOfRange 401), j)
      else (DOk tt, JArray (delete (Z.to_nat idx) es))
  | _ => (DThrow (ExJsonType 307), j)
  end.

Definition clear : jact unit := λ j,
  (DOk tt, match j with
           | JInteger _ => JInteger 0
           | JUnsigned _ => JUnsigned 0
           | JFloat _ => JFloat b#"0.0"
           | JBoolean _ => JBoolean false
           | JString _ => JString []
           | JBinary _ subtype => JBinary [] subtype
           | JArray _ => JArray []
           | JObject _ => JObject []
           | _ => j
           end).

(** [push_back(val)]. *)
Definition push_back (val : json) : jact unit := λ j,
  match j with
  | JNull => (DOk tt, JArray [val])
  | JArray es => (DOk tt, JArray (es ++ [val]))
  | _ => (DThrow (ExJsonType 308), j)
  end.

(** [push_back({key, val})] of a member: an existing one stays. *)
Definition push_back_member (key : bytes) (val : json) : jact unit := λ j,
  match j with
  | JNull => (DOk tt, JObject [(key, val)])
  | JObject ms => (DOk tt, JObject (map_emplace key val ms))
  | _ => (DThrow (ExJsonType 308), j)
  end.

(** [push_back(init)] of an initializer list. *)
Definition push_back_list (init : list json) : jact unit :=
  j ← jget;
  match is_object j, init with
  | true, [JString key; val] => push_back_member key val
  | _, _ => push_back (json_of_list init)
  end.

Definition emplace_back (val : json) : jact unit := λ j,
  match j with
  | JNull => (DOk tt, JArray [val])
  | JArray es => (DOk tt, JArray (es ++ [val]))
  | _ => (DThrow (ExJsonType 311), j)
  end.

(** [emplace(key, val)]: whether the member is new. *)
Definition emplace (key : bytes) (val : json) : jact bool := λ j,
  match (match j with JNull => JObject [] | _ => j end) with
  | JObject ms =>
      (DOk (match map_find key ms with Some _ => false | None => true end), JObject (map_emplace key val ms))
  | j => (DThrow (ExJsonType 311), j)
  end.

(** [insert(begin() + pos, val)] and [insert(begin() + pos, first, last)]. *)
Definition insert_at {A} (pos : nat) (vals l : list A) : list A := take pos l ++ vals ++ drop pos l.
Definition insert_element (pos : Z) (val : json) : jact unit := λ j,
  match j with
  | JArray es => (DOk tt, JArray (insert_at (Z.to_nat pos) [val] es))
  | _ => (DThrow (ExJsonType 309), j)
  end.

(** [update(j, merge_objects)]: the members of [j], in order, overwrite those of this
    value; objects are merged on request. *)
Fixpoint update (merge_objects : bool) (j : json) {struct j} : jact unit := λ this,
  match (match this with JNull => JObject [] | _ => this end) with
  | JObject t =>
      match j with
      | JObject ms =>
          (fix go ms : jact unit :=
             match ms with
             | [] => mret tt
             | (k, v) :: ms =>
                 this ← jget;
                 (if merge_objects && is_object v && contains_key k this
                  then at_member k (update true v) else subscript_member k (jput v));;
                 go ms
             end) ms (JObject t)
      | _ => (DThrow (ExJsonType 312), JObject t)
      end
  | this => (DThrow (ExJsonType 312), this)
  end.

(** [merge_patch(apply_patch)] (RFC 7396). *)
Fixpoint merge_patch (apply_patch : json) {struct apply_patch} : jact unit :=
  match apply_patch with
  | JObject ms =>
      this ← jget;
      (if is_object this then mret tt else jput (JObject []));;
      (fix go ms : jact unit :=
         match ms with
         | [] => mret tt
         | (k, v) :: ms =>
             (if is_null v then _ ← erase_key k; mret tt else subscript_member k (merge_patch v));;
             go ms
         end) ms
  | _ => jput apply_patch
  end.

(** ** Examples *)

Example merge_patch_example :
  merge_patch (JObject [(b#"a", JNull); (b#"b", JObject [(b#"c", JBoolean true)])])
    (JObject [(b#"a", JBoolean false); (b#"d", JNull)])
  = (DOk tt, JObject [(b#"b", JObject [(b#"c", JBoolean true)]); (b#"d", JNull)]).
Proof. reflexivity. Qed.
