(* ===== verification/JsonIter.v ===== *)
(** * JsonIter: iterators of a JSON value
      ([include/nlohmann/json.hpp], [iter_impl], [json_reverse_iterator], [items()])

    Values are held by variables at addresses.  An iterator is the address of its value with
    the three iterators of [internal_iterator]; that of a container is its position in the
    order of iteration.  Using an iterator of a container outside of it is [UB_iterator]. *)

From S2P Require Import Prelude CString Prog JsonValue JsonAccess.

(** The values of the variables. *)
Abbreviation heap := (gmap Z json).

(** ** Iterators of the containers *)

(** [None] is an iterator that does not belong to a container yet. *)
Abbreviation std_iterator := (option Z).

Definition in_container {A} (l : list A) (x : Z) : bool := (0 <=? x) && (x <=? blen l).

(** [std::advance]. *)
Definition std_advance {A} (l : list A) (it : std_iterator) (i : Z) : dres std_iterator :=
  match it with
  | Some x => if in_container l x && in_container l (x + i) then DOk (Some (x + i)) else DUndef UB_iterator
  | None => DUndef UB_iterator
  end.

(** The element; [assertion] when the end is tested for. *)
Definition std_deref {A} (assertion : bool) (l : list A) (it : std_iterator) : dres A :=
  match it with
  | Some x =>
      if assertion && (x =? blen l) then DUndef UB_assertion
      else match (if 0 <=? x then l !! Z.to_nat x else None) with Some a => DOk a | None => DUndef UB_iterator end
  | None => DUndef UB_iterator
  end.

(** Two iterators that belong to no container are equal. *)
Definition std_eq (a b : std_iterator) : dres bool :=
  match a, b with
  | Some x, Some y => DOk (x =? y)
  | None, None => DOk true
  | _, _ => DUndef UB_iterator
  end.

Definition std_diff (a b : std_iterator) : dres Z :=
  match a, b with
  | Some x, Some y => DOk (x - y)
  | None, None => DOk 0
  | _, _ => DUndef UB_iterator
  end.

(** ** [primitive_iterator_t] *)

Definition PTRDIFF_MIN : Z := - 2 ^ 63.
Definition ptrdiff (z : Z) : dres Z := if (PTRDIFF_MIN <=? z) && (z <? 2 ^ 63) then DOk z else DUndef UB_int_overflow.

Definition begin_value : Z := 0.
Definition end_value : Z := begin_value + 1.
Definition is_begin (m_it : Z) : bool := m_it =? begin_value.
Definition is_end (m_it : Z) : bool := m_it =? end_value.

(** ** [iter_impl] *)

Record internal_iterator := mkInternal {
  object_iterator : std_iterator;
  array_iterator : std_iterator;
  primitive_iterator : Z
}.

Record iter_impl := mkIter { m_object : option Z; m_it : internal_iterator }.

Definition set_object_iterator (i : std_iterator) (it : iter_impl) : iter_impl :=
  mkIter (m_object it) (mkInternal i (array_iterator (m_it it)) (primitive_iterator (m_it it))).
Definition set_array_iterator (i : std_iterator) (it : iter_impl) : iter_impl :=
  mkIter (m_object it) (mkInternal (object_iterator (m_it it)) i (primitive_iterator (m_it it))).
Definition set_primitive_iterator (i : Z) (it : iter_impl) : iter_impl :=
  mkIter (m_object it) (mkInternal (object_iterator (m_it it)) (array_iterator (m_it it)) i).

(** [iter_impl()] and [iter_impl(object)]. *)
Definition no_iterator : iter_impl := mkIter None (mkInternal None None PTRDIFF_MIN).
Definition iterator_to (object : Z) : iter_impl := mkIter (Some object) (m_it no_iterator).

Section iter_impl.
Context (m : heap).

(** [*m_object], after the assertion that it is not null. *)
Definition pointee (it : iter_impl) : dres json :=
  match m_object it with
  | None => DUndef UB_assertion
  | Some p => match m !! p with Some j => DOk j | None => DUndef UB_iterator end
  end.

Definition set_begin (it : iter_impl) : dres iter_impl :=
  j ← pointee it;
  DOk (match j with
       | JObject _ => set_object_iterator (Some 0) it
       | JArray _ => set_array_iterator (Some 0) it
       | JNull => set_primitive_iterator end_value it
       | _ => set_primitive_iterator begin_value it
       end).

Definition set_end (it : iter_impl) : dres iter_impl :=
  j ← pointee it;
  DOk (match j with
       | JObject ms => set_object_iterator (Some (blen ms)) it
       | JArray es => set_array_iterator (Some (blen es)) it
       | _ => set_primitive_iterator end_value it
       end).

(** [operator*]: the value referred to. *)
Definition deref (it : iter_impl) : dres json :=
  j ← pointee it;
  match j with
  | JObject ms => kv ← std_deref true ms (object_iterator (m_it it)); DOk kv.2
  | JArray es => std_deref true es (array_iterator (m_it it))
  | JNull => DThrow (ExJsonIterator 214)
  | _ => if is_begin (primitive_iterator (m_it it)) then DOk j else DThrow (ExJsonIterator 214)
  end.

(** [operator->]: the value pointed to. *)
Definition arrow (it : iter_impl) : dres json :=
  j ← pointee it;
  match j with
  | JObject ms => kv ← std_deref true ms (object_iterator (m_it it)); DOk kv.2
  | JArray es => std_deref true es (array_iterator (m_it it))
  | _ => if is_begin (primitive_iterator (m_it it)) then DOk j else DThrow (ExJsonIterator 214)
  end.

Definition advance_by (i : Z) (it : iter_impl) : dres iter_impl :=
  j ← pointee it;
  match j with
  | JObject ms => o ← std_advance ms (object_iterator (m_it it)) i; DOk (set_object_iterator o it)
  | JArray es => a ← std_advance es (array_iterator (m_it it)) i; DOk (set_array_iterator a it)
  | _ => p ← ptrdiff (primitive_iterator (m_it it) + i); DOk (set_primitive_iterator p it)
  end.

(** [operator++] and [operator--], before and after the value is used. *)
Definition incr (it : iter_impl) : dres iter_impl := advance_by 1 it.
Definition decr (it : iter_impl) : dres iter_impl := advance_by (-1) it.
Definition post_incr (it : iter_impl) : dres (iter_impl * iter_impl) := it' ← incr it; DOk (it, it').
Definition post_decr (it : iter_impl) : dres (iter_impl * iter_impl) := it' ← decr it; DOk (it, it').

Definition same_object (it other : iter_impl) : dres unit :=
  if bool_decide (m_object it = m_object other) then DOk tt else DThrow (ExJsonIterator 212).

Definition iter_eq (it other : iter_impl) : dres bool :=
  same_object it other;;
  j ← pointee it;
  match j with
  | JObject _ => std_eq (object_iterator (m_it it)) (object_iterator (m_it other))
  | JArray _ => std_eq (array_iterator (m_it it)) (array_iterator (m_it other))
  | _ => DOk (primitive_iterator (m_it it) =? primitive_iterator (m_it other))
  end.
Definition iter_neq (it other : iter_impl) : dres bool := b ← iter_eq it other; DOk (negb b).

Definition iter_lt (it other : iter_impl) : dres bool :=
  same_object it other;;
  j ← pointee it;
  match j with
  | JObject _ => DThrow (ExJsonIterator 213)
  | JArray _ => d ← std_diff (array_iterator (m_it it)) (array_iterator (m_it other)); DOk (d <? 0)
  | _ => DOk (primitive_iterator (m_it it) <? primitive_iterator (m_it other))
  end.
Definition iter_le (it other : iter_impl) : dres bool := b ← iter_lt other it; DOk (negb b).
Definition iter_gt (it other : iter_impl) : dres bool := b ← iter_le it other; DOk (negb b).
Definition iter_ge (it other : iter_impl) : dres bool := b ← iter_lt it other; DOk (negb b).

(** [operator+=] and [operator+]. *)
Definition iter_add (i : Z) (it : iter_impl) : dres iter_impl :=
  j ← pointee it;
  match j with
  | JObject _ => DThrow (ExJsonIterator 209)
  | _ => advance_by i it
  end.

(** [operator-=] and [operator-] of a number. *)
Definition iter_sub (i : Z) (it : iter_impl) : dres iter_impl := n ← ptrdiff (- i); iter_add n it.

(** [operator-] of an iterator, whose value is not looked at. *)
Definition iter_diff (it other : iter_impl) : dres Z :=
  j ← pointee it;
  match j with
  | JObject _ => DThrow (ExJsonIterator 209)
  | JArray _ =>
      if bool_decide (m_object it = m_object other)
      then std_diff (array_iterator (m_it it)) (array_iterator (m_it other))
      else DUndef UB_iterator
  | _ => ptrdiff (primitive_iterator (m_it it) - primitive_iterator (m_it other))
  end.

(** [operator[](n)]. *)
Definition iter_at (n : Z) (it : iter_impl) : dres json :=
  j ← pointee it;
  match j with
  | JObject _ => DThrow (ExJsonIterator 208)
  | JArray es => a ← std_advance es (array_iterator (m_it it)) n; std_deref false es a
  | JNull => DThrow (ExJsonIterator 214)
  | _ =>
      n ← ptrdiff (- n);
      if primitive_iterator (m_it it) =? n then DOk j else DThrow (ExJsonIterator 214)
  end.

Definition iter_key (it : iter_impl) : dres bytes :=
  j ← pointee it;
  match j with
  | JObject ms => kv ← std_deref false ms (object_iterator (m_it it)); DOk kv.1
  | _ => DThrow (ExJsonIterator 207)
  end.
Definition iter_value (it : iter_impl) : dres json := deref it.

(** ** Iterators of a value *)

Definition begin (p : Z) : dres iter_impl := set_begin (iterator_to p).
Definition end_ (p : Z) : dres iter_impl := set_end (iterator_to p).

Definition front (p : Z) : dres json := it ← begin p; deref it.
Definition back (p : Z) : dres json := tmp ← end_ p; tmp ← decr tmp; deref tmp.

(** ** [json_reverse_iterator], on [std::reverse_iterator] *)

Record reverse_iterator := mkReverse { base : iter_impl }.

Definition rbegin (p : Z) : dres reverse_iterator := it ← end_ p; DOk (mkReverse it).
Definition rend (p : Z) : dres reverse_iterator := it ← begin p; DOk (mkReverse it).
Definition r_incr (r : reverse_iterator) : dres reverse_iterator := it ← decr (base r); DOk (mkReverse it).
Definition r_decr (r : reverse_iterator) : dres reverse_iterator := it ← incr (base r); DOk (mkReverse it).
Definition r_add (i : Z) (r : reverse_iterator) : dres reverse_iterator := it ← iter_sub i (base r); DOk (mkReverse it).
Definition r_sub (i : Z) (r : reverse_iterator) : dres reverse_iterator := it ← iter_add i (base r); DOk (mkReverse it).
Definition r_diff (r other : reverse_iterator) : dres Z := iter_diff (base other) (base r).
Definition r_deref (r : reverse_iterator) : dres json := it ← decr (base r); deref it.
Definition r_at (n : Z) (r : reverse_iterator) : dres json := r ← r_add n r; r_deref r.
Definition r_key (r : reverse_iterator) : dres bytes := it ← decr (base r); iter_key it.
Definition r_value (r : reverse_iterator) : dres json := it ← decr (base r); deref it.
Definition r_neq (r other : reverse_iterator) : dres bool := iter_neq (base r) (base other).

(** ** [iteration_proxy_value] and [items()] *)

(** The text of the index is kept with the index it belongs to. *)
Record proxy_value := mkProxy {
  anchor : iter_impl;
  array_index : Z;
  array_index_last : Z;
  array_index_str : bytes
}.

Definition proxy (it : iter_impl) : proxy_value := mkProxy it 0 0 b#"0".

Definition proxy_incr (v : proxy_value) : dres proxy_value :=
  it ← incr (anchor v);
  DOk (mkProxy it (wrap 64 (array_index v + 1)) (array_index_last v) (array_index_str v)).

Definition proxy_neq (v o : proxy_value) : dres bool := iter_neq (anchor v) (anchor o).

(** The key, and the value with its cache. *)
Definition proxy_key (v : proxy_value) : dres (bytes * proxy_value) :=
  j ← pointee (anchor v);
  match j with
  | JArray _ =>
      let v := if array_index v =? array_index_last v then v
               else mkProxy (anchor v) (array_index v) (array_index v) (dec (array_index v)) in
      DOk (array_index_str v, v)
  | JObject _ => k ← iter_key (anchor v); DOk (k, v)
  | _ => DOk ([], v)
  end.

Definition proxy_value_of (v : proxy_value) : dres json := iter_value (anchor v).

Definition items_begin (p : Z) : dres proxy_value := it ← begin p; DOk (proxy it).
Definition items_end (p : Z) : dres proxy_value := it ← end_ p; DOk (proxy it).
End iter_impl.

(** ** [for (auto it = first; it != last; ++it)] *)

Section range_for.
Context {I A : Type} (neq : I → I → dres bool) (get : I → dres (A * I)) (next : I → dres I).

(** What [get] gives in the rounds of the loop; [None] when there are more rounds than
    [fuel]. *)
Fixpoint range_for (fuel : nat) (it last : I) : option (dres (list A)) :=
  match fuel with
  | O => None
  | S f =>
      match (b ← neq it last;
             if b : bool then '(a, it) ← get it; it ← next it; DOk (Some (a, it)) else DOk None) with
      | DOk None => Some (DOk [])
      | DOk (Some (a, it)) => r ← range_for f it last; Some (l ← r; DOk (a :: l))
      | DThrow e => Some (DThrow e)
      | DUndef u => Some (DUndef u)
      end
  end.

Definition range_loop (fuel : nat) (first last : dres I) : option (dres (list A)) :=
  match first, last with
  | DOk first, DOk last => range_for fuel first last
  | DThrow e, _ | DOk _, DThrow e => Some (DThrow e)
  | DUndef u, _ | DOk _, DUndef u => Some (DUndef u)
  end.

Lemma range_for_end f it last : neq it last = DOk false → range_for (S f) it last = Some (DOk []).
Proof. intros H. cbn [range_for]. by rewrite H. Qed.

Lemma range_for_step f it last a it' next_it l :
  neq it last = DOk true → get it = DOk (a, it') → next it' = DOk next_it → range_for f next_it last = Some (DOk l) →
  range_for (S f) it last = Some (DOk (a :: l)).
Proof.
  intros H1 H2 H3 H4. cbn [range_for]. rewrite H1. cbn [mbind dres_bind]. rewrite H2. cbn [mbind dres_bind]. rewrite H3.
  cbn [mbind dres_bind option_bind]. by rewrite H4.
Qed.

(** A loop over the positions [at_ 0], [at_ 1], ... of a list. *)
Lemma range_for_list (at_ : nat → I) last l :
  (∀ n, (n ≤ length l)%nat → neq (at_ n) last = DOk (negb (n =? length l)%nat)) →
  (∀ n a, l !! n = Some a → ∃ it, get (at_ n) = DOk (a, it) ∧ next it = DOk (at_ (S n))) →
  range_for (S (length l)) (at_ 0%nat) last = Some (DOk l).
Proof.
  intros Hneq Hget.
  assert (∀ l' n, (n + length l' = length l)%nat → drop n l = l' → range_for (S (length l')) (at_ n) last = Some (DOk l')) as H; [|by apply H].
  induction l' as [|a l' IH]; intros n Hn Hd; cbn [length] in *.
  - apply range_for_end. rewrite Hneq by lia. by rewrite (proj2 (Nat.eqb_eq n (length l))) by lia.
  - destruct (Hget n a) as (it & Eg & En); [by rewrite <- (Nat.add_0_r n), <- lookup_drop, Hd|].
    eapply range_for_step; [|exact Eg|exact En|].
    + rewrite Hneq by lia. by rewrite (proj2 (Nat.eqb_neq n (length l))) by lia.
    + apply IH; [lia|]. by rewrite <- Nat.add_1_r, <- drop_drop, Hd.
Qed.
End range_for.

(** The three ways to go through a value. *)
Definition each_value (m : heap) (fuel : nat) (p : Z) : option (dres (list json)) :=
  range_loop (iter_neq m) (λ it, v ← deref m it; DOk (v, it)) (incr m) fuel (begin m p) (end_ m p).
Definition each_item (m : heap) (fuel : nat) (p : Z) : option (dres (list (bytes * json))) :=
  range_loop (proxy_neq m) (λ it, '(k, it) ← proxy_key m it; v ← proxy_value_of m it; DOk ((k, v), it)) (proxy_incr m) fuel
    (items_begin m p) (items_end m p).
Definition each_reverse (m : heap) (fuel : nat) (p : Z) : option (dres (list json)) :=
  range_loop (r_neq m) (λ it, v ← r_deref m it; DOk (v, it)) (r_incr m) fuel (rbegin m p) (rend m p).

(** ** What is gone through *)

(** Elements with their positions, members with their keys; null is empty, and any other
    value is its own element. *)
Definition items_of (j : json) : list (bytes * json) :=
  match j with
  | JNull => []
  | JObject ms => ms
  | JArray es => imap (λ i e, (dec (Z.of_nat i), e)) es
  | _ => [([], j)]
  end.

Lemma size_items j : size j = blen (items_of j).
Proof. destruct j; cbn; try done. unfold blen. by rewrite length_imap. Qed.

(** The iterator at a position of the value [j] at [p]. *)
Definition it_at (p : Z) (j : json) (n : Z) : iter_impl :=
  match j with
  | JObject _ => set_object_iterator (Some n) (iterator_to p)
  | JArray _ => set_array_iterator (Some n) (iterator_to p)
  | JNull => set_primitive_iterator (n + 1) (iterator_to p)
  | _ => set_primitive_iterator n (iterator_to p)
  end.

Lemma m_object_at p j n : m_object (it_at p j n) = Some p.
Proof. by destruct j. Qed.

Section positions.
Context (m : heap) (p : Z) (j : json) (Hj : m !! p = Some j).

Lemma pointee_at n : pointee m (it_at p j n) = DOk j.
Proof. unfold pointee. by rewrite m_object_at, Hj. Qed.

Lemma begin_at : begin m p = DOk (it_at p j 0).
Proof. unfold begin, set_begin, pointee. cbn. rewrite Hj. by destruct j. Qed.

Lemma end_at : end_ m p = DOk (it_at p j (size j)).
Proof. unfold end_, set_end, pointee. cbn. rewrite Hj. by destruct j. Qed.

Lemma deref_at n kv : items_of j !! n = Some kv → deref m (it_at p j (Z.of_nat n)) = DOk kv.2.
Proof.
  intros Hn. unfold deref. rewrite pointee_at. cbn [mbind dres_bind].
  destruct j as [|ms|es|s|b|z|z|l|d t|]; cbn in *; try (by rewrite lookup_nil in Hn); try (apply list_lookup_singleton_Some in Hn as [-> <-]; reflexivity).
  - pose proof (lookup_lt_Some _ _ _ Hn). rewrite (proj2 (Z.eqb_neq _ _)) by blia. rewrite (proj2 (Z.leb_le _ _)) by lia. by rewrite Nat2Z.id, Hn.
  - rewrite list_lookup_imap in Hn. destruct (es !! n) as [e|] eqn:E; [|done]. injection Hn as <-.
    pose proof (lookup_lt_Some _ _ _ E). rewrite (proj2 (Z.eqb_neq _ _)) by blia. rewrite (proj2 (Z.leb_le _ _)) by lia. by rewrite Nat2Z.id, E.
Qed.

Lemma key_at n kv ms : j = JObject ms → ms !! n = Some kv → iter_key m (it_at p j (Z.of_nat n)) = DOk kv.1.
Proof.
  intros Ej Hn. unfold iter_key. rewrite pointee_at, Ej. cbn [mbind dres_bind it_at m_it set_object_iterator object_iterator].
  unfold std_deref. cbn [andb]. rewrite (proj2 (Z.leb_le _ _)) by lia. by rewrite Nat2Z.id, Hn.
Qed.

Lemma std_advance_in {A} (l : list A) n i : 0 ≤ n ≤ blen l → 0 ≤ n + i ≤ blen l → std_advance l (Some n) i = DOk (Some (n + i)).
Proof. intros. unfold std_advance, in_container. by rewrite !(proj2 (Z.leb_le _ _)) by lia. Qed.

Lemma ptrdiff_small z : -2 ≤ z ≤ 2 → ptrdiff z = DOk z.
Proof. intros. unfold ptrdiff, PTRDIFF_MIN. by rewrite (proj2 (Z.leb_le _ _)), (proj2 (Z.ltb_lt _ _)) by lia. Qed.

Lemma advance_at n i : 0 ≤ n ≤ size j → 0 ≤ n + i ≤ size j → advance_by m i (it_at p j n) = DOk (it_at p j (n + i)).
Proof.
  intros Hn Hi. unfold advance_by. rewrite pointee_at. cbn [mbind dres_bind].
  destruct j as [|ms|es|s|b|z|z|l|d t|]; cbn [it_at m_it set_object_iterator set_array_iterator set_primitive_iterator object_iterator array_iterator primitive_iterator size] in *;
    try (rewrite std_advance_in by done; done); (rewrite ptrdiff_small by lia); cbn; [|done..].
  by replace (n + 1 + i) with (n + i + 1) by lia.
Qed.

Lemma eq_at n n' : iter_eq m (it_at p j n) (it_at p j n') = DOk (n =? n').
Proof.
  unfold iter_eq, same_object. rewrite !m_object_at, bool_decide_eq_true_2 by done. cbn [mbind dres_bind]. rewrite pointee_at. cbn [mbind dres_bind].
  destruct j; cbn; try done. f_equal. destruct (Z.eqb_spec (n + 1) (n' + 1)), (Z.eqb_spec n n'); lia || done.
Qed.
End positions.

(** ** The three loops *)

Lemma items_fuel j : S (Z.to_nat (size j)) = S (length (items_of j)).
Proof. rewrite size_items. unfold blen. by rewrite Nat2Z.id. Qed.

Section loops.
Context (m : heap) (p : Z) (j : json) (Hj : m !! p = Some j).

Lemma position_bound n kv : items_of j !! n = Some kv → 0 ≤ Z.of_nat n ∧ Z.of_nat n + 1 ≤ size j.
Proof. intros H%lookup_lt_Some. rewrite size_items. unfold blen. lia. Qed.

Lemma neq_at n : (n ≤ length (items_of j))%nat →
  iter_neq m (it_at p j (Z.of_nat n)) (it_at p j (size j)) = DOk (negb (n =? length (items_of j))%nat).
Proof.
  intros _. unfold iter_neq. rewrite (eq_at m p j Hj), size_items. cbn. unfold blen.
  destruct (Z.eqb_spec (Z.of_nat n) (Z.of_nat (length (items_of j)))), (Nat.eqb_spec n (length (items_of j))); lia || done.
Qed.

Lemma incr_at n : 0 ≤ n → n + 1 ≤ size j → incr m (it_at p j n) = DOk (it_at p j (n + 1)).
Proof. intros. apply (advance_at m p j Hj); lia. Qed.

Lemma each_value_spec : each_value m (S (Z.to_nat (size j))) p = Some (DOk (items_of j).*2).
Proof.
  unfold each_value. rewrite (begin_at m p j Hj), (end_at m p j Hj), items_fuel, <- (length_fmap snd). cbn [range_loop].
  apply (range_for_list _ _ _ (λ n, it_at p j (Z.of_nat n))).
  - intros n. rewrite length_fmap. apply neq_at.
  - intros n v ([k v'] & -> & Hn)%list_lookup_fmap_Some. exists (it_at p j (Z.of_nat n)). split.
    + by rewrite (deref_at m p j Hj n (k, v') Hn).
    + apply position_bound in Hn. rewrite incr_at by lia. do 2 f_equal. lia.
Qed.

Lemma each_reverse_spec : each_reverse m (S (Z.to_nat (size j))) p = Some (DOk (reverse (items_of j).*2)).
Proof.
  unfold each_reverse, rbegin, rend. rewrite (begin_at m p j Hj), (end_at m p j Hj), items_fuel, <- (length_fmap snd), <- length_reverse.
  cbn [range_loop mbind dres_bind]. replace (size j) with (size j - Z.of_nat 0) by lia.
  assert (length (reverse (items_of j).*2) = Z.to_nat (size j)) as Hlen
    by (rewrite length_reverse, length_fmap, size_items; unfold blen; lia).
  apply (range_for_list _ _ _ (λ n, mkReverse (it_at p j (size j - Z.of_nat n)))).
  - intros n Hn. unfold r_neq, iter_neq. cbn [base]. rewrite (eq_at m p j Hj), Hlen in *. cbn.
    assert (0 ≤ size j) by (rewrite size_items; apply blen_nonneg).
    destruct (Z.eqb_spec (size j - Z.of_nat n) 0), (Nat.eqb_spec n (Z.to_nat (size j))); lia || done.
  - intros n v Hn. pose proof (lookup_lt_Some _ _ _ Hn) as Hb. rewrite Hlen in Hb.
    rewrite reverse_lookup in Hn by (rewrite <- length_reverse, Hlen; lia).
    rewrite <- length_reverse, Hlen in Hn. apply list_lookup_fmap_Some in Hn as ([k v'] & -> & Hn).
    assert (decr m (it_at p j (size j - Z.of_nat n)) = DOk (it_at p j (Z.of_nat (Z.to_nat (size j) - S n)))) as E.
    { unfold decr. rewrite (advance_at m p j Hj) by lia. do 2 f_equal. lia. }
    eexists. unfold r_deref, r_incr. cbn [base]. rewrite E. cbn [mbind dres_bind]. rewrite (deref_at m p j Hj _ _ Hn). split; [reflexivity|].
    cbn [base]. rewrite E. cbn. do 3 f_equal. lia.
Qed.

(** The proxy after [n] rounds: in an array the cached text is that of the last round. *)
Definition proxy_at (n : nat) : proxy_value :=
  match j with
  | JArray _ => mkProxy (it_at p j (Z.of_nat n)) (Z.of_nat n) (Z.of_nat (n - 1)) (dec (Z.of_nat (n - 1)))
  | _ => mkProxy (it_at p j (Z.of_nat n)) (Z.of_nat n) 0 b#"0"
  end.

Lemma anchor_at n : anchor (proxy_at n) = it_at p j (Z.of_nat n).
Proof. unfold proxy_at. by destruct j. Qed.

Lemma proxy_key_at n kv : items_of j !! n = Some kv → ∃ v, proxy_key m (proxy_at n) = DOk (kv.1, v) ∧
  anchor v = it_at p j (Z.of_nat n) ∧ array_index v = Z.of_nat n ∧
  array_index_last v = array_index_last (proxy_at (S n)) ∧ array_index_str v = array_index_str (proxy_at (S n)).
Proof.
  intros Hn. unfold proxy_key. rewrite anchor_at, (pointee_at m p j Hj). cbn [mbind dres_bind]. unfold proxy_at.
  destruct j as [|ms|es|s|b|z|z|l|d t|]; cbn in Hn; try (by rewrite lookup_nil in Hn);
    try (apply list_lookup_singleton_Some in Hn as [-> <-]; by eexists).
  - rewrite (key_at m p _ Hj n kv ms) by done. by eexists.
  - rewrite list_lookup_imap in Hn. destruct (es !! n) as [e|]; [|done]. injection Hn as <-. cbn [array_index array_index_last].
    replace (S n - 1)%nat with n by lia. destruct (Z.eqb_spec (Z.of_nat n) (Z.of_nat (n - 1))) as [E|E]; [|by eexists].
    assert (n = 0)%nat as -> by lia. by eexists.
Qed.

Lemma each_item_spec : size j ≤ ARRAY_MAX_SIZE → each_item m (S (Z.to_nat (size j))) p = Some (DOk (items_of j)).
Proof.
  intros Hs. unfold each_item, items_begin, items_end. rewrite (begin_at m p j Hj), (end_at m p j Hj), items_fuel. cbn [range_loop mbind dres_bind].
  replace (proxy (it_at p j 0)) with (proxy_at 0) by (unfold proxy_at; by destruct j).
  apply (range_for_list _ _ _ proxy_at).
  - intros n Hn. unfold proxy_neq. rewrite anchor_at. by apply neq_at.
  - intros n kv Hn. destruct (proxy_key_at n kv Hn) as ([a i li st] & -> & Ha & Hi & Hl & Hst). cbn in Ha, Hi, Hl, Hst. subst.
    unfold proxy_value_of, iter_value. cbn [mbind dres_bind anchor].
    rewrite (deref_at m p j Hj n kv Hn). eexists. split; [cbn; by destruct kv|].
    unfold proxy_incr. cbn [anchor array_index]. apply position_bound in Hn.
    rewrite incr_at by lia. cbn. unfold wrap. rewrite Z.mod_small by (unfold ARRAY_MAX_SIZE in *; lia).
    replace (Z.of_nat n + 1) with (Z.of_nat (S n)) by lia. unfold proxy_at. by destruct j.
Qed.
End loops.

(** C36 (termination): going through any value ends after one round per element.  The
    loop from [begin] to [end] gives the values of the members in the order of their keys, the
    elements in order, nothing for null and the value itself for anything else; the loop
    from [rbegin] to [rend] gives them in reverse; and the loop over [items()] gives them with
    their keys, the decimal positions for an array, which it caches, and the empty string for a
    value that is no container.  No assertion fails and no iterator leaves its container. *)
Theorem iteration m p j :
  m !! p = Some j → size j ≤ ARRAY_MAX_SIZE →
  let rounds := S (Z.to_nat (size j)) in
  each_value m rounds p = Some (DOk (items_of j).*2) ∧
  each_reverse m rounds p = Some (DOk (reverse (items_of j).*2)) ∧
  each_item m rounds p = Some (DOk (items_of j)).
Proof. intros Hj Hs. split; [by apply each_value_spec|split; [by apply each_reverse_spec|by apply each_item_spec]]. Qed.

Definition three : json := JArray [JBoolean true; JNull; JUnsigned 3].

Lemma iteration_witness :
  each_item {[ 8 := three ]} 4 8 = Some (DOk [(b#"0", JBoolean true); (b#"1", JNull); (b#"2", JUnsigned 3)]) ∧
  each_reverse {[ 8 := three ]} 4 8 = Some (DOk [JUnsigned 3; JNull; JBoolean true]).
Proof.
  destruct (iteration {[ 8 := three ]} 8 three ltac:(by rewrite lookup_singleton_eq) ltac:(done)) as (_ & Hr & Hi).
  split; [exact Hi|exact Hr].
Defined.
