(* ===== verification/JsonRanges.v ===== *)
(** * JsonRanges: the operations of a JSON value that take iterators
      ([include/nlohmann/json.hpp], class [basic_json])

    [erase], [insert] and [update] with iterators, the constructor from a range, and
    [swap], on the variables of [JsonIter]: an iterator may be into another value, or into
    the value that is changed.  After a change the iterators into what was moved are not to be used
    any more, which is not tracked. *)

From S2P Require Import Prelude CString Prog JsonValue JsonAccess JsonIter.

(** ** Actions on the variables *)

Definition hact (A : Type) : Type := heap → dres A * heap.

#[export] Instance hact_ret : MRet hact := λ A a m, (DOk a, m).
#[export] Instance hact_bind : MBind hact :=
  λ A B f a m,
    match a m with
    | (DOk x, m) => f x m
    | (DThrow e, m) => (DThrow e, m)
    | (DUndef u, m) => (DUndef u, m)
    end.

Definition hthrow {A} (e : exn) : hact A := λ m, (DThrow e, m).
Definition hundef {A} (u : ub) : hact A := λ m, (DUndef u, m).
(** What only reads. *)
Definition hread {A} (f : heap → dres A) : hact A := λ m, (f m, m).

(** An action on the value of a variable. *)
Definition on_value {A} (this : Z) (a : jact A) : hact A := λ m,
  match m !! this with
  | Some j => let '(r, j) := a j in (r, <[this := j]> m)
  | None => (DUndef UB_iterator, m)
  end.
Definition value_at (this : Z) : hact json :=
  hread (λ m, match m !! this with Some j => DOk j | None => DUndef UB_iterator end).
Definition assign (this : Z) (j : json) : hact unit := on_value this (jput j).

(** ** Ranges of the containers *)

Definition slice {A} (x y : Z) (l : list A) : list A := drop (Z.to_nat x) (take (Z.to_nat y) l).

(** The elements of a range; the empty one when the iterators belong to no container. *)
Definition std_range {A} (l : list A) (first last : std_iterator) : dres (list A) :=
  match first, last with
  | Some x, Some y => if in_container l x && in_container l y && (x <=? y) then DOk (slice x y l) else DUndef UB_iterator
  | None, None => DOk []
  | _, _ => DUndef UB_iterator
  end.

(** [erase(first, last)] of a container, and where it leaves off. *)
Definition std_erase {A} (l : list A) (first last : std_iterator) : dres (list A * std_iterator) :=
  match first, last with
  | Some x, Some y =>
      if in_container l x && in_container l y && (x <=? y)
      then DOk (take (Z.to_nat x) l ++ drop (Z.to_nat y) l, Some x) else DUndef UB_iterator
  | _, _ => DUndef UB_iterator
  end.

(** [std::vector::insert]. *)
Definition std_insert (l : list json) (pos : std_iterator) (vals : list json) : dres (list json * Z) :=
  match pos with
  | Some x =>
      if negb (in_container l x) then DUndef UB_iterator
      else if ARRAY_MAX_SIZE <? blen l + blen vals then DThrow ExLengthError
      else DOk (insert_at (Z.to_nat x) vals l, x)
  | None => DUndef UB_iterator
  end.

(** [std::map::insert(first, last)]. *)
Definition emplace_all (vs ms : list (bytes * json)) : list (bytes * json) := foldl (λ ms kv, map_emplace kv.1 kv.2 ms) ms vs.

(** ** [erase] *)

(** [erase(pos)]. *)
Definition erase_pos (this : Z) (pos : iter_impl) : hact iter_impl :=
  if bool_decide (m_object pos ≠ Some this) then hthrow (ExJsonIterator 202) else
  result ← hread (λ m, end_ m this);
  j ← value_at this;
  match j with
  | JObject ms =>
      '(ms, i) ← hread (λ _, next ← std_advance ms (object_iterator (m_it pos)) 1; std_erase ms (object_iterator (m_it pos)) next);
      assign this (JObject ms);;
      mret (set_object_iterator i result)
  | JArray es =>
      '(es, i) ← hread (λ _, next ← std_advance es (array_iterator (m_it pos)) 1; std_erase es (array_iterator (m_it pos)) next);
      assign this (JArray es);;
      mret (set_array_iterator i result)
  | JNull | JDiscarded => hthrow (ExJsonType 307)
  | _ =>
      if negb (is_begin (primitive_iterator (m_it pos))) then hthrow (ExJsonIterator 205)
      else assign this JNull;; mret result
  end.

(** [erase(first, last)]. *)
Definition erase_range (this : Z) (first last : iter_impl) : hact iter_impl :=
  if bool_decide (m_object first ≠ Some this ∨ m_object last ≠ Some this) then hthrow (ExJsonIterator 203) else
  result ← hread (λ m, end_ m this);
  j ← value_at this;
  match j with
  | JObject ms =>
      '(ms, i) ← hread (λ _, std_erase ms (object_iterator (m_it first)) (object_iterator (m_it last)));
      assign this (JObject ms);;
      mret (set_object_iterator i result)
  | JArray es =>
      '(es, i) ← hread (λ _, std_erase es (array_iterator (m_it first)) (array_iterator (m_it last)));
      assign this (JArray es);;
      mret (set_array_iterator i result)
  | JNull | JDiscarded => hthrow (ExJsonType 307)
  | _ =>
      if negb (is_begin (primitive_iterator (m_it first))) || negb (is_end (primitive_iterator (m_it last)))
      then hthrow (ExJsonIterator 204)
      else assign this JNull;; mret result
  end.

(** ** [insert] *)

(** [insert_iterator]. *)
Definition insert_iterator (this : Z) (es : list json) (pos : iter_impl) (vals : list json) : hact iter_impl :=
  '(es, insert_pos) ← hread (λ _, std_insert es (array_iterator (m_it pos)) vals);
  assign this (JArray es);;
  mret (set_array_iterator (Some insert_pos) (iterator_to this)).

(** The checks of every [insert] into an array. *)
Definition insert_checked (this : Z) (pos : iter_impl) (go : list json → hact iter_impl) : hact iter_impl :=
  j ← value_at this;
  match j with
  | JArray es => if bool_decide (m_object pos ≠ Some this) then hthrow (ExJsonIterator 202) else go es
  | _ => hthrow (ExJsonType 309)
  end.

(** [insert(pos, val)], [insert(pos, cnt, val)] and [insert(pos, ilist)]. *)
Definition insert_value (this : Z) (pos : iter_impl) (val : json) : hact iter_impl :=
  insert_checked this pos (λ es, insert_iterator this es pos [val]).
Definition insert_count (this : Z) (pos : iter_impl) (cnt : Z) (val : json) : hact iter_impl :=
  insert_checked this pos (λ es, insert_iterator this es pos (replicate (Z.to_nat cnt) val)).
Definition insert_list (this : Z) (pos : iter_impl) (ilist : list json) : hact iter_impl :=
  insert_checked this pos (λ es, insert_iterator this es pos ilist).

(** The elements between two iterators, whatever the value they are into. *)
Definition array_range (m : heap) (first last : iter_impl) : dres (list json) :=
  let es := match m_object first with Some p => match m !! p with Some (JArray es) => es | _ => [] end | None => [] end in
  std_range es (array_iterator (m_it first)) (array_iterator (m_it last)).

(** [insert(pos, first, last)]. *)
Definition insert_range (this : Z) (pos first last : iter_impl) : hact iter_impl :=
  insert_checked this pos (λ es,
    if bool_decide (m_object first ≠ m_object last) then hthrow (ExJsonIterator 210) else
    if bool_decide (m_object first = Some this) then hthrow (ExJsonIterator 211) else
    vals ← hread (λ m, array_range m first last);
    insert_iterator this es pos vals).

(** [insert(first, last)] of members. *)
Definition insert_members (this : Z) (first last : iter_impl) : hact unit :=
  j ← value_at this;
  match j with
  | JObject ms =>
      if bool_decide (m_object first ≠ m_object last) then hthrow (ExJsonIterator 210) else
      source ← hread (λ m, pointee m first);
      match source with
      | JObject vs =>
          vs ← hread (λ _, std_range vs (object_iterator (m_it first)) (object_iterator (m_it last)));
          assign this (JObject (emplace_all vs ms))
      | _ => hthrow (ExJsonIterator 202)
      end
  | _ => hthrow (ExJsonType 309)
  end.

(** ** [update(first, last, merge_objects)] *)

(** What the loop does with a member. *)
Definition update_member (merge_objects : bool) (k : bytes) (v : json) : jact unit :=
  this ← jget;
  if merge_objects && is_object v && contains_key k this
  then at_member k (update true v) else subscript_member k (jput v).

(** The rounds are bounded by the positions of the container: an iterator that never meets
    [last] leaves it. *)
Fixpoint update_loop (fuel : nat) (this : Z) (merge_objects : bool) (it last : iter_impl) : hact unit :=
  match fuel with
  | O => hundef UB_iterator
  | S f =>
      more ← hread (λ m, iter_neq m it last);
      if more : bool then
        k ← hread (λ m, iter_key m it);
        v ← hread (λ m, iter_value m it);
        on_value this (update_member merge_objects k v);;
        it ← hread (λ m, incr m it);
        update_loop f this merge_objects it last
      else mret tt
  end.

Definition update_range (this : Z) (first last : iter_impl) (merge_objects : bool) : hact unit :=
  j ← value_at this;
  (if is_null j then assign this (JObject []) else mret tt);;
  if negb (is_null j || is_object j) then hthrow (ExJsonType 312) else
  if bool_decide (m_object first ≠ m_object last) then hthrow (ExJsonIterator 210) else
  source ← hread (λ m, pointee m first);
  match source with
  | JObject ms => update_loop (2 + length ms) this merge_objects first last
  | _ => hthrow (ExJsonType 312)
  end.

(** [update(j, merge_objects)], where [j] is the value at [q]. *)
Definition update_value (this q : Z) (merge_objects : bool) : hact unit :=
  first ← hread (λ m, begin m q);
  last ← hread (λ m, end_ m q);
  update_range this first last merge_objects.

(** ** The constructor from a range *)

Definition json_of_range (m : heap) (first last : iter_impl) : dres json :=
  j ← pointee m first;
  _ ← pointee m last;
  if bool_decide (m_object first ≠ m_object last) then DThrow (ExJsonIterator 201) else
  match j with
  | JBoolean _ | JFloat _ | JInteger _ | JUnsigned _ | JString _ =>
      if negb (is_begin (primitive_iterator (m_it first))) || negb (is_end (primitive_iterator (m_it last)))
      then DThrow (ExJsonIterator 204) else DOk j
  | JObject ms => vs ← std_range ms (object_iterator (m_it first)) (object_iterator (m_it last)); DOk (JObject (emplace_all vs []))
  | JArray es => vs ← std_range es (array_iterator (m_it first)) (array_iterator (m_it last)); DOk (JArray vs)
  | JBinary _ _ => DOk j
  | JNull | JDiscarded => DThrow (ExJsonIterator 206)
  end.

(** ** [swap] *)

Definition swap (this other : Z) : hact unit :=
  j ← value_at this;
  k ← value_at other;
  assign this k;;
  assign other j.

(** [swap(array_t&)] and the like: what the other container becomes. *)
Definition swap_array (this : Z) (other : list json) : hact (list json) :=
  j ← value_at this;
  match j with JArray es => assign this (JArray other);; mret es | _ => hthrow (ExJsonType 310) end.
Definition swap_object (this : Z) (other : list (bytes * json)) : hact (list (bytes * json)) :=
  j ← value_at this;
  match j with JObject ms => assign this (JObject other);; mret ms | _ => hthrow (ExJsonType 310) end.
Definition swap_string (this : Z) (other : bytes) : hact bytes :=
  j ← value_at this;
  match j with JString s => assign this (JString other);; mret s | _ => hthrow (ExJsonType 310) end.
Definition swap_binary (this : Z) (other : bytes * option Z) : hact (bytes * option Z) :=
  j ← value_at this;
  match j with JBinary d t => assign this (JBinary other.1 other.2);; mret (d, t) | _ => hthrow (ExJsonType 310) end.

(** ** Lemmas *)

Lemma hbind_ok {A B} (a : hact A) (f : A → hact B) m x m' : a m = (DOk x, m') → (a ≫= f) m = f x m'.
Proof. intros H. unfold mbind, hact_bind. by rewrite H. Qed.

Lemma hbind_read {A B} (r : heap → dres A) (f : A → hact B) m x : r m = DOk x → (hread r ≫= f) m = f x m.
Proof. intros H. apply hbind_ok. unfold hread. by rewrite H. Qed.

Lemma jbind_eq {A B} (a : jact A) (f : A → jact B) j :
  (a ≫= f) j = match a j with (DOk x, j) => f x j | (DThrow e, j) => (DThrow e, j) | (DUndef u, j) => (DUndef u, j) end.
Proof. done. Qed.

Lemma value_at_run this m j : m !! this = Some j → value_at this m = (DOk j, m).
Proof. intros H. unfold value_at, hread. by rewrite H. Qed.

Lemma on_value_run {A} this (a : jact A) m j : m !! this = Some j → on_value this a m = ((a j).1, <[this := (a j).2]> m).
Proof. intros H. unfold on_value. rewrite H. by destruct (a j). Qed.

Lemma assign_run this j m k : m !! this = Some k → assign this j m = (DOk tt, <[this := j]> m).
Proof. intros H. unfold assign. by rewrite (on_value_run _ _ _ _ H). Qed.

Lemma in_container_true {A} (l : list A) x : 0 ≤ x ≤ blen l → in_container l x = true.
Proof. intros. unfold in_container. by rewrite !(proj2 (Z.leb_le _ _)) by lia. Qed.

(** ** [update] *)

Lemma update_member_object merge k v t r j : update_member merge k v (JObject t) = (r, j) → ∃ t', j = JObject t'.
Proof.
  unfold update_member. rewrite jbind_eq. cbn [jget]. destruct (_ && _).
  - unfold at_member. destruct (map_find k t) as [w|]; [destruct (update true v w)|]; intros; simplify_eq; eauto.
  - cbn. intros; simplify_eq. eauto.
Qed.

(** A member at a time. *)
Lemma update_cons merge k v ms t :
  update merge (JObject ((k, v) :: ms)) (JObject t) = (update_member merge k v;; update merge (JObject ms)) (JObject t).
Proof.
  destruct (update_member merge k v (JObject t)) as [r j] eqn:E. destruct (update_member_object _ _ _ _ _ _ E) as [t' ->].
  rewrite jbind_eq, E. cbn [update]. revert E. unfold update_member. rewrite !jbind_eq. cbn [jget]. intros E. rewrite jbind_eq, E.
  by destruct r.
Qed.

Lemma update_nil merge t : update merge (JObject []) (JObject t) = (DOk tt, JObject t).
Proof. done. Qed.

Section update.
Context (p q : Z) (merge : bool) (ms : list (bytes * json)).
Hypothesis Hpq : p ≠ q.

Lemma update_loop_spec m n t fuel :
  m !! p = Some (JObject t) → m !! q = Some (JObject ms) → (n ≤ length ms)%nat → (length ms - n < fuel)%nat →
  update_loop fuel p merge (it_at q (JObject ms) (Z.of_nat n)) (it_at q (JObject ms) (size (JObject ms))) m =
  on_value p (update merge (JObject (drop n ms))) m.
Proof.
  remember (length ms - n)%nat as d eqn:Hd. revert m n t fuel Hd. induction d as [|d IH]; intros m n t [|fuel] Hd Hp Hq Hn Hf; try lia;
    cbn [update_loop]; erewrite hbind_read by (rewrite (neq_at m q _ Hq) by done; reflexivity); cbn [items_of].
  - rewrite (proj2 (Nat.eqb_eq _ _)) by lia. cbn [negb]. rewrite drop_ge by lia.
    rewrite (on_value_run _ _ _ _ Hp), update_nil. cbn. by rewrite insert_id.
  - rewrite (proj2 (Nat.eqb_neq _ _)) by lia. cbn [negb].
    destruct (lookup_lt_is_Some_2 ms n) as [[k v] Hkv]; [lia|]. rewrite (drop_S _ _ _ Hkv).
    erewrite hbind_read by (by apply (key_at m q _ Hq n (k, v) ms)).
    erewrite hbind_read by (by apply (deref_at m q _ Hq n (k, v))). cbn [fst snd].
    rewrite (on_value_run _ _ _ _ Hp), update_cons, jbind_eq.
    unfold mbind at 1, hact_bind at 1. rewrite (on_value_run _ _ _ _ Hp).
    destruct (update_member merge k v (JObject t)) as [r j] eqn:E. destruct (update_member_object _ _ _ _ _ _ E) as [t' ->].
    cbn [fst snd]. destruct r as [[]|e|u]; [|done..].
    assert (<[p := JObject t']> m !! q = Some (JObject ms)) as Hq' by (by rewrite lookup_insert_ne).
    erewrite hbind_read by (rewrite (incr_at _ q _ Hq') by (cbn; unfold blen; lia); reflexivity).
    replace (Z.of_nat n + 1) with (Z.of_nat (S n)) by lia.
    rewrite (IH _ (S n) t'); [|lia|by rewrite lookup_insert_eq|done|lia|lia].
    rewrite (on_value_run _ _ _ (JObject t')) by (by rewrite lookup_insert_eq). by rewrite insert_insert_eq.
Qed.
End update.

(** [update] over the iterators of another variable, which assigns member
    after member while both values are in memory, is the recursive [update] of
    [JsonAccess] on the value of this one: it overwrites and adds in the order of the keys,
    merges objects on request, turns null into an object first, and throws
    [type_error.312] in the same cases, with the members before the failure already
    assigned. *)
Lemma update_iterators m p q t j merge :
  p ≠ q → m !! p = Some t → m !! q = Some j → update_value p q merge m = on_value p (update merge j) m.
Proof.
  intros Hpq Hp Hq. unfold update_value. rewrite (hbind_read _ _ m _ (begin_at m q j Hq)), (hbind_read _ _ m _ (end_at m q j Hq)).
  unfold update_range. erewrite hbind_ok by (by apply value_at_run). rewrite (on_value_run _ _ _ _ Hp).
  assert (∀ m0 t0, m0 !! p = Some (JObject t0) → m0 !! q = Some j →
    (if bool_decide (m_object (it_at q j 0) ≠ m_object (it_at q j (size j))) then hthrow (ExJsonIterator 210) else
     source ← hread (λ m, pointee m (it_at q j 0));
     match source with
     | JObject ms => update_loop (2 + length ms) p merge (it_at q j 0) (it_at q j (size j))
     | _ => hthrow (ExJsonType 312)
     end) m0 = ((update merge j (JObject t0)).1, <[p := (update merge j (JObject t0)).2]> m0)) as Hgo.
  { intros m0 t0 Hp0 Hq0. rewrite !m_object_at, bool_decide_eq_false_2 by tauto. rewrite (hbind_read _ _ m0 _ (pointee_at m0 q j Hq0 0)).
    destruct j; try (cbn; by rewrite insert_id).
    rewrite (update_loop_spec p q merge members Hpq m0 0 t0) by (done || lia). by rewrite (on_value_run _ _ _ _ Hp0). }
  destruct t as [|t| | | | | | | |];
    try (erewrite hbind_ok by done; cbn [is_null is_object orb negb]; unfold hthrow; destruct j; cbn; by rewrite insert_id).
  - erewrite hbind_ok by (by eapply assign_run). cbn [is_null is_object orb negb].
    rewrite (Hgo _ []) by (by rewrite ?lookup_insert_eq, ?lookup_insert_ne). rewrite insert_insert_eq. by destruct j.
  - erewrite hbind_ok by done. cbn [is_null is_object orb negb]. by apply Hgo.
Qed.

Definition ab : json := JObject [(b#"a", JUnsigned 1); (b#"b", JNull)].
Definition ac : json := JObject [(b#"a", JNull); (b#"c", JUnsigned 3)].

Lemma update_iterators_witness :
  update_value 1 2 false {[ 1 := ab; 2 := ac ]} =
  (DOk tt, <[1 := JObject [(b#"a", JNull); (b#"b", JNull); (b#"c", JUnsigned 3)]]> {[ 1 := ab; 2 := ac ]}).
Proof.
  rewrite (update_iterators _ 1 2 ab ac) by (done || vm_compute; reflexivity).
  by rewrite (on_value_run _ _ _ ab) by (vm_compute; reflexivity).
Defined.

(** ** [insert] and [erase] of a range *)

Lemma drop_all_blen {A} (l : list A) : drop (Z.to_nat (blen l)) l = [].
Proof. apply drop_ge. unfold blen. lia. Qed.

Lemma blen_slice {A} x y (l : list A) : 0 ≤ x ≤ y → y ≤ blen l → blen (slice x y l) = y - x.
Proof. intros. unfold slice. rewrite blen_drop; rewrite blen_take by lia; lia. Qed.

Lemma blen_insert_at {A} x (vs l : list A) : blen (insert_at x vs l) = blen l + blen vs.
Proof. unfold insert_at. rewrite <- (take_drop x l) at 3. rewrite !blen_app. lia. Qed.

(** What is inserted at a position is what a range from there removes. *)
Lemma erase_insert_at {A} x (vs l : list A) : 0 ≤ x ≤ blen l →
  take (Z.to_nat x) (insert_at (Z.to_nat x) vs l) ++ drop (Z.to_nat (x + blen vs)) (insert_at (Z.to_nat x) vs l) = l.
Proof.
  intros Hx. unfold insert_at.
  assert (length (take (Z.to_nat x) l) = Z.to_nat x) as Hl by (rewrite length_take; unfold blen in Hx; lia).
  rewrite take_app_length' by done. rewrite app_assoc, drop_app_length'; [apply take_drop|].
  rewrite length_app, Hl. unfold blen. lia.
Qed.

Lemma std_range_in {A} (l : list A) x y : 0 ≤ x ≤ y → y ≤ blen l → std_range l (Some x) (Some y) = DOk (slice x y l).
Proof. intros. unfold std_range. rewrite !in_container_true by lia. by rewrite (proj2 (Z.leb_le _ _)) by lia. Qed.

Lemma std_erase_in {A} (l : list A) x y : 0 ≤ x ≤ y → y ≤ blen l →
  std_erase l (Some x) (Some y) = DOk (take (Z.to_nat x) l ++ drop (Z.to_nat y) l, Some x).
Proof. intros. unfold std_erase. rewrite !in_container_true by lia. by rewrite (proj2 (Z.leb_le _ _)) by lia. Qed.

Lemma insert_range_run m p q es fs x a b :
  p ≠ q → m !! p = Some (JArray es) → m !! q = Some (JArray fs) →
  0 ≤ x ≤ blen es → 0 ≤ a ≤ b → b ≤ blen fs → blen es + (b - a) ≤ ARRAY_MAX_SIZE →
  let after := JArray (insert_at (Z.to_nat x) (slice a b fs) es) in
  insert_range p (it_at p (JArray es) x) (it_at q (JArray fs) a) (it_at q (JArray fs) b) m = (DOk (it_at p after x), <[p := after]> m).
Proof.
  intros Hpq Hp Hq Hx Ha Hb Hs after. unfold insert_range, insert_checked.
  erewrite hbind_ok by (by apply value_at_run). rewrite !m_object_at, !bool_decide_eq_false_2 by naive_solver.
  erewrite hbind_read.
  2: { unfold array_range. rewrite m_object_at, Hq. by apply std_range_in. }
  unfold insert_iterator. erewrite hbind_read.
  2: { cbn [it_at m_it array_iterator set_array_iterator]. unfold std_insert. rewrite in_container_true by done. cbn [negb].
       rewrite blen_slice, (proj2 (Z.ltb_ge _ _)) by lia. reflexivity. }
  cbv beta iota. erewrite hbind_ok by (by eapply assign_run). done.
Qed.

Lemma erase_range_run m p es x y :
  m !! p = Some (JArray es) → 0 ≤ x ≤ y → y ≤ blen es →
  let after := JArray (take (Z.to_nat x) es ++ drop (Z.to_nat y) es) in
  erase_range p (it_at p (JArray es) x) (it_at p (JArray es) y) m = (DOk (it_at p after x), <[p := after]> m).
Proof.
  intros Hp Hx Hy after. unfold erase_range. rewrite !m_object_at, bool_decide_eq_false_2 by naive_solver.
  rewrite (hbind_read _ _ m _ (end_at m p _ Hp)). erewrite hbind_ok by (by apply value_at_run). cbv beta iota.
  erewrite hbind_read by (by apply std_erase_in). cbv beta iota. erewrite hbind_ok by (by eapply assign_run). done.
Qed.

(** Inserting elements [a] to [b] of one array at position [x] of another puts
    them there in order and gives an iterator to the first of them; from it an offset of
    [b - a] leads behind the last one, and erasing that range restores the array and
    gives the iterator of the position again.  Neither leaves a container. *)
Lemma insert_erase m p q es fs x a b :
  p ≠ q → m !! p = Some (JArray es) → m !! q = Some (JArray fs) →
  0 ≤ x ≤ blen es → 0 ≤ a ≤ b → b ≤ blen fs → blen es + (b - a) ≤ ARRAY_MAX_SIZE →
  let after := JArray (insert_at (Z.to_nat x) (slice a b fs) es) in
  let insert := insert_range p (it_at p (JArray es) x) (it_at q (JArray fs) a) (it_at q (JArray fs) b) in
  insert m = (DOk (it_at p after x), <[p := after]> m) ∧
  (first ← insert; last ← hread (λ m, iter_add m (b - a) first); erase_range p first last) m = (DOk (it_at p (JArray es) x), m).
Proof.
  intros Hpq Hp Hq Hx Ha Hb Hs after insert.
  assert (insert m = (DOk (it_at p after x), <[p := after]> m)) as Hi by (by apply insert_range_run).
  split; [done|]. rewrite (hbind_ok _ _ _ _ _ Hi).
  assert (<[p := after]> m !! p = Some after) as Hp' by apply lookup_insert_eq.
  assert (size after = blen es + (b - a)) as Hsize by (cbn; rewrite blen_insert_at, blen_slice; lia).
  erewrite hbind_read.
  2: { unfold iter_add. rewrite (pointee_at _ p _ Hp'). cbn [mbind dres_bind]. by apply (advance_at _ p _ Hp'); lia. }
  unfold after in Hsize |- *. cbn [size] in Hsize. rewrite erase_range_run by (done || lia).
  rewrite <- (blen_slice a b fs), erase_insert_at by lia. by rewrite insert_insert_eq, insert_id.
Qed.

Definition ones : json := JArray [JUnsigned 1; JUnsigned 1].

Lemma insert_erase_witness :
  (first ← insert_range 1 (it_at 1 ones 1) (it_at 2 three 0) (it_at 2 three 2);
   last ← hread (λ m, iter_add m 2 first);
   erase_range 1 first last) {[ 1 := ones; 2 := three ]} = (DOk (it_at 1 ones 1), {[ 1 := ones; 2 := three ]}).
Proof.
  apply (insert_erase {[ 1 := ones; 2 := three ]} 1 2 [JUnsigned 1; JUnsigned 1] [JBoolean true; JNull; JUnsigned 3] 1 0 2);
    try done; vm_compute; reflexivity.
Defined.

(** ** A whole value *)

Lemma emplace_all_sorted vs ms : sorted_keys (ms ++ vs) = true → emplace_all vs ms = ms ++ vs.
Proof.
  revert ms. induction vs as [|[k v] vs IH]; intros ms Hs; [by rewrite app_nil_r|]. cbn [emplace_all foldl fst snd].
  assert (map_emplace k v ms = ms ++ [(k, v)]) as ->.
  { unfold map_emplace. pose proof (sorted_keys_before _ _ _ _ Hs) as Hk. rewrite map_assign_last by done.
    assert (map_find k ms = None) as ->; [|done]. clear -Hk. induction Hk as [|[k0 w] ms Hk _ IH]; [done|]. cbn in *.
    rewrite bool_decide_eq_false_2; [done|]. intros ->. by rewrite bytes_ltb_irrefl in Hk. }
  change (emplace_all vs (ms ++ [(k, v)]) = ms ++ (k, v) :: vs). rewrite IH; by rewrite <- app_assoc.
Qed.

(** What is left when everything is erased. *)
Definition erased (j : json) : json := match j with JArray _ => JArray [] | JObject _ => JObject [] | _ => JNull end.

(** On the range from [begin] to [end] of a value, the constructor gives a
    copy of the value and [erase] leaves an empty container, or null where the value is no
    container; for null and a discarded value the first throws [invalid_iterator.206] and the
    second [type_error.307], with nothing changed. *)
Lemma whole_range m p j :
  m !! p = Some j → maps_sorted j = true →
  let range := first ← begin m p; last ← end_ m p; DOk (first, last) in
  let no_range := match j with JNull | JDiscarded => true | _ => false end in
  ('(first, last) ← range; json_of_range m first last) = (if no_range then DThrow (ExJsonIterator 206) else DOk j) ∧
  ('(first, last) ← hread (λ _, range); erase_range p first last) m =
    if no_range then (DThrow (ExJsonType 307), m) else (DOk (it_at p (erased j) (size (erased j))), <[p := erased j]> m).
Proof.
  intros Hp Hs range no_range. unfold range. rewrite (begin_at m p j Hp), (end_at m p j Hp). cbn [mbind dres_bind]. split.
  - unfold json_of_range. rewrite !(pointee_at m p j Hp). cbn [mbind dres_bind]. rewrite !m_object_at, bool_decide_eq_false_2 by naive_solver.
    destruct j; try done; cbn [it_at m_it object_iterator array_iterator set_object_iterator set_array_iterator].
    + apply maps_sorted_object in Hs as [Hs _]. rewrite std_range_in by (cbn; unfold blen; lia). cbn [mbind dres_bind].
      unfold slice. cbn [size]. rewrite emplace_all_sorted; unfold blen; rewrite Nat2Z.id, take_ge by lia; done.
    + rewrite std_range_in by (cbn; unfold blen; lia). cbn [mbind dres_bind]. unfold slice. cbn [size].
      unfold blen. by rewrite Nat2Z.id, take_ge by lia.
  - erewrite hbind_read by reflexivity. cbv beta iota. unfold erase_range. rewrite !m_object_at, bool_decide_eq_false_2 by naive_solver.
    rewrite (hbind_read _ _ m _ (end_at m p _ Hp)). erewrite hbind_ok by (by apply value_at_run).
    destruct j; try done; cbv beta iota;
      try (erewrite hbind_read by (apply std_erase_in; cbn; unfold blen; lia); cbv beta iota);
      try match goal with |- (if ?b then _ else _) _ = _ => change b with false; cbv iota end;
      (erewrite hbind_ok by (by eapply assign_run)); cbn [size]; rewrite ?drop_all_blen; done.
Qed.

Lemma whole_range_witness : sorted_keys [(b#"a", JNull)] = true ∧
  (range ← hread (λ m, first ← begin m 1; last ← end_ m 1; DOk (first, last)); let '(first, last) := range : iter_impl * iter_impl in
   erase_range 1 first last) {[ 1 := ab ]} = (DOk (it_at 1 (JObject []) 0), <[1 := JObject []]> {[ 1 := ab ]}).
Proof. split; [done|]. exact (proj2 (whole_range {[ 1 := ab ]} 1 ab ltac:(by rewrite lookup_singleton_eq) ltac:(reflexivity))). Defined.

(** ** What the checks let through *)

(** [insert(pos, first, last)] does not ask what value the range is of: nothing is inserted. *)
Example insert_from_object :
  insert_range 1 (it_at 1 ones 0) (it_at 2 ab 0) (it_at 2 ab 2) {[ 1 := ones; 2 := ab ]} =
  (DOk (it_at 1 ones 0), <[1 := ones]> {[ 1 := ones; 2 := ab ]}).
Proof. reflexivity. Qed.

(** The constructor copies binary data for any range. *)
Example copy_of_nothing :
  let data := JBinary b#"x" None in
  json_of_range {[ 1 := data ]} (it_at 1 data 1) (it_at 1 data 1) = DOk data.
Proof. reflexivity. Qed.

(** The two ways to follow an iterator differ in front of null. *)
Example before_null : (it ← end_ {[ 1 := JNull ]} 1; it ← decr {[ 1 := JNull ]} it; arrow {[ 1 := JNull ]} it) = DOk JNull ∧
  (it ← end_ {[ 1 := JNull ]} 1; it ← decr {[ 1 := JNull ]} it; deref {[ 1 := JNull ]} it) = DThrow (ExJsonIterator 214).
Proof. split; reflexivity. Qed.

(** The difference of iterators into different arrays is not checked, unlike their order. *)
Example unrelated_difference :
  iter_diff {[ 1 := ones; 2 := three ]} (it_at 1 ones 1) (it_at 2 three 0) = DUndef UB_iterator ∧
  iter_lt {[ 1 := ones; 2 := three ]} (it_at 1 ones 1) (it_at 2 three 0) = DThrow (ExJsonIterator 212).
Proof. split; reflexivity. Qed.
