(* ===== verification/JsonCompare.v ===== *)
(** * JsonCompare: equality and order of JSON values
      ([include/nlohmann/json.hpp], the comparison operators of [basic_json] and [value_t])

    Containers are compared by [std::vector] and [std::map], that is element by element;
    numbers of different types are converted first, an unsigned one to [int64_t] and
    both to [double] when one is.  The comparisons of doubles are parameters. *)

From S2P Require Import Prelude CString Prog JsonValue JsonAccess.

(** Doubles, on the literals that represent them: [==], [<] and the conversion of an
    integer. *)
Class FloatOps := {
  float_eqb : bytes → bytes → bool;
  float_ltb : bytes → bytes → bool;
  float_of_integer : Z → bytes
}.

(** [static_cast<std::int64_t>] of an unsigned number. *)
Definition to_signed (z : Z) : Z := let w := wrap 64 z in if w <? 2 ^ 63 then w else w - 2 ^ 64.

(** ** Order of the types *)

Definition type_order (j : json) : option Z :=
  match j with
  | JNull => Some 0
  | JBoolean _ => Some 1
  | JInteger _ | JUnsigned _ | JFloat _ => Some 2
  | JObject _ => Some 3
  | JArray _ => Some 4
  | JString _ => Some 5
  | JBinary _ _ => Some 6
  | JDiscarded => None
  end.

(** [operator<(value_t, value_t)]. *)
Definition type_ltb (lhs rhs : json) : bool :=
  match type_order lhs, type_order rhs with
  | Some l, Some r => l <? r
  | _, _ => false
  end.

(** ** Containers *)

(** [==] of two [std::vector]s, or of two [std::map]s. *)
Definition list_eqb {A} (eqb : A → A → bool) : list A → list A → bool :=
  fix go l r :=
    match l, r with
    | [], [] => true
    | x :: l, y :: r => eqb x y && go l r
    | _, _ => false
    end.

(** [<] of two [std::vector]s, and the same with the operands exchanged:
    [std::lexicographical_compare] asks both [x < y] and [y < x], which [cmp x y] holds. *)
Definition list_cmp {A} (cmp : A → A → bool * bool) : list A → list A → bool * bool :=
  fix go l r :=
    match l, r with
    | [], [] => (false, false)
    | [], _ :: _ => (true, false)
    | _ :: _, [] => (false, true)
    | x :: l, y :: r =>
        let '(lt, gt) := cmp x y in
        (if lt then true else if gt then false else (go l r).1,
         if gt then true else if lt then false else (go l r).2)
    end.

(** [<] of two [std::pair]s, in both directions. *)
Definition pair_cmp (k k' : bytes) (c : bool * bool) : bool * bool :=
  (bytes_ltb k k' || negb (bytes_ltb k' k) && c.1, bytes_ltb k' k || negb (bytes_ltb k k') && c.2).

(** ** The operators *)

Section compare.
Context `{FloatOps}.

(** [operator==]. *)
Fixpoint json_eqb (lhs rhs : json) {struct lhs} : bool :=
  match lhs, rhs with
  | JArray l, JArray r => list_eqb json_eqb l r
  | JObject l, JObject r =>
      list_eqb (λ x y, bool_decide (x.1 = y.1) && json_eqb x.2 y.2) l r
  | JNull, JNull => true
  | JString l, JString r => bool_decide (l = r)
  | JBoolean l, JBoolean r => Bool.eqb l r
  | JInteger l, JInteger r => l =? r
  | JUnsigned l, JUnsigned r => l =? r
  | JFloat l, JFloat r => float_eqb l r
  | JBinary l t, JBinary r u => bool_decide (l = r) && bool_decide (t = u)
  | JInteger l, JFloat r => float_eqb (float_of_integer l) r
  | JFloat l, JInteger r => float_eqb l (float_of_integer r)
  | JUnsigned l, JFloat r => float_eqb (float_of_integer l) r
  | JFloat l, JUnsigned r => float_eqb l (float_of_integer r)
  | JUnsigned l, JInteger r => to_signed l =? r
  | JInteger l, JUnsigned r => l =? to_signed r
  | _, _ => false
  end.

(** [lhs < rhs] and [rhs < lhs]. *)
Fixpoint json_cmp (lhs rhs : json) {struct lhs} : bool * bool :=
  match lhs, rhs with
  | JArray l, JArray r => list_cmp json_cmp l r
  | JObject l, JObject r => list_cmp (λ x y, pair_cmp x.1 y.1 (json_cmp x.2 y.2)) l r
  | JNull, JNull => (false, false)
  | JString l, JString r => (bytes_ltb l r, bytes_ltb r l)
  | JBoolean l, JBoolean r => (negb l && r, negb r && l)
  | JInteger l, JInteger r => (l <? r, r <? l)
  | JUnsigned l, JUnsigned r => (l <? r, r <? l)
  | JFloat l, JFloat r => (float_ltb l r, float_ltb r l)
  | JBinary l _, JBinary r _ => (bytes_ltb l r, bytes_ltb r l)
  | JDiscarded, JDiscarded => (false, false)
  | JInteger l, JFloat r => (float_ltb (float_of_integer l) r, float_ltb r (float_of_integer l))
  | JFloat l, JInteger r => (float_ltb l (float_of_integer r), float_ltb (float_of_integer r) l)
  | JUnsigned l, JFloat r => (float_ltb (float_of_integer l) r, float_ltb r (float_of_integer l))
  | JFloat l, JUnsigned r => (float_ltb l (float_of_integer r), float_ltb (float_of_integer r) l)
  | JInteger l, JUnsigned r => (l <? to_signed r, to_signed r <? l)
  | JUnsigned l, JInteger r => (to_signed l <? r, r <? to_signed l)
  | _, _ => (type_ltb lhs rhs, type_ltb rhs lhs)
  end.

(** [operator<] and the operators defined by it. *)
Definition json_ltb (lhs rhs : json) : bool := (json_cmp lhs rhs).1.
Definition json_leb (lhs rhs : json) : bool := negb (json_ltb rhs lhs).
Definition json_gtb (lhs rhs : json) : bool := negb (json_leb lhs rhs).
Definition json_geb (lhs rhs : json) : bool := negb (json_ltb lhs rhs).
End compare.

(** ** Lemmas *)

Section list_lemmas.
Context {A : Type}.

Lemma list_eqb_refl (eqb : A → A → bool) l : Forall (λ x, eqb x x = true) l → list_eqb eqb l l = true.
Proof. induction 1 as [|x l Hx _ IH]; [done|]. cbn. by rewrite Hx. Qed.

Lemma list_eqb_Forall2 (eqb : A → A → bool) l r :
  list_eqb eqb l r = true ↔ Forall2 (λ x y, eqb x y = true) l r.
Proof.
  revert r. induction l as [|x l IH]; intros [|y r]; cbn.
  - split; constructor.
  - split; [done|inversion 1].
  - split; [done|inversion 1].
  - rewrite andb_true_iff, IH. split; [intros [? ?]; by constructor|by inversion 1].
Qed.

Lemma list_cmp_swap (cmp cmp' : A → A → bool * bool) l :
  Forall (λ x, ∀ y, cmp' y x = ((cmp x y).2, (cmp x y).1)) l →
  ∀ r, list_cmp cmp' r l = ((list_cmp cmp l r).2, (list_cmp cmp l r).1).
Proof.
  induction 1 as [|x l Hx _ IH]; intros [|y r]; [done..|]. cbn. rewrite Hx, IH.
  by destruct (cmp x y) as [[|] [|]].
Qed.
End list_lemmas.

Lemma pair_cmp_swap k k' c : pair_cmp k' k (c.2, c.1) = ((pair_cmp k k' c).2, (pair_cmp k k' c).1).
Proof. reflexivity. Qed.

(** The two components are [operator<] in both directions. *)
Lemma json_cmp_swap `{FloatOps} lhs rhs : json_cmp rhs lhs = ((json_cmp lhs rhs).2, (json_cmp lhs rhs).1).
Proof.
  revert rhs. induction lhs as [|ms IH|es IH|s|b|z|z|l|d t|] using json_induction; intros rhs;
    try by destruct rhs.
  - destruct rhs; try done. cbn. apply list_cmp_swap. eapply Forall_impl; [done|].
    intros [k v] Hv [k' v']. cbn in *. by rewrite Hv, pair_cmp_swap.
  - destruct rhs; try done. cbn. by apply list_cmp_swap.
Qed.

(** ** The order *)

(** Values that [operator<] orders: no doubles, no binary data, nothing discarded, and no
    unsigned number above the largest [int64_t]. *)
Fixpoint orderable (j : json) : bool :=
  match j with
  | JObject ms => forallb (λ m, orderable m.2) ms
  | JArray es => forallb orderable es
  | JUnsigned z => (0 <=? z) && (z <? 2 ^ 63)
  | JFloat _ | JBinary _ _ | JDiscarded => false
  | _ => true
  end.

(** Exactly one of less, greater and equal. *)
Definition trichotomous (c : bool * bool) (e : bool) : Prop :=
  c = (true, false) ∧ e = false ∨ c = (false, true) ∧ e = false ∨ c = (false, false) ∧ e = true.

(** [c3] is what follows from [c1] and [c2] when neither is greater. *)
Definition composes (c1 c2 c3 : bool * bool) : Prop :=
  c1.2 = false → c2.2 = false → c3 = (c1.1 || c2.1, false).

Lemma list_trichotomous {A} (P : A → Prop) cmp eqb (l r : list A) :
  Forall (λ x, ∀ y, P y → trichotomous (cmp x y) (eqb x y)) l → Forall P r →
  trichotomous (list_cmp cmp l r) (list_eqb eqb l r).
Proof.
  intros Hl. revert r. induction Hl as [|x l Hx _ IH]; intros [|y r] Hr; unfold trichotomous; auto; inversion Hr; subst.
  cbn. destruct (Hx y) as [[-> ->]|[[-> ->]|[-> ->]]]; cbn; auto.
  destruct (IH r) as [[-> ->]|[[-> ->]|[-> ->]]]; cbn; auto.
Qed.

Lemma list_composes {A} (P : A → Prop) cmp (eqb : A → A → bool) (l m n : list A) :
  Forall (λ x, ∀ y z, P y → P z → trichotomous (cmp x y) (eqb x y) ∧ trichotomous (cmp y z) (eqb y z)
               ∧ composes (cmp x y) (cmp y z) (cmp x z)) l →
  Forall P m → Forall P n → composes (list_cmp cmp l m) (list_cmp cmp m n) (list_cmp cmp l n).
Proof.
  intros Hl. revert m n. induction Hl as [|x l Hx _ IH]; intros [|y m] [|z n] Hm Hn; try done.
  apply Forall_cons in Hm as [Hy Hm], Hn as [Hz Hn]. destruct (Hx y z) as (H1 & H2 & H3); [done..|].
  specialize (IH m n Hm Hn). unfold composes in *. cbn.
  destruct H1 as [[E1 _]|[[E1 _]|[E1 _]]], H2 as [[E2 _]|[[E2 _]|[E2 _]]]; rewrite E1, E2 in *; cbn in *; try done;
    rewrite H3 by done; cbn; intros F1 F2; rewrite ?orb_true_r; try done. by rewrite (IH F1 F2).
Qed.

Lemma bytes_trichotomous s t : trichotomous (bytes_ltb s t, bytes_ltb t s) (bool_decide (s = t)).
Proof.
  unfold trichotomous. destruct (bytes_ltb s t) eqn:E1, (bytes_ltb t s) eqn:E2.
  - pose proof (bytes_ltb_trans _ _ _ E1 E2). by rewrite bytes_ltb_irrefl in *.
  - left. split; [done|]. apply bool_decide_eq_false. intros ->. by rewrite bytes_ltb_irrefl in *.
  - right. left. split; [done|]. apply bool_decide_eq_false. intros ->. by rewrite bytes_ltb_irrefl in *.
  - right. right. split; [done|]. apply bool_decide_eq_true. by apply bytes_ltb_total.
Qed.

Lemma bytes_composes s t u :
  composes (bytes_ltb s t, bytes_ltb t s) (bytes_ltb t u, bytes_ltb u t) (bytes_ltb s u, bytes_ltb u s).
Proof.
  unfold composes. cbn. intros H1 H2.
  destruct (bytes_trichotomous s t) as [[E1 _]|[[E1 _]|[E1 Est]]]; injection E1 as E1 E1'; try congruence;
  destruct (bytes_trichotomous t u) as [[E2 _]|[[E2 _]|[E2 Etu]]]; injection E2 as E2 E2'; try congruence;
  rewrite E1, E2; cbn; try apply bool_decide_eq_true in Est; try apply bool_decide_eq_true in Etu; subst; try congruence.
  pose proof (bytes_ltb_trans _ _ _ E1 E2) as E3. rewrite E3. f_equal.
  destruct (bytes_ltb u s) eqn:E4; [|done]. pose proof (bytes_ltb_trans _ _ _ E3 E4) as E5. by rewrite bytes_ltb_irrefl in E5.
Qed.

Lemma pair_trichotomous k k' c e :
  trichotomous c e → trichotomous (pair_cmp k k' c) (bool_decide (k = k') && e).
Proof.
  intros Hc. unfold pair_cmp. destruct (bytes_trichotomous k k') as [[E ->]|[[E ->]|[E ->]]];
    injection E as -> ->; unfold trichotomous in *; cbn; auto.
  by destruct c.
Qed.

Lemma pair_composes k1 k2 k3 c1 c2 c3 :
  composes c1 c2 c3 → composes (pair_cmp k1 k2 c1) (pair_cmp k2 k3 c2) (pair_cmp k1 k3 c3).
Proof.
  intros Hc. pose proof (bytes_composes k1 k2 k3) as Hk. unfold composes, pair_cmp in *. cbn in *.
  destruct (bytes_trichotomous k1 k2) as [[E1 _]|[[E1 _]|[E1 _]]]; injection E1 as E1 E1'; rewrite E1, E1' in *; cbn in *; try done;
  destruct (bytes_trichotomous k2 k3) as [[E2 _]|[[E2 _]|[E2 _]]]; injection E2 as E2 E2'; rewrite E2, E2' in *; cbn in *; try done;
  specialize (Hk eq_refl eq_refl); injection Hk as -> ->; cbn; intros F1 F2; rewrite ?orb_true_r; try done. by rewrite (Hc F1 F2).
Qed.

Section order.
Context `{FloatOps}.

Lemma to_signed_small z : 0 ≤ z < 2 ^ 63 → to_signed z = z.
Proof. intros Hz. unfold to_signed, wrap. rewrite Z.mod_small by lia. by rewrite (proj2 (Z.ltb_lt _ _)) by lia. Qed.

Lemma Z_trichotomous x y : trichotomous (x <? y, y <? x) (x =? y).
Proof.
  unfold trichotomous. destruct (Z.ltb_spec x y), (Z.ltb_spec y x), (Z.eqb_spec x y); auto; lia.
Qed.

Lemma Z_composes x y z : composes (x <? y, y <? x) (y <? z, z <? y) (x <? z, z <? x).
Proof.
  unfold composes. cbn. destruct (Z.ltb_spec x y), (Z.ltb_spec y x), (Z.ltb_spec y z), (Z.ltb_spec z y),
    (Z.ltb_spec x z), (Z.ltb_spec z x); try done; lia.
Qed.

(** The number of an orderable number. *)
Definition number_of (j : json) : option Z :=
  match j with JInteger z | JUnsigned z => Some z | _ => None end.

Lemma number_cmp a b x y :
  orderable a = true → orderable b = true → number_of a = Some x → number_of b = Some y →
  json_cmp a b = (x <? y, y <? x) ∧ json_eqb a b = (x =? y).
Proof.
  intros Ha Hb Hx Hy. destruct a, b; try done; cbn in *; split_bools; simplify_eq;
    by rewrite ?to_signed_small by lia.
Qed.

Lemma orderable_elements (es : list json) : orderable (JArray es) = true ↔ Forall (λ e, orderable e = true) es.
Proof. cbn. rewrite forallb_forall, Forall_forall. by setoid_rewrite list_elem_of_In. Qed.

Lemma orderable_members ms : orderable (JObject ms) = true ↔ Forall (λ m, orderable m.2 = true) ms.
Proof. cbn. rewrite forallb_forall, Forall_forall. by setoid_rewrite list_elem_of_In. Qed.

Lemma json_trichotomous a b :
  orderable a = true → orderable b = true → trichotomous (json_cmp a b) (json_eqb a b).
Proof.
  revert b. induction a as [|ms IH|es IH|s|x|x|x|l|d t|] using json_induction; intros b Ha Hb; try done.
  - destruct b; try done; unfold trichotomous; cbn; auto.
  - destruct b as [|ns| | | | | | | |]; try done; try (unfold trichotomous; cbn; by auto).
    apply orderable_members in Ha, Hb. cbn. apply (list_trichotomous (λ m, orderable m.2 = true)); [|done].
    rewrite Forall_forall in *. intros m Hm y Hy. apply pair_trichotomous. by apply IH; [|apply Ha|].
  - destruct b as [| |fs| | | | | | |]; try done; try (unfold trichotomous; cbn; by auto).
    apply orderable_elements in Ha, Hb. cbn. apply (list_trichotomous (λ e, orderable e = true)); [|done].
    rewrite Forall_forall in *. intros e He y Hy. by apply IH; [|apply Ha|].
  - destruct b; try done; try (unfold trichotomous; cbn; by auto). apply bytes_trichotomous.
  - destruct b; try done; try (unfold trichotomous; cbn; by auto). unfold trichotomous. destruct x, b; cbn; auto.
  - destruct (number_of b) as [y|] eqn:Ey.
    + destruct (number_cmp (JInteger x) b x y) as [-> ->]; [done..|]. apply Z_trichotomous.
    + destruct b; try done; unfold trichotomous; cbn; auto.
  - destruct (number_of b) as [y|] eqn:Ey.
    + destruct (number_cmp (JUnsigned x) b x y) as [-> ->]; [done..|]. apply Z_trichotomous.
    + destruct b; try done; unfold trichotomous; cbn; auto.
Qed.

(** Values of different types are ordered by their types. *)
Ltac by_type :=
  unfold composes; cbn; intros; rewrite ?orb_true_r; first [done|congruence].

Lemma json_composes a b c :
  orderable a = true → orderable b = true → orderable c = true →
  composes (json_cmp a b) (json_cmp b c) (json_cmp a c).
Proof.
  revert b c. induction a as [|ms IH|es IH|s|x|x|x|l|d t|] using json_induction; intros b c Ha Hb Hc; try done.
  - destruct b, c; try done; by_type.
  - destruct b as [|ns| | | | | | | |], c as [|os| | | | | | | |]; try done; try by_type.
    apply orderable_members in Ha, Hb, Hc. cbn.
    apply (list_composes (λ m, orderable m.2 = true) _ (λ m n, bool_decide (m.1 = n.1) && json_eqb m.2 n.2)); [|done..].
    rewrite Forall_forall in *. intros m Hm y z Hy Hz.
    split; [|split]; [apply pair_trichotomous, json_trichotomous; [by apply Ha|done]|
      by apply pair_trichotomous, json_trichotomous|]. apply pair_composes. by apply IH; [|apply Ha|..].
  - destruct b as [| |fs| | | | | | |], c as [| |gs| | | | | | |]; try done; try by_type.
    apply orderable_elements in Ha, Hb, Hc. cbn. apply (list_composes (λ e, orderable e = true) _ json_eqb); [|done..].
    rewrite Forall_forall in *. intros e He y z Hy Hz.
    split; [|split]; [apply json_trichotomous; [by apply Ha|done]|by apply json_trichotomous|].
    by apply IH; [|apply Ha|..].
  - destruct b, c; try done; try by_type. apply bytes_composes.
  - destruct b as [| | | |b1| | | | |], c as [| | | |c1| | | | |]; try done; try by_type.
    destruct x, b1, c1; by_type.
  - destruct (number_of b) as [y|] eqn:Ey; [|destruct b; try done; destruct c; try done; by_type].
    destruct (number_of c) as [z|] eqn:Ez; [|destruct b; try done; destruct c; try done; by_type].
    destruct (number_cmp (JInteger x) b x y) as [-> _]; [done..|].
    destruct (number_cmp b c y z) as [-> _]; [done..|].
    destruct (number_cmp (JInteger x) c x z) as [-> _]; [done..|]. apply Z_composes.
  - destruct (number_of b) as [y|] eqn:Ey; [|destruct b; try done; destruct c; try done; by_type].
    destruct (number_of c) as [z|] eqn:Ez; [|destruct b; try done; destruct c; try done; by_type].
    destruct (number_cmp (JUnsigned x) b x y) as [-> _]; [done..|].
    destruct (number_cmp b c y z) as [-> _]; [done..|].
    destruct (number_cmp (JUnsigned x) c x z) as [-> _]; [done..|]. apply Z_composes.
Qed.

(** C26 (functional): [operator<] is a strict total order that agrees with [operator==], as
    [std::map] and [std::sort] require, on values without doubles, binary data and unsigned
    numbers above the largest [int64_t]; with those numbers, which are converted to negative ones, it
    is no order: it has a cycle. *)
Theorem json_order :
  (∀ a b, orderable a = true → orderable b = true →
     (json_ltb a b = true ∨ json_ltb b a = true ∨ json_eqb a b = true) ∧
     (json_ltb a b = true → json_ltb b a = false ∧ json_eqb a b = false)) ∧
  (∀ a b c, orderable a = true → orderable b = true → orderable c = true →
     json_ltb a b = true → json_ltb b c = true → json_ltb a c = true) ∧
  (∃ a b c, json_ltb a b = true ∧ json_ltb b c = true ∧ json_ltb c a = true).
Proof.
  split; [|split].
  - intros a b Ha Hb. unfold json_ltb. rewrite (json_cmp_swap a b).
    destruct (json_trichotomous a b Ha Hb) as [[-> ->]|[[-> ->]|[-> ->]]]; cbn; auto.
  - intros a b c Ha Hb Hc. unfold json_ltb. intros H1 H2.
    destruct (json_trichotomous a b Ha Hb) as [[E1 _]|[[E1 _]|[E1 _]]]; rewrite E1 in H1; try done.
    destruct (json_trichotomous b c Hb Hc) as [[E2 _]|[[E2 _]|[E2 _]]]; rewrite E2 in H2; try done.
    pose proof (json_composes a b c Ha Hb Hc) as Hab. rewrite E1, E2 in Hab. by rewrite Hab.
  - exists (JInteger 0), (JUnsigned 1), (JUnsigned (2 ^ 63)). vm_compute. auto.
Qed.
End order.
