(* ===== verification/JsonHash.v ===== *)
(** * JsonHash: the hash of a JSON value ([include/nlohmann/json.hpp], [detail::hash],
      [std::hash<basic_json>])

    [std::size_t] has 64 bits.  The [std::hash] of the basic types is a parameter. *)

From S2P Require Import Prelude CString Prog JsonValue JsonAccess JsonCompare.

(** [std::hash], as values of [std::size_t]; a double is represented by its literal. *)
Class StdHash := {
  hash_string : bytes → Z;
  hash_bool : bool → Z;
  hash_integer : Z → Z;
  hash_unsigned : Z → Z;
  hash_float : bytes → Z;
  hash_uint8 : Z → Z
}.

(** [boost::hash_combine]. *)
Definition combine (seed h : Z) : Z :=
  Z.lxor seed (wrap 64 (h + 2654435769 + wrap 64 (Z.shiftl seed 6) + Z.shiftr seed 2)).

(** [static_cast<std::size_t>(j.type())]. *)
Definition type_index (j : json) : Z :=
  match j with
  | JNull => 0 | JObject _ => 1 | JArray _ => 2 | JString _ => 3 | JBoolean _ => 4
  | JInteger _ => 5 | JUnsigned _ => 6 | JFloat _ => 7 | JBinary _ _ => 8 | JDiscarded => 9
  end.

(** [byte_container_with_subtype::subtype()]. *)
Definition subtype_of (t : option Z) : Z := match t with Some t => t | None => 2 ^ 64 - 1 end.

Section hash.
Context `{StdHash}.

Fixpoint hash (j : json) : Z :=
  let type := type_index j in
  match j with
  | JNull | JDiscarded => combine type 0
  | JObject ms =>
      foldl (λ seed m, combine (combine seed (hash_string m.1)) (hash m.2)) (combine type (size j)) ms
  | JArray es => foldl (λ seed e, combine seed (hash e)) (combine type (size j)) es
  | JString s => combine type (hash_string s)
  | JBoolean b => combine type (hash_bool b)
  | JInteger z => combine type (hash_integer z)
  | JUnsigned z => combine type (hash_unsigned z)
  | JFloat l => combine type (hash_float l)
  | JBinary d t =>
      let seed := combine type (blen d) in
      let seed := combine seed (hash_bool (match t with Some _ => true | None => false end)) in
      let seed := combine seed (subtype_of t) in
      foldl (λ seed c, combine seed (hash_uint8 (byteZ c))) seed d
  end.
End hash.

(** Two values whose numbers are of the same types. *)
Fixpoint same_types (lhs rhs : json) {struct lhs} : bool :=
  match lhs, rhs with
  | JArray l, JArray r => list_eqb same_types l r
  | JObject l, JObject r => list_eqb (λ x y, same_types x.2 y.2) l r
  | _, _ => type_index lhs =? type_index rhs
  end.

(** The requirement of [std::hash] on doubles: equal numbers have equal hashes. *)
Class StdHashLaws `{FloatOps, StdHash} : Prop :=
  hash_float_eq : ∀ l r, float_eqb l r = true → hash_float l = hash_float r.

(** ** Lemmas *)

Lemma foldl_Forall2 {A B : Type} (R : A → A → Prop) (f : B → A → B) l r b :
  Forall2 R l r → (∀ b x y, x ∈ l → R x y → f b x = f b y) → foldl f b l = foldl f b r.
Proof.
  intros Hlr. revert b. induction Hlr as [|x y l r Hxy _ IH]; intros b Hf; [done|]. cbn.
  rewrite (Hf b x y) by (set_solver || done). apply IH. set_solver.
Qed.

Section laws.
Context `{StdHashLaws}.

(** Equal JSON values have equal hashes, as [std::unordered_map] and [std::unordered_set] require of
    [std::hash<json>], provided that their numbers are of the same types throughout. *)
Lemma hash_respects_equality lhs rhs :
  json_eqb lhs rhs = true → same_types lhs rhs = true → hash lhs = hash rhs.
Proof.
  revert rhs. induction lhs as [|ms IH|es IH|s|b|z|z|l|d t|] using json_induction; intros rhs Heq Hty;
    destruct rhs as [|ms'|es'|s'|b'|z'|z'|l'|d' t'|]; try done; cbn [json_eqb same_types type_index] in *; try done.
  - rewrite list_eqb_Forall2 in Heq, Hty. cbn [hash type_index size].
    unfold blen. rewrite (Forall2_length _ _ _ Heq).
    eapply (foldl_Forall2 (λ x y, (bool_decide (x.1 = y.1) && json_eqb x.2 y.2) = true ∧ same_types x.2 y.2 = true)).
    + clear IH. induction Heq; inversion Hty; subst; constructor; auto.
    + intros seed x y Hx [[Hk%bool_decide_eq_true Hv]%andb_true_iff Ht].
      rewrite Hk. f_equal. rewrite Forall_forall in IH. by apply (IH _ Hx).
  - rewrite list_eqb_Forall2 in Heq, Hty. cbn [hash type_index size].
    unfold blen. rewrite (Forall2_length _ _ _ Heq).
    eapply (foldl_Forall2 (λ x y, json_eqb x y = true ∧ same_types x y = true)).
    + clear IH. induction Heq; inversion Hty; subst; constructor; auto.
    + intros seed x y Hx [Hv Ht]. f_equal. rewrite Forall_forall in IH. by apply (IH _ Hx).
  - by apply bool_decide_eq_true in Heq as ->.
  - by apply eqb_prop in Heq as ->.
  - by apply Z.eqb_eq in Heq as ->.
  - by apply Z.eqb_eq in Heq as ->.
  - cbn [hash type_index]. by rewrite (hash_float_eq _ _ Heq).
  - apply andb_true_iff in Heq as [->%bool_decide_eq_true ->%bool_decide_eq_true]. done.
Qed.
End laws.

(** The seeds of two types never meet. *)
Lemma combine_numbers h : combine 5 h ≠ combine 6 h.
Proof.
  unfold combine. change (wrap 64 (Z.shiftl 5 6)) with 320. change (wrap 64 (Z.shiftl 6 6)) with 384.
  change (Z.shiftr 5 2) with 1. change (Z.shiftr 6 2) with 1. intros E.
  set (a := wrap 64 (h + 2654435769 + 320 + 1)) in *. set (b := wrap 64 (h + 2654435769 + 384 + 1)) in *.
  assert (a mod 2 ^ 6 = b mod 2 ^ 6) as Hab.
  { unfold a, b, wrap. replace (2 ^ 64) with (2 ^ 6 * 2 ^ 58) by done. rewrite !Z.rem_mul_r by lia.
    rewrite !(Z.mul_comm (2 ^ 6)), !Z.mod_add, !Z.mod_mod by lia.
    replace (h + 2654435769 + 384 + 1) with (h + 2654435769 + 320 + 1 + 1 * 2 ^ 6) by lia. by rewrite Z.mod_add by lia. }
  assert (∀ x, Z.testbit x 0 = Z.testbit (x mod 2 ^ 6) 0) as Hbit by (intros; by rewrite Z.mod_pow2_bits_low by lia).
  assert (Z.testbit (Z.lxor 5 a) 0 = Z.testbit (Z.lxor 6 b) 0) as E0 by by rewrite E.
  rewrite !Z.lxor_spec, (Hbit a), (Hbit b), Hab in E0. cbn [Z.testbit Z.odd] in E0.
  by destruct (Z.odd (b mod 2 ^ 6)).
Qed.

(** A signed and an unsigned number of the same value compare equal, but their hashes differ, whenever
    [std::hash] gives both the same value (as that of libstdc++ does): a container that looks for one by its hash
    does not find the other. *)
Lemma hash_mixed_numbers `{FloatOps, StdHash} z :
  0 ≤ z < 2 ^ 63 → hash_integer z = hash_unsigned z →
  json_eqb (JInteger z) (JUnsigned z) = true ∧ hash (JInteger z) ≠ hash (JUnsigned z).
Proof.
  intros Hz Hh. split.
  - cbn. unfold to_signed, wrap. rewrite Z.mod_small by lia.
    destruct (Z.ltb_spec z (2 ^ 63)); [|lia]. apply Z.eqb_refl.
  - cbn. rewrite Hh. apply combine_numbers.
Qed.

(** ** Examples *)

#[local] Instance example_floats : FloatOps :=
  {| float_eqb := λ l m, bool_decide (l = m); float_ltb := bytes_ltb; float_of_integer := dec |}.
#[local] Instance example_hash : StdHash :=
  {| hash_string := λ s, foldl (λ h c, wrap 64 (31 * h + byteZ c)) 0 s; hash_bool := Z.b2z; hash_integer := wrap 64;
     hash_unsigned := id; hash_float := blen; hash_uint8 := id |}.
#[local] Instance example_laws : StdHashLaws.
Proof. intros l r H. apply bool_decide_eq_true in H. by subst. Qed.

Lemma hash_respects_equality_witness :
  let j := JObject [(b#"a", JArray [JInteger (-1); JFloat b#"0.5"])] in
  json_eqb j j = true ∧ same_types j j = true ∧ hash j = hash j.
Proof.
  cbv zeta. split; [reflexivity|]. split; [reflexivity|].
  apply (hash_respects_equality (JObject [(b#"a", JArray [JInteger (-1); JFloat b#"0.5"])])
    (JObject [(b#"a", JArray [JInteger (-1); JFloat b#"0.5"])])); reflexivity.
Defined.

Lemma hash_mixed_numbers_witness :
  json_eqb (JInteger 1) (JUnsigned 1) = true ∧ hash (JInteger 1) ≠ hash (JUnsigned 1).
Proof. apply (hash_mixed_numbers 1); [lia|reflexivity]. Defined.
