(* ===== verification/JsonMemory.v ===== *)
(** * JsonMemory: how a JSON value releases its memory
      ([include/nlohmann/json.hpp], [~basic_json], [json_value::destroy])

    A value with the addresses of the blocks that [json_value::create] allocated for its
    objects, arrays, strings and binary arrays.  The destructor of a value runs the
    destructors of values inside it; [depth] is how deep these calls may nest before the
    call stack overflows ([None]).  The result is what it asks of the memory, in order: the
    blocks it deallocates, and the buffers that its [std::vector] of values allocates, which it
    frees itself.  An allocation may fail; what happens then is in [JsonOwnership]. *)

From S2P Require Import Prelude.

Definition addr := positive.

#[warnings="-register-all"]
Inductive hjson :=
| HPlain                                        (** [null], booleans, numbers, discarded *)
| HString (p : addr)
| HBinary (p : addr)
| HArray (p : addr) (elements : list hjson)
| HObject (p : addr) (members : list (bytes * hjson)).

(** The elements or the mapped values. *)
Definition children (v : hjson) : list hjson :=
  match v with HArray _ es => es | HObject _ ms => ms.*2 | _ => [] end.

(** After its elements have been moved from: they are [null]. *)
Definition moved_out (v : hjson) : hjson :=
  match v with
  | HArray p es => HArray p (map (λ _, HPlain) es)
  | HObject p ms => HObject p (map (λ m, (m.1, HPlain)) ms)
  | _ => v
  end.

(** [array->clear()] and [object->clear()]. *)
Definition cleared (v : hjson) : hjson :=
  match v with HArray p _ => HArray p [] | HObject p _ => HObject p [] | _ => v end.

(** Number of values in a value: what the loop of [destroy] is run for. *)
Fixpoint nodes (v : hjson) : nat :=
  match v with
  | HArray _ es => S (sum_list_with nodes es)
  | HObject _ ms => S (sum_list_with (λ m, nodes m.2) ms)
  | _ => 1
  end.

(** The blocks of a value. *)
Fixpoint blocks (v : hjson) : list addr :=
  match v with
  | HPlain => []
  | HString p | HBinary p => [p]
  | HArray p es => p :: flat_map blocks es
  | HObject p ms => p :: flat_map (λ m, blocks m.2) ms
  end.

(** What is asked of the memory: a buffer for [n] values, or the end of a block. *)
Inductive event := EBuffer (n : nat) | EFree (p : addr).

(** ** The vector [stack]

    Its capacity, and the buffers it allocates; it doubles when it is full. *)

Definition reserve (n : nat) : list event * nat := (match n with O => [] | _ => [EBuffer n] end, n).

(** [n] times [push_back] on a vector of [size] values. *)
Fixpoint pushes (n size capacity : nat) : list event * nat :=
  match n with
  | O => ([], capacity)
  | S n =>
      let '(e, capacity) :=
        if (size =? capacity)%nat then ([EBuffer (size + Nat.max size 1)], (size + Nat.max size 1)%nat) else ([], capacity) in
      let '(es, capacity) := pushes n (S size) capacity in
      (e ++ es, capacity)
  end.

Section destroy.
(** The destructor of a value inside the one that is destroyed. *)
Variable dtor : hjson → option (list event).

Definition dtor_all (vs : list hjson) : option (list event) := ls ← mapM dtor vs; Some (concat ls).

(** [while (!stack.empty())]: the last item is moved to [current_item], its children to
    the stack; the elements that are left, all [null], are destroyed by [clear], and
    the item at the end of the block.  The top of the stack is the head of the list. *)
Fixpoint destroy_loop (fuel capacity : nat) (stack : list hjson) : option (list event) :=
  match stack, fuel with
  | [], _ => Some []
  | _, O => None
  | current_item :: stack, S fuel =>
      let '(g, capacity) := pushes (length (children current_item)) (length stack) capacity in
      let stack := rev (children current_item) ++ stack in
      c ← dtor_all (children (moved_out current_item));
      f ← dtor (cleared current_item);
      r ← destroy_loop fuel capacity stack;
      Some (g ++ c ++ f ++ r)
  end.

(** Destruction and deallocation of the block of the value itself. *)
Definition release (v : hjson) : option (list event) :=
  match v with
  | HPlain => Some []
  | HString p | HBinary p => Some [EFree p]
  | HArray p _ | HObject p _ => c ← dtor_all (children v); Some (c ++ [EFree p])
  end.

(** [json_value::destroy(t)]. *)
Definition destroy (v : hjson) : option (list event) :=
  let n := length (children v) in
  let '(g, capacity) := reserve n in
  let '(g', capacity) := pushes n 0 capacity in
  l ← destroy_loop (sum_list_with nodes (children v)) capacity (rev (children v));
  r ← release (moved_out v);
  Some (g ++ g' ++ l ++ r).
End destroy.

(** The blocks that are deallocated, and the values the buffers are for. *)
Definition freed (l : list event) : list addr := omap (λ e, match e with EFree p => Some p | EBuffer _ => None end) l.
Definition buffers (l : list event) : list nat := omap (λ e, match e with EBuffer n => Some n | EFree _ => None end) l.

(** [~basic_json()], with calls nested up to [depth]. *)
Fixpoint dtor (depth : nat) (v : hjson) : option (list event) :=
  match depth with
  | O => None
  | S depth => destroy (dtor depth) v
  end.

(** ** Lemmas *)

Section hjson_rect.
Context (P : hjson → Prop) (HP : P HPlain) (HS : ∀ p, P (HString p)) (HB : ∀ p, P (HBinary p))
  (HA : ∀ p es, Forall P es → P (HArray p es)) (HO : ∀ p ms, Forall (λ m, P m.2) ms → P (HObject p ms)).

Fixpoint hjson_induction (v : hjson) : P v :=
  match v with
  | HPlain => HP
  | HString p => HS p
  | HBinary p => HB p
  | HArray p es =>
      HA p es ((fix go (es : list hjson) : Forall P es :=
        match es with [] => Forall_nil_2 _ | e :: es => Forall_cons_2 P e es (hjson_induction e) (go es) end) es)
  | HObject p ms =>
      HO p ms ((fix go (ms : list (bytes * hjson)) : Forall (λ m, P m.2) ms :=
        match ms with
        | [] => Forall_nil_2 _
        | (k, v) :: ms => Forall_cons_2 (λ m, P m.2) (k, v) ms (hjson_induction v) (go ms)
        end) ms)
  end.
End hjson_rect.

(** The block of a value, and those of its children. *)
Definition own_block (v : hjson) : list addr :=
  match v with HPlain => [] | HString p | HBinary p | HArray p _ | HObject p _ => [p] end.

Lemma blocks_children v : blocks v = own_block v ++ flat_map blocks (children v).
Proof.
  destruct v as [| | |p es|p ms]; [done..|]. cbn. f_equal. induction ms as [|[k v] ms IH]; [done|]. cbn. by rewrite IH.
Qed.

Lemma nodes_children v : nodes v = S (sum_list_with nodes (children v)).
Proof. destruct v as [| | |p es|p ms]; [done..|]. cbn. f_equal. induction ms as [|[k v] ms IH]; [done|]. cbn. by rewrite IH. Qed.

Lemma own_block_cleared v : own_block (cleared v) = own_block v.
Proof. by destruct v. Qed.

(** A [null] has nothing to release; neither have any number of them. *)
Definition nothing (f : hjson → option (list event)) : Prop := f HPlain = Some [].

Lemma moved_out_children v : children (moved_out v) = replicate (length (children v)) HPlain.
Proof.
  destruct v as [| | |p es|p ms]; [done..| |]; cbn.
  - induction es as [|e es IH]; [done|]. cbn. by f_equal.
  - induction ms as [|m ms IH]; [done|]. cbn. by f_equal.
Qed.

Lemma dtor_all_moved_out f v : nothing f → dtor_all f (children (moved_out v)) = Some [].
Proof.
  intros Hf. rewrite moved_out_children. unfold dtor_all. induction (length (children v)) as [|n IH]; [done|].
  cbn [replicate mapM]. rewrite Hf. cbn. unfold dtor_all in IH. by destruct (mapM f (replicate n HPlain)).
Qed.

(** A value without children releases its own block. *)
Definition releases_leaves (f : hjson → option (list event)) : Prop :=
  nothing f ∧ ∀ v, f (cleared v) = Some (EFree <$> own_block v).

Lemma sum_list_with_rev {A} (f : A → nat) l : sum_list_with f (rev l) = sum_list_with f l.
Proof. induction l as [|x l IH]; [done|]. cbn. rewrite sum_list_with_app, IH. cbn. lia. Qed.

Lemma flat_map_rev {A B} (f : A → list B) l : flat_map f (rev l) ≡ₚ flat_map f l.
Proof. induction l as [|x l IH]; [done|]. cbn. rewrite flat_map_app, IH. cbn. rewrite app_nil_r. apply Permutation_app_comm. Qed.

Lemma freed_app l l' : freed (l ++ l') = freed l ++ freed l'.
Proof. apply omap_app. Qed.
Lemma freed_blocks ps : freed (EFree <$> ps) = ps.
Proof. induction ps as [|p ps IH]; [done|]. unfold freed in *. cbn. by f_equal. Qed.
Lemma buffers_app l l' : buffers (l ++ l') = buffers l ++ buffers l'.
Proof. apply omap_app. Qed.
Lemma buffers_blocks ps : buffers (EFree <$> ps) = [].
Proof. by induction ps. Qed.

(** The vector frees no block, and has no more than twice the room it needs. *)
Definition within (limit : nat) (l : list event) : Prop := Forall (λ n, n ≤ limit)%nat (buffers l).

Lemma within_app limit l l' : within limit l → within limit l' → within limit (l ++ l').
Proof. unfold within. rewrite buffers_app. intros. by apply Forall_app. Qed.

Lemma pushes_spec limit n size capacity :
  (2 * (size + n) ≤ limit)%nat → freed (pushes n size capacity).1 = [] ∧ within limit (pushes n size capacity).1.
Proof.
  revert size capacity. induction n as [|n IH]; intros size capacity Hl; [by split; [|constructor]|]. cbn [pushes].
  destruct (size =? capacity)%nat.
  - specialize (IH (S size) (size + Nat.max size 1)%nat). destruct (pushes n _ _) as [es c]. cbn [fst] in *.
    destruct IH as [Hf Hw]; [lia|]. split; [exact Hf|]. constructor; [lia|exact Hw].
  - specialize (IH (S size) capacity). destruct (pushes n _ _) as [es c]. cbn [fst] in *. apply IH. lia.
Qed.

Lemma sum_nodes_length vs : (length vs ≤ sum_list_with nodes vs)%nat.
Proof. induction vs as [|v vs IH]; cbn; [lia|]. rewrite nodes_children. lia. Qed.

Lemma destroy_loop_releases f fuel capacity stack limit :
  releases_leaves f → (sum_list_with nodes stack ≤ fuel)%nat → (2 * sum_list_with nodes stack ≤ limit)%nat →
  ∃ l, destroy_loop f fuel capacity stack = Some l ∧ freed l ≡ₚ flat_map blocks stack ∧ within limit l.
Proof.
  intros [Hn Hf]. revert capacity stack. induction fuel as [|fuel IH]; intros capacity [|v stack] Hs Hl;
    try (by exists []; split; [|split; [|constructor]]).
  - cbn in Hs. rewrite nodes_children in Hs. lia.
  - cbn [destroy_loop]. cbn in Hs, Hl. rewrite nodes_children in Hs, Hl.
    pose proof (sum_nodes_length (children v)). pose proof (sum_nodes_length stack).
    destruct (pushes_spec limit (length (children v)) (length stack) capacity) as [Hg Hw]; [lia|].
    destruct (pushes _ _ capacity) as [g capacity']. cbn [fst] in *. rewrite dtor_all_moved_out, Hf by done.
    destruct (IH capacity' (rev (children v) ++ stack)) as (l & E & Hp & Hwl); [rewrite sum_list_with_app, sum_list_with_rev; lia..|].
    cbn. rewrite E. cbn. eexists. split; [done|]. split.
    + rewrite !freed_app, Hg, freed_blocks, Hp, flat_map_app, flat_map_rev, (blocks_children v). cbn. rewrite ?app_assoc. done.
    + repeat apply within_app; try done. unfold within. by rewrite buffers_blocks.
Qed.

Lemma destroy_releases_all f v :
  releases_leaves f → ∃ l, destroy f v = Some l ∧ freed l ≡ₚ blocks v ∧ within (2 * nodes v) l.
Proof.
  intros Hf. unfold destroy, reserve. pose proof (sum_nodes_length (children v)) as Hc. pose proof (nodes_children v) as Hv.
  destruct (pushes_spec (2 * nodes v) (length (children v)) 0 (length (children v))) as [Hg Hw]; [lia|].
  destruct (pushes _ 0 _) as [g capacity]. cbn [fst] in *.
  destruct (destroy_loop_releases f (sum_list_with nodes (children v)) capacity (rev (children v)) (2 * nodes v)) as (l & Hl & Hp & Hwl);
    [done|rewrite sum_list_with_rev; lia..|]. rewrite Hl. cbn.
  assert (release f (moved_out v) = Some (EFree <$> own_block v)) as Hr.
  { pose proof (dtor_all_moved_out f v (proj1 Hf)) as Hd. destruct v; try done; cbn in *; by rewrite Hd. }
  rewrite Hr. cbn. eexists. split; [done|]. split.
  - rewrite !freed_app, Hg, freed_blocks, Hp, flat_map_rev, blocks_children.
    destruct (length (children v)); cbn; apply Permutation_app_comm.
  - apply within_app; [destruct (length (children v)) eqn:E; constructor; [lia|constructor]|].
    repeat apply within_app; try done. unfold within. by rewrite buffers_blocks.
Qed.

(** With one call, a value that has no children is destroyed. *)
Lemma dtor_leaf : releases_leaves (dtor 1).
Proof. split; [done|]. by intros [| | | |]. Qed.

Lemma dtor_releases d v : ∃ l, dtor (S (S d)) v = Some l ∧ freed l ≡ₚ blocks v ∧ within (2 * nodes v) l.
Proof.
  assert (∀ d, releases_leaves (dtor (S d))) as H; [|apply (destroy_releases_all (dtor (S d))), H].
  clear. intros d. induction d as [|d IH]; [apply dtor_leaf|]. split.
  - cbn [dtor]. unfold nothing, destroy. cbn. by destruct d.
  - intros v. destruct v; by destruct d.
Qed.

(** C20 (termination): the destructor of a JSON value ends, for values nested to any depth, with its own calls nested
    no more than two deep, so that it cannot overflow the call stack; it deallocates every block
    of the value, and each exactly once.  The buffers of the vector it uses, if their allocation succeeds, are for no
    more than twice as many values as there are in the value. *)
Theorem destroy_deep depth v :
  (2 ≤ depth)%nat → ∃ l, dtor depth v = Some l ∧ freed l ≡ₚ blocks v ∧ Forall (λ n, n ≤ 2 * nodes v)%nat (buffers l).
Proof. destruct depth as [|[|d]]; [lia..|]. intros _. apply dtor_releases. Qed.

(** ** Examples *)

Definition nested : nat → hjson := fix go n := match n with O => HPlain | S n => HArray (Pos.of_nat (S n)) [go n; HString (Pos.of_nat (100 + n))] end.

Lemma destroy_deep_witness :
  (2 ≤ 2)%nat ∧ ∃ l, dtor 2 (nested 5) = Some l ∧ freed l ≡ₚ blocks (nested 5) ∧ Forall (λ n, n ≤ 2 * nodes (nested 5))%nat (buffers l).
Proof. split; [lia|]. apply (destroy_deep 2 (nested 5)). lia. Defined.

Example destroy_order :
  dtor 2 (HArray 1 [HString 2; HObject 3 [(b#"k", HArray 4 [HBinary 5]); (b#"l", HPlain); (b#"m", HPlain)]])%positive =
  Some [EBuffer 2; EBuffer 4; EFree 3; EFree 4; EFree 5; EFree 2; EFree 1]%positive.
Proof. vm_compute. reflexivity. Qed.
