(* ===== verification/JsonOwnership.v ===== *)
(** * JsonOwnership: who owns the memory of JSON values
      ([include/nlohmann/json.hpp], [basic_json::create], the constructors of [json_value]
      and [basic_json], [operator=], [push_back])

    The blocks that [create] allocates, over a memory where any allocation may fail: each construction,
    copy, move and assignment of values in variables of a program, the clean-up after
    [std::bad_alloc] included.  The buffers of strings and vectors and the nodes of maps, which
    the containers of the standard library free themselves, are not among the blocks, but their allocation may
    fail as well, wherever a container may need one.  The destructor is that of [JsonMemory]; it is [noexcept], and when
    a buffer of its vector cannot be allocated the program is terminated.  Of the values without a block, programs make
    only [null]. *)

From S2P Require Import Prelude JsonMemory.

(** ** Memory *)

(** The next address, the blocks that are allocated, and which of the next allocations fail (true); the
    others succeed. *)
Record memory := Memory { next : positive; live : list addr; failing : list bool }.

(** [MTerminate] is [std::terminate]; [MUndef] is a block that is deallocated and not allocated, a failed
    assertion, or the use of a variable that does not exist. *)
Inductive mres (A : Type) := MOk (a : A) (m : memory) | MBadAlloc (m : memory) | MTerminate | MUndef.
Arguments MOk {A}. Arguments MBadAlloc {A}. Arguments MTerminate {A}. Arguments MUndef {A}.

Definition mact (A : Type) : Type := memory → mres A.
#[export] Instance mact_ret : MRet mact := λ A a m, MOk a m.
#[export] Instance mact_bind : MBind mact :=
  λ A B f x m, match x m with MOk a m => f a m | MBadAlloc m => MBadAlloc m | MTerminate => MTerminate | MUndef => MUndef end.
Definition undef {A} : mact A := λ m, MUndef.

(** [h] runs when [x] throws, and the exception goes on. *)
Definition cleanup {A} (x : mact A) (h : mact unit) : mact A := λ m,
  match x m with
  | MBadAlloc m => match h m with MOk _ m => MBadAlloc m | MBadAlloc m => MBadAlloc m | MTerminate => MTerminate | MUndef => MUndef end
  | r => r
  end.

(** [x] in a function that is [noexcept]. *)
Definition noexcept {A} (x : mact A) : mact A := λ m, match x m with MBadAlloc _ => MTerminate | r => r end.

(** [allocator.allocate(1)]. *)
Definition allocate : mact addr := λ m,
  match failing m with
  | true :: o => MBadAlloc (Memory (next m) (live m) o)
  | o => MOk (next m) (Memory (Pos.succ (next m)) (next m :: live m) (tail o))
  end.

(** A container of the standard library allocates what it needs, or nothing. *)
Definition buffer : mact unit := λ m,
  match failing m with
  | true :: o => MBadAlloc (Memory (next m) (live m) o)
  | o => MOk tt (Memory (next m) (live m) (tail o))
  end.

Fixpoint remove_one (p : addr) (l : list addr) : option (list addr) :=
  match l with
  | [] => None
  | q :: l => if bool_decide (q = p) then Some l else cons q <$> remove_one p l
  end.

Definition deallocate (p : addr) : mact unit := λ m,
  match remove_one p (live m) with Some l => MOk tt (Memory (next m) l (failing m)) | None => MUndef end.

(** What the destructor asks of the memory. *)
Fixpoint perform_events (l : list event) : mact unit :=
  match l with
  | [] => mret tt
  | EBuffer _ :: l => noexcept buffer;; perform_events l
  | EFree p :: l => deallocate p;; perform_events l
  end.

(** [~basic_json()]. *)
Definition destroy_value (v : hjson) : mact unit :=
  match dtor 2 v with Some l => perform_events l | None => undef end.
Fixpoint destroy_values (vs : list hjson) : mact unit :=
  match vs with [] => mret tt | v :: vs => destroy_value v;; destroy_values vs end.

(** [create<T>(args...)]: the block is released when the constructor of [T] throws. *)
Definition create {A} (construct : mact A) : mact (addr * A) :=
  p ← allocate; a ← cleanup construct (deallocate p); mret (p, a).

(** ** Values *)

(** [basic_json(value_t)]: whether the type keeps its value in a block. *)
Inductive block_type := BNone | BString | BBinary | BArray | BObject.
Definition make (t : block_type) : mact hjson :=
  match t with
  | BNone => mret HPlain
  | BString => '(p, _) ← create (mret tt); mret (HString p)
  | BBinary => '(p, _) ← create (mret tt); mret (HBinary p)
  | BArray => '(p, es) ← create (mret []); mret (HArray p es)
  | BObject => '(p, ms) ← create (mret []); mret (HObject p ms)
  end.

(** The elements of a container are constructed one after the other, in [reserved] room;
    those that were are destroyed when one throws. *)
Section list.
Context {A B : Type} (f : A → mact B) (destroy : B → mact unit).
Fixpoint copy_list (l : list A) : mact (list B) :=
  match l with
  | [] => mret []
  | a :: l => b ← f a; bs ← cleanup (copy_list l) (destroy b); mret (b :: bs)
  end.
End list.

Definition destroy_member (m : bytes * hjson) : mact unit := destroy_value m.2.

(** [basic_json(const basic_json&)]: a vector has one buffer; a map has a node for each member, and its key may need a
    buffer as well. *)
Fixpoint copy (v : hjson) : mact hjson :=
  match v with
  | HPlain => mret HPlain
  | HString _ => '(p, _) ← create buffer; mret (HString p)
  | HBinary _ => '(p, _) ← create buffer; mret (HBinary p)
  | HArray _ es => '(p, es) ← create (buffer;; copy_list copy destroy_value es); mret (HArray p es)
  | HObject _ ms =>
      '(p, ms) ← create (copy_list (λ m, let '(k, v) := m in buffer;; buffer;; v ← copy v; mret (k, v)) destroy_member ms);
      mret (HObject p ms)
  end.

(** [basic_json(cnt, val)]. *)
Definition make_copies (cnt : nat) (v : hjson) : mact hjson :=
  '(p, es) ← create (buffer;; copy_list copy destroy_value (replicate cnt v)); mret (HArray p es).

(** ** Programs *)

(** The variables of a program.  [None] is a value whose type is array and whose pointer is null. *)
Abbreviation variables := (list (option hjson)).

Inductive op :=
| ONew (t : block_type)        (** [json x(t);] *)
| OFill (cnt i : nat)          (** [json x(cnt, i);] *)
| OCopy (i : nat)              (** [json x(i);] *)
| OMove (i : nat)              (** [json x(std::move(i));] *)
| OAssign (i j : nat)          (** [i = j;] *)
| OMoveAssign (i j : nat)      (** [i = std::move(j);] *)
| OPushBack (i j : nat)        (** [i.push_back(j);] *)
| OPop.                        (** the end of the last variable's block *)

(** A variable that is used: its value, or undefined behaviour. *)
Definition read (i : nat) (vs : variables) : mact hjson :=
  match vs !! i with Some (Some v) => mret v | _ => undef end.

(** [operator=(basic_json other)] with [other] at hand: the values are swapped, and [other]
    is destroyed at the end. *)
Definition assign (i : nat) (other : hjson) (vs : variables) : mact variables :=
  v ← read i vs; destroy_value v;; mret (<[i := Some other]> vs).

(** A step leaves the variables and the memory, after an exception too, or ends the
    program. *)
Inductive step_result := Ran (vs : variables) (m : memory) | Terminated | Undefined.

(** [new x; vs.push(x)]: on an exception the variable does not exist. *)
Definition push_variable (x : mact hjson) (vs : variables) (m : memory) : step_result :=
  match x m with
  | MOk v m => Ran (vs ++ [Some v]) m
  | MBadAlloc m => Ran vs m
  | MTerminate => Terminated
  | MUndef => Undefined
  end.

(** The variables after a part that does not change them when it throws. *)
Definition update_variables (x : mact variables) (vs : variables) (m : memory) : step_result :=
  match x m with
  | MOk vs m => Ran vs m
  | MBadAlloc m => Ran vs m
  | MTerminate => Terminated
  | MUndef => Undefined
  end.

(** [m_value.array->push_back(val)]; [type_error.308] on other types. *)
Definition push_element (i j : nat) (vs : variables) (m : memory) : step_result :=
  match vs !! i with
  | Some (Some (HArray p es)) =>
      update_variables (v ← read j vs; buffer;; v ← copy v; mret (<[i := Some (HArray p (es ++ [v]))]> vs)) vs m
  | Some (Some _) => Ran vs m
  | _ => Undefined
  end.

(** [push_back]: the type of a null value is changed before the array is allocated. *)
Definition push_back (i j : nat) (vs : variables) (m : memory) : step_result :=
  match vs !! i with
  | Some (Some HPlain) =>
      match make BArray m with
      | MOk v m => push_element i j (<[i := Some v]> vs) m
      | MBadAlloc m => Ran (<[i := None]> vs) m
      | MTerminate => Terminated
      | MUndef => Undefined
      end
  | _ => push_element i j vs m
  end.

(** The variables an operation names; where one of them does not exist, because an exception
    left the construction of it, the operation is not reached. *)
Definition uses (o : op) : list nat :=
  match o with
  | ONew _ | OPop => []
  | OFill _ i | OCopy i | OMove i => [i]
  | OAssign i j | OMoveAssign i j | OPushBack i j => [i; j]
  end.

Definition perform (o : op) (vs : variables) (m : memory) : step_result :=
  match o with
  | ONew t => push_variable (make t) vs m
  | OFill cnt i => push_variable (v ← read i vs; make_copies cnt v) vs m
  | OCopy i => push_variable (v ← read i vs; copy v) vs m
  | OMove i => update_variables (v ← read i vs; mret (<[i := Some HPlain]> vs ++ [Some v])) vs m
  | OAssign i j => update_variables (v ← read j vs; v ← copy v; assign i v vs) vs m
  | OMoveAssign i j => update_variables (v ← read j vs; assign i v (<[j := Some HPlain]> vs)) vs m
  | OPushBack i j => push_back i j vs m
  | OPop =>
      match vs with
      | [] => Ran vs m
      | _ => update_variables (v ← read (length vs - 1) vs; destroy_value v;; mret (take (length vs - 1) vs)) vs m
      end
  end.

Definition step (o : op) (vs : variables) (m : memory) : step_result :=
  if forallb (λ i, i <? length vs)%nat (uses o) then perform o vs m else Ran vs m.

Fixpoint run (os : list op) (vs : variables) (m : memory) : step_result :=
  match os with
  | [] => Ran vs m
  | o :: os => match step o vs m with Ran vs m => run os vs m | r => r end
  end.

(** ** Ownership *)

Definition well (m : memory) : Prop := NoDup (live m) ∧ Forall (λ p, (p < next m)%positive) (live m).

(** No allocation fails. *)
Definition plenty (m : memory) : Prop := Forall (λ b, b = false) (failing m).

(** [x] takes the blocks [P], gives a value with the blocks [Q] and the property [φ], or throws with the
    blocks [E]; the other blocks stay as they are.  It throws or terminates the program only when an allocation fails. *)
Definition triple {A} (P : list addr) (x : mact A) (Q : A → list addr) (E : list addr) (φ : A → Prop) : Prop :=
  ∀ m F, well m → live m ≡ₚ P ++ F →
    match x m with
    | MOk a m' => well m' ∧ live m' ≡ₚ Q a ++ F ∧ φ a ∧ (plenty m → plenty m')
    | MBadAlloc m' => well m' ∧ live m' ≡ₚ E ++ F ∧ ¬ plenty m
    | MTerminate => ¬ plenty m
    | MUndef => False
    end.

Lemma triple_ret {A} (a : A) Q (φ : A → Prop) E : φ a → triple (Q a) (mret a) Q E φ.
Proof. by intros Ha m F Hm HF. Qed.

Lemma triple_bind {A B} P (x : mact A) Q E φ (f : A → mact B) R ψ :
  triple P x Q E φ → (∀ a, φ a → triple (Q a) (f a) R E ψ) → triple P (x ≫= f) R E ψ.
Proof.
  intros Hx Hf m F Hm HF. specialize (Hx m F Hm HF). unfold mbind, mact_bind.
  destruct (x m) as [a m1|m1| |]; [|done..]. destruct Hx as (Hm1 & HF1 & Ha & Hb). specialize (Hf a Ha m1 F Hm1 HF1).
  destruct (f a m1) as [b m2|m2| |]; intuition.
Qed.

Lemma triple_frame {A} R P (x : mact A) Q E φ : triple P x Q E φ → triple (P ++ R) x (λ a, Q a ++ R) (E ++ R) φ.
Proof.
  intros Hx m F Hm HF. specialize (Hx m (R ++ F) Hm). rewrite app_assoc in Hx. specialize (Hx HF).
  destruct (x m) as [a m'|m'| |]; by rewrite <- ?app_assoc.
Qed.

Lemma triple_weaken {A} P P' (x : mact A) Q Q' E E' (φ φ' : A → Prop) :
  triple P x Q E φ → P' ≡ₚ P → (∀ a, φ a → Q a ≡ₚ Q' a ∧ φ' a) → E ≡ₚ E' → triple P' x Q' E' φ'.
Proof.
  intros Hx HP HQ HE m F Hm HF. specialize (Hx m F Hm). rewrite HP in HF. specialize (Hx HF).
  destruct (x m) as [a m'|m'| |]; [|by rewrite <- HE|done..].
  destruct Hx as (? & HQa & Ha & ?). destruct (HQ a Ha) as [Hp ?]. by rewrite <- Hp.
Qed.

Lemma triple_cleanup {A} P (x : mact A) Q E E' h φ :
  triple P x Q E φ → triple E h (λ _, E') E' (λ _, True) → triple P (cleanup x h) Q E' φ.
Proof.
  intros Hx Hh m F Hm HF. specialize (Hx m F Hm HF). unfold cleanup. destruct (x m) as [a m1|m1| |]; [done| |done..].
  destruct Hx as (Hm1 & HF1 & Hb). specialize (Hh m1 F Hm1 HF1). destruct (h m1); [..|done]; by destruct_and?.
Qed.

Lemma allocate_spec : triple [] allocate (λ p, [p]) [] (λ _, True).
Proof.
  intros m F [Hnd Hlt] HF. unfold allocate.
  assert (∀ o, well (Memory (Pos.succ (next m)) (next m :: live m) o)) as Hw.
  { intros o. split; cbn; [constructor; [|done]; intros Hin; rewrite Forall_forall in Hlt; specialize (Hlt _ Hin); lia|].
    constructor; [lia|]. eapply Forall_impl; [done|]. cbn. lia. }
  unfold plenty. destruct (failing m) as [|[] o] eqn:Eb.
  - split; [apply Hw|]. split; [cbn; by rewrite HF|]. split; [done|]. intros _. constructor.
  - split; [by split|]. split; [done|]. by inversion 1.
  - split; [apply Hw|]. split; [cbn; by rewrite HF|]. split; [done|]. by inversion 1.
Qed.

Lemma buffer_spec : triple [] buffer (λ _, []) [] (λ _, True).
Proof.
  intros m F Hm HF. unfold buffer, plenty. destruct (failing m) as [|[] o] eqn:Eb.
  - split; [done|]. split; [done|]. split; [done|]. intros _. constructor.
  - split; [done|]. split; [done|]. by inversion 1.
  - split; [done|]. split; [done|]. split; [done|]. by inversion 1.
Qed.

(** Behind a buffer nothing is different. *)
Lemma buffer_then {B} P (f : unit → mact B) Q E ψ : triple P (f tt) Q E ψ → E ≡ₚ P → triple P (buffer ≫= f) Q E ψ.
Proof.
  intros Hf HE. eapply triple_bind; [|intros [] _; exact Hf].
  eapply triple_weaken; [exact (triple_frame P [] _ _ _ _ buffer_spec)|done|done|by symmetry].
Qed.

Lemma remove_one_spec p l F : l ≡ₚ p :: F → ∃ l', remove_one p l = Some l' ∧ l' ≡ₚ F ∧ ∀ q, q ∈ l' → q ∈ l.
Proof.
  revert F. induction l as [|q l IH]; intros F HF; [by apply Permutation_nil_cons in HF|]. cbn.
  case_bool_decide as Hq.
  - subst q. exists l. split; [done|]. split; [by apply Permutation_cons_inv in HF|set_solver].
  - assert (p ∈ l) as [F' HF']%elem_of_Permutation.
    { assert (p ∈ q :: l) as Hp by (rewrite HF; constructor). inversion Hp; subst; done. }
    destruct (IH F' HF') as (l' & -> & Hl' & Hin). cbn. eexists. split; [done|]. split; [|set_solver].
    rewrite HF' in HF. rewrite Hl'. apply (Permutation_cons_inv (a := p)). rewrite <- HF. apply Permutation_swap.
Qed.

Lemma deallocate_spec p E : triple [p] (deallocate p) (λ _, []) E (λ _, True).
Proof.
  intros m F [Hnd Hlt] HF. destruct (remove_one_spec p (live m) F HF) as (l & El & Hl & Hin). unfold deallocate. rewrite El.
  split; [|split; [exact Hl|done]]. split; cbn.
  - rewrite HF in Hnd. rewrite Hl. by apply NoDup_cons in Hnd as [_ ?].
  - apply Forall_forall. intros q Hq. rewrite Forall_forall in Hlt. by apply Hlt, Hin.
Qed.

Lemma deallocate_then {B} p P (f : unit → mact B) Q E ψ : triple P (f tt) Q E ψ → triple (p :: P) (deallocate p ≫= f) Q E ψ.
Proof.
  intros Hf m F Hm HF. pose proof (deallocate_spec p E m (P ++ F) Hm HF) as Hd. unfold mbind, mact_bind.
  destruct (remove_one_spec p (live m) (P ++ F) HF) as (l & El & _). unfold deallocate in *. rewrite El in *.
  destruct Hd as (Hm1 & HF1 & _ & Hb). specialize (Hf _ F Hm1 HF1). destruct (f tt _); intuition.
Qed.

Lemma noexcept_spec {A} P (x : mact A) Q E E' φ : triple P x Q E φ → triple P (noexcept x) Q E' φ.
Proof. intros Hx m F Hm HF. specialize (Hx m F Hm HF). unfold noexcept. destruct (x m); by destruct_and?. Qed.

Lemma noexcept_buffer_then {B} P (f : unit → mact B) Q E ψ : triple P (f tt) Q E ψ → triple P (noexcept buffer ≫= f) Q E ψ.
Proof.
  intros Hf. apply (triple_bind P (noexcept buffer) (λ _, P) E (λ _, True)); [|by intros [] _].
  apply (noexcept_spec P buffer (λ _, P) P). exact (triple_frame P [] _ _ _ _ buffer_spec).
Qed.

Lemma perform_events_spec l E : triple (freed l) (perform_events l) (λ _, []) E (λ _, True).
Proof.
  induction l as [|[n|p] l IH]; [by apply (triple_ret tt (λ _, []))|by apply noexcept_buffer_then|by apply deallocate_then].
Qed.

(** Every value can be destroyed, and that releases its blocks. *)
Lemma destroy_value_spec v E : triple (blocks v) (destroy_value v) (λ _, []) E (λ _, True).
Proof.
  unfold destroy_value. destruct (dtor_releases 0 v) as (l & -> & Hp & _).
  eapply triple_weaken; [apply perform_events_spec|by symmetry|done|done].
Qed.

Lemma create_spec {A} (x : mact A) Q φ :
  triple [] x Q [] φ → triple [] (create x) (λ r, r.1 :: Q r.2) [] (λ r, φ r.2).
Proof.
  intros Hx. unfold create. eapply triple_bind; [exact allocate_spec|]. intros p _. cbn beta.
  eapply triple_bind.
  - eapply triple_cleanup; [exact (triple_frame [p] _ _ _ _ _ Hx)|apply deallocate_spec].
  - intros a Ha. cbn. eapply triple_weaken; [by apply (triple_ret (p, a) (λ r, r.1 :: Q r.2) (λ r, φ r.2))| |done|done].
    cbn. by rewrite Permutation_app_comm.
Qed.

Lemma create_buffer_spec : triple [] (create buffer) (λ r, [r.1]) [] (λ _, True).
Proof. eapply triple_weaken; [apply (create_spec buffer (λ _, []) (λ _, True)), buffer_spec|done..]. Qed.

Lemma create_block_spec : triple [] (create (mret tt)) (λ r, [r.1]) [] (λ _, True).
Proof.
  eapply triple_weaken; [apply (create_spec (mret tt) (λ _, []) (λ _, True)); by apply (triple_ret tt (λ _, []))|done..].
Qed.

(** ** Copies *)

(** A value without its addresses. *)
Fixpoint shape (v : hjson) : hjson :=
  match v with
  | HPlain => HPlain
  | HString _ => HString 1%positive
  | HBinary _ => HBinary 1%positive
  | HArray _ es => HArray 1%positive (map shape es)
  | HObject _ ms => HObject 1%positive (map (λ m, (m.1, shape m.2)) ms)
  end.

Lemma copy_list_spec {A B} (f : A → mact B) destroy (own : B → list addr) (R : A → B → Prop) l :
  (∀ b E, triple (own b) (destroy b) (λ _, []) E (λ _, True)) →
  Forall (λ a, triple [] (f a) own [] (R a)) l →
  triple [] (copy_list f destroy l) (flat_map own) [] (Forall2 R l).
Proof.
  intros Hd. induction 1 as [|a l Ha _ IH]; cbn [copy_list]; [apply (triple_ret [] (flat_map own)); constructor|].
  eapply triple_bind; [exact Ha|]. intros b Hb.
  eapply triple_bind; [eapply triple_cleanup; [exact (triple_frame (own b) _ _ _ _ _ IH)|apply Hd]|].
  intros bs Hbs. cbn. eapply triple_weaken; [by apply (triple_ret (b :: bs) (flat_map own) (Forall2 R (a :: l)) []); constructor| |done|done].
  cbn. by rewrite Permutation_app_comm.
Qed.

Lemma Forall2_shape vs ws : Forall2 (λ v w, shape w = shape v) vs ws → map shape ws = map shape vs.
Proof. induction 1; [done|]. cbn. by f_equal. Qed.

(** A copy has blocks of its own; when it throws, there is nothing left of it. *)
Lemma copy_spec v : triple [] (copy v) blocks [] (λ w, shape w = shape v).
Proof.
  induction v as [|p|p|p es IH|p ms IH] using hjson_induction; cbn [copy].
  - by apply (triple_ret HPlain blocks).
  - eapply triple_bind; [exact create_buffer_spec|]. intros [q []] _. by apply (triple_ret (HString q) blocks).
  - eapply triple_bind; [exact create_buffer_spec|]. intros [q []] _. by apply (triple_ret (HBinary q) blocks).
  - eapply triple_bind; [apply create_spec, buffer_then; [exact (copy_list_spec copy destroy_value blocks _ es destroy_value_spec IH)|done]|].
    intros [q ws] Hws. apply (triple_ret (HArray q ws) blocks). cbn. f_equal. by apply Forall2_shape.
  - eapply triple_bind.
    + apply create_spec, (copy_list_spec _ destroy_member (λ m, blocks m.2) (λ m m', m'.1 = m.1 ∧ shape m'.2 = shape m.2) ms).
      * intros m E. apply destroy_value_spec.
      * eapply Forall_impl; [exact IH|]. intros [k v] Hv. apply buffer_then; [|done]. apply buffer_then; [|done]. eapply triple_bind; [exact Hv|]. intros w Hw.
        by apply (triple_ret (k, w) (λ m, blocks m.2)).
    + intros [q ws] Hws. apply (triple_ret (HObject q ws) blocks). cbn in *. f_equal.
      clear IH. induction Hws as [|m m' l l' [Hk Hm] _ IHs]; [done|]. cbn. by rewrite Hk, Hm, IHs.
Qed.

Lemma make_spec t : triple [] (make t) blocks [] (λ _, True).
Proof.
  destruct t; cbn [make]; [by apply (triple_ret HPlain blocks)|..].
  - eapply triple_bind; [exact create_block_spec|]. intros [q []] _. by apply (triple_ret (HString q) blocks).
  - eapply triple_bind; [exact create_block_spec|]. intros [q []] _. by apply (triple_ret (HBinary q) blocks).
  - eapply triple_bind; [eapply (create_spec _ (flat_map blocks) (λ _, True)); by apply (triple_ret [] (flat_map blocks))|].
    intros [q es] _. by apply (triple_ret (HArray q es) blocks).
  - eapply triple_bind; [eapply (create_spec _ (flat_map (λ m, blocks m.2)) (λ _, True)); by apply (triple_ret [] (flat_map (λ m, blocks m.2)))|].
    intros [q es] _. by apply (triple_ret (HObject q es) blocks).
Qed.

(** ** Programs *)

Definition owned_by (v : option hjson) : list addr := match v with Some v => blocks v | None => [] end.
Definition owned (vs : variables) : list addr := flat_map owned_by vs.

(** What is allocated is what the variables own, each block by one of them. *)
Definition inv (vs : variables) (m : memory) : Prop := well m ∧ live m ≡ₚ owned vs ∧ Forall is_Some vs.

Lemma owned_delete i vs v : vs !! i = Some v → owned vs ≡ₚ owned_by v ++ owned (delete i vs).
Proof. intros Hi. unfold owned. by rewrite (delete_Permutation vs i v Hi) at 1. Qed.

Lemma delete_insert_same {A} (i : nat) (x : A) (l : list A) : delete i (<[i := x]> l) = delete i l.
Proof. revert i. induction l as [|y l IH]; intros [|i]; cbn; [done..|]. f_equal. apply IH. Qed.

Lemma owned_insert i vs v w : vs !! i = Some v → owned (<[i := w]> vs) ≡ₚ owned_by w ++ owned (delete i vs).
Proof.
  intros Hi. apply lookup_lt_Some in Hi as Hlt. rewrite (owned_delete i (<[i := w]> vs) w) by by apply list_lookup_insert_eq.
  by rewrite delete_insert_same.
Qed.

Lemma owned_app vs ws : owned (vs ++ ws) = owned vs ++ owned ws.
Proof. apply flat_map_app. Qed.

(** All variables hold values. *)
Lemma variable_value i (vs : variables) : Forall is_Some vs → (i < length vs)%nat → ∃ v, vs !! i = Some (Some v).
Proof.
  intros Hvs Hi. apply lookup_lt_is_Some in Hi as [o Ho]. rewrite Forall_lookup in Hvs.
  destruct (Hvs i o Ho) as [v ->]. eauto.
Qed.

Lemma read_value {B} i (vs : variables) v (f : hjson → mact B) : vs !! i = Some (Some v) → read i vs ≫= f = f v.
Proof. unfold read. by intros ->. Qed.

(** A part of a program with the variables [vs]: it keeps what the others own. *)
Definition keeps (vs : variables) (x : mact variables) : Prop := triple (owned vs) x owned (owned vs) (Forall is_Some).

Lemma copy_frame vs v : triple (owned vs) (copy v) (λ w, blocks w ++ owned vs) (owned vs) (λ w, shape w = shape v).
Proof. exact (triple_frame (owned vs) [] _ _ _ _ (copy_spec v)). Qed.

(** The destructor does not throw. *)
Lemma destroy_then {B} v R (f : unit → mact B) Q E ψ :
  triple R (f tt) Q E ψ → triple (blocks v ++ R) (destroy_value v ≫= f) Q E ψ.
Proof.
  intros Hf m F Hm HF. rewrite <- app_assoc in HF. pose proof (λ E, destroy_value_spec v E m (R ++ F) Hm HF) as Hd.
  unfold mbind, mact_bind. destruct (destroy_value v m) as [[] m1|m1| |]; [|exfalso|exact (Hd [])|exact (Hd [])].
  - destruct (Hd []) as (Hm1 & HF1 & _ & Hb). specialize (Hf m1 F Hm1 HF1). destruct (f tt m1); intuition.
  - destruct (Hd []) as (_ & H1 & _), (Hd [1%positive]) as (_ & H2 & _). rewrite H1 in H2.
    apply Permutation_length in H2. cbn in H2. lia.
Qed.

Lemma assign_owned i w vs v E : Forall is_Some vs → vs !! i = Some (Some v) →
  triple (blocks w ++ owned vs) (assign i w vs) owned E (Forall is_Some).
Proof.
  intros Hvs Hi. unfold assign. rewrite (read_value _ _ _ _ Hi).
  eapply (triple_weaken (blocks v ++ owned (<[i := Some w]> vs)) _ _ owned _ E E); [|rewrite (owned_insert _ _ _ _ Hi), (owned_delete _ _ _ Hi)|done..].
  - apply destroy_then, triple_ret. by apply Forall_insert; eauto.
  - cbn. rewrite !app_assoc. by rewrite (Permutation_app_comm (blocks w)).
Qed.

Lemma keeps_move i vs v : Forall is_Some vs → vs !! i = Some (Some v) →
  keeps vs (mret (<[i := Some HPlain]> vs ++ [Some v])).
Proof.
  intros Hvs Hi. eapply triple_weaken; [apply (triple_ret _ owned (Forall is_Some) (owned vs))| |done|done].
  - apply Forall_app. split; [apply Forall_insert; eauto|by constructor; eauto].
  - rewrite owned_app, (owned_insert _ _ _ _ Hi), (owned_delete _ _ _ Hi). cbn. by rewrite app_nil_r, Permutation_app_comm.
Qed.

Lemma keeps_assign i j vs v w : Forall is_Some vs → vs !! i = Some (Some v) → vs !! j = Some (Some w) →
  keeps vs (v ← read j vs; v ← copy v; assign i v vs).
Proof.
  intros Hvs Hi Hj. rewrite (read_value _ _ _ _ Hj). eapply triple_bind; [apply copy_frame|].
  intros w' _. by eapply assign_owned.
Qed.

Lemma keeps_move_assign i j vs w : Forall is_Some vs → (i < length vs)%nat → vs !! j = Some (Some w) →
  keeps vs (v ← read j vs; assign i v (<[j := Some HPlain]> vs)).
Proof.
  intros Hvs Hi Hj. rewrite (read_value _ _ _ _ Hj).
  assert (Forall is_Some (<[j := Some HPlain]> vs)) as Hvs' by (apply Forall_insert; eauto).
  destruct (variable_value i (<[j := Some HPlain]> vs) Hvs') as [v Hv]; [by rewrite length_insert|].
  eapply triple_weaken; [by eapply (assign_owned i w)| |done|done].
  rewrite (owned_insert _ _ _ _ Hj), (owned_delete _ _ _ Hj). done.
Qed.

Lemma keeps_push i j vs p es : Forall is_Some vs → vs !! i = Some (Some (HArray p es)) → (j < length vs)%nat →
  keeps vs (v ← read j vs; buffer;; v ← copy v; mret (<[i := Some (HArray p (es ++ [v]))]> vs)).
Proof.
  intros Hvs Hi Hj. destruct (variable_value j vs Hvs Hj) as [w Hw]. rewrite (read_value _ _ _ _ Hw).
  apply buffer_then; [|done]. eapply triple_bind; [apply copy_frame|]. intros v _.
  eapply triple_weaken; [apply (triple_ret _ owned (Forall is_Some) (owned vs))| |done|done].
  - apply Forall_insert; eauto.
  - rewrite (owned_insert _ _ _ _ Hi), (owned_delete _ _ _ Hi). cbn. rewrite flat_map_app. cbn. rewrite app_nil_r.
    rewrite <- app_assoc, <- Permutation_middle, !app_assoc. by rewrite (Permutation_app_comm (blocks v)).
Qed.

Lemma keeps_pop vs v : Forall is_Some vs → keeps (vs ++ [Some v]) (destroy_value v;; mret vs).
Proof.
  intros Hvs. eapply triple_weaken; [apply (destroy_then v (owned vs)), (triple_ret vs owned (Forall is_Some) (owned (vs ++ [Some v]))); done| |done|done].
  rewrite owned_app. cbn. by rewrite app_nil_r, Permutation_app_comm.
Qed.

(** ** Steps *)

(** A step that ends in a state with the invariant, or ends the program for want of memory; where no allocation
    fails, none fails later. *)
Definition good (m : memory) (r : step_result) : Prop :=
  match r with Ran vs m' => inv vs m' ∧ (plenty m → plenty m') | Terminated => ¬ plenty m | Undefined => False end.

Lemma good_push x vs m : inv vs m → triple (owned vs) x (λ v, blocks v ++ owned vs) (owned vs) (λ _, True) → good m (push_variable x vs m).
Proof.
  intros (Hm & Hl & Hvs) Hx. specialize (Hx m [] Hm). rewrite app_nil_r in Hx. specialize (Hx Hl). unfold push_variable.
  destruct (x m) as [v m'|m'| |]; [| |done..].
  - destruct Hx as (Hm' & Hl' & _ & Hb). split; [|done]. split; [done|]. split; [|by apply Forall_app; split; [|constructor; eauto]].
    rewrite Hl', owned_app. cbn. rewrite !app_nil_r. apply Permutation_app_comm.
  - destruct Hx as (Hm' & Hl' & Hb). rewrite ?app_nil_r in Hl'. split; [by split|done].
Qed.

Lemma good_update x vs m : inv vs m → keeps vs x → good m (update_variables x vs m).
Proof.
  intros (Hm & Hl & Hvs) Hx. specialize (Hx m [] Hm). rewrite app_nil_r in Hx. specialize (Hx Hl). unfold update_variables.
  destruct (x m) as [vs' m'|m'| |]; [| |done..].
  - destruct Hx as (Hm' & Hl' & Hvs' & Hb). rewrite ?app_nil_r in Hl'. split; [by split|done].
  - destruct Hx as (Hm' & Hl' & Hb). rewrite ?app_nil_r in Hl'. split; [by split|done].
Qed.

Lemma good_push_element i j vs m : inv vs m → (i < length vs)%nat → (j < length vs)%nat → good m (push_element i j vs m).
Proof.
  intros Hinv Hi Hj. pose proof Hinv as (_ & _ & Hvs). unfold push_element. destruct (variable_value i vs Hvs Hi) as [v Hv].
  rewrite Hv. destruct v; try done. apply good_update; [done|by eapply keeps_push].
Qed.

Lemma good_push_back i j vs m : inv vs m → (i < length vs)%nat → (j < length vs)%nat → plenty m → good m (push_back i j vs m).
Proof.
  intros Hinv Hi Hj Hb. unfold push_back. pose proof Hinv as (Hm & Hl & Hvs). destruct (variable_value i vs Hvs Hi) as [v Hv].
  rewrite Hv. destruct v; try by apply good_push_element.
  pose proof (triple_frame (owned vs) [] _ _ _ _ (make_spec BArray) m []) as Hx. rewrite app_nil_r in Hx. specialize (Hx Hm Hl).
  destruct (make BArray m) as [w m1|m1| |]; [|by destruct Hx as (_ & _ & ?)|done..].
  destruct Hx as (Hm1 & Hl1 & _ & Hb1). rewrite ?app_nil_r in Hl1.
  assert (inv (<[i := Some w]> vs) m1) as Hinv1.
  { split; [done|]. split; [|apply Forall_insert; eauto]. by rewrite Hl1, (owned_insert _ _ _ _ Hv), (owned_delete _ _ _ Hv). }
  pose proof (good_push_element i j _ _ Hinv1) as Hg. rewrite length_insert in Hg. specialize (Hg Hi Hj).
  unfold good in *. destruct (push_element _ _ _ m1) as [vs2 m2| |]; [|auto|done]. destruct Hg as [? ?]. auto.
Qed.

Definition is_push_back (o : op) : bool := match o with OPushBack _ _ => true | _ => false end.

Lemma good_perform o vs m :
  inv vs m → Forall (λ i, i < length vs)%nat (uses o) → (is_push_back o = true → plenty m) → good m (perform o vs m).
Proof.
  intros Hinv Hu Hb. pose proof Hinv as (Hm & Hl & Hvs).
  assert (∀ x Q, triple [] x Q [] (λ _, True) → triple (owned vs) x (λ v : hjson, Q v ++ owned vs) (owned vs) (λ _, True)) as Hframe
    by (intros x Q; apply (triple_frame (owned vs) [])).
  destruct o as [t|cnt i|i|i|i j|i j|i j|]; cbn [uses perform] in *; repeat match goal with H : Forall _ (_ :: _) |- _ => inversion_clear H end;
    try (destruct (variable_value i vs Hvs ltac:(done)) as [v Hv]); try (destruct (variable_value j vs Hvs ltac:(done)) as [w Hw]).
  - apply good_push; [done|]. apply Hframe, make_spec.
  - apply good_push; [done|]. rewrite (read_value _ _ _ _ Hv). apply Hframe. unfold make_copies.
    eapply triple_bind; [apply create_spec, buffer_then; [|done]; apply (copy_list_spec copy destroy_value blocks (λ v w, shape w = shape v) _ destroy_value_spec), Forall_replicate, copy_spec|].
    intros [p es] _. by apply (triple_ret (HArray p es) blocks).
  - apply good_push; [done|]. rewrite (read_value _ _ _ _ Hv). by eapply triple_weaken; [apply copy_frame|..].
  - apply good_update; [done|]. rewrite (read_value _ _ _ _ Hv). by apply keeps_move.
  - apply good_update; [done|]. by eapply keeps_assign.
  - apply good_update; [done|]. by eapply keeps_move_assign.
  - apply good_push_back; auto.
  - destruct vs as [|o vs _] using rev_ind; [by split|]. destruct (vs ++ [o]) eqn:E; [by destruct vs|]. rewrite <- E in *. clear E.
    rewrite length_app. cbn. rewrite Nat.add_sub, take_app_length. apply Forall_app in Hvs as [Hvs [[v ->] _]%Forall_cons].
    apply good_update; [done|]. rewrite (read_value (length vs) _ v) by (by rewrite lookup_app_r, Nat.sub_diag by lia). by apply keeps_pop.
Qed.

Lemma good_step o vs m : inv vs m → (is_push_back o = true → plenty m) → good m (step o vs m).
Proof.
  intros Hinv Hb. unfold step. destruct (forallb _ _) eqn:E; [|by split].
  apply good_perform; [done| |done]. apply Forall_forall. intros i Hi.
  rewrite forallb_forall in E. apply Nat.ltb_lt, E. by rewrite <- list_elem_of_In.
Qed.

Lemma good_run os vs m : inv vs m → (existsb is_push_back os = true → plenty m) → good m (run os vs m).
Proof.
  revert vs m. induction os as [|o os IH]; intros vs m Hinv Hb; [by split|]. cbn in *.
  pose proof (good_step o vs m Hinv) as Hs. assert (is_push_back o = true → plenty m) as Ho by (intros E; apply Hb; by rewrite E).
  specialize (Hs Ho). destruct (step o vs m) as [vs1 m1| |]; [|done..]. destruct Hs as [Hinv1 Hb1].
  assert (existsb is_push_back os = true → plenty m1) as Hos by (intros E; apply Hb1, Hb; rewrite E; apply orb_true_r).
  specialize (IH vs1 m1 Hinv1 Hos). unfold good in *. destruct (run os vs1 m1) as [vs2 m2| |]; [|auto|done]. destruct IH; auto.
Qed.

Definition values (vs : variables) : list hjson := omap id vs.

Lemma destroy_values_spec vs E : triple (flat_map blocks vs) (destroy_values vs) (λ _, []) E (λ _, True).
Proof.
  induction vs as [|v vs IH]; cbn [destroy_values flat_map]; [by apply (triple_ret tt (λ _, []))|].
  by apply destroy_then.
Qed.

Lemma owned_values vs : Forall is_Some vs → owned vs = flat_map blocks (values vs).
Proof. induction 1 as [|? vs [v ->] _ IH]; [done|]. cbn. f_equal. exact IH. Qed.

(** A program that starts without variables. *)
Definition run_program (os : list op) (failing : list bool) : step_result := run os [] (Memory 1 [] failing).

(** C21 (invariant): in a program that constructs, copies, moves, assigns, fills and destroys JSON values, with
    allocations that fail at any points (of blocks for values, of buffers of strings, vectors and maps; [std::bad_alloc]
    leaves the operation and the program goes on), every block that is allocated belongs to exactly one variable at
    every time; no block is deallocated twice or used after that; and when the variables that are left are destroyed no
    block is left.  The exception is an allocation that fails for the vector of the destructor itself, which is
    [noexcept]: the program is terminated, and so it is never if no allocation fails.  With [push_back] as well
    all this holds as long as no allocation fails. *)
Theorem values_own_memory os failing :
  existsb is_push_back os = false ∨ Forall (λ b, b = false) failing →
  match run_program os failing with
  | Ran vs m =>
      NoDup (live m) ∧ live m ≡ₚ flat_map blocks (values vs) ∧
      match destroy_values (values vs) m with
      | MOk _ m' => live m' = []
      | MTerminate => ¬ Forall (λ b, b = false) failing
      | _ => False
      end
  | Terminated => ¬ Forall (λ b, b = false) failing
  | Undefined => False
  end.
Proof.
  intros H. pose proof (good_run os [] (Memory 1 [] failing)) as Hg. unfold run_program, good in *.
  assert (inv [] (Memory 1 [] failing)) as Hinv by (split; [split; constructor|by split]).
  assert (existsb is_push_back os = true → plenty (Memory 1 [] failing)) as Hb by (destruct H as [H|H]; [by rewrite H|done]).
  specialize (Hg Hinv Hb). destruct (run os [] _) as [vs m| |]; [|done..]. destruct Hg as [(Hm & Hl & Hvs) Hp].
  rewrite (owned_values vs Hvs) in Hl. split; [apply Hm|]. split; [done|].
  pose proof (λ E, destroy_values_spec (values vs) E m []) as Hd. rewrite app_nil_r in Hd.
  destruct (destroy_values (values vs) m) as [[] m'|m'| |]; [| | |by destruct (Hd [] Hm Hl)].
  - destruct (Hd [] Hm Hl) as (_ & Hl' & _). symmetry in Hl'. by apply Permutation_nil in Hl'.
  - destruct (Hd [] Hm Hl) as (_ & H1 & _), (Hd [1%positive] Hm Hl) as (_ & H2 & _). rewrite H1 in H2. by apply Permutation_nil_cons in H2.
  - intros Hf. by apply (Hd [] Hm Hl), Hp.
Qed.

(** ** Examples *)

(** An array is built, copied while the memory is short, moved, and filled. *)
Definition example_program : list op :=
  [ONew BArray; ONew BString; OCopy 1; OFill 2 1; OCopy 3; OMove 3; OAssign 0 3; OMoveAssign 1 4; OPop].
Definition short_of_memory : list bool := replicate 14 false ++ [true].

(** The copy of the array fails at its second element, and the first is destroyed again. *)
Lemma values_own_memory_witness :
  (existsb is_push_back example_program = false ∨ Forall (λ b, b = false) short_of_memory) ∧
  ∃ vs m, run_program example_program short_of_memory = Ran vs m ∧ NoDup (live m) ∧ live m ≡ₚ flat_map blocks (values vs).
Proof.
  split; [by left|]. pose proof (values_own_memory example_program short_of_memory (or_introl eq_refl)) as H.
  remember (run_program example_program short_of_memory) as r eqn:E. vm_compute in E. subst r.
  eexists _, _. split; [reflexivity|]. destruct H as (Hn & Hl & _). split; [exact Hn|exact Hl].
Defined.

(** An array with an element is destroyed when the memory has ended: the destructor cannot throw. *)
Example destroyed_without_memory :
  run_program [ONew BString; OFill 1 0; OPop] [false; false; false; false; false; true] = Terminated.
Proof. vm_compute. reflexivity. Qed.

(** [push_back] on a null value when the array cannot be allocated: the type is array already, and the
    next use of the value, its destruction among them, is undefined. *)
Example push_back_without_memory :
  (∃ m, run_program [ONew BNone; OPushBack 0 0] [true] = Ran [None] m) ∧
  run_program [ONew BNone; OPushBack 0 0; OPop] [true] = Undefined.
Proof. split; [by eexists|reflexivity]. Qed.

(** A null value that is pushed back into itself: it is an array when it is copied. *)
Example push_back_self :
  ∃ m, run_program [ONew BNone; OPushBack 0 0] [] = Ran [Some (HArray 1%positive [HArray 2%positive []])] m.
Proof. by eexists. Qed.
