(* ===== verification/JsonOrdered.v ===== *)
(** * JsonOrdered: the objects of [ordered_json]
      ([include/nlohmann/json.hpp], struct [ordered_map])

    [ordered_map] keeps its members in a [std::vector], in the order of their insertion;
    every lookup is a search from the front, and erasing moves the members that
    follow, in place, over those that are erased.  An iterator is an index.  [moved] is
    what is left of a value that has been moved from.  The abstract map of the members is
    a finite map, [abs]. *)

From S2P Require Import Prelude CString Prog JsonValue.

Section ordered_map.
Context {T : Type} (moved : T → T).

Abbreviation ordered := (list (bytes * T)).

(** The search [for (it = begin(); it != end(); ++it) if (it->first == key)], from
    index [i] on. *)
Fixpoint search (key : bytes) (i : nat) (m : ordered) : option (nat * T) :=
  match m with
  | [] => None
  | (k, v) :: m => if bool_decide (k = key) then Some (i, v) else search key (S i) m
  end.

(** [find(key)]: an index, the length of the vector for [end()]. *)
Definition find (key : bytes) (m : ordered) : nat :=
  match search key 0 m with Some (i, _) => i | None => length m end.

Definition count (key : bytes) (m : ordered) : Z := match search key 0 m with Some _ => 1 | None => 0 end.

Definition at_key (key : bytes) (m : ordered) : dres T :=
  match search key 0 m with Some (_, v) => DOk v | None => DThrow ExOutOfRange end.

(** [emplace(key, t)]: the index of the member and whether it is new, and the map. *)
Definition emplace (key : bytes) (t : T) (m : ordered) : (nat * bool) * ordered :=
  match search key 0 m with
  | Some (i, _) => ((i, false), m)
  | None => ((length m, true), m ++ [(key, t)])
  end.

(** [operator[]]: a reference to the value, as its index; [default_value] is [T{}]. *)
Definition subscript (default_value : T) (key : bytes) (m : ordered) : nat * ordered :=
  let '((i, _), m) := emplace key default_value m in (i, m).

(** [insert(value)], and [insert(first, last)]. *)
Definition insert (value : bytes * T) (m : ordered) : (nat * bool) * ordered := emplace value.1 value.2 m.
Definition insert_all (values m : ordered) : ordered := foldl (λ m v, (insert v m).2) m values.

(** In-place destruction and reconstruction: the member at [i] is
    replaced by the one at [j], of which the key is copied and the value moved.
    A member that is moved onto itself has been destroyed before. *)
Definition reconstruct (i j : nat) (m : ordered) : cres ordered :=
  if bool_decide (i = j) then UB UB_indeterminate
  else match m !! j with
    | Some (k, v) => Def (<[i := (k, v)]> (<[j := (k, moved v)]> m))
    | None => UB UB_out_of_bounds
    end.

(** The loop of both [erase] functions: from [i] on, until the source, [n] members behind,
    is the end of the vector. *)
Fixpoint shift (n fuel i : nat) (m : ordered) : cres ordered :=
  if bool_decide (i + n = length m)%nat then Def m
  else match fuel with
    | O => Def m
    | S fuel => m ← reconstruct i (i + n) m; shift n fuel (S i) m
    end.

(** [erase(key)]: the number of members erased. *)
Definition erase_key (key : bytes) (m : ordered) : cres (Z * ordered) :=
  match search key 0 m with
  | Some (i, _) => m ← shift 1 (length m) i m; mret (1, take (length m - 1) m)
  | None => mret (0, m)
  end.

(** [erase(first, last)]: the index behind the members erased. *)
Definition erase_range (first last : nat) (m : ordered) : cres (nat * ordered) :=
  let elements_affected := (last - first)%nat in
  m ← shift elements_affected (length m) first m;
  mret (first, take (length m - elements_affected) m).

Definition erase_pos (pos : nat) (m : ordered) : cres (nat * ordered) := erase_range pos (S pos) m.

(** [m[key] = v]. *)
Definition assign (default_value : T) (key : bytes) (v : T) (m : ordered) : ordered :=
  let '(i, m) := subscript default_value key m in alter (λ kv, (kv.1, v)) i m.

(** The constructors from a range and from an initializer list are those of the vector. *)
Definition construct_range (values : ordered) : ordered := values.

(** ** Lemmas *)

(** The finite map of the members. *)
Definition abs (m : ordered) : gmap bytes T := list_to_map m.

Definition unique (m : ordered) : Prop := NoDup (m.*1).

Lemma search_spec key i m :
  match search key i m with
  | Some (j, v) => (i ≤ j)%nat ∧ m !! (j - i)%nat = Some (key, v) ∧ abs m !! key = Some v
  | None => (key ∉ m.*1) ∧ abs m !! key = None
  end.
Proof.
  revert i. induction m as [|[k v] m IH]; intros i; cbn [search].
  - split; [set_solver|done].
  - case_bool_decide as Hk.
    + subst k. unfold abs. cbn. rewrite Nat.sub_diag, lookup_insert_eq. done.
    + specialize (IH (S i)). unfold abs in *. cbn. destruct (search key (S i) m) as [[j w]|].
      * destruct IH as (Hj & Hm & Ha). split; [lia|]. rewrite lookup_insert_ne by done.
        split; [|done]. replace (j - i)%nat with (S (j - S i)) by lia. done.
      * destruct IH as [Hn Ha]. rewrite lookup_insert_ne by done. split; [set_solver|done].
Qed.

Lemma unique_app m1 m2 : unique (m1 ++ m2) ↔ unique m1 ∧ (∀ k, k ∈ m1.*1 → k ∉ m2.*1) ∧ unique m2.
Proof. unfold unique. by rewrite fmap_app, NoDup_app. Qed.

(** What [shift] leaves: the members that follow come forward, and as many remain behind as
    they were, moved from. *)
Lemma shift_spec n fuel m1 gap m2 :
  (0 < n)%nat → length gap = n → (length m2 ≤ fuel)%nat →
  ∃ rest, shift n fuel (length m1) (m1 ++ gap ++ m2) = Def (m1 ++ m2 ++ rest) ∧ length rest = n.
Proof.
  intros Hn. revert m1 gap m2. induction fuel as [|fuel IH]; intros m1 gap m2 Hg Hf; cbn [shift].
  - destruct m2; [|cbn in Hf; lia]. exists gap. rewrite bool_decide_eq_true_2 by (rewrite !length_app; cbn; lia).
    by rewrite app_nil_r.
  - destruct m2 as [|[k v] m2].
    + exists gap. rewrite bool_decide_eq_true_2 by (rewrite !length_app; cbn; lia). by rewrite app_nil_r.
    + rewrite bool_decide_eq_false_2 by (rewrite !length_app; cbn; lia).
      destruct gap as [|g gap]; [cbn in Hg; lia|]. unfold reconstruct.
      rewrite bool_decide_eq_false_2 by lia.
      assert ((m1 ++ (g :: gap) ++ (k, v) :: m2) !! (length m1 + n)%nat = Some (k, v)) as ->.
      { rewrite lookup_app_r by lia. replace (length m1 + n - length m1)%nat with n by lia.
        rewrite lookup_app_r by lia. rewrite Hg. by rewrite Nat.sub_diag. }
      cbn [mbind cres_bind].
      assert (<[length m1 := (k, v)]> (<[(length m1 + n)%nat := (k, moved v)]> (m1 ++ (g :: gap) ++ (k, v) :: m2))
        = (m1 ++ [(k, v)]) ++ (gap ++ [(k, moved v)]) ++ m2) as ->.
      { rewrite insert_app_r. rewrite <- (Nat.add_0_r (length m1)) at 1. rewrite insert_app_r.
        rewrite <- Hg. rewrite <- (Nat.add_0_r (length (g :: gap))), insert_app_r. cbn.
        by rewrite <- !app_assoc. }
      destruct (IH (m1 ++ [(k, v)]) (gap ++ [(k, moved v)]) m2) as (rest & Hr & Hl).
      { rewrite length_app. cbn in *. lia. } { cbn in Hf. lia. }
      exists rest. rewrite length_app in Hr. cbn in Hr. rewrite Nat.add_1_r in Hr. rewrite Hr. by rewrite <- !app_assoc.
Qed.

(** What both [erase] functions do: the members from [first] on are gone, the others stay in order. *)
Lemma shift_erases n first m :
  (0 < n)%nat → (first + n ≤ length m)%nat →
  ∃ m', shift n (length m) first m = Def m' ∧ take (length m' - n) m' = take first m ++ drop (first + n) m.
Proof.
  intros Hn Hf.
  destruct (shift_spec n (length m) (take first m) (take n (drop first m)) (drop (first + n) m)) as (rest & Hr & Hl); [done|..].
  - rewrite length_take, length_drop. lia.
  - rewrite length_drop. lia.
  - rewrite length_take_le in Hr by lia. rewrite <- drop_drop, !take_drop in Hr. exists (take first m ++ drop (first + n) m ++ rest).
    split; [by rewrite <- drop_drop|]. rewrite app_assoc, take_app_length'; [done|].
    rewrite (length_app _ rest). lia.
Qed.

Lemma search_position key m j v : search key 0 m = Some (j, v) → m !! j = Some (key, v).
Proof. intros E. pose proof (search_spec key 0 m) as H. rewrite E in H. destruct H as (_ & H & _). by rewrite Nat.sub_0_r in H. Qed.

Lemma abs_erase m1 key v m2 : unique (m1 ++ (key, v) :: m2) → abs (m1 ++ m2) = delete key (abs (m1 ++ (key, v) :: m2)).
Proof.
  intros Hu. unfold abs. rewrite !list_to_map_app. cbn. apply unique_app in Hu as (Hu1 & Hd & Hu2). cbn in Hd, Hu2.
  apply NoDup_cons in Hu2 as [Hk Hu2].
  assert (key ∉ m1.*1) as Hk1 by (intros H1; apply (Hd _ H1); set_solver).
  rewrite <- insert_union_r, delete_insert_eq by by apply not_elem_of_list_to_map.
  symmetry. apply delete_id. rewrite lookup_union_None. split; by apply not_elem_of_list_to_map.
Qed.

Lemma abs_snoc m key v : key ∉ m.*1 → abs (m ++ [(key, v)]) = <[key := v]> (abs m).
Proof.
  intros Hk. unfold abs. rewrite list_to_map_app. cbn. rewrite <- insert_union_r by by apply not_elem_of_list_to_map.
  by rewrite map_union_empty.
Qed.

(** ** Refinement of a finite map *)

(** The operations of a map with their results, on both. *)
Inductive op :=
| OpFind (key : bytes) | OpCount (key : bytes) | OpAt (key : bytes)
| OpEmplace (key : bytes) (t : T) | OpAssign (key : bytes) (t : T) | OpErase (key : bytes).

Inductive answer := AFound (b : bool) | ANumber (n : Z) | AValue (v : dres T) | ADone.

Definition run_op (default_value : T) (o : op) (m : ordered) : cres (answer * ordered) :=
  match o with
  | OpFind key => mret (AFound (negb (bool_decide (find key m = length m))), m)
  | OpCount key => mret (ANumber (count key m), m)
  | OpAt key => mret (AValue (at_key key m), m)
  | OpEmplace key t => let '((_, is_new), m) := emplace key t m in mret (AFound (negb is_new), m)
  | OpAssign key t => mret (ADone, assign default_value key t m)
  | OpErase key => '(n, m) ← erase_key key m; mret (ANumber n, m)
  end.

Definition spec_op (o : op) (m : gmap bytes T) : answer * gmap bytes T :=
  match o with
  | OpFind key => (AFound (bool_decide (is_Some (m !! key))), m)
  | OpCount key => (ANumber (if decide (is_Some (m !! key)) then 1 else 0), m)
  | OpAt key => (AValue (match m !! key with Some v => DOk v | None => DThrow ExOutOfRange end), m)
  | OpEmplace key t => (AFound (bool_decide (is_Some (m !! key))), match m !! key with Some _ => m | None => <[key := t]> m end)
  | OpAssign key t => (ADone, <[key := t]> m)
  | OpErase key => (ANumber (if decide (is_Some (m !! key)) then 1 else 0), delete key m)
  end.

Fixpoint run_ops (default_value : T) (os : list op) (m : ordered) : cres (list answer * ordered) :=
  match os with
  | [] => mret ([], m)
  | o :: os => '(a, m) ← run_op default_value o m; '(l, m) ← run_ops default_value os m; mret (a :: l, m)
  end.

Fixpoint spec_ops (os : list op) (m : gmap bytes T) : list answer * gmap bytes T :=
  match os with
  | [] => ([], m)
  | o :: os => let '(a, m) := spec_op o m in let '(l, m) := spec_ops os m in (a :: l, m)
  end.

(** Assignment through the reference that [operator[]] gives. *)
Lemma assign_spec d key t m : unique m → unique (assign d key t m) ∧ abs (assign d key t m) = <[key := t]> (abs m).
Proof.
  intros Hu. unfold assign, subscript, emplace. pose proof (search_spec key 0 m) as H.
  destruct (search key 0 m) as [[i v]|] eqn:E.
  - apply search_position in E as Hi. apply list_elem_of_split_length in Hi as (m1 & m2 & -> & ->).
    rewrite <- (Nat.add_0_r (length m1)), alter_app_r. cbn. pose proof Hu as Hu'.
    apply unique_app in Hu as (Hu1 & Hd & Hu2). split.
    + apply unique_app. split; [done|]. split; [|done]. intros k Hk. by apply Hd.
    + unfold abs. rewrite !list_to_map_app. cbn.
      assert ((list_to_map m1 : gmap bytes T) !! key = None) as Hn.
      { apply not_elem_of_list_to_map. intros Hk. apply (Hd _ Hk). set_solver. }
      rewrite <- !insert_union_r by done. by rewrite insert_insert_eq.
  - destruct H as [Hk _]. rewrite <- (Nat.add_0_r (length m)), alter_app_r. cbn. split.
    + apply unique_app. split; [done|]. cbn. split; [set_solver|]. apply NoDup_singleton.
    + by apply abs_snoc.
Qed.

Lemma erase_key_spec key m : unique m →
  ∃ m', erase_key key m = Def (if decide (is_Some (abs m !! key)) then 1 else 0, m') ∧ unique m' ∧ abs m' = delete key (abs m).
Proof.
  intros Hu. unfold erase_key. pose proof (search_spec key 0 m) as H.
  destruct (search key 0 m) as [[i v]|] eqn:E.
  - apply search_position in E as Hi. destruct H as (_ & _ & Ha). rewrite Ha.
    apply list_elem_of_split_length in Hi as (m1 & m2 & -> & ->).
    destruct (shift_erases 1 (length m1) (m1 ++ (key, v) :: m2)) as (m' & Hs & Ht); [lia|rewrite length_app; cbn; lia|].
    rewrite Hs. cbn [mbind cres_bind]. rewrite decide_True by by eexists. eexists. split; [done|].
    rewrite Ht, take_app_length, drop_app_ge by lia. replace (length m1 + 1 - length m1)%nat with 1%nat by lia. cbn [drop].
    change (drop 0 m2) with m2. split; [|by apply abs_erase].
    apply unique_app in Hu as (Hu1 & Hd & Hu2). cbn in Hd, Hu2. apply NoDup_cons in Hu2 as [_ Hu2].
    apply unique_app. split; [done|]. split; [|done]. intros k Hk1 Hk2. apply (Hd k Hk1). by right.
  - destruct H as [Hk Ha]. exists m. rewrite Ha, decide_False by (intros [? ?]; done). split; [done|]. split; [done|].
    symmetry. by apply delete_id.
Qed.

Lemma run_op_refines d o m : unique m →
  ∃ m', run_op d o m = Def ((spec_op o (abs m)).1, m') ∧ unique m' ∧ abs m' = (spec_op o (abs m)).2.
Proof.
  intros Hu. destruct o as [key|key|key|key t|key t|key]; cbn [run_op spec_op];
    unfold find, count, at_key, emplace; pose proof (search_spec key 0 m) as H.
  - exists m. split; [|done]. destruct (search key 0 m) as [[i v]|] eqn:E.
    + apply search_position in E as Hi%lookup_lt_Some. destruct H as (_ & _ & Ha). rewrite Ha.
      rewrite bool_decide_eq_false_2 by lia. by rewrite bool_decide_eq_true_2 by by eexists.
    + destruct H as [_ Ha]. rewrite Ha, bool_decide_eq_true_2 by done. by rewrite bool_decide_eq_false_2 by (intros [? ?]; done).
  - exists m. split; [|done]. destruct (search key 0 m) as [[i v]|].
    + destruct H as (_ & _ & Ha). rewrite Ha. by rewrite decide_True by by eexists.
    + destruct H as [_ Ha]. rewrite Ha. by rewrite decide_False by (intros [? ?]; done).
  - exists m. split; [|done]. destruct (search key 0 m) as [[i v]|].
    + destruct H as (_ & _ & Ha). by rewrite Ha.
    + destruct H as [_ Ha]. by rewrite Ha.
  - destruct (search key 0 m) as [[i v]|].
    + destruct H as (_ & _ & Ha). rewrite Ha. exists m. by rewrite bool_decide_eq_true_2 by by eexists.
    + destruct H as [Hk Ha]. rewrite Ha. exists (m ++ [(key, t)]). rewrite bool_decide_eq_false_2 by (intros [? ?]; done).
      split; [done|]. split; [|by apply abs_snoc]. apply unique_app. split; [done|]. cbn. split; [set_solver|]. apply NoDup_singleton.
  - destruct (assign_spec d key t m Hu) as [Hu' Ha]. by exists (assign d key t m).
  - destruct (erase_key_spec key m Hu) as (m' & Hr & Hu' & Ha). exists m'. by rewrite Hr.
Qed.

(** C22 (refinement): [ordered_map] is a map: any sequence of lookups, insertions, assignments and erasures that starts
    from an empty one is defined and gives the results of the same operations on a finite map, whose
    members it holds at the end, each key once. *)
Theorem ordered_map_refines default_value os :
  ∃ m, run_ops default_value os [] = Def ((spec_ops os ∅).1, m) ∧ unique m ∧ abs m = (spec_ops os ∅).2.
Proof.
  assert (∀ m, unique m → ∃ m', run_ops default_value os m = Def ((spec_ops os (abs m)).1, m') ∧ unique m' ∧ abs m' = (spec_ops os (abs m)).2) as H.
  2: { apply (H []). apply NoDup_nil_2. }
  induction os as [|o os IH]; intros m Hm; [by exists m|]. cbn [run_ops spec_ops].
  destruct (run_op_refines default_value o m Hm) as (m1 & Hr & Hu1 & Ha1). rewrite Hr. cbn [mbind cres_bind].
  destruct (IH m1 Hu1) as (m2 & Hr2 & Hu2 & Ha2). rewrite Hr2. cbn [mbind cres_bind]. exists m2.
  destruct (spec_op o (abs m)) as [a s]. cbn [fst snd] in *. subst s.
  by destruct (spec_ops os (abs m1)).
Qed.

(** Erasing a range of an [ordered_map] removes the members of the range and keeps the others in the order
    of their insertion; but an empty range in front of a member, which should leave the map alone, destroys that member
    and makes it anew from itself, which is undefined. *)
Lemma erase_range_spec first last m :
  (first ≤ last ≤ length m)%nat →
  erase_range first last m =
    if bool_decide (first < last)%nat then Def (first, take first m ++ drop last m)
    else if bool_decide (first < length m)%nat then UB UB_indeterminate else Def (first, m).
Proof.
  intros Hl. unfold erase_range. case_bool_decide as Hlt.
  - destruct (shift_erases (last - first) first m) as (m' & Hs & Ht); [lia..|]. rewrite Hs. cbn [mbind cres_bind].
    rewrite Ht. by replace (first + (last - first))%nat with last by lia.
  - replace (last - first)%nat with 0%nat by lia. destruct (length m) as [|n] eqn:E; cbn [shift].
    + rewrite bool_decide_eq_true_2 by lia. cbn [mbind cres_bind]. rewrite bool_decide_eq_false_2 by lia.
      by destruct m.
    + rewrite E. case_bool_decide as He.
      * cbn [mbind cres_bind]. rewrite bool_decide_eq_false_2 by lia. by rewrite Nat.sub_0_r, firstn_all.
      * unfold reconstruct. rewrite !bool_decide_eq_true_2 by lia. done.
Qed.
End ordered_map.

(** ** Examples *)

Lemma erase_range_spec_witness :
  (1 ≤ 2 ≤ length [(b#"b", 1); (b#"a", 2); (b#"c", 3)])%nat ∧
  erase_range (λ _, 0) 1 2 [(b#"b", 1); (b#"a", 2); (b#"c", 3)] = Def (1%nat, [(b#"b", 1); (b#"c", 3)]).
Proof. split; [cbn; lia|]. rewrite (erase_range_spec (λ _, 0) 1 2) by (cbn; lia). reflexivity. Defined.

(** A range with a key twice makes a map with a key twice: the constructors do not look. *)
Example constructed_twice :
  let m := construct_range [(b#"a", 1); (b#"a", 2)] in ¬ unique m ∧ at_key b#"a" m = DOk 1 ∧
  erase_key (λ _, 0) b#"a" m = Def (1, [(b#"a", 2)]).
Proof.
  cbv zeta. split; [|split; reflexivity]. unfold unique, construct_range. cbn. intros H. apply NoDup_cons in H as [H _]. set_solver.
Qed.
