(* ===== verification/JsonLexer.v ===== *)
(** * JsonLexer: tokens of the JSON library
      ([include/nlohmann/json.hpp], class [lexer])

    The lexer reads its input one character at a time; [get] at the end of the input
    gives [EOF] and reads nothing.  A scan function is given the input that is left
    and returns the token and the input after it: reading a character and putting it
    back ([unget]) is looking at the head of the list.  The positions, the text that is
    collected for messages and the flag of [unget] are in [JsonLexerState], which refines
    these functions. *)

From S2P Require Import Prelude CString Utf8.

(** [token_type], with the value the lexer holds for it. *)
Inductive token :=
| literal_true
| literal_false
| literal_null
| value_string (s : bytes)
| value_unsigned (z : Z)
| value_integer (z : Z)
| value_float (literal : bytes)
| begin_array
| begin_object
| end_array
| end_object
| name_separator
| value_separator
| end_of_input.

#[export] Instance token_eq_dec : EqDecision token.
Proof. solve_decision. Defined.

(** [token_type::parse_error] carries [error_message]. *)
Inductive lexed :=
| Token (t : token) (rest : bytes)
| ParseError (error_message : bytes).

(** ** Strings *)

Definition hex_digit (c : ascii) : option Z :=
  let current := byteZ c in
  if (48 <=? current) && (current <=? 57) then Some (current - 0x30)
  else if (65 <=? current) && (current <=? 70) then Some (current - 0x37)
  else if (97 <=? current) && (current <=? 102) then Some (current - 0x57)
  else None.

(** [get_codepoint]: [None] for [-1]. *)
Fixpoint get_codepoint_from (factors : list Z) (codepoint : Z) (s : bytes) : option (Z * bytes) :=
  match factors with
  | [] => Some (codepoint, s)
  | factor :: factors =>
      match s with
      | [] => None
      | c :: s =>
          match hex_digit c with
          | Some d => get_codepoint_from factors (codepoint + Z.shiftl d factor) s
          | None => None
          end
      end
  end.
Definition get_codepoint (s : bytes) : option (Z * bytes) := get_codepoint_from [12; 8; 4; 0] 0 s.

Inductive string_step :=
| SMore (added rest : bytes)
| SEnd (rest : bytes)
| SError (error_message : bytes).

Definition hex_message : bytes := b#"invalid string: '\u' must be followed by 4 hex digits".
Definition high_message : bytes :=
  b#"invalid string: surrogate U+D800..U+DBFF must be followed by U+DC00..U+DFFF".
Definition low_message : bytes :=
  b#"invalid string: surrogate U+DC00..U+DFFF must follow U+D800..U+DBFF".
Definition utf8_message : bytes := b#"invalid string: ill-formed UTF-8 byte".

(** The code point of a surrogate pair, in 32-bit arithmetic. *)
Definition surrogate_pair (codepoint1 codepoint2 : Z) : Z :=
  wrap 32 (wrap 32 (Z.shiftl codepoint1 10) + codepoint2 - 0x35FDC00).

(** After [\u]. *)
Definition scan_unicode (s : bytes) : string_step :=
  match get_codepoint s with
  | None => SError hex_message
  | Some (codepoint1, s) =>
      if (0xD800 <=? codepoint1) && (codepoint1 <=? 0xDBFF) then
        match s with
        | c :: d :: s =>
            if bool_decide (c = "\"%char) && bool_decide (d = "u"%char) then
              match get_codepoint s with
              | None => SError hex_message
              | Some (codepoint2, s) =>
                  if (0xDC00 <=? codepoint2) && (codepoint2 <=? 0xDFFF)
                  then SMore (utf8_encode (surrogate_pair codepoint1 codepoint2)) s
                  else SError high_message
              end
            else SError high_message
        | _ => SError high_message
        end
      else if (0xDC00 <=? codepoint1) && (codepoint1 <=? 0xDFFF) then SError low_message
      else SMore (utf8_encode codepoint1) s
  end.

Definition BACKSLASH : ascii := "\".

(** After a backslash. *)
Definition scan_escape (s : bytes) : string_step :=
  match s with
  | [] => SError b#"invalid string: forbidden character after backslash"
  | c :: s =>
      if bool_decide (c = QUOTE) then SMore [QUOTE] s
      else if bool_decide (c = BACKSLASH) then SMore [BACKSLASH] s
      else if bool_decide (c = "/"%char) then SMore ["/"%char] s
      else if bool_decide (c = "b"%char) then SMore ["008"%char] s
      else if bool_decide (c = "f"%char) then SMore ["012"%char] s
      else if bool_decide (c = "n"%char) then SMore ["010"%char] s
      else if bool_decide (c = "r"%char) then SMore ["013"%char] s
      else if bool_decide (c = "t"%char) then SMore ["009"%char] s
      else if bool_decide (c = "u"%char) then scan_unicode s
      else SError b#"invalid string: forbidden character after backslash"
  end.

(** The names of the control characters in the messages that reject them. *)
Definition control_names : list string :=
  ["NUL"; "SOH"; "STX"; "ETX"; "EOT"; "ENQ"; "ACK"; "BEL"; "BS"; "HT"; "LF"; "VT"; "FF"; "CR"; "SO"; "SI";
   "DLE"; "DC1"; "DC2"; "DC3"; "DC4"; "NAK"; "SYN"; "ETB"; "CAN"; "EM"; "SUB"; "ESC"; "FS"; "GS"; "RS"; "US"]%string.
Definition control_short (z : Z) : string :=
  match z with 8 => " or \b" | 9 => " or \t" | 10 => " or \n" | 12 => " or \f" | 13 => " or \r" | _ => "" end.
Definition upper_hex (z : Z) : ascii := if z <? 10 then Zbyte (48 + z) else Zbyte (55 + z).
Definition control_message (z : Z) : bytes :=
  let code := [upper_hex (z / 16); upper_hex (z mod 16)] in
  b#"invalid string: control character U+00" ++ code ++ b#" (" ++
  str (nth (Z.to_nat z) control_names "") ++ b#") must be escaped to \u00" ++ code ++ str (control_short z).

(** One round of the loop of [scan_string]. *)
Definition scan_string_char (s : bytes) : string_step :=
  match s with
  | [] => SError b#"invalid string: missing closing quote"
  | c :: s =>
      if bool_decide (c = QUOTE) then SEnd s
      else if bool_decide (c = BACKSLASH) then scan_escape s
      else if byteZ c <? 0x20 then SError (control_message (byteZ c))
      else match string_ranges (byteZ c) with
           | Some ranges =>
               match next_byte_in_range ranges s with
               | Some (t, s) => SMore (c :: t) s
               | None => SError utf8_message
               end
           | None => SError utf8_message
           end
  end.

(** [scan_string] after the opening quote; [None] when the fuel ends first. *)
Fixpoint scan_string_loop (fuel : nat) (token_buffer s : bytes) : option lexed :=
  match fuel with
  | O => None
  | S f =>
      match scan_string_char s with
      | SMore added s => scan_string_loop f (token_buffer ++ added) s
      | SEnd s => Some (Token (value_string token_buffer) s)
      | SError m => Some (ParseError m)
      end
  end.
Definition scan_string (s : bytes) : option lexed := scan_string_loop (S (length s)) [] s.

(** ** Numbers *)

(** The labels of [scan_number], without the final one. *)
Inductive number_state := NMinus | NZero | NAny1 | NDecimal1 | NDecimal2 | NExponent | NSign | NAny2.

Inductive number_type := NTUnsigned | NTInteger | NTFloat.

(** The type after reaching a label. *)
Definition number_type_at (st : number_state) (ty : number_type) : number_type :=
  match st with NMinus => NTInteger | NDecimal1 | NExponent => NTFloat | _ => ty end.

(** The transition on the next character: a label, the end, or an error. *)
Inductive number_next := NGoto (st : number_state) | NDone | NError (error_message : bytes).

Definition is_e (c : ascii) : bool := bool_decide (c = "e"%char) || bool_decide (c = "E"%char).
Definition digit19 (c : ascii) : bool := (49 <=? byteZ c) && (byteZ c <=? 57).

Definition scan_number_minus (c : option ascii) : number_next :=
  match c with
  | Some c => if bool_decide (c = "0"%char) then NGoto NZero else if digit19 c then NGoto NAny1
              else NError b#"invalid number; expected digit after '-'"
  | None => NError b#"invalid number; expected digit after '-'"
  end.

Definition scan_number_zero (c : option ascii) : number_next :=
  match c with
  | Some c => if bool_decide (c = "."%char) then NGoto NDecimal1
              else if is_e c then NGoto NExponent else NDone
  | None => NDone
  end.

Definition scan_number_any1 (c : option ascii) : number_next :=
  match c with
  | Some c => if isdigit c then NGoto NAny1
              else if bool_decide (c = "."%char) then NGoto NDecimal1
              else if is_e c then NGoto NExponent else NDone
  | None => NDone
  end.

Definition scan_number_decimal1 (c : option ascii) : number_next :=
  match c with
  | Some c => if isdigit c then NGoto NDecimal2 else NError b#"invalid number; expected digit after '.'"
  | None => NError b#"invalid number; expected digit after '.'"
  end.

Definition scan_number_decimal2 (c : option ascii) : number_next :=
  match c with
  | Some c => if isdigit c then NGoto NDecimal2 else if is_e c then NGoto NExponent else NDone
  | None => NDone
  end.

Definition scan_number_exponent (c : option ascii) : number_next :=
  match c with
  | Some c => if bool_decide (c = "+"%char) || bool_decide (c = "-"%char) then NGoto NSign
              else if isdigit c then NGoto NAny2
              else NError b#"invalid number; expected '+', '-', or digit after exponent"
  | None => NError b#"invalid number; expected '+', '-', or digit after exponent"
  end.

Definition scan_number_sign (c : option ascii) : number_next :=
  match c with
  | Some c => if isdigit c then NGoto NAny2 else NError b#"invalid number; expected digit after exponent sign"
  | None => NError b#"invalid number; expected digit after exponent sign"
  end.

Definition scan_number_any2 (c : option ascii) : number_next :=
  match c with
  | Some c => if isdigit c then NGoto NAny2 else NDone
  | None => NDone
  end.

(** The [switch] at a label, on the next character or at the end of the input. *)
Definition number_step (st : number_state) : option ascii → number_next :=
  match st with
  | NMinus => scan_number_minus
  | NZero => scan_number_zero
  | NAny1 => scan_number_any1
  | NDecimal1 => scan_number_decimal1
  | NDecimal2 => scan_number_decimal2
  | NExponent => scan_number_exponent
  | NSign => scan_number_sign
  | NAny2 => scan_number_any2
  end.

(** From a label on: the characters read, the type and what is left; the character
    that ends the number is put back. *)
Fixpoint number_loop (st : number_state) (ty : number_type) (token_buffer s : bytes)
    : (bytes * number_type * bytes) + bytes :=
  let ty := number_type_at st ty in
  match s with
  | [] => match number_step st None with
          | NError m => inr m
          | _ => inl (token_buffer, ty, [])
          end
  | c :: s' => match number_step st (Some c) with
               | NGoto st => number_loop st ty (token_buffer ++ [c]) s'
               | NDone => inl (token_buffer, ty, s)
               | NError m => inr m
               end
  end.

(** The value of a decimal integer with an optional minus sign. *)
Definition integer_value (token_buffer : bytes) : Z :=
  match token_buffer with
  | c :: ds => if bool_decide (c = "-"%char) then - digits_val ds else digits_val token_buffer
  | [] => 0
  end.

(** [strtoull] and [strtoll] set [errno] when the value is out of range; the number is
    then read by [strtod]. *)
Definition number_token (token_buffer : bytes) (ty : number_type) : token :=
  let x := integer_value token_buffer in
  match ty with
  | NTUnsigned => if x <? 2 ^ 64 then value_unsigned x else value_float token_buffer
  | NTInteger => if (- 2 ^ 63 <=? x) && (x <? 2 ^ 63) then value_integer x else value_float token_buffer
  | NTFloat => value_float token_buffer
  end.

(** [scan_number], [c] being the character that made [scan] call it. *)
Definition scan_number (c : ascii) (s : bytes) : lexed :=
  let st := if bool_decide (c = "-"%char) then NMinus
            else if bool_decide (c = "0"%char) then NZero else NAny1 in
  match number_loop st NTUnsigned [c] s with
  | inl (token_buffer, ty, s) => Token (number_token token_buffer ty) s
  | inr m => ParseError m
  end.

(** ** Comments, literals, white space *)

(** A single-line comment ends with a line, with the input or at a null byte. *)
Fixpoint line_comment (s : bytes) : bytes :=
  match s with
  | [] => []
  | c :: s => if bool_decide (c = LF) || bool_decide (c = "013"%char) || bool_decide (c = NUL)
              then s else line_comment s
  end.

(** A multi-line comment: [None] when it is not closed. *)
Fixpoint block_comment (s : bytes) : option bytes :=
  match s with
  | [] => None
  | c :: s =>
      if bool_decide (c = NUL) then None
      else if bool_decide (c = "*"%char) then
        match s with
        | d :: s' => if bool_decide (d = "/"%char) then Some s' else block_comment s
        | [] => block_comment s
        end
      else block_comment s
  end.

(** [scan_comment] after the first slash: the input after the comment. *)
Definition scan_comment (s : bytes) : bytes + bytes :=
  match s with
  | c :: s =>
      if bool_decide (c = "/"%char) then inl (line_comment s)
      else if bool_decide (c = "*"%char) then
        match block_comment s with
        | Some s => inl s
        | None => inr b#"invalid comment; missing closing '*/'"
        end
      else inr b#"invalid comment; expecting '/' or '*' after '/'"
  | [] => inr b#"invalid comment; expecting '/' or '*' after '/'"
  end.

Fixpoint scan_literal (literal_text : bytes) (t : token) (s : bytes) : lexed :=
  match literal_text with
  | [] => Token t s
  | l :: literal_text =>
      match s with
      | c :: s => if bool_decide (c = l) then scan_literal literal_text t s
                  else ParseError b#"invalid literal"
      | [] => ParseError b#"invalid literal"
      end
  end.

Definition json_ws (c : ascii) : bool :=
  bool_decide (c = SPC) || bool_decide (c = "009"%char) || bool_decide (c = LF)
  || bool_decide (c = "013"%char).

(** The input from the first character that is not white space on. *)
Fixpoint skip_whitespace (s : bytes) : bytes :=
  match s with
  | c :: s' => if json_ws c then skip_whitespace s' else s
  | [] => []
  end.

(** [skip_bom]: [None] for an incomplete byte order mark. *)
Definition skip_bom (s : bytes) : option bytes :=
  match s with
  | c :: s' =>
      if byteZ c =? 0xEF then
        match s' with
        | d :: e :: s'' => if (byteZ d =? 0xBB) && (byteZ e =? 0xBF) then Some s'' else None
        | _ => None
        end
      else Some s
  | [] => Some s
  end.

(** ** [scan] *)

(** The [switch] on the first character of a token. *)
Definition scan_token (s : bytes) : option lexed :=
  match s with
  | [] => Some (Token end_of_input [])
  | c :: s' =>
      if bool_decide (c = "["%char) then Some (Token begin_array s')
      else if bool_decide (c = "]"%char) then Some (Token end_array s')
      else if bool_decide (c = "{"%char) then Some (Token begin_object s')
      else if bool_decide (c = "}"%char) then Some (Token end_object s')
      else if bool_decide (c = ":"%char) then Some (Token name_separator s')
      else if bool_decide (c = ","%char) then Some (Token value_separator s')
      else if bool_decide (c = "t"%char) then Some (scan_literal b#"rue" literal_true s')
      else if bool_decide (c = "f"%char) then Some (scan_literal b#"alse" literal_false s')
      else if bool_decide (c = "n"%char) then Some (scan_literal b#"ull" literal_null s')
      else if bool_decide (c = QUOTE) then scan_string s'
      else if bool_decide (c = "-"%char) || isdigit c then Some (scan_number c s')
      else if bool_decide (c = NUL) then Some (Token end_of_input s')
      else Some (ParseError b#"invalid literal")
  end.

(** [while (ignore_comments && current == '/')]. *)
Fixpoint skip_comments (fuel : nat) (s : bytes) : option (bytes + bytes) :=
  match fuel with
  | O => None
  | S f =>
      match s with
      | c :: s' =>
          if bool_decide (c = "/"%char) then
            match scan_comment s' with
            | inl s => skip_comments f (skip_whitespace s)
            | inr m => Some (inr m)
            end
          else Some (inl s)
      | [] => Some (inl s)
      end
  end.

(** [scan]; [first] when no character has been read yet. *)
Definition scan (ignore_comments first : bool) (s : bytes) : option lexed :=
  match (if first then skip_bom s else Some s) with
  | None => Some (ParseError b#"invalid BOM; must be 0xEF 0xBB 0xBF if given")
  | Some s =>
      let s := skip_whitespace s in
      if ignore_comments then
        match skip_comments (S (length s)) s with
        | Some (inl s) => scan_token s
        | Some (inr m) => Some (ParseError m)
        | None => None
        end
      else scan_token s
  end.

(** ** Code points *)

Lemma hex_digit_range c d : hex_digit c = Some d → 0 ≤ d < 16.
Proof. unfold hex_digit. repeat case_match; try done; intros [= <-]; split_bools; lia. Qed.

Lemma get_codepoint_range s z rest : get_codepoint s = Some (z, rest) → 0 ≤ z < 65536.
Proof.
  unfold get_codepoint. cbn [get_codepoint_from].
  destruct s as [|c1 s]; [done|]. destruct (hex_digit c1) as [d1|] eqn:E1; [|done].
  destruct s as [|c2 s]; [done|]. destruct (hex_digit c2) as [d2|] eqn:E2; [|done].
  destruct s as [|c3 s]; [done|]. destruct (hex_digit c3) as [d3|] eqn:E3; [|done].
  destruct s as [|c4 s]; [done|]. destruct (hex_digit c4) as [d4|] eqn:E4; [|done].
  intros [= <- _]. apply hex_digit_range in E1, E2, E3, E4. rewrite !Z.shiftl_mul_pow2 by lia. lia.
Qed.

(** ** Every scan ends *)

Lemma get_codepoint_from_length fs cp s z r :
  get_codepoint_from fs cp s = Some (z, r) → (length r + length fs = length s)%nat.
Proof.
  revert cp s. induction fs as [|f fs IH]; intros cp s; cbn; [intros [= <- <-]; lia|].
  destruct s as [|c s]; [done|]. destruct (hex_digit c); [|done].
  intros H. apply IH in H. cbn. lia.
Qed.

Lemma scan_unicode_length s added rest :
  scan_unicode s = SMore added rest → (length rest < length s)%nat.
Proof.
  unfold scan_unicode, get_codepoint. destruct (get_codepoint_from _ _ s) as [[z r]|] eqn:E; [|done].
  apply get_codepoint_from_length in E. cbn in E. destruct (_ && _).
  - destruct r as [|c [|d r]]; [done..|]. destruct (_ && _); [|done].
    destruct (get_codepoint_from _ _ r) as [[z' r']|] eqn:E'; [|done].
    apply get_codepoint_from_length in E'. cbn in *. destruct (_ && _); [|done]. intros [= <- <-]. lia.
  - destruct (_ && _); [done|]. intros [= <- <-]. lia.
Qed.

Lemma scan_escape_length s added rest :
  scan_escape s = SMore added rest → (length rest < length s)%nat.
Proof.
  destruct s as [|c s]; [done|]. cbn [scan_escape length]. intros H.
  repeat (case_bool_decide; [injection H as <- <-; lia|]).
  case_bool_decide; [|done]. apply scan_unicode_length in H. lia.
Qed.

Lemma scan_string_char_length s added rest :
  scan_string_char s = SMore added rest → (length rest < length s)%nat.
Proof.
  destruct s as [|c s]; [done|]. cbn [scan_string_char length]. intros H.
  case_bool_decide; [done|]. case_bool_decide; [apply scan_escape_length in H; lia|].
  destruct (byteZ c <? 0x20); [done|]. destruct (string_ranges (byteZ c)) as [ranges|]; [|done].
  destruct (next_byte_in_range ranges s) as [[t r]|] eqn:E; [|done]. injection H as <- <-.
  apply next_byte_in_range_parts in E as (-> & _ & _). rewrite length_app. lia.
Qed.

Lemma scan_string_char_end s rest : scan_string_char s = SEnd rest → (length rest < length s)%nat.
Proof.
  destruct s as [|c s]; [done|]. cbn [scan_string_char length]. intros H.
  case_bool_decide; [injection H as <-; lia|]. case_bool_decide.
  - exfalso. revert H. unfold scan_escape, scan_unicode.
    destruct s as [|d s]; [done|]. repeat (case_bool_decide; [done|]). case_bool_decide; [|done].
    destruct (get_codepoint s) as [[z [|? [|]]]|]; try done; repeat case_match; done.
  - destruct (byteZ c <? 0x20); [done|]. destruct (string_ranges (byteZ c)); [|done].
    by destruct (next_byte_in_range _ _) as [[]|].
Qed.

Lemma scan_string_loop_total fuel buf s :
  (length s < fuel)%nat → ∃ r, scan_string_loop fuel buf s = Some r ∧
    ∀ t rest, r = Token t rest → (length rest < length s)%nat.
Proof.
  revert buf s. induction fuel as [|fuel IH]; intros buf s Hf; [lia|]. cbn.
  destruct (scan_string_char s) as [added rest|rest|m] eqn:E.
  - apply scan_string_char_length in E. destruct (IH (buf ++ added) rest) as (r & -> & Hr); [lia|].
    exists r. split; [done|]. intros t rest' ->. specialize (Hr t rest' eq_refl). lia.
  - apply scan_string_char_end in E. eexists. split; [done|]. by intros ? ? [= <- <-].
  - eexists. split; [done|]. done.
Qed.

Lemma skip_whitespace_length s : (length (skip_whitespace s) ≤ length s)%nat.
Proof. induction s as [|c s IH]; cbn; [lia|]. destruct (json_ws c); cbn; lia. Qed.

Lemma line_comment_length s : (length (line_comment s) ≤ length s)%nat.
Proof. induction s as [|c s IH]; cbn; [lia|]. destruct (_ || _); cbn; lia. Qed.

Lemma block_comment_length s r : block_comment s = Some r → (length r ≤ length s)%nat.
Proof.
  induction s as [|c s IH]; cbn; [done|]. case_bool_decide; [done|].
  case_bool_decide; [|intros H'%IH; lia].
  destruct s as [|d s']; [done|]. case_bool_decide; [intros [= <-]; cbn; lia|].
  intros H'%IH. lia.
Qed.

Lemma scan_comment_length s r : scan_comment s = inl r → (length r ≤ length s)%nat.
Proof.
  destruct s as [|c s]; cbn; [done|]. case_bool_decide.
  - intros [= <-]. pose proof (line_comment_length s). lia.
  - case_bool_decide; [|done]. destruct (block_comment s) eqn:E; [|done]. intros [= <-].
    apply block_comment_length in E. lia.
Qed.

Lemma skip_comments_total fuel s :
  (length s < fuel)%nat → ∃ r, skip_comments fuel s = Some r ∧
    ∀ s', r = inl s' → (length s' ≤ length s)%nat.
Proof.
  revert s. induction fuel as [|fuel IH]; intros s Hf; [lia|]. cbn.
  destruct s as [|c s]; [eexists; split; [done|]; by intros ? [= <-]|].
  case_bool_decide; [|eexists; split; [done|]; by intros ? [= <-]].
  destruct (scan_comment s) as [s1|m] eqn:E; [|eexists; by split].
  apply scan_comment_length in E. pose proof (skip_whitespace_length s1). cbn in Hf.
  destruct (IH (skip_whitespace s1)) as (r & -> & Hr); [lia|].
  exists r. split; [done|]. intros s' ->. specialize (Hr s' eq_refl). cbn. lia.
Qed.

Lemma scan_literal_length text t s t' rest :
  scan_literal text t s = Token t' rest → (length rest ≤ length s)%nat.
Proof.
  revert s. induction text as [|l text IH]; intros s; cbn; [by intros [= <- <-]|].
  destruct s as [|c s]; [done|]. case_bool_decide; [|done]. intros H'%IH. cbn. lia.
Qed.

Lemma number_loop_length st ty buf s buf' ty' rest :
  number_loop st ty buf s = inl (buf', ty', rest) → (length rest ≤ length s)%nat.
Proof.
  revert st ty buf. induction s as [|c s IH]; intros st ty buf; cbn [number_loop].
  - destruct (number_step st None); [intros [= <- <- <-]; lia..|done].
  - destruct (number_step st (Some c)); [intros H'%IH; cbn; lia|intros [= <- <- <-]; lia|done].
Qed.

(** A scan from [s] leaves at most [s], and less unless it met the end of the input. *)
Definition consumes (s : bytes) (r : lexed) : Prop :=
  match r with
  | Token t rest =>
      (length rest ≤ length s)%nat ∧ (t ≠ end_of_input → (length rest < length s)%nat)
  | ParseError _ => True
  end.

Lemma consumes_less s t rest : (length rest < length s)%nat → consumes s (Token t rest).
Proof. cbn. split; [lia|done]. Qed.

Lemma consumes_le s s' r : (length s ≤ length s')%nat → consumes s r → consumes s' r.
Proof. destruct r as [t rest|m]; [|done]. cbn. intros H [H1 H2]. split; [lia|]. intros Ht. specialize (H2 Ht). lia. Qed.

Lemma scan_literal_consumes c text t s : consumes (c :: s) (scan_literal text t s).
Proof.
  destruct (scan_literal text t s) as [t' rest|m] eqn:E; [|done].
  apply scan_literal_length in E. apply consumes_less. cbn. lia.
Qed.

Lemma scan_number_consumes c s : consumes (c :: s) (scan_number c s).
Proof.
  unfold scan_number. destruct (number_loop _ _ _ s) as [[[buf ty] r]|m] eqn:E; [|done].
  apply number_loop_length in E. apply consumes_less. cbn. lia.
Qed.

Lemma scan_token_total s : ∃ r, scan_token s = Some r ∧ consumes s r.
Proof.
  destruct s as [|c s]; [by eexists|]. cbn [scan_token].
  do 6 (case_bool_decide; [eexists; split; [done|]; apply consumes_less; cbn; lia|]).
  do 3 (case_bool_decide; [eexists; split; [done|]; apply scan_literal_consumes|]).
  case_bool_decide.
  - destruct (scan_string_loop_total (S (length s)) [] s) as (r & Hr & Hl); [lia|].
    exists r. split; [done|]. destruct r as [t rest|m]; [|done].
    apply consumes_less. specialize (Hl t rest eq_refl). cbn. lia.
  - destruct (_ || _); [eexists; split; [done|]; apply scan_number_consumes|].
    case_bool_decide; (eexists; split; [done|]); [|done]. apply consumes_less. cbn. lia.
Qed.

Lemma scan_total_length ignore_comments first s :
  ∃ r, scan ignore_comments first s = Some r ∧ consumes s r.
Proof.
  unfold scan.
  assert (∀ s1, (if first then skip_bom s else Some s) = Some s1 → (length s1 ≤ length s)%nat) as Hbom.
  { intros s1. destruct first; [|by intros [= ->]]. unfold skip_bom.
    destruct s as [|c s]; [by intros [= <-]|]. destruct (_ =? _); [|by intros [= <-]].
    destruct s as [|d [|e s]]; [done..|]. destruct (_ && _); [|done]. intros [= <-]. cbn. lia. }
  destruct (if first then skip_bom s else Some s) as [s1|]; [|by eexists].
  specialize (Hbom s1 eq_refl). pose proof (skip_whitespace_length s1).
  destruct ignore_comments.
  - destruct (skip_comments_total (S (length (skip_whitespace s1))) (skip_whitespace s1))
      as (r & -> & Hr); [lia|]. destruct r as [s2|m]; [|by eexists].
    specialize (Hr s2 eq_refl). destruct (scan_token_total s2) as (r & -> & Hl).
    exists r. split; [done|]. eapply consumes_le; [|done]. lia.
  - destruct (scan_token_total (skip_whitespace s1)) as (r & -> & Hl).
    exists r. split; [done|]. eapply consumes_le; [|done]. lia.
Qed.
