(* ===== verification/JsonLexerState.v ===== *)
(** * JsonLexerState: the lexer with its state
      ([include/nlohmann/json.hpp], class [lexer])

    [JsonLexer] gives the tokens as functions of the input that is left.  Here is the
    class as it is written: the current character, [unget] with its flag, the position,
    the text of the token for messages and the buffer of its value, every assertion
    included.  It is proved to refine [JsonLexer], and its positions to be those of
    the text that was read. *)

From S2P Require Import Prelude CString Utf8 JsonLexer.

(** ** The state *)

Record lexer := mkLexer {
  ia : bytes;                          (** what the input adapter has left *)
  current : option ascii;              (** [None] for [eof()] *)
  next_unget : bool;
  chars_read_total : Z;
  chars_read_current_line : Z;
  lines_read : Z;
  token_string : bytes;
  token_buffer : bytes;
  error_message : bytes
}.

Definition init_lexer (input : bytes) : lexer := mkLexer input None false 0 0 0 [] [] [].

(** A member function returns, or an assertion fails; [LFuel] when the fuel of a loop ends. *)
Inductive lres (A : Type) := LOk (a : A) (l : lexer) | LAssert | LFuel.
Arguments LOk {A}. Arguments LAssert {A}. Arguments LFuel {A}.

Definition lact (A : Type) : Type := lexer → lres A.
#[export] Instance lact_ret : MRet lact := λ A a l, LOk a l.
#[export] Instance lact_bind : MBind lact :=
  λ A B f m l, match m l with LOk a l => f a l | LAssert => LAssert | LFuel => LFuel end.

Definition JSON_ASSERT (b : bool) : lact unit := λ l, if b then LOk tt l else LAssert.
Definition out_of_fuel {A} : lact A := λ l, LFuel.

(** A loop is run at most once for each character that is left and for the end. *)
Definition with_fuel {A} (m : nat → lact A) : lact A := λ l, m (length (ia l) + 2)%nat l.

Definition is_lf (c : option ascii) : bool := bool_decide (c = Some LF).

Definition get : lact (option ascii) := λ l,
  let '(c, ia) :=
    if next_unget l then (current l, ia l)
    else match ia l with [] => (None, []) | c :: s => (Some c, s) end in
  LOk c (mkLexer ia c false (chars_read_total l + 1)
    (if is_lf c then 0 else chars_read_current_line l + 1)
    (if is_lf c then lines_read l + 1 else lines_read l)
    (token_string l ++ option_list c) (token_buffer l) (error_message l)).

Definition unget : lact unit := λ l,
  let '(line, lines) :=
    if chars_read_current_line l =? 0
    then (0, if 0 <? lines_read l then lines_read l - 1 else lines_read l)
    else (chars_read_current_line l - 1, lines_read l) in
  let l' text := mkLexer (ia l) (current l) true (chars_read_total l - 1) line lines text (token_buffer l) (error_message l) in
  match current l, token_string l with
  | None, text => LOk tt (l' text)
  | Some _, [] => LAssert
  | Some _, text => LOk tt (l' (removelast text))
  end.

(** [add(current)] and [add(c)]. *)
Definition add (c : bytes) : lact unit := λ l,
  LOk tt (mkLexer (ia l) (current l) (next_unget l) (chars_read_total l) (chars_read_current_line l) (lines_read l)
    (token_string l) (token_buffer l ++ c) (error_message l)).

(** [reset()]; [eof()] as a character is the byte 255. *)
Definition reset : lact unit := λ l,
  LOk tt (mkLexer (ia l) (current l) (next_unget l) (chars_read_total l) (chars_read_current_line l) (lines_read l)
    [default "255"%char (current l)] [] (error_message l)).

(** [error_message = m; return token_type::parse_error]. *)
Definition fail_with {A} (m : bytes) (a : A) : lact A := λ l,
  LOk a (mkLexer (ia l) (current l) (next_unget l) (chars_read_total l) (chars_read_current_line l) (lines_read l)
    (token_string l) (token_buffer l) m).

Definition get_current : lact (option ascii) := λ l, LOk (current l) l.
Definition get_buffer : lact bytes := λ l, LOk (token_buffer l) l.

(** ** Strings *)

Definition assert_current (c : ascii) : lact unit := c' ← get_current; JSON_ASSERT (bool_decide (c' = Some c)).

(** [get_codepoint()]. *)
Fixpoint codepoint_loop (factors : list Z) (codepoint : Z) : lact Z :=
  match factors with
  | [] => JSON_ASSERT ((0 <=? codepoint) && (codepoint <=? 0xFFFF));; mret codepoint
  | factor :: factors =>
      c ← get;
      match c ≫= hex_digit with
      | Some d => codepoint_loop factors (codepoint + Z.shiftl d factor)
      | None => mret (-1)
      end
  end.
Definition get_codepoint : lact Z := assert_current "u";; codepoint_loop [12; 8; 4; 0] 0.

(** [next_byte_in_range(ranges)]. *)
Fixpoint ranges_loop (ranges : list (Z * Z)) : lact bool :=
  match ranges with
  | [] => mret true
  | (lo, hi) :: ranges =>
      c ← get;
      match c with
      | Some c => if (lo <=? byteZ c) && (byteZ c <=? hi) then add [c];; ranges_loop ranges
                  else fail_with utf8_message false
      | None => fail_with utf8_message false
      end
  end.
Definition next_byte_in_range (ranges : list (Z * Z)) : lact bool :=
  JSON_ASSERT ((1 <=? blen ranges) && (blen ranges <=? 3));;
  c ← get_current; add (option_list c);; ranges_loop ranges.

(** The rest of an escape with a code point. *)
Definition add_codepoint (codepoint : Z) : lact bool :=
  JSON_ASSERT ((0 <=? codepoint) && (codepoint <=? 0x10FFFF));; add (utf8_encode codepoint);; mret true.

(** [case 'u'] of an escape: whether the loop goes on. *)
Definition unicode_escape : lact bool :=
  codepoint1 ← get_codepoint;
  if codepoint1 =? -1 then fail_with hex_message false
  else if (0xD800 <=? codepoint1) && (codepoint1 <=? 0xDBFF) then
    c ← get;
    (if bool_decide (c = Some "\"%char)
     then d ← get;
       if bool_decide (d = Some "u"%char) then
         codepoint2 ← get_codepoint;
         if codepoint2 =? -1 then fail_with hex_message false
         else if (0xDC00 <=? codepoint2) && (codepoint2 <=? 0xDFFF)
         then add_codepoint (surrogate_pair codepoint1 codepoint2)
         else fail_with high_message false
       else fail_with high_message false
     else fail_with high_message false)
  else if (0xDC00 <=? codepoint1) && (codepoint1 <=? 0xDFFF) then fail_with low_message false
  else add_codepoint codepoint1.

Definition forbidden_message : bytes := b#"invalid string: forbidden character after backslash".

(** The character that a simple escape stands for. *)
Definition simple_escape (c : ascii) : option ascii :=
  if bool_decide (c = QUOTE) then Some QUOTE
  else if bool_decide (c = BACKSLASH) then Some BACKSLASH
  else if bool_decide (c = "/"%char) then Some "/"%char
  else if bool_decide (c = "b"%char) then Some "008"%char
  else if bool_decide (c = "f"%char) then Some "012"%char
  else if bool_decide (c = "n"%char) then Some "010"%char
  else if bool_decide (c = "r"%char) then Some "013"%char
  else if bool_decide (c = "t"%char) then Some "009"%char
  else None.

Definition escape : lact bool :=
  c ← get;
  match c with
  | Some c =>
      match simple_escape c with
      | Some d => add [d];; mret true
      | None => if bool_decide (c = "u"%char) then unicode_escape else fail_with forbidden_message false
      end
  | None => fail_with forbidden_message false
  end.

(** [scan_string()]; [None] is [token_type::parse_error]. *)
Fixpoint string_loop (fuel : nat) : lact (option token) :=
  match fuel with
  | O => out_of_fuel
  | S fuel =>
      let go_on (m : lact bool) := b ← m; if b : bool then string_loop fuel else mret None in
      c ← get;
      match c with
      | None => fail_with b#"invalid string: missing closing quote" None
      | Some c =>
          if bool_decide (c = QUOTE) then b ← get_buffer; mret (Some (value_string b))
          else if bool_decide (c = BACKSLASH) then go_on escape
          else if byteZ c <? 0x20 then fail_with (control_message (byteZ c)) None
          else match string_ranges (byteZ c) with
               | Some [] => add [c];; string_loop fuel
               | Some ranges => go_on (next_byte_in_range ranges)
               | None => fail_with utf8_message None
               end
      end
  end.
Definition scan_string : lact (option token) := reset;; assert_current QUOTE;; with_fuel string_loop.

(** ** Numbers *)

(** The decimal point of the "C" locale, the one in force when [setlocale] is not called. *)
Definition decimal_point_char : ascii := ".".

(** A label: the type of the number, or [None] for an error. *)
Fixpoint number_loop (fuel : nat) (st : number_state) (ty : number_type) : lact (option number_type) :=
  match fuel with
  | O => out_of_fuel
  | S fuel =>
      let ty := number_type_at st ty in
      c ← get;
      match number_step st c with
      | NGoto st =>
          add (if bool_decide (c = Some "."%char) then [decimal_point_char] else option_list c);; number_loop fuel st ty
      | NDone => unget;; mret (Some ty)
      | NError m => fail_with m None
      end
  end.

Definition scan_number : lact (option token) :=
  reset;;
  c ← get_current;
  st ← (match c with
        | Some c =>
            if bool_decide (c = "-"%char) then mret NMinus
            else if bool_decide (c = "0"%char) then mret NZero
            else JSON_ASSERT (digit19 c);; mret NAny1
        | None => JSON_ASSERT false;; mret NAny1
        end : lact number_state);
  add (option_list c);;
  ty ← with_fuel (λ fuel, number_loop fuel st NTUnsigned);
  match ty with
  | Some ty => b ← get_buffer; mret (Some (number_token b ty))
  | None => mret None
  end.

(** ** Comments, literals, white space *)

Fixpoint line_comment (fuel : nat) : lact bool :=
  match fuel with
  | O => out_of_fuel
  | S fuel =>
      c ← get;
      match c with
      | None => mret true
      | Some c => if bool_decide (c = LF) || bool_decide (c = "013"%char) || bool_decide (c = NUL)
                  then mret true else line_comment fuel
      end
  end.

Definition unclosed_message : bytes := b#"invalid comment; missing closing '*/'".
Definition comment_message : bytes := b#"invalid comment; expecting '/' or '*' after '/'".

Fixpoint block_comment (fuel : nat) : lact bool :=
  match fuel with
  | O => out_of_fuel
  | S fuel =>
      c ← get;
      match c with
      | None => fail_with unclosed_message false
      | Some c =>
          if bool_decide (c = NUL) then fail_with unclosed_message false
          else if bool_decide (c = "*"%char) then
            d ← get;
            if bool_decide (d = Some "/"%char) then mret true else unget;; block_comment fuel
          else block_comment fuel
      end
  end.

Definition scan_comment : lact bool :=
  c ← get;
  if bool_decide (c = Some "/"%char) then with_fuel line_comment
  else if bool_decide (c = Some "*"%char) then with_fuel block_comment
  else fail_with comment_message false.

(** [scan_literal(literal_text, length, return_type)]. *)
Fixpoint literal_loop (text : bytes) (t : token) : lact (option token) :=
  match text with
  | [] => mret (Some t)
  | x :: text =>
      c ← get;
      if bool_decide (c = Some x) then literal_loop text t
      else fail_with b#"invalid literal" None
  end.
Definition scan_literal (literal_text : bytes) (t : token) : lact (option token) :=
  match literal_text with
  | x :: text => assert_current x;; literal_loop text t
  | [] => JSON_ASSERT false;; mret None
  end.

Fixpoint whitespace_loop (fuel : nat) : lact unit :=
  match fuel with
  | O => out_of_fuel
  | S fuel =>
      c ← get;
      match c with
      | Some c => if json_ws c then whitespace_loop fuel else mret tt
      | None => mret tt
      end
  end.
Definition skip_whitespace : lact unit := with_fuel whitespace_loop.

Definition is_byte (z : Z) (c : option ascii) : bool := match c with Some c => byteZ c =? z | None => false end.

Definition skip_bom : lact bool :=
  c ← get;
  if is_byte 0xEF c then
    d ← get;
    if is_byte 0xBB d then e ← get; mret (is_byte 0xBF e) else mret false
  else unget;; mret true.

(** ** [scan] *)

Definition bom_message : bytes := b#"invalid BOM; must be 0xEF 0xBB 0xBF if given".

(** The [switch] on the current character. *)
Definition scan_current : lact (option token) :=
  c ← get_current;
  match c with
  | None => mret (Some end_of_input)
  | Some c =>
      if bool_decide (c = "["%char) then mret (Some begin_array)
      else if bool_decide (c = "]"%char) then mret (Some end_array)
      else if bool_decide (c = "{"%char) then mret (Some begin_object)
      else if bool_decide (c = "}"%char) then mret (Some end_object)
      else if bool_decide (c = ":"%char) then mret (Some name_separator)
      else if bool_decide (c = ","%char) then mret (Some value_separator)
      else if bool_decide (c = "t"%char) then scan_literal b#"true" literal_true
      else if bool_decide (c = "f"%char) then scan_literal b#"false" literal_false
      else if bool_decide (c = "n"%char) then scan_literal b#"null" literal_null
      else if bool_decide (c = QUOTE) then scan_string
      else if bool_decide (c = "-"%char) || isdigit c then scan_number
      else if bool_decide (c = NUL) then mret (Some end_of_input)
      else fail_with b#"invalid literal" None
  end.

(** [while (ignore_comments && current == '/')]. *)
Fixpoint comments_loop (fuel : nat) : lact bool :=
  match fuel with
  | O => out_of_fuel
  | S fuel =>
      c ← get_current;
      if bool_decide (c = Some "/"%char) then
        b ← scan_comment;
        if b : bool then skip_whitespace;; comments_loop fuel else mret false
      else mret true
  end.

(** From "read next character and ignore whitespace" on. *)
Definition scan_after_bom (ignore_comments : bool) : lact (option token) :=
  skip_whitespace;;
  b ← (if ignore_comments then with_fuel comments_loop else mret true : lact bool);
  if b : bool then scan_current else mret None.

Definition scan (ignore_comments : bool) : lact (option token) := λ l0,
  (b ← (if chars_read_total l0 =? 0 then skip_bom else mret true : lact bool);
   if b : bool then scan_after_bom ignore_comments else fail_with bom_message None) l0.

(** ** Positions *)

(** Lines and columns of a text that has been read. *)
Definition next_position (pos : Z * Z) (c : ascii) : Z * Z :=
  if bool_decide (c = LF) then (pos.1 + 1, 0) else (pos.1, pos.2 + 1).
Definition position_of (p : bytes) : Z * Z := foldl next_position (0, 0) p.

Lemma position_snoc p c : position_of (p ++ [c]) = next_position (position_of p) c.
Proof. unfold position_of. by rewrite foldl_app. Qed.

Lemma position_nonneg p : 0 ≤ (position_of p).1 ∧ 0 ≤ (position_of p).2.
Proof.
  induction p as [|c p IH] using rev_ind; [done|]. rewrite position_snoc. unfold next_position.
  case_bool_decide; cbn; lia.
Qed.

(** The input that is left, with the character that was put back. *)
Definition left (l : lexer) : bytes := if next_unget l then option_list (current l) ++ ia l else ia l.

(** A line feed has been put back: the column of the line it ends is lost. *)
Definition ungot_newline (l : lexer) : bool := next_unget l && is_lf (current l).

(** The lexer has read [p] of the text [whole], and [e] times its end: its position is
    that of [p], and the text of the token is the end of it. *)
Record at_position (whole : bytes) (l : lexer) (p : bytes) (e : Z) : Prop := {
  at_whole : whole = p ++ left l;
  at_eof : 0 ≤ e;
  at_end : 0 < e → left l = [];
  at_total : chars_read_total l = blen p + e;
  at_lines : lines_read l = (position_of p).1;
  at_column : chars_read_current_line l = if ungot_newline l then 0 else (position_of p).2 + e;
  at_text : ∃ q, p = q ++ token_string l;
  at_unget : next_unget l = true → current l = None → ia l = []
}.

Definition reading (whole : bytes) (l : lexer) : Prop := ∃ p e, at_position whole l p e.

(** The same with the last character read at hand: [current] is the last of [p]. *)
Definition holding (whole : bytes) (l : lexer) : Prop :=
  ∃ p e, at_position whole l p e ∧ next_unget l = false ∧
    match current l with Some c => ∃ p', p = p' ++ [c] | None => left l = [] end.

Lemma holding_reading w l : holding w l → reading w l.
Proof. intros (p & e & H & _). by exists p, e. Qed.

(** What [get] does. *)
Lemma get_spec w l : reading w l →
  ∃ c l', get l = LOk c l' ∧ holding w l' ∧ current l' = c ∧ left l = option_list c ++ left l' ∧
    (c = None → left l' = []) ∧ token_buffer l' = token_buffer l.
Proof.
  intros (p & e & [Hw He Hend Ht Hl Hc [q Hq] Hu]).
  assert (∃ c s, (if next_unget l then (current l, ia l) else match ia l with [] => (None, []) | x :: s => (Some x, s) end) = (c, s)
    ∧ left l = option_list c ++ s ∧ (c = None → left l = [] ∧ s = []) ∧ (ungot_newline l = true → is_lf c = true)) as (c & s & Hcs & Hleft & Hnone & Hlf).
  { unfold left, ungot_newline in *. destruct (next_unget l).
    - exists (current l), (ia l). repeat split; try done; [|by apply Hu]. rewrite H. cbn. by apply Hu.
    - destruct (ia l) as [|x s]; [by exists None, []|by exists (Some x), s]. }
  unfold get. rewrite Hcs. eexists _, _. split; [done|]. cbn [current token_buffer].
  split; [|split; [done|]; split; [done|]; split; [|done]; intros Hn; by apply Hnone].
  exists (p ++ option_list c), (e + (match c with Some _ => 0 | None => 1 end)).
  assert (∀ x, c = Some x → e = 0) as He0.
  { intros x ->. destruct (Z.eq_dec e 0); [done|]. rewrite Hend in Hleft by lia. done. }
  split; [|split; [done|]; cbn [current]; destruct c as [x|]; [by exists p|by apply Hnone]].
  split; cbn [left next_unget ia chars_read_total lines_read chars_read_current_line token_string current].
  - rewrite Hw, Hleft. by rewrite app_assoc.
  - destruct c; lia.
  - unfold left. cbn. destruct c as [x|]; [rewrite (He0 x) by done; lia|]. intros _. by apply Hnone.
  - rewrite Ht. destruct c; cbn; rewrite ?blen_app, ?app_nil_r; cbn; unfold blen; cbn; lia.
  - destruct c as [x|]; cbn; [|by rewrite app_nil_r].
    rewrite position_snoc, Hl. unfold next_position, is_lf. repeat case_bool_decide; congruence || done.
  - unfold ungot_newline. cbn [next_unget andb]. destruct c as [x|]; cbn [option_list from_option is_lf]; change (option_list (Some x)) with [x] || idtac.
    + rewrite position_snoc. unfold next_position, is_lf. rewrite (He0 x) by done. repeat case_bool_decide; try congruence; cbn; [lia|].
      rewrite Hc, (He0 x) by done. destruct (ungot_newline l) eqn:E; [|lia]. specialize (Hlf eq_refl). unfold is_lf in Hlf.
      apply bool_decide_eq_true in Hlf. congruence.
    + rewrite app_nil_r. replace (is_lf None) with false by done. rewrite Hc.
      destruct (ungot_newline l) eqn:E; [by specialize (Hlf eq_refl)|lia].
  - exists q. by rewrite Hq, app_assoc.
  - done.
Qed.

(** What [unget] does after [get]; it does not fail. *)
Lemma unget_spec w l c l1 : reading w l → get l = LOk c l1 →
  ∃ l2, unget l1 = LOk tt l2 ∧ reading w l2 ∧ left l2 = left l ∧ token_buffer l2 = token_buffer l1.
Proof.
  intros (p & e & [Hw He Hend Ht Hl Hc [q Hq] Hu]) Hget. unfold get in Hget.
  assert (∃ s, (if next_unget l then (current l, ia l) else match ia l with [] => (None, []) | x :: s => (Some x, s) end) = (c, s)
    ∧ left l = option_list c ++ s ∧ (c = None → s = []) ∧ (ungot_newline l = true → is_lf c = true)) as (s & Hcs & Hleft & Hnone & Hlf).
  { unfold left, ungot_newline in *. destruct (next_unget l).
    - injection Hget as <- _. exists (ia l). repeat split; try done. by apply Hu.
    - destruct (ia l) as [|x s]; injection Hget as <- _; [by exists []|by exists s]. }
  rewrite Hcs in Hget. injection Hget as <-.
  pose proof (position_nonneg p) as [Hp1 Hp2]. unfold unget. cbn [current token_string chars_read_current_line lines_read chars_read_total ia token_buffer error_message].
  assert (∃ line lines, (if (if is_lf c then 0 else chars_read_current_line l + 1) =? 0
      then (0, if 0 <? (if is_lf c then lines_read l + 1 else lines_read l) then (if is_lf c then lines_read l + 1 else lines_read l) - 1 else (if is_lf c then lines_read l + 1 else lines_read l))
      else ((if is_lf c then 0 else chars_read_current_line l + 1) - 1, if is_lf c then lines_read l + 1 else lines_read l)) = (line, lines)
    ∧ lines = lines_read l ∧ line = if is_lf c then 0 else (position_of p).2 + e) as (line & lines & -> & Hlines & Hline).
  { destruct (is_lf c) eqn:E; cbn.
    - destruct (Z.ltb_spec 0 (lines_read l + 1)); [|lia]. eexists _, _. split; [done|]. lia.
    - destruct (ungot_newline l) eqn:E'; [by specialize (Hlf eq_refl)|]. rewrite Hc.
      destruct (Z.eqb_spec ((position_of p).2 + e + 1) 0); [lia|]. eexists _, _. split; [done|]. lia. }
  assert (reading w (mkLexer s c true (chars_read_total l + 1 - 1) line lines (token_string l) (token_buffer l) (error_message l))) as Hr.
  { exists p, e. unfold left in *. split; cbn; try done.
    - by rewrite Hw, Hleft.
    - intros H0. rewrite <- Hleft. by apply Hend.
    - lia.
    - by rewrite Hlines.
    - by exists q. }
  destruct c as [x|]; [change (option_list (Some x)) with [x]|change (option_list None) with (@nil ascii)].
  - destruct (token_string l ++ [x]) as [|y ts] eqn:E; [by destruct (token_string l)|].
    eexists. split; [done|]. rewrite <- E, removelast_last. split; [done|]. unfold left at 1. cbn. by rewrite Hleft.
  - rewrite app_nil_r. eexists. split; [done|]. split; [done|]. unfold left at 1. cbn. by rewrite Hleft.
Qed.

(** ** Steps *)

Lemma bind_ok {A B} (m : lact A) (f : A → lact B) l a l' : m l = LOk a l' → (m ≫= f) l = f a l'.
Proof. unfold mbind, lact_bind. by intros ->. Qed.

Lemma assert_ok {B} b (f : unit → lact B) l : b = true → (JSON_ASSERT b ≫= f) l = f tt l.
Proof. by intros ->. Qed.

Lemma assert_current_ok {B} c (f : unit → lact B) l : current l = Some c → (assert_current c ≫= f) l = f tt l.
Proof. intros H. apply (bind_ok (assert_current c)). unfold assert_current, JSON_ASSERT, mbind, lact_bind, get_current. by rewrite H, bool_decide_eq_true_2. Qed.

(** The state after a character was added to the buffer, and after a message was set. *)
Definition with_buffer (b : bytes) (l : lexer) : lexer :=
  mkLexer (ia l) (current l) (next_unget l) (chars_read_total l) (chars_read_current_line l) (lines_read l) (token_string l) b (error_message l).
Definition with_message (m : bytes) (l : lexer) : lexer :=
  mkLexer (ia l) (current l) (next_unget l) (chars_read_total l) (chars_read_current_line l) (lines_read l) (token_string l) (token_buffer l) m.

Lemma add_ok {B} c (f : unit → lact B) l : (add c ≫= f) l = f tt (with_buffer (token_buffer l ++ c) l).
Proof. done. Qed.

Lemma reading_buffer w l b : reading w l → reading w (with_buffer b l).
Proof. intros (p & e & [H1 H2 H3 H4 H5 H6 H7 H8]). exists p, e. by split. Qed.
Lemma reading_message w l m : reading w l → reading w (with_message m l).
Proof. intros (p & e & [H1 H2 H3 H4 H5 H6 H7 H8]). exists p, e. by split. Qed.

Lemma reset_spec w l c : holding w l → current l = Some c →
  ∃ l', reset l = LOk tt l' ∧ holding w l' ∧ current l' = current l ∧ left l' = left l ∧ token_buffer l' = [].
Proof.
  intros (p & e & [H1 H2 H3 H4 H5 H6 H7 H8] & Hn & Hc) E. eexists. split; [reflexivity|]. split; [|done].
  exists p, e. split; [split; try done|done]. cbn. rewrite E in Hc |- *. destruct Hc as [p' ->]. by exists p'.
Qed.

Lemma reading_left_fuel w l : reading w l → (length (left l) < length (ia l) + 2)%nat.
Proof.
  intros _. unfold left. destruct (next_unget l); [|lia]. destruct (current l); cbn; rewrite ?length_app; cbn; lia.
Qed.

#[local] Hint Resolve holding_reading reading_buffer reading_message : core.

(** [get] in a program: the character and the lexer after it. *)
Ltac step_get H :=
  let c := fresh "c" in let l' := fresh "l'" in
  destruct (get_spec _ _ H) as (c & l' & ?Eget & ?Hh & ?Hcur & ?Hleft & ?Hnone & ?Hbuf);
  first [erewrite (bind_ok get) by eassumption | idtac].

(** ** Strings *)

(** The outcome of a part of [scan_string], from a lexer [l0]: the characters it adds and the input it leaves,
    or its message. *)
Definition string_outcome (w : bytes) (l0 : lexer) (r : lres bool) (a : string_step) : Prop :=
  match r, a with
  | LOk true l, SMore added rest => reading w l ∧ left l = rest ∧ token_buffer l = token_buffer l0 ++ added
  | LOk false l, SError m => reading w l ∧ error_message l = m
  | _, _ => False
  end.

Lemma string_fail w l0 l m : reading w l → string_outcome w l0 (fail_with m false l) (SError m).
Proof. intros H. split; [|done]. by apply (reading_message w l m). Qed.

(** [get_codepoint], with the bounds that its assertion checks. *)
Lemma codepoint_loop_spec w fs cp l :
  reading w l → 0 ≤ cp → cp + foldr (λ f z, 15 * 2 ^ f + z) 0 fs ≤ 0xFFFF → Forall (λ f, 0 ≤ f) fs →
  ∃ r l', codepoint_loop fs cp l = LOk r l' ∧ reading w l' ∧ token_buffer l' = token_buffer l ∧
    match get_codepoint_from fs cp (left l) with
    | Some (z, rest) => r = z ∧ 0 ≤ z ∧ left l' = rest
    | None => r = -1
    end.
Proof.
  intros Hr Hcp Hmax Hfs. revert cp l Hr Hcp Hmax.
  induction Hfs as [|f fs Hf Hfs IH]; intros cp l Hr Hcp Hmax; cbn [codepoint_loop get_codepoint_from foldr] in *.
  - rewrite assert_ok by (apply andb_true_iff; rewrite !Z.leb_le; lia). eexists _, _. split; [done|]. done.
  - step_get Hr. subst c. rewrite Hleft. destruct (current l') as [x|] eqn:Ec; cbn.
    2: { eexists _, _. split; [done|]. rewrite Hnone by done. eauto. }
    destruct (hex_digit x) as [d|] eqn:Ed; [|eexists _, _; split; [done|]; eauto].
    apply hex_digit_range in Ed. rewrite Z.shiftl_mul_pow2 by done. pose proof (Z.pow_pos_nonneg 2 f ltac:(lia) Hf).
    destruct (IH (cp + d * 2 ^ f) l') as (r & l2 & Hl2 & Hr2 & Hb2 & Hm); [eauto|nia|nia|].
    exists r, l2. rewrite Hb2, Hbuf. eauto.
Qed.

Lemma get_codepoint_spec w l : reading w l → current l = Some "u"%char →
  ∃ r l', get_codepoint l = LOk r l' ∧ reading w l' ∧ token_buffer l' = token_buffer l ∧
    match JsonLexer.get_codepoint (left l) with
    | Some (z, rest) => r = z ∧ 0 ≤ z ∧ left l' = rest
    | None => r = -1
    end.
Proof.
  intros Hr Hc. unfold get_codepoint. rewrite assert_current_ok by done.
  apply (codepoint_loop_spec w [12; 8; 4; 0] 0 l Hr); [lia|vm_compute; discriminate|repeat constructor; lia].
Qed.

#[local] Arguments JsonLexer.get_codepoint : simpl never.
#[local] Arguments hex_message : simpl never.
#[local] Arguments high_message : simpl never.
#[local] Arguments low_message : simpl never.
#[local] Arguments utf8_message : simpl never.

Definition ranges_step (a : option (bytes * bytes)) : string_step :=
  match a with Some (t, rest) => SMore t rest | None => SError utf8_message end.

Lemma ranges_loop_spec w rs l : reading w l →
  string_outcome w l (ranges_loop rs l) (ranges_step (Utf8.next_byte_in_range rs (left l))).
Proof.
  revert l. induction rs as [|[lo hi] rs IH]; intros l Hr; cbn [ranges_loop Utf8.next_byte_in_range].
  - split; [done|]. by rewrite app_nil_r.
  - step_get Hr. subst c. rewrite Hleft. destruct (current l') as [x|]; cbn.
    2: { rewrite Hnone by done. apply string_fail; eauto. }
    destruct (_ && _); [|apply string_fail; eauto]. rewrite add_ok.
    specialize (IH (with_buffer (token_buffer l' ++ [x]) l') ltac:(eauto)).
    change (left (with_buffer _ l')) with (left l') in IH.
    destruct (ranges_loop rs _) as [[] l2| |], (Utf8.next_byte_in_range rs (left l')) as [[t rest]|]; cbn in *; try done.
    destruct IH as (H1 & H2 & H3). by rewrite H3, Hbuf, <- app_assoc.
Qed.

Lemma next_byte_in_range_spec w rs l x : reading w l → current l = Some x → 1 ≤ blen rs ≤ 3 →
  string_outcome w l (next_byte_in_range rs l)
    (ranges_step ('(t, rest) ← Utf8.next_byte_in_range rs (left l); Some (x :: t, rest))).
Proof.
  intros Hr Hc Hn. unfold next_byte_in_range. rewrite assert_ok by (apply andb_true_iff; rewrite !Z.leb_le; lia).
  rewrite (bind_ok get_current _ _ (Some x) l) by (unfold get_current; by rewrite Hc). rewrite add_ok.
  pose proof (ranges_loop_spec w rs (with_buffer (token_buffer l ++ [x]) l) ltac:(eauto)) as H.
  change (left (with_buffer _ l)) with (left l) in H.
  destruct (ranges_loop rs _) as [[] l2| |], (Utf8.next_byte_in_range rs (left l)) as [[t rest]|]; cbn in *; try done.
  destruct H as (H1 & H2 & H3). by rewrite H3, <- app_assoc.
Qed.

Lemma string_ranges_blen b rs : string_ranges b = Some rs → blen rs ≤ 3.
Proof. unfold string_ranges, three_byte_ranges, four_byte_ranges. intros H. repeat (case_match; simplify_eq); vm_compute; discriminate. Qed.

Lemma add_codepoint_spec w l0 l cp : reading w l → token_buffer l = token_buffer l0 → 0 ≤ cp ≤ 0x10FFFF →
  string_outcome w l0 (add_codepoint cp l) (SMore (utf8_encode cp) (left l)).
Proof.
  intros Hr Hb Hcp. unfold add_codepoint. rewrite assert_ok by (apply andb_true_iff; rewrite !Z.leb_le; lia). rewrite add_ok.
  split; [eauto|]. split; [done|]. cbn. by rewrite Hb.
Qed.

Lemma surrogate_pair_range c1 c2 : 0xD800 ≤ c1 ≤ 0xDBFF → 0xDC00 ≤ c2 ≤ 0xDFFF → 0 ≤ surrogate_pair c1 c2 ≤ 0x10FFFF.
Proof.
  intros H1 H2. unfold surrogate_pair, wrap. rewrite Z.shiftl_mul_pow2 by lia.
  rewrite (Z.mod_small (c1 * 2 ^ 10)) by lia. rewrite Z.mod_small; lia.
Qed.

Lemma unicode_escape_spec w l : reading w l → current l = Some "u"%char →
  string_outcome w l (unicode_escape l) (scan_unicode (left l)).
Proof.
  intros Hr Hc. unfold unicode_escape, scan_unicode.
  destruct (get_codepoint_spec w l Hr Hc) as (r & l1 & Hg & Hr1 & Hb1 & Hm). rewrite (bind_ok get_codepoint _ _ _ _ Hg).
  destruct (JsonLexer.get_codepoint (left l)) as [[z rest]|] eqn:E1; [|subst r; by apply string_fail].
  destruct Hm as (-> & Hz & <-). apply get_codepoint_range in E1. rewrite (proj2 (Z.eqb_neq z (-1))) by lia.
  destruct (_ && _) eqn:Ehigh.
  - step_get Hr1. subst c. rewrite Hleft. destruct (current l') as [x|] eqn:Ex; cbn.
    2: { rewrite Hnone by done. cbn. rewrite bool_decide_eq_false_2 by done. apply string_fail; eauto. }
    destruct (decide (x = "\"%char)) as [->|Hx].
    2: { rewrite bool_decide_eq_false_2 by congruence. rewrite (bool_decide_eq_false_2 (x = _)) by done. cbn.
         destruct (left l'); apply string_fail; eauto. }
    rewrite bool_decide_eq_true_2 by done. assert (reading w l') as Hr' by eauto. step_get Hr'. subst c.
    rewrite Hleft0. destruct (current l'0) as [y|] eqn:Ey; cbn.
    2: { rewrite Hnone0 by done. cbn. rewrite bool_decide_eq_false_2 by done. apply string_fail; eauto. }
    destruct (decide (y = "u"%char)) as [->|Hy].
    2: { rewrite bool_decide_eq_false_2 by congruence. rewrite (bool_decide_eq_false_2 (y = _)) by done. apply string_fail; eauto. }
    rewrite !bool_decide_eq_true_2 by done. cbn [andb].
    destruct (get_codepoint_spec w l'0 ltac:(eauto) Ey) as (r & l2 & Hg2 & Hr2 & Hb2 & Hm2). rewrite (bind_ok get_codepoint _ _ _ _ Hg2).
    destruct (JsonLexer.get_codepoint (left l'0)) as [[z2 rest2]|] eqn:E2; [|subst r; exact (string_fail w l l2 hex_message Hr2)].
    destruct Hm2 as (-> & Hz2 & <-). rewrite (proj2 (Z.eqb_neq z2 (-1))) by lia.
    destruct ((0xDC00 <=? z2) && (z2 <=? 0xDFFF)) eqn:Elow; [|by apply string_fail]. apply add_codepoint_spec; [done|congruence|].
    split_hyps. zify_bools. by apply surrogate_pair_range.
  - destruct ((0xDC00 <=? z) && (z <=? 0xDFFF)) eqn:Elow; [by apply string_fail|]. apply add_codepoint_spec; [done..|lia].
Qed.

#[local] Arguments forbidden_message : simpl never.

Lemma scan_escape_cons c s :
  scan_escape (c :: s) =
    match simple_escape c with
    | Some d => SMore [d] s
    | None => if bool_decide (c = "u"%char) then scan_unicode s else SError forbidden_message
    end.
Proof. unfold scan_escape, simple_escape. by repeat case_bool_decide. Qed.

Lemma string_outcome_buffer w l0 l1 r a :
  token_buffer l0 = token_buffer l1 → string_outcome w l0 r a → string_outcome w l1 r a.
Proof. unfold string_outcome. by intros ->. Qed.

Lemma escape_spec w l : reading w l → string_outcome w l (escape l) (scan_escape (left l)).
Proof.
  intros Hr. unfold escape. step_get Hr. subst c. rewrite Hleft.
  destruct (current l') as [x|] eqn:Ex; [change (option_list (Some x) ++ left l') with (x :: left l')|].
  2: { change (option_list None ++ left l') with (left l'). rewrite Hnone by done. apply string_fail; eauto. }
  rewrite scan_escape_cons. destruct (simple_escape x) as [d|].
  - rewrite add_ok. split; [eauto|]. split; [done|]. cbn. by rewrite Hbuf.
  - case_bool_decide; [|apply string_fail; eauto]. subst x.
    eapply string_outcome_buffer; [exact Hbuf|]. apply unicode_escape_spec; eauto.
Qed.

(** The outcome of a scan: the token and the input it leaves, or its message. *)
Definition outcome (w : bytes) (r : lres (option token)) (a : option lexed) : Prop :=
  match r, a with
  | LOk (Some t) l, Some (Token t' rest) => reading w l ∧ t = t' ∧ left l = rest
  | LOk None l, Some (ParseError m) => reading w l ∧ error_message l = m
  | _, _ => False
  end.

Lemma outcome_fail w l m : reading w l → outcome w (fail_with m None l) (Some (ParseError m)).
Proof. intros H. split; [|done]. by apply (reading_message w l m). Qed.

Lemma scan_string_char_cons c s :
  scan_string_char (c :: s) =
    if bool_decide (c = QUOTE) then SEnd s
    else if bool_decide (c = BACKSLASH) then scan_escape s
    else if byteZ c <? 0x20 then SError (control_message (byteZ c))
    else match string_ranges (byteZ c) with
         | Some ranges => ranges_step ('(t, rest) ← Utf8.next_byte_in_range ranges s; Some (c :: t, rest))
         | None => SError utf8_message
         end.
Proof.
  unfold scan_string_char, ranges_step. destruct (string_ranges (byteZ c)) as [rs|]; [|done].
  by destruct (Utf8.next_byte_in_range rs s) as [[t rest]|].
Qed.

#[local] Arguments control_message : simpl never.

Lemma string_loop_spec w fuel fuel' l :
  reading w l → (length (left l) < fuel)%nat → (length (left l) < fuel')%nat →
  outcome w (string_loop fuel l) (scan_string_loop fuel' (token_buffer l) (left l)).
Proof.
  revert fuel' l. induction fuel as [|fuel IH]; intros fuel' l Hr Hf Hf'; [lia|]. destruct fuel' as [|fuel']; [lia|].
  assert (∀ l0 m a, token_buffer l0 = token_buffer l → string_outcome w l0 (m l0) a →
    (∀ added rest, a = SMore added rest → (length rest < length (left l))%nat) →
    outcome w ((m ≫= λ b : bool, if b then string_loop fuel else mret None) l0)
      match a with SMore added s => scan_string_loop fuel' (token_buffer l ++ added) s | SEnd s => Some (Token (value_string (token_buffer l)) s) | SError m => Some (ParseError m) end) as Hgo.
  { intros l0 m a Hb Ho Hlen. unfold mbind, lact_bind. destruct (m l0) as [[] l2| |], a as [added rest|rest|msg]; cbn in Ho; try done.
    destruct Ho as (Hr2 & <- & Hb2). rewrite <- Hb, <- Hb2. specialize (Hlen _ _ eq_refl). apply IH; [done|lia..]. }
  cbn [string_loop scan_string_loop]. pose proof (scan_string_char_length (left l)) as Hlen. step_get Hr. subst c. rewrite Hleft in *.
  destruct (current l') as [x|] eqn:Ex; [change (option_list (Some x) ++ left l') with (x :: left l') in *|].
  2: { change (option_list None ++ left l') with (left l'). rewrite Hnone by done. apply outcome_fail; eauto. }
  rewrite scan_string_char_cons in Hlen |- *. case_bool_decide.
  { split; [eauto|]. by rewrite Hbuf. }
  case_bool_decide; [apply Hgo; [done|by apply escape_spec; eauto|exact Hlen]|].
  destruct (byteZ x <? 0x20); [apply outcome_fail; eauto|].
  destruct (string_ranges (byteZ x)) as [rs|] eqn:Ers; [|apply outcome_fail; eauto].
  destruct rs as [|r rs].
  - rewrite add_ok. cbn. rewrite <- Hbuf. cbn in Hf, Hf'. change (left l') with (left (with_buffer (token_buffer l' ++ [x]) l')).
    apply (IH fuel' (with_buffer (token_buffer l' ++ [x]) l')); [eauto| |]; change (left (with_buffer _ l')) with (left l'); lia.
  - apply Hgo; [done| |exact Hlen]. apply next_byte_in_range_spec; [eauto|done|].
    pose proof (string_ranges_blen _ _ Ers). rewrite blen_cons in *. pose proof (blen_nonneg rs). lia.
Qed.

Lemma scan_string_spec w l : holding w l → current l = Some QUOTE →
  outcome w (scan_string l) (JsonLexer.scan_string (left l)).
Proof.
  intros Hh Hc. unfold scan_string.
  destruct (reset_spec w l _ Hh Hc) as (l1 & Er & Hh1 & Hc1 & Hl1 & Hb1). rewrite (bind_ok reset _ _ _ _ Er).
  rewrite assert_current_ok by congruence. unfold with_fuel, JsonLexer.scan_string. rewrite <- Hb1, <- Hl1.
  apply string_loop_spec; [eauto|eapply reading_left_fuel; eauto|lia].
Qed.

(** ** Numbers *)

Lemma number_step_none st : number_step st None = NDone ∨ ∃ m, number_step st None = NError m.
Proof. destruct st; cbn; eauto. Qed.

Lemma number_loop_spec w fuel st ty l :
  reading w l → (length (left l) < fuel)%nat →
  match JsonLexer.number_loop st ty (token_buffer l) (left l) with
  | inl (buffer, ty', rest) =>
      ∃ l', number_loop fuel st ty l = LOk (Some ty') l' ∧ reading w l' ∧ left l' = rest ∧ token_buffer l' = buffer
  | inr m => ∃ l', number_loop fuel st ty l = LOk None l' ∧ reading w l' ∧ error_message l' = m
  end.
Proof.
  revert st ty l. induction fuel as [|fuel IH]; intros st ty l Hr Hf; [lia|]. cbn [number_loop].
  destruct (get_spec _ _ Hr) as (c & l' & Eget & Hh & Hcur & Hleft & Hnone & Hbuf). erewrite (bind_ok get) by eassumption.
  destruct (unget_spec _ _ _ _ Hr Eget) as (l2 & Eu & Hr2 & Hl2 & Hb2).
  assert (∀ m, ∃ l3, fail_with m (@None number_type) l' = LOk None l3 ∧ reading w l3 ∧ error_message l3 = m) as Hfail.
  { intros m. eexists. split; [reflexivity|]. split; [|done]. apply (reading_message w l' m). eauto. }
  rewrite Hleft in *. destruct c as [x|].
  - change (option_list (Some x) ++ left l') with (x :: left l') in *. cbn [JsonLexer.number_loop].
    destruct (number_step st (Some x)) as [st'| |m]; [|rewrite (bind_ok unget _ _ _ _ Eu); eexists; split; [reflexivity|]; rewrite Hb2, Hbuf; by eauto|apply Hfail].
    rewrite add_ok. assert ((if bool_decide (Some x = Some "."%char) then [decimal_point_char] else option_list (Some x)) = [x]) as ->
      by (case_bool_decide as E; [by injection E as ->|done]).
    rewrite <- Hbuf. change (left l') with (left (with_buffer (token_buffer l' ++ [x]) l')).
    apply (IH st' (number_type_at st ty) (with_buffer (token_buffer l' ++ [x]) l')); [eauto|].
    change (left (with_buffer _ l')) with (left l'). cbn in Hf. lia.
  - change (option_list None ++ left l') with (left l') in *. rewrite Hnone in * by done. cbn [JsonLexer.number_loop].
    destruct (number_step_none st) as [->|[m ->]]; [|apply Hfail].
    rewrite (bind_ok unget _ _ _ _ Eu). eexists. split; [reflexivity|]. rewrite Hb2, Hbuf. eauto.
Qed.

Lemma digit19_other c : isdigit c = true → c ≠ "0"%char → digit19 c = true.
Proof.
  unfold isdigit, digit19. rewrite !andb_true_iff, !Z.leb_le. intros H Hc. split; [|lia].
  destruct (decide (byteZ c = 48)) as [E|]; [|lia]. destruct Hc. by apply byteZ_inj.
Qed.

Lemma scan_number_spec w l c : holding w l → current l = Some c → bool_decide (c = "-"%char) || isdigit c = true →
  outcome w (scan_number l) (Some (JsonLexer.scan_number c (left l))).
Proof.
  intros Hh Hc Hd. unfold scan_number.
  destruct (reset_spec w l _ Hh Hc) as (l1 & Er & Hh1 & Hc1 & Hl1 & Hb1). rewrite (bind_ok reset _ _ _ _ Er). rewrite Hc in Hc1.
  rewrite (bind_ok get_current _ l1 (Some c) l1) by (unfold get_current; by rewrite Hc1).
  set (st := if bool_decide (c = "-"%char) then NMinus else if bool_decide (c = "0"%char) then NZero else NAny1).
  rewrite (bind_ok _ _ l1 st l1).
  2: { unfold st. repeat case_bool_decide; try done. rewrite assert_ok; [done|]. apply digit19_other; [|done].
       by apply orb_true_iff in Hd as [Hd|Hd]. }
  rewrite add_ok. change (option_list (Some c)) with [c]. rewrite Hb1.
  pose proof (number_loop_spec w (length (ia (with_buffer ([] ++ [c]) l1)) + 2) st NTUnsigned (with_buffer ([] ++ [c]) l1)
    ltac:(eauto) ltac:(eapply reading_left_fuel; eauto)) as Hn.
  unfold JsonLexer.scan_number. fold st. change (left (with_buffer _ l1)) with (left l1) in Hn. rewrite Hl1 in Hn.
  change (token_buffer (with_buffer _ l1)) with [c] in Hn.
  destruct (JsonLexer.number_loop st NTUnsigned [c] (left l)) as [[[buffer ty] rest]|m].
  - destruct Hn as (l2 & Hn & Hr2 & Hl2 & Hb2). rewrite (bind_ok (with_fuel _) _ _ _ _ Hn).
    split; [done|]. by rewrite Hb2.
  - destruct Hn as (l2 & Hn & Hr2 & Hm). rewrite (bind_ok (with_fuel _) _ _ _ _ Hn). by split.
Qed.

(** ** Comments, literals, white space *)

(** The outcome of a part that succeeds with the input it leaves, or fails with its message. *)
Definition bool_outcome (w : bytes) (r : lres bool) (a : bytes + bytes) : Prop :=
  match r, a with
  | LOk true l, inl rest => reading w l ∧ left l = rest
  | LOk false l, inr m => reading w l ∧ error_message l = m
  | _, _ => False
  end.

Lemma bool_fail w l m : reading w l → bool_outcome w (fail_with m false l) (inr m).
Proof. intros H. split; [|done]. by apply (reading_message w l m). Qed.

(** [get] on the input that is left, by cases. *)
Lemma get_cases w l : reading w l →
  match left l with
  | x :: s => ∃ l', get l = LOk (Some x) l' ∧ holding w l' ∧ current l' = Some x ∧ left l' = s ∧ token_buffer l' = token_buffer l
  | [] => ∃ l', get l = LOk None l' ∧ holding w l' ∧ current l' = None ∧ left l' = [] ∧ token_buffer l' = token_buffer l
  end.
Proof.
  intros Hr. destruct (get_spec _ _ Hr) as (c & l' & Eget & Hh & Hcur & Hleft & Hnone & Hbuf). rewrite Hleft.
  destruct c as [x|].
  - change (option_list (Some x) ++ left l') with (x :: left l'). by exists l'.
  - change (option_list None ++ left l') with (left l'). rewrite Hnone by done. exists l'. by rewrite Hnone.
Qed.

Lemma line_comment_spec w fuel l : reading w l → (length (left l) < fuel)%nat →
  bool_outcome w (line_comment fuel l) (inl (JsonLexer.line_comment (left l))).
Proof.
  revert l. induction fuel as [|fuel IH]; intros l Hr Hf; [lia|]. cbn [line_comment].
  pose proof (get_cases w l Hr) as Hg. destruct (left l) as [|x s]; destruct Hg as (l' & Eg & Hh & _ & Hl & _);
    rewrite (bind_ok get _ _ _ _ Eg); cbn [JsonLexer.line_comment].
  - split; [eauto|done].
  - destruct (_ || _); [split; [eauto|done]|]. rewrite <- Hl. apply IH; [eauto|]. rewrite Hl. cbn in Hf. lia.
Qed.

Lemma block_comment_spec w fuel l : reading w l → (length (left l) < fuel)%nat →
  bool_outcome w (block_comment fuel l) (match JsonLexer.block_comment (left l) with Some s => inl s | None => inr unclosed_message end).
Proof.
  revert l. induction fuel as [|fuel IH]; intros l Hr Hf; [lia|]. cbn [block_comment].
  pose proof (get_cases w l Hr) as Hg. destruct (left l) as [|x s]; destruct Hg as (l' & Eg & Hh & _ & Hl & _);
    rewrite (bind_ok get _ _ _ _ Eg); cbn [JsonLexer.block_comment]; [apply bool_fail; eauto|].
  case_bool_decide; [apply bool_fail; eauto|]. assert (reading w l') as Hr' by eauto. cbn in Hf.
  case_bool_decide; [|rewrite <- Hl; apply IH; [eauto|rewrite Hl; lia]].
  pose proof (get_cases w l' Hr') as Hg'. destruct (get_spec w l' Hr') as (d & l2 & Eg2 & Hh2 & _).
  rewrite (bind_ok get _ _ _ _ Eg2). destruct (unget_spec _ _ _ _ Hr' Eg2) as (l3 & Eu & Hr3 & Hl3 & _). rewrite Hl in *.
  destruct s as [|y s']; destruct Hg' as (l2' & Eg2' & _ & _ & Hl2 & _); rewrite Eg2 in Eg2'; injection Eg2' as -> <-.
  - rewrite bool_decide_eq_false_2 by done. rewrite (bind_ok unget _ _ _ _ Eu). specialize (IH l3 Hr3). rewrite Hl3 in IH. apply IH. lia.
  - destruct (decide (y = "/"%char)) as [->|Hy].
    + rewrite !bool_decide_eq_true_2 by done. split; [eauto|done].
    + rewrite !bool_decide_eq_false_2 by congruence. rewrite (bind_ok unget _ _ _ _ Eu).
      specialize (IH l3 Hr3). rewrite Hl3 in IH. apply IH. lia.
Qed.

Lemma scan_comment_spec w l : reading w l → bool_outcome w (scan_comment l) (JsonLexer.scan_comment (left l)).
Proof.
  intros Hr. unfold scan_comment, JsonLexer.scan_comment. fold unclosed_message comment_message.
  pose proof (get_cases w l Hr) as Hg. destruct (left l) as [|x s]; destruct Hg as (l' & Eg & Hh & _ & Hl & _);
    rewrite (bind_ok get _ _ _ _ Eg).
  - rewrite !bool_decide_eq_false_2 by done. apply bool_fail; eauto.
  - assert (∀ c, bool_decide (Some x = Some c) = bool_decide (x = c)) as Hb by (intros; apply bool_decide_ext; split; congruence).
    rewrite !Hb, <- Hl. assert (reading w l') as Hr' by eauto. pose proof (reading_left_fuel w l' Hr').
    case_bool_decide; [by apply line_comment_spec|]. case_bool_decide; [|apply bool_fail; eauto].
    pose proof (block_comment_spec w (length (ia l') + 2) l' Hr' ltac:(done)) as Hbc.
    unfold with_fuel. by destruct (JsonLexer.block_comment (left l')).
Qed.

Lemma literal_loop_spec w text t l : reading w l →
  outcome w (literal_loop text t l) (Some (JsonLexer.scan_literal text t (left l))).
Proof.
  revert l. induction text as [|x text IH]; intros l Hr; cbn [literal_loop JsonLexer.scan_literal]; [by split|].
  pose proof (get_cases w l Hr) as Hg. destruct (left l) as [|y s]; destruct Hg as (l' & Eg & Hh & _ & Hl & _);
    rewrite (bind_ok get _ _ _ _ Eg).
  - rewrite bool_decide_eq_false_2 by done. apply outcome_fail; eauto.
  - destruct (decide (y = x)) as [->|Hyx].
    + rewrite !bool_decide_eq_true_2 by done. rewrite <- Hl. apply IH. eauto.
    + rewrite !bool_decide_eq_false_2 by congruence. apply outcome_fail; eauto.
Qed.

(** The input from the current character on. *)
Definition from_current (l : lexer) : bytes := option_list (current l) ++ left l.

Lemma whitespace_loop_spec w fuel l : reading w l → (length (left l) < fuel)%nat →
  ∃ l', whitespace_loop fuel l = LOk tt l' ∧ holding w l' ∧ from_current l' = JsonLexer.skip_whitespace (left l).
Proof.
  revert l. induction fuel as [|fuel IH]; intros l Hr Hf; [lia|]. cbn [whitespace_loop].
  pose proof (get_cases w l Hr) as Hg. destruct (left l) as [|x s]; destruct Hg as (l' & Eg & Hh & Hc & Hl & _);
    rewrite (bind_ok get _ _ _ _ Eg); cbn [JsonLexer.skip_whitespace].
  - exists l'. split; [done|]. split; [done|]. unfold from_current. by rewrite Hc, Hl.
  - destruct (json_ws x).
    + destruct (IH l') as (l2 & E2 & Hh2 & Hf2); [eauto|rewrite Hl; cbn in Hf; lia|]. exists l2. by rewrite <- Hl.
    + exists l'. split; [done|]. split; [done|]. unfold from_current. by rewrite Hc, Hl.
Qed.

Lemma skip_whitespace_spec w l : reading w l →
  ∃ l', skip_whitespace l = LOk tt l' ∧ holding w l' ∧ from_current l' = JsonLexer.skip_whitespace (left l).
Proof. intros Hr. apply whitespace_loop_spec; [done|by eapply reading_left_fuel]. Qed.

Lemma skip_bom_spec w l : reading w l →
  ∃ l', skip_bom l = LOk (bool_decide (is_Some (JsonLexer.skip_bom (left l)))) l' ∧ reading w l' ∧
    ∀ s, JsonLexer.skip_bom (left l) = Some s → left l' = s.
Proof.
  intros Hr. unfold skip_bom, JsonLexer.skip_bom. pose proof (get_cases w l Hr) as Hg.
  destruct (get_spec w l Hr) as (c & l1 & Eg & Hh & _). destruct (unget_spec _ _ _ _ Hr Eg) as (l2 & Eu & Hr2 & Hl2 & _).
  rewrite (bind_ok get _ _ _ _ Eg). assert (reading w l1) as Hr1 by eauto.
  destruct (left l) as [|x s]; destruct Hg as (l1' & Eg' & _ & _ & Hl1 & _); rewrite Eg in Eg'; injection Eg' as -> <-; cbn [is_byte].
  - rewrite (bind_ok unget _ _ _ _ Eu). exists l2. split; [done|]. split; [done|]. by intros ? [= <-].
  - destruct (byteZ x =? 0xEF).
    2: { rewrite (bind_ok unget _ _ _ _ Eu). exists l2. split; [done|]. split; [done|]. by intros ? [= <-]. }
    pose proof (get_cases w l1 Hr1) as Hg2. rewrite Hl1 in Hg2. destruct s as [|y s]; destruct Hg2 as (l3 & Eg3 & Hh3 & _ & Hl3 & _);
      rewrite (bind_ok get _ _ _ _ Eg3); cbn [is_byte]; [exists l3; split; [done|]; split; [eauto|done]|].
    assert (reading w l3) as Hr3 by eauto. destruct (byteZ y =? 0xBB) eqn:Ey.
    + pose proof (get_cases w l3 Hr3) as Hg4. rewrite Hl3 in Hg4. destruct s as [|z s]; destruct Hg4 as (l4 & Eg4 & Hh4 & _ & Hl4 & _);
        rewrite (bind_ok get _ _ _ _ Eg4); cbn [is_byte]; [exists l4; split; [done|]; split; [eauto|done]|].
      cbn [andb]. exists l4. destruct (byteZ z =? 0xBF); (split; [done|]; split; [eauto|]); [by intros ? [= <-]|done].
    + exists l3. destruct s as [|z s]; [split; [done|]; split; [eauto|done]|]. cbn [andb]. split; [done|]; split; [eauto|done].
Qed.

(** ** [scan] *)

(** The parts of the input that [scan_current] works on. *)
Lemma from_current_some l c : current l = Some c → from_current l = c :: left l.
Proof. unfold from_current. by intros ->. Qed.
Lemma from_current_none w l : holding w l → current l = None → from_current l = [].
Proof. intros (p & e & _ & _ & H) Hc. unfold from_current. rewrite Hc in H |- *. by rewrite H. Qed.

Lemma literal_spec w l x text t : holding w l → current l = Some x →
  outcome w (scan_literal (x :: text) t l) (Some (JsonLexer.scan_literal text t (left l))).
Proof. intros Hh Hc. unfold scan_literal. rewrite assert_current_ok by done. apply literal_loop_spec. eauto. Qed.

Lemma scan_current_spec w l : holding w l → outcome w (scan_current l) (scan_token (from_current l)).
Proof.
  intros Hh. unfold scan_current. rewrite (bind_ok get_current _ _ (current l) l) by done.
  destruct (current l) as [c|] eqn:Hc.
  2: { rewrite (from_current_none w) by done. split; [eauto|]. split; [done|].
       destruct Hh as (p & e & _ & _ & Hn). by rewrite Hc in Hn. }
  rewrite (from_current_some _ _ Hc). cbn [scan_token]. assert (reading w l) as Hr by eauto.
  do 6 (case_bool_decide; [by split|]).
  do 3 (case_bool_decide; [subst c; by apply (literal_spec w l)|]).
  case_bool_decide; [subst c; by apply scan_string_spec|].
  destruct (_ || _) eqn:Hd; [by apply scan_number_spec|].
  destruct (bool_decide (c = NUL)); [by split|by apply outcome_fail].
Qed.

Lemma comments_loop_spec w fuel fuel' l :
  holding w l → (length (from_current l) < fuel)%nat → (length (from_current l) < fuel')%nat →
  match skip_comments fuel' (from_current l) with
  | Some (inl s) => ∃ l', comments_loop fuel l = LOk true l' ∧ holding w l' ∧ from_current l' = s
  | Some (inr m) => ∃ l', comments_loop fuel l = LOk false l' ∧ reading w l' ∧ error_message l' = m
  | None => False
  end.
Proof.
  revert fuel' l. induction fuel as [|fuel IH]; intros fuel' l Hh Hf Hf'; [lia|]. destruct fuel' as [|fuel']; [lia|].
  cbn [comments_loop skip_comments]. rewrite (bind_ok get_current _ _ (current l) l) by done.
  destruct (current l) as [c|] eqn:Hc.
  2: { rewrite (from_current_none w) by done. rewrite bool_decide_eq_false_2 by done. exists l.
       by rewrite (from_current_none w). }
  rewrite (from_current_some _ _ Hc) in *. destruct (decide (c = "/"%char)) as [->|Hne].
  2: { rewrite !bool_decide_eq_false_2 by congruence. exists l. by rewrite (from_current_some _ _ Hc). }
  rewrite !bool_decide_eq_true_2 by done. cbn [length] in *. pose proof (scan_comment_spec w l ltac:(eauto)) as Hs.
  destruct (scan_comment l) as [[] l1| |] eqn:Es, (JsonLexer.scan_comment (left l)) as [s|m] eqn:Ec; cbn in Hs; try done.
  - destruct Hs as (Hr1 & <-). destruct (skip_whitespace_spec w l1 Hr1) as (l2 & E2 & Hh2 & Hl2).
    rewrite (bind_ok scan_comment _ _ _ _ Es), (bind_ok skip_whitespace _ _ _ _ E2), <- Hl2.
    apply scan_comment_length in Ec. pose proof (skip_whitespace_length (left l1)) as Hlen. rewrite <- Hl2 in Hlen.
    apply IH; [done|lia..].
  - rewrite (bind_ok scan_comment _ _ _ _ Es). by exists l1.
Qed.

Lemma holding_fuel w l : holding w l → (length (from_current l) < length (ia l) + 2)%nat.
Proof. intros (p & e & _ & Hn & _). unfold from_current, left. rewrite Hn, length_app. destruct (current l); cbn; lia. Qed.

(** The part of [scan] after the byte order mark. *)
Lemma scan_after_bom_spec w ignore_comments l : reading w l →
  outcome w
    (scan_after_bom ignore_comments l)
    (let s := JsonLexer.skip_whitespace (left l) in
     if ignore_comments then
       match skip_comments (S (length s)) s with
       | Some (inl s) => scan_token s
       | Some (inr m) => Some (ParseError m)
       | None => None
       end
     else scan_token s).
Proof.
  intros Hr. unfold scan_after_bom. destruct (skip_whitespace_spec w l Hr) as (l1 & E1 & Hh1 & <-). rewrite (bind_ok skip_whitespace _ _ _ _ E1). cbn zeta.
  destruct ignore_comments; [|by apply scan_current_spec].
  pose proof (comments_loop_spec w (length (ia l1) + 2) (S (length (from_current l1))) l1 Hh1 (holding_fuel w l1 Hh1) ltac:(lia)) as Hc.
  destruct (skip_comments _ (from_current l1)) as [[s|m]|]; [| |done].
  - destruct Hc as (l2 & E2 & Hh2 & <-). rewrite (bind_ok (with_fuel comments_loop) _ _ _ _ E2). by apply scan_current_spec.
  - destruct Hc as (l2 & E2 & Hr2 & Hm). rewrite (bind_ok (with_fuel comments_loop) _ _ _ _ E2). by split.
Qed.

(** From a state that has read a part of the text [w], [scan] returns (no assertion fails and no
    loop runs out of fuel) the token, and leaves the input, that [JsonLexer.scan] gives, or sets its
    message and reports an error; the state after it has again read a part of [w]. *)
Lemma scan_spec w ignore_comments l :
  reading w l →
  outcome w (scan ignore_comments l) (JsonLexer.scan ignore_comments (chars_read_total l =? 0) (left l)).
Proof.
  intros Hr. unfold scan, JsonLexer.scan. destruct (chars_read_total l =? 0).
  - destruct (skip_bom_spec w l Hr) as (l1 & E1 & Hr1 & Hl1). rewrite (bind_ok skip_bom _ _ _ _ E1).
    destruct (JsonLexer.skip_bom (left l)) as [s|]; cbn [bool_decide is_Some].
    + rewrite (bool_decide_eq_true_2 (is_Some (Some s))) by eauto. rewrite <- (Hl1 s eq_refl). by apply scan_after_bom_spec.
    + rewrite (bool_decide_eq_false_2 (is_Some None)) by (by intros [? ?]). by apply outcome_fail.
  - rewrite (bind_ok (mret true) _ l true l) by done. by apply scan_after_bom_spec.
Qed.

Lemma init_lexer_reading w : reading w (init_lexer w).
Proof. exists [], 0. split; try done. by exists []. Qed.

(** A lexer that has read a character: the byte order mark is not looked for again. *)
Definition started (w : bytes) (l : lexer) : Prop := reading w l ∧ (length (left l) < length w)%nat.

Lemma started_not_first w l : started w l → (chars_read_total l =? 0) = false.
Proof.
  intros [(p & n & [Hw Hn _ Ht _ _ _ _]) Hlen]. apply Z.eqb_neq. rewrite Ht. rewrite Hw, length_app in Hlen.
  unfold blen. lia.
Qed.

(** A call of [scan], the first one or a later one. *)
Definition ready (w : bytes) (first : bool) (l : lexer) : Prop := if first then l = init_lexer w else started w l.

Lemma scan_ready w ignore_comments first l : ready w first l →
  match JsonLexer.scan ignore_comments first (left l) with
  | Some (Token t s) =>
      ∃ l', scan ignore_comments l = LOk (Some t) l' ∧ left l' = s ∧ reading w l' ∧
        (t ≠ end_of_input ∨ first = false → started w l') ∧ consumes (left l) (Token t s)
  | Some (ParseError m) => ∃ l', scan ignore_comments l = LOk None l' ∧ reading w l' ∧ error_message l' = m
  | None => False
  end.
Proof.
  intros Hs. assert (reading w l ∧ (chars_read_total l =? 0) = first ∧ (length (left l) ≤ length w)%nat
    ∧ (first = false → (length (left l) < length w)%nat)) as (Hr & Hf & Hle & Hlt).
  { destruct first; cbn in Hs; [subst l; split; [apply init_lexer_reading|split; [done|split; [cbn; lia|done]]]|].
    pose proof (started_not_first w l Hs). destruct Hs as [Hr Hl]. split; [done|]. split; [done|]. split; [lia|done]. }
  pose proof (scan_spec w ignore_comments l Hr) as Ho. rewrite Hf in Ho.
  destruct (scan_total_length ignore_comments first (left l)) as (r & Er & Hc). rewrite Er in *.
  destruct r as [t s|m], (scan ignore_comments l) as [[t'|] l'| |]; cbn in Ho; try done.
  - destruct Ho as (Hr' & -> & Hl). exists l'. split; [done|]. split; [done|]. split; [done|]. split; [|done].
    destruct Hc as [Hc1 Hc2]. intros H. split; [done|]. rewrite Hl.
    destruct H as [Ht| ->]; [specialize (Hc2 Ht)|specialize (Hlt eq_refl)]; lia.
  - destruct Ho as (Hr' & Hm). by exists l'.
Qed.

(** ** All the tokens *)

(** The tokens up to the end of the input, or up to the first error, by calls of [scan]. *)
Fixpoint tokens (fuel : nat) (ignore_comments : bool) (l : lexer) : option (list token * option bytes) :=
  match fuel with
  | O => None
  | S fuel =>
      match scan ignore_comments l with
      | LOk (Some end_of_input) l => Some ([end_of_input], None)
      | LOk (Some t) l => '(ts, e) ← tokens fuel ignore_comments l; Some (t :: ts, e)
      | LOk None l => Some ([], Some (error_message l))
      | LAssert | LFuel => None
      end
  end.

(** The same with the functions on the input that is left. *)
Fixpoint token_stream (fuel : nat) (ignore_comments first : bool) (s : bytes) : option (list token * option bytes) :=
  match fuel with
  | O => None
  | S fuel =>
      match JsonLexer.scan ignore_comments first s with
      | Some (Token end_of_input _) => Some ([end_of_input], None)
      | Some (Token t s) => '(ts, e) ← token_stream fuel ignore_comments false s; Some (t :: ts, e)
      | Some (ParseError m) => Some ([], Some m)
      | None => None
      end
  end.

Lemma tokens_step {A} t (x y : option A) :
  match t with end_of_input => x | _ => y end = if bool_decide (t = end_of_input) then x else y.
Proof. by destruct t. Qed.

Lemma tokens_spec w fuel ignore_comments first l : ready w first l → (length (left l) < fuel)%nat →
  ∃ r, tokens fuel ignore_comments l = Some r ∧ token_stream fuel ignore_comments first (left l) = Some r.
Proof.
  revert first l. induction fuel as [|fuel IH]; intros first l Hl Hf; [lia|]. cbn.
  pose proof (scan_ready w ignore_comments first l Hl) as Hs.
  destruct (JsonLexer.scan ignore_comments first (left l)) as [[t s|m]|]; [| |done].
  - destruct Hs as (l' & -> & <- & _ & Hst & _ & Hc). rewrite !tokens_step. case_bool_decide as Ht; [by eexists|].
    destruct (IH false l' (Hst (or_introl Ht))) as ([ts e] & -> & ->); [specialize (Hc Ht); lia|]. by eexists.
  - destruct Hs as (l' & -> & _ & <-). by eexists.
Qed.

(** C15 (refinement): The lexer as it is written, with [unget] and its flag, its position and its buffers,
    gives for every text, by calls of [scan] up to the end of the input, the tokens (or the message of the
    first error) that the functions on the input that is left give, with comments ignored or not: no
    assertion fails, and no loop runs out of fuel, with a call for each character and one for the end. *)
Theorem lexer_tokens w ignore_comments :
  ∃ r, tokens (S (length w)) ignore_comments (init_lexer w) = Some r ∧
    token_stream (S (length w)) ignore_comments true w = Some r.
Proof. apply (tokens_spec w (S (length w)) ignore_comments true (init_lexer w)); [done|cbn; lia]. Qed.

Example comment_tokens :
  tokens 9 true (init_lexer b#"[1/*x*/,//y") = Some ([begin_array; value_unsigned 1; value_separator; end_of_input], None) ∧
  tokens 9 false (init_lexer b#"[1/*x*/") = Some ([begin_array; value_unsigned 1], Some b#"invalid literal").
Proof. split; vm_compute; reflexivity. Qed.
