(* ===== verification/JsonParser.v ===== *)
(** * JsonParser: the parser of the JSON library
      ([include/nlohmann/json.hpp], classes [parser] and [json_sax_dom_parser])

    [parser.parse] drives [json_sax_dom_parser] with the tokens of the lexer.  The
    pointers of [ref_stack] into the value under construction are a list of frames,
    innermost first: a container that is still open holds the members or elements it
    has so far and is put into its parent when it is closed.  Every way to fail throws,
    as the programs call [json::parse] with the default arguments. *)

From S2P Require Import Prelude CString Prog JsonValue JsonLexer.

(** ** Building the value: [json_sax_dom_parser] *)

Inductive frame :=
| FArray (elements : list json)
| FObject (members : list (bytes * json)) (object_element : option bytes).

Record dom := mkDom { ref_stack : list frame; root : json }.

Definition handle_value (v : json) (d : dom) : dom :=
  match ref_stack d with
  | [] => mkDom [] v
  | FArray es :: st => mkDom (FArray (es ++ [v]) :: st) (root d)
  | FObject ms (Some k) :: st => mkDom (FObject (map_assign k v ms) (Some k) :: st) (root d)
  | FObject ms None :: st => d
  end.

Definition start_object (d : dom) : dom := mkDom (FObject [] None :: ref_stack d) (root d).
Definition start_array (d : dom) : dom := mkDom (FArray [] :: ref_stack d) (root d).

Definition key (val : bytes) (d : dom) : dom :=
  match ref_stack d with
  | FObject ms _ :: st => mkDom (FObject ms (Some val) :: st) (root d)
  | _ => d
  end.

(** [end_object] and [end_array]: the container is complete. *)
Definition end_container (d : dom) : dom :=
  match ref_stack d with
  | FObject ms _ :: st => handle_value (JObject ms) (mkDom st (root d))
  | FArray es :: st => handle_value (JArray es) (mkDom st (root d))
  | [] => d
  end.

(** ** Numbers that [strtod] cannot represent *)

(** The parts of a number literal: sign, digits of mantissa and fraction, exponent. *)
Definition literal_parts (l : bytes) : bytes * bytes * Z :=
  let l := match l with c :: l' => if bool_decide (c = "-"%char) then l' else l | [] => l end in
  let '(int, l) := span isdigit l in
  let '(frac, l) :=
    match l with
    | c :: l' => if bool_decide (c = "."%char) then span isdigit l' else ([], l)
    | [] => ([], [])
    end in
  let exponent :=
    match l with
    | _ :: l' => match scan_int l' with Some (z, _) => z | None => 0 end
    | [] => 0
    end in
  (int, frac, exponent).

(** Half a unit above the largest [double]: from here on values round to infinity. *)
Definition DOUBLE_OVERFLOW : Z := 2 ^ 1024 - 2 ^ 970.

Definition isfinite (l : bytes) : bool :=
  let '(int, frac, exponent) := literal_parts l in
  let m := digits_val (int ++ frac) in
  let e := exponent - blen frac in
  if m =? 0 then true
  else if 0 <=? e then (e <? 400) && (m * 10 ^ e <? DOUBLE_OVERFLOW)
  else m <? DOUBLE_OVERFLOW * 10 ^ (- e).

(** ** Reading tokens: [sax_parse_internal] *)

Record parser := mkParser {
  m_lexer : bytes;           (** the input that is left *)
  last_token : token;
  states : list bool;        (** [true] for an array; innermost first *)
  sax : dom
}.

(** [get_token] followed by the tests that reject [token_type::parse_error]: all of them
    throw [parse_error.101]. *)
Definition get_token (s : bytes) : option (token * bytes + exn) :=
  match scan false false s with
  | Some (Token t s) => Some (inl (t, s))
  | Some (ParseError _) => Some (inr (ExJsonParse 101))
  | None => None
  end.

Inductive parse_step :=
| PContinue (skip_to_state_evaluation : bool) (p : parser)
| PReturn (p : parser)
| PThrow (e : exn)
| PNoFuel.

(** Continue with the next token. *)
Definition with_token (s : bytes) (k : token → bytes → parse_step) : parse_step :=
  match get_token s with
  | Some (inl (t, s)) => k t s
  | Some (inr e) => PThrow e
  | None => PNoFuel
  end.

(** A key, a colon and the first token of the value. *)
Definition parse_key (val : bytes) (s : bytes) (states : list bool) (d : dom) : parse_step :=
  with_token s (λ t s,
    if bool_decide (t = name_separator)
    then with_token s (λ t s, PContinue false (mkParser s t states (key val d)))
    else PThrow (ExJsonParse 101)).

(** From "we reached this line after we successfully parsed a value" on. *)
Definition evaluate_state (s : bytes) (t : token) (sts : list bool) (d : dom) : parse_step :=
  match sts with
  | [] => PReturn (mkParser s t [] d)
  | true :: sts' =>
      with_token s (λ t s,
        if bool_decide (t = value_separator)
        then with_token s (λ t s, PContinue false (mkParser s t sts d))
        else if bool_decide (t = end_array)
        then PContinue true (mkParser s t sts' (end_container d))
        else PThrow (ExJsonParse 101))
  | false :: sts' =>
      with_token s (λ t s,
        if bool_decide (t = value_separator)
        then with_token s (λ t s,
               match t with
               | value_string val => parse_key val s sts d
               | _ => PThrow (ExJsonParse 101)
               end)
        else if bool_decide (t = end_object)
        then PContinue true (mkParser s t sts' (end_container d))
        else PThrow (ExJsonParse 101))
  end.

(** The [switch] on [last_token] and what follows it. *)
Definition parse_value (p : parser) : parse_step :=
  let s := m_lexer p in
  let sts := states p in
  let d := sax p in
  let value v := evaluate_state s (last_token p) sts (handle_value v d) in
  match last_token p with
  | begin_object =>
      let d := start_object d in
      with_token s (λ t s,
        match t with
        | end_object => evaluate_state s t sts (end_container d)
        | value_string val => parse_key val s (false :: sts) d
        | _ => PThrow (ExJsonParse 101)
        end)
  | begin_array =>
      let d := start_array d in
      with_token s (λ t s,
        match t with
        | end_array => evaluate_state s t sts (end_container d)
        | _ => PContinue false (mkParser s t (true :: sts) d)
        end)
  | value_float l => if isfinite l then value (JFloat l) else PThrow (ExJsonOutOfRange 406)
  | literal_false => value (JBoolean false)
  | literal_null => value JNull
  | literal_true => value (JBoolean true)
  | value_integer z => value (JInteger z)
  | value_string s => value (JString s)
  | value_unsigned z => value (JUnsigned z)
  | end_array | end_object | name_separator | value_separator | end_of_input =>
      PThrow (ExJsonParse 101)
  end.

(** One round of the loop. *)
Definition parse_round (skip_to_state_evaluation : bool) (p : parser) : parse_step :=
  if skip_to_state_evaluation
  then evaluate_state (m_lexer p) (last_token p) (states p) (sax p)
  else parse_value p.

(** The loop; [None] when the fuel ends first. *)
Fixpoint sax_parse_internal (fuel : nat) (skip : bool) (p : parser) : option (parser + exn) :=
  match fuel with
  | O => None
  | S f =>
      match parse_round skip p with
      | PContinue skip p => sax_parse_internal f skip p
      | PReturn p => Some (inl p)
      | PThrow e => Some (inr e)
      | PNoFuel => None
      end
  end.

(** The constructor of [parser] reads the first token; [parse(true, result)] then checks
    that the input was read completely. *)
Definition parse (fuel : nat) (s : bytes) : option (json + exn) :=
  match scan false true s with
  | None => None
  | Some (ParseError _) => Some (inr (ExJsonParse 101))
  | Some (Token t s) =>
      match sax_parse_internal fuel false (mkParser s t [] (mkDom [] JNull)) with
      | None => None
      | Some (inr e) => Some (inr e)
      | Some (inl p) =>
          match get_token (m_lexer p) with
          | None => None
          | Some (inr e) => Some (inr e)
          | Some (inl (t, _)) =>
              Some (if bool_decide (t = end_of_input) then inl (root (sax p)) else inr (ExJsonParse 101))
          end
      end
  end.

Definition parse_fuel (s : bytes) : nat := 2 + length s.

(** [json::parse(input)]; the default is never used ([parse_total]). *)
Definition json_parse (s : bytes) : json + exn := default (inr (ExJsonParse 0)) (parse (parse_fuel s) s).

(** ** The loop ends *)

(** What is left to do: the characters, and one round for the token at hand. *)
Definition measure (p : parser) : nat :=
  length (m_lexer p) + (if bool_decide (last_token p = end_of_input) then 0 else 1).

Lemma get_token_total s :
  ∃ r, get_token s = Some r ∧
    match r with inl (t, s') => consumes s (Token t s') | inr _ => True end.
Proof.
  unfold get_token. destruct (scan_total_length false false s) as (r & -> & Hr).
  destruct r as [t s'|m]; by eexists.
Qed.

(** What a step leaves to do is below [n]; only a closing token skips to the state. *)
Definition decreases (n : nat) (r : parse_step) : Prop :=
  match r with
  | PContinue skip p => (measure p ≤ n)%nat ∧ (skip = true → last_token p ≠ end_of_input)
  | PNoFuel => False
  | _ => True
  end.

Lemma with_token_decreases s n (k : token → bytes → parse_step) :
  (length s ≤ n)%nat →
  (∀ t s', consumes s (Token t s') → decreases n (k t s')) →
  decreases n (with_token s k).
Proof.
  intros Hn Hk. unfold with_token. destruct (get_token_total s) as (r & -> & Hr).
  destruct r as [[t s']|e]; [|done]. by apply Hk.
Qed.

Lemma measure_continue s n t s' sts d :
  (length s ≤ n)%nat → consumes s (Token t s') → (measure (mkParser s' t sts d) ≤ n)%nat.
Proof.
  intros Hn [Hle Hlt]. unfold measure. cbn. case_bool_decide as Ht; [lia|]. specialize (Hlt Ht). lia.
Qed.

Lemma consumes_length s n t s' : (length s ≤ n)%nat → consumes s (Token t s') → (length s' ≤ n)%nat.
Proof. intros Hn [Hle _]. lia. Qed.

Lemma parse_key_decreases val s n sts d : (length s ≤ n)%nat → decreases n (parse_key val s sts d).
Proof.
  intros Hn. unfold parse_key. apply with_token_decreases; [done|]. intros t s1 Hs1.
  case_bool_decide; [|done]. apply with_token_decreases; [by eapply consumes_length|]. intros t2 s2 Hs2.
  split; [|done]. eauto using measure_continue, consumes_length.
Qed.

Lemma evaluate_state_decreases s t n sts d :
  (length s ≤ n)%nat → decreases n (evaluate_state s t sts d).
Proof.
  intros Hn. destruct sts as [|[|] sts]; cbn [evaluate_state]; [done|..];
    (apply with_token_decreases; [done|]; intros t1 s1 Hs1);
    (case_bool_decide; [apply with_token_decreases; [by eapply consumes_length|]; intros t2 s2 Hs2|]).
  - split; [|done]. eauto using measure_continue, consumes_length.
  - case_bool_decide; [|done]. subst t1. split; [|done]. eauto using measure_continue.
  - destruct t2; try exact I. eauto using parse_key_decreases, consumes_length.
  - case_bool_decide; [|done]. subst t1. split; [|done]. eauto using measure_continue.
Qed.

Lemma parse_value_decreases p :
  decreases (length (m_lexer p)) (parse_value p) ∧
  (last_token p = end_of_input → parse_value p = PThrow (ExJsonParse 101)).
Proof.
  split; [|by unfold parse_value; intros ->]. unfold parse_value.
  assert (∀ v, decreases (length (m_lexer p))
    (evaluate_state (m_lexer p) (last_token p) (states p) (handle_value v (sax p)))) as Hev
    by (intros v; by apply evaluate_state_decreases).
  destruct (last_token p); auto; try exact I.
  - by destruct (isfinite literal).
  - apply with_token_decreases; [done|]. intros t s1 Hs1.
    destruct t; try (split; [eauto using measure_continue|done]).
    eapply evaluate_state_decreases. by eapply consumes_length.
  - apply with_token_decreases; [done|]. intros t s1 Hs1.
    destruct t; try exact I; [eapply parse_key_decreases|eapply evaluate_state_decreases];
      by eapply consumes_length.
Qed.

Lemma parse_round_decreases skip p :
  (skip = true → last_token p ≠ end_of_input) →
  match parse_round skip p with
  | PContinue skip' p' => (measure p' < measure p)%nat ∧ (skip' = true → last_token p' ≠ end_of_input)
  | PNoFuel => False
  | _ => True
  end.
Proof.
  intros Hskip. unfold parse_round.
  assert (∀ r, decreases (length (m_lexer p)) r → last_token p ≠ end_of_input →
    match r with
    | PContinue skip' p' => (measure p' < measure p)%nat ∧ (skip' = true → last_token p' ≠ end_of_input)
    | PNoFuel => False
    | _ => True
    end) as Hd.
  { intros r Hr Ht. destruct r; try done. destruct Hr as [? ?]. split; [|done].
    unfold measure at 2. rewrite bool_decide_eq_false_2 by done. lia. }
  destruct skip.
  - apply Hd; [by apply evaluate_state_decreases|by apply Hskip].
  - destruct (parse_value_decreases p) as [Hv He].
    destruct (decide (last_token p = end_of_input)) as [Ht|Ht]; [by rewrite He|]. by apply Hd.
Qed.

Lemma sax_parse_internal_total fuel skip p :
  (skip = true → last_token p ≠ end_of_input) → (measure p < fuel)%nat →
  is_Some (sax_parse_internal fuel skip p).
Proof.
  revert skip p. induction fuel as [|fuel IH]; intros skip p Hskip Hf; [lia|]. cbn.
  pose proof (parse_round_decreases skip p Hskip) as Hd.
  destruct (parse_round skip p) as [skip' p'|p'|e|]; [|eauto|eauto|done].
  destruct Hd as [? ?]. apply IH; [done|lia].
Qed.

Lemma parse_total_some s : is_Some (parse (parse_fuel s) s).
Proof.
  unfold parse. destruct (scan_total_length false true s) as (r & -> & Hr).
  destruct r as [t s'|m]; [|eauto].
  destruct (sax_parse_internal_total (parse_fuel s) false (mkParser s' t [] (mkDom [] JNull)))
    as [[p|e] ->]; [done| | |eauto].
  - unfold measure, parse_fuel. cbn. destruct Hr as [Hle Hlt]. case_bool_decide as Ht; [lia|].
    specialize (Hlt Ht). lia.
  - destruct (get_token_total (m_lexer p)) as (r & -> & _). destruct r as [[t' ?]|e]; eauto.
Qed.

(** What is thrown. *)
Definition parse_exns (e : exn) : Prop := e = ExJsonParse 101 ∨ e = ExJsonOutOfRange 406.
Definition step_throws (r : parse_step) : Prop := match r with PThrow e => parse_exns e | _ => True end.

Lemma get_token_exn s e : get_token s = Some (inr e) → parse_exns e.
Proof. unfold get_token. repeat case_match; try done. intros [= <-]. by left. Qed.

Lemma with_token_throws s k : (∀ t s', step_throws (k t s')) → step_throws (with_token s k).
Proof.
  intros Hk. unfold with_token. destruct (get_token s) as [[[t s']|e]|] eqn:E; [done| |done].
  by eapply get_token_exn.
Qed.

Lemma parse_key_throws val s sts d : step_throws (parse_key val s sts d).
Proof.
  unfold parse_key. apply with_token_throws. intros t s1. case_bool_decide; [|by left].
  by apply with_token_throws.
Qed.

Lemma evaluate_state_throws s t sts d : step_throws (evaluate_state s t sts d).
Proof.
  destruct sts as [|[|] sts]; cbn [evaluate_state]; [done|..]; apply with_token_throws; intros t1 s1;
    (case_bool_decide; [apply with_token_throws; intros t2 s2|case_bool_decide; [done|by left]]); [done|].
  destruct t2; try (by left). apply parse_key_throws.
Qed.

Lemma parse_round_throws skip p : step_throws (parse_round skip p).
Proof.
  unfold parse_round. destruct skip; [apply evaluate_state_throws|]. unfold parse_value.
  destruct (last_token p); try apply evaluate_state_throws; try (by left).
  - destruct (isfinite literal); [apply evaluate_state_throws|by right].
  - apply with_token_throws. intros t s. destruct t; try done. apply evaluate_state_throws.
  - apply with_token_throws. intros t s.
    destruct t; try (by left); [apply parse_key_throws|apply evaluate_state_throws].
Qed.

Lemma sax_parse_internal_exn fuel skip p e :
  sax_parse_internal fuel skip p = Some (inr e) → parse_exns e.
Proof.
  revert skip p. induction fuel as [|fuel IH]; intros skip p; [done|]. cbn.
  pose proof (parse_round_throws skip p) as Ht. destruct (parse_round skip p); try done.
  - apply IH.
  - by intros [= <-].
Qed.

Lemma parse_exn fuel s e : parse fuel s = Some (inr e) → parse_exns e.
Proof.
  unfold parse. destruct (scan false true s) as [[t s'|m]|]; [|intros [= <-]; by left|done].
  destruct (sax_parse_internal fuel _ _) as [[p|e']|] eqn:E; [|intros [= <-]; by eapply sax_parse_internal_exn|done].
  destruct (get_token (m_lexer p)) as [[[t' s'']|e']|] eqn:E'; [|intros [= <-]; by eapply get_token_exn|done].
  case_bool_decide; [done|]. intros [= <-]. by left.
Qed.

(** More fuel changes nothing. *)
Lemma sax_parse_internal_fuel f g skip p r :
  (f ≤ g)%nat → sax_parse_internal f skip p = Some r → sax_parse_internal g skip p = Some r.
Proof.
  revert g skip p. induction f as [|f IH]; intros g skip p Hfg; [done|].
  destruct g as [|g]; [lia|]. cbn. destruct (parse_round skip p); try done. apply IH. lia.
Qed.

(** With any fuel that lets the loop end, [json_parse] is that result. *)
Lemma parse_json_parse fuel s r : parse fuel s = Some r → json_parse s = r.
Proof.
  intros H. unfold json_parse. destruct (parse_total_some s) as [r' Hr']. rewrite Hr'. cbn.
  unfold parse in *. destruct (scan false true s) as [[t s'|m]|]; [|congruence|done].
  destruct (sax_parse_internal fuel _ _) as [a|] eqn:E1; [|done].
  destruct (sax_parse_internal (parse_fuel s) _ _) as [b|] eqn:E2; [|done].
  assert (a = b) as ->; [|congruence].
  destruct (Nat.le_ge_cases fuel (parse_fuel s)) as [Hle|Hle].
  - pose proof (sax_parse_internal_fuel _ _ _ _ _ Hle E1). congruence.
  - pose proof (sax_parse_internal_fuel _ _ _ _ _ Hle E2). congruence.
Qed.

(** ** Property *)

(** On every input [json::parse] returns a value or throws
    [parse_error.101] or [out_of_range.406]: the rounds of the parser and of the lexer are
    bounded by the number of characters that are left. *)
Lemma parse_total s :
  ∃ r, parse (parse_fuel s) s = Some r ∧
    match r with inl _ => True | inr e => e = ExJsonParse 101 ∨ e = ExJsonOutOfRange 406 end.
Proof.
  destruct (parse_total_some s) as [r Hr]. exists r. split; [done|]. destruct r as [j|e]; [done|]. by eapply parse_exn.
Qed.
