(* ===== verification/JsonDump.v ===== *)
(** * JsonDump: the serializer of the JSON library
      ([include/nlohmann/json.hpp], class [serializer])

    [dump_escaped] with its buffer of 512 bytes, its flushes and its three ways to
    treat invalid UTF-8; [dump_integer] with its digit pairs written backwards into
    [number_buffer]; [dump] with and without indentation.  [to_chars], the shortest
    text of a floating-point number, is a parameter. *)

From S2P Require Import Prelude CString Prog Utf8 JsonValue.

(** ** [dump_escaped] *)

Inductive error_handler_t := strict | replace | ignore.

(** The local variables; [string_buffer] holds the [bytes] bytes written to it. *)
Record escaping := mkEscaping {
  o : bytes;
  string_buffer : bytes;
  codepoint : Z;
  state : Z;
  bytes_after_last_accept : Z;
  undumped_chars : Z
}.

Definition STRING_BUFFER : Z := 512.

(** Write [added] at [string_buffer.data() + bytes]; [snprintf] also writes a terminator,
    which [room] counts. *)
Definition append (added : bytes) (room : Z) (e : escaping) : dres escaping :=
  if STRING_BUFFER <? blen (string_buffer e) + room then DUndef UB_buffer_overflow
  else DOk (mkEscaping (o e) (string_buffer e ++ added) (codepoint e) (state e)
              (bytes_after_last_accept e) (undumped_chars e)).

(** "write buffer and reset index; there must be 13 bytes left". *)
Definition flush (e : escaping) : escaping :=
  if STRING_BUFFER - blen (string_buffer e) <? 13
  then mkEscaping (o e ++ string_buffer e) [] (codepoint e) (state e)
         (bytes_after_last_accept e) (undumped_chars e)
  else e.

Definition lower_hex (z : Z) : ascii := if z <? 10 then Zbyte (48 + z) else Zbyte (87 + z).

(** [\u%04x]. *)
Definition u_escape (z : Z) : bytes :=
  [("\")%char; "u"%char; lower_hex (z / 4096 mod 16); lower_hex (z / 256 mod 16);
   lower_hex (z / 16 mod 16); lower_hex (z mod 16)].

(** What is written for a code point whose last byte is [c], and the room it takes. *)
Definition escape (ensure_ascii : bool) (codepoint : Z) (c : ascii) : bytes * Z :=
  match codepoint with
  | 0x08 => (b#"\b", 2)
  | 0x09 => (b#"\t", 2)
  | 0x0A => (b#"\n", 2)
  | 0x0C => (b#"\f", 2)
  | 0x0D => (b#"\r", 2)
  | 0x22 => ([("\")%char; "034"%char], 2)
  | 0x5C => (b#"\\", 2)
  | _ =>
      if (codepoint <=? 0x1F) || ensure_ascii && (0x7F <=? codepoint) then
        if codepoint <=? 0xFFFF then (u_escape (wrap 16 codepoint), 7)
        else (u_escape (wrap 16 (0xD7C0 + Z.shiftr codepoint 10)) ++
              u_escape (wrap 16 (0xDC00 + Z.land codepoint 0x3FF)), 13)
      else ([c], 1)
  end.

(** [case UTF8_ACCEPT]. *)
Definition accept_byte (ensure_ascii : bool) (c : ascii) (e : escaping) : dres escaping :=
  let '(added, room) := escape ensure_ascii (codepoint e) c in
  e ← append added room e;
  let e := flush e in
  mret (mkEscaping (o e) (string_buffer e) (codepoint e) (state e) (blen (string_buffer e)) 0).

Definition replacement (ensure_ascii : bool) : bytes :=
  if ensure_ascii then b#"\ufffd" else ["239"; "191"; "189"]%char.

(** [case UTF8_REJECT]; the flag asks for the byte to be read again ([--i]). *)
Definition reject_byte (error_handler : error_handler_t) (ensure_ascii : bool) (e : escaping)
    : dres (escaping * bool) :=
  match error_handler with
  | strict => DThrow (ExJsonType 316)
  | ignore | replace =>
      let again := 0 <? undumped_chars e in
      let e := mkEscaping (o e) (take (Z.to_nat (bytes_after_last_accept e)) (string_buffer e))
                 (codepoint e) (state e) (bytes_after_last_accept e) (undumped_chars e) in
      e ← match error_handler with
          | replace =>
              e ← append (replacement ensure_ascii) (blen (replacement ensure_ascii)) e;
              let e := flush e in
              mret (mkEscaping (o e) (string_buffer e) (codepoint e) (state e)
                      (blen (string_buffer e)) (undumped_chars e))
          | _ => mret e
          end;
      mret (mkEscaping (o e) (string_buffer e) (codepoint e) UTF8_ACCEPT (bytes_after_last_accept e) 0, again)
  end.

(** [default]: an incomplete code point. *)
Definition incomplete_byte (ensure_ascii : bool) (c : ascii) (e : escaping) : dres escaping :=
  e ← (if ensure_ascii then mret e else append [c] 1 e);
  mret (mkEscaping (o e) (string_buffer e) (codepoint e) (state e)
          (bytes_after_last_accept e) (undumped_chars e + 1)).

(** One round of the loop; the flag is [--i]. *)
Definition escape_round (h : error_handler_t) (ensure_ascii : bool) (c : ascii) (e : escaping)
    : dres (escaping * bool) :=
  let '(st, cp) := decode (state e) (codepoint e) (byteZ c) in
  let e := mkEscaping (o e) (string_buffer e) cp st (bytes_after_last_accept e) (undumped_chars e) in
  if st =? UTF8_ACCEPT then e ← accept_byte ensure_ascii c e; mret (e, false)
  else if st =? UTF8_REJECT then reject_byte h ensure_ascii e
  else e ← incomplete_byte ensure_ascii c e; mret (e, false).

(** The rounds that read [c]: a rejected byte is read again once. *)
Definition escape_byte (h : error_handler_t) (ensure_ascii : bool) (c : ascii) (e : escaping)
    : dres escaping :=
  '(e, again) ← escape_round h ensure_ascii c e;
  if (again : bool) then '(e, _) ← escape_round h ensure_ascii c e; mret e else mret e.

Fixpoint escape_bytes (h : error_handler_t) (ensure_ascii : bool) (s : bytes) (e : escaping)
    : dres escaping :=
  match s with
  | [] => mret e
  | c :: s => e ← escape_byte h ensure_ascii c e; escape_bytes h ensure_ascii s e
  end.

(** After the loop: what the call writes to the output. *)
Definition escape_end (h : error_handler_t) (ensure_ascii : bool) (e : escaping) : dres bytes :=
  if state e =? UTF8_ACCEPT then mret (o e ++ string_buffer e)
  else
    let accepted := take (Z.to_nat (bytes_after_last_accept e)) (string_buffer e) in
    match h with
    | strict => DThrow (ExJsonType 316)
    | ignore => mret (o e ++ accepted)
    | replace => mret (o e ++ accepted ++ replacement ensure_ascii)
    end.

Definition dump_escaped (h : error_handler_t) (ensure_ascii : bool) (s : bytes) : dres bytes :=
  e ← escape_bytes h ensure_ascii s (mkEscaping [] [] 0 UTF8_ACCEPT 0 0);
  escape_end h ensure_ascii e.

(** ** [dump_integer] *)

Definition digits_to_99 (i : Z) : bytes := [digit_char (i / 10); digit_char (i mod 10)].

Fixpoint count_digits (fuel : nat) (x : Z) : Z :=
  match fuel with
  | O => 0
  | S f =>
      if x <? 10 then 1
      else if x <? 100 then 2
      else if x <? 1000 then 3
      else if x <? 10000 then 4
      else 4 + count_digits f (x / 10000)
  end.

(** The characters written backwards from [buffer_ptr]. *)
Fixpoint write_pairs (fuel : nat) (abs_value : Z) (text : bytes) : bytes :=
  match fuel with
  | O => text
  | S f =>
      if 100 <=? abs_value then write_pairs f (abs_value / 100) (digits_to_99 (abs_value mod 100) ++ text)
      else if 10 <=? abs_value then digits_to_99 abs_value ++ text
      else digit_char abs_value :: text
  end.

(** [remove_sign]: the absolute value of a negative [int64_t], as [uint64_t]. *)
Definition remove_sign (x : Z) : Z := wrap 64 (wrap 64 (- (x + 1)) + 1).

(** A 64-bit number is at most 20 digits long: five rounds of four, ten pairs. *)
Definition DIGIT_FUEL : nat := 12.

(** The characters written for [x]; [number_buffer] is what an earlier call left. *)
Definition dump_integer (number_buffer : bytes) (x : Z) : bytes :=
  if x =? 0 then b#"0"
  else
    let abs_value := if x <? 0 then remove_sign x else x in
    let n_chars := (if x <? 0 then 1 else 0) + count_digits DIGIT_FUEL abs_value in
    let number_buffer := if x <? 0 then overlay b#"-" number_buffer else number_buffer in
    let text := write_pairs DIGIT_FUEL abs_value [] in
    take (Z.to_nat (n_chars - blen text)) number_buffer ++ text.

(** ** [dump] *)

(** [to_chars] of the number a literal denotes. *)
Class FloatText := to_chars : bytes → bytes.

(** What changes during [dump]: the output and the string of indentation characters. *)
Record dumping := mkDumping { output : bytes; indent_string : bytes }.

Definition write (s : bytes) (d : dumping) : dumping := mkDumping (output d ++ s) (indent_string d).

(** [write_characters(indent_string.c_str(), n)] reads up to the terminator of the string. *)
Definition write_indent (n : Z) (d : dumping) : dres dumping :=
  if blen (indent_string d) + 1 <? n then DUndef UB_over_read
  else mret (write (take (Z.to_nat n) (indent_string d ++ [NUL])) d).

Definition grow_indent (n : Z) (d : dumping) : dumping :=
  if blen (indent_string d) <? n
  then mkDumping (output d) (indent_string d ++ replicate (length (indent_string d)) SPC)
  else d.

(** The loop over members or elements: all but the last are followed by a separator. *)
Definition dump_items {A} (item : A → dumping → dres dumping) (separator : bytes) :
    list A → dumping → dres dumping :=
  fix go l d :=
  match l with
  | [] => mret d
  | x :: l' =>
      d ← item x d;
      match l' with [] => mret d | _ => go l' (write separator d) end
  end.

Definition QUOTED (s : bytes) : bytes := QUOTE :: s ++ [QUOTE].

Section dump.
Context `{FloatText} (h : error_handler_t) (ensure_ascii : bool) (indent_step : Z).

(** [dump_integer] of each element, separated by [sep]. *)
Definition dump_byte (c : ascii) (d : dumping) : dumping := write (dump_integer (zeros 64) (byteZ c)) d.
Fixpoint dump_bytes (sep : bytes) (data : bytes) (d : dumping) : dumping :=
  match data with
  | [] => d
  | [c] => dump_byte c d
  | c :: data => dump_bytes sep data (write sep (dump_byte c d))
  end.

Definition dump_subtype (subtype : option Z) (d : dumping) : dumping :=
  match subtype with
  | Some t => write (dump_integer (zeros 64) t) d
  | None => write b#"null" d
  end.

Definition dump_binary (pretty_print : bool) (current_indent : Z) (data : bytes) (subtype : option Z)
    (d : dumping) : dres dumping :=
  if pretty_print then
    let d := write (b#"{" ++ [LF]) d in
    let new_indent := wrap 32 (current_indent + indent_step) in
    let d := grow_indent new_indent d in
    d ← write_indent new_indent d;
    let d := write (QUOTED b#"bytes" ++ b#": [") d in
    let d := dump_bytes b#", " data d in
    let d := write (b#"]," ++ [LF]) d in
    d ← write_indent new_indent d;
    let d := write (QUOTED b#"subtype" ++ b#": ") d in
    let d := dump_subtype subtype d in
    let d := write [LF] d in
    d ← write_indent current_indent d;
    mret (write b#"}" d)
  else
    let d := write (b#"{" ++ QUOTED b#"bytes" ++ b#":[") d in
    let d := dump_bytes b#"," data d in
    let d := write (b#"]," ++ QUOTED b#"subtype" ++ b#":") d in
    mret (write b#"}" (dump_subtype subtype d)).

(** A key, its quotes and what separates it from its value. *)
Definition dump_key (k sep : bytes) (d : dumping) : dres dumping :=
  key ← dump_escaped h ensure_ascii k;
  mret (write (QUOTED key ++ sep) d).

Fixpoint dump (pretty_print : bool) (val : json) (current_indent : Z) (d : dumping) {struct val}
    : dres dumping :=
  let new_indent := wrap 32 (current_indent + indent_step) in
  match val with
  | JObject [] => mret (write b#"{}" d)
  | JObject ms =>
      if pretty_print then
        let d := grow_indent new_indent (write (b#"{" ++ [LF]) d) in
        d ← dump_items (λ '(k, v) d, d ← write_indent new_indent d;
                                     d ← dump_key k b#": " d;
                                     dump true v new_indent d) (b#"," ++ [LF]) ms d;
        d ← write_indent current_indent (write [LF] d);
        mret (write b#"}" d)
      else
        d ← dump_items (λ '(k, v) d, d ← dump_key k b#":" d; dump false v current_indent d) b#"," ms
              (write b#"{" d);
        mret (write b#"}" d)
  | JArray [] => mret (write b#"[]" d)
  | JArray es =>
      if pretty_print then
        let d := grow_indent new_indent (write (b#"[" ++ [LF]) d) in
        d ← dump_items (λ v d, d ← write_indent new_indent d; dump true v new_indent d)
              (b#"," ++ [LF]) es d;
        d ← write_indent current_indent (write [LF] d);
        mret (write b#"]" d)
      else
        d ← dump_items (λ v d, dump false v current_indent d) b#"," es (write b#"[" d);
        mret (write b#"]" d)
  | JString s => t ← dump_escaped h ensure_ascii s; mret (write (QUOTED t) d)
  | JBinary data subtype => dump_binary pretty_print current_indent data subtype d
  | JBoolean b => mret (write (if b then b#"true" else b#"false") d)
  | JInteger z | JUnsigned z => mret (write (dump_integer (zeros 64) z) d)
  | JFloat l => mret (write (to_chars l) d)
  | JDiscarded => mret (write b#"<discarded>" d)
  | JNull => mret (write b#"null" d)
  end.
End dump.

(** [basic_json::dump(indent, indent_char, ensure_ascii, error_handler)]. *)
Definition json_dump `{FloatText} (j : json) (indent : Z) (indent_char : ascii) (ensure_ascii : bool)
    (h : error_handler_t) : dres bytes :=
  let start := mkDumping [] (replicate 512 indent_char) in
  d ← (if 0 <=? indent then dump h ensure_ascii (wrap 32 indent) true j 0 start
       else dump h ensure_ascii 0 false j 0 start);
  mret (output d).

(** [j.dump()], [to_string(j)], and the text of [std::cout << j]. *)
Definition json_to_string `{FloatText} (j : json) : dres bytes := json_dump j (-1) SPC false strict.
