(* ===== verification/JsonStrings.v ===== *)
(** * JsonStrings: escaping and scanning strings

    [dump_escaped] never overruns its buffer, in none of its modes; it rejects in strict
    mode exactly the strings that are not valid UTF-8; and [scan_string] reads back
    what it writes, with and without [ensure_ascii]. *)

From S2P Require Import Prelude CString Prog Utf8 JsonValue JsonLexer JsonDump.

(** What stands for a code point in an escaped string. *)
Definition escape_cp (ensure_ascii : bool) (cp : Z) : bytes :=
  if (cp <? 0x80) || ensure_ascii then (escape ensure_ascii cp (Zbyte cp)).1 else utf8_encode cp.

Definition decoded (cps : list Z) : bytes := concat (utf8_encode <$> cps).
Definition escaped (ensure_ascii : bool) (cps : list Z) : bytes := concat (escape_cp ensure_ascii <$> cps).

(** ** The buffer *)

(** Between characters: at least 13 bytes are free and everything written was accepted. *)
Definition ready (e : escaping) : Prop :=
  state e = UTF8_ACCEPT ∧ blen (string_buffer e) ≤ 499 ∧
  bytes_after_last_accept e = blen (string_buffer e) ∧ undumped_chars e = 0.

(** The bytes of an incomplete character that are in the buffer already. *)
Definition slack (ensure_ascii : bool) (r : list (Z * Z)) : Z :=
  if ensure_ascii then 0 else match r with [] => 0 | _ => 4 - blen r end.

(** Inside a character that still waits for [r]. *)
Definition buffer_ok (ensure_ascii : bool) (e : escaping) : Prop :=
  0 ≤ bytes_after_last_accept e ≤ 499 ∧
  ∃ r, state_ranges (state e) = Some r ∧
    blen (string_buffer e) ≤ 499 + slack ensure_ascii r.

Lemma slack_le ensure_ascii r : slack ensure_ascii r ≤ 3.
Proof.
  unfold slack. destruct ensure_ascii; [lia|]. destruct r as [|p r]; [lia|].
  rewrite blen_cons. pose proof (blen_nonneg r). lia.
Qed.

Lemma append_ok added room e :
  blen (string_buffer e) + room ≤ 512 →
  append added room e =
  DOk (mkEscaping (o e) (string_buffer e ++ added) (codepoint e) (state e)
         (bytes_after_last_accept e) (undumped_chars e)).
Proof. intros H. unfold append, STRING_BUFFER. destruct (Z.ltb_spec 512 (blen (string_buffer e) + room)); [lia|done]. Qed.

Lemma flush_spec e :
  blen (string_buffer (flush e)) ≤ 499 ∧ o (flush e) ++ string_buffer (flush e) = o e ++ string_buffer e ∧
  state (flush e) = state e ∧ codepoint (flush e) = codepoint e.
Proof.
  unfold flush, STRING_BUFFER. destruct (Z.ltb_spec (512 - blen (string_buffer e)) 13); cbn.
  - rewrite app_nil_r. split; [unfold blen; cbn; lia|done].
  - split; [lia|done].
Qed.

Definition room_for (ensure_ascii : bool) (cp : Z) : Z :=
  if ensure_ascii then 13 else if cp <? 0x80 then 7 else 1.

(** What is written for one code point fits the room that the flush leaves. *)
Lemma escape_room ensure_ascii cp c :
  0 < (escape ensure_ascii cp c).2 ≤ room_for ensure_ascii cp ∧
  blen (escape ensure_ascii cp c).1 ≤ (escape ensure_ascii cp c).2.
Proof.
  unfold escape.
  assert (∀ x : bytes * Z, x = (if (cp <=? 0x1F) || ensure_ascii && (0x7F <=? cp)
      then if cp <=? 0xFFFF then (u_escape (wrap 16 cp), 7)
           else (u_escape (wrap 16 (0xD7C0 + Z.shiftr cp 10)) ++
                 u_escape (wrap 16 (0xDC00 + Z.land cp 0x3FF)), 13)
      else ([c], 1)) →
    0 < x.2 ≤ room_for ensure_ascii cp ∧ blen x.1 ≤ x.2) as Hx.
  { intros x ->. unfold room_for. destruct ensure_ascii; cbn [andb].
    - destruct (_ || _); [|cbn; unfold blen; cbn; lia].
      destruct (cp <=? 0xFFFF); cbn [fst snd]; unfold blen; cbn; lia.
    - rewrite orb_false_r. destruct (Z.leb_spec cp 0x1F), (Z.ltb_spec cp 0x80); try lia;
        try (destruct (Z.leb_spec cp 0xFFFF); [|lia]); cbn [fst snd]; unfold blen; cbn; lia. }
  assert (∀ s : bytes, length s = 2%nat → 0 < 2 ≤ room_for ensure_ascii cp →
    0 < (s, 2).2 ≤ room_for ensure_ascii cp ∧ blen (s, 2).1 ≤ (s, 2).2) as H2.
  { intros s Hs Hb. split; [done|]. cbn. unfold blen. lia. }
  destruct cp as [|p|p]; try (by apply Hx).
  repeat (first [by apply Hx | apply H2; [done|destruct ensure_ascii; cbn; lia] | destruct p as [p|p|]]).
Qed.

(** The round of a byte that completes a code point. *)
Lemma accept_byte_ok ensure_ascii c e :
  blen (string_buffer e) + (escape ensure_ascii (codepoint e) c).2 ≤ 512 → state e = UTF8_ACCEPT →
  ∃ e', accept_byte ensure_ascii c e = DOk e' ∧ ready e' ∧
    o e' ++ string_buffer e' = o e ++ string_buffer e ++ (escape ensure_ascii (codepoint e) c).1.
Proof.
  intros Hroom Hst. unfold accept_byte. destruct (escape ensure_ascii (codepoint e) c) as [added room] eqn:E.
  cbn [fst snd] in *. rewrite append_ok by done. cbn [mbind dres_bind mret dres_ret].
  destruct (flush_spec (mkEscaping (o e) (string_buffer e ++ added) (codepoint e) (state e)
    (bytes_after_last_accept e) (undumped_chars e))) as (Hb & Ho & Hs & _).
  eexists. split; [done|]. split; [|exact Ho]. split; [cbn; by rewrite Hs|]. by split.
Qed.

(** ** No mode overruns the buffer *)

Lemma blen_take_le {A} n (s : list A) : blen (take n s) ≤ blen s ∧ blen (take n s) ≤ Z.of_nat n.
Proof. unfold blen. rewrite length_take. lia. Qed.

(** A rejected byte resets the buffer to the last accepted one. *)
Lemma reject_byte_ok h ensure_ascii e :
  0 ≤ bytes_after_last_accept e ≤ 499 →
  match reject_byte h ensure_ascii e with
  | DOk (e', again) => buffer_ok ensure_ascii e' ∧ state e' = UTF8_ACCEPT ∧ undumped_chars e' = 0 ∧
      again = (0 <? undumped_chars e)
  | DThrow ex => h = strict ∧ ex = ExJsonType 316
  | DUndef _ => False
  end.
Proof.
  intros Ha. pose proof (blen_take_le (Z.to_nat (bytes_after_last_accept e)) (string_buffer e)) as [_ Ht].
  rewrite Z2Nat.id in Ht by lia.
  assert (blen (replacement ensure_ascii) ≤ 6) as Hr by (destruct ensure_ascii; unfold blen; cbn; lia).
  assert (∀ e', state e' = UTF8_ACCEPT → 0 ≤ bytes_after_last_accept e' ≤ 499 →
    blen (string_buffer e') ≤ 499 → buffer_ok ensure_ascii e') as Hok.
  { intros e' Hs Hb Hl. split; [done|]. exists []. rewrite Hs. split; [done|]. destruct ensure_ascii; cbn; lia. }
  destruct h; cbn [reject_byte]; [done| |].
  - rewrite append_ok by (cbn [string_buffer]; lia).
    cbn [mbind dres_bind mret dres_ret].
    match goal with |- context [flush ?x] => destruct (flush_spec x) as (Hb & _); generalize dependent (flush x) end.
    intros e1 Hb. pose proof (blen_nonneg (string_buffer e1)).
    split; [|done]. apply Hok; cbn; [done|lia|done].
  - cbn [mbind dres_bind mret dres_ret]. split; [|done]. apply Hok; cbn; [done|lia|lia].
Qed.

Lemma incomplete_byte_ok ensure_ascii c e (r r' : list (Z * Z)) :
  0 ≤ bytes_after_last_accept e ≤ 499 → state_ranges (state e) = Some r' → r' ≠ [] →
  ranges_step r (byteZ c) = Some r' →
  blen (string_buffer e) ≤ 499 + slack ensure_ascii r →
  ∃ e', incomplete_byte ensure_ascii c e = DOk e' ∧ buffer_ok ensure_ascii e' ∧
    state e' = state e ∧ codepoint e' = codepoint e ∧
    bytes_after_last_accept e' = bytes_after_last_accept e ∧ o e' = o e ∧
    string_buffer e' = string_buffer e ++ (if ensure_ascii then [] else [c]).
Proof.
  intros Ha Hst Hr' Hstep Hb. unfold incomplete_byte.
  destruct (state_ranges_tight _ _ Hst) as [_ Hl]. pose proof (blen_nonneg r) as Hr0.
  destruct ensure_ascii.
  - cbn. eexists. split; [done|]. cbn. rewrite app_nil_r. split; [|done].
    split; [done|]. exists r'. split; [done|]. cbn in *. lia.
  - pose proof (slack_le false r). rewrite append_ok by lia. cbn.
    eexists. split; [done|]. cbn. split; [|done]. split; [done|]. exists r'. split; [done|]. cbn.
    rewrite blen_app, blen_cons, blen_nil. destruct r' as [|p' r']; [done|].
    destruct r as [|[lo hi] r]; cbn in Hb.
    + unfold blen in *. lia.
    + cbn in Hstep. destruct (_ && _); [|done]. injection Hstep as ->.
      rewrite blen_cons in Hb. lia.
Qed.

Lemma escape_round_ok h ensure_ascii c e :
  buffer_ok ensure_ascii e →
  match escape_round h ensure_ascii c e with
  | DOk (e', again) => buffer_ok ensure_ascii e' ∧ (undumped_chars e ≤ 0 → again = false) ∧
      (again = true → undumped_chars e' = 0)
  | DThrow ex => h = strict ∧ ex = ExJsonType 316
  | DUndef _ => False
  end.
Proof.
  intros (Ha & r & Hr & Hb). unfold escape_round. pose proof (blen_nonneg r) as Hr0.
  destruct (decode_ranges (state e) r (codepoint e) (byteZ c) Hr (byteZ_range c)) as (Hstep & Hrej & _).
  destruct (decode (state e) (codepoint e) (byteZ c)) as [st cp] eqn:Hd. cbn [fst] in *.
  set (e0 := mkEscaping _ _ _ _ _ _).
  destruct (Z.eqb_spec st UTF8_ACCEPT) as [->|Hacc]; [|destruct (Z.eqb_spec st UTF8_REJECT) as [->|Hnrej]].
  - destruct (accept_byte_ok ensure_ascii c e0) as (e' & -> & (Hs & Hl & Hbl & Hu) & _); [|done|].
    + destruct (escape_room ensure_ascii cp c) as [[_ Hroom] _]. cbn [string_buffer codepoint e0].
      pose proof (slack_le ensure_ascii r). unfold room_for in Hroom.
      destruct ensure_ascii; [cbn in Hb; lia|]. destruct (cp <? 0x80); lia.
    + cbn. split; [|done]. split; [pose proof (blen_nonneg (string_buffer e')); lia|].
      exists []. rewrite Hs. split; [done|]. destruct ensure_ascii; cbn; lia.
  - pose proof (reject_byte_ok h ensure_ascii e0 Ha) as H.
    destruct (reject_byte h ensure_ascii e0) as [[e' again]|ex|u]; [|done|done].
    destruct H as (Hok & _ & Hu & ->). split; [done|]. cbn [undumped_chars e0]. split; [|done].
    intros Hle. by apply Z.ltb_ge.
  - destruct Hrej as [->|[r' Hr']]; [done|]. rewrite Hr' in Hstep.
    destruct (incomplete_byte_ok ensure_ascii c e0 r r') as (e' & -> & Hok & _); try done.
    intros ->. by apply state_accept in Hr'.
Qed.

Lemma escape_bytes_ok h ensure_ascii s e :
  buffer_ok ensure_ascii e →
  match escape_bytes h ensure_ascii s e with
  | DOk e' => buffer_ok ensure_ascii e'
  | DThrow ex => h = strict ∧ ex = ExJsonType 316
  | DUndef _ => False
  end.
Proof.
  revert e. induction s as [|c s IH]; intros e He; [done|]. cbn [escape_bytes]. unfold escape_byte.
  pose proof (escape_round_ok h ensure_ascii c e He) as H1.
  destruct (escape_round h ensure_ascii c e) as [[e1 again]|ex|u]; [|done|done].
  destruct H1 as (Hok & _ & _). cbn [mbind dres_bind]. destruct again; [|by apply IH].
  pose proof (escape_round_ok h ensure_ascii c e1 Hok) as H2.
  destruct (escape_round h ensure_ascii c e1) as [[e2 again]|ex|u]; [|done|done].
  destruct H2 as (Hok2 & _ & _). cbn. by apply IH.
Qed.

Lemma start_ok ensure_ascii : buffer_ok ensure_ascii (mkEscaping [] [] 0 UTF8_ACCEPT 0 0).
Proof.
  split; [cbn; lia|]. exists []. split; [done|]. cbn [string_buffer]. rewrite blen_nil.
  destruct ensure_ascii; cbn; lia.
Qed.

(** ** What is written for a character *)

Definition short_escapes : list Z := [0x08; 0x09; 0x0A; 0x0C; 0x0D; 0x22; 0x5C].

Lemma escape_default ensure_ascii cp c :
  cp ∉ short_escapes →
  escape ensure_ascii cp c =
    if (cp <=? 0x1F) || ensure_ascii && (0x7F <=? cp) then
        if cp <=? 0xFFFF then (u_escape (wrap 16 cp), 7)
        else (u_escape (wrap 16 (0xD7C0 + Z.shiftr cp 10)) ++
              u_escape (wrap 16 (0xDC00 + Z.land cp 0x3FF)), 13)
      else ([c], 1).
Proof.
  unfold short_escapes. rewrite !not_elem_of_cons. intros (?&?&?&?&?&?&?&_). unfold escape. destruct cp as [|p|p]; [done| |done].
  repeat (first [reflexivity | (exfalso; congruence) | destruct p as [p|p|]]).
Qed.

Lemma high_not_short cp : 0x80 ≤ cp → cp ∉ short_escapes.
Proof. intros. unfold short_escapes. rewrite !not_elem_of_cons, elem_of_nil. lia. Qed.

Lemma escape_high ensure_ascii cp c :
  0x80 ≤ cp → escape ensure_ascii cp c = if ensure_ascii then escape true cp NUL else ([c], 1).
Proof.
  intros Hcp. pose proof (high_not_short cp Hcp).
  destruct ensure_ascii; rewrite !escape_default by done;
    destruct (Z.leb_spec cp 0x1F), (Z.leb_spec 0x7F cp); try lia; done.
Qed.

Lemma escape_bytes_app h ensure_ascii s s' e :
  escape_bytes h ensure_ascii (s ++ s') e =
  (e ← escape_bytes h ensure_ascii s e; escape_bytes h ensure_ascii s' e).
Proof.
  revert e. induction s as [|c s IH]; intros e; [done|]. cbn.
  destruct (escape_byte h ensure_ascii c e); cbn; [apply IH|done..].
Qed.

(** The state of [e] after the automaton has read a byte. *)
Definition decoded_state (c : ascii) (e : escaping) : escaping :=
  let '(st, cp) := decode (state e) (codepoint e) (byteZ c) in
  mkEscaping (o e) (string_buffer e) cp st (bytes_after_last_accept e) (undumped_chars e).

Lemma escape_byte_accept h ensure_ascii c e :
  state (decoded_state c e) = UTF8_ACCEPT →
  escape_byte h ensure_ascii c e = accept_byte ensure_ascii c (decoded_state c e).
Proof.
  unfold escape_byte, escape_round, decoded_state.
  destruct (decode _ _ _) as [st cp]. cbn [state]. intros ->. cbn.
  by destruct (accept_byte _ _ _).
Qed.

Lemma escape_byte_incomplete h ensure_ascii c e r :
  state_ranges (state (decoded_state c e)) = Some r → r ≠ [] →
  escape_byte h ensure_ascii c e = incomplete_byte ensure_ascii c (decoded_state c e).
Proof.
  unfold escape_byte, escape_round, decoded_state.
  destruct (decode _ _ _) as [st cp]. cbn [state]. intros Hr Hn.
  destruct (Z.eqb_spec st UTF8_ACCEPT) as [->|_]; [cbn in Hr; by simplify_eq|].
  destruct (Z.eqb_spec st UTF8_REJECT) as [->|_]; [done|].
  by destruct (incomplete_byte _ _ _).
Qed.

(** The bytes of a character after the first. *)
Lemma escape_next h ensure_ascii r t e :
  state_ranges (state e) = Some r → r ≠ [] → next_byte_in_range r t = Some (t, []) →
  0 ≤ codepoint e < codep_cap (length r) → 0x80 ≤ push_bits (codepoint e) t →
  0 ≤ bytes_after_last_accept e ≤ 499 → blen (string_buffer e) ≤ 499 + slack ensure_ascii r →
  ∃ e', escape_bytes h ensure_ascii t e = DOk e' ∧ ready e' ∧
    o e' ++ string_buffer e' = o e ++ string_buffer e ++
      (if ensure_ascii then (escape true (push_bits (codepoint e) t) NUL).1 else t).
Proof.
  revert t e. induction r as [|[lo hi] r IH]; intros t e Hst Hr Ht Hc Hcp Ha Hb; [done|].
  apply next_byte_in_range_cons in Ht as (x & s' & t' & -> & [= ->] & Hx & Ht).
  destruct (decode_ranges (state e) _ (codepoint e) (byteZ x) Hst (byteZ_range x)) as (Hstep & _ & _).
  destruct (state_ranges_tight _ _ Hst) as [Htight Hlen]. cbn in Htight. split_bools. cbn [fst snd] in *.
  assert (ranges_step ((lo, hi) :: r) (byteZ x) = Some r) as Hrs.
  { cbn. by destruct (Z.leb_spec lo (byteZ x)), (Z.leb_spec (byteZ x) hi); try lia. }
  rewrite Hrs in Hstep.
  assert (state e ≠ 0) as Hst0 by (intros E; rewrite E in Hst; done).
  assert (0 ≤ codepoint e < 2 ^ 26 ∧ codepoint e * 64 + 63 < codep_cap (length r)) as [Hc26 Hcap]
    by (destruct r as [|? [|? [|]]]; cbn in *; lia).
  pose proof (decode_next (state e) (codepoint e) (byteZ x) Hst0 ltac:(lia) Hc26) as Hcodep.
  assert (state_ranges (state (decoded_state x e)) = Some r ∧
    codepoint (decoded_state x e) = codepoint e * 64 + (byteZ x - 0x80) ∧
    o (decoded_state x e) = o e ∧ string_buffer (decoded_state x e) = string_buffer e ∧
    bytes_after_last_accept (decoded_state x e) = bytes_after_last_accept e) as (Hs1 & Hc1 & Ho1 & Hb1 & Ha1).
  { unfold decoded_state. destruct (decode _ _ _) as [st cp]. cbn in *. by subst cp. }
  change (push_bits (codepoint e) (x :: t')) with (push_bits (codepoint e * 64 + (byteZ x - 0x80)) t') in *.
  rewrite <- Hc1 in *. cbn [escape_bytes]. destruct r as [|p r].
  - cbn in Ht. injection Ht as <-. cbn [push_bits fold_left] in *. pose proof (state_accept _ Hs1) as Hs0.
    rewrite escape_byte_accept by done.
    destruct (accept_byte_ok ensure_ascii x (decoded_state x e)) as (e' & -> & Hready & Hout); [|done|].
    { rewrite Hb1, escape_high by done. pose proof (slack_le ensure_ascii [(lo, hi)]).
      destruct ensure_ascii; [|cbn [snd]; lia]. cbn [slack] in Hb.
      destruct (escape_room true (codepoint (decoded_state x e)) NUL) as [[_ Hroom] _]. cbn in Hroom. lia. }
    exists e'. split; [done|]. split; [done|]. rewrite Hout, Ho1, Hb1, escape_high by done.
    by destruct ensure_ascii.
  - rewrite (escape_byte_incomplete _ _ _ _ (p :: r)) by done.
    destruct (incomplete_byte_ok ensure_ascii x (decoded_state x e) ((lo, hi) :: p :: r) (p :: r))
      as (e1 & -> & Hok & Hs2 & Hc2 & Ha2 & Ho2 & Hb2); try done; try (by rewrite Ha1); try (by rewrite Hb1).
    cbn [mbind dres_bind]. destruct Hok as (_ & r1 & Hr1 & Hslack). rewrite Hs2, Hs1 in Hr1.
    injection Hr1 as <-.
    destruct (IH t' e1) as (e' & -> & Hready & Hout); rewrite ?Hs2, ?Hc2, ?Ha2, ?Ha1; try done.
    { rewrite Hc1. lia. }
    exists e'. split; [done|]. split; [done|]. rewrite Hout, Ho2, Hb2, Ho1, Hb1, Hc2.
    destruct ensure_ascii; by rewrite <- ?app_assoc, ?app_nil_r.
Qed.

(** A whole character from between characters. *)
Lemma escape_character h ensure_ascii cp e :
  scalar cp = true → ready e →
  ∃ e', escape_bytes h ensure_ascii (utf8_encode cp) e = DOk e' ∧ ready e' ∧
    o e' ++ string_buffer e' = o e ++ string_buffer e ++ escape_cp ensure_ascii cp.
Proof.
  intros Hcp (Hst & Hb & Ha & Hu). pose proof (blen_nonneg (string_buffer e)) as Hb0.
  destruct (encode_character cp Hcp) as (c & t & Henc & (r & Hr & Ht) & Hval). rewrite Henc.
  destruct (decode_ranges (state e) [] (codepoint e) (byteZ c)) as (Hstep & _ & _);
    [by rewrite Hst|apply byteZ_range|]. rewrite Hr in Hstep.
  pose proof (decode_lead (codepoint e) (byteZ c) r (byteZ_range c) Hr) as Hlead.
  assert (state_ranges (state (decoded_state c e)) = Some r ∧
    codepoint (decoded_state c e) = lead_bits (byteZ c) ∧
    o (decoded_state c e) = o e ∧ string_buffer (decoded_state c e) = string_buffer e ∧
    bytes_after_last_accept (decoded_state c e) = bytes_after_last_accept e) as (Hs1 & Hc1 & Ho1 & Hb1 & Ha1).
  { unfold decoded_state. rewrite Hst in *. unfold UTF8_ACCEPT in *.
    destruct (decode _ _ _) as [st cp']. cbn in *. by subst cp'. }
  cbn [escape_bytes]. unfold escape_cp. destruct t as [|x t].
  - assert (r = []) as -> by (destruct r as [|[lo hi] r]; [done|by cbn in Ht]).
    pose proof (state_accept _ Hs1). rewrite escape_byte_accept by done. cbn in Hval.
    assert (cp < 0x80) as Hlow.
    { revert Henc. unfold utf8_encode. destruct (Z.ltb_spec cp 0x80); [done|].
      by destruct (cp <=? 0x7FF), (cp <=? 0xFFFF). }
    destruct (Z.ltb_spec cp 0x80); [|lia]. cbn [orb].
    assert (c = Zbyte cp) as ->.
    { revert Henc. unfold utf8_encode. destruct (Z.ltb_spec cp 0x80); [|lia]. by intros [= <-]. }
    destruct (accept_byte_ok ensure_ascii (Zbyte cp) (decoded_state (Zbyte cp) e)) as (e' & -> & Hready & Hout); [|done|].
    { rewrite Hb1, Hc1, Hval. destruct (escape_room ensure_ascii cp (Zbyte cp)) as [[_ Hroom] _].
      unfold room_for in Hroom. destruct ensure_ascii; [lia|]. destruct (cp <? 0x80); lia. }
    exists e'. split; [done|]. split; [done|]. by rewrite Hout, Ho1, Hb1, Hc1, Hval.
  - assert (r ≠ []) as Hrn by (intros ->; by cbn in Ht).
    assert (0x80 ≤ cp) as Hhigh.
    { revert Henc. unfold utf8_encode. destruct (Z.ltb_spec cp 0x80); [done|lia]. }
    destruct (Z.ltb_spec cp 0x80); [lia|]. cbn [orb].
    rewrite (escape_byte_incomplete _ _ _ _ r) by done.
    destruct (incomplete_byte_ok ensure_ascii c (decoded_state c e) [] r)
      as (e1 & -> & Hok & Hs2 & Hc2 & Ha2 & Ho2 & Hb2); try done.
    { rewrite Ha1. lia. }
    { rewrite Hb1. destruct ensure_ascii; cbn; lia. }
    cbn [mbind dres_bind]. destruct Hok as (_ & r1 & Hr1 & Hslack). rewrite Hs2, Hs1 in Hr1.
    injection Hr1 as <-.
    destruct (escape_next h ensure_ascii r (x :: t) e1) as (e' & -> & Hready & Hout);
      rewrite ?Hs2, ?Hc2, ?Ha2, ?Ha1, ?Hc1, ?Hval; try done; [|lia|].
    { rewrite ranges_step_lead in Hr by apply byteZ_range. pose proof (byteZ_range c) as Hbr.
      unfold lead_spec in Hr. unfold lead_bits. revert Hr. decide_cmp; intros [= <-]; cbn; lia. }
    exists e'. split; [done|]. split; [done|]. rewrite Hout, Ho2, Hb2, Ho1, Hb1, Hc2, Hc1, Hval.
    destruct ensure_ascii.
    + rewrite app_nil_r. do 2 f_equal. by rewrite (escape_high true cp (Zbyte cp)).
    + by rewrite Henc, <- !app_assoc.
Qed.

Lemma escape_decoded h ensure_ascii cps e :
  Forall (λ cp, scalar cp = true) cps → ready e →
  ∃ e', escape_bytes h ensure_ascii (decoded cps) e = DOk e' ∧ ready e' ∧
    o e' ++ string_buffer e' = o e ++ string_buffer e ++ escaped ensure_ascii cps.
Proof.
  intros Hcps. revert e. induction Hcps as [|cp cps Hcp _ IH]; intros e He.
  - exists e. split; [done|]. split; [done|]. by rewrite app_nil_r.
  - change (decoded (cp :: cps)) with (utf8_encode cp ++ decoded cps). rewrite escape_bytes_app.
    change (escaped ensure_ascii (cp :: cps)) with (escape_cp ensure_ascii cp ++ escaped ensure_ascii cps).
    destruct (escape_character h ensure_ascii cp e Hcp He) as (e1 & -> & He1 & Hout1). cbn [mbind dres_bind].
    destruct (IH e1 He1) as (e2 & -> & He2 & Hout2). exists e2. split; [done|]. split; [done|].
    rewrite Hout2, app_assoc, Hout1. by rewrite <- !app_assoc.
Qed.

Lemma ready_start : ready (mkEscaping [] [] 0 UTF8_ACCEPT 0 0).
Proof. by repeat split. Qed.

(** The text of a valid string, in every mode. *)
Lemma dump_escaped_decoded h ensure_ascii cps :
  Forall (λ cp, scalar cp = true) cps →
  dump_escaped h ensure_ascii (decoded cps) = DOk (escaped ensure_ascii cps).
Proof.
  intros Hcps. unfold dump_escaped.
  destruct (escape_decoded h ensure_ascii cps _ Hcps ready_start) as (e & -> & (Hs & _) & Hout).
  cbn [mbind dres_bind]. unfold escape_end. rewrite Hs. cbn. cbn in Hout. by rewrite Hout.
Qed.

(** ** Reading the text back *)

Lemma hex_digit_lower d : 0 ≤ d < 16 → hex_digit (lower_hex d) = Some d.
Proof.
  intros Hd. assert ((match hex_digit (lower_hex d) with Some x => x =? d | None => false end) = true) as E
    by by apply (forall_below 16 (λ d, match hex_digit (lower_hex d) with Some x => x =? d | None => false end)).
  destruct (hex_digit (lower_hex d)); [|done]. by apply Z.eqb_eq in E as ->.
Qed.

(** The four digits of [\u%04x]. *)
Lemma get_codepoint_escape z rest :
  0 ≤ z < 0x10000 → get_codepoint (drop 2 (u_escape z) ++ rest) = Some (z, rest).
Proof.
  intros Hz. unfold get_codepoint, u_escape. cbn [drop app get_codepoint_from].
  rewrite !hex_digit_lower by (apply Z.mod_pos_bound; lia). do 2 f_equal.
  rewrite !Z.shiftl_mul_pow2 by lia. change (2 ^ 12) with 4096. change (2 ^ 8) with 256.
  change (2 ^ 4) with 16. change (2 ^ 0) with 1.
  pose proof (Z.div_mod z 16 ltac:(lia)). pose proof (Z.div_mod (z / 16) 16 ltac:(lia)).
  pose proof (Z.div_mod (z / 256) 16 ltac:(lia)). pose proof (Z.div_mod (z / 4096) 16 ltac:(lia)).
  rewrite Z.div_div in * by lia. change (16 * 16) with 256 in *. change (256 * 16) with 4096 in *.
  change (4096 * 16) with 65536 in *. rewrite (Z.div_small z 65536) in * by lia. lia.
Qed.

Lemma scan_escaped_unicode z rest :
  0 ≤ z < 0x10000 → (z < 0xD800 ∨ 0xDFFF < z) →
  scan_string_char (u_escape z ++ rest) = SMore (utf8_encode z) rest.
Proof.
  intros Hz Hs. pose proof (get_codepoint_escape z rest Hz) as Hg.
  unfold u_escape in *. cbn [drop app] in *.
  match goal with |- scan_string_char (_ :: _ :: ?x) = _ =>
    change (scan_string_char (("\")%char :: "u"%char :: x)) with (scan_unicode x) end.
  unfold scan_unicode. rewrite Hg.
  destruct (Z.leb_spec 0xD800 z), (Z.leb_spec z 0xDBFF), (Z.leb_spec 0xDC00 z), (Z.leb_spec z 0xDFFF);
    try lia; done.
Qed.

Lemma surrogates cp :
  0x10000 ≤ cp ≤ 0x10FFFF →
  let hi := wrap 16 (0xD7C0 + Z.shiftr cp 10) in
  let lo := wrap 16 (0xDC00 + Z.land cp 0x3FF) in
  0xD800 ≤ hi ≤ 0xDBFF ∧ 0xDC00 ≤ lo ≤ 0xDFFF ∧ surrogate_pair hi lo = cp.
Proof.
  intros Hcp hi lo.
  pose proof (Z.div_mod cp 1024 ltac:(lia)). pose proof (Z.mod_pos_bound cp 1024 ltac:(lia)).
  assert (64 ≤ cp / 1024 < 1088) by lia.
  assert (hi = 0xD7C0 + cp / 1024) as Hhi.
  { unfold hi, wrap. rewrite Z.shiftr_div_pow2 by lia. change (2 ^ 10) with 1024. rewrite Z.mod_small; lia. }
  assert (lo = 0xDC00 + cp mod 1024) as Hlo.
  { unfold lo, wrap. change 0x3FF with (Z.ones 10). rewrite Z.land_ones by lia. change (2 ^ 10) with 1024.
    rewrite (Z.mod_small (_ + _)); lia. }
  clearbody hi lo. split; [lia|]. split; [lia|]. unfold surrogate_pair.
  rewrite Z.shiftl_mul_pow2 by lia. change (2 ^ 10) with 1024. unfold wrap.
  rewrite (Z.mod_small (hi * 1024)) by lia. rewrite Z.mod_small; lia.
Qed.

Lemma scan_escaped_pair cp rest :
  0x10000 ≤ cp ≤ 0x10FFFF →
  scan_string_char
    ((u_escape (wrap 16 (0xD7C0 + Z.shiftr cp 10)) ++ u_escape (wrap 16 (0xDC00 + Z.land cp 0x3FF))) ++ rest)
  = SMore (utf8_encode cp) rest.
Proof.
  intros Hcp. destruct (surrogates cp Hcp) as (Hhi & Hlo & Hpair).
  set (hi := wrap 16 _) in *. set (lo := wrap 16 (0xDC00 + _)) in *. clearbody hi lo.
  pose proof (get_codepoint_escape hi (u_escape lo ++ rest) ltac:(lia)) as Hg1.
  pose proof (get_codepoint_escape lo rest ltac:(lia)) as Hg2. rewrite <- app_assoc.
  unfold u_escape in *. cbn [drop app] in *.
  match goal with |- scan_string_char (_ :: _ :: ?x) = _ =>
    change (scan_string_char (("\")%char :: "u"%char :: x)) with (scan_unicode x) end.
  unfold scan_unicode. rewrite Hg1.
  destruct (Z.leb_spec 0xD800 hi), (Z.leb_spec hi 0xDBFF); try lia. cbn [andb].
  change (bool_decide (("\")%char = ("\")%char) && bool_decide ("u"%char = "u"%char)) with true. cbn iota.
  rewrite Hg2. destruct (Z.leb_spec 0xDC00 lo), (Z.leb_spec lo 0xDFFF); try lia. cbn [andb]. by rewrite Hpair.
Qed.

(** A code point below 0x80 that has no short escape is written as itself or as [\u]. *)
Lemma escape_low ensure_ascii cp :
  0 ≤ cp → cp < 0x80 → cp ∉ short_escapes →
  ((escape ensure_ascii cp (Zbyte cp)).1 = u_escape cp ∧ 0 ≤ cp) ∨
  ((escape ensure_ascii cp (Zbyte cp)).1 = utf8_encode cp ∧ 0x20 ≤ cp).
Proof.
  intros H0 H1 Hn. rewrite escape_default by done.
  assert (u_escape (wrap 16 cp) = u_escape cp) as -> by (unfold wrap; rewrite Z.mod_small by lia; done).
  destruct (Z.leb_spec cp 0xFFFF); [|lia].
  destruct (Z.leb_spec cp 0x1F); cbn [orb]; [by left|].
  destruct (ensure_ascii && _); [by left|]. right. split; [|lia].
  unfold utf8_encode. by destruct (Z.ltb_spec cp 0x80); [|lia].
Qed.

(** Above it, [ensure_ascii] writes one or two [\u]. *)
Lemma escape_ascii cp :
  0x80 ≤ cp →
  ((escape true cp (Zbyte cp)).1 = u_escape cp ∧ cp ≤ 0xFFFF) ∨
  ((escape true cp (Zbyte cp)).1 =
     u_escape (wrap 16 (0xD7C0 + Z.shiftr cp 10)) ++ u_escape (wrap 16 (0xDC00 + Z.land cp 0x3FF)) ∧
   0x10000 ≤ cp).
Proof.
  intros Hcp. rewrite escape_default by (by apply high_not_short).
  destruct (Z.leb_spec cp 0x1F), (Z.leb_spec 0x7F cp); try lia. cbn [orb andb].
  destruct (Z.leb_spec cp 0xFFFF); cbn [fst]; [left|right; split; [done|lia]].
  split; [|done]. unfold wrap. by rewrite Z.mod_small by lia.
Qed.

(** The text of one code point is read back in one round of [scan_string]. *)
Lemma scan_escape_cp ensure_ascii cp rest :
  scalar cp = true → scan_string_char (escape_cp ensure_ascii cp ++ rest) = SMore (utf8_encode cp) rest.
Proof.
  intros Hcp. assert (0 ≤ cp ≤ 0x10FFFF ∧ ¬ (0xD800 ≤ cp ≤ 0xDFFF)) as [Hr Hns]
    by (unfold scalar in Hcp; apply orb_true_iff in Hcp as [?|?]; split_bools; lia).
  unfold escape_cp. destruct (Z.ltb_spec cp 0x80) as [Hlow|Hhigh]; cbn [orb].
  - destruct (decide (cp ∈ short_escapes)) as [Hin|Hin].
    { repeat (apply elem_of_cons in Hin as [->|Hin]; [reflexivity|]). by apply not_elem_of_nil in Hin. }
    destruct (escape_low ensure_ascii cp) as [[He Hc]|[He Hc]]; [lia|done|done| |]; rewrite He.
    + apply scan_escaped_unicode; lia.
    + unfold utf8_encode. destruct (Z.ltb_spec cp 0x80); [|lia]. cbn [app scan_string_char].
      assert (byteZ (Zbyte cp) = cp) as Hb by (apply byteZ_small; lia).
      assert (∀ d, byteZ d ≠ cp → Zbyte cp ≠ d) as Hne by (intros d Hd E; apply Hd; by rewrite <- E).
      rewrite !bool_decide_eq_false_2 by (apply Hne; intros <-; apply Hin; set_solver).
      rewrite Hb. destruct (Z.ltb_spec cp 0x20); [lia|].
      unfold string_ranges. destruct (Z.leb_spec 0x20 cp), (Z.leb_spec cp 0x7F); try lia. done.
  - destruct ensure_ascii.
    + destruct (escape_ascii cp Hhigh) as [[He Hc]|[He Hc]]; rewrite He.
      * apply scan_escaped_unicode; lia.
      * apply scan_escaped_pair. lia.
    + destruct (encode_character cp Hcp) as (c & t & Henc & (r & Hr' & Ht) & Hval). rewrite Henc.
      cbn [app scan_string_char].
      assert (0x80 ≤ byteZ c) as Hb.
      { rewrite ranges_step_lead in Hr' by apply byteZ_range. unfold lead_spec in Hr'.
        destruct (Z.ltb_spec (byteZ c) 0x80) as [Hlt|]; [|done]. injection Hr' as <-. cbn in Ht.
        injection Ht as <-. cbn in Hval. unfold lead_bits in Hval.
        destruct (Z.ltb_spec (byteZ c) 0x80); lia. }
      assert (∀ d, byteZ d < 0x80 → c ≠ d) as Hne by (intros d Hd ->; lia).
      rewrite !bool_decide_eq_false_2 by (by apply Hne).
      unfold ranges_step in Hr'. destruct (Z.ltb_spec (byteZ c) 0x20); [lia|]. rewrite Hr'.
      by rewrite (next_byte_in_range_app _ _ _ Ht).
Qed.

Lemma scan_string_escaped fuel ensure_ascii cps rest buf :
  Forall (λ cp, scalar cp = true) cps → (length cps < fuel)%nat →
  scan_string_loop fuel buf (escaped ensure_ascii cps ++ QUOTE :: rest)
  = Some (Token (value_string (buf ++ decoded cps)) rest).
Proof.
  intros Hcps. revert fuel buf. induction Hcps as [|cp cps Hcp _ IH]; intros fuel buf Hf.
  - destruct fuel as [|fuel]; [cbn in Hf; lia|]. cbn. by rewrite app_nil_r.
  - destruct fuel as [|fuel]; [cbn in Hf; lia|].
    change (escaped ensure_ascii (cp :: cps)) with (escape_cp ensure_ascii cp ++ escaped ensure_ascii cps).
    change (decoded (cp :: cps)) with (utf8_encode cp ++ decoded cps).
    rewrite <- app_assoc. cbn [scan_string_loop]. rewrite scan_escape_cp by done.
    rewrite IH by (cbn in Hf; lia). by rewrite app_assoc.
Qed.

(** Each code point is written with at least one byte. *)
Lemma length_escaped ensure_ascii cps :
  Forall (λ cp, scalar cp = true) cps → (length cps ≤ length (escaped ensure_ascii cps))%nat.
Proof.
  induction 1 as [|cp cps Hcp _ IH]; [done|].
  change (escaped ensure_ascii (cp :: cps)) with (escape_cp ensure_ascii cp ++ escaped ensure_ascii cps).
  pose proof (scan_escape_cp ensure_ascii cp [] Hcp) as H. apply scan_string_char_length in H.
  rewrite length_app in *. cbn in *. lia.
Qed.

Lemma scan_string_text ensure_ascii cps rest :
  Forall (λ cp, scalar cp = true) cps →
  scan_string (escaped ensure_ascii cps ++ QUOTE :: rest) = Some (Token (value_string (decoded cps)) rest).
Proof.
  intros Hcps. unfold scan_string. rewrite (scan_string_escaped _ _ _ _ []); [done|done|].
  pose proof (length_escaped ensure_ascii cps Hcps). rewrite length_app. lia.
Qed.

(** ** Strict mode *)

(** In strict mode the state follows the automaton. *)
Lemma escape_bytes_strict ensure_ascii s e e' :
  escape_bytes strict ensure_ascii s e = DOk e' →
  state e' = (run_decode (state e) (codepoint e) s).1.
Proof.
  revert e. induction s as [|c s IH]; intros e; cbn [escape_bytes run_decode]; [by intros [= <-]|].
  unfold escape_byte, escape_round. destruct (decode (state e) (codepoint e) (byteZ c)) as [st cp].
  destruct (st =? UTF8_ACCEPT); [|destruct (st =? UTF8_REJECT); [done|]].
  - unfold accept_byte. cbn [codepoint]. destruct (escape ensure_ascii cp c) as [added room].
    unfold append. destruct (_ <? _); [done|]. cbn [mbind dres_bind mret dres_ret].
    intros H%IH. rewrite H. cbn [state codepoint].
    match goal with |- context [flush ?x] => destruct (flush_spec x) as (_ & _ & -> & ->) end. done.
  - unfold incomplete_byte, append. destruct ensure_ascii; cbn [mbind dres_bind mret dres_ret].
    + intros H%IH. by rewrite H.
    + destruct (_ <? _); [done|]. cbn [mbind dres_bind mret dres_ret]. intros H%IH. by rewrite H.
Qed.

(** ** Properties *)

(** C35 (bounds): no string, valid or not, makes [dump_escaped] write past the end of its
    512-byte buffer, in any of the error handling modes, with or without
    [ensure_ascii]; and only the strict mode ever throws. *)
Theorem dump_escaped_no_overflow h ensure_ascii s :
  match dump_escaped h ensure_ascii s with
  | DOk _ => True
  | DThrow ex => h = strict ∧ ex = ExJsonType 316
  | DUndef _ => False
  end.
Proof.
  unfold dump_escaped. pose proof (escape_bytes_ok h ensure_ascii s _ (start_ok ensure_ascii)) as H.
  destruct (escape_bytes h ensure_ascii s _) as [e|ex|u]; [|done|done]. cbn [mbind dres_bind].
  unfold escape_end. destruct (state e =? UTF8_ACCEPT); [done|]. by destruct h.
Qed.

(** In strict mode, which [dump()] uses, a string that is not valid UTF-8
    throws [type_error.316], and a valid one never does. *)
Lemma dump_escaped_strict ensure_ascii s :
  dump_escaped strict ensure_ascii s = DThrow (ExJsonType 316) ↔ ¬ utf8_valid s.
Proof.
  split.
  - intros H (cps & Hcps & ->). change (concat _) with (decoded cps) in H.
    by rewrite dump_escaped_decoded in H.
  - intros Hn. unfold dump_escaped.
    pose proof (escape_bytes_ok strict ensure_ascii s _ (start_ok ensure_ascii)) as H.
    destruct (escape_bytes strict ensure_ascii s _) as [e|ex|u] eqn:E; [|by destruct H as [_ ->]|done].
    cbn [mbind dres_bind]. apply escape_bytes_strict in E. cbn [state codepoint] in E.
    unfold escape_end. destruct (Z.eqb_spec (state e) UTF8_ACCEPT) as [Ha|]; [|done].
    destruct Hn. apply run_ranges_valid, (run_decode_accept 0). congruence.
Qed.

(** [scan_string] reads back what [dump_escaped] writes for a valid string,
    up to the closing quote, in every mode and with or without [ensure_ascii]. *)
Lemma string_roundtrip h ensure_ascii s rest :
  utf8_valid s →
  ∃ text, dump_escaped h ensure_ascii s = DOk text ∧
    scan_string (text ++ QUOTE :: rest) = Some (Token (value_string s) rest).
Proof.
  intros (cps & Hcps & ->). exists (escaped ensure_ascii cps).
  split; [by apply dump_escaped_decoded|by apply scan_string_text].
Qed.

Lemma string_roundtrip_witness :
  ∃ text, dump_escaped ignore true (decoded [0x22; 0x0A; 0xE9; 0x1F600]) = DOk text ∧
    scan_string (text ++ QUOTE :: b#",") = Some (Token (value_string (decoded [0x22; 0x0A; 0xE9; 0x1F600])) b#",").
Proof.
  apply (string_roundtrip ignore true (decoded [0x22; 0x0A; 0xE9; 0x1F600])).
  exists [0x22; 0x0A; 0xE9; 0x1F600]. split; [repeat constructor|reflexivity].
Defined.
