(* ===== verification/JsonNumbers.v ===== *)
(** * JsonNumbers: writing and reading integers

    [dump_integer], which fills a buffer backwards two digits at a time after counting
    them, writes the decimal numeral of every 64-bit integer; [scan_number] reads it
    back. *)

From S2P Require Import Prelude CString Prog JsonValue JsonLexer JsonDump.

(** ** Decimal numerals *)

Lemma dec_digits_fuel f g n :
  0 ≤ n < 10 ^ Z.of_nat f → n < 10 ^ Z.of_nat g → (0 < f)%nat → (0 < g)%nat →
  dec_digits f n = dec_digits g n.
Proof.
  revert g n. induction f as [|f IH]; intros g n Hf Hg H0 H1; [lia|]. destruct g as [|g]; [lia|].
  cbn [dec_digits]. destruct (Z.ltb_spec n 10); [done|].
  rewrite Nat2Z.inj_succ, Z.pow_succ_r in Hf, Hg by lia.
  assert (0 < f)%nat by (destruct f; cbn in Hf; lia). assert (0 < g)%nat by (destruct g; cbn in Hg; lia).
  rewrite (IH g); [done|split; [apply Z.div_pos; lia|apply Z.div_lt_upper_bound; lia]|
    apply Z.div_lt_upper_bound; lia|done|done].
Qed.

Lemma log2_fuel n : 0 ≤ n → n < 10 ^ Z.of_nat (S (Z.to_nat (Z.log2 n))).
Proof.
  intros Hn. destruct (Z.eq_dec n 0) as [->|]; [done|].
  pose proof (Z.log2_spec n ltac:(lia)) as [_ Hlt]. pose proof (Z.log2_nonneg n).
  replace (Z.of_nat (S (Z.to_nat (Z.log2 n)))) with (Z.succ (Z.log2 n)) by lia.
  eapply Z.lt_le_trans; [done|]. apply Z.pow_le_mono_l. lia.
Qed.

Lemma dec_nonneg_small n : 0 ≤ n < 10 → dec_nonneg n = [digit_char n].
Proof. intros. unfold dec_nonneg. cbn [dec_digits]. by destruct (Z.ltb_spec n 10); [|lia]. Qed.

Lemma dec_nonneg_step n : 10 ≤ n → dec_nonneg n = dec_nonneg (n / 10) ++ [digit_char (n mod 10)].
Proof.
  intros Hn. unfold dec_nonneg at 1. cbn [dec_digits]. destruct (Z.ltb_spec n 10); [lia|]. f_equal.
  assert (0 < n / 10) by (apply Z.div_str_pos; lia).
  pose proof (log2_fuel n ltac:(lia)) as Hl. rewrite Nat2Z.inj_succ, Z.pow_succ_r in Hl by lia.
  assert (n / 10 < 10 ^ Z.of_nat (Z.to_nat (Z.log2 n))) by (apply Z.div_lt_upper_bound; lia).
  apply dec_digits_fuel; [lia|apply log2_fuel; lia| |lia].
  destruct (Z.to_nat (Z.log2 n)); cbn in *; lia.
Qed.

Lemma dec_nonneg_pair n :
  100 ≤ n → dec_nonneg n = dec_nonneg (n / 100) ++ digits_to_99 (n mod 100).
Proof.
  intros Hn. rewrite dec_nonneg_step by lia. rewrite dec_nonneg_step by (apply Z.div_le_lower_bound; lia).
  rewrite Z.div_div by lia. change (10 * 10) with 100. rewrite <- app_assoc. cbn. unfold digits_to_99.
  f_equal. f_equal; [|f_equal]; f_equal; Z.div_mod_to_equations; lia.
Qed.

Lemma write_pairs_dec fuel n text :
  0 ≤ n < 100 ^ Z.of_nat fuel → (0 < fuel)%nat → write_pairs fuel n text = dec_nonneg n ++ text.
Proof.
  revert n text. induction fuel as [|fuel IH]; intros n text Hn Hf; [lia|]. cbn [write_pairs].
  rewrite Nat2Z.inj_succ, Z.pow_succ_r in Hn by lia.
  destruct (Z.leb_spec 100 n).
  - assert (0 ≤ n / 100 < 100 ^ Z.of_nat fuel)
      by (split; [apply Z.div_pos|apply Z.div_lt_upper_bound]; lia).
    assert (0 < fuel)%nat by (destruct fuel; cbn in Hn; lia).
    rewrite IH, (dec_nonneg_pair n) by done. by rewrite <- app_assoc.
  - destruct (Z.leb_spec 10 n).
    + rewrite dec_nonneg_step, dec_nonneg_small by (Z.div_mod_to_equations; lia). done.
    + rewrite dec_nonneg_small by lia. done.
Qed.

Lemma blen_dec_div n k :
  10 ^ Z.of_nat k ≤ n → blen (dec_nonneg n) = Z.of_nat k + blen (dec_nonneg (n / 10 ^ Z.of_nat k)).
Proof.
  revert n. induction k as [|k IH]; intros n Hn; [cbn; by rewrite Z.div_1_r|].
  rewrite Nat2Z.inj_succ, Z.pow_succ_r in * by lia.
  assert (0 < 10 ^ Z.of_nat k) by (apply Z.pow_pos_nonneg; lia).
  rewrite dec_nonneg_step by lia. rewrite blen_app, blen_cons, blen_nil.
  rewrite IH by (apply Z.div_le_lower_bound; lia). rewrite Z.div_div by lia. lia.
Qed.

Lemma count_digits_dec fuel n :
  0 ≤ n < 10000 ^ Z.of_nat fuel → (0 < fuel)%nat → count_digits fuel n = blen (dec_nonneg n).
Proof.
  revert n. induction fuel as [|fuel IH]; intros n Hn Hf; [lia|]. cbn [count_digits].
  rewrite Nat2Z.inj_succ, Z.pow_succ_r in Hn by lia.
  destruct (Z.ltb_spec n 10); [by rewrite dec_nonneg_small by lia|].
  assert (∀ k, 10 ^ Z.of_nat k ≤ n < 10 ^ Z.of_nat k * 10 → blen (dec_nonneg n) = Z.of_nat k + 1) as Hk.
  { intros k Hk. rewrite (blen_dec_div n k) by lia.
    assert (0 < 10 ^ Z.of_nat k) by (apply Z.pow_pos_nonneg; lia).
    rewrite dec_nonneg_small by (split; [apply Z.div_pos|apply Z.div_lt_upper_bound]; lia). done. }
  destruct (Z.ltb_spec n 100); [by rewrite (Hk 1%nat) by lia|].
  destruct (Z.ltb_spec n 1000); [by rewrite (Hk 2%nat) by lia|].
  destruct (Z.ltb_spec n 10000); [by rewrite (Hk 3%nat) by lia|].
  rewrite (blen_dec_div n 4) by lia. change (10 ^ Z.of_nat 4) with 10000. rewrite IH; [lia| |].
  - split; [apply Z.div_pos; lia|apply Z.div_lt_upper_bound; lia].
  - destruct fuel; cbn in Hn; lia.
Qed.

Lemma remove_sign_neg x : - 2 ^ 63 ≤ x < 0 → remove_sign x = - x.
Proof. intros. unfold remove_sign, wrap. rewrite (Z.mod_small (- (x + 1))) by lia. rewrite Z.mod_small; lia. Qed.

(** Every 64-bit integer is written in decimal, whatever the buffer held. *)
Lemma dump_integer_dec number_buffer x :
  number_buffer ≠ [] → - 2 ^ 63 ≤ x < 2 ^ 64 → dump_integer number_buffer x = dec x.
Proof.
  intros Hb Hx. unfold dump_integer, dec.
  destruct (Z.eqb_spec x 0) as [->|Hx0]; [done|]. unfold DIGIT_FUEL.
  destruct (Z.ltb_spec x 0) as [Hneg|Hpos].
  - rewrite remove_sign_neg by lia. rewrite write_pairs_dec, app_nil_r, count_digits_dec by (cbn; lia).
    replace (1 + blen (dec_nonneg (- x)) - blen (dec_nonneg (- x))) with 1 by lia.
    by destruct number_buffer.
  - rewrite write_pairs_dec, app_nil_r, count_digits_dec by (cbn; lia). by rewrite Z.add_0_l, Z.sub_diag.
Qed.

(** ** Reading them back *)

(** What may follow a number. *)
Definition delimited (rest : bytes) : bool :=
  match rest with
  | c :: _ => negb (isdigit c || bool_decide (c = "."%char) || is_e c)
  | [] => true
  end.

Lemma number_loop_digits buf ds rest ty :
  forallb isdigit ds = true → delimited rest = true → ty ≠ NTFloat →
  number_loop NAny1 ty buf (ds ++ rest) = inl (buf ++ ds, ty, rest).
Proof.
  intros Hds Hr Hty. revert buf. induction ds as [|d ds IH]; intros buf.
  - rewrite app_nil_r. cbn [app]. destruct rest as [|c rest]; [done|]. cbn in *.
    apply negb_true_iff in Hr. apply orb_false_iff in Hr as [Hr He]. apply orb_false_iff in Hr as [Hd Hp].
    rewrite Hd, Hp, He. done.
  - cbn in Hds. apply andb_true_iff in Hds as [Hd Hds]. cbn. rewrite Hd.
    rewrite IH by done. by rewrite <- app_assoc.
Qed.

Lemma number_loop_zero buf rest ty :
  delimited rest = true → ty ≠ NTFloat → number_loop NZero ty buf rest = inl (buf, ty, rest).
Proof.
  intros Hr Hty. destruct rest as [|c rest]; [done|]. cbn in *.
  apply negb_true_iff in Hr. apply orb_false_iff in Hr as [Hr He]. apply orb_false_iff in Hr as [Hd Hp].
  by rewrite Hp, He.
Qed.

(** A positive numeral starts with one of the digits 1 to 9. *)
Lemma dec_nonneg_head n :
  0 < n → ∃ c ds, dec_nonneg n = c :: ds ∧ digit19 c = true ∧ forallb isdigit ds = true.
Proof.
  intros Hn. induction n as [n IH] using (well_founded_induction (Z.lt_wf 0)).
  destruct (Z.ltb_spec n 10).
  - exists (digit_char n), []. rewrite dec_nonneg_small by lia. split; [done|]. split; [|done].
    unfold digit19, digit_char. rewrite byteZ_Zbyte, Z.mod_small by lia.
    apply andb_true_iff. split; apply Z.leb_le; lia.
  - assert (0 < n / 10 < n) by (split; [apply Z.div_str_pos|apply Z.div_lt]; lia).
    destruct (IH (n / 10)) as (c & ds & Hd & Hc & Hds); [lia|lia|].
    exists c, (ds ++ [digit_char (n mod 10)]). rewrite dec_nonneg_step, Hd by lia.
    split; [done|]. split; [done|]. rewrite forallb_app, Hds. cbn.
    rewrite digit_char_isdigit by (apply Z.mod_pos_bound; lia). done.
Qed.

Lemma digit19_isdigit c : digit19 c = true → isdigit c = true ∧ c ≠ "-"%char ∧ c ≠ "0"%char.
Proof.
  unfold digit19, isdigit. intros. split_bools. split; [apply andb_true_iff; split; apply Z.leb_le; lia|].
  split; intros ->; vm_compute in H; congruence.
Qed.

(** The token of an integer. *)
Definition integer_token (x : Z) : token := if x <? 0 then value_integer x else value_unsigned x.

Lemma scan_number_dec x rest :
  - 2 ^ 63 ≤ x < 2 ^ 64 → delimited rest = true →
  ∃ c s, dec x ++ rest = c :: s ∧ bool_decide (c = "-"%char) || isdigit c = true ∧
    scan_number c s = Token (integer_token x) rest.
Proof.
  intros Hx Hr. unfold dec, integer_token. destruct (Z.ltb_spec x 0) as [Hneg|Hpos].
  - exists "-"%char, (dec_nonneg (- x) ++ rest). split; [done|]. split; [done|].
    destruct (dec_nonneg_head (- x)) as (c & ds & Hd & Hc & Hds); [lia|].
    pose proof (dec_nonneg_spec (- x) ltac:(lia)) as (Hv & _ & _).
    destruct (digit19_isdigit c Hc) as (_ & _ & Hc0).
    unfold scan_number. rewrite bool_decide_eq_true_2 by done. rewrite Hd in *. cbn [app number_loop number_step number_type_at scan_number_minus].
    rewrite bool_decide_eq_false_2 by done. rewrite Hc. rewrite number_loop_digits by done.
    unfold number_token, integer_value. cbn [app]. rewrite bool_decide_eq_true_2 by done. rewrite Hv.
    destruct (Z.leb_spec (- 2 ^ 63) (- - x)), (Z.ltb_spec (- - x) (2 ^ 63)); try lia. cbn.
    do 2 f_equal. lia.
  - destruct (Z.eq_dec x 0) as [->|Hx0].
    { exists "0"%char, rest. split; [done|]. split; [done|]. unfold scan_number.
      change (bool_decide ("0"%char = "-"%char)) with false. change (bool_decide ("0"%char = "0"%char)) with true.
      cbn iota. by rewrite number_loop_zero. }
    destruct (dec_nonneg_head x) as (c & ds & Hd & Hc & Hds); [lia|].
    pose proof (dec_nonneg_spec x ltac:(lia)) as (Hv & _ & _).
    destruct (digit19_isdigit c Hc) as (Hcd & Hcm & Hc0).
    exists c, (ds ++ rest). rewrite Hd. split; [done|]. split; [by rewrite Hcd, orb_true_r|].
    unfold scan_number. rewrite !bool_decide_eq_false_2 by done. rewrite number_loop_digits by done.
    unfold number_token, integer_value. cbn [app]. rewrite bool_decide_eq_false_2 by done. rewrite Hd in Hv. rewrite Hv.
    by destruct (Z.ltb_spec x (2 ^ 64)); [|lia].
Qed.

(** ** Property *)

(** [dump_integer] writes the decimal numeral of every [int64_t] and
    [uint64_t], the most negative included, whatever [number_buffer] held; its count
    of digits is exact, so nothing stale is written. *)
Lemma dump_integer_decimal number_buffer x :
  number_buffer ≠ [] → - 2 ^ 63 ≤ x < 2 ^ 64 → dump_integer number_buffer x = dec x.
Proof. apply dump_integer_dec. Qed.

Lemma dump_integer_decimal_witness :
  dump_integer (zeros 64) (- 2 ^ 63) = b#"-9223372036854775808".
Proof. rewrite (dump_integer_decimal (zeros 64) (- 2 ^ 63)); [reflexivity|done|lia]. Defined.
