(* ===== verification/JsonPointer.v ===== *)
(** * JsonPointer: JSON Pointer
      ([include/nlohmann/json.hpp], class [json_pointer], [detail::escape], [detail::unescape])

    A pointer is the list of its reference tokens, the only field of the class.  The
    functions that resolve one to a reference take the action to run on the value
    it refers to ([JsonAccess]).  Also [flatten], which lists the primitive values by
    their pointers, and [unflatten]. *)

From S2P Require Import Prelude CString Prog JsonValue JsonAccess JsonNumbers.

Definition json_pointer : Type := list bytes.

(** ** Escaping *)

(** [replace_substring(s, f, t)]: from left to right, going on after each replacement. *)
Fixpoint strip_prefix (f s : bytes) : option bytes :=
  match f, s with
  | [], _ => Some s
  | c :: f, d :: s => if bool_decide (c = d) then strip_prefix f s else None
  | _ :: _, [] => None
  end.

Fixpoint replace_from (fuel : nat) (f t s : bytes) : bytes :=
  match fuel with
  | O => s
  | S fuel =>
      match s with
      | [] => []
      | c :: s' =>
          match strip_prefix f s with
          | Some rest => t ++ replace_from fuel f t rest
          | None => c :: replace_from fuel f t s'
          end
      end
  end.
Definition replace_substring (f t s : bytes) : bytes := replace_from (length s) f t s.

Definition escape_token (s : bytes) : bytes :=
  replace_substring b#"/" b#"~1" (replace_substring b#"~" b#"~0" s).
Definition unescape_token (s : bytes) : bytes :=
  replace_substring b#"~0" b#"~" (replace_substring b#"~1" b#"/" s).

(** ** Parsing and printing *)

Definition SLASH : ascii := "/".
Definition TILDE : ascii := "~".

(** The pieces between slashes. *)
Fixpoint pieces (s : bytes) : list bytes :=
  match s with
  | [] => [[]]
  | c :: s =>
      if bool_decide (c = SLASH) then [] :: pieces s
      else match pieces s with p :: ps => (c :: p) :: ps | [] => [[c]] end
  end.

(** Every [~] is followed by [0] or [1]. *)
Fixpoint properly_escaped (s : bytes) : bool :=
  match s with
  | [] => true
  | c :: s =>
      (if bool_decide (c = TILDE)
       then match s with d :: _ => bool_decide (d = "0"%char) || bool_decide (d = "1"%char) | [] => false end
       else true) && properly_escaped s
  end.

Fixpoint split_tokens (ps : list bytes) : dres json_pointer :=
  match ps with
  | [] => DOk []
  | p :: ps =>
      if properly_escaped p then ts ← split_tokens ps; DOk (unescape_token p :: ts)
      else DThrow (ExJsonParse 108)
  end.

(** [split(reference_string)], the constructor of [json_pointer]. *)
Definition split (reference_string : bytes) : dres json_pointer :=
  match reference_string with
  | [] => DOk []
  | c :: s => if bool_decide (c = SLASH) then split_tokens (pieces s) else DThrow (ExJsonParse 107)
  end.

(** [to_string()]. *)
Definition pointer_to_string (p : json_pointer) : bytes :=
  foldl (λ a b, a ++ b#"/" ++ escape_token b) [] p.

(** ** Parts *)

Definition parent_pointer (p : json_pointer) : json_pointer := take (length p - 1) p.
Definition pop_back (p : json_pointer) : dres json_pointer :=
  match p with [] => DThrow (ExJsonOutOfRange 405) | _ => DOk (take (length p - 1) p) end.
Definition pointer_back (p : json_pointer) : dres bytes :=
  match last p with Some t => DOk t | None => DThrow (ExJsonOutOfRange 405) end.
Definition top (p : json_pointer) : dres json_pointer :=
  match p with [] => DThrow (ExJsonOutOfRange 405) | t :: _ => DOk [t] end.

Definition pointer_push_back (token : bytes) (p : json_pointer) : json_pointer := p ++ [token].

(** [p /= q], and [p /= array_idx]. *)
Definition pointer_append (p q : json_pointer) : json_pointer := p ++ q.
Definition pointer_append_index (p : json_pointer) (array_idx : Z) : json_pointer :=
  pointer_push_back (dec array_idx) p.

(** [std::stoull(s, &processed_chars)]: the value and the number of characters read. *)
Definition stoull (s : bytes) : (Z * Z) + exn :=
  match scan_int s with
  | None => inr ExInvalidArgument
  | Some (z, rest) =>
      if 2 ^ 64 <=? Z.abs z then inr ExOutOfRange else inl (wrap 64 z, blen s - blen rest)
  end.

(** [array_index(s)]; [std::invalid_argument], which a token without a digit gives, is
    not caught. *)
Definition array_index (s : bytes) : dres Z :=
  let first_not p := match s with c :: _ :: _ => negb (p c) | _ => false end in
  if first_not (λ c, negb (bool_decide (c = "0"%char))) then DThrow (ExJsonParse 106)
  else if first_not (λ c, (49 <=? byteZ c) && (byteZ c <=? 57)) then DThrow (ExJsonParse 109)
  else
    match stoull s with
    | inr ExOutOfRange => DThrow (ExJsonOutOfRange 404)
    | inr e => DThrow e
    | inl (res, processed_chars) =>
        if negb (processed_chars =? blen s) then DThrow (ExJsonOutOfRange 404)
        else if 2 ^ 64 - 1 <=? res then DThrow (ExJsonOutOfRange 410)
        else DOk res
    end.

(** ** Resolving a pointer *)

(** Go on with the index that a token denotes. *)
Definition with_index {A} (t : bytes) (k : Z → jact A) : jact A :=
  idx ← jlift (array_index t); k idx.

(** [get_and_create(j)]. *)
Fixpoint get_and_create {A} (p : json_pointer) (m : jact A) : jact A :=
  match p with
  | [] => m
  | t :: p => λ j,
      match j with
      | JNull =>
          if bool_decide (t = b#"0") then subscript_element 0 (get_and_create p m) j
          else subscript_member t (get_and_create p m) j
      | JObject _ => subscript_member t (get_and_create p m) j
      | JArray _ => with_index t (λ idx, subscript_element idx (get_and_create p m)) j
      | _ => (DThrow (ExJsonType 313), j)
      end
  end.

(** [get_unchecked(ptr)]: [j[ptr]]. *)
Fixpoint get_unchecked {A} (p : json_pointer) (m : jact A) : jact A :=
  match p with
  | [] => m
  | t :: p => λ j,
      let j :=
        match j with
        | JNull => if forallb isdigit t || bool_decide (t = b#"-") then JArray [] else JObject []
        | _ => j
        end in
      match j with
      | JObject _ => subscript_member t (get_unchecked p m) j
      | JArray es =>
          if bool_decide (t = b#"-") then subscript_element (blen es) (get_unchecked p m) j
          else with_index t (λ idx, subscript_element idx (get_unchecked p m)) j
      | _ => (DThrow (ExJsonOutOfRange 404), j)
      end
  end.

(** [get_checked(ptr)]: [j.at(ptr)]. *)
Fixpoint get_checked {A} (p : json_pointer) (m : jact A) : jact A :=
  match p with
  | [] => m
  | t :: p => λ j,
      match j with
      | JObject _ => at_member t (get_checked p m) j
      | JArray _ =>
          if bool_decide (t = b#"-") then (DThrow (ExJsonOutOfRange 402), j)
          else with_index t (λ idx, at_element idx (get_checked p m)) j
      | _ => (DThrow (ExJsonOutOfRange 404), j)
      end
  end.

(** [get_unchecked(ptr)] on a [const] value. *)
Fixpoint const_get_unchecked (p : json_pointer) (j : json) : dres json :=
  match p with
  | [] => DOk j
  | t :: p =>
      match j with
      | JObject _ => v ← const_subscript_member t j; const_get_unchecked p v
      | JArray _ =>
          if bool_decide (t = b#"-") then DThrow (ExJsonOutOfRange 402)
          else idx ← array_index t; v ← const_subscript_element idx j; const_get_unchecked p v
      | _ => DThrow (ExJsonOutOfRange 404)
      end
  end.

(** [get_checked(ptr)] on a [const] value. *)
Fixpoint const_get_checked (p : json_pointer) (j : json) : dres json :=
  match p with
  | [] => DOk j
  | t :: p =>
      match j with
      | JObject ms =>
          match map_find t ms with
          | Some v => const_get_checked p v
          | None => DThrow (ExJsonOutOfRange 403)
          end
      | JArray es =>
          if bool_decide (t = b#"-") then DThrow (ExJsonOutOfRange 402)
          else
            idx ← array_index t;
            match es !! Z.to_nat idx with
            | Some v => const_get_checked p v
            | None => DThrow (ExJsonOutOfRange 401)
            end
      | _ => DThrow (ExJsonOutOfRange 404)
      end
  end.

(** The characters that [contains] requires of an array index. *)
Definition index_chars (t : bytes) : bool :=
  match t with
  | [] => true
  | [c] => (48 <=? byteZ c) && (byteZ c <=? 57)
  | c :: t => (49 <=? byteZ c) && (byteZ c <=? 57) && forallb isdigit t
  end.

(** [contains(ptr)]. *)
Fixpoint pointer_contains (p : json_pointer) (j : json) : dres bool :=
  match p with
  | [] => DOk true
  | t :: p =>
      match j with
      | JObject _ =>
          match find t j with Some v => pointer_contains p v | None => DOk false end
      | JArray es =>
          if bool_decide (t = b#"-") || negb (index_chars t) then DOk false
          else
            idx ← array_index t;
            match es !! Z.to_nat idx with Some v => pointer_contains p v | None => DOk false end
      | _ => DOk false
      end
  end.

(** ** [flatten] and [unflatten] *)

(** [flatten(reference_string, value, result)], the members of [result]. *)
Fixpoint flatten_into (reference_string : bytes) (value : json) (result : list (bytes * json)) {struct value}
    : list (bytes * json) :=
  match value with
  | JArray [] | JObject [] => map_assign reference_string JNull result
  | JArray es =>
      (fix go i es result :=
         match es with
         | [] => result
         | v :: es => go (i + 1) es (flatten_into (reference_string ++ b#"/" ++ dec i) v result)
         end) 0 es result
  | JObject ms =>
      (fix go ms result :=
         match ms with
         | [] => result
         | (k, v) :: ms => go ms (flatten_into (reference_string ++ b#"/" ++ escape_token k) v result)
         end) ms result
  | _ => map_assign reference_string value result
  end.

(** [flatten()]. *)
Definition flatten (j : json) : json := JObject (flatten_into [] j []).

Fixpoint unflatten_members (ms : list (bytes * json)) : jact unit :=
  match ms with
  | [] => mret tt
  | (k, v) :: ms =>
      (if is_primitive v then mret tt else jthrow (ExJsonType 315));;
      p ← jlift (split k);
      get_and_create p (jput v);;
      unflatten_members ms
  end.

(** [unflatten()]. *)
Definition unflatten (j : json) : dres json :=
  match j with
  | JObject ms => let '(r, result) := unflatten_members ms JNull in _ ← r; DOk result
  | _ => DThrow (ExJsonType 314)
  end.

Example unflatten_flatten_example :
  let j := JObject [(b#"a/b", JArray [JBoolean true; JString b#"x"; JObject [(b#"~", JNull)]])] in
  unflatten (flatten j) = DOk j.
Proof. vm_compute. reflexivity. Qed.

(** ** Escaping is undone by unescaping *)

Lemma strip_prefix_app f s : strip_prefix f (f ++ s) = Some s.
Proof. induction f as [|c f IH]; [done|]. cbn. by rewrite bool_decide_eq_true_2. Qed.

Lemma strip_prefix_inv f s r : strip_prefix f s = Some r → s = f ++ r.
Proof.
  revert s. induction f as [|c f IH]; intros s; cbn; [by intros [= ->]|].
  destruct s as [|d s]; [done|]. case_bool_decide; [|done]. subst d. by intros ->%IH.
Qed.

Lemma replace_from_fuel f t n m s :
  f ≠ [] → (length s ≤ n)%nat → (length s ≤ m)%nat → replace_from n f t s = replace_from m f t s.
Proof.
  intros Hf. revert m s. induction n as [|n IH]; intros m s Hn Hm.
  - destruct s; [|cbn in Hn; lia]. by destruct m.
  - destruct m as [|m]; [destruct s; [done|cbn in Hm; lia]|]. cbn [replace_from].
    destruct s as [|c s]; [done|]. destruct (strip_prefix f (c :: s)) as [r|] eqn:E.
    + f_equal. apply strip_prefix_inv in E. destruct f as [|a f]; [done|].
      apply (f_equal length) in E. cbn in *. rewrite length_app in E. apply IH; lia.
    + f_equal. cbn in *. apply IH; lia.
Qed.

Lemma replace_substring_nil f t : replace_substring f t [] = [].
Proof. done. Qed.

Lemma replace_substring_match f t s :
  f ≠ [] → replace_substring f t (f ++ s) = t ++ replace_substring f t s.
Proof.
  intros Hf. unfold replace_substring. destruct f as [|c f]; [done|]. cbn [length app replace_from].
  rewrite (strip_prefix_app (c :: f) s : strip_prefix (c :: f) (c :: f ++ s) = Some s).
  f_equal. apply replace_from_fuel; [done|rewrite length_app; lia|lia].
Qed.

Lemma replace_substring_skip f t c s :
  strip_prefix f (c :: s) = None → replace_substring f t (c :: s) = c :: replace_substring f t s.
Proof. intros E. unfold replace_substring. cbn [length replace_from]. by rewrite E. Qed.

(** What [escape_token] and the first pass of [unescape_token] do to a character. *)
Definition escape_char (c : ascii) : bytes :=
  if bool_decide (c = TILDE) then b#"~0" else if bool_decide (c = SLASH) then b#"~1" else [c].
Definition tilde_char (c : ascii) : bytes := if bool_decide (c = TILDE) then b#"~0" else [c].

Lemma replace_char a t s :
  replace_substring [a] t s = flat_map (λ c, if bool_decide (c = a) then t else [c]) s.
Proof.
  induction s as [|c s IH]; [done|]. cbn [flat_map]. case_bool_decide as E.
  - subst c. change (a :: s) with ([a] ++ s). by rewrite replace_substring_match, IH.
  - rewrite replace_substring_skip, IH; [done|]. cbn. by rewrite bool_decide_eq_false_2.
Qed.

Lemma flat_map_flat_map {A B C} (f : A → list B) (g : B → list C) l :
  flat_map g (flat_map f l) = flat_map (λ x, flat_map g (f x)) l.
Proof. induction l as [|x l IH]; [done|]. cbn. by rewrite flat_map_app, IH. Qed.

Lemma escape_token_map s : escape_token s = flat_map escape_char s.
Proof.
  unfold escape_token. change (b#"/") with [SLASH]. change (b#"~") with [TILDE].
  rewrite !replace_char, flat_map_flat_map. apply flat_map_ext. intros c.
  unfold escape_char. case_bool_decide as E; [by subst|]. cbn.
  case_bool_decide as E2; [by subst|done].
Qed.

(** The text of an index needs no escapes. *)
Lemma escape_dec i : 0 ≤ i → escape_token (dec i) = dec i.
Proof.
  intros Hi. assert (forallb isdigit (dec i) = true) as Hd.
  { unfold dec. rewrite (proj2 (Z.ltb_ge _ _)) by lia. by apply dec_nonneg_spec. }
  rewrite escape_token_map. induction (dec i) as [|c s IH]; [done|]. cbn [forallb flat_map] in *. apply andb_true_iff in Hd as [Hc Hs].
  rewrite IH by done. unfold escape_char. rewrite !bool_decide_eq_false_2; [done|intros ->; by vm_compute in Hc..].
Qed.

(** First pass: [~1] becomes a slash. *)
Lemma unescape_slash s : replace_substring b#"~1" b#"/" (flat_map escape_char s) = flat_map tilde_char s.
Proof.
  induction s as [|c s IH]; [done|]. cbn [flat_map]. unfold escape_char at 1, tilde_char at 1.
  case_bool_decide as E; [|case_bool_decide as E2].
  - change (b#"~0" ++ ?r) with (TILDE :: "0"%char :: r). rewrite !replace_substring_skip, IH; done.
  - rewrite replace_substring_match, IH by done. by subst.
  - cbn [app]. rewrite replace_substring_skip, IH; [done|]. cbn. by rewrite bool_decide_eq_false_2 by (intros <-; done).
Qed.

Lemma unescape_tilde s : replace_substring b#"~0" b#"~" (flat_map tilde_char s) = s.
Proof.
  induction s as [|c s IH]; [done|]. cbn [flat_map]. unfold tilde_char at 1. case_bool_decide as E.
  - rewrite replace_substring_match, IH by done. by subst.
  - cbn [app]. rewrite replace_substring_skip, IH; [done|]. cbn. by rewrite bool_decide_eq_false_2 by (intros <-; done).
Qed.

Lemma unescape_escape s : unescape_token (escape_token s) = s.
Proof. unfold unescape_token. by rewrite escape_token_map, unescape_slash, unescape_tilde. Qed.

Lemma properly_escaped_escape s : properly_escaped (escape_token s) = true.
Proof.
  rewrite escape_token_map. induction s as [|c s IH]; [done|]. cbn [flat_map]. unfold escape_char at 1.
  case_bool_decide as E; [done|]. case_bool_decide as E2; [done|]. cbn.
  by rewrite bool_decide_eq_false_2.
Qed.

(** Every properly escaped piece is an escaped token. *)
Lemma escape_unescape p :
  properly_escaped p = true → SLASH ∉ p → ∃ s, p = escape_token s.
Proof.
  remember (length p) as n eqn:Hn. revert p Hn. induction n as [n IH] using lt_wf_ind. intros p -> Hp Hs.
  destruct p as [|c p]; [by exists []|]. apply not_elem_of_cons in Hs as [Hc Hs].
  cbn in Hp. apply andb_true_iff in Hp as [Hh Hp]. case_bool_decide as E.
  - destruct p as [|d p]; [done|]. apply not_elem_of_cons in Hs as [Hd Hs].
    assert (properly_escaped p = true) as Hp' by (cbn in Hp; by apply andb_true_iff in Hp as [_ ?]).
    destruct (IH (length p) ltac:(cbn; lia) p eq_refl Hp' Hs) as [s ->].
    apply orb_true_iff in Hh as [Hh|Hh]; apply bool_decide_eq_true in Hh; subst c d;
      [exists (TILDE :: s)|exists (SLASH :: s)]; by rewrite !escape_token_map.
  - destruct (IH (length p) ltac:(cbn; lia) p eq_refl Hp Hs) as [s ->]. exists (c :: s).
    rewrite !escape_token_map. cbn. unfold escape_char.
    by rewrite (bool_decide_eq_false_2 (c = TILDE)), (bool_decide_eq_false_2 (c = SLASH)) by congruence.
Qed.

Lemma escape_no_slash s : SLASH ∉ escape_token s.
Proof.
  rewrite escape_token_map, list_elem_of_In, in_flat_map. intros (c & _ & Hc). revert Hc.
  unfold escape_char, TILDE, SLASH. repeat case_bool_decide; cbn; intuition congruence.
Qed.

(** ** Printing is undone by parsing *)

Fixpoint join (ps : list bytes) : bytes :=
  match ps with [] => [] | p :: ps => SLASH :: p ++ join ps end.

Lemma pointer_to_string_join p : pointer_to_string p = join (escape_token <$> p).
Proof.
  unfold pointer_to_string. rewrite <- (app_nil_l (join _)). generalize (@nil ascii) as acc.
  induction p as [|t p IH]; intros acc; cbn; [by rewrite app_nil_r|]. rewrite IH. by rewrite <- !app_assoc.
Qed.

Lemma pieces_app p s : SLASH ∉ p → pieces (p ++ s) = match pieces s with q :: qs => (p ++ q) :: qs | [] => [p] end.
Proof.
  assert (∀ r, pieces r ≠ []) as Hne.
  { intros [|c r]; [done|]. cbn. case_bool_decide; [done|]. by destruct (pieces r). }
  induction p as [|c p IH]; cbn; [intros _; specialize (Hne s); by destruct (pieces s)|].
  intros [Hc Hp]%not_elem_of_cons. rewrite bool_decide_eq_false_2, IH by done.
  specialize (Hne s). by destruct (pieces s).
Qed.

Lemma pieces_join p ps : Forall (λ q, SLASH ∉ q) (p :: ps) → pieces (p ++ join ps) = p :: ps.
Proof.
  revert p. induction ps as [|q ps IH]; intros p Hps; inversion Hps; subst; rewrite pieces_app by done.
  - cbn. by rewrite app_nil_r.
  - cbn [join pieces]. rewrite bool_decide_eq_true_2, IH by done. by rewrite app_nil_r.
Qed.

Lemma join_pieces s : SLASH :: s = join (pieces s) ∧ Forall (λ q, SLASH ∉ q) (pieces s).
Proof.
  induction s as [|c s [IH Hf]]; [split; [done|repeat constructor; set_solver]|]. cbn. case_bool_decide as E.
  - subst c. cbn. rewrite <- IH. split; [done|]. constructor; [set_solver|done].
  - destruct (pieces s) as [|p ps] eqn:Eq; [cbn in IH; done|]. cbn in *. injection IH as IH.
    split; [by rewrite IH|]. inversion Hf; subst. constructor; [|done]. apply not_elem_of_cons. split; congruence.
Qed.

Lemma split_tokens_escape p : split_tokens (escape_token <$> p) = DOk p.
Proof.
  induction p as [|t p IH]; [done|]. cbn. by rewrite properly_escaped_escape, IH, unescape_escape.
Qed.

Lemma split_tokens_inv ps p :
  Forall (λ q, SLASH ∉ q) ps → split_tokens ps = DOk p → ps = escape_token <$> p.
Proof.
  intros Hps. revert p. induction Hps as [|q ps Hq _ IH]; intros p; cbn; [by intros [= <-]|].
  destruct (properly_escaped q) eqn:E; [|done]. destruct (split_tokens ps) as [ts| |]; [|done..].
  cbn. intros [= <-]. destruct (escape_unescape q E Hq) as [s ->]. cbn. by rewrite unescape_escape, <- IH.
Qed.

Lemma split_print p : split (pointer_to_string p) = DOk p.
Proof.
  rewrite pointer_to_string_join. destruct p as [|t p]; [done|]. cbn [fmap list_fmap join split].
  rewrite bool_decide_eq_true_2 by done. rewrite pieces_join; [apply (split_tokens_escape (t :: p))|].
  apply (proj2 (Forall_fmap escape_token (λ q, SLASH ∉ q) (t :: p))). apply Forall_true. intros q. apply escape_no_slash.
Qed.

(** The text of an index, which [flatten] and [diff] write, is an index. *)
Lemma array_index_dec i : 0 ≤ i < 2 ^ 64 - 1 → array_index (dec i) = DOk i.
Proof.
  intros Hi. unfold array_index, stoull.
  pose proof (scan_int_dec i [] ltac:(done)) as Hs. rewrite app_nil_r in Hs. rewrite Hs.
  assert (dec i = dec_nonneg i) as Hd by (unfold dec; by rewrite (proj2 (Z.ltb_ge i 0)) by lia).
  rewrite Hd. unfold wrap. rewrite Z.mod_small, Z.abs_eq, (proj2 (Z.leb_gt (2 ^ 64) i)) by lia.
  rewrite blen_nil, Z.sub_0_r, Z.eqb_refl, (proj2 (Z.leb_gt (2 ^ 64 - 1) i)) by lia.
  destruct (Z.ltb_spec i 10) as [Hlt|Hge].
  - rewrite dec_nonneg_small by lia. done.
  - destruct (dec_nonneg_head i) as (c & ds & -> & Hc & _); [lia|].
    assert (bool_decide (c = "0"%char) = false) as ->
      by (apply bool_decide_eq_false; intros ->; by vm_compute in Hc).
    unfold JsonLexer.digit19 in Hc. rewrite Hc. by destruct ds.
Qed.

(** C23 (roundtrip): [split] and [to_string] are inverse to each other: a pointer is read back
    from its text, whatever its reference tokens hold, and a text that is accepted is the text
    of the pointer it gives. *)
Theorem pointer_roundtrip :
  (∀ p, split (pointer_to_string p) = DOk p) ∧
  (∀ s p, split s = DOk p → pointer_to_string p = s).
Proof.
  split; [apply split_print|]. intros s p. destruct s as [|c s]; cbn; [by intros [= <-]|].
  case_bool_decide; [|done]. subst c. destruct (join_pieces s) as [Hj Hf]. intros Hs%split_tokens_inv; [|done].
  by rewrite pointer_to_string_join, <- Hs.
Qed.
