(* ===== verification/JsonConvert.v ===== *)
(** * JsonConvert: conversions between JSON values and C++ types
      ([include/nlohmann/json.hpp], [to_json], [from_json], [get], [get_to], [value])

    The C++ types are codes of a universe, [ctype], which [cval] interprets; a conversion
    is a function on the codes, one case per overload.  The conversions between doubles and
    integers are parameters ([FloatOps], [FloatCast]), and so is the end from which the
    compiler evaluates the arguments of a call ([left_first]). *)

From S2P Require Import Prelude CString Prog JsonValue JsonAccess JsonCompare JsonPointer.

(** ** Integer types *)

(** [static_cast] to an integer type of [w] bits. *)
Definition cast (is_signed : bool) (w z : Z) : Z :=
  let u := wrap w z in if is_signed && (2 ^ (w - 1) <=? u) then u - 2 ^ w else u.

Definition in_type (is_signed : bool) (w z : Z) : bool :=
  if is_signed then (- 2 ^ (w - 1) <=? z) && (z <? 2 ^ (w - 1)) else (0 <=? z) && (z <? 2 ^ w).

(** The value of a double without its fraction; none for infinities and NaN. *)
Class FloatCast := trunc : bytes → option Z.

(** ** [std::map], as the list of its members in order *)

Section maps.
Context {K V : Type} (ltb : K → K → bool).

(** [map.emplace(k, v)] and [inserter(map, hint)]: a member with the same key stays. *)
Fixpoint kv_emplace (k : K) (v : V) (l : list (K * V)) : list (K * V) :=
  match l with
  | [] => [(k, v)]
  | (k', v') :: l' =>
      if ltb k k' then (k, v) :: l
      else if ltb k' k then (k', v') :: kv_emplace k v l' else l
  end.

Definition kv_insert_all (kvs l : list (K * V)) : list (K * V) :=
  foldl (λ l kv, kv_emplace kv.1 kv.2 l) l kvs.

Fixpoint kv_sorted (l : list (K * V)) : bool :=
  match l with
  | (k, _) :: l' => match l' with (k', _) :: _ => ltb k k' | [] => true end && kv_sorted l'
  | [] => true
  end.
End maps.

(** ** Types *)

(** The types with a conversion.  [TInteger], [TUnsigned] and [TDouble] are
    [number_integer_t], [number_unsigned_t] and [number_float_t]; [TInt] is any other
    integer type.  [TVector] is a sequence container with [insert], [TMap] a map
    whose keys are strings, [TIntMap] one whose keys are of an integer type [TInt]. *)
#[warnings="-register-all"]
Inductive ctype :=
| TNull
| TBool
| TInteger
| TUnsigned
| TDouble
| TInt (is_signed : bool) (w : Z)
| TEnum (is_signed : bool) (w : Z)
| TString
| TBinary
| TJson
| TVector (t : ctype)
| TForwardList (t : ctype)
| TValarray (t : ctype)
| TArray (n : nat) (t : ctype)
| TPair (t u : ctype)
| TTuple (ts : list ctype)
| TMap (t : ctype)
| TIntMap (is_signed : bool) (w : Z) (t : ctype).

Section tuples.
Context (A : ctype → Type).

(** [std::tuple] over the types [ts]. *)
Definition tuple (ts : list ctype) : Type := foldr (λ t B, (A t * B)%type) unit ts.

Context {B : Type} (f : ∀ t, A t → B).
Fixpoint tuple_map (ts : list ctype) : tuple ts → list B :=
  match ts with
  | [] => λ _, []
  | t :: ts => λ x, f t x.1 :: tuple_map ts x.2
  end.
End tuples.
Arguments tuple_map {A B} f ts.

Fixpoint cval (t : ctype) : Type :=
  match t with
  | TNull => unit
  | TBool => bool
  | TInteger | TUnsigned | TInt _ _ | TEnum _ _ => Z
  | TDouble | TString => bytes
  | TBinary => bytes * option Z
  | TJson => json
  | TVector t | TForwardList t | TValarray t | TArray _ t => list (cval t)
  | TPair t u => cval t * cval u
  | TTuple ts => tuple cval ts
  | TMap t => list (bytes * cval t)
  | TIntMap _ _ t => list (Z * cval t)
  end.

(** A value of the type: integers in range, arrays of their length, maps in order. *)
Fixpoint valid (t : ctype) : cval t → bool :=
  match t return cval t → bool with
  | TInteger => in_type true 64
  | TUnsigned => in_type false 64
  | TInt s w | TEnum s w => in_type s w
  | TVector t | TForwardList t | TValarray t => forallb (valid t)
  | TArray n t => λ l, bool_decide (length l = n) && forallb (valid t) l
  | TPair t u => λ x, valid t x.1 && valid u x.2
  | TTuple ts => λ x, forallb id (tuple_map valid ts x)
  | TMap t => λ l, kv_sorted bytes_ltb l && forallb (λ kv, valid t kv.2) l
  | TIntMap s w t => λ l, kv_sorted Z.ltb l && forallb (λ kv, in_type s w kv.1 && valid t kv.2) l
  | TNull | TBool | TDouble | TString | TBinary | TJson => λ _, true
  end.

(** Types the compiler has: the widths are those of integers. *)
Fixpoint is_type (t : ctype) : bool :=
  match t with
  | TInt _ w | TEnum _ w => (0 <? w) && (w <=? 64)
  | TVector t | TForwardList t | TValarray t | TArray _ t | TMap t => is_type t
  | TPair t u => is_type t && is_type u
  | TTuple ts => forallb is_type ts
  | TIntMap _ w t => (0 <? w) && (w <=? 64) && is_type t
  | _ => true
  end.

(** ** [to_json] *)

(** [external_constructor<value_t::array>] and [external_constructor<value_t::object>]
    over a range. *)
Definition construct_array {A} (conv : A → json) (l : list A) : json := JArray (map conv l).
Definition construct_object {A} (conv : A → json) (l : list (bytes * A)) : json :=
  JObject (kv_insert_all bytes_ltb (map (λ kv, (kv.1, conv kv.2)) l) []).

(** [j = { e1, ..., en }]; an empty list in braces is [basic_json()]. *)
Definition brace_list (es : list json) : json :=
  match es with [] => JNull | _ => json_of_list es end.

Fixpoint to_json (t : ctype) : cval t → json :=
  match t return cval t → json with
  | TNull => λ _, JNull
  | TBool => JBoolean
  | TInteger => JInteger
  | TUnsigned => JUnsigned
  | TDouble => JFloat
  | TInt s w => λ z, if s then JInteger (cast true 64 z) else JUnsigned (cast false 64 z)
  | TEnum s w => λ z, JInteger (cast true 64 z)
  | TString => JString
  | TBinary => λ b, JBinary b.1 b.2
  | TJson => id
  | TVector t | TForwardList t | TValarray t | TArray _ t => construct_array (to_json t)
  | TPair t u => λ x, brace_list [to_json t x.1; to_json u x.2]
  | TTuple ts => λ x, brace_list (tuple_map to_json ts x)
  | TMap t => construct_object (to_json t)
  | TIntMap s w t =>
      construct_array (λ kv, brace_list [if s then JInteger (cast true 64 kv.1) else JUnsigned (cast false 64 kv.1); to_json t kv.2])
  end.

(** An element of [items()]: an object with one member. *)
Definition item_to_json (key : bytes) (value : json) : json := brace_list [brace_list [JString key; value]].

(** ** [from_json] *)

Section from_json.
Context `{FloatOps, FloatCast} (left_first : bool).

(** A double in an integer type: undefined when the type does not hold its integral part. *)
Definition float_to_integer (s : bool) (w : Z) (l : bytes) : dres Z :=
  match trunc l with
  | Some z => if in_type s w z then DOk z else DUndef UB_int_overflow
  | None => DUndef UB_int_overflow
  end.

(** [get_arithmetic_value] for an integer type. *)
Definition get_arithmetic_value (s : bool) (w : Z) (j : json) : dres Z :=
  match j with
  | JUnsigned z | JInteger z => DOk (cast s w z)
  | JFloat l => float_to_integer s w l
  | _ => DThrow (ExJsonType 302)
  end.

Definition from_json_double (j : json) : dres bytes :=
  match j with
  | JUnsigned z | JInteger z => DOk (float_of_integer z)
  | JFloat l => DOk l
  | _ => DThrow (ExJsonType 302)
  end.

(** The overload for the arithmetic types that are not those of JSON. *)
Definition from_json_arithmetic (s : bool) (w : Z) (j : json) : dres Z :=
  match j with
  | JBoolean b => DOk (cast s w (Z.b2z b))
  | _ => get_arithmetic_value s w j
  end.

(** [is_array()] or the exception. *)
Definition elements (j : json) : dres (list json) :=
  match j with JArray es => DOk es | _ => DThrow (ExJsonType 302) end.

(** [j.at(idx)] on a [const] value. *)
Definition at_const (idx : nat) (j : json) : dres json := (at_element (Z.of_nat idx) jget j).1.

(** The values of two arguments of a call. *)
Definition both {A B} (x : dres A) (y : dres B) : dres (A * B) :=
  if left_first then a ← x; b ← y; mret (a, b) else b ← y; a ← x; mret (a, b).

(** [j.at(Idx).get<Args>()...], as arguments of [std::make_tuple]. *)
Definition tuple_read {A} (get : ∀ t, json → dres (A t)) (j : json) : ∀ ts, nat → dres (tuple A ts) :=
  fix go ts i :=
    match ts return dres (tuple A ts) with
    | [] => DOk tt
    | t :: ts => both (v ← at_const i j; get t v) (go ts (S i))
    end.

(** [arr[i] = j.at(i).get<T>()] for [i] from [i0] on. *)
Fixpoint read_elements {A} (get : json → dres A) (j : json) (i0 n : nat) : dres (list A) :=
  match n with
  | O => mret []
  | S n => v ← at_const i0 j; x ← get v; xs ← read_elements get j (S i0) n; mret (x :: xs)
  end.

(** An element of the array that a [std::map] without string keys is read from. *)
Definition read_entry {A B} (get_key : json → dres A) (get_value : json → dres B) (p : json) : dres (A * B) :=
  elements p;; both (v ← at_const 0 p; get_key v) (v ← at_const 1 p; get_value v).

Fixpoint from_json (t : ctype) : json → dres (cval t) :=
  match t return json → dres (cval t) with
  | TNull => λ j, match j with JNull => DOk tt | _ => DThrow (ExJsonType 302) end
  | TBool => λ j, match j with JBoolean b => DOk b | _ => DThrow (ExJsonType 302) end
  | TInteger => get_arithmetic_value true 64
  | TUnsigned => get_arithmetic_value false 64
  | TDouble => from_json_double
  | TInt s w => from_json_arithmetic s w
  | TEnum s w => get_arithmetic_value s w
  | TString => λ j, match j with JString s => DOk s | _ => DThrow (ExJsonType 302) end
  | TBinary => λ j, match j with JBinary d s => DOk (d, s) | _ => DThrow (ExJsonType 302) end
  | TJson => DOk
  | TVector t | TValarray t => λ j, elements j ≫= mapM (from_json t)
  | TForwardList t => λ j, es ← elements j; l ← mapM (from_json t) (rev es); mret (rev l)
  | TArray n t => λ j, elements j;; read_elements (from_json t) j 0 n
  | TPair t u => λ j,
      elements j;;
      v ← at_const 0 j; x ← from_json t v; v ← at_const 1 j; y ← from_json u v; mret (x, y)
  | TTuple ts => λ j, elements j;; tuple_read from_json j ts 0
  | TMap t => λ j,
      match j with
      | JObject ms =>
          l ← mapM (λ m, x ← from_json t m.2; mret (m.1, x)) ms;
          mret (kv_insert_all bytes_ltb l [])
      | _ => DThrow (ExJsonType 302)
      end
  | TIntMap s w t => λ j,
      es ← elements j;
      l ← mapM (read_entry (from_json_arithmetic s w) (from_json t)) es;
      mret (kv_insert_all Z.ltb l [])
  end.

(** [get_to] for an array [T (&)[N]]: there is no test for an array. *)
Definition get_to_c_array (n : nat) (t : ctype) (j : json) : dres (list (cval t)) :=
  read_elements (from_json t) j 0 n.

(** ** [value] with a default *)

Definition value_key (t : ctype) (key : bytes) (default_value : cval t) (j : json) : dres (cval t) :=
  if is_object j then
    match find key j with Some v => from_json t v | None => DOk default_value end
  else DThrow (ExJsonType 306).

(** With a pointer: the conversion is inside the [try] as well. *)
Definition value_pointer (t : ctype) (ptr : json_pointer) (default_value : cval t) (j : json) : dres (cval t) :=
  if is_object j then
    match v ← const_get_checked ptr j; from_json t v with
    | DThrow (ExJsonOutOfRange _) => DOk default_value
    | r => r
    end
  else DThrow (ExJsonType 306).
End from_json.

(** ** Induction on types *)

Section ctype_rect.
Context (P : ctype → Prop)
  (HNull : P TNull) (HBool : P TBool) (HInteger : P TInteger) (HUnsigned : P TUnsigned) (HDouble : P TDouble)
  (HInt : ∀ s w, P (TInt s w)) (HEnum : ∀ s w, P (TEnum s w)) (HString : P TString) (HBinary : P TBinary)
  (HJson : P TJson) (HVector : ∀ t, P t → P (TVector t)) (HForwardList : ∀ t, P t → P (TForwardList t))
  (HValarray : ∀ t, P t → P (TValarray t)) (HArray : ∀ n t, P t → P (TArray n t))
  (HPair : ∀ t u, P t → P u → P (TPair t u)) (HTuple : ∀ ts, Forall P ts → P (TTuple ts))
  (HMap : ∀ t, P t → P (TMap t)) (HIntMap : ∀ s w t, P t → P (TIntMap s w t)).

Fixpoint ctype_induction (t : ctype) : P t :=
  match t with
  | TNull => HNull | TBool => HBool | TInteger => HInteger | TUnsigned => HUnsigned | TDouble => HDouble
  | TInt s w => HInt s w | TEnum s w => HEnum s w | TString => HString | TBinary => HBinary | TJson => HJson
  | TVector t => HVector t (ctype_induction t)
  | TForwardList t => HForwardList t (ctype_induction t)
  | TValarray t => HValarray t (ctype_induction t)
  | TArray n t => HArray n t (ctype_induction t)
  | TPair t u => HPair t u (ctype_induction t) (ctype_induction u)
  | TTuple ts =>
      HTuple ts ((fix go (ts : list ctype) : Forall P ts :=
        match ts with
        | [] => Forall_nil_2 _
        | t :: ts => Forall_cons_2 P t ts (ctype_induction t) (go ts)
        end) ts)
  | TMap t => HMap t (ctype_induction t)
  | TIntMap s w t => HIntMap s w t (ctype_induction t)
  end.
End ctype_rect.

(** ** Integers *)

Lemma cast_in_type s w z : 0 < w → in_type s w (cast s w z) = true.
Proof.
  intros Hw. unfold cast, in_type, wrap.
  pose proof (Z.mod_pos_bound z (2 ^ w) ltac:(lia)). pose proof (Z.pow_succ_r 2 (w - 1) ltac:(lia)) as E.
  replace (Z.succ (w - 1)) with w in E by lia.
  destruct s; cbn [andb]; [case_match|]; zify_bools; rewrite andb_true_iff, Z.leb_le, Z.ltb_lt; lia.
Qed.

Lemma cast_small s w z : 0 < w → in_type s w z = true → cast s w z = z.
Proof.
  intros Hw. unfold cast, in_type, wrap. pose proof (Z.pow_succ_r 2 (w - 1) ltac:(lia)) as E.
  replace (Z.succ (w - 1)) with w in E by lia.
  destruct s; cbn [andb]; rewrite andb_true_iff, Z.leb_le, Z.ltb_lt; intros [H1 H2].
  - destruct (Z.neg_nonneg_cases z).
    + rewrite <- (Z.mod_unique z (2 ^ w) (-1) (z + 2 ^ w)) by lia. case_match; blia.
    + rewrite Z.mod_small by lia. case_match; blia.
  - by rewrite Z.mod_small by lia.
Qed.

(** A value of a narrower type survives the conversion to 64 bits and back. *)
Lemma cast_cast s s' w z : 0 < w ≤ 64 → in_type s w z = true → cast s w (cast s' 64 z) = z.
Proof.
  intros Hw Hz. transitivity (cast s w z); [|apply cast_small; [lia|done]]. unfold cast at 1 3.
  assert (wrap w (cast s' 64 z) = wrap w z) as E; [|by rewrite E].
  unfold cast, wrap.
  assert (∃ k, 2 ^ 64 = k * 2 ^ w) as [k Hk].
  { exists (2 ^ (64 - w)). rewrite <- Z.pow_add_r by lia. f_equal. lia. }
  rewrite Hk. set (m := 2 ^ w) in *. assert (0 < m) by (apply Z.pow_pos_nonneg; lia).
  assert (0 < k) by nia.
  assert ((z mod (k * m)) mod m = z mod m) as E by (rewrite Z.mul_comm, Z.rem_mul_r by lia; rewrite Z.mul_comm, Z.mod_add, Z.mod_mod; lia).
  case_match; [|done]. rewrite <- E. replace (z mod (k * m) - k * m) with (z mod (k * m) + (- k) * m) by lia.
  apply Z.mod_add. lia.
Qed.

(** ** Maps *)

Lemma Zltb_trans x y z : (x <? y) = true → (y <? z) = true → (x <? z) = true.
Proof. rewrite !Z.ltb_lt. lia. Qed.

Section kv.
Context {K V : Type} (ltb : K → K → bool).

Lemma kv_emplace_elem k (v : V) l m : m ∈ kv_emplace ltb k v l → m = (k, v) ∨ m ∈ l.
Proof.
  induction l as [|[k' w] l IH]; cbn; [set_solver|]. repeat case_match; [set_solver| |set_solver].
  intros [->|Hm]%elem_of_cons; [set_solver|]. apply IH in Hm. set_solver.
Qed.

Lemma kv_insert_all_elem (kvs l : list (K * V)) m : m ∈ kv_insert_all ltb kvs l → m ∈ kvs ∨ m ∈ l.
Proof.
  revert l. unfold kv_insert_all. induction kvs as [|[k v] kvs IH]; intros l; cbn; [set_solver|].
  intros [Hm|Hm%kv_emplace_elem]%IH; set_solver.
Qed.

Context (irrefl : ∀ k, ltb k k = false) (trans : ∀ k1 k2 k3, ltb k1 k2 = true → ltb k2 k3 = true → ltb k1 k3 = true).

Lemma kv_sorted_cons k (v : V) l :
  kv_sorted ltb ((k, v) :: l) = true ↔ Forall (λ m, ltb k m.1 = true) l ∧ kv_sorted ltb l = true.
Proof using trans.
  cbn. rewrite andb_true_iff. split; intros [Hh Hs]; (split; [|done]).
  - revert k v Hh Hs. induction l as [|[k' v'] l IH]; intros k v Hh Hs; [constructor|]. constructor; [done|].
    cbn in Hs. apply andb_true_iff in Hs as [Hh' Hs].
    eapply Forall_impl; [by apply (IH k' v')|]. intros [k2 v2] Hk2. by eapply trans.
  - destruct l as [|[k' v'] l]; [done|]. by inversion Hh.
Qed.

Lemma kv_emplace_last k (v : V) l : Forall (λ m, ltb m.1 k = true) l → kv_emplace ltb k v l = l ++ [(k, v)].
Proof using irrefl trans.
  induction 1 as [|[k' w] l Hk _ IH]; [done|]. cbn in *. rewrite Hk, IH.
  destruct (ltb k k') eqn:E; [|done]. pose proof (trans _ _ _ Hk E) as C. by rewrite irrefl in C.
Qed.

Lemma kv_emplace_sorted k (v : V) l : kv_sorted ltb l = true → kv_sorted ltb (kv_emplace ltb k v l) = true.
Proof using trans.
  induction l as [|[k' w] l IH]; [done|]. intros Hs.
  pose proof (proj1 (kv_sorted_cons k' w l) Hs) as [Ha Hl]. cbn [kv_emplace].
  destruct (ltb k k') eqn:E1.
  - apply kv_sorted_cons. split; [|done]. constructor; [done|]. eapply Forall_impl; [done|]. intros m. by apply trans.
  - destruct (ltb k' k) eqn:E2; [|done]. apply kv_sorted_cons. split; [|by apply IH].
    clear -Ha E2. induction Ha as [|[k2 v2] l Hk2 Ha IH]; cbn; [by constructor|].
    repeat case_match; repeat constructor; done.
Qed.

Lemma kv_insert_all_sorted (kvs l : list (K * V)) : kv_sorted ltb l = true → kv_sorted ltb (kv_insert_all ltb kvs l) = true.
Proof using trans.
  revert l. unfold kv_insert_all. induction kvs as [|kv kvs IH]; intros l Hl; [done|]. cbn. by apply IH, kv_emplace_sorted.
Qed.

(** Members in order are inserted one behind the other. *)
Lemma kv_insert_all_id (l : list (K * V)) : kv_sorted ltb l = true → kv_insert_all ltb l [] = l.
Proof using irrefl trans.
  intros Hl. change l with ([] ++ l) at 2.
  assert (Forall (λ m, Forall (λ m', ltb m'.1 m.1 = true) (@nil (K * V))) l) as Hb by (apply Forall_forall; constructor).
  revert Hb. generalize (@nil (K * V)) as acc. revert Hl. unfold kv_insert_all.
  induction l as [|[k v] l IH]; intros Hl acc Hb; cbn; [by rewrite app_nil_r|].
  apply kv_sorted_cons in Hl as [Ha Hl]. inversion Hb as [|? ? Hk Hb']; subst.
  rewrite kv_emplace_last by done. rewrite IH; [by rewrite <- app_assoc|done|].
  rewrite Forall_forall in *. intros m Hm. apply Forall_app. split; [by apply Hb'|].
  constructor; [|constructor]. by apply Ha.
Qed.
End kv.

Lemma kv_sorted_map {K V W : Type} (ltb : K → K → bool) (f : V → W) l :
  kv_sorted ltb (map (λ kv, (kv.1, f kv.2)) l) = kv_sorted ltb l.
Proof. induction l as [|[k v] [|[k' v'] l] IH]; [done..|]. cbn in *. by rewrite IH. Qed.

(** ** Reading what was written *)

(** No pair or tuple in the value is one that its initializer list turns into an object
    (or, without elements, into [null]). *)
Definition stays_array (es : list json) : bool := match es with [] => false | _ => negb (forallb is_pair es) end.

Fixpoint braces_ok (t : ctype) : cval t → bool :=
  match t return cval t → bool with
  | TVector t | TForwardList t | TValarray t | TArray _ t => forallb (braces_ok t)
  | TPair t u => λ x, stays_array [to_json t x.1; to_json u x.2] && (braces_ok t x.1 && braces_ok u x.2)
  | TTuple ts => λ x, stays_array (tuple_map to_json ts x) && forallb id (tuple_map braces_ok ts x)
  | TMap t | TIntMap _ _ t => λ l, forallb (λ kv, braces_ok t kv.2) l
  | _ => λ _, true
  end.

(** What reading gives: the value, or the exception of a misread pair. *)
Definition reads_back {A} (ok : bool) (x : A) : dres A := if ok then DOk x else DThrow (ExJsonType 302).

Lemma reads_back_bind {A B} ok ok' (x : A) (f : A → dres B) y :
  (ok = true → f x = reads_back ok' y) → (reads_back ok x ≫= f) = reads_back (ok && ok') y.
Proof. destruct ok; [|done]. intros Hf. by apply Hf. Qed.

Lemma reads_back_ret {A B} ok (x : A) (f : A → dres B) y : f x = DOk y → (reads_back ok x ≫= f) = reads_back ok y.
Proof. by destruct ok. Qed.

Lemma reads_back_both {A B} left_first ok ok' (x : A) (y : B) :
  both left_first (reads_back ok x) (reads_back ok' y) = reads_back (ok && ok') (x, y).
Proof. by destruct left_first, ok, ok'. Qed.

Lemma mapM_reads_back {A B} (f : B → dres A) (conv : A → B) (ok : A → bool) l :
  Forall (λ x, f (conv x) = reads_back (ok x) x) l →
  mapM f (map conv l) = reads_back (forallb ok l) l.
Proof.
  induction 1 as [|x l Hx _ IH]; [done|]. cbn [map mapM forallb]. rewrite Hx.
  apply reads_back_bind. intros _. rewrite IH. by apply reads_back_ret.
Qed.

Lemma forallb_rev {A} (f : A → bool) l : forallb f (rev l) = forallb f l.
Proof. induction l as [|x l IH]; [done|]. cbn. rewrite forallb_app, IH. cbn. destruct (f x), (forallb f l); done. Qed.

Lemma at_const_lookup i es v : es !! i = Some v → at_const i (JArray es) = DOk v.
Proof. intros H. unfold at_const, at_element. by rewrite Nat2Z.id, H. Qed.

Lemma brace_list_array es : stays_array es = true → brace_list es = JArray es.
Proof.
  unfold stays_array, brace_list, json_of_list. destruct es; [done|]. rewrite negb_true_iff. by intros ->.
Qed.

(** An initializer list that does not stay an array is not read as one. *)
Lemma elements_brace_list es : elements (brace_list es) = reads_back (stays_array es) es.
Proof.
  destruct (stays_array es) eqn:E; [by rewrite brace_list_array|]. unfold stays_array in E.
  destruct es; [done|]. apply negb_false_iff in E. unfold brace_list, json_of_list. by rewrite E.
Qed.

Lemma read_elements_reads_back {A} (get : json → dres A) (conv : A → json) (ok : A → bool) l es i :
  Forall (λ x, get (conv x) = reads_back (ok x) x) l → drop i es = map conv l →
  read_elements get (JArray es) i (length l) = reads_back (forallb ok l) l.
Proof.
  intros Hl. revert i. induction Hl as [|x l Hx _ IH]; intros i Hd; [done|]. cbn [length read_elements forallb].
  assert (es !! i = Some (conv x)) as Hi by (by rewrite <- (Nat.add_0_r i), <- lookup_drop, Hd).
  rewrite (at_const_lookup _ _ _ Hi). cbn [mbind dres_bind]. rewrite Hx. apply reads_back_bind. intros _.
  rewrite IH; [|by rewrite <- Nat.add_1_r, <- drop_drop, Hd]. by apply reads_back_ret.
Qed.

Section roundtrip.
Context `{FloatOps, FloatCast} (left_first : bool).

(** Reading a value of a type gives it back, unless it holds a misread pair. *)
Abbreviation reads_ok t := (∀ x : cval t, valid t x = true →
  from_json left_first t (to_json t x) = reads_back (braces_ok t x) x).

Lemma reads_list t l : reads_ok t → forallb (valid t) l = true →
  mapM (from_json left_first t) (map (to_json t) l) = reads_back (forallb (braces_ok t) l) l.
Proof.
  intros IH Hl. apply mapM_reads_back. rewrite forallb_Forall in Hl.
  eapply Forall_impl; [exact Hl|]. intros x. apply IH.
Qed.

Lemma reads_forward_list t : reads_ok t → reads_ok (TForwardList t).
Proof.
  intros IH l Hl. cbn [to_json from_json braces_ok valid cval] in *. unfold construct_array.
  cbn [elements mbind dres_bind]. rewrite <- map_rev, reads_list by (done || by rewrite forallb_rev).
  rewrite forallb_rev. apply reads_back_ret. cbn. by rewrite rev_involutive.
Qed.

Lemma read_array n t : reads_ok t → reads_ok (TArray n t).
Proof.
  intros IH l Hl. cbn [to_json from_json braces_ok valid cval] in *. apply andb_true_iff in Hl as [Hn Hl].
  apply bool_decide_eq_true in Hn as <-. unfold construct_array. cbn [elements mbind dres_bind].
  apply (read_elements_reads_back _ (to_json t)); [|done]. rewrite forallb_Forall in Hl.
  eapply Forall_impl; [exact Hl|]. intros x. apply IH.
Qed.

Lemma reads_pair t u : reads_ok t → reads_ok u → reads_ok (TPair t u).
Proof.
  intros IHt IHu [x y] Hxy. cbn [to_json from_json braces_ok valid cval fst snd] in *.
  apply andb_true_iff in Hxy as [Hx Hy]. rewrite elements_brace_list. apply reads_back_bind. intros Ha.
  rewrite (brace_list_array _ Ha). erewrite (at_const_lookup 0), (at_const_lookup 1) by done. cbn [mbind dres_bind].
  rewrite IHt by done. apply reads_back_bind. intros _. rewrite IHu by done. by apply reads_back_ret.
Qed.

Lemma reads_tuple_from ts es i (x : tuple cval ts) :
  Forall (λ t, reads_ok t) ts → forallb id (tuple_map valid ts x) = true → drop i es = tuple_map to_json ts x →
  tuple_read left_first (from_json left_first) (JArray es) ts i = reads_back (forallb id (tuple_map braces_ok ts x)) x.
Proof.
  intros Hts. revert x i. induction Hts as [|t ts IHt _ IH]; intros x i Hx Hd; [by destruct x|].
  destruct x as [x y]. cbn [tuple_map forallb fst snd id tuple_read] in *. apply andb_true_iff in Hx as [Hx Hy].
  assert (es !! i = Some (to_json t x)) as Hi by (by rewrite <- (Nat.add_0_r i), <- lookup_drop, Hd).
  rewrite (at_const_lookup _ _ _ Hi). cbn [mbind dres_bind].
  rewrite IHt, (IH y) by (done || by rewrite <- Nat.add_1_r, <- drop_drop, Hd). apply reads_back_both.
Qed.

Lemma reads_tuple ts : Forall (λ t, reads_ok t) ts → reads_ok (TTuple ts).
Proof.
  intros Hts x Hx. cbn [to_json from_json braces_ok]. rewrite elements_brace_list. apply reads_back_bind. intros Ha.
  rewrite (brace_list_array _ Ha). by apply reads_tuple_from.
Qed.

Lemma reads_map t : reads_ok t → reads_ok (TMap t).
Proof.
  intros IH l Hl. cbn [to_json from_json braces_ok valid cval] in *. apply andb_true_iff in Hl as [Hs Hl].
  unfold construct_object. rewrite kv_insert_all_id by (eauto using bytes_ltb_irrefl, bytes_ltb_trans || by rewrite kv_sorted_map).
  rewrite (mapM_reads_back _ (λ kv, (kv.1, to_json t kv.2)) (λ kv, braces_ok t kv.2)).
  - apply reads_back_ret. by rewrite kv_insert_all_id by eauto using bytes_ltb_irrefl, bytes_ltb_trans.
  - rewrite forallb_Forall in Hl. eapply Forall_impl; [exact Hl|]. intros [k x] Hx. cbn [fst snd] in *.
    rewrite IH by done. by apply reads_back_ret.
Qed.

Lemma read_arithmetic_written s w z :
  0 < w ≤ 64 → in_type s w z = true →
  from_json_arithmetic s w (if s then JInteger (cast true 64 z) else JUnsigned (cast false 64 z)) = DOk z.
Proof. intros Hw Hz. destruct s; cbn [from_json_arithmetic get_arithmetic_value]; by rewrite cast_cast. Qed.

Lemma reads_int_map s w t : 0 < w ≤ 64 → reads_ok t → reads_ok (TIntMap s w t).
Proof.
  intros Hw IH l Hl. cbn [to_json from_json braces_ok valid cval] in *. apply andb_true_iff in Hl as [Hs Hl].
  unfold construct_array. cbn [elements mbind dres_bind]. rewrite (mapM_reads_back _ _ (λ kv, braces_ok t kv.2)).
  - apply reads_back_ret. by rewrite kv_insert_all_id by eauto using Z.ltb_irrefl, Zltb_trans.
  - rewrite forallb_Forall in Hl. eapply Forall_impl; [exact Hl|]. intros [k x] [Hk Hx]%andb_true_iff. cbn [fst snd] in *.
    rewrite brace_list_array by (by destruct s). unfold read_entry. cbn [elements mbind dres_bind].
    erewrite (at_const_lookup 0), (at_const_lookup 1) by done. cbn [mbind dres_bind].
    rewrite read_arithmetic_written, IH by done. by destruct left_first, (braces_ok t x).
Qed.

(** C18 (roundtrip): reading a JSON value with [get] as the type it was made from gives the value back, for
    every type built from the numbers, strings, sequences, maps, pairs and tuples the library converts; it
    throws [type_error.302] exactly when the value holds a pair or tuple whose components are all written as
    arrays of two elements that start with a string, or an empty tuple, because the initializer list
    from which these are written becomes an object or [null]. *)
Theorem get_to_json t (x : cval t) :
  is_type t = true → valid t x = true →
  from_json left_first t (to_json t x) = if braces_ok t x then DOk x else DThrow (ExJsonType 302).
Proof.
  change (if braces_ok t x then DOk x else DThrow (ExJsonType 302)) with (reads_back (braces_ok t x) x).
  intros Ht. revert x. revert Ht.
  induction t using ctype_induction; intros Ht x Hx; cbn [is_type] in Ht; split_hyps; zify_bools;
    try (destruct x; reflexivity); try (cbn [from_json to_json get_arithmetic_value] in *; by rewrite cast_small by (done || lia)).
  - by apply read_arithmetic_written.
  - cbn [from_json to_json get_arithmetic_value] in *. by rewrite cast_cast.
  - apply reads_list; eauto.
  - apply reads_forward_list; eauto.
  - apply reads_list; eauto.
  - apply read_array; eauto.
  - apply reads_pair; eauto.
  - apply reads_tuple; [|done]. rewrite forallb_Forall in Ht. rewrite Forall_forall in *. eauto.
  - apply reads_map; eauto.
  - apply reads_int_map; eauto.
Qed.
End roundtrip.

(** ** What a conversion can give *)

(** The JSON types that a C++ type is read from. *)
Definition accepts (t : ctype) (j : json) : bool :=
  match t, j with
  | TJson, _ | TNull, JNull | TBool, JBoolean _ | TString, JString _ | TBinary, JBinary _ _ => true
  | (TInteger | TUnsigned | TDouble | TEnum _ _), (JInteger _ | JUnsigned _ | JFloat _) => true
  | TInt _ _, (JInteger _ | JUnsigned _ | JFloat _ | JBoolean _) => true
  | (TVector _ | TForwardList _ | TValarray _ | TArray _ _ | TPair _ _ | TTuple _ | TIntMap _ _ _), JArray _ => true
  | TMap _, JObject _ => true
  | _, _ => false
  end.

(** The elements an array must have at least. *)
Definition components (t : ctype) : nat :=
  match t with TArray n _ => n | TPair _ _ => 2 | TTuple ts => length ts | _ => 0 end.

(** The exception that the conversion of one value throws by itself. *)
Inductive refused : ctype → json → exn → Prop :=
| refused_type t j : accepts t j = false → refused t j (ExJsonType 302)
| refused_short t es : (length es < components t)%nat → refused t (JArray es) (ExJsonOutOfRange 401).

(** A floating-point number whose integral part the integer type does not hold. *)
Definition unheld `{FloatCast} (t : ctype) (j : json) : Prop :=
  match t, j with
  | TInteger, JFloat l => from_option (λ z, in_type true 64 z = false) True (trunc l)
  | TUnsigned, JFloat l => from_option (λ z, in_type false 64 z = false) True (trunc l)
  | (TInt s w | TEnum s w), JFloat l => from_option (λ z, in_type s w z = false) True (trunc l)
  | _, _ => False
  end.

(** A conversion that is part of another: of an element, a component, a member.  The entries of a
    map without string keys are read as pairs. *)
Inductive part_of : ctype * json → ctype * json → Prop :=
| part_vector t es v : v ∈ es → part_of (TVector t, JArray es) (t, v)
| part_forward_list t es v : v ∈ es → part_of (TForwardList t, JArray es) (t, v)
| part_valarray t es v : v ∈ es → part_of (TValarray t, JArray es) (t, v)
| part_array n t es i v : (i < n)%nat → es !! i = Some v → part_of (TArray n t, JArray es) (t, v)
| part_first t u es v : es !! 0%nat = Some v → part_of (TPair t u, JArray es) (t, v)
| part_second t u es v : es !! 1%nat = Some v → part_of (TPair t u, JArray es) (u, v)
| part_tuple ts es i t v : ts !! i = Some t → es !! i = Some v → part_of (TTuple ts, JArray es) (t, v)
| part_member t ms k v : (k, v) ∈ ms → part_of (TMap t, JObject ms) (t, v)
| part_entry s w t es p : p ∈ es → part_of (TIntMap s w t, JArray es) (TPair (TInt s w) t, p).

(** Conversions that are made, at any depth. *)
Abbreviation parts := (rtc part_of).

Section sound.
Context `{FloatOps, FloatCast} (left_first : bool).

(** A result with [P], or the exception of a part that is refused, or undefined for a part that is a number the
    type does not hold. *)
Definition yields {A} (t : ctype) (j : json) (P : A → Prop) (r : dres A) : Prop :=
  match r with
  | DOk x => P x
  | DThrow e => ∃ t' j', parts (t, j) (t', j') ∧ refused t' j' e
  | DUndef u => u = UB_int_overflow ∧ ∃ t' j', parts (t, j) (t', j') ∧ unheld t' j'
  end.

Lemma yields_bind {A B} t j (P : A → Prop) (Q : B → Prop) r f :
  yields t j P r → (∀ a, P a → yields t j Q (f a)) → yields t j Q (r ≫= f).
Proof. destruct r; cbn; auto. Qed.

Lemma yields_weaken {A} t j (P Q : A → Prop) r : yields t j P r → (∀ x, P x → Q x) → yields t j Q r.
Proof. destruct r; cbn; auto. Qed.

(** What happens in a part. *)
Lemma yields_part {A} t j t' j' (P : A → Prop) r : part_of (t, j) (t', j') → yields t' j' P r → yields t j P r.
Proof.
  intros Hp. destruct r; cbn; [done|intros (t2 & j2 & Hr & He)|intros (-> & t2 & j2 & Hr & He); split; [done|]];
    exists t2, j2; (split; [by eapply rtc_l|done]).
Qed.

Lemma yields_both {A B} t j (P : A → Prop) (Q : B → Prop) r r' :
  yields t j P r → yields t j Q r' → yields t j (λ x, P x.1 ∧ Q x.2) (both left_first r r').
Proof using. destruct left_first, r, r'; cbn; auto. Qed.

Lemma yields_mapM {A B} t j (P : B → Prop) (f : A → dres B) l :
  Forall (λ a, yields t j P (f a)) l → yields t j (Forall P) (mapM f l).
Proof.
  induction 1 as [|a l Ha _ IH]; [constructor|]. eapply yields_bind; [exact Ha|]. intros b Hb.
  eapply yields_bind; [exact IH|]. intros l' Hl'. by constructor.
Qed.

Lemma yields_refused {A} t j (P : A → Prop) e : refused t j e → yields t j P (DThrow e).
Proof. intros He. by exists t, j. Qed.

Lemma elements_yields t j :
  (∀ es, accepts t (JArray es) = true) → (∀ j, accepts t j = true → ∃ es, j = JArray es) → yields t j (λ es, j = JArray es) (elements j).
Proof.
  intros Ha Hb. destruct j; cbn [elements]; try done; apply yields_refused, refused_type; destruct (accepts t _) eqn:E; try done;
    by destruct (Hb _ E).
Qed.

Ltac array_only := intros j0; by destruct j0; try done; eexists.

Lemma at_const_yields t es i : (i < components t)%nat → yields t (JArray es) (λ v, es !! i = Some v) (at_const i (JArray es)).
Proof.
  intros Hi. unfold at_const, at_element. rewrite Nat2Z.id. destruct (es !! i) as [v|] eqn:E; [done|].
  apply yields_refused, refused_short. apply lookup_ge_None in E. lia.
Qed.

Abbreviation sound t := (∀ j, yields t j (λ x, valid t x = true) (from_json left_first t j)).

(** An element that must be there, and its conversion. *)
Lemma read_at_yields {A} c t i es (P : A → Prop) get :
  (i < components c)%nat → (∀ v, es !! i = Some v → part_of (c, JArray es) (t, v)) → (∀ v, yields t v P (get v)) →
  yields c (JArray es) P (v ← at_const i (JArray es); get v).
Proof.
  intros Hi Hp Hget. eapply yields_bind; [by apply at_const_yields|]. intros v Hv. cbn beta in Hv.
  eapply yields_part; [by apply Hp|apply Hget].
Qed.

Lemma arithmetic_sound t s w j :
  0 < w → (∀ j, accepts t j = match j with JInteger _ | JUnsigned _ | JFloat _ => true | JBoolean _ => accepts t (JBoolean true) | _ => false end) →
  accepts t (JBoolean true) = false ∨ (∀ b, j ≠ JBoolean b) →
  (∀ l, unheld t (JFloat l) = from_option (λ z, in_type s w z = false) True (trunc l)) →
  yields t j (λ z, in_type s w z = true) (get_arithmetic_value s w j).
Proof.
  intros Hw Ha Hb Hu. destruct j; cbn [get_arithmetic_value]; try (apply yields_refused, refused_type; by rewrite Ha); try by apply cast_in_type.
  - apply yields_refused, refused_type. rewrite Ha. destruct Hb as [Hb|Hb]; [done|by destruct (Hb b)].
  - unfold float_to_integer. pose proof (Hu literal) as E. destruct (trunc literal) as [z|]; [destruct (in_type s w z) eqn:Hz; [done|]|];
      (split; [done|]); exists t, (JFloat literal); (split; [done|]); rewrite E; done.
Qed.

Lemma read_elements_sound n t es i m :
  sound t → (i + m ≤ n)%nat →
  yields (TArray n t) (JArray es) (λ l, Forall (λ x, valid t x = true) l ∧ length l = m) (read_elements (from_json left_first t) (JArray es) i m).
Proof.
  intros Ht. revert i. induction m as [|m IH]; intros i Hi; [by split|]. cbn [read_elements].
  eapply yields_bind; [apply at_const_yields; cbn; lia|]. intros v Hv. cbn beta in Hv.
  eapply yields_bind; [eapply yields_part; [eapply (part_array n t es i v); [lia|done]|apply Ht]|]. intros x Hx.
  eapply yields_bind; [apply IH; lia|]. intros xs [Hxs Hn]. split; [by constructor|cbn; by f_equal].
Qed.

Lemma tuple_read_sound ts us es i :
  Forall (λ t, sound t) us → drop i ts = us →
  yields (TTuple ts) (JArray es) (λ x, forallb id (tuple_map valid us x) = true) (tuple_read left_first (from_json left_first) (JArray es) us i).
Proof.
  intros Hus. revert i. induction Hus as [|t us Ht _ IH]; intros i Hd; [done|]. cbn [tuple_read].
  assert (ts !! i = Some t) as Hi by (by rewrite <- (Nat.add_0_r i), <- lookup_drop, Hd).
  eapply yields_weaken; [apply (yields_both _ _ (λ x, valid t x = true))|].
  - apply (read_at_yields _ t); [cbn; by eapply lookup_lt_Some| |exact Ht]. intros v. by apply part_tuple.
  - apply IH. by rewrite <- Nat.add_1_r, <- drop_drop, Hd.
  - intros [x y] [Hx Hy]. cbn [tuple_map forallb id fst snd] in *. by rewrite Hx.
Qed.

(** The elements of an array, each converted. *)
Lemma mapM_sound {A B} c j t (P : B → Prop) (get : A → dres B) (value : A → json) l :
  (∀ a, a ∈ l → part_of (c, j) (t, value a)) → (∀ a, yields t (value a) P (get a)) → yields c j (Forall P) (mapM get l).
Proof.
  intros Hp Hget. apply yields_mapM, Forall_forall. intros a Ha. eapply yields_part; [by apply Hp|apply Hget].
Qed.

Lemma pair_sound {A B} c t u j (P : A → Prop) (Q : B → Prop) f g :
  c = TPair t u → (∀ v, yields t v P (f v)) → (∀ v, yields u v Q (g v)) → 
  yields c j (λ kv, P kv.1 ∧ Q kv.2) (read_entry left_first f g j).
Proof.
  intros -> Hf Hg. eapply yields_bind; [apply elements_yields; [done|array_only]|]. intros es ->. apply yields_both.
  - apply (read_at_yields _ t); [cbn; lia|by constructor|done].
  - apply (read_at_yields _ u); [cbn; lia|by constructor|done].
Qed.

Lemma map_sound t j : sound t → yields (TMap t) j (λ l, valid (TMap t) l = true) (from_json left_first (TMap t) j).
Proof.
  intros Ht. destruct j as [|ms| | | | | | | |]; try by apply yields_refused, refused_type. cbn [from_json]. eapply yields_bind.
  - apply (mapM_sound _ _ t (λ kv, valid t kv.2 = true) _ snd); [intros [k v]; apply part_member|]. intros [k v].
    eapply yields_bind; [apply Ht|]. by intros x Hx.
  - intros l Hl. cbn [valid yields mret dres_ret]. apply andb_true_iff. split.
    + apply kv_insert_all_sorted; [apply bytes_ltb_trans|done].
    + rewrite forallb_Forall, Forall_forall in *. intros kv [Hkv|Hkv]%kv_insert_all_elem; [by apply Hl|set_solver].
Qed.

Lemma int_sound s w j : 0 < w → yields (TInt s w) j (λ z, in_type s w z = true) (from_json_arithmetic s w j).
Proof.
  intros Hw. assert ((∃ b, j = JBoolean b) ∨ (∀ b, j ≠ JBoolean b)) as [[b ->]|Hb] by (destruct j; eauto); [by apply cast_in_type|].
  assert (from_json_arithmetic s w j = get_arithmetic_value s w j) as -> by (destruct j; try done; by destruct (Hb b)).
  apply arithmetic_sound; [done|by intros []|by right|done].
Qed.

Lemma int_map_sound s w t j :
  0 < w → sound t → yields (TIntMap s w t) j (λ l, valid (TIntMap s w t) l = true) (from_json left_first (TIntMap s w t) j).
Proof.
  intros Hw Ht. cbn [from_json]. eapply yields_bind; [apply elements_yields; [done|array_only]|]. intros es ->. eapply yields_bind.
  - apply (mapM_sound _ _ (TPair (TInt s w) t) (λ kv, in_type s w kv.1 = true ∧ valid t kv.2 = true) _ id); [by constructor|]. intros p.
    apply (pair_sound _ (TInt s w) t p (λ z, in_type s w z = true) (λ x, valid t x = true)); [done|intros v; by apply int_sound|exact Ht].
  - intros l Hl. cbn [valid yields mret dres_ret]. apply andb_true_iff. split.
    + apply kv_insert_all_sorted; [apply Zltb_trans|done].
    + rewrite forallb_Forall, Forall_forall in *. intros kv [Hkv|Hkv]%kv_insert_all_elem; [|set_solver].
      apply andb_true_iff. by apply Hl.
Qed.

Lemma from_json_yields t : is_type t = true → sound t.
Proof.
  induction t using ctype_induction; intros Ht j; cbn [is_type] in Ht; split_hyps; zify_bools.
  - destruct j; try done; by apply yields_refused, refused_type.
  - destruct j; try done; by apply yields_refused, refused_type.
  - apply arithmetic_sound; [done|by intros []|by left|done].
  - apply arithmetic_sound; [done|by intros []|by left|done].
  - destruct j; try done; by apply yields_refused, refused_type.
  - by apply int_sound.
  - apply arithmetic_sound; [done|by intros []|by left|done].
  - destruct j; try done; by apply yields_refused, refused_type.
  - destruct j; try done; by apply yields_refused, refused_type.
  - done.
  - eapply yields_bind; [apply elements_yields; [done|array_only]|]. intros es ->.
    eapply yields_weaken; [apply (mapM_sound _ _ t (λ x, valid t x = true) _ id); [by constructor|eauto]|].
    intros l Hl. by apply forallb_Forall.
  - eapply yields_bind; [apply elements_yields; [done|array_only]|]. intros es ->. eapply yields_bind.
    + apply (mapM_sound _ _ t (λ x, valid t x = true) _ id (rev es)); [|eauto].
      intros v Hv. constructor. by rewrite list_elem_of_In, <- in_rev, <- list_elem_of_In in Hv.
    + intros l Hl. cbn [valid yields mret dres_ret]. rewrite forallb_rev. by apply forallb_Forall.
  - eapply yields_bind; [apply elements_yields; [done|array_only]|]. intros es ->.
    eapply yields_weaken; [apply (mapM_sound _ _ t (λ x, valid t x = true) _ id); [by constructor|eauto]|].
    intros l Hl. by apply forallb_Forall.
  - eapply yields_bind; [apply elements_yields; [done|array_only]|]. intros es ->.
    eapply yields_weaken; [apply (read_elements_sound n t es 0 n); [eauto|lia]|].
    intros l [Hl Hn]. cbn [valid]. apply andb_true_iff. split; [by apply bool_decide_eq_true|by apply forallb_Forall].
  - eapply yields_bind; [apply elements_yields; [done|array_only]|]. intros es ->. cbn [from_json].
    eapply yields_bind; [apply at_const_yields; cbn; lia|]. intros v Hv. cbn beta in Hv.
    eapply yields_bind; [eapply yields_part; [by constructor|by apply IHt1]|]. intros x Hx. cbn beta in Hx.
    eapply yields_bind; [apply at_const_yields; cbn; lia|]. intros w Hw. cbn beta in Hw.
    eapply yields_bind; [eapply yields_part; [by apply part_second|by apply IHt2]|]. intros y Hy. cbn in *. by rewrite Hx.
  - eapply yields_bind; [apply elements_yields; [done|array_only]|]. intros es ->. apply tuple_read_sound; [|done].
    rewrite forallb_Forall in Ht. rewrite Forall_forall in *. eauto.
  - apply map_sound; eauto.
  - apply int_map_sound; eauto.
Qed.

(** *** What has been converted is converted in all its parts *)

Definition converts {A} (r : dres A) : Prop := ∃ x, r = DOk x.

Lemma converts_bind {A B} (r : dres A) (f : A → dres B) : converts (r ≫= f) → ∃ x, r = DOk x ∧ converts (f x).
Proof. intros [y Hy]. destruct r as [a| |]; try done. exists a. split; [done|by exists y]. Qed.

Lemma converts_both {A B} (r : dres A) (r' : dres B) : converts (both left_first r r') → converts r ∧ converts r'.
Proof using. unfold converts. destruct left_first, r, r'; cbn; intros [? ?]; try done; eauto. Qed.

Lemma converts_mapM {A B} (f : A → dres B) l : converts (mapM f l) → ∀ a, a ∈ l → converts (f a).
Proof.
  induction l as [|a l IH]; intros Hc b Hb; [by apply elem_of_nil in Hb|]. apply converts_bind in Hc as (x & Hx & Hc).
  apply converts_bind in Hc as (xs & Hxs & _). apply elem_of_cons in Hb as [->|Hb]; [by eexists|]. apply IH; [by eexists|done].
Qed.

Lemma converts_elements {A} j (f : list json → dres A) : converts (elements j ≫= f) → ∃ es, j = JArray es ∧ converts (f es).
Proof. intros (es & He & Hc)%converts_bind. destruct j; try done. injection He as ->. eauto. Qed.

(** An element that is read is there, and is converted. *)
Lemma converts_at {A} i es (f : json → dres A) : converts (v ← at_const i (JArray es); f v) → ∃ v, es !! i = Some v ∧ converts (f v).
Proof.
  intros (v & Hv & Hc)%converts_bind. unfold at_const, at_element in Hv. rewrite Nat2Z.id in Hv.
  destruct (es !! i); [|done]. injection Hv as ->. eauto.
Qed.

Lemma converts_read_elements {A} (f : json → dres A) es i n k :
  converts (read_elements f (JArray es) i n) → (k < n)%nat → ∃ v, es !! (i + k)%nat = Some v ∧ converts (f v).
Proof.
  revert i k. induction n as [|n IH]; intros i k Hc Hk; [lia|]. cbn [read_elements] in Hc.
  apply converts_at in Hc as (v & Hv & Hc). apply converts_bind in Hc as (x & Hx & Hc). destruct k as [|k].
  - rewrite Nat.add_0_r. exists v. split; [done|by eexists].
  - replace (i + S k)%nat with (S i + k)%nat by lia. apply IH; [|lia]. by apply converts_bind in Hc as (xs & Hxs & _); eexists.
Qed.

Lemma converts_tuple_read ts es i k t :
  converts (tuple_read left_first (from_json left_first) (JArray es) ts i) → ts !! k = Some t →
  ∃ v, es !! (i + k)%nat = Some v ∧ converts (from_json left_first t v).
Proof.
  revert i k. induction ts as [|u ts IH]; intros i k Hc Hk; [done|]. cbn [tuple_read] in Hc.
  apply converts_both in Hc as [Hu Hc]. destruct k as [|k].
  - injection Hk as ->. rewrite Nat.add_0_r. by apply converts_at.
  - replace (i + S k)%nat with (S i + k)%nat by lia. by apply IH.
Qed.

Lemma converts_part t j t' j' : part_of (t, j) (t', j') → converts (from_json left_first t j) → converts (from_json left_first t' j').
Proof.
  inversion 1; subst; cbn [from_json].
  - intros (es' & [= <-] & Hc)%converts_elements. by eapply converts_mapM.
  - intros (es' & [= <-] & (l & Hl & _)%converts_bind)%converts_elements. eapply converts_mapM; [by eexists|].
    by rewrite list_elem_of_In, <- in_rev, <- list_elem_of_In.
  - intros (es' & [= <-] & Hc)%converts_elements. by eapply converts_mapM.
  - intros (es' & [= <-] & Hc)%converts_elements. eapply (converts_read_elements _ _ 0 _ i) in Hc as (v & Hv & Hc); [|done].
    by simplify_eq/=.
  - intros (es' & [= <-] & Hc)%converts_elements. apply converts_at in Hc as (v & Hv & (x & Hx & _)%converts_bind). simplify_eq/=. by eexists.
  - intros (es' & [= <-] & Hc)%converts_elements. apply converts_at in Hc as (v & Hv & (x & Hx & Hc)%converts_bind).
    apply converts_at in Hc as (v' & Hv' & (x' & Hx' & _)%converts_bind). simplify_eq/=. by eexists.
  - intros (es' & [= <-] & Hc)%converts_elements. eapply (converts_tuple_read _ _ 0 i) in Hc as (v & Hv & Hc); [|done]. by simplify_eq/=.
  - intros (l & Hl & _)%converts_bind. pose proof (converts_mapM _ _ (ex_intro _ l Hl)) as Hc.
    destruct (converts_bind _ _ (Hc (k, j') ltac:(done))) as (x & Hx & _). by exists x.
  - intros (es' & [= <-] & (l & Hl & _)%converts_bind)%converts_elements.
    assert (converts (read_entry left_first (from_json_arithmetic s w) (from_json left_first t0) j')) as Hc
      by (eapply converts_mapM; [by eexists|done]).
    unfold read_entry in Hc. apply converts_elements in Hc as (es2 & -> & [Hc1 Hc2]%converts_both).
    apply converts_at in Hc1 as (v & Hv & x & Hx). apply converts_at in Hc2 as (v' & Hv' & y & Hy).
    exists (x, y). cbn [elements mbind dres_bind]. rewrite (at_const_lookup _ _ _ Hv), (at_const_lookup _ _ _ Hv').
    cbn [mbind dres_bind from_json]. by rewrite Hx, Hy.
Qed.

Lemma converts_parts t j t' j' : parts (t, j) (t', j') → converts (from_json left_first t j) → converts (from_json left_first t' j').
Proof.
  intros Hp. remember (t, j) as p eqn:Ep. remember (t', j') as q eqn:Eq. revert t j Ep.
  induction Hp as [p|p [t1 j1] q Hs _ IH]; intros t j ->; [by injection Eq as -> ->|].
  intros Hc. eapply IH; [done..|]. by eapply converts_part.
Qed.

(** What is refused or does not fit is not converted. *)
Lemma converts_accepted t j : converts (from_json left_first t j) → (∀ e, ¬ refused t j e) ∧ ¬ unheld t j.
Proof.
  intros Hc. split.
  - intros e He. inversion He as [? ? Ha|? es Hn]; subst.
    + destruct Hc as [x Hx]. by destruct t, j.
    + destruct t as [| | | | | | | | | | | | |n t|t u|ts| |]; cbn [components] in Hn; try lia; cbn [from_json] in Hc;
        apply converts_elements in Hc as (es' & [= <-] & Hc).
      * eapply (converts_read_elements _ _ 0 n (length es)) in Hc as (v & Hv & _); [|done]. by apply lookup_lt_Some in Hv; cbn in Hv; lia.
      * apply converts_at in Hc as (v & Hv & (x & Hx & Hc)%converts_bind).
        apply converts_at in Hc as (v' & Hv' & _). apply lookup_lt_Some in Hv'. lia.
      * destruct (lookup_lt_is_Some_2 ts (length es) Hn) as [t Ht].
        eapply (converts_tuple_read _ _ 0) in Hc as (v & Hv & _); [|done]. apply lookup_lt_Some in Hv. cbn in Hv. lia.
  - intros Hu. destruct Hc as [x Hx]. unfold unheld in Hu.
    destruct t, j; try done; cbn in Hx; unfold float_to_integer in Hx; destruct (trunc literal) eqn:Et;
      rewrite ?Et in *; cbn in *; by rewrite ?Hu in Hx.
Qed.

(** C19 (type): whatever JSON value [get] is applied to, it gives a value of the C++ type (integers in range,
    arrays of the right length, maps in order without duplicates) when every conversion it is made of, of the
    value and of its elements, components, members and entries ([parts]), is possible.  Otherwise it throws what
    one of these conversions is refused with, [type_error.302] where the JSON type is not one the
    C++ type is read from, or [out_of_range.401] where an array is shorter than a pair, a tuple, an array or the
    entry of a map without string keys; or it is undefined, because one of them is that of a floating-point
    number whose integral part the integer type does not hold. *)
Theorem from_json_sound t j :
  is_type t = true →
  match from_json left_first t j with
  | DOk x => valid t x = true ∧ ∀ t' j', parts (t, j) (t', j') → (∀ e, ¬ refused t' j' e) ∧ ¬ unheld t' j'
  | DThrow e => ∃ t' j', parts (t, j) (t', j') ∧ refused t' j' e
  | DUndef u => u = UB_int_overflow ∧ ∃ t' j', parts (t, j) (t', j') ∧ unheld t' j'
  end.
Proof.
  intros Ht. pose proof (from_json_yields t Ht j) as Hy. unfold yields in Hy.
  destruct (from_json left_first t j) as [x|e|u] eqn:E; [|done|done]. split; [done|].
  intros t' j' Hp. apply converts_accepted, (converts_parts t j); [done|by eexists].
Qed.
End sound.

(** ** Examples *)

#[local] Instance example_floats : FloatOps :=
  {| float_eqb := λ l m, bool_decide (l = m); float_ltb := bytes_ltb; float_of_integer := dec |}.
#[local] Instance example_trunc : FloatCast := λ l, if bool_decide (l = b#"2.5") then Some 2 else None.

Lemma get_to_json_witness :
  from_json true (TMap (TPair TString (TVector (TInt true 16))))
    (to_json (TMap (TPair TString (TVector (TInt true 16)))) [(b#"a", (b#"x", [-3; 7])); (b#"b", ([], []))])
  = DOk [(b#"a", (b#"x", [-3; 7])); (b#"b", ([], []))].
Proof. rewrite (get_to_json true) by reflexivity. reflexivity. Defined.

(** The second element of the array is missing, and nothing else is wrong. *)
Lemma from_json_sound_witness :
  let t := TTuple [TInt false 8; TArray 2 TBool] in
  let j := JArray [JInteger (-1); JArray [JBoolean true]] in
  is_type t = true ∧ from_json true t j = DThrow (ExJsonOutOfRange 401) ∧
  ∃ t' j', parts (t, j) (t', j') ∧ refused t' j' (ExJsonOutOfRange 401).
Proof.
  split; [reflexivity|]. split; [reflexivity|].
  apply (from_json_sound true (TTuple [TInt false 8; TArray 2 TBool]) (JArray [JInteger (-1); JArray [JBoolean true]])). reflexivity.
Defined.

(** A sequence is never too short. *)
Example sequences_not_short t es e : refused (TVector t) (JArray es) e → False.
Proof. inversion 1; subst; [done|]. cbn in *. lia. Qed.

(** A pair of pairs whose first components are strings is written as an object. *)
Example pair_of_pairs :
  let t := TPair (TPair TString TInteger) (TPair TString TInteger) in
  to_json t ((b#"a", 1), (b#"b", 2)) = JObject [(b#"a", JInteger 1); (b#"b", JInteger 2)] ∧
  from_json true t (to_json t ((b#"a", 1), (b#"b", 2))) = DThrow (ExJsonType 302).
Proof. split; reflexivity. Qed.

(** The empty tuple is written as [null]. *)
Example empty_tuple : to_json (TTuple []) tt = JNull ∧ from_json true (TTuple []) JNull = DThrow (ExJsonType 302).
Proof. split; reflexivity. Qed.

(** [get<int>] takes a boolean, [get<std::int64_t>] does not. *)
Example boolean_as_int :
  from_json true (TInt true 32) (JBoolean true) = DOk 1 ∧ from_json true TInteger (JBoolean true) = DThrow (ExJsonType 302).
Proof. split; reflexivity. Qed.

(** A number that a narrower type does not hold is wrapped. *)
Example narrowed : from_json true (TInt false 8) (JInteger (-1)) = DOk 255 ∧ from_json true (TInt true 8) (JUnsigned 200) = DOk (-56).
Proof. split; reflexivity. Qed.

(** The default of [value] hides a conversion that fails for want of elements when the
    member is named by a pointer, not when it is named by its key. *)
Example value_defaults :
  let j := JObject [(b#"p", JArray [JInteger 1])] in
  let t := TPair TInteger TInteger in
  value_pointer true t [b#"p"] (0, 0) j = DOk (0, 0) ∧ value_key true t b#"p" (0, 0) j = DThrow (ExJsonOutOfRange 401).
Proof. split; reflexivity. Qed.

(** [get_to] for an array does not test the type first. *)
Example c_array_of_null :
  get_to_c_array true 1 TInteger JNull = DThrow (ExJsonType 304) ∧ get_to_c_array true 0 TInteger JNull = DOk [].
Proof. split; reflexivity. Qed.

Lemma item_to_json_object key v : item_to_json key v = JObject [(key, v)].
Proof. reflexivity. Qed.
