(* ===== verification/RtcCallback.v ===== *)
(** * RtcCallback: the callbacks of libdatachannel ([include/rtc/utils.hpp])

    [synchronized_callback] holds a function under a recursive mutex;
    [synchronized_stored_callback] also keeps the arguments of the last call it could
    not make, and makes it when a function is set.  Every operation holds the mutex from
    beginning to end, so that other threads see it as one step; the thread that holds it may enter it
    again, from a function that the callback calls.

    A function is a value of the type [F], arguments of the type [A].  What a function does with the callback that
    calls it, and whether it returns or throws, is its [body]; [invoke] runs it, with fuel for the depth of the
    calls, for functions may call each other through the callback without end. *)

From S2P Require Import Prelude.

Section callbacks.
Context {F A : Type}.

(** The class of the object. *)
Inductive kind := Synchronized | Stored.

(** [stored] without arguments is an object that has been moved from. *)
Record callback := Callback {
  cb_kind : kind;
  cb_function : option F;
  cb_stored : option (option A)
}.

(** What is done with a callback: it is called, or assigned a function, through a
    reference to its own class or to the base class, or assigned another callback; the
    class [synchronized_stored_callback] has no move assignment. *)
Inductive use :=
| UCall (a : A)
| UAssign (f : option F)
| UBaseAssign (f : option F)
| UCopy (other : callback)
| UBaseCopy (other : callback)
| UBaseMove (other : callback).

(** The calls of the callback, and those it makes; [None] stands for arguments that have been moved from. *)
Inductive event := Made (a : A) | Delivered (f : F) (a : option A).

(** An operation on a callback gives the callback, the calls so far, and whether it returned
    a value or an exception left it. *)
Record outcome (R : Type) := Outcome {
  out_result : option R;
  out_callback : callback;
  out_log : list event
}.
#[local] Arguments Outcome {R}.

Definition set_function (f : option F) (s : callback) : callback := Callback (cb_kind s) f (cb_stored s).
Definition set_stored (a : option (option A)) (s : callback) : callback := Callback (cb_kind s) (cb_function s) a.

Section operations.
(** The call of a function; none when it does not come to an end. *)
Context (invoke : F → option A → callback → list event → option (outcome unit)).

(** ** The virtual functions *)

(** [set]: the one of the derived class makes the stored call, from which it moves the
    arguments before the function runs; [stored.reset()] is behind the call. *)
Definition set (f : option F) (s : callback) (log : list event) : option (outcome unit) :=
  let s := set_function f s in
  match cb_kind s, f, cb_stored s with
  | Stored, Some g, Some a =>
      '(Outcome r s log) ← invoke g a (set_stored (Some None) s) log;
      Some (match r with Some _ => Outcome (Some tt) (set_stored None s) log | None => Outcome None s log end)
  | _, _, _ => Some (Outcome (Some tt) s log)
  end.

(** [synchronized_callback::call]. *)
Definition base_call (a : A) (s : callback) (log : list event) : option (outcome bool) :=
  match cb_function s with
  | None => Some (Outcome (Some false) s log)
  | Some g => '(Outcome r s log) ← invoke g (Some a) s log; Some (Outcome ((λ _, true) <$> r) s log)
  end.

(** [operator()] with the virtual function [call]. *)
Definition call (a : A) (s : callback) (log : list event) : option (outcome bool) :=
  let log := log ++ [Made a] in
  match cb_kind s with
  | Synchronized => base_call a s log
  | Stored =>
      o ← base_call a s log;
      Some (match o with
            | Outcome (Some false) s log => Outcome (Some true) (set_stored (Some (Some a)) s) log
            | o => o
            end)
  end.

(** ** Construction and destruction *)

(** From a function, or from nothing.  The base class is constructed first, and the
    virtual function it calls is its own. *)
Definition construct (k : kind) (f : option F) : callback := Callback k f None.

(** From another callback: [synchronized_callback(cb)] for both classes, except that
    the copy of a [const synchronized_stored_callback] takes the stored arguments too. *)
Definition construct_copy (k : kind) (is_const : bool) (other : callback) : callback :=
  Callback k (cb_function other)
    (match k, cb_kind other, is_const with Stored, Stored, true => cb_stored other | _, _, _ => None end).

Definition construct_move (k : kind) (other : callback) : callback * callback :=
  (Callback k (cb_function other) None, set_function None other).

(** ** Assignment *)

(** [synchronized_callback::operator=(std::function)]. *)
Definition base_assign (f : option F) (s : callback) (log : list event) : option (outcome unit) := set f s log.

(** [synchronized_callback::operator=(const synchronized_callback &)]. *)
Definition base_assign_copy (other s : callback) (log : list event) : option (outcome unit) := set (cb_function other) s log.

(** [synchronized_callback::operator=(synchronized_callback &&)]: the other callback is
    emptied before the function is set. *)
Definition base_assign_move (other s : callback) (log : list event) : option (outcome unit) * callback :=
  (set (cb_function other) s log, set_function None other).

(** The assignment operator of [synchronized_stored_callback], which the compiler
    declares: the base class, then the stored arguments.  It hides those of the base class. *)
Definition stored_assign_copy (other s : callback) (log : list event) : option (outcome unit) :=
  '(Outcome r s log) ← base_assign_copy other s log;
  Some (match r with Some _ => Outcome (Some tt) (set_stored (cb_stored other) s) log | None => Outcome None s log end).

(** [cb = f]: for the derived class a temporary is constructed from the function. *)
Definition assign (f : option F) (s : callback) (log : list event) : option (outcome unit) :=
  match cb_kind s with
  | Synchronized => base_assign f s log
  | Stored => stored_assign_copy (construct Stored f) s log
  end.

(** [cb = other], by the class of [cb]. *)
Definition assign_copy (other s : callback) (log : list event) : option (outcome unit) :=
  match cb_kind s with
  | Synchronized => base_assign_copy other s log
  | Stored => stored_assign_copy other s log
  end.

Definition step (u : use) (s : callback) (log : list event) : option (outcome unit) :=
  match u with
  | UCall a => '(Outcome r s log) ← call a s log; Some (Outcome ((λ _, tt) <$> r) s log)
  | UAssign f => assign f s log
  | UBaseAssign f => base_assign f s log
  | UCopy other => assign_copy other s log
  | UBaseCopy other => base_assign_copy other s log
  | UBaseMove other => (base_assign_move other s log).1
  end.

(** Uses in a function: an exception leaves it, and [ret] says whether it returns at its end. *)
Fixpoint uses (us : list use) (ret : bool) (s : callback) (log : list event) : option (outcome unit) :=
  match us with
  | [] => Some (Outcome (if ret then Some tt else None) s log)
  | u :: us =>
      '(Outcome r s log) ← step u s log;
      match r with Some _ => uses us ret s log | None => Some (Outcome None s log) end
  end.

(** Uses in a program, which catches exceptions. *)
Fixpoint program (us : list use) (s : callback) (log : list event) : option (callback * list event) :=
  match us with
  | [] => Some (s, log)
  | u :: us => '(Outcome _ s log) ← step u s log; program us s log
  end.
End operations.

(** [operator bool]. *)
Definition is_set (s : callback) : bool := match cb_function s with Some _ => true | None => false end.

(** ** Functions *)

Context (body : F → option A → list use * bool).

Fixpoint invoke (fuel : nat) (f : F) (a : option A) (s : callback) (log : list event) : option (outcome unit) :=
  match fuel with
  | O => None
  | S fuel => uses (invoke fuel) (body f a).1 (body f a).2 s (log ++ [Delivered f a])
  end.

Definition run (fuel : nat) (us : list use) : option (callback * list event) :=
  program (invoke fuel) us (construct Stored None) [].

(** ** What is delivered *)

Definition made (log : list event) : list (option A) := omap (λ e, match e with Made a => Some (Some a) | _ => None end) log.
Definition delivered (log : list event) : list (option A) := omap (λ e, match e with Delivered _ a => Some a | _ => None end) log.

(** The calls still to be made. *)
Definition pending (s : callback) : list (option A) := match cb_stored s with Some a => [a] | None => [] end.

(** A use that drops a stored call: the assignment of no function through the derived class. *)
Definition forgets (u : use) : bool :=
  match u with UAssign None => true | UCopy other => negb (is_set other) | _ => false end.

(** A use that brings no stored call of another callback with it. *)
Definition imports (u : use) : bool :=
  match u with UCopy other => match cb_stored other with Some _ => true | None => false end | _ => false end.

(** A function returns, and does no more with the callback than call it. *)
Definition is_call (u : use) : bool := match u with UCall _ => true | _ => false end.
Definition tame (f : F) (a : option A) : bool := forallb is_call (body f a).1 && (body f a).2.

Lemma made_app l l' : made (l ++ l') = made l ++ made l'.
Proof. apply omap_app. Qed.
Lemma delivered_app l l' : delivered (l ++ l') = delivered l ++ delivered l'.
Proof. apply omap_app. Qed.

(** What has been delivered is a part of what was called, in order; the last of each is the same, when [keeps]. *)
Definition in_order (keeps : bool) (waiting : list (option A)) (log : list event) : Prop :=
  sublist (delivered log ++ waiting) (made log) ∧ (keeps = true → last (delivered log ++ waiting) = last (made log)).

(** A call that is made and delivered. *)
Lemma in_order_call keeps waiting log f a :
  in_order keeps waiting log → in_order true [] ((log ++ [Made a]) ++ [Delivered f (Some a)]).
Proof.
  intros [Hs _]. unfold in_order. rewrite !made_app, !delivered_app. cbn. rewrite !app_nil_r. split; [|intros _; by rewrite !last_snoc].
  apply sublist_app; [|done]. etransitivity; [|exact Hs]. by apply sublist_inserts_r.
Qed.

Lemma in_order_weaken keeps log : in_order true [] log → in_order keeps [] log.
Proof. intros [Hs Hl]. split; [done|]. intros _. by apply Hl. Qed.

Hypothesis all_tame : ∀ f a, tame f a = true.

(** While a function is set, a function that is called leaves the callback as it is: the calls it makes are
    delivered at once. *)
Lemma invoke_tame fuel f a s log o keeps g :
  cb_function s = Some g → in_order keeps [] (log ++ [Delivered f a]) → invoke fuel f a s log = Some o →
  out_result _ o = Some tt ∧ out_callback _ o = s ∧ in_order keeps [] (out_log _ o).
Proof using all_tame.
  intros Hg. revert f a log o. induction fuel as [|fuel IH]; intros f a log o Hin; [done|]. cbn [invoke].
  pose proof (all_tame f a) as Ht. unfold tame in Ht. apply andb_true_iff in Ht as [Hus Hr]. rewrite Hr.
  revert Hin. generalize (log ++ [Delivered f a]). clear log. induction (body f a).1 as [|u us IHus]; intros log Hin; cbn [uses].
  - by intros [= <-].
  - cbn in Hus. apply andb_true_iff in Hus as [Hu Hus]. destruct u as [x| | | | |]; try done.
    cbn [step]. unfold call, base_call. rewrite Hg.
    assert (in_order keeps [] ((log ++ [Made x]) ++ [Delivered g (Some x)])) as Hx by (by eapply in_order_weaken, in_order_call).
    specialize (IH g (Some x) (log ++ [Made x])).
    destruct (invoke fuel g (Some x) s (log ++ [Made x])) as [o1|]; [|by destruct (cb_kind s)].
    destruct (IH o1 Hx eq_refl) as (Hr1 & Hs1 & Ho1). destruct o1 as [r1 s1 log1]. cbn in Hr1, Hs1, Ho1. subst r1 s1.
    destruct (cb_kind s); cbn; by apply IHus.
Qed.

(** The stored callback: a function and a stored call are never there at once. *)
Record delivers (keeps : bool) (s : callback) (log : list event) : Prop := {
  delivers_kind : cb_kind s = Stored;
  delivers_exclusive : cb_function s = None ∨ cb_stored s = None;
  delivers_order : in_order keeps (pending s) log
}.

(** Setting a function makes the stored call, if there is one. *)
Lemma delivers_set fuel keeps f s log o :
  delivers keeps s log → set (invoke fuel) f s log = Some o →
  out_result _ o = Some tt ∧ cb_function (out_callback _ o) = f ∧ delivers keeps (out_callback _ o) (out_log _ o).
Proof using all_tame.
  intros [Hk He Hi]. destruct s as [k f0 st]. cbn in Hk, He. subst k. unfold set, set_function, pending in *. cbn in *.
  destruct f as [g|]; [|intros [= <-]; cbn; split; [done|]; split; [done|]; split; [done|by left|exact Hi]].
  destruct st as [a|]; [|intros [= <-]; cbn; split; [done|]; split; [done|]; split; [done|by right|exact Hi]].
  destruct (invoke fuel g a _ log) as [o1|] eqn:E; [|done]. cbn [mbind option_bind]. unfold set_stored in E. cbn in E.
  apply (invoke_tame _ _ _ _ _ _ keeps g) in E as (Hr & Hs & Ho); [|done|].
  - destruct o1 as [r s1 log1]. cbn in Hr, Hs, Ho. subst r s1. intros [= <-]. cbn.
    split; [done|]. split; [done|]. split; [done|by right|exact Ho].
  - destruct Hi as [Hs Hl]. unfold in_order. rewrite delivered_app, made_app. cbn. by rewrite !app_nil_r.
Qed.

Lemma delivers_step fuel keeps s log u o :
  delivers keeps s log → imports u = false → step (invoke fuel) u s log = Some o →
  delivers (keeps && negb (forgets u)) (out_callback _ o) (out_log _ o).
Proof using all_tame.
  intros Hd Hi.
  assert (∀ b s log, delivers keeps s log → delivers (keeps && b) s log) as Hweak.
  { intros b s1 log1 [Hk He [Hs Hl]]. split; [done|done|]. split; [done|]. intros [? _]%andb_true_iff. auto. }
  assert (∀ f o, set (invoke fuel) f s log = Some o → delivers (keeps && true) (out_callback _ o) (out_log _ o)) as Hset
    by (intros f o1 E; by apply Hweak, (delivers_set _ _ _ _ _ _ Hd E)).
  assert (∀ other o, cb_stored other = None → stored_assign_copy (invoke fuel) other s log = Some o →
    delivers (keeps && is_set other) (out_callback _ o) (out_log _ o)) as Hcopy.
  { intros other o1 Hst. unfold stored_assign_copy, base_assign_copy. destruct (set _ _ s log) as [o2|] eqn:E; [|done].
    destruct (delivers_set _ _ _ _ _ _ Hd E) as (Hr & Hf & Hd2). destruct o2 as [r s2 log2]. cbn in Hr, Hf, Hd2. subst r.
    cbn. intros [= <-]. cbn. rewrite Hst. destruct Hd2 as [Hk He [Hs Hl]]. split; [done|by right|]. unfold pending at 1. cbn. split.
    - rewrite app_nil_r. etransitivity; [|exact Hs]. by apply sublist_inserts_r.
    - intros [Hkeep Hset2]%andb_true_iff. unfold is_set in Hset2. rewrite <- Hf in Hset2.
      destruct He as [He|He]; [by rewrite He in Hset2|]. rewrite <- (Hl Hkeep). unfold pending. by rewrite He. }
  destruct u as [a|f|f|other|other|other]; cbn [step forgets negb]; [| |by apply Hset| |by apply Hset|by apply Hset].
  - rewrite andb_true_r. destruct Hd as [Hk He Hord]. destruct s as [k f st]. cbn in Hk, He. subst k.
    unfold call, base_call. cbn [cb_kind cb_function]. destruct f as [g|].
    + destruct He as [He|He]; [done|]. subst st. destruct (invoke fuel g (Some a) _ _) as [o1|] eqn:E; [|done].
      apply (invoke_tame _ _ _ _ _ _ true g) in E as (Hr & Hs & Ho); [|done|by eapply in_order_call].
      destruct o1 as [r s1 log1]. cbn in Hr, Hs, Ho. subst r s1. cbn. intros [= <-]. cbn.
      split; [done|by right|]. by apply in_order_weaken.
    + cbn. intros [= <-]. cbn. split; [done|by left|]. destruct Hord as [Hs Hl]. unfold in_order, pending. cbn.
      rewrite delivered_app, made_app. cbn. rewrite app_nil_r. split; [|intros _; by rewrite !last_snoc].
      apply sublist_app; [|done]. etransitivity; [|exact Hs]. by apply sublist_inserts_r.
  - unfold assign. rewrite (delivers_kind _ _ _ Hd). intros Ho. apply Hcopy in Ho; [|done]. by destruct f.
  - unfold assign_copy. rewrite (delivers_kind _ _ _ Hd). intros Ho. apply Hcopy in Ho; [|by destruct other as [? ? []]].
    by rewrite negb_involutive.
Qed.

(** C39 (safety): of a [synchronized_stored_callback] whose functions return, and may call the callback that calls them
    but do not assign it, however it is called and assigned, except from another callback that has a stored
    call: no call is delivered twice or out of order, nor with arguments that have been moved from;
    a call is kept only while no function is set; and unless no function was assigned to it
    directly, the last call is delivered as soon as a function is set. *)
Theorem stored_callback_delivers fuel us s log :
  run fuel us = Some (s, log) → forallb (λ u, negb (imports u)) us = true →
  sublist (delivered log) (made log) ∧ (cb_function s = None ∨ cb_stored s = None) ∧
  (is_set s = true → forallb (λ u, negb (forgets u)) us = true → last (delivered log) = last (made log)).
Proof using all_tame.
  intros Hrun Himp. unfold run in Hrun.
  assert (∀ us keeps s0 log0, delivers keeps s0 log0 → forallb (λ u, negb (imports u)) us = true →
    program (invoke fuel) us s0 log0 = Some (s, log) → delivers (keeps && forallb (λ u, negb (forgets u)) us) s log) as H.
  { clear -all_tame. induction us as [|u us IH]; intros keeps s0 log0 Hd Hi; cbn [program forallb].
    - intros [= -> ->]. by rewrite andb_true_r.
    - cbn in Hi. apply andb_true_iff in Hi as [Hu Hi]. apply negb_true_iff in Hu.
      destruct (step (invoke fuel) u s0 log0) as [o|] eqn:E; [|done]. pose proof (delivers_step _ _ _ _ _ _ Hd Hu E) as Hd1.
      destruct o as [r s1 log1]. cbn in *. rewrite andb_assoc. by apply IH. }
  apply (H us true) in Hrun as [Hk He [Hs Hl]]; [|split; [done|by left|by split]|done].
  split; [etransitivity; [|exact Hs]; by apply sublist_inserts_r|]. split; [done|]. intros Hset Hf.
  destruct He as [He|He]; [unfold is_set in Hset; by rewrite He in Hset|].
  rewrite <- (Hl Hf). unfold pending. by rewrite He, app_nil_r.
Qed.

(** A program whose functions leave the callback alone comes to an end. *)
Lemma run_ends fuel us : (∀ f a, (body f a).1 = []) → ∃ s log, run (S fuel) us = Some (s, log).
Proof using.
  intros Hb. assert (∀ f a s log, ∃ o, invoke (S fuel) f a s log = Some o) as Hi by (intros; cbn; rewrite Hb; cbn; eauto).
  assert (∀ f s log, ∃ o, set (invoke (S fuel)) f s log = Some o) as Hset.
  { intros f [k f0 st] log. unfold set, set_function, set_stored. cbn [cb_kind cb_stored cb_function].
    destruct k, f as [g|], st as [a|]; try by eexists.
    destruct (Hi g a (Callback Stored (Some g) (Some None)) log) as [[[] ? ?] E]; rewrite E; by eexists. }
  assert (∀ other s log, ∃ o, stored_assign_copy (invoke (S fuel)) other s log = Some o) as Hcopy.
  { intros other s log. unfold stored_assign_copy, base_assign_copy. destruct (Hset (cb_function other) s log) as [[[] ? ?] ->]; by eexists. }
  assert (∀ u s log, ∃ o, step (invoke (S fuel)) u s log = Some o) as Hstep.
  { intros u s log. destruct u; cbn [step]; try apply Hset; [|unfold assign|unfold assign_copy];
      [|destruct (cb_kind s); [apply Hset|apply Hcopy]..].
    unfold call, base_call. destruct (cb_function s) as [g|].
    - destruct (Hi g (Some a) s (log ++ [Made a])) as [[[] ? ?] E]; rewrite E; destruct (cb_kind s); by eexists.
    - destruct (cb_kind s); by eexists. }
  unfold run. generalize (construct Stored None) (@nil event). induction us as [|u us IH]; intros s log; [by do 2 eexists|].
  cbn [program]. destruct (Hstep u s log) as [[r s1 log1] ->]. apply IH.
Qed.
End callbacks.

(** ** Examples *)

(** Functions that leave the callback alone and return, but for a few. *)
Definition quiet (f : nat) (_ : option Z) : list (use (F := nat) (A := Z)) * bool := ([], true).
(** Function 5 calls the callback that calls it with small arguments. *)
Definition calling (f : nat) (a : option Z) : list (use (F := nat) (A := Z)) * bool :=
  (match a with Some a => if (f =? 5)%nat && (a <? 3) then [UCall (a + 1)] else [] | None => [] end, true).
(** Function 7 assigns function 8. *)
Definition replacing (f : nat) (_ : option Z) : list (use (F := nat) (A := Z)) * bool :=
  (if (f =? 7)%nat then [UAssign (Some 8%nat)] else [], true).
(** Function 7 throws. *)
Definition throwing (f : nat) (_ : option Z) : list (use (F := nat) (A := Z)) * bool := ([], negb (f =? 7)%nat).

Lemma stored_callback_delivers_witness :
  ∃ s log, run calling 5 [UCall 1; UCall 2; UAssign (Some 5%nat); UCall 7; UCopy (construct Stored (Some 4%nat)); UCall 9] = Some (s, log) ∧
  delivered log = [Some 2; Some 3; Some 7; Some 9] ∧
  sublist (delivered log) (made log) ∧ last (delivered log) = last (made log).
Proof.
  eexists _, _. split; [vm_compute; reflexivity|]. split; [reflexivity|].
  pose proof (stored_callback_delivers calling) as H. specialize (H ltac:(intros f [a|]; unfold tame, calling; [by case_match|done])).
  specialize (H 5%nat [UCall 1; UCall 2; UAssign (Some 5%nat); UCall 7; UCopy (construct Stored (Some 4%nat)); UCall 9] _ _ ltac:(vm_compute; reflexivity) eq_refl).
  split; [exact (proj1 H)|]. exact (proj2 (proj2 H) eq_refl eq_refl).
Defined.

(** The calls of a run. *)
Definition log_of (r : option (@callback nat Z * list (@event nat Z))) : list (@event nat Z) :=
  match r with Some (_, log) => log | None => [] end.

(** Assigning no function to the derived class forgets the call that is stored; through a
    reference to the base class it does not. *)
Example null_assignment_forgets :
  let us u := [UCall 1; u; UAssign (Some 7%nat)] in
  delivered (log_of (run quiet 2 (us (UAssign None)))) = [] ∧
  delivered (log_of (run quiet 2 (us (UBaseAssign None)))) = [Some 1].
Proof. split; reflexivity. Qed.

(** When the function that is set throws, the stored call stays, without its arguments,
    and the next function is called with what is left of them. *)
Example throwing_function_leaves_moved_arguments :
  log_of (run throwing 2 [UCall 1; UAssign (Some 7%nat); UAssign (Some 8%nat)])
  = [Made 1; Delivered 7%nat (Some 1); Delivered 8%nat None].
Proof. reflexivity. Qed.

(** So it is when the function that is set assigns another one: the call is delivered twice. *)
Example assigning_function_delivers_twice :
  log_of (run replacing 3 [UCall 1; UAssign (Some 7%nat)]) = [Made 1; Delivered 7%nat (Some 1); Delivered 8%nat None].
Proof. reflexivity. Qed.

(** The stored call of another callback comes with it when that is assigned, and both deliver it. *)
Example assigned_callback_delivers_too :
  log_of (run quiet 2 [UCopy (Callback Stored None (Some (Some 6))); UAssign (Some 8%nat)]) = [Delivered 8%nat (Some 6)].
Proof. reflexivity. Qed.
