(* ===== verification/RtcNalUnit.v ===== *)
(** * RtcNalUnit: the units of H.264 video ([include/rtc/nalunit.hpp])

    A unit is a vector of bytes that begins with the header byte of [NalUnitHeader]; a
    fragment of one has a second header byte, [NalUnitFragmentHeader].  A header
    is an 8-bit integer.  [header()] asserts that there is one, the headers of a
    fragment are taken from the data without a test. *)

From S2P Require Import Prelude CString.

(** ** NalUnitHeader *)

Definition forbiddenBit (first : Z) : bool := negb (Z.shiftr first 7 =? 0).
Definition nri (first : Z) : Z := Z.land (Z.shiftr first 5) 3.
Definition unitType (first : Z) : Z := Z.land first 31.
Definition setForbiddenBit (isSet : bool) (first : Z) : Z := wrap 8 (Z.lor (Z.land first 127) (Z.shiftl (Z.b2z isSet) 7)).
Definition setNRI (nri first : Z) : Z := wrap 8 (Z.lor (Z.land first 159) (Z.shiftl (Z.land nri 3) 5)).
Definition setUnitType (type first : Z) : Z := wrap 8 (Z.lor (Z.land first 224) (Z.land type 31)).

(** ** NalUnitFragmentHeader *)

Definition isStart (first : Z) : bool := negb (Z.shiftr first 7 =? 0).
Definition reservedBit6 (first : Z) : bool := negb (Z.land (Z.shiftr first 5) 1 =? 0).
Definition isEnd (first : Z) : bool := negb (Z.land (Z.shiftr first 6) 1 =? 0).
Definition setStart (isSet : bool) (first : Z) : Z := wrap 8 (Z.lor (Z.land first 127) (Z.shiftl (Z.b2z isSet) 7)).
Definition setEnd (isSet : bool) (first : Z) : Z := wrap 8 (Z.lor (Z.land first 191) (Z.shiftl (Z.b2z isSet) 6)).
Definition setReservedBit6 (isSet : bool) (first : Z) : Z := wrap 8 (Z.lor (Z.land first 223) (Z.shiftl (Z.b2z isSet) 5)).

(** ** NalUnit *)

(** [header()], at which a function on the header byte is run. *)
Definition header (unit : bytes) : cres Z :=
  match unit with [] => UB UB_assertion | c :: _ => Def (byteZ c) end.
Definition set_header (f : Z → Z) (unit : bytes) : cres bytes :=
  match unit with [] => UB UB_assertion | c :: rest => Def (Zbyte (f (byteZ c)) :: rest) end.

Definition NalUnit_size (size : Z) (includingHeader : bool) : bytes := zeros (size + (if includingHeader then 0 else 1)).

Definition unit_forbiddenBit (unit : bytes) : cres bool := h ← header unit; mret (forbiddenBit h).
Definition unit_nri (unit : bytes) : cres Z := h ← header unit; mret (nri h).
Definition unit_unitType (unit : bytes) : cres Z := h ← header unit; mret (unitType h).

Definition payload (unit : bytes) : cres bytes :=
  if blen unit <? 1 then UB UB_assertion else Def (drop 1 unit).

(** [erase] behind the header, and [insert] at the end. *)
Definition setPayload (payload unit : bytes) : cres bytes :=
  if blen unit <? 1 then UB UB_assertion else Def (take 1 unit ++ payload).

(** ** NalUnitFragmentA *)

Inductive FragmentType := Start | Middle | End.

Definition fragmentHeader (unit : bytes) : cres Z :=
  match unit !! 1%nat with Some c => Def (byteZ c) | None => UB UB_out_of_bounds end.
Definition set_fragmentHeader (f : Z → Z) (unit : bytes) : cres bytes :=
  match unit with c :: d :: rest => Def (c :: Zbyte (f (byteZ d)) :: rest) | _ => UB UB_buffer_overflow end.

Definition fragment_unitType (unit : bytes) : cres Z := h ← fragmentHeader unit; mret (unitType h).
Definition fragment_setUnitType (type : Z) (unit : bytes) : cres bytes := set_fragmentHeader (setUnitType type) unit.

Definition fragment_payload (unit : bytes) : cres bytes :=
  if blen unit <? 2 then UB UB_assertion else Def (drop 2 unit).
Definition fragment_setPayload (payload unit : bytes) : cres bytes :=
  if blen unit <? 2 then UB UB_assertion else Def (take 2 unit ++ payload).

Definition fragment_type (unit : bytes) : cres FragmentType :=
  h ← fragmentHeader unit; mret (if isStart h then Start else if isEnd h then End else Middle).

(** ** Bit fields *)

(** The field of [w] bits at [off] of a byte, and the byte with another value in it. *)
Definition slice (off w x : Z) : Z := Z.land (Z.shiftr x off) (Z.ones w).
Definition update (off w v x : Z) : Z :=
  Z.lor (Z.land x (Z.ldiff 255 (Z.shiftl (Z.ones w) off))) (Z.shiftl (Z.land v (Z.ones w)) off).

(** Bits of the operations as boolean expressions on the bits of their operands. *)
Lemma testbit_slice off w x n : 0 ≤ off → 0 ≤ w → 0 ≤ n → Z.testbit (slice off w x) n = (n <? w) && Z.testbit x (n + off).
Proof.
  intros. unfold slice. rewrite Z.land_spec, Z.shiftr_spec, Z.testbit_ones_nonneg by lia. apply andb_comm.
Qed.

Lemma testbit_update off w v x n : 0 ≤ off → 0 ≤ w → 0 ≤ n → off + w ≤ 8 →
  Z.testbit (update off w v x) n =
  if (off <=? n) && (n <? off + w) then Z.testbit v (n - off) else (n <? 8) && Z.testbit x n.
Proof.
  intros. unfold update. change 255 with (Z.ones 8).
  rewrite Z.lor_spec, Z.land_spec, Z.ldiff_spec, !Z.shiftl_spec, Z.land_spec, Z.testbit_ones_nonneg by lia.
  destruct (Z.leb_spec off n); cbn [andb].
  - rewrite !Z.testbit_ones_nonneg by lia. destruct (Z.ltb_spec n (off + w)), (Z.ltb_spec (n - off) w); try lia; cbn.
    + destruct (n <? 8); cbn; rewrite ?andb_false_r; cbn; by rewrite andb_true_r.
    + rewrite andb_false_r, orb_false_r, andb_true_r. apply andb_comm.
  - rewrite (Z.testbit_neg_r (Z.ones w)), (Z.testbit_neg_r v) by lia. cbn. rewrite orb_false_r, andb_true_r. apply andb_comm.
Qed.

Lemma slice_update off w v x : 0 ≤ off → 0 ≤ w → off + w ≤ 8 → slice off w (update off w v x) = Z.land v (Z.ones w).
Proof.
  intros. apply Z.bits_inj'. intros n Hn. rewrite testbit_slice, testbit_update, Z.land_spec, Z.testbit_ones_nonneg by lia.
  destruct (Z.leb_spec off (n + off)); [|lia]. destruct (Z.ltb_spec n w), (Z.ltb_spec (n + off) (off + w)); try lia; cbn.
  rewrite andb_true_r. f_equal. lia.
Qed.

(** A field that does not overlap the one written. *)
Lemma slice_update_other off w off' w' v x :
  0 ≤ off → 0 ≤ w → off + w ≤ 8 → 0 ≤ off' → 0 ≤ w' → off' + w' ≤ 8 → off + w ≤ off' ∨ off' + w' ≤ off →
  slice off' w' (update off w v x) = slice off' w' x.
Proof.
  intros. apply Z.bits_inj'. intros n Hn. rewrite !testbit_slice, testbit_update by lia.
  destruct (Z.ltb_spec n w'); [|done].
  destruct (Z.leb_spec off (n + off')), (Z.ltb_spec (n + off') (off + w)), (Z.ltb_spec (n + off') 8); try lia; done.
Qed.

Lemma update_range off w v x : 0 ≤ off → 0 ≤ w → off + w ≤ 8 → 0 ≤ x < 256 → 0 ≤ v → 0 ≤ update off w v x < 256.
Proof.
  intros Hoff Hw H8 Hx Hv.
  assert (update off w v x = update off w v x mod 2 ^ 8) as ->; [|apply Z.mod_pos_bound; lia].
  apply Z.bits_inj'. intros n Hn. rewrite testbit_update by lia. destruct (Z.ltb_spec n 8).
  - by rewrite Z.mod_pow2_bits_low, testbit_update by lia; destruct (Z.ltb_spec n 8); [|lia].
  - rewrite Z.mod_pow2_bits_high by lia. destruct (Z.ltb_spec n (off + w)); [lia|]. by rewrite andb_false_r.
Qed.

(** The accessors as fields. *)
Lemma bool_slice x off : 0 ≤ off → negb (Z.land (Z.shiftr x off) 1 =? 0) = (slice off 1 x =? 1).
Proof.
  intros Hoff. unfold slice. change (Z.ones 1) with 1. rewrite (Z.land_ones _ 1) by lia.
  pose proof (Z.mod_pos_bound (Z.shiftr x off) (2 ^ 1) ltac:(lia)).
  destruct (Z.eqb_spec (Z.shiftr x off mod 2 ^ 1) 0), (Z.eqb_spec (Z.shiftr x off mod 2 ^ 1) 1); lia || done.
Qed.

Lemma top_bit_slice x : 0 ≤ x < 256 → negb (Z.shiftr x 7 =? 0) = (slice 7 1 x =? 1).
Proof.
  intros Hx. rewrite <- bool_slice by lia. change 1 with (Z.ones 1). rewrite Z.land_ones, Z.mod_small by (rewrite ?Z.shiftr_div_pow2; lia || (split; [apply Z.div_pos|apply Z.div_lt_upper_bound]; lia)). done.
Qed.

(** A setter as a field: the wrap-around changes nothing. *)
Lemma wrap_update off w v x : 0 ≤ off → 0 ≤ w → off + w ≤ 8 → 0 ≤ x < 256 → 0 ≤ v → wrap 8 (update off w v x) = update off w v x.
Proof. intros. unfold wrap. apply Z.mod_small. by apply update_range. Qed.

Lemma set_bool_field off b x m :
  0 ≤ off → off + 1 ≤ 8 → 0 ≤ x < 256 → m = Z.ldiff 255 (Z.shiftl (Z.ones 1) off) →
  wrap 8 (Z.lor (Z.land x m) (Z.shiftl (Z.b2z b) off)) = update off 1 (Z.b2z b) x.
Proof.
  intros Hoff H8 Hx ->. rewrite <- (wrap_update off 1 (Z.b2z b) x) by (done || lia || by destruct b).
  unfold update. by destruct b.
Qed.

(** Every accessor is a field, every setter writes one. *)
Lemma setNRI_field n x : 0 ≤ x < 256 → 0 ≤ n → setNRI n x = update 5 2 n x.
Proof. intros. rewrite <- wrap_update by lia. done. Qed.
Lemma setUnitType_field t x : 0 ≤ x < 256 → 0 ≤ t → setUnitType t x = update 0 5 t x.
Proof.
  intros. rewrite <- wrap_update by lia. unfold setUnitType, update. by rewrite (Z.shiftl_0_r (Z.land t (Z.ones 5))).
Qed.
Lemma setForbiddenBit_field b x : 0 ≤ x < 256 → setForbiddenBit b x = update 7 1 (Z.b2z b) x.
Proof. intros. by apply set_bool_field. Qed.
Lemma setStart_field b x : 0 ≤ x < 256 → setStart b x = update 7 1 (Z.b2z b) x.
Proof. intros. by apply set_bool_field. Qed.
Lemma setEnd_field b x : 0 ≤ x < 256 → setEnd b x = update 6 1 (Z.b2z b) x.
Proof. intros. by apply set_bool_field. Qed.
Lemma setReservedBit6_field b x : 0 ≤ x < 256 → setReservedBit6 b x = update 5 1 (Z.b2z b) x.
Proof. intros. by apply set_bool_field. Qed.
Lemma nri_field x : nri x = slice 5 2 x.
Proof. done. Qed.
Lemma unitType_field x : unitType x = slice 0 5 x.
Proof. unfold unitType, slice. by rewrite Z.shiftr_0_r. Qed.
Lemma forbiddenBit_field x : 0 ≤ x < 256 → forbiddenBit x = (slice 7 1 x =? 1).
Proof. apply top_bit_slice. Qed.
Lemma isStart_field x : 0 ≤ x < 256 → isStart x = (slice 7 1 x =? 1).
Proof. apply top_bit_slice. Qed.
Lemma reservedBit6_field x : reservedBit6 x = (slice 5 1 x =? 1).
Proof. by apply bool_slice. Qed.
Lemma isEnd_field x : isEnd x = (slice 6 1 x =? 1).
Proof. by apply bool_slice. Qed.
Lemma land_b2z b : (Z.land (Z.b2z b) (Z.ones 1) =? 1) = b.
Proof. by destruct b. Qed.
Lemma b2z_nonneg b : 0 ≤ Z.b2z b.
Proof. by destruct b. Qed.

(** A byte after updates is a byte. *)
Ltac in_byte := repeat (apply update_range; [lia|lia|lia| |first [lia | apply b2z_nonneg]]); first [lia | apply b2z_nonneg].

Lemma byteZ_Zbyte_small z : 0 ≤ z < 256 → byteZ (Zbyte z) = z.
Proof. intros. rewrite byteZ_Zbyte. by apply Z.mod_small. Qed.

Create Rewrite HintDb fields.
#[export] Hint Rewrite setNRI_field setUnitType_field setForbiddenBit_field setStart_field setEnd_field
  setReservedBit6_field forbiddenBit_field isStart_field using in_byte : fields.
#[export] Hint Rewrite nri_field unitType_field reservedBit6_field isEnd_field land_b2z : fields.
#[export] Hint Rewrite slice_update slice_update_other using lia : fields.

(** Each setter of the header byte of a NAL unit changes its own field, to the bits of the value that fit in
    it, and no other, whatever the byte held. *)
Lemma header_fields f b n t :
  0 ≤ f < 256 → 0 ≤ n → 0 ≤ t →
  (forbiddenBit (setForbiddenBit b f), nri (setForbiddenBit b f), unitType (setForbiddenBit b f)) = (b, nri f, unitType f) ∧
  (forbiddenBit (setNRI n f), nri (setNRI n f), unitType (setNRI n f)) = (forbiddenBit f, n mod 4, unitType f) ∧
  (forbiddenBit (setUnitType t f), nri (setUnitType t f), unitType (setUnitType t f)) = (forbiddenBit f, nri f, t mod 32).
Proof.
  intros Hf Hn Ht. change 4 with (2 ^ 2). change 32 with (2 ^ 5). rewrite <- !Z.land_ones by lia.
  split; [|split]; autorewrite with fields; by rewrite ?unitType_field.
Qed.

(** All fields of a fragment's second header byte at once, as the class reads them. *)
Definition fragment_fields (x : Z) : bool * bool * bool * Z := (isStart x, isEnd x, reservedBit6 x, unitType x).

(** The setters of a fragment's header byte write their own field only. *)
Lemma fragment_header_fields f b t :
  0 ≤ f < 256 → 0 ≤ t →
  fragment_fields (setStart b f) = (b, isEnd f, reservedBit6 f, unitType f) ∧
  fragment_fields (setEnd b f) = (isStart f, b, reservedBit6 f, unitType f) ∧
  fragment_fields (setReservedBit6 b f) = (isStart f, isEnd f, b, unitType f) ∧
  fragment_fields (setUnitType t f) = (isStart f, isEnd f, reservedBit6 f, t mod 32).
Proof.
  intros Hf Ht. change 32 with (2 ^ 5). rewrite <- Z.land_ones by lia. unfold fragment_fields.
  split; [|split; [|split]]; autorewrite with fields; by rewrite ?unitType_field, ?isEnd_field, ?reservedBit6_field.
Qed.

(** A sequence of updates, as its fields are set. *)
Definition set_fields (forbidden : bool) (n type : Z) (s e r : bool) (data unit : bytes) : cres bytes :=
  u ← set_header (λ h, setForbiddenBit forbidden (setNRI n h)) unit;
  u ← set_fragmentHeader (λ h, setReservedBit6 r (setEnd e (setStart s h))) u;
  u ← fragment_setUnitType type u;
  fragment_setPayload data u.

(** Whatever is set in a fragment of a NAL unit is read back: the forbidden bit, the NRI (2 bits) and the
    type of the unit (5 bits), the position of the fragment, and its payload; the type in the fragment
    indicator stays what it was.  The two header bytes must be there. *)
Lemma fragment_reads forbidden n type s e r data unit :
  2 ≤ blen unit → 0 ≤ n → 0 ≤ type →
  ∃ u, set_fields forbidden n type s e r data unit = Def u ∧
    unit_forbiddenBit u = Def forbidden ∧ unit_nri u = Def (n mod 4) ∧ unit_unitType u = unit_unitType unit ∧
    fragment_type u = Def (if s then Start else if e then End else Middle) ∧
    fragment_unitType u = Def (type mod 32) ∧ fragment_payload u = Def data.
Proof.
  intros Hu Hn Ht. destruct unit as [|c [|d rest]]; [by cbn in Hu..|].
  pose proof (byteZ_range c) as Hc. pose proof (byteZ_range d) as Hd. pose proof (blen_nonneg rest).
  unfold set_fields, set_header, set_fragmentHeader, fragment_setUnitType, set_fragmentHeader, fragment_setPayload.
  cbn [mbind cres_bind].
  rewrite (proj2 (Z.ltb_ge (blen _) 2)) by (rewrite !blen_cons; lia). cbn [take app]. change (take 0 rest ++ data) with data.
  eexists. split; [reflexivity|].
  unfold unit_forbiddenBit, unit_nri, unit_unitType, fragment_type, fragment_unitType, fragment_payload, header, fragmentHeader.
  cbn [lookup list_lookup mbind cres_bind mret cres_ret drop].
  rewrite (proj2 (Z.ltb_ge (blen _) 2)) by (rewrite !blen_cons; pose proof (blen_nonneg data); lia).
  change 4 with (2 ^ 2). change 32 with (2 ^ 5). rewrite <- !Z.land_ones by lia.
  autorewrite with fields. rewrite (byteZ_Zbyte_small (update 7 1 _ _)), (byteZ_Zbyte_small (update 5 1 _ _)) by in_byte.
  autorewrite with fields. rewrite byteZ_Zbyte_small by in_byte. autorewrite with fields.
  rewrite (unitType_field (byteZ c)), (unitType_field (update _ _ _ _)), slice_update by lia. by repeat split.
Qed.

Lemma header_fields_witness :
  0 ≤ 101 < 256 ∧ 0 ≤ 7 ∧ 0 ≤ 33 ∧ nri (setNRI 7 101) = 3 ∧ unitType (setUnitType 33 101) = 1 ∧ forbiddenBit (setForbiddenBit true 101) = true.
Proof.
  pose proof (header_fields 101 true 7 33 ltac:(lia) ltac:(lia) ltac:(lia)) as [H1 [H2 H3]].
  split; [lia|]. split; [lia|]. split; [lia|]. 
  split; [exact (f_equal (λ x, x.1.2) H2)|]. split; [exact (f_equal snd H3)|exact (f_equal (λ x, x.1.1) H1)].
Defined.

Lemma fragment_reads_witness :
  2 ≤ blen (zeros 2) ∧
  ∃ u, set_fields false 3 5 true false false b#"data" (zeros 2) = Def u ∧ fragment_type u = Def Start ∧ fragment_payload u = Def b#"data".
Proof.
  split; [reflexivity || (vm_compute; discriminate)|].
  destruct (fragment_reads false 3 5 true false false b#"data" (zeros 2) ltac:(vm_compute; discriminate) ltac:(lia) ltac:(lia))
    as (u & H1 & _ & _ & _ & H2 & _ & H3).
  exists u. split; [exact H1|]. split; [exact H2|exact H3].
Defined.

(** A fragment of one byte is read past its end, without an assertion. *)
Example short_fragment : fragment_type (zeros 1) = UB UB_out_of_bounds ∧ fragment_payload (zeros 1) = UB UB_assertion.
Proof. split; reflexivity. Qed.

(** A unit, its payload replaced. *)
Lemma payload_setPayload data unit :
  1 ≤ blen unit → ∃ u, setPayload data unit = Def u ∧ payload u = Def data ∧ header u = header unit.
Proof.
  intros Hu. destruct unit as [|c rest]; [by cbn in Hu|]. pose proof (blen_nonneg rest). pose proof (blen_nonneg data).
  unfold setPayload, payload. rewrite (proj2 (Z.ltb_ge (blen _) 1)) by (rewrite blen_cons; lia).
  eexists. split; [reflexivity|]. cbn [take app]. change (take 0 rest ++ data) with data.
  rewrite (proj2 (Z.ltb_ge (blen _) 1)) by (rewrite blen_cons; lia). done.
Qed.
