(* ===== verification/JsonFlatten.v ===== *)
(** * JsonFlatten: [unflatten] is the inverse of [flatten]
      ([include/nlohmann/json.hpp], [json_pointer::flatten], [unflatten], [get_and_create])

    [flatten] writes the leaves of a value into an object under the text of their pointers, and
    [unflatten] puts them back in the order of those texts.  The state of the latter is a
    part of the value, in which the leaves that were met are in place. *)

From S2P Require Import Prelude CString Prog JsonValue JsonAccess JsonNumbers JsonPointer.

(** ** Values that come back *)

Definition leaf (j : json) : bool := match j with JArray _ | JObject _ | JDiscarded => false | _ => true end.

(** No empty container, and no member whose key is the text of the first index. *)
Fixpoint flat_ok (j : json) : bool :=
  match j with
  | JArray es => negb (bool_decide (es = [])) && (blen es <=? ARRAY_MAX_SIZE) && forallb flat_ok es
  | JObject ms =>
      negb (bool_decide (ms = [])) && sorted_keys ms && forallb (λ m, negb (bool_decide (m.1 = b#"0")) && flat_ok m.2) ms
  | JDiscarded => false
  | _ => true
  end.

(** The position a token denotes, when it is written the way [flatten] writes it. *)
Definition index_of (t : bytes) : option nat :=
  match array_index t with
  | DOk i => if bool_decide (t = dec i) && (0 <=? i) then Some (Z.to_nat i) else None
  | _ => None
  end.

Fixpoint lookup_path (p : json_pointer) (j : json) : option json :=
  match p with
  | [] => Some j
  | t :: p =>
      match j with
      | JObject ms => v ← map_find t ms; lookup_path p v
      | JArray es => i ← index_of t; e ← es !! i; lookup_path p e
      | _ => None
      end
  end.

(** The leaf of [j] at [p]. *)
Definition leaf_at (j : json) (p : json_pointer) (v : json) : Prop := lookup_path p j = Some v ∧ leaf v = true.

Lemma index_of_dec (i : nat) : Z.of_nat i < 2 ^ 64 - 1 → index_of (dec (Z.of_nat i)) = Some i.
Proof.
  intros Hi. unfold index_of. rewrite array_index_dec by lia. rewrite bool_decide_eq_true_2, (proj2 (Z.leb_le _ _)) by (done || lia).
  cbn. by rewrite Nat2Z.id.
Qed.

Lemma index_of_inv t i : index_of t = Some i → t = dec (Z.of_nat i) ∧ array_index t = DOk (Z.of_nat i).
Proof.
  unfold index_of. destruct (array_index t) as [z| |] eqn:E; [|done..]. case_bool_decide as Et; [|done]. cbn.
  destruct (Z.leb_spec 0 z); [|done]. intros [= <-]. rewrite Z2Nat.id by done. by split.
Qed.

Lemma flat_ok_array es : flat_ok (JArray es) = true ↔ es ≠ [] ∧ blen es ≤ ARRAY_MAX_SIZE ∧ Forall (λ e, flat_ok e = true) es.
Proof. cbn. rewrite !andb_true_iff, negb_true_iff, bool_decide_eq_false, Z.leb_le, forallb_Forall. tauto. Qed.

Lemma flat_ok_object ms : flat_ok (JObject ms) = true ↔
  ms ≠ [] ∧ sorted_keys ms = true ∧ Forall (λ m, m.1 ≠ b#"0" ∧ flat_ok m.2 = true) ms.
Proof.
  cbn. rewrite !andb_true_iff, negb_true_iff, bool_decide_eq_false, forallb_Forall.
  assert (∀ m : bytes * json, (negb (bool_decide (m.1 = b#"0")) && flat_ok m.2) = true ↔ m.1 ≠ b#"0" ∧ flat_ok m.2 = true) as H.
  { intros m. by rewrite andb_true_iff, negb_true_iff, bool_decide_eq_false. }
  erewrite Forall_iff by exact H. tauto.
Qed.

(** There is a leaf in every value. *)
Lemma leaf_exists j : flat_ok j = true → ∃ p v, leaf_at j p v.
Proof.
  induction j as [|ms IH|es IH| | | | | | |] using json_induction; intros Hj; try (eexists [], _; split; [reflexivity|done]); try done.
  - apply flat_ok_object in Hj as (Hne & Hs & Hms). destruct ms as [|[k v] ms]; [done|]. inversion IH as [|? ? Hv _]; subst.
    inversion Hms as [|? ? [_ Hok] _]; subst. destruct (Hv Hok) as (p & w & Hp & Hw). exists (k :: p), w. split; [|done].
    cbn. by rewrite bool_decide_eq_true_2.
  - apply flat_ok_array in Hj as (Hne & Hs & Hes). destruct es as [|e es]; [done|]. inversion IH as [|? ? He _]; subst.
    inversion Hes as [|? ? Hok _]; subst. destruct (He Hok) as (p & w & Hp & Hw). exists (dec 0 :: p), w. split; [|done].
    cbn [lookup_path]. by rewrite (index_of_dec 0 : _ → index_of (dec 0) = _).
Qed.

(** ** [flatten] *)

(** What [flatten_into] adds to a map for the leaves of a value. *)
Definition flattens (j : json) : Prop := ∀ ref result, sorted_keys result = true →
  let after := flatten_into ref j result in
  sorted_keys after = true ∧
  (∀ k v, map_find k after = Some v → map_find k result = Some v ∨ ∃ p, k = ref ++ pointer_to_string p ∧ leaf_at j p v) ∧
  (∀ p v, leaf_at j p v → is_Some (map_find (ref ++ pointer_to_string p) after)) ∧
  (∀ k, is_Some (map_find k result) → is_Some (map_find k after)).

Lemma pointer_to_string_cons t p : pointer_to_string (t :: p) = b#"/" ++ escape_token t ++ pointer_to_string p.
Proof. by rewrite !pointer_to_string_join. Qed.

Lemma flattens_leaf j : leaf j = true → flattens j.
Proof.
  intros Hj ref result Hs. assert (flatten_into ref j result = map_assign ref j result) as -> by (by destruct j).
  split; [by apply map_assign_sorted|]. split; [|split].
  - intros k v. rewrite map_find_assign. case_bool_decide as E; [|by left]. intros [= <-]. right. exists []. subst k. by rewrite app_nil_r.
  - intros p v [Hp _]. assert (p = []) as ->. { destruct p; [done|]. by destruct j. }
    rewrite app_nil_r, map_find_assign, bool_decide_eq_true_2 by done. by eexists.
  - intros k Hk. rewrite map_find_assign. by case_bool_decide.
Qed.

(** The loop over members or elements, with their tokens. *)
Definition flatten_children (ref : bytes) (cs : list (bytes * json)) (result : list (bytes * json)) : list (bytes * json) :=
  foldl (λ result c, flatten_into (ref ++ b#"/" ++ escape_token c.1) c.2 result) result cs.

Lemma flattens_children ref cs :
  Forall (λ c, flattens c.2) cs → ∀ result, sorted_keys result = true →
  let after := flatten_children ref cs result in
  sorted_keys after = true ∧
  (∀ k v, map_find k after = Some v →
     map_find k result = Some v ∨ ∃ t w p, (t, w) ∈ cs ∧ k = ref ++ pointer_to_string (t :: p) ∧ leaf_at w p v) ∧
  (∀ t w p v, (t, w) ∈ cs → leaf_at w p v → is_Some (map_find (ref ++ pointer_to_string (t :: p)) after)) ∧
  (∀ k, is_Some (map_find k result) → is_Some (map_find k after)).
Proof.
  induction 1 as [|[t v] cs Hv _ IH]; intros result Hs; cbn zeta.
  - split; [done|]. split; [by left|]. split; [|done]. intros t w p v Hin. by apply not_elem_of_nil in Hin.
  - cbn [flatten_children foldl fst snd]. destruct (Hv (ref ++ b#"/" ++ escape_token t) result Hs) as (Hs1 & Hk1 & Hp1 & Hr1).
    destruct (IH _ Hs1) as (Hs2 & Hk2 & Hp2 & Hr2). split; [done|]. split; [|split].
    + intros k u [Hk|(t' & w & p & Hin & -> & Hp)]%Hk2.
      * destruct (Hk1 _ _ Hk) as [?|(p & -> & Hp)]; [by left|]. right. exists t, v, p. split; [by left|].
        split; [|done]. by rewrite pointer_to_string_cons, <- !app_assoc.
      * right. exists t', w, p. split; [by right|done].
    + intros t' w p u [[= -> ->]|Hin]%elem_of_cons Hp; [|by eapply Hp2]. apply Hr2.
      destruct (Hp1 _ _ Hp) as [x Hx]. exists x. by rewrite pointer_to_string_cons, !app_assoc, <- (app_assoc ref).
    + auto.
Qed.

(** The tokens and the children of a container. *)
Definition children (j : json) : list (bytes * json) :=
  match j with JObject ms => ms | JArray es => imap (λ i e, (dec (Z.of_nat i), e)) es | _ => [] end.

Lemma flatten_into_children ref j result :
  flat_ok j = true → leaf j = false → flatten_into ref j result = flatten_children ref (children j) result.
Proof.
  intros Hok Hl. destruct j as [|ms|es| | | | | | |]; try done.
  - apply flat_ok_object in Hok as (Hne & _). destruct ms as [|m ms]; [done|]. cbn [flatten_into children]. clear Hne. revert result.
    assert (∀ ms result,
      (fix go ms result := match ms with [] => result | (k, v) :: ms => go ms (flatten_into (ref ++ b#"/" ++ escape_token k) v result) end)
        ms result = flatten_children ref ms result) as H; [|by apply (H (m :: ms))].
    clear. induction ms as [|[k v] ms IH]; intros result; [done|]. by rewrite IH.
  - apply flat_ok_array in Hok as (Hne & _). destruct es as [|e es]; [done|]. cbn [flatten_into children]. clear Hne. revert result.
    assert (∀ es (n : nat) result,
      (fix go i es result := match es with [] => result | v :: es => go (i + 1) es (flatten_into (ref ++ b#"/" ++ dec i) v result) end)
        (Z.of_nat n) es result = flatten_children ref (imap (λ i e, (dec (Z.of_nat (n + i)), e)) es) result) as H; [|by apply (H (e :: es) 0%nat)].
    clear. induction es as [|e es IH]; intros n result; [done|]. rewrite imap_cons. cbn [flatten_children foldl fst snd].
    rewrite Nat.add_0_r, escape_dec by lia. replace (Z.of_nat n + 1) with (Z.of_nat (S n)) by lia. rewrite IH.
    unfold flatten_children. f_equal. apply imap_ext. intros i x _. cbn. do 2 f_equal. lia.
Qed.

Lemma leaf_at_children j p v :
  flat_ok j = true → leaf j = false → leaf_at j p v ↔ ∃ t w p', p = t :: p' ∧ (t, w) ∈ children j ∧ leaf_at w p' v.
Proof.
  intros Hok Hl. unfold leaf_at. destruct p as [|t p].
  { split; [|by intros (? & ? & ? & [=] & _)]. cbn. intros [[= <-] Hv]. congruence. }
  assert ((∃ t' w' p', t :: p = t' :: p' ∧ (t', w') ∈ children j ∧ lookup_path p' w' = Some v ∧ leaf v = true) ↔
    ∃ w, (t, w) ∈ children j ∧ lookup_path p w = Some v ∧ leaf v = true) as Hcons.
  { split; [intros (? & w & ? & [= <- <-] & ?); by exists w|intros (w & ?); eauto]. }
  rewrite Hcons. clear Hcons. destruct j as [|ms|es| | | | | | |]; try done; cbn [lookup_path children].
  - apply flat_ok_object in Hok as (_ & Hs & _). split.
    + intros [H Hv]. destruct (map_find t ms) as [w|] eqn:E; [|done]. exists w. split; [by apply map_find_Some|done].
    + intros (w & Hin & Hp & Hv). by rewrite (map_find_elem _ _ _ Hs Hin).
  - apply flat_ok_array in Hok as (_ & Hs & _). split.
    + intros [H Hv]. destruct (index_of t) as [i|] eqn:E; [|done]. cbn in H. destruct (es !! i) as [w|] eqn:Ei; [|done].
      exists w. split; [|done]. apply index_of_inv in E as [-> _]. apply list_elem_of_lookup. exists i. by rewrite list_lookup_imap, Ei.
    + intros (w & (i & Hi)%list_elem_of_lookup & Hp & Hv). rewrite list_lookup_imap in Hi.
      destruct (es !! i) as [e|] eqn:Ei; [|done]. injection Hi as <- ->. pose proof (lookup_lt_Some _ _ _ Ei).
      rewrite index_of_dec by (unfold blen, ARRAY_MAX_SIZE in *; lia). cbn. by rewrite Ei.
Qed.

Lemma flattens_container j :
  flat_ok j = true → leaf j = false → Forall (λ c, flattens c.2) (children j) → flattens j.
Proof.
  intros Hok Hl Hcs ref result Hs. rewrite flatten_into_children by done.
  destruct (flattens_children ref _ Hcs result Hs) as (H1 & H2 & H3 & H4). split; [done|]. split; [|split; [|done]].
  - intros k v [?|(t & w & p & Hin & -> & Hp)]%H2; [by left|]. right. exists (t :: p). split; [done|]. apply (leaf_at_children j _ _ Hok Hl). eauto 8.
  - intros p v (t & w & p' & -> & Hin & Hp)%leaf_at_children; [|done..]. by eapply H3.
Qed.

Lemma flattens_ok j : flat_ok j = true → flattens j.
Proof.
  induction j as [|ms IH|es IH| | | | | | |] using json_induction; intros Hok; try (by apply flattens_leaf); try done;
    apply flattens_container; try done; cbn [children].
  - apply flat_ok_object in Hok as (_ & _ & Hms). rewrite Forall_forall in *. intros m Hm. by apply IH, Hms.
  - apply flat_ok_array in Hok as (_ & _ & Hes). rewrite Forall_forall in IH, Hes. apply Forall_forall. intros [t e] (i & Hi)%list_elem_of_lookup.
    rewrite list_lookup_imap in Hi. destruct (es !! i) as [e'|] eqn:Ei; [|done]. injection Hi as <- <-.
    apply list_elem_of_lookup_2 in Ei. by apply IH, Hes.
Qed.

(** ** [unflatten] *)

(** A part of a value: null for what is missing, an initial part of an array, some members of an object. *)
#[warnings="-register-all"]
Inductive partial : json → json → Prop :=
| partial_null j : partial JNull j
| partial_leaf j : leaf j = true → partial j j
| partial_array rs es :
    (length rs ≤ length es)%nat → (∀ i r e, rs !! i = Some r → es !! i = Some e → partial r e) → partial (JArray rs) (JArray es)
| partial_object rs ms :
    sorted_keys rs = true → (∀ k r, map_find k rs = Some r → ∃ w, map_find k ms = Some w ∧ partial r w) →
    partial (JObject rs) (JObject ms).

(** Before an element of an array that has nothing yet comes its first one. *)
Definition ordered (p : json_pointer) (j r : json) : Prop :=
  ∀ q t rest es, p = q ++ t :: rest → lookup_path q j = Some (JArray es) → t ≠ b#"0" → ∃ rs, lookup_path q r = Some (JArray rs).

(** The leaves that are in place stay. *)
Definition keeps (j r r' : json) : Prop := ∀ p v, leaf_at j p v → lookup_path p r = Some v → lookup_path p r' = Some v.

Definition places (p : json_pointer) (j : json) (v r : json) : Prop :=
  ∃ r', get_and_create p (jput v) r = (DOk tt, r') ∧ partial r' j ∧ lookup_path p r' = Some v ∧ keeps j r r'.

Lemma partial_no_null r j : partial r j → leaf j = false → r = JNull ∨ leaf r = false.
Proof. destruct 1; auto. Qed.

Lemma places_member t p ms rs w v :
  sorted_keys rs = true → partial (JObject rs) (JObject ms) → map_find t ms = Some w →
  places p w v (default JNull (map_find t rs)) →
  ∃ r', subscript_member t (get_and_create p (jput v)) (JObject rs) = (DOk tt, r') ∧ partial r' (JObject ms) ∧
    lookup_path (t :: p) r' = Some v ∧ keeps (JObject ms) (JObject rs) r'.
Proof.
  intros Hs Hp Hw (r1 & E & Hp1 & Hl1 & Hk1). exists (JObject (map_assign t r1 rs)). cbn [subscript_member]. rewrite E.
  split; [done|]. split; [|split].
  - inversion Hp as [|? ?| |? ? _ Hrs]; subst; [done|]. constructor; [by apply map_assign_sorted|]. intros k r. rewrite map_find_assign.
    case_bool_decide as Ek; [|apply Hrs]. intros [= <-]. subst k. eauto.
  - cbn. by rewrite map_find_assign, bool_decide_eq_true_2.
  - intros [|k q] u [Hu Hul]; cbn; [intros [= <-]; done|]. rewrite map_find_assign. case_bool_decide as Ek; [|done]. subst k.
    cbn in Hu. rewrite Hw in Hu. cbn in *. destruct (map_find t rs) as [r|]; [|done]. cbn. by apply Hk1.
Qed.

(** [operator[](idx)] on an array: the new element, the old ones, and null in between. *)
Lemma subscript_element_spec {A} (i : nat) (m : jact A) rs a r1 :
  Z.of_nat i < ARRAY_MAX_SIZE → m (default JNull (rs !! i)) = (a, r1) →
  ∃ rs', subscript_element (Z.of_nat i) m (JArray rs) = (a, JArray rs') ∧ length rs' = (length rs `max` S i)%nat ∧ rs' !! i = Some r1 ∧
    (∀ k x, k ≠ i → rs' !! k = Some x → rs !! k = Some x ∨ x = JNull) ∧ (∀ k x, k ≠ i → rs !! k = Some x → rs' !! k = Some x).
Proof.
  intros Hi Hm. cbn [subscript_element]. destruct (Z.leb_spec (blen rs) (Z.of_nat i)) as [Hle|Hlt].
  - rewrite (proj2 (Z.ltb_ge _ _)) by lia. assert (rs !! i = None) as E by (apply lookup_ge_None; blia). rewrite E in Hm. cbn in Hm. rewrite Hm.
    assert (length (resize rs (Z.of_nat i)) = i) as Hl by (unfold resize; rewrite length_app, length_replicate; unfold blen in *; lia).
    eexists. split; [reflexivity|]. split; [rewrite length_app, Hl; cbn; unfold blen in *; lia|].
    split; [rewrite lookup_app_r by lia; by rewrite Hl, Nat.sub_diag|]. split; intros k x Hk Hx.
    + assert (k < i)%nat by (apply lookup_lt_Some in Hx; rewrite length_app, Hl in Hx; cbn in Hx; lia).
      rewrite lookup_app_l in Hx by lia. unfold resize in Hx. apply lookup_app_Some in Hx as [?|[_ Hx]]; [by left|].
      apply lookup_replicate in Hx as [-> _]. by right.
    + apply lookup_lt_Some in Hx as Hb. rewrite lookup_app_l by (unfold blen in *; lia). unfold resize. by rewrite lookup_app_l.
  - destruct (lookup_lt_is_Some_2 rs i) as [r E]; [unfold blen in *; lia|]. rewrite E in Hm. cbn in Hm.
    rewrite Nat2Z.id, (nth_lookup_Some _ _ JNull _ E), Hm. eexists. split; [reflexivity|]. rewrite length_insert.
    split; [unfold blen in *; lia|]. split; [apply list_lookup_insert_eq; unfold blen in *; lia|].
    split; intros k x Hk; rewrite list_lookup_insert_ne by done; auto.
Qed.

Lemma places_element t (i : nat) p es rs w v :
  index_of t = Some i → blen es ≤ ARRAY_MAX_SIZE → partial (JArray rs) (JArray es) → es !! i = Some w →
  places p w v (default JNull (rs !! i)) →
  ∃ r', subscript_element (Z.of_nat i) (get_and_create p (jput v)) (JArray rs) = (DOk tt, r') ∧ partial r' (JArray es) ∧
    lookup_path (t :: p) r' = Some v ∧ keeps (JArray es) (JArray rs) r'.
Proof.
  intros Ht Hs Hp Hw (r1 & E & Hp1 & Hl1 & Hk1). pose proof (lookup_lt_Some _ _ _ Hw) as Hb.
  destruct (subscript_element_spec i _ rs _ _ ltac:(unfold blen in *; lia) E) as (rs' & -> & Hlen & Hi & Hold & Hnew).
  inversion Hp as [|? ?|? ? Hl Hrs|]; subst; [done|].
  exists (JArray rs'). split; [done|]. split; [|split].
  - constructor; [lia|]. intros k x e Hx He. destruct (decide (k = i)) as [->|Hk]; [congruence|].
    destruct (Hold k x Hk Hx) as [?| ->]; [by eapply Hrs|constructor].
  - cbn. rewrite Ht. cbn. by rewrite Hi.
  - intros [|k q] u [Hu Hul]; cbn; [intros [= <-]; done|]. cbn in Hu. destruct (index_of k) as [i'|]; [|done]. cbn in *.
    destruct (decide (i' = i)) as [->|Hk].
    + rewrite Hi, Hw in *. cbn in *. destruct (rs !! i) as [r|]; [|done]. cbn. by apply Hk1.
    + destruct (rs !! i') as [x|] eqn:Ex; [|done]. by rewrite (Hnew i' x Hk Ex).
Qed.

(** One leaf is put in its place. *)
Lemma place_leaf p j v r : flat_ok j = true → partial r j → leaf_at j p v → ordered p j r → places p j v r.
Proof.
  revert j r. induction p as [|t p IH]; intros j r Hok Hp [Hl Hv] Ho.
  - injection Hl as ->. exists v. split; [done|]. split; [by constructor|]. split; [done|]. intros [|k q] u [Hu _] _; [done|]. by destruct v.
  - unfold places. destruct j as [|ms|es| | | | | | |]; try done; cbn [lookup_path] in Hl.
    + destruct (map_find t ms) as [w|] eqn:Hw; [|done]. cbn in Hl. apply flat_ok_object in Hok as (_ & Hms & Hok).
      rewrite Forall_forall in Hok. destruct (Hok (t, w) ltac:(by apply map_find_Some)) as [Ht Hokw]. cbn in Ht, Hokw.
      assert (∀ rs, sorted_keys rs = true → partial (JObject rs) (JObject ms) → (r = JObject rs ∨ r = JNull ∧ rs = []) →
        places p w v (default JNull (map_find t rs))) as Hgo.
      { intros rs Hrs Hprs Hr. apply IH; [done| |done|].
        - inversion Hprs as [|? ?| |? ? _ H]; subst; [done|]. destruct (map_find t rs) as [x|] eqn:Ex; [|constructor].
          destruct (H _ _ Ex) as (w' & Hw' & ?). cbn. congruence.
        - intros q t' rest es -> Hq Ht'. destruct (Ho (t :: q) t' rest es eq_refl ltac:(cbn; by rewrite Hw) Ht') as [xs Hxs].
          exists xs. destruct Hr as [->|[-> ->]]; [|done]. cbn in Hxs. by destruct (map_find t rs). }
      inversion Hp as [|? ?| |rs ? Hrs Hin]; subst; [|done|].
      * destruct (places_member t p ms [] w v) as (r' & E & Hp' & Hl' & _); [done|by constructor|done|apply Hgo; [done|by constructor|by right]|].
        exists r'. split; [|split; [done|split; [done|]]].
        -- cbn [get_and_create]. rewrite bool_decide_eq_false_2 by done. exact E.
        -- intros [|k q] u [Hu Hul] Hn; cbn in Hu, Hn; congruence.
      * destruct (places_member t p ms rs w v) as (r' & E & Hr'); [done|done|done|apply Hgo; auto|]. by exists r'.
    + destruct (index_of t) as [i|] eqn:Ht; [|done]. cbn in Hl. destruct (es !! i) as [w|] eqn:Hw; [|done]. cbn in Hl.
      apply flat_ok_array in Hok as (_ & Hs & Hok). rewrite Forall_forall in Hok.
      pose proof (Hok w ltac:(by eapply list_elem_of_lookup_2)) as Hokw. destruct (index_of_inv _ _ Ht) as [Et Ea].
      assert (∀ rs, partial (JArray rs) (JArray es) → (r = JArray rs ∨ r = JNull ∧ rs = []) → places p w v (default JNull (rs !! i))) as Hgo.
      { intros rs Hprs Hr. apply IH; [done| |done|].
        - inversion Hprs as [|? ?|? ? _ H|]; subst; [done|]. destruct (rs !! i) as [x|] eqn:Ex; [|constructor]. by eapply H.
        - intros q t' rest es' -> Hq Ht'. destruct (Ho (t :: q) t' rest es' eq_refl ltac:(cbn; by rewrite Ht; cbn; rewrite Hw) Ht') as [xs Hxs].
          exists xs. destruct Hr as [->|[-> ->]]; [|done]. cbn in Hxs. rewrite Ht in Hxs. cbn in Hxs. by destruct (rs !! i). }
      inversion Hp as [|? ?|rs ? Hrs Hin|]; subst r; [|done|].
      * assert (t = b#"0") as ->.
        { destruct (decide (t = b#"0")) as [|Hne]; [done|]. by destruct (Ho [] t p es eq_refl eq_refl Hne) as [? [=]]. }
        assert (i = 0%nat) as -> by (vm_compute in Ht; congruence).
        destruct (places_element b#"0" 0 p es [] w v) as (r' & E & Hp' & Hl' & _); [done|done|constructor; [cbn; lia|done]|done|
          apply Hgo; [constructor; [cbn; lia|done]|by right]|].
        exists r'. split; [|split; [done|split; [done|]]].
        -- cbn [get_and_create]. rewrite bool_decide_eq_true_2 by done. exact E.
        -- intros [|k q] u [Hu Hul] Hn; cbn in Hu, Hn; congruence.
      * destruct (places_element t i p es rs w v) as (r' & E & Hr'); [done|done|done|done|apply Hgo; auto|]. exists r'. split; [|done].
        cbn [get_and_create]. unfold with_index, mbind, jact_bind, jlift. by rewrite Ea.
Qed.

(** ** Paths *)

Lemma lookup_path_app q p j : lookup_path (q ++ p) j = lookup_path q j ≫= lookup_path p.
Proof.
  revert j. induction q as [|t q IH]; intros j; [done|]. cbn [app lookup_path]. destruct j as [|ms|es| | | | | | |]; try done.
  - destruct (map_find t ms); [|done]. apply IH.
  - destruct (index_of t) as [i|]; [|done]. cbn. destruct (es !! i); [|done]. apply IH.
Qed.

Lemma partial_lookup q r j x y : partial r j → lookup_path q r = Some x → lookup_path q j = Some y → partial x y.
Proof.
  revert r j. induction q as [|t q IH]; intros r j Hp Hx Hy; [by injection Hx as <-; injection Hy as <-|].
  destruct Hp as [|j Hj|rs es _ H|rs ms _ H]; [done|by destruct j|..]; cbn in Hx, Hy.
  - destruct (index_of t) as [i|]; [|done]. cbn in Hx, Hy. destruct (rs !! i) eqn:E1, (es !! i) eqn:E2; try done. by eapply IH; [eapply H|..].
  - destruct (map_find t rs) as [r|] eqn:E1; [|done]. destruct (H _ _ E1) as (w & Hw & Hr). rewrite Hw in Hy. by eapply IH.
Qed.

Lemma flat_ok_lookup q j y : flat_ok j = true → lookup_path q j = Some y → flat_ok y = true.
Proof.
  revert j. induction q as [|t q IH]; intros j Hok Hy; [by injection Hy as <-|]. cbn in Hy. destruct j as [|ms|es| | | | | | |]; try done.
  - apply flat_ok_object in Hok as (_ & _ & Hok). destruct (map_find t ms) as [w|] eqn:E; [|done]. apply map_find_Some in E.
    rewrite Forall_forall in Hok. apply (IH w); [|done]. by apply (Hok _ E).
  - apply flat_ok_array in Hok as (_ & _ & Hok). destruct (index_of t) as [i|]; [|done]. cbn in Hy. destruct (es !! i) as [w|] eqn:E; [|done].
    apply (IH w); [|done]. exact (Forall_lookup_1 _ _ _ _ Hok E).
Qed.

Lemma bytes_ltb_app_same s t u : bytes_ltb (s ++ t) (s ++ u) = bytes_ltb t u.
Proof. induction s as [|c s IH]; [done|]. cbn. by rewrite Z.ltb_irrefl. Qed.

Lemma pointer_to_string_app p q : pointer_to_string (p ++ q) = pointer_to_string p ++ pointer_to_string q.
Proof. induction p as [|t p IH]; [done|]. cbn [app]. by rewrite !pointer_to_string_cons, IH, <- !app_assoc. Qed.

(** The first element is written before the others. *)
Lemma first_element_before q p0 (i : nat) rest :
  i ≠ 0%nat → bytes_ltb (pointer_to_string (q ++ b#"0" :: p0)) (pointer_to_string (q ++ dec (Z.of_nat i) :: rest)) = true.
Proof.
  intros Hi. rewrite !pointer_to_string_app, bytes_ltb_app_same, !pointer_to_string_cons, bytes_ltb_app_same, escape_dec by lia.
  destruct (dec_nonneg_head (Z.of_nat i)) as (c & ds & E & Hc & _); [lia|].
  assert (dec (Z.of_nat i) = c :: ds) as -> by (unfold dec; by rewrite (proj2 (Z.ltb_ge _ _)) by lia).
  unfold JsonLexer.digit19 in Hc. apply andb_true_iff in Hc as [Hc%Z.leb_le _].
  change (escape_token b#"0") with b#"0". cbn [app bytes_ltb str]. by rewrite (proj2 (Z.ltb_lt _ _)) by (change (byteZ "0") with 48; lia).
Qed.

(** A part in which every leaf is in place is the value. *)
Lemma partial_complete j r : flat_ok j = true → partial r j → (∀ p v, leaf_at j p v → lookup_path p r = Some v) → r = j.
Proof.
  revert r. induction j as [|ms IH|es IH| | | | | | |] using json_induction; intros r Hok Hp Hl;
    try (pose proof (Hl [] _ (conj eq_refl eq_refl)) as E; injection E as ->; done); try done.
  - destruct (leaf_exists _ Hok) as (p & v & Hpv). pose proof (Hl _ _ Hpv) as Hpr. pose proof Hok as (_ & Hs & Hms)%flat_ok_object.
    inversion Hp as [|? ?| |rs ? Hrs Hin]; subst r; [|done|].
    { destruct Hpv as [Hpv Hv]. destruct p; [|done]. injection Hpv as <-. done. }
    f_equal. assert (Forall2 (λ x y : bytes * json, x.1 = y.1 ∧ x.2 = y.2) rs ms) as HF.
    + apply map_Forall2; [done|done|]. intros k. destruct (map_find k rs) as [x|] eqn:Ex, (map_find k ms) as [w|] eqn:Ew.
      * constructor. pose proof (map_find_Some _ _ _ Ew) as Hw. rewrite Forall_forall in IH, Hms. destruct (Hms _ Hw) as [_ Hokw].
        apply (IH _ Hw); [done| |].
        -- destruct (Hin _ _ Ex) as (w' & Ew' & Hpx). rewrite Ew in Ew'. by injection Ew' as <-.
        -- intros q u [Hq Hu]. pose proof (Hl (k :: q) u) as H. cbn in H. rewrite Ex in H. apply H. split; [|done]. cbn. by rewrite Ew.
      * destruct (Hin _ _ Ex) as (w' & Ew' & _). congruence.
      * pose proof (map_find_Some _ _ _ Ew) as Hw. rewrite Forall_forall in Hms. destruct (Hms _ Hw) as [_ Hokw].
        destruct (leaf_exists _ Hokw) as (q & u & Hq & Hu). pose proof (Hl (k :: q) u) as H. cbn in H. rewrite Ex in H. exfalso.
        cut (None = Some u); [done|]. apply H. split; [|done]. cbn. by rewrite Ew.
      * constructor.
    + clear -HF. induction HF as [|[] [] ? ? [? ?] _ IH]; cbn in *; congruence.
  - destruct (leaf_exists _ Hok) as (p & v & Hpv). pose proof (Hl _ _ Hpv) as Hpr. pose proof Hok as (_ & Hs & Hes)%flat_ok_array.
    inversion Hp as [|? ?|rs ? Hlen Hin|]; subst r; [|done|].
    { destruct Hpv as [Hpv Hv]. destruct p; [|done]. injection Hpv as <-. done. }
    f_equal. apply list_eq. intros i. destruct (es !! i) as [w|] eqn:Ew; [|apply lookup_ge_None; apply lookup_ge_None in Ew; lia].
    pose proof (list_elem_of_lookup_2 _ _ _ Ew) as Hw. rewrite Forall_forall in IH, Hes.
    assert (∀ q u, leaf_at w q u → (x ← rs !! i; lookup_path q x) = Some u) as Hi.
    { intros q u [Hq Hu]. pose proof (lookup_lt_Some _ _ _ Ew) as Hlt. pose proof (Hl (dec (Z.of_nat i) :: q) u) as H. cbn [lookup_path] in H.
      rewrite index_of_dec in H by (unfold blen, ARRAY_MAX_SIZE in *; lia). cbn in H. apply H. split; [|done]. cbn [lookup_path].
      rewrite index_of_dec by (unfold blen, ARRAY_MAX_SIZE in *; lia). cbn. by rewrite Ew. }
    destruct (rs !! i) as [x|] eqn:Ex; cbn in Hi.
    + f_equal. apply (IH _ Hw); [by apply Hes|by eapply Hin|done].
    + destruct (leaf_exists w (Hes _ Hw)) as (q & u & Hq). by specialize (Hi _ _ Hq).
Qed.

(** ** The two together *)

Section unflatten.
Context (j : json) (M : list (bytes * json)).
Hypothesis Hok : flat_ok j = true.
Hypothesis Hsorted : sorted_keys M = true.
Hypothesis Hleaf : ∀ k v, map_find k M = Some v → ∃ p, k = pointer_to_string p ∧ leaf_at j p v.
Hypothesis Hall : ∀ p v, leaf_at j p v → is_Some (map_find (pointer_to_string p) M).

(** What comes before the first element of an array has been met. *)
Lemma ordered_prefix seen p v rest r :
  M = seen ++ (pointer_to_string p, v) :: rest → leaf_at j p v → partial r j →
  (∀ q u, leaf_at j q u → pointer_to_string q ∈ seen.*1 → lookup_path q r = Some u) → ordered p j r.
Proof using Hok Hsorted Hall.
  intros HM [Hp Hv] Hr Hseen q t rest' es -> Hq Ht. rewrite lookup_path_app, Hq in Hp. cbn in Hp.
  destruct (index_of t) as [i|] eqn:Ei; [|done]. destruct (index_of_inv _ _ Ei) as [-> _].
  assert (i ≠ 0%nat) as Hi by (by intros ->).
  pose proof (flat_ok_lookup _ _ _ Hok Hq) as Hokq. destruct es as [|e es]; [done|].
  apply flat_ok_array in Hokq as (_ & _ & [He _]%Forall_cons).
  destruct (leaf_exists e He) as (p0 & u & Hp0 & Hu).
  assert (leaf_at j (q ++ b#"0" :: p0) u) as Hfirst.
  { split; [|done]. rewrite lookup_path_app, Hq. cbn [mbind option_bind lookup_path].
    by rewrite (index_of_dec 0 : _ → index_of b#"0" = _). }
  pose proof (first_element_before q p0 i rest' Hi) as Hlt.
  assert (pointer_to_string (q ++ b#"0" :: p0) ∈ seen.*1) as Hin.
  { destruct (Hall _ _ Hfirst) as [x Hx%map_find_Some]. rewrite HM in Hx. apply elem_of_app in Hx as [Hx|Hx].
    - apply list_elem_of_fmap. by exists (pointer_to_string (q ++ b#"0" :: p0), x).
    - exfalso. apply elem_of_cons in Hx as [Hx|Hx].
      + apply (f_equal fst) in Hx. cbn [fst] in Hx. by rewrite Hx, bytes_ltb_irrefl in Hlt.
      + rewrite HM in Hsorted. assert (above (pointer_to_string (q ++ dec (Z.of_nat i) :: rest')) rest) as Ha.
        { clear -Hsorted. induction seen as [|[k w] seen IH]; cbn [app] in Hsorted; apply sorted_keys_cons in Hsorted as [? ?]; auto. }
        unfold above in Ha. rewrite Forall_forall in Ha. specialize (Ha _ Hx). cbn in Ha.
        pose proof (bytes_ltb_trans _ _ _ Hlt Ha) as C. by rewrite bytes_ltb_irrefl in C. }
  pose proof (Hseen _ _ Hfirst Hin) as Hx. rewrite lookup_path_app in Hx. destruct (lookup_path q r) as [x|] eqn:Ex; [|done].
  pose proof (partial_lookup _ _ _ _ _ Hr Ex Hq) as Hpx. cbn in Hx. clear -Hpx Hx. inversion Hpx; subst; try done. by eexists.
Qed.

Lemma unflatten_members_spec rest seen r :
  M = seen ++ rest → partial r j → (∀ q u, leaf_at j q u → pointer_to_string q ∈ seen.*1 → lookup_path q r = Some u) →
  unflatten_members rest r = (DOk tt, j).
Proof using Hok Hsorted Hleaf Hall.
  revert seen r. induction rest as [|[k v] rest IH]; intros seen r HM Hr Hseen.
  - cbn. rewrite (partial_complete j r Hok Hr); [done|]. intros p v Hp. apply Hseen; [done|].
    destruct (Hall _ _ Hp) as [x Hx%map_find_Some]. rewrite HM, app_nil_r in Hx. apply list_elem_of_fmap. by eexists (_, x).
  - assert ((k, v) ∈ M) as Hin by (rewrite HM; set_solver). destruct (Hleaf k v) as (p & -> & Hp); [by apply map_find_elem|].
    destruct (place_leaf p j v r Hok Hr Hp (ordered_prefix seen p v rest r HM Hp Hr Hseen)) as (r' & E & Hr' & Hl & Hk).
    cbn [unflatten_members]. destruct Hp as [Hp Hv]. assert (is_primitive v = true) as -> by (by destruct v).
    unfold mbind, jact_bind, mret, jact_ret, jlift. rewrite split_print, E.
    apply (IH (seen ++ [(pointer_to_string p, v)])); [by rewrite <- app_assoc|done|]. intros q u Hq. rewrite fmap_app.
    intros [Hs|Hs]%elem_of_app; [apply Hk; [done|by apply Hseen]|]. apply list_elem_of_singleton in Hs. cbn in Hs.
    assert (q = p) as -> by (apply (f_equal split) in Hs; rewrite !split_print in Hs; congruence). destruct Hq as [Hq _]. congruence.
Qed.
End unflatten.

(** C24 (roundtrip): [unflatten] gives back every value that [flatten] is applied to, provided that
    it has no empty array or object (they are flattened to null) and no member with the key
    "0" (which [unflatten] takes for the first index of an array); the positions of arrays of any
    length come in the order of their texts, in which the first element is the first. *)
Theorem unflatten_flatten j : flat_ok j = true → unflatten (flatten j) = DOk j.
Proof.
  intros Hok. destruct (flattens_ok j Hok [] [] eq_refl) as (Hs & Hk & Hp & _). unfold flatten, unflatten.
  rewrite (unflatten_members_spec j (flatten_into [] j []) Hok Hs) with (seen := []); [done| | |done|constructor|].
  - intros k v [?|(p & -> & Hp')]%Hk; [done|by exists p].
  - exact Hp.
  - intros q u _ H. by apply not_elem_of_nil in H.
Qed.

(** Eleven elements: "/10" comes before "/2". *)
Definition eleven : json := JObject [(b#"a/b", JArray (replicate 10 JNull ++ [JArray [JString b#"~"]]))].

Lemma unflatten_flatten_witness : flat_ok eleven = true ∧ unflatten (flatten eleven) = DOk eleven.
Proof. split; [reflexivity|]. exact (unflatten_flatten eleven ltac:(reflexivity)). Defined.

(** A member "0" makes its object an array, or stops [unflatten] with an exception that is not
    one of the library. *)
Example zero_member : unflatten (flatten (JObject [(b#"0", JNull)])) = DOk (JArray [JNull]).
Proof. vm_compute. reflexivity. Qed.

Example zero_and_more : unflatten (flatten (JObject [(b#"0", JNull); (b#"a", JNull)])) = DThrow ExInvalidArgument.
Proof. vm_compute. reflexivity. Qed.
