(* ===== verification/JsonPatch.v ===== *)
(** * JsonPatch: JSON Patch
      ([include/nlohmann/json.hpp], [basic_json::patch] and [basic_json::diff])

    [patch] works on a copy of the value, so an exception leaves the value as it was:
    what the caller sees is the result.  [diff] writes the operations that turn
    one value into another. *)

From S2P Require Import Prelude CString Prog JsonValue JsonAccess JsonCompare JsonDump JsonPointer.

Inductive patch_operations := OpAdd | OpRemove | OpReplace | OpMove | OpCopy | OpTest | OpInvalid.

(** [get_op]. *)
Definition get_op (op : bytes) : patch_operations :=
  if bool_decide (op = b#"add") then OpAdd
  else if bool_decide (op = b#"remove") then OpRemove
  else if bool_decide (op = b#"replace") then OpReplace
  else if bool_decide (op = b#"move") then OpMove
  else if bool_decide (op = b#"copy") then OpCopy
  else if bool_decide (op = b#"test") then OpTest
  else OpInvalid.

(** What [operation_add] does to the parent of the new value. *)
Definition add_to_parent (last_path : bytes) (val : json) : jact unit :=
  parent ← jget;
  match parent with
  | JNull | JObject _ => subscript_member last_path (jput val)
  | JArray _ =>
      if bool_decide (last_path = b#"-") then push_back val
      else
        idx ← jlift (array_index last_path);
        if size parent <? idx then jthrow (ExJsonOutOfRange 401) else insert_element idx val
  | _ => jundef UB_assertion
  end.

(** [operation_add(ptr, val)], on [result]. *)
Definition operation_add (ptr : json_pointer) (val : json) : jact unit :=
  match ptr with
  | [] => jput val
  | _ =>
      top_pointer ← jlift (top ptr);
      (if bool_decide (top_pointer = ptr) then mret tt else get_checked top_pointer (mret tt));;
      last_path ← jlift (pointer_back ptr);
      ptr ← jlift (pop_back ptr);
      get_unchecked ptr (add_to_parent last_path val)
  end.

(** What [operation_remove] does to the parent of the value. *)
Definition remove_from_parent (last_path : bytes) : jact unit :=
  parent ← jget;
  match parent with
  | JObject ms =>
      match find last_path parent with
      | Some _ => jput (JObject (map_erase last_path ms))
      | None => jthrow (ExJsonOutOfRange 403)
      end
  | JArray _ => idx ← jlift (array_index last_path); erase_idx idx
  | _ => mret tt
  end.

(** [operation_remove(ptr)]. *)
Definition operation_remove (ptr : json_pointer) : jact unit :=
  last_path ← jlift (pointer_back ptr);
  ptr ← jlift (pop_back ptr);
  get_checked ptr (remove_from_parent last_path).

(** [get_value(op, member, string_type)] of the operation [val]. *)
Definition get_value (val : json) (member : bytes) (string_type : bool) : dres json :=
  match find member val with
  | None => DThrow (ExJsonParse 105)
  | Some v => if string_type && negb (is_string v) then DThrow (ExJsonParse 105) else DOk v
  end.

Definition get_string_value (val : json) (member : bytes) : dres bytes :=
  v ← get_value val member true;
  match get_string v with inl s => DOk s | inr e => DThrow e end.

(** The operation [test]: an [out_of_range] means failure; the message of the exception
    for a failure holds the text of the operation.  The order of the operands of [==] is
    unspecified; here the location is resolved first. *)
Definition operation_test `{FloatOps, FloatText} (val : json) (ptr : json_pointer) : jact unit := λ result,
  let '(found, _) := get_checked ptr jget result in
  let success :=
    match found with
    | DOk v => w ← get_value val b#"value" false; DOk (json_eqb v w)
    | DThrow (ExJsonOutOfRange _) => DOk false
    | DThrow e => DThrow e
    | DUndef u => DUndef u
    end in
  (success ← success;
   if (success : bool) then DOk tt else _ ← json_to_string val; DThrow (ExJsonOther 501), result).

(** One element of the patch. *)
Definition apply_operation `{FloatOps, FloatText} (val : json) : jact unit :=
  (if is_object val then mret tt else jthrow (ExJsonParse 104));;
  op ← jlift (get_string_value val b#"op");
  path ← jlift (get_string_value val b#"path");
  ptr ← jlift (split path);
  match get_op op with
  | OpAdd => v ← jlift (get_value val b#"value" false); operation_add ptr v
  | OpRemove => operation_remove ptr
  | OpReplace => v ← jlift (get_value val b#"value" false); get_checked ptr (jput v)
  | OpMove =>
      from_path ← jlift (get_string_value val b#"from");
      from_ptr ← jlift (split from_path);
      v ← get_checked from_ptr jget;
      operation_remove from_ptr;;
      operation_add ptr v
  | OpCopy =>
      from_path ← jlift (get_string_value val b#"from");
      from_ptr ← jlift (split from_path);
      v ← get_checked from_ptr jget;
      operation_add ptr v
  | OpTest => operation_test val ptr
  | OpInvalid => jthrow (ExJsonParse 105)
  end.

Fixpoint apply_operations `{FloatOps, FloatText} (ops : list json) : jact unit :=
  match ops with [] => mret tt | val :: ops => apply_operation val;; apply_operations ops end.

(** [patch(json_patch)]. *)
Definition patch `{FloatOps, FloatText} (this json_patch : json) : dres json :=
  match json_patch with
  | JArray ops => let '(r, result) := apply_operations ops this in _ ← r; DOk result
  | _ => DThrow (ExJsonParse 104)
  end.

(** ** [diff] *)

(** [{"op", op}, {"path", path}] and [{"value", v}], as initializer lists. *)
Definition pair_of (name : string) (v : json) : json := json_of_list [JString (str name); v].
Definition replace_op (path : bytes) (target : json) : json :=
  json_of_list [pair_of "op" (JString b#"replace"); pair_of "path" (JString path); pair_of "value" target].
Definition remove_op (path : bytes) : json :=
  json_of_list [pair_of "op" (JString b#"remove"); pair_of "path" (JString path)].
Definition add_op (path : bytes) (value : json) : json :=
  json_of_list [pair_of "op" (JString b#"add"); pair_of "path" (JString path); pair_of "value" value].

(** [source.type() == target.type()]. *)
Definition same_type (source target : json) : bool :=
  match source, target with
  | JNull, JNull | JObject _, JObject _ | JArray _, JArray _ | JString _, JString _
  | JBoolean _, JBoolean _ | JInteger _, JInteger _ | JUnsigned _, JUnsigned _
  | JFloat _, JFloat _ | JBinary _ _, JBinary _ _ | JDiscarded, JDiscarded => true
  | _, _ => false
  end.

(** The elements of the source past the end of the target, inserted at [end_index] one
    after the other. *)
Fixpoint remove_rest (path : bytes) (end_index : nat) (i : Z) (es : list json) (result : list json) : list json :=
  match es with
  | [] => result
  | _ :: es =>
      remove_rest path end_index (i + 1) es
        (insert_at end_index [remove_op (path ++ b#"/" ++ dec i)] result)
  end.

Definition member_path (path k : bytes) : bytes := path ++ b#"/" ++ escape_token k.

(** The members of the target that the source does not have. *)
Definition add_members (path : bytes) (source target : list (bytes * json)) : list json :=
  flat_map (λ '(k, v), match map_find k source with
                       | Some _ => []
                       | None => [add_op (member_path path k) v]
                       end) target.

(** The passes over two arrays, [d] being [diff] on their elements. *)
Definition diff_elements (d : json → json → bytes → list json) (path : bytes) :
    Z → list json → list json → list json → list json :=
  fix go i es ts result :=
    match es, ts with
    | e :: es, t :: ts => go (i + 1) es ts (result ++ d e t (path ++ b#"/" ++ dec i))
    | es, [] => remove_rest path (length result) i es result
    | [], ts => result ++ ((λ t, add_op (path ++ b#"/-") t) <$> ts)
    end.

(** The pass over the members of the source. *)
Definition diff_members (d : json → json → bytes → list json) (path : bytes) (ts : list (bytes * json)) :
    list (bytes * json) → list json :=
  fix go ms :=
    match ms with
    | [] => []
    | (k, v) :: ms =>
        match map_find k ts with
        | Some w => d v w (member_path path k)
        | None => [remove_op (member_path path k)]
        end ++ go ms
    end.

Fixpoint diff `{FloatOps} (source target : json) (path : bytes) {struct source} : list json :=
  if json_eqb source target then []
  else if negb (same_type source target) then [replace_op path target]
  else
    match source, target with
    | JArray es, JArray ts => diff_elements diff path 0 es ts []
    | JObject ms, JObject ts => diff_members diff path ts ms ++ add_members path ms ts
    | _, _ => [replace_op path target]
    end.

(** [diff(source, target)]. *)
Definition json_diff `{FloatOps} (source target : json) : json := JArray (diff source target []).
