(* ===== verification/JsonDiff.v ===== *)
(** * JsonDiff: applying a difference

    [resolve] is the value a pointer refers to and [replace_at] the whole with another
    value there; [edits p s r ops] says that the operations [ops] turn [s], at the
    place [p] of any value, into [r].  Applying [diff source target] to [source] gives
    [target], up to the library's equality. *)

From S2P Require Import Prelude CString Prog JsonValue JsonAccess JsonCompare JsonDump JsonPointer JsonPatch.

(** ** Places *)

Fixpoint resolve (p : json_pointer) (j : json) : option json :=
  match p with
  | [] => Some j
  | t :: p =>
      match j with
      | JObject ms => map_find t ms ≫= resolve p
      | JArray es => match array_index t with DOk i => es !! Z.to_nat i ≫= resolve p | _ => None end
      | _ => None
      end
  end.

Fixpoint replace_at (p : json_pointer) (w : json) (j : json) : json :=
  match p with
  | [] => w
  | t :: p =>
      match j with
      | JObject ms => JObject (map_assign t (replace_at p w (default JNull (map_find t ms))) ms)
      | JArray es =>
          match array_index t with
          | DOk i => JArray (<[Z.to_nat i := replace_at p w (default JNull (es !! Z.to_nat i))]> es)
          | _ => j
          end
      | _ => j
      end
  end.

Lemma array_index_nonneg t i : array_index t = DOk i → 0 ≤ i.
Proof.
  assert (∀ z n, stoull t = inl (z, n) → 0 ≤ z) as Hn.
  { intros z n. unfold stoull. repeat case_match; try done. intros [= <- _]. apply Z.mod_pos_bound. lia. }
  unfold array_index. destruct (stoull t) as [[z n]|e] eqn:E; repeat case_match; try done;
    intros [= <-]; by eapply Hn.
Qed.

Lemma map_assign_same k v ms : sorted_keys ms = true → map_find k ms = Some v → map_assign k v ms = ms.
Proof.
  induction ms as [|[k0 u] ms IH]; cbn [map_assign]; [done|]. intros Hs Hf.
  cbn [map_find] in Hf. case_bool_decide; [congruence|]. pose proof Hs as [Ha Hs']%sorted_keys_cons.
  destruct (bytes_ltb k k0) eqn:El; [|by rewrite IH].
  rewrite above_find in Hf; [done|]. eapply Forall_impl; [exact Ha|]. intros m. by apply bytes_ltb_trans.
Qed.

Section places.
Context (p : json_pointer).

Lemma resolve_app q j : resolve (p ++ q) j = resolve p j ≫= resolve q.
Proof.
  revert j. induction p as [|t p' IH]; intros j; [done|]. cbn. destruct j; try done.
  - destruct (map_find t members); [apply IH|done].
  - destruct (array_index t); [|done..]. destruct (elements !! _); [apply IH|done].
Qed.

Lemma replace_app q w j v : resolve p j = Some v → replace_at (p ++ q) w j = replace_at p (replace_at q w v) j.
Proof.
  revert j. induction p as [|t p' IH]; intros j; cbn; [by intros [= ->]|]. destruct j; try done.
  - destruct (map_find t members); [|done]. cbn. intros Hr. by rewrite IH.
  - destruct (array_index t); [|done..]. destruct (elements !! _); [|done]. cbn. intros Hr. by rewrite IH.
Qed.

Lemma resolve_replace w j v : resolve p j = Some v → resolve p (replace_at p w j) = Some w.
Proof.
  revert j. induction p as [|t p' IH]; intros j; [done|]. cbn. destruct j; try done.
  - destruct (map_find t members) as [u|] eqn:E; [|done]. cbn. intros Hr.
    rewrite map_find_assign, bool_decide_eq_true_2 by done. cbn. by apply IH.
  - destruct (array_index t) as [i| |] eqn:Ei; [|done..]. destruct (elements !! _) as [u|] eqn:E; [|done].
    cbn. intros Hr. rewrite list_lookup_insert_eq by (by eapply lookup_lt_Some). cbn. by apply IH.
Qed.

Lemma replace_replace w w' j v :
  resolve p j = Some v → replace_at p w' (replace_at p w j) = replace_at p w' j.
Proof.
  revert j. induction p as [|t p' IH]; intros j; [done|]. cbn. destruct j; try done.
  - destruct (map_find t members) as [u|] eqn:E; [|done]. cbn. intros Hr.
    rewrite map_find_assign, bool_decide_eq_true_2 by done. cbn. by rewrite IH, map_assign_twice.
  - destruct (array_index t) as [i| |] eqn:Ei; [|done..]. destruct (elements !! _) as [u|] eqn:E; [|done].
    cbn. intros Hr. rewrite list_lookup_insert_eq by (by eapply lookup_lt_Some). cbn.
    by rewrite IH, list_insert_insert_eq.
Qed.

Lemma replace_same j v : maps_sorted j = true → resolve p j = Some v → replace_at p v j = j.
Proof.
  revert j. induction p as [|t p' IH]; intros j; cbn; [congruence|]. destruct j; try done.
  - intros Hj. destruct (map_find t members) as [u|] eqn:E; [|done]. cbn. intros Hr.
    rewrite IH; [|by eapply maps_sorted_find|done]. apply maps_sorted_object in Hj as [? _]. by rewrite map_assign_same.
  - intros Hv%(proj1 (maps_sorted_array _)).
    destruct (array_index t) as [i| |] eqn:Ei; [|done..]. destruct (elements !! _) as [u|] eqn:E; [|done].
    cbn. intros Hr. rewrite IH; [by rewrite list_insert_id| |done].
    rewrite Forall_forall in Hv. apply Hv. by eapply list_elem_of_lookup_2.
Qed.

Lemma replace_sorted w j :
  maps_sorted j = true → maps_sorted w = true → maps_sorted (replace_at p w j) = true.
Proof.
  intros Hj Hw. revert j Hj. induction p as [|t p' IH]; intros j Hj; [done|]. cbn. destruct j; try done.
  - apply maps_sorted_assign; [done|]. apply IH.
    destruct (map_find t members) as [u|] eqn:E; [|done]. by eapply maps_sorted_find.
  - destruct (array_index t) as [i| |]; [|done..]. apply maps_sorted_array in Hj. apply maps_sorted_array.
    apply Forall_insert; [done|]. apply IH. destruct (elements !! _) as [u|] eqn:E; [|done]. cbn.
    rewrite Forall_forall in Hj. apply Hj. by eapply list_elem_of_lookup_2.
Qed.

Lemma get_checked_resolve {A} (m : jact A) j v :
  resolve p j = Some v → get_checked p m j = ((m v).1, replace_at p (m v).2 j).
Proof.
  revert j. induction p as [|t p' IH]; intros j; cbn [resolve get_checked replace_at].
  - intros [= ->]. by destruct (m v).
  - destruct j; try done.
    + unfold at_member. destruct (map_find t members) as [u|] eqn:E; [|done]. cbn. intros Hr. by rewrite IH.
    + destruct (array_index t) as [i| |] eqn:Ei; [|done..].
      rewrite bool_decide_eq_false_2 by (intros ->; by vm_compute in Ei).
      unfold with_index, mbind, jact_bind, jlift, at_element. rewrite Ei.
      destruct (elements !! _) as [u|] eqn:E; [|done]. cbn. intros Hr. by rewrite IH.
Qed.

Lemma get_unchecked_resolve {A} (m : jact A) j v :
  resolve p j = Some v → get_unchecked p m j = ((m v).1, replace_at p (m v).2 j).
Proof.
  revert j. induction p as [|t p' IH]; intros j; cbn [resolve get_unchecked replace_at].
  - intros [= ->]. by destruct (m v).
  - destruct j; try done.
    + unfold subscript_member. destruct (map_find t members) as [u|] eqn:E; [|done]. cbn. intros Hr. by rewrite IH.
    + destruct (array_index t) as [i| |] eqn:Ei; [|done..].
      rewrite bool_decide_eq_false_2 by (intros ->; by vm_compute in Ei).
      unfold with_index, mbind, jact_bind, jlift, subscript_element. rewrite Ei.
      destruct (elements !! _) as [u|] eqn:E; [|done]. cbn. intros Hr.
      pose proof (array_index_nonneg _ _ Ei). pose proof (lookup_lt_Some _ _ _ E).
      rewrite (proj2 (Z.leb_gt _ _)) by (unfold blen; lia). rewrite (nth_lookup_Some _ _ JNull _ E). by rewrite IH.
Qed.
End places.

(** ** Operations at a place *)

Section edits.
Context `{FloatOps, FloatText}.

Definition edits (p : json_pointer) (s r : json) (ops : list json) : Prop :=
  ∀ R, maps_sorted R = true → resolve p R = Some s → apply_operations ops R = (DOk tt, replace_at p r R).

Lemma edits_nil p s : edits p s s [].
Proof. intros R HR Hp. cbn. unfold mret, jact_ret. by rewrite replace_same. Qed.

Lemma apply_operations_app ops1 ops2 R :
  apply_operations (ops1 ++ ops2) R = (apply_operations ops1;; apply_operations ops2) R.
Proof.
  revert R. induction ops1 as [|o ops1 IH]; intros R; cbn; [done|].
  unfold mbind, jact_bind in *. destruct (apply_operation o R) as [[[]| |] R']; [|done..]. apply IH.
Qed.

Lemma edits_app p s1 s2 s3 ops1 ops2 :
  maps_sorted s2 = true → edits p s1 s2 ops1 → edits p s2 s3 ops2 → edits p s1 s3 (ops1 ++ ops2).
Proof.
  intros Hs2 H1 H2 R HR Hp. rewrite apply_operations_app. unfold mbind, jact_bind.
  rewrite (H1 R) by done. rewrite (H2 (replace_at p s2 R)).
  - by erewrite replace_replace.
  - by apply replace_sorted.
  - by eapply resolve_replace.
Qed.

(** Editing a part edits the whole. *)
Lemma edits_member p ms k v r ops :
  map_find k ms = Some v → edits (p ++ [k]) v r ops → edits p (JObject ms) (JObject (map_assign k r ms)) ops.
Proof.
  intros Hk He R HR Hp. rewrite He; [|done|by rewrite resolve_app, Hp; cbn; rewrite Hk].
  by erewrite replace_app by done.
Qed.

Lemma edits_element p es i e r ops :
  0 ≤ i < 2 ^ 64 - 1 → es !! Z.to_nat i = Some e → edits (p ++ [dec i]) e r ops →
  edits p (JArray es) (JArray (<[Z.to_nat i := r]> es)) ops.
Proof.
  intros Hi Hk He R HR Hp. rewrite He; [|done|].
  - erewrite replace_app by done. cbn. by rewrite array_index_dec.
  - rewrite resolve_app, Hp. cbn. rewrite array_index_dec by done. by rewrite Hk.
Qed.

(** ** The operations of [diff] *)

Lemma replace_op_value path v :
  replace_op path v = JObject [(b#"op", JString b#"replace"); (b#"path", JString path); (b#"value", v)].
Proof. reflexivity. Qed.

Lemma remove_op_value path : remove_op path = JObject [(b#"op", JString b#"remove"); (b#"path", JString path)].
Proof. reflexivity. Qed.

Lemma add_op_value path v :
  add_op path v = JObject [(b#"op", JString b#"add"); (b#"path", JString path); (b#"value", v)].
Proof. reflexivity. Qed.

(** Reading the members of an operation. *)
Lemma get_op_string o ms : get_string_value (JObject ((b#"op", JString o) :: ms)) b#"op" = DOk o.
Proof. reflexivity. Qed.

Lemma get_path_string o path ms :
  get_string_value (JObject ((b#"op", o) :: (b#"path", JString path) :: ms)) b#"path" = DOk path.
Proof. reflexivity. Qed.

Lemma get_value_json o path v :
  get_value (JObject [(b#"op", o); (b#"path", path); (b#"value", v)]) b#"value" false = DOk v.
Proof. reflexivity. Qed.

Ltac run_operation :=
  unfold apply_operation; unfold mbind, jact_bind; cbn [is_object]; unfold mret, jact_ret, jlift;
  rewrite get_op_string, get_path_string, split_print; cbn beta iota;
  repeat match goal with
  | |- context [get_op ?o] => let r := eval vm_compute in (get_op o) in change (get_op o) with r
  end; cbn beta iota; rewrite ?get_value_json.

Lemma edits_replace p s v : edits p s v [replace_op (pointer_to_string p) v].
Proof.
  intros R _ Hp. cbn [apply_operations]. unfold mbind, jact_bind at 1.
  assert (apply_operation (replace_op (pointer_to_string p) v) R = (DOk tt, replace_at p v R)) as ->; [|done].
  rewrite replace_op_value. run_operation. by erewrite get_checked_resolve.
Qed.

Lemma pointer_back_snoc p t : pointer_back (p ++ [t]) = DOk t.
Proof. unfold pointer_back. by rewrite last_snoc. Qed.

Lemma pop_back_snoc p t : pop_back (p ++ [t]) = DOk p.
Proof.
  unfold pop_back. rewrite length_app. cbn [length]. rewrite Nat.add_sub, take_app_length.
  by destruct p.
Qed.

Lemma operation_remove_at p t s r R :
  resolve p R = Some s → remove_from_parent t s = (DOk tt, r) →
  operation_remove (p ++ [t]) R = (DOk tt, replace_at p r R).
Proof.
  intros Hp Hr. unfold operation_remove, mbind, jact_bind, jlift. rewrite pointer_back_snoc, pop_back_snoc.
  erewrite get_checked_resolve by done. by rewrite Hr.
Qed.

Lemma edits_remove p t s r :
  remove_from_parent t s = (DOk tt, r) → edits p s r [remove_op (pointer_to_string (p ++ [t]))].
Proof.
  intros Hr R _ Hp. cbn [apply_operations]. unfold mbind, jact_bind at 1.
  assert (apply_operation (remove_op (pointer_to_string (p ++ [t]))) R = (DOk tt, replace_at p r R)) as ->; [|done].
  rewrite remove_op_value. run_operation. by eapply operation_remove_at.
Qed.

Lemma operation_add_at p t v s r R :
  maps_sorted R = true → resolve p R = Some s → add_to_parent t v s = (DOk tt, r) →
  operation_add (p ++ [t]) v R = (DOk tt, replace_at p r R).
Proof.
  intros HR Hp Hr.
  assert (∀ q, q ++ [t] = p ++ [t] → operation_add (q ++ [t]) v R = (DOk tt, replace_at p r R)); [|by auto].
  intros q Hq. apply app_inj_tail in Hq as [-> _].
  assert (∀ m : jact unit, (top_pointer ← jlift (top (p ++ [t]));
     (if bool_decide (top_pointer = p ++ [t]) then mret tt else get_checked top_pointer (mret tt));; m) R = m R) as Htop.
  { intros m. unfold mbind, jact_bind, jlift. destruct p as [|t0 p']; cbn [top app].
    - by rewrite bool_decide_eq_true_2.
    - rewrite bool_decide_eq_false_2 by (intros [= E]; by destruct p').
      change (t0 :: p') with ([t0] ++ p') in Hp. rewrite resolve_app in Hp.
      destruct (resolve [t0] R) as [v0|] eqn:E; [|done]. erewrite get_checked_resolve by done.
      cbn [mret jact_ret fst snd]. by rewrite (replace_same [t0] R v0). }
  transitivity ((last_path ← jlift (pointer_back (p ++ [t])); ptr ← jlift (pop_back (p ++ [t]));
                 get_unchecked ptr (add_to_parent last_path v)) R).
  - revert Htop. unfold operation_add. destruct (p ++ [t]) as [|a l] eqn:E; [by destruct p|].
    intros Htop. apply (Htop (last_path ← jlift (pointer_back (a :: l)); ptr ← jlift (pop_back (a :: l));
                              get_unchecked ptr (add_to_parent last_path v))).
  - unfold mbind, jact_bind, jlift. rewrite pointer_back_snoc, pop_back_snoc.
    erewrite get_unchecked_resolve by done. by rewrite Hr.
Qed.

Lemma edits_add p t v s r :
  add_to_parent t v s = (DOk tt, r) → edits p s r [add_op (pointer_to_string (p ++ [t])) v].
Proof.
  intros Hr R HR Hp. cbn [apply_operations]. unfold mbind, jact_bind at 1.
  assert (apply_operation (add_op (pointer_to_string (p ++ [t])) v) R = (DOk tt, replace_at p r R)) as ->; [|done].
  rewrite add_op_value. run_operation. by eapply operation_add_at.
Qed.
End edits.

(** ** Paths *)

Lemma path_member p k : member_path (pointer_to_string p) k = pointer_to_string (p ++ [k]).
Proof. unfold pointer_to_string. by rewrite foldl_app. Qed.

Lemma path_append p : pointer_to_string p ++ b#"/-" = pointer_to_string (p ++ [b#"-"]).
Proof. unfold pointer_to_string. by rewrite foldl_app. Qed.

Lemma path_element p i : 0 ≤ i → pointer_to_string p ++ b#"/" ++ dec i = pointer_to_string (p ++ [dec i]).
Proof.
  intros Hi. unfold pointer_to_string. rewrite foldl_app. cbn [foldl]. by rewrite escape_dec.
Qed.

(** ** The theorem *)

Section diff.
Context `{FloatOps, FloatText}.

(** [diff source target] turns [source] into a value equal to [target], at any place. *)
Definition diffs (source : json) : Prop :=
  ∀ target p, maps_sorted source = true → maps_sorted target = true → json_eqb target target = true →
    ∃ r, edits p source r (diff source target (pointer_to_string p)) ∧
         maps_sorted r = true ∧ json_eqb r target = true.

(** The elements past the end of the target. *)
Lemma remove_rest_app path i es done_ acc :
  remove_rest path (length done_) i es (done_ ++ acc) =
  done_ ++ reverse ((λ n, remove_op (path ++ b#"/" ++ dec (i + Z.of_nat n))) <$> seq 0 (length es)) ++ acc.
Proof.
  revert i acc. induction es as [|e es IH]; intros i acc; [done|]. cbn [remove_rest].
  unfold insert_at. rewrite take_app_length, drop_app_length. cbn [app]. rewrite IH.
  cbn [length seq fmap list_fmap]. rewrite reverse_cons, <- app_assoc. cbn [app]. rewrite Z.add_0_r.
  do 3 f_equal. rewrite <- fmap_S_seq, <- list_fmap_compose. apply list_fmap_ext. intros n m _.
  cbn [compose]. unfold compose. by replace (i + 1 + Z.of_nat m) with (i + Z.of_nat (S m)) by lia.
Qed.

Lemma edits_truncate p rest pre :
  maps_sorted (JArray (pre ++ rest)) = true → blen (pre ++ rest) < 2 ^ 64 →
  edits p (JArray (pre ++ rest)) (JArray pre)
    (reverse ((λ n, remove_op (pointer_to_string p ++ b#"/" ++ dec (blen pre + Z.of_nat n))) <$> seq 0 (length rest))).
Proof.
  induction rest as [|e rest IH] using rev_ind; intros Hs Hb; [rewrite app_nil_r; apply edits_nil|].
  rewrite length_app, Nat.add_1_r, seq_S, fmap_app, reverse_app. cbn [fmap list_fmap reverse].
  rewrite app_assoc in Hs, Hb |- *. rewrite blen_app in Hb. change (blen [e]) with 1 in Hb.
  pose proof (blen_nonneg pre). rewrite blen_app in Hb.
  assert (maps_sorted (JArray (pre ++ rest)) = true) as Hs'.
  { apply maps_sorted_array in Hs. apply maps_sorted_array. by apply Forall_app in Hs as [? _]. }
  eapply edits_app; [exact Hs'| |apply IH; [done|rewrite blen_app; lia]].
  cbn [rev_append reverse]. rewrite path_element by lia. apply edits_remove.
  unfold remove_from_parent, mbind, jact_bind, jlift, jget. rewrite array_index_dec by (unfold blen in *; lia).
  unfold erase_idx, size. rewrite !blen_app. change (blen [e]) with 1.
  rewrite (proj2 (Z.leb_gt _ _)) by (unfold blen; lia). do 2 f_equal.
  replace (Z.to_nat _) with (length (pre ++ rest)) by (unfold blen; rewrite length_app; lia).
  by rewrite delete_middle, app_nil_r.
Qed.

Lemma edits_append p ts pre :
  maps_sorted (JArray (pre ++ ts)) = true →
  edits p (JArray pre) (JArray (pre ++ ts)) ((λ t, add_op (pointer_to_string p ++ b#"/-") t) <$> ts).
Proof.
  revert pre. induction ts as [|t ts IH]; intros pre Hs; [rewrite app_nil_r; apply edits_nil|].
  change (t :: ts) with ([t] ++ ts) in Hs |- *. rewrite app_assoc in Hs |- *. cbn [fmap list_fmap app].
  apply (edits_app p _ (JArray (pre ++ [t])) _ [_]).
  - apply maps_sorted_array in Hs. apply maps_sorted_array. by apply Forall_app in Hs as [? _].
  - rewrite path_append. by apply edits_add.
  - by apply IH.
Qed.

(** The elements: [l] is done, [es] is left of the source, [ts] of the target. *)
Lemma diff_elements_edits p S0 es :
  Forall diffs es → ∀ ts i l result,
  i = blen l → blen (l ++ es) < 2 ^ 64 →
  maps_sorted (JArray (l ++ es)) = true → Forall (λ t, maps_sorted t = true ∧ json_eqb t t = true) ts →
  edits p S0 (JArray (l ++ es)) result →
  ∃ rs, edits p S0 (JArray (l ++ rs)) (diff_elements diff (pointer_to_string p) i es ts result) ∧
        maps_sorted (JArray (l ++ rs)) = true ∧ list_eqb json_eqb rs ts = true.
Proof.
  induction 1 as [|e es He _ IH]; intros ts i l result -> Hb Hs Hts Hr.
  - exists ts. assert (maps_sorted (JArray (l ++ ts)) = true) as Hs'.
    { rewrite app_nil_r in Hs. apply maps_sorted_array in Hs. apply maps_sorted_array.
      apply Forall_app. split; [done|]. eapply Forall_impl; [done|]. by intros t [? _]. }
    split; [|split; [done|]].
    + rewrite app_nil_r in *. destruct ts as [|t ts].
      * cbn. by rewrite app_nil_r.
      * eapply edits_app; [exact Hs|exact Hr|]. by apply edits_append.
    + apply list_eqb_refl. eapply Forall_impl; [done|]. by intros t [_ ?].
  - destruct ts as [|t ts].
    + exists []. rewrite app_nil_r. split; [|split; [|done]].
      * cbn [diff_elements]. rewrite <- (app_nil_r result) at 2. rewrite remove_rest_app, app_nil_r.
        eapply edits_app; [exact Hs|exact Hr|]. by apply edits_truncate.
      * apply maps_sorted_array in Hs. apply maps_sorted_array. by apply Forall_app in Hs as [? _].
    + inversion Hts as [|? ? [Ht1 Ht2] Hts']; subst. pose proof Hs as Hs1. apply maps_sorted_array in Hs1.
      apply Forall_app in Hs1 as [Hl Hes]. inversion Hes as [|? ? Hse Hses]; subst.
      destruct (He t (p ++ [dec (blen l)]) Hse Ht1 Ht2) as (r & Hed & Hsr & Heq).
      assert (maps_sorted (JArray ((l ++ [r]) ++ es)) = true) as Hs2.
      { apply maps_sorted_array. apply Forall_app. split; [apply Forall_app; split; [done|by constructor]|done]. }
      assert (blen ((l ++ [r]) ++ es) < 2 ^ 64) as Hb'
        by (rewrite !blen_app in *; rewrite blen_cons in Hb; change (blen [r]) with 1; lia).
      cbn [diff_elements].
      destruct (IH ts (blen l + 1) (l ++ [r]) (result ++ diff e t (pointer_to_string p ++ b#"/" ++ dec (blen l))))
        as (rs & H1 & H2 & H3); [by rewrite blen_app|done|done|done| |].
      * eapply edits_app; [exact Hs|exact Hr|]. rewrite path_element by apply blen_nonneg.
        replace ((l ++ [r]) ++ es) with (<[Z.to_nat (blen l) := r]> (l ++ e :: es)).
        -- apply (edits_element _ _ _ e).
           ++ rewrite blen_app, blen_cons in Hb. pose proof (blen_nonneg l). pose proof (blen_nonneg es). lia.
           ++ unfold blen. rewrite Nat2Z.id. by apply list_lookup_middle.
           ++ done.
        -- unfold blen. rewrite Nat2Z.id, <- (Nat.add_0_r (length l)), insert_app_r. by rewrite <- app_assoc.
      * exists (r :: rs). rewrite <- app_assoc in H1, H2. split; [exact H1|]. split; [exact H2|].
        cbn. by rewrite Heq.
Qed.

(** The members of the source that are left, [l], in the object [C] edited so far. *)
Lemma diff_members_edits p ts l :
  Forall (λ m, diffs m.2 ∧ maps_sorted m.2 = true) l → sorted_keys l = true →
  sorted_keys ts = true → Forall (λ m, maps_sorted m.2 = true ∧ json_eqb m.2 m.2 = true) ts →
  ∀ C, maps_sorted (JObject C) = true → (∀ k v, map_find k l = Some v → map_find k C = Some v) →
  ∃ C', edits p (JObject C) (JObject C') (diff_members diff (pointer_to_string p) ts l) ∧
    maps_sorted (JObject C') = true ∧
    (∀ k, match map_find k l with
          | Some _ => option_Forall2 (λ r w, json_eqb r w = true) (map_find k C') (map_find k ts)
          | None => map_find k C' = map_find k C
          end).
Proof.
  intros Hl Hsl Hst Hts. induction Hl as [|[k v] l [Hd Hsv] Hl IH]; intros C HC Hin.
  - exists C. split; [apply edits_nil|]. by split.
  - pose proof Hsl as [Ha Hsl']%sorted_keys_cons. cbn [diff_members]. cbn in Hd, Hsv.
    assert (map_find k C = Some v) as HkC by (apply Hin; cbn; by rewrite bool_decide_eq_true_2).
    assert (map_find k l = None) as Hkl by by apply above_find.
    assert (∃ C1, edits p (JObject C) (JObject C1)
        match map_find k ts with
        | Some w => diff v w (member_path (pointer_to_string p) k)
        | None => [remove_op (member_path (pointer_to_string p) k)]
        end ∧ maps_sorted (JObject C1) = true ∧
        option_Forall2 (λ r w, json_eqb r w = true) (map_find k C1) (map_find k ts) ∧
        (∀ k', k' ≠ k → map_find k' C1 = map_find k' C)) as (C1 & He1 & Hs1 & Hk1 & Ho1).
    { rewrite path_member. destruct (map_find k ts) as [w|] eqn:Ew.
      - pose proof (map_find_Some _ _ _ Ew) as Hw. rewrite Forall_forall in Hts. destruct (Hts _ Hw) as [Hw1 Hw2].
        destruct (Hd w (p ++ [k]) Hsv Hw1 Hw2) as (r & Hr1 & Hr2 & Hr3). exists (map_assign k r C).
        split; [by eapply edits_member|]. split; [|split].
        + by apply maps_sorted_assign.
        + rewrite map_find_assign, bool_decide_eq_true_2 by done. by constructor.
        + intros k' Hk'. by rewrite map_find_assign, bool_decide_eq_false_2.
      - exists (map_erase k C). split; [|split; [|split]].
        + apply edits_remove. unfold remove_from_parent, mbind, jact_bind, jget, find. by rewrite HkC.
        + by apply maps_sorted_erase.
        + rewrite map_find_erase, bool_decide_eq_true_2 by done. constructor.
        + intros k' Hk'. by rewrite map_find_erase, bool_decide_eq_false_2. }
    destruct (IH Hsl' C1 Hs1) as (C' & He2 & Hs2 & Hk2).
    { intros k' v' Hk'. rewrite Ho1 by congruence. apply Hin. cbn. rewrite bool_decide_eq_false_2; congruence. }
    exists C'. split; [eapply edits_app; [exact Hs1|exact He1|exact He2]|]. split; [done|]. intros k'. specialize (Hk2 k'). cbn. case_bool_decide as E.
    + subst k'. rewrite Hkl in Hk2. by rewrite Hk2.
    + destruct (map_find k' l); [done|]. rewrite Hk2. by apply Ho1.
Qed.

(** The members of the target that are left to add. *)
Lemma add_members_edits p ms l :
  sorted_keys l = true → Forall (λ m, maps_sorted m.2 = true) l →
  ∀ C, maps_sorted (JObject C) = true →
  ∃ C', edits p (JObject C) (JObject C') (add_members (pointer_to_string p) ms l) ∧
    maps_sorted (JObject C') = true ∧
    (∀ k, map_find k C' = match map_find k ms, map_find k l with
                          | None, Some v => Some v
                          | _, _ => map_find k C
                          end).
Proof.
  intros Hsl Hl. induction Hl as [|[k v] l Hv Hl IH]; intros C HC.
  - exists C. split; [apply edits_nil|]. split; [done|]. intros k. by destruct (map_find k ms).
  - pose proof Hsl as [Ha Hsl']%sorted_keys_cons. cbn in Hv. unfold add_members. cbn [flat_map].
    assert (map_find k l = None) as Hkl by by apply above_find.
    destruct (map_find k ms) as [u|] eqn:Ek.
    + destruct (IH Hsl' C HC) as (C' & H1 & H2 & H3). exists C'. split; [done|]. split; [done|].
      intros k'. rewrite H3. cbn. case_bool_decide; [|done]. subst k'. by rewrite Ek.
    + destruct (IH Hsl' (map_assign k v C)) as (C' & H1 & H2 & H3).
      { by apply maps_sorted_assign. }
      exists C'. split; [|split; [done|]].
      * eapply (edits_app _ _ (JObject (map_assign k v C)) _ [_]); [|rewrite path_member; by apply edits_add|exact H1].
        by apply maps_sorted_assign.
      * intros k'. rewrite H3, map_find_assign. cbn. case_bool_decide; [|done]. subst k'. by rewrite Ek, Hkl.
Qed.

Lemma same_type_array source es : same_type source (JArray es) = true → ∃ es', source = JArray es'.
Proof. destruct source; try done. eauto. Qed.

Lemma source_diffs source : arrays_fit source = true → diffs source.
Proof.
  assert (∀ s, (∀ t p, json_eqb s t = false → same_type s t = true →
      maps_sorted s = true → maps_sorted t = true → json_eqb t t = true →
      ∃ r, edits p s r (diff s t (pointer_to_string p)) ∧ maps_sorted r = true ∧ json_eqb r t = true) → diffs s) as Hmain.
  { intros s Hs t p Hms Hmt Ht. destruct (json_eqb s t) eqn:E1.
    - exists s. split; [|done]. assert (diff s t (pointer_to_string p) = []) as -> by (destruct s; cbn [diff]; by rewrite E1). apply edits_nil.
    - destruct (same_type s t) eqn:E2; [by apply Hs|]. exists t. split; [|done].
      assert (diff s t (pointer_to_string p) = [replace_op (pointer_to_string p) t]) as ->
        by (destruct s; cbn [diff]; by rewrite E1, E2).
      apply edits_replace. }
  assert (∀ s, is_structured s = false → diffs s) as Hscalar.
  { intros s Hstr. apply Hmain. intros t p E1 E2 _ Hmt Ht. exists t. split; [|done].
    assert (diff s t (pointer_to_string p) = [replace_op (pointer_to_string p) t]) as ->
      by (destruct s; try done; cbn [diff]; rewrite E1, E2; by destruct t).
    apply edits_replace. }
  induction source as [|ms IH|es IH|s|b|z|z|l|d t|] using json_induction; intros Hfit; try by apply Hscalar.
  - apply Hmain. intros t p E1 E2 Hms Hmt Ht. destruct t as [|ts| | | | | | | |]; try done.
    cbn [diff]. rewrite E1, E2. cbn [negb].
    assert (Forall (λ m, diffs m.2 ∧ maps_sorted m.2 = true) ms) as Hl.
    { cbn in Hfit. rewrite forallb_forall in Hfit. apply maps_sorted_object in Hms as [_ Hms].
      rewrite Forall_forall in *. intros m Hm. split; [|by apply Hms]. apply IH; [done|].
      apply Hfit. by apply list_elem_of_In. }
    pose proof Hms as [Hk _]%maps_sorted_object. pose proof Hmt as [Hkt Hmt']%maps_sorted_object.
    assert (Forall (λ m, maps_sorted m.2 = true ∧ json_eqb m.2 m.2 = true) ts) as Hts.
    { cbn in Ht. apply list_eqb_Forall2 in Ht. apply Forall2_same_length_lookup in Ht as [_ Ht].
      rewrite Forall_forall in *. intros m Hm. split; [by apply Hmt'|]. apply list_elem_of_lookup in Hm as [i Hi].
      specialize (Ht _ _ _ Hi Hi). by apply andb_true_iff in Ht as [_ ?]. }
    destruct (diff_members_edits p ts ms Hl Hk Hkt Hts ms Hms) as (C1 & He1 & Hs1 & H1); [done|].
    destruct (add_members_edits p ms ts Hkt Hmt' C1 Hs1) as (C2 & He2 & Hs2 & H2).
    exists (JObject C2). split; [eapply edits_app; [exact Hs1|exact He1|exact He2]|]. split; [done|].
    cbn. apply list_eqb_Forall2. eapply Forall2_impl;
      [apply (map_Forall2 (λ r w, json_eqb r w = true)); [by apply maps_sorted_object in Hs2 as [? _]|done|]|].
    + intros k. rewrite H2. specialize (H1 k). destruct (map_find k ms); [done|].
      destruct (map_find k ts) as [v|] eqn:Ev; [|by rewrite H1; destruct (map_find k ms); constructor].
      constructor. rewrite Forall_forall in Hts. by apply (Hts _ (map_find_Some _ _ _ Ev)).
    + intros [k v] [k' v'] [E3 E4]. cbn in *. by rewrite bool_decide_eq_true_2.
  - apply Hmain. intros t p E1 E2 Hms Hmt Ht. destruct t as [| |ts| | | | | | |]; try done.
    cbn [diff]. rewrite E1, E2. cbn [negb]. cbn in Hfit. apply andb_true_iff in Hfit as [Hb Hfit].
    apply Z.leb_le in Hb. rewrite forallb_forall in Hfit. unfold ARRAY_MAX_SIZE in Hb.
    assert (Forall diffs es) as Hes.
    { rewrite Forall_forall in *. intros e He. apply IH; [done|]. apply Hfit. by apply list_elem_of_In. }
    destruct (diff_elements_edits p (JArray es) es Hes ts 0 [] []) as (rs & H1 & H2 & H3); [done|cbn; lia|done| | |].
    + apply maps_sorted_array in Hmt. cbn in Ht. apply list_eqb_Forall2 in Ht.
      apply Forall2_same_length_lookup in Ht as [_ Ht]. rewrite Forall_forall in *. intros m Hm.
      split; [by apply Hmt|]. apply list_elem_of_lookup in Hm as [i Hi]. by apply (Ht _ _ _ Hi Hi).
    + apply edits_nil.
    + exists (JArray rs). by split.
Qed.

(** C13 (functional): applying a difference to its source gives its target: the patch
    that [diff] computes is accepted, and its result is equal to the target, for the
    library's [==], provided the target is equal to itself (it holds no NaN). *)
Theorem diff_patch source target :
  maps_sorted source = true → arrays_fit source = true → maps_sorted target = true →
  json_eqb target target = true →
  ∃ result, patch source (json_diff source target) = DOk result ∧ json_eqb result target = true.
Proof.
  intros Hs Hf Ht Hr. destruct (source_diffs source Hf target [] Hs Ht Hr) as (r & He & _ & Heq).
  exists r. split; [|done]. unfold patch, json_diff.
  assert (apply_operations (diff source target []) source = (DOk tt, r)) as -> by exact (He source Hs eq_refl).
  done.
Qed.
End diff.

(** Doubles written as decimal integers, for examples. *)
#[local] Instance example_floats : FloatOps :=
  { float_eqb := λ a b, bool_decide (a = b); float_ltb := λ _ _, false; float_of_integer := dec }.
#[local] Instance example_text : FloatText := λ l, l.

Definition diff_source : json :=
  JObject [(b#"a", JArray [JUnsigned 1; JString b#"x"; JNull]); (b#"b/c", JBoolean true)].
Definition diff_target : json :=
  JObject [(b#"a", JArray [JUnsigned 2; JString b#"x"]); (b#"d", JArray [JFloat b#"1.5"])].

Example diff_example :
  diff diff_source diff_target []
  = [replace_op b#"/a/0" (JUnsigned 2); remove_op b#"/a/2"; remove_op b#"/b~1c"; add_op b#"/d" (JArray [JFloat b#"1.5"])].
Proof. vm_compute. reflexivity. Qed.

Lemma diff_patch_witness :
  ∃ result, patch diff_source (json_diff diff_source diff_target) = DOk result
            ∧ json_eqb result diff_target = true.
Proof. apply (diff_patch diff_source diff_target); vm_compute; reflexivity. Defined.
