(* ===== verification/JsonMerge.v ===== *)
(** * JsonMerge: JSON Merge Patch
      ([include/nlohmann/json.hpp], [basic_json::merge_patch])

    [merge_patch] never fails; what it does to an object is stated member by member, as
    RFC 7396 does, and applying a patch a second time changes nothing. *)

From S2P Require Import Prelude CString Prog JsonValue JsonAccess.

(** The value after [merge_patch(apply_patch)]. *)
Definition merged (apply_patch target : json) : json := (merge_patch apply_patch target).2.

(** The members a patch starts from: none, unless the target is an object. *)
Definition target_members (target : json) : list (bytes * json) :=
  match target with JObject ms => ms | _ => [] end.

(** The loop over the members of the patch. *)
Definition merge_members : list (bytes * json) → jact unit :=
  fix go ms : jact unit :=
    match ms with
    | [] => mret tt
    | (k, v) :: ms =>
        (if is_null v then _ ← erase_key k; mret tt else subscript_member k (merge_patch v));;
        go ms
    end.

Definition merges (p : json) : Prop :=
  ∀ t, maps_sorted t = true → merge_patch p t = (DOk tt, merged p t) ∧ maps_sorted (merged p t) = true.

Lemma merge_members_run ms :
  Forall (λ m, merges m.2) ms → sorted_keys ms = true → ∀ C, maps_sorted (JObject C) = true →
  ∃ C', merge_members ms (JObject C) = (DOk tt, JObject C') ∧ maps_sorted (JObject C') = true ∧
    ∀ k, map_find k C' = match map_find k ms with
                         | Some v => if is_null v then None else Some (merged v (default JNull (map_find k C)))
                         | None => map_find k C
                         end.
Proof.
  induction 1 as [|[k v] ms Hv _ IH]; intros Hs C HC; [by exists C|].
  pose proof Hs as [Ha Hs']%sorted_keys_cons. cbn in Hv.
  assert (map_find k ms = None) as Hk by by apply above_find.
  assert (∃ C1, (if is_null v then _ ← erase_key k; mret tt else subscript_member k (merge_patch v)) (JObject C)
                = (DOk tt, JObject C1) ∧ maps_sorted (JObject C1) = true ∧
                map_find k C1 = (if is_null v then None else Some (merged v (default JNull (map_find k C)))) ∧
                ∀ k', k' ≠ k → map_find k' C1 = map_find k' C) as (C1 & H1 & H2 & H3 & H4).
  { destruct (is_null v).
    - exists (map_erase k C). split; [done|]. split; [by apply maps_sorted_erase|].
      setoid_rewrite map_find_erase. rewrite bool_decide_eq_true_2 by done. split; [done|].
      intros k' Hk'. by rewrite bool_decide_eq_false_2.
    - exists (map_assign k (merged v (default JNull (map_find k C))) C).
      destruct (Hv (default JNull (map_find k C))) as [Hr Hsr].
      { destruct (map_find k C) eqn:E; [|done]. by eapply maps_sorted_find. }
      unfold subscript_member. rewrite Hr. split; [done|]. split; [by apply maps_sorted_assign|].
      setoid_rewrite map_find_assign. rewrite bool_decide_eq_true_2 by done. split; [done|].
      intros k' Hk'. by rewrite bool_decide_eq_false_2. }
  destruct (IH Hs' C1 H2) as (C' & H5 & H6 & H7). exists C'. split; [|split; [done|]].
  - cbn. unfold mbind, jact_bind in *. by rewrite H1.
  - intros k'. rewrite H7. cbn. case_bool_decide as E; [subst k'; by rewrite Hk|]. by rewrite H4.
Qed.

(** On an object, [merge_patch] is the loop. *)
Lemma merge_patch_object ms t :
  merge_patch (JObject ms) t = merge_members ms (JObject (target_members t)).
Proof. by destruct t. Qed.

Lemma merge_patch_merges p : maps_sorted p = true → merges p.
Proof.
  induction p as [|ms IH|es _|s|b|z|z|l|d u|] using json_induction; intros Hp t Ht;
    try by split.
  assert (Forall (λ m, merges m.2) ms) as Hms.
  { apply maps_sorted_object in Hp as [_ Hp]. rewrite Forall_forall in *. intros m Hm. apply IH; [done|by apply Hp]. }
  apply maps_sorted_object in Hp as [Hp _].
  destruct (merge_members_run ms Hms Hp (target_members t)) as (C' & H1 & H2 & _); [by destruct t|].
  unfold merged. by rewrite merge_patch_object, H1.
Qed.

Lemma merged_object ms t :
  maps_sorted (JObject ms) = true → maps_sorted t = true →
  ∃ C', merged (JObject ms) t = JObject C' ∧ maps_sorted (JObject C') = true ∧
    ∀ k, map_find k C' = match map_find k ms with
                         | Some v => if is_null v then None
                                     else Some (merged v (default JNull (map_find k (target_members t))))
                         | None => map_find k (target_members t)
                         end.
Proof.
  intros Hp Ht. assert (Forall (λ m, merges m.2) ms) as Hms.
  { apply maps_sorted_object in Hp as [_ Hp]. eapply Forall_impl; [exact Hp|]. intros m. apply merge_patch_merges. }
  apply maps_sorted_object in Hp as [Hp _].
  destruct (merge_members_run ms Hms Hp (target_members t)) as (C' & H1 & H2 & H3); [by destruct t|].
  exists C'. unfold merged. by rewrite merge_patch_object, H1.
Qed.

Lemma merged_twice p t : maps_sorted p = true → maps_sorted t = true → merged p (merged p t) = merged p t.
Proof.
  revert t. induction p as [|ms IH|es _|s|b|z|z|l|d u|] using json_induction; intros t Hp Ht; try done.
  destruct (merged_object ms t Hp Ht) as (C1 & E1 & Hs1 & H1).
  rewrite E1. destruct (merged_object ms (JObject C1) Hp Hs1) as (C2 & E2 & Hs2 & H2). rewrite E2. f_equal.
  pose proof Hs1 as [Hk1 _]%maps_sorted_object. pose proof Hs2 as [Hk2 _]%maps_sorted_object.
  assert (Forall2 (λ x y, x.1 = y.1 ∧ x.2 = y.2) C2 C1) as Hf.
  { apply (map_Forall2 (=)); [done..|]. intros k. rewrite H2. cbn [target_members]. rewrite H1.
    destruct (map_find k ms) as [v|] eqn:Ek; [|destruct (map_find k (target_members t)); by constructor].
    destruct (is_null v); constructor. rewrite Forall_forall in IH.
    apply (IH _ (map_find_Some _ _ _ Ek)); [exact (maps_sorted_find k v ms Hp Ek)|].
    destruct (map_find k (target_members t)) eqn:Et; [|done].
    destruct t; try done. exact (maps_sorted_find _ _ _ Ht Et). }
  clear -Hf. induction Hf as [|[k v] [k' v'] C2 C1 [??] _ IH]; [done|]. cbn in *. by subst.
Qed.

(** C25 (functional): merging a patch never throws.  A patch that is not an object replaces
    the target; an object removes the members it holds [null] for, merges its other members
    into those of the target, taken to be an empty object if it is none, and leaves the
    rest alone.  Merging the same patch again changes nothing. *)
Theorem merge_patch_spec p t :
  maps_sorted p = true → maps_sorted t = true →
  merge_patch p t = (DOk tt, merged p t) ∧ merged p (merged p t) = merged p t ∧
  match p with
  | JObject ms =>
      ∃ rs, merged p t = JObject rs ∧ sorted_keys rs = true ∧
        ∀ k, map_find k rs = match map_find k ms with
                             | Some JNull => None
                             | Some v => Some (merged v (default JNull (map_find k (target_members t))))
                             | None => map_find k (target_members t)
                             end
  | _ => merged p t = p
  end.
Proof.
  intros Hp Ht. split; [by apply merge_patch_merges|]. split; [by apply merged_twice|].
  destruct p as [|ms| | | | | | | |]; try done. destruct (merged_object ms t Hp Ht) as (rs & H1 & H2 & H3).
  exists rs. split; [done|]. apply maps_sorted_object in H2 as [H2 _]. split; [done|].
  intros k. rewrite H3. destruct (map_find k ms) as [[]|]; done.
Qed.

Lemma merge_patch_spec_witness :
  let p := JObject [(b#"a", JNull); (b#"b", JObject [(b#"c", JUnsigned 1)])] in
  let t := JObject [(b#"a", JNull); (b#"d", JArray [])] in
  merge_patch p t = (DOk tt, merged p t) ∧ merged p (merged p t) = merged p t.
Proof.
  intros p t. destruct (merge_patch_spec p t) as (H1 & H2 & _); [vm_compute; reflexivity..|]. by split.
Defined.
