(* ===== verification/JsonRoundTrip.v ===== *)
(** * JsonRoundTrip: reading back what the serializer writes

    The parser as a function of the sequence of tokens, and the tokens of the text that
    [dump] writes for a value; together, [json::parse] reads back every value that has
    an exact text, compact or indented, escaped to ASCII or not. *)

From S2P Require Import Prelude CString Prog Utf8 JsonValue JsonLexer JsonParser JsonDump.
From S2P Require Import JsonStrings JsonNumbers.

(** ** Values and their tokens *)

Fixpoint separated (items : list (list token)) : list token :=
  match items with
  | [] => []
  | ts :: items' => ts ++ match items' with [] => [] | _ => value_separator :: separated items' end
  end.

Fixpoint tokens (j : json) : list token :=
  match j with
  | JNull => [literal_null]
  | JObject ms =>
      begin_object :: separated ((λ '(k, v), value_string k :: name_separator :: tokens v) <$> ms)
      ++ [end_object]
  | JArray es => begin_array :: separated (tokens <$> es) ++ [end_array]
  | JString s => [value_string s]
  | JBoolean b => [if b then literal_true else literal_false]
  | JInteger z | JUnsigned z => [integer_token z]
  | JFloat l => [value_float l]
  | JBinary _ _ | JDiscarded => []
  end.

(** What the parser builds for an integer depends on its sign only. *)
Fixpoint norm (j : json) : json :=
  match j with
  | JObject ms => JObject ((λ '(k, v), (k, norm v)) <$> ms)
  | JArray es => JArray (norm <$> es)
  | JInteger z | JUnsigned z => if z <? 0 then JInteger z else JUnsigned z
  | _ => j
  end.

Lemma norm_object ms : norm (JObject ms) = JObject (prod_map id norm <$> ms).
Proof. cbn. f_equal. apply list_fmap_ext. by intros ? [k v] _. Qed.

(** Values with an exact text: keys in order (as in every [std::map]), strings in UTF-8,
    integers of 64 bits; no floating-point numbers, binary data or discarded values. *)
#[warnings="-register-all"]
Inductive printable : json → Prop :=
| printable_null : printable JNull
| printable_object ms :
    sorted_keys ms = true → Forall (λ m, utf8_valid m.1) ms → Forall (λ m, printable m.2) ms →
    printable (JObject ms)
| printable_array es : Forall printable es → printable (JArray es)
| printable_string s : utf8_valid s → printable (JString s)
| printable_boolean b : printable (JBoolean b)
| printable_integer z : - 2 ^ 63 ≤ z < 2 ^ 63 → printable (JInteger z)
| printable_unsigned z : 0 ≤ z < 2 ^ 64 → printable (JUnsigned z).

Create HintDb json discriminated.
#[export] Hint Constructors printable : json.

(** [lexes ts s rest]: the next tokens of [s] are [ts], and [rest] is left. *)
Inductive lexes : list token → bytes → bytes → Prop :=
| lexes_nil s : lexes [] s s
| lexes_cons t ts s s1 rest :
    scan false false s = Some (Token t s1) → lexes ts s1 rest → lexes (t :: ts) s rest.
#[export] Hint Constructors lexes : json.

Lemma lexes_app ts us s s1 rest : lexes ts s s1 → lexes us s1 rest → lexes (ts ++ us) s rest.
Proof. induction 1; cbn; eauto with json. Qed.

Lemma lexes_app_inv ts us s rest : lexes (ts ++ us) s rest → ∃ s1, lexes ts s s1 ∧ lexes us s1 rest.
Proof.
  revert s. induction ts as [|t ts IH]; intros s H; [by eexists; split; [constructor|]|].
  inversion H; subst. edestruct IH as (s2 & ? & ?); [done|]. eauto with json.
Qed.

(** ** The parser on tokens *)

(** The result of the loop when it continues with [r]. *)
Definition finishes (r : parse_step) (P : parser + exn → Prop) : Prop :=
  match r with
  | PContinue skip p => ∃ fuel res, sax_parse_internal fuel skip p = Some res ∧ P res
  | PReturn p => P (inl p)
  | PThrow e => P (inr e)
  | PNoFuel => False
  end.

Lemma finishes_round skip p P : finishes (parse_round skip p) P → finishes (PContinue skip p) P.
Proof.
  intros H. cbn. destruct (parse_round skip p) eqn:E; cbn in H; [|exists 1%nat..|done].
  - destruct H as (fuel & res & Hr & HP). exists (S fuel), res. cbn. by rewrite E.
  - eexists. cbn. by rewrite E.
  - eexists. cbn. by rewrite E.
Qed.

Lemma with_token_scan s t s1 k : scan false false s = Some (Token t s1) → with_token s k = k t s1.
Proof. intros H. unfold with_token, get_token. by rewrite H. Qed.

(** [j] is read by the parser: from its first token on, whatever is open. *)
Definition parses (j : json) : Prop :=
  ∀ t ts s rest sts d P,
    tokens j = t :: ts → lexes ts s rest →
    (∀ t', finishes (evaluate_state rest t' sts (handle_value (norm j) d)) P) →
    finishes (parse_value (mkParser s t sts d)) P.

Lemma printable_tokens j : printable j → ∃ t ts, tokens j = t :: ts ∧ t ≠ end_array.
Proof.
  destruct 1; cbn; eauto; [by destruct b; eauto|..]; unfold integer_token; by destruct (_ <? _); eauto.
Qed.

(** The tokens of the remaining elements, and those of the remaining members. *)
Lemma parses_elements es : Forall printable es → Forall parses es → ∀ es0 t ts s rest sts d P,
  es ≠ [] → separated (tokens <$> es) = t :: ts → lexes (ts ++ [end_array]) s rest →
  (∀ t', finishes (evaluate_state rest t' sts (handle_value (JArray (es0 ++ (norm <$> es))) d)) P) →
  finishes (parse_value (mkParser s t (true :: sts) (mkDom (FArray es0 :: ref_stack d) (root d)))) P.
Proof.
  intros Hpr. induction 1 as [|j es Hj _ IH]; intros es0 t ts s rest sts d P Hne Ht Hl HP; [done|].
  inversion Hpr as [|? ? Hpj Hpes]; subst. clear Hne.
  destruct (printable_tokens j Hpj) as (tj & tsj & Htj & _).
  cbn [fmap list_fmap separated] in Ht. rewrite Htj in Ht. cbn [app] in Ht. injection Ht as <- <-.
  rewrite <- app_assoc in Hl. apply lexes_app_inv in Hl as (s1 & Hl1 & Hl2).
  eapply Hj; [done|done|]. intros t'. cbn [evaluate_state handle_value ref_stack root].
  destruct es as [|j2 es]; cbn [fmap list_fmap app] in Hl2.
  - inversion Hl2 as [|? ? ? ? ? Hs Hl3]; subst. inversion Hl3; subst.
    rewrite (with_token_scan _ _ _ _ Hs). cbn. apply finishes_round. by cbn; destruct d.
  - inversion Hl2 as [|? ? ? ? ? Hs Hl3]; subst.
    rewrite (with_token_scan _ _ _ _ Hs). cbn [bool_decide].
    inversion Hpes as [|? ? Hpj2 _]; subst. destruct (printable_tokens j2 Hpj2) as (t2 & ts2 & Ht2 & _).
    destruct (separated (tokens <$> j2 :: es)) as [|t3 ts3] eqn:Hsep; [by cbn in Hsep; rewrite Ht2 in Hsep|].
    cbn in Hsep. rewrite Hsep in Hl3. cbn [app] in Hl3. inversion Hl3 as [|? ? ? ? ? Hs2 Hl4]; subst.
    rewrite bool_decide_eq_true_2 by done.
    rewrite (with_token_scan _ _ _ _ Hs2). apply finishes_round. unfold parse_round.
    eapply IH; [done|done|done|done|]. intros t4. rewrite <- app_assoc. by apply HP.
Qed.

Definition member_tokens : bytes * json → list token := λ '(k, v), value_string k :: name_separator :: tokens v.
Definition norm_member : bytes * json → bytes * json := λ '(k, v), (k, norm v).

(** In an object under construction the next key is the largest. *)
Lemma map_assign_norm_last k j ms0 ms :
  sorted_keys (ms0 ++ (k, j) :: ms) = true →
  map_assign k (norm j) (norm_member <$> ms0) = norm_member <$> (ms0 ++ [(k, j)]).
Proof.
  intros Hs%sorted_keys_before. rewrite map_assign_last; [by rewrite fmap_app|]. apply Forall_fmap.
  eapply Forall_impl; [exact Hs|]. by intros [].
Qed.

(** A key, the colon and the value, up to the state evaluation that follows. *)
Lemma parses_member k j s0 rest sts d P :
  printable j → parses j → lexes (name_separator :: tokens j) s0 rest →
  (∀ t', finishes (evaluate_state rest t' sts (handle_value (norm j) (key k d))) P) →
  finishes (parse_key k s0 sts d) P.
Proof.
  intros Hpr Hj Hl HP. unfold parse_key. inversion Hl as [|? ? ? ? ? Hs Hl2]; subst.
  rewrite (with_token_scan _ _ _ _ Hs). rewrite bool_decide_eq_true_2 by done.
  destruct (printable_tokens j Hpr) as (tj & tsj & Htj & _). rewrite Htj in Hl2.
  inversion Hl2 as [|? ? ? ? ? Hs2 Hl3]; subst. rewrite (with_token_scan _ _ _ _ Hs2).
  apply finishes_round. by eapply Hj.
Qed.

Lemma parses_members ms : Forall (λ m, printable m.2) ms → Forall (λ m, parses m.2) ms →
  ∀ k j ms0 ko s rest sts d P,
  printable j → parses j →
  sorted_keys (ms0 ++ (k, j) :: ms) = true →
  lexes (name_separator :: tokens j ++
         (match ms with [] => [] | _ => value_separator :: separated (member_tokens <$> ms) end)
         ++ [end_object]) s rest →
  (∀ t', finishes (evaluate_state rest t' sts
     (handle_value (JObject (norm_member <$> (ms0 ++ (k, j) :: ms))) d)) P) →
  finishes (parse_key k s (false :: sts)
    (mkDom (FObject (norm_member <$> ms0) ko :: ref_stack d) (root d))) P.
Proof.
  intros Hpr. induction 1 as [|[k2 j2] ms Hj2 _ IH]; intros k j ms0 ko s rest sts d P Hpj Hj Hsort Hl HP;
    rewrite app_comm_cons in Hl; apply lexes_app_inv in Hl as (s1 & Hl1 & Hl2);
    (eapply parses_member; [done|done|done|]); intros t'; cbn [evaluate_state key handle_value ref_stack root].
  - inversion Hl2 as [|? ? ? ? ? Hs Hl3]; subst. inversion Hl3; subst.
    rewrite (with_token_scan _ _ _ _ Hs). cbn. apply finishes_round. unfold parse_round. cbn.
    rewrite (map_assign_norm_last _ _ _ []) by done. by destruct d.
  - inversion Hpr as [|? ? Hpj2 Hpms]; subst. cbn [app] in Hl2.
    inversion Hl2 as [|? ? ? ? ? Hs Hl3]; subst.
    rewrite (with_token_scan _ _ _ _ Hs). rewrite bool_decide_eq_true_2 by done.
    cbn in Hl3. inversion Hl3 as [|? ? ? ? ? Hs2 Hl4]; subst.
    rewrite (with_token_scan _ _ _ _ Hs2).
    rewrite (map_assign_norm_last _ _ _ ((k2, j2) :: ms)) by done.
    apply (IH Hpms k2 j2 (ms0 ++ [(k, j)]) (Some k) _ rest); [done|done|by rewrite <- app_assoc| |].
    + rewrite <- app_assoc in Hl4. destruct ms; exact Hl4.
    + intros t4. rewrite <- app_assoc. apply HP.
Qed.

Lemma parses_scalar t s sts d v P rest :
  parse_value (mkParser s t sts d) = evaluate_state s t sts (handle_value v d) → rest = s →
  (∀ t', finishes (evaluate_state rest t' sts (handle_value v d)) P) →
  finishes (parse_value (mkParser s t sts d)) P.
Proof. intros -> ->. auto. Qed.

Lemma printable_parses j : printable j → parses j.
Proof.
  induction j as [|ms IH|es IH|s|b|z|z|l|data ty|] using json_induction; intros Hpr;
    inversion Hpr; subst; intros t ts s0 rest sts d P Ht Hl HP; cbn in Ht.
  - injection Ht as <- <-. inversion Hl; subst. by eapply parses_scalar.
  - injection Ht as <- <-. destruct ms as [|[k j] ms].
    + inversion Hl as [|? ? ? ? ? Hs Hl2]; subst. inversion Hl2; subst.
      cbn. rewrite (with_token_scan _ _ _ _ Hs). cbn. destruct d. apply HP.
    + cbn in Hl. inversion Hl as [|? ? ? ? ? Hs Hl2]; subst.
      cbn [parse_value last_token m_lexer states sax]. rewrite (with_token_scan _ _ _ _ Hs).
      match goal with H : Forall (λ m, printable m.2) _ |- _ => rename H into Hps end.
      inversion Hps as [|? ? Hpj Hpms]; inversion IH as [|? ? Hj Hms]; subst.
      assert (Forall (λ m, parses m.2) ms) as Hpar by (rewrite Forall_forall in Hms, Hpms |- *; eauto).
      apply (parses_members ms Hpms Hpar k j [] None _ rest sts d P); [done|auto|done| |done].
      rewrite <- app_assoc in Hl2. destruct ms; exact Hl2.
  - injection Ht as <- <-. destruct es as [|j es].
    + inversion Hl as [|? ? ? ? ? Hs Hl2]; subst. inversion Hl2; subst.
      cbn. rewrite (with_token_scan _ _ _ _ Hs). cbn. destruct d. apply HP.
    + cbn [parse_value last_token m_lexer states sax].
      match goal with H : Forall printable _ |- _ => rename H into Hps end.
      inversion Hps as [|? ? Hpj _]; subst. destruct (printable_tokens j Hpj) as (tj & tsj & Htj & Hne).
      destruct (separated (tokens <$> j :: es)) as [|t2 ts2] eqn:Hsep; [by cbn in Hsep; rewrite Htj in Hsep|].
      assert (t2 = tj) as -> by (cbn in Hsep; rewrite Htj in Hsep; by injection Hsep).
      cbn [app] in Hl. inversion Hl as [|? ? ? ? ? Hs Hl2]; subst.
      rewrite (with_token_scan _ _ _ _ Hs).
      assert (Forall parses (j :: es)) as Hpar.
      { rewrite Forall_forall in IH, Hps |- *. eauto. }
      assert (finishes (parse_value (mkParser s1 tj (true :: sts) (start_array d))) P) as Hfin.
      { by apply (parses_elements (j :: es) Hps Hpar [] tj ts2 s1 rest sts d P). }
      destruct tj; try (by apply finishes_round). done.
  - injection Ht as <- <-. inversion Hl; subst. by eapply parses_scalar.
  - injection Ht as <- <-. inversion Hl; subst. by destruct b; eapply parses_scalar.
  - injection Ht as <- <-. inversion Hl; subst. unfold integer_token. cbn in HP.
    by destruct (z <? 0); eapply parses_scalar.
  - injection Ht as <- <-. inversion Hl; subst. unfold integer_token. cbn in HP.
    by destruct (z <? 0); eapply parses_scalar.
Qed.

(** A text whose first token is not an error has no byte order mark to skip. *)
Lemma scan_first t s s1 : scan false false s = Some (Token t s1) → scan false true s = Some (Token t s1).
Proof.
  intros H. unfold scan in *. replace (skip_bom s) with (Some s); [done|].
  destruct s as [|c s]; [done|]. unfold skip_bom. destruct (Z.eqb_spec (byteZ c) 0xEF) as [Hc|]; [|done].
  exfalso. assert (c = "239"%char) as -> by (apply byteZ_inj; by rewrite Hc).
  revert H. cbn. done.
Qed.

Lemma lexes_parse j s rest :
  printable j → lexes (tokens j ++ [end_of_input]) s rest → json_parse s = inl (norm j).
Proof.
  intros Hp Hl. destruct (printable_tokens j Hp) as (t & ts & Ht & _).
  apply lexes_app_inv in Hl as (s2 & Hl & He). rewrite Ht in Hl.
  inversion Hl as [|? ? ? s1 ? Hs Hl2]; subst. inversion He as [|? ? ? ? ? Hend _]; subst.
  set (P := λ res : parser + exn, ∃ t', res = inl (mkParser s2 t' [] (mkDom [] (norm j)))).
  assert (finishes (PContinue false (mkParser s1 t [] (mkDom [] JNull))) P) as (fuel & res & Hf & t' & ->).
  { apply finishes_round. unfold parse_round.
    apply (printable_parses j Hp t ts s1 s2 [] (mkDom [] JNull) P Ht Hl2). intros t'. by exists t'. }
  apply (parse_json_parse fuel). unfold parse. rewrite (scan_first _ _ _ Hs), Hf. cbn [m_lexer sax root].
  unfold get_token. by rewrite Hend.
Qed.

(** ** The tokens of a text *)

Lemma scan_ws ws s : forallb json_ws ws = true → scan false false (ws ++ s) = scan false false s.
Proof.
  intros Hw. unfold scan. cbn [negb]. f_equal. induction ws as [|c ws IH]; [done|]. cbn in *.
  apply andb_true_iff in Hw as [-> Hw]. auto.
Qed.

Lemma lexes_ws t ts ws s rest :
  forallb json_ws ws = true → lexes (t :: ts) s rest → lexes (t :: ts) (ws ++ s) rest.
Proof. intros Hw H. inversion H; subst. econstructor; [by rewrite scan_ws|done]. Qed.

Lemma scan_begin_object s : scan false false ("{"%char :: s) = Some (Token begin_object s).
Proof. done. Qed.
Lemma scan_end_object s : scan false false ("}"%char :: s) = Some (Token end_object s).
Proof. done. Qed.
Lemma scan_begin_array s : scan false false ("["%char :: s) = Some (Token begin_array s).
Proof. done. Qed.
Lemma scan_end_array s : scan false false ("]"%char :: s) = Some (Token end_array s).
Proof. done. Qed.
Lemma scan_colon s : scan false false (":"%char :: s) = Some (Token name_separator s).
Proof. done. Qed.
Lemma scan_comma s : scan false false (","%char :: s) = Some (Token value_separator s).
Proof. done. Qed.
#[export] Hint Resolve scan_begin_object scan_end_object scan_begin_array scan_end_array scan_colon
  scan_comma : json.

Lemma scan_quoted ensure_ascii cps s :
  Forall (λ cp, scalar cp = true) cps →
  scan false false (QUOTED (escaped ensure_ascii cps) ++ s) = Some (Token (value_string (decoded cps)) s).
Proof.
  intros Hc. unfold QUOTED. cbn [app]. rewrite <- app_assoc. cbn [app].
  rewrite <- (scan_string_text ensure_ascii cps s Hc). done.
Qed.

Lemma scan_token_digit c s :
  isdigit c = true → json_ws c = false ∧ scan_token (c :: s) = Some (scan_number c s).
Proof. by destruct c as [[] [] [] [] [] [] [] []]; intros H; vm_compute in H; try discriminate H. Qed.

Lemma scan_integer x rest :
  - 2 ^ 63 ≤ x < 2 ^ 64 → delimited rest = true →
  scan false false (dec x ++ rest) = Some (Token (integer_token x) rest).
Proof.
  intros Hx Hr. destruct (scan_number_dec x rest Hx Hr) as (c & s & -> & Hc & <-).
  assert (json_ws c = false ∧ scan_token (c :: s) = Some (scan_number c s)) as [Hw Hs].
  { apply orb_true_iff in Hc as [Hc|Hc]; [|by apply scan_token_digit].
    by apply bool_decide_eq_true in Hc as ->. }
  unfold scan. cbn [skip_whitespace]. by rewrite Hw, Hs.
Qed.

Lemma forallb_replicate_ws n : forallb json_ws (replicate n SPC) = true.
Proof. by induction n. Qed.

(** ** What [dump] writes *)

(** The white space at hand is enough for an indentation of [n]. *)
Definition indent_ok (n : Z) (d : dumping) : Prop :=
  512 ≤ blen (indent_string d) ∧ n ≤ blen (indent_string d) ∧ forallb json_ws (indent_string d) = true.

(** [m] writes a text with property [R], at indentations up to [n] before and after. *)
Definition emits (n : Z) (m : dumping → dres dumping) (R : bytes → Prop) : Prop :=
  ∀ d, indent_ok n d → ∃ text d', m d = DOk d' ∧ output d' = output d ++ text ∧
    indent_ok n d' ∧ R text.

Lemma emits_ret n (R : bytes → Prop) : R [] → emits n (λ d, mret d) R.
Proof. intros HR d Hd. exists [], d. by rewrite app_nil_r. Qed.

Lemma emits_write n s (R : bytes → Prop) : R s → emits n (λ d, mret (write s d)) R.
Proof. intros HR d Hd. by exists s, (write s d). Qed.

Lemma emits_bind n m f (R1 R2 R : bytes → Prop) :
  emits n m R1 → emits n f R2 → (∀ s t, R1 s → R2 t → R (s ++ t)) →
  emits n (λ d, d ← m d; f d) R.
Proof.
  intros Hm Hf HR d Hd. destruct (Hm d Hd) as (s & d1 & -> & Ho1 & Hd1 & Hs). cbn [mbind dres_bind].
  destruct (Hf d1 Hd1) as (t & d2 & -> & Ho2 & Hd2 & Ht).
  exists (s ++ t), d2. rewrite Ho2, Ho1, app_assoc. auto.
Qed.

Lemma emits_write_then n s m (R1 R : bytes → Prop) :
  emits n m R1 → (∀ t, R1 t → R (s ++ t)) → emits n (λ d, m (write s d)) R.
Proof.
  intros Hm HR d Hd. destruct (Hm (write s d) Hd) as (t & d' & -> & Ho & Hd' & Ht).
  exists (s ++ t), d'. rewrite Ho. cbn. rewrite app_assoc. auto.
Qed.

Lemma emits_indent n k :
  0 ≤ k ≤ n → emits n (write_indent k) (λ s, forallb json_ws s = true).
Proof.
  intros Hk d (H512 & Hn & Hw). unfold write_indent.
  destruct (Z.ltb_spec (blen (indent_string d) + 1) k); [lia|].
  rewrite take_app_le by (unfold blen in *; lia).
  eexists _, _. split; [done|]. split; [done|]. split; [by repeat split|].
  rewrite <- (take_drop (Z.to_nat k) (indent_string d)), forallb_app in Hw.
  by apply andb_true_iff in Hw as [? _].
Qed.

(** More indentation than there ever was. *)
Lemma emits_grow n k s m (R1 R : bytes → Prop) :
  k ≤ n + 512 → emits (n `max` k) m R1 → (∀ t, R1 t → R (s ++ t)) →
  emits n (λ d, m (grow_indent k (write s d))) R.
Proof.
  intros Hk Hm HR d (H512 & Hn & Hw).
  assert (indent_ok (n `max` k) (grow_indent k (write s d))) as Hok.
  { unfold grow_indent. cbn. destruct (Z.ltb_spec (blen (indent_string d)) k); cbn.
    - unfold indent_ok. cbn. rewrite blen_app. unfold blen in *. rewrite length_replicate.
      split; [lia|]. split; [lia|]. rewrite forallb_app, Hw. apply forallb_replicate_ws.
    - split; [done|]. split; [cbn; lia|done]. }
  destruct (Hm _ Hok) as (t & d' & -> & Ho & (? & ? & ?) & Ht).
  exists (s ++ t), d'. rewrite Ho, app_assoc. split; [done|]. split; [|split; [|auto]].
  - unfold grow_indent. cbn. by destruct (_ <? _).
  - split; [done|]. split; [lia|done].
Qed.

(** [text] stands for [ts] before anything that may follow a value. *)
Definition renders (ts : list token) (text : bytes) : Prop :=
  ∀ rest, delimited rest = true → lexes ts (text ++ rest) rest.

Lemma renders_ws ts ws text : ts ≠ [] → forallb json_ws ws = true → renders ts text → renders ts (ws ++ text).
Proof.
  intros Hts Hw Ht rest Hr. destruct ts as [|t ts]; [done|]. rewrite <- app_assoc. apply lexes_ws; auto.
Qed.

(** A symbol, white space, and more. *)
Lemma renders_symbol c t ws ts text :
  (∀ s, scan false false (c :: s) = Some (Token t s)) → forallb json_ws ws = true → ts ≠ [] →
  renders ts text → renders (t :: ts) (c :: ws ++ text).
Proof.
  intros Hc Hw Hts Ht rest Hr. cbn [app]. econstructor; [apply Hc|]. by apply renders_ws.
Qed.

Lemma delimited_comma s : delimited (","%char :: s) = true.
Proof. done. Qed.

Lemma emits_items {A} n (item : A → dumping → dres dumping) (f : A → list token) ws l :
  forallb json_ws ws = true → l ≠ [] →
  Forall (λ x, f x ≠ [] ∧ emits n (item x) (renders (f x))) l →
  emits n (dump_items item (","%char :: ws) l) (renders (separated (f <$> l))).
Proof.
  intros Hw Hne. induction 1 as [|x l [Hx Hix] Hl IH]; [done|].
  change (emits n (λ d, d ← item x d;
    match l with [] => mret d | _ => dump_items item (","%char :: ws) l (write (","%char :: ws) d) end)
    (renders (separated (f <$> x :: l)))).
  destruct l as [|y l].
  - eapply emits_bind; [done|by apply (emits_ret n (λ s, s = []))|].
    intros s t Hs -> rest Hr. cbn. rewrite !app_nil_r. auto.
  - eapply emits_bind; [done| |].
    + eapply (emits_write_then n _ _ _ (λ t, (∃ t', t = ","%char :: t') ∧
        renders (value_separator :: separated (f <$> y :: l)) t)); [by apply IH|].
      intros t Ht. split; [by eexists|]. apply renders_symbol; auto with json.
      apply Forall_inv in Hl as [Hy _]. cbn. by destruct (f y).
    + intros s t Hs [[t' ->] Ht] rest Hr. rewrite <- app_assoc. cbn [fmap list_fmap separated].
      eapply lexes_app; [by apply Hs|by apply Ht].
Qed.

Section emits_dump.
Context `{FloatText} (h : error_handler_t) (ensure_ascii : bool) (indent_step : Z).
Hypothesis Hstep : 0 ≤ indent_step ≤ 512.

Lemma emits_key n k ws m ts :
  utf8_valid k → forallb json_ws ws = true → ts ≠ [] → emits n m (renders ts) →
  emits n (λ d, d ← dump_key h ensure_ascii k (":"%char :: ws) d; m d)
    (renders (value_string k :: name_separator :: ts)).
Proof.
  intros (cps & Hcps & ->) Hws Hts Hm. change (concat _) with (decoded cps).
  apply (emits_bind n _ _ (λ s, s = QUOTED (escaped ensure_ascii cps) ++ ":"%char :: ws) (renders ts)).
  - intros d Hd. unfold dump_key. rewrite dump_escaped_decoded by done. by eexists _, _.
  - done.
  - intros s t -> Ht rest Hr. rewrite <- !app_assoc. econstructor; [by apply scan_quoted|].
    change ((":"%char :: ws) ++ t ++ rest) with (":"%char :: ws ++ (t ++ rest)). rewrite app_assoc.
    by apply renders_symbol; auto with json.
Qed.

Lemma new_indent_bound cur n :
  0 ≤ cur ≤ n → 0 ≤ wrap 32 (cur + indent_step) ≤ n `max` wrap 32 (cur + indent_step) ∧
    wrap 32 (cur + indent_step) ≤ n + 512.
Proof. intros. unfold wrap. pose proof (Z.mod_le (cur + indent_step) (2 ^ 32)). pose proof (Z.mod_pos_bound (cur + indent_step) (2 ^ 32)). lia. Qed.

(** An indented container: the opening symbol, a line break, the items, a line break,
    the indentation and the closing symbol. *)
Lemma emits_indented {A} n cur open close topen tclose (item : A → dumping → dres dumping) f l k :
  0 ≤ cur ≤ n → k ≤ n + 512 → l ≠ [] →
  (∀ s, scan false false (open :: s) = Some (Token topen s)) →
  (∀ s, scan false false (close :: s) = Some (Token tclose s)) →
  (∀ s, delimited (LF :: s) = true) →
  Forall (λ x, f x ≠ [] ∧ emits (n `max` k) (item x) (renders (f x))) l →
  emits n (λ d, d ← dump_items item (b#"," ++ [LF]) l (grow_indent k (write ([open] ++ [LF]) d));
                d ← write_indent cur (write [LF] d); mret (write [close] d))
    (renders (topen :: separated (f <$> l) ++ [tclose])).
Proof.
  intros Hcur Hk Hl Ho Hc Hd Hitems.
  apply (emits_grow n k ([open] ++ [LF]) (λ d, d ← dump_items item (b#"," ++ [LF]) l d;
    d ← write_indent cur (write [LF] d); mret (write [close] d))
    (renders (separated (f <$> l) ++ [tclose]))); [done| |].
  - eapply (emits_bind _ _ _ _ (λ t, ∃ ws, forallb json_ws ws = true ∧ t = LF :: ws ++ [close]));
      [by apply emits_items| |].
    + apply (emits_write_then _ [LF] (λ d, d ← write_indent cur d; mret (write [close] d))
        (λ t, ∃ ws, forallb json_ws ws = true ∧ t = ws ++ [close])).
      * eapply emits_bind; [apply emits_indent; lia|by apply (emits_write _ _ (λ s, s = [close]))|].
        intros s t Hs ->. by exists s.
      * intros t (ws & Hws & ->). by exists ws.
    + intros s t Hs (ws & Hws & ->) rest Hr. rewrite <- app_assoc. eapply lexes_app; [by apply Hs|].
      cbn [app]. rewrite <- app_assoc. apply (lexes_ws _ _ (LF :: ws)); [done|].
      econstructor; [apply Hc|constructor].
  - intros t Ht. apply (renders_symbol _ _ [LF]); [done|done| |done]. by destruct (separated _).
Qed.

(** A compact container. *)
Lemma emits_compact {A} n open close topen tclose (item : A → dumping → dres dumping) f l :
  l ≠ [] →
  (∀ s, scan false false (open :: s) = Some (Token topen s)) →
  (∀ s, scan false false (close :: s) = Some (Token tclose s)) →
  (∀ s, delimited (close :: s) = true) →
  Forall (λ x, f x ≠ [] ∧ emits n (item x) (renders (f x))) l →
  emits n (λ d, d ← dump_items item b#"," l (write [open] d); mret (write [close] d))
    (renders (topen :: separated (f <$> l) ++ [tclose])).
Proof.
  intros Hl Ho Hc Hd Hitems.
  apply (emits_write_then n [open] (λ d, d ← dump_items item b#"," l d; mret (write [close] d))
    (renders (separated (f <$> l) ++ [tclose]))).
  - eapply emits_bind; [by apply (emits_items n item f [])|by apply (emits_write _ _ (λ s, s = [close]))|].
    intros s t Hs -> rest Hr. rewrite <- app_assoc. eapply lexes_app; [apply Hs, Hd|].
    econstructor; [apply Hc|constructor].
  - intros t Ht. apply (renders_symbol _ _ []); [done|done| |done]. by destruct (separated _).
Qed.

Lemma tokens_ne j : printable j → tokens j ≠ [].
Proof. intros Hp. by destruct (printable_tokens j Hp) as (t & ts & -> & _). Qed.

Lemma dump_emits j : printable j → ∀ pretty_print cur n, 0 ≤ cur ≤ n →
  emits n (dump h ensure_ascii indent_step pretty_print j cur) (renders (tokens j)).
Proof.
  assert (∀ c t n s, (∀ rest, lexes [t] (c :: s ++ rest) rest) →
    emits n (λ d, mret (write (c :: s) d)) (renders [t])) as Hlit.
  { intros c t n s Hs. apply emits_write. intros rest _. apply Hs. }
  assert (∀ z n, - 2 ^ 63 ≤ z < 2 ^ 64 →
    emits n (λ d, mret (write (dump_integer (zeros 64) z) d)) (renders [integer_token z])) as Hint.
  { intros z n Hz. apply emits_write. intros rest Hr. rewrite dump_integer_dec by done.
    econstructor; [by apply scan_integer|constructor]. }
  induction j as [|ms IH|es IH|s|b|z|z|l|data ty|] using json_induction; intros Hp pp cur n Hcur;
    inversion Hp as [|? Hsort Hk Hms|? Hes|? Hs| |? Hz|? Hz]; subst; cbn [tokens].
  - apply Hlit. intros rest. eauto with json.
  - destruct (new_indent_bound cur n Hcur) as [Hi1 Hi2]. destruct ms as [|m ms].
    { apply emits_write. intros rest _. repeat econstructor. }
    rewrite Forall_forall in IH, Hk, Hms. destruct pp.
    + apply (emits_indented n cur "{"%char "}"%char); try done. apply Forall_forall.
      intros [k v] Hin. split; [done|].
      eapply emits_bind; [by apply emits_indent| |].
      * apply emits_key; [by apply (Hk _ Hin)|done|by apply tokens_ne, (Hms _ Hin)|].
        apply (IH _ Hin); [by apply (Hms _ Hin)|done].
      * intros s t Hs Ht. by apply renders_ws.
    + apply (emits_compact n "{"%char "}"%char); try done. apply Forall_forall.
      intros [k v] Hin. split; [done|].
      apply (emits_key _ _ []); [by apply (Hk _ Hin)|done|by apply tokens_ne, (Hms _ Hin)|].
      apply (IH _ Hin); [by apply (Hms _ Hin)|done].
  - destruct (new_indent_bound cur n Hcur) as [Hi1 Hi2]. destruct es as [|e es].
    { apply emits_write. intros rest _. repeat econstructor. }
    rewrite Forall_forall in IH, Hes. destruct pp.
    + apply (emits_indented n cur "["%char "]"%char); try done. apply Forall_forall.
      intros v Hin. split; [by apply tokens_ne, Hes|].
      eapply emits_bind; [by apply emits_indent|by apply (IH _ Hin); [apply Hes|]|].
      intros s t Hs Ht. apply renders_ws; [by apply tokens_ne, Hes|done..].
    + apply (emits_compact n "["%char "]"%char); try done. apply Forall_forall.
      intros v Hin. split; [by apply tokens_ne, Hes|]. by apply (IH _ Hin); [apply Hes|].
  - destruct Hs as (cps & Hcps & ->). change (concat _) with (decoded cps).
    intros d Hd. cbn [dump]. rewrite dump_escaped_decoded by done.
    eexists _, _. split; [done|]. split; [done|]. split; [done|].
    intros rest Hr. econstructor; [by apply scan_quoted|constructor].
  - destruct b; apply Hlit; intros rest; eauto with json.
  - apply Hint. lia.
  - apply Hint. lia.
Qed.
End emits_dump.

(** The text of a printable value, and its tokens. *)
Lemma json_dump_renders `{FloatText} j indent indent_char ensure_ascii h :
  printable j → indent ≤ 512 → json_ws indent_char = true →
  ∃ text, json_dump j indent indent_char ensure_ascii h = DOk text ∧ renders (tokens j) text.
Proof.
  intros Hp Hi Hc. unfold json_dump.
  assert (indent_ok 0 (mkDumping [] (replicate 512 indent_char))) as Hok.
  { split; [done|]. split; [done|]. cbn [indent_string].
    induction (512%nat) as [|k IH]; [done|]. cbn. by rewrite Hc. }
  destruct (Z.leb_spec 0 indent).
  - destruct (dump_emits h ensure_ascii (wrap 32 indent) ltac:(unfold wrap; rewrite Z.mod_small; lia)
      j Hp true 0 0 ltac:(lia) _ Hok) as (text & d' & -> & Ho & _ & Hr).
    exists text. by cbn in *; rewrite Ho.
  - destruct (dump_emits h ensure_ascii 0 ltac:(lia) j Hp false 0 0 ltac:(lia) _ Hok)
      as (text & d' & -> & Ho & _ & Hr).
    exists text. by cbn in *; rewrite Ho.
Qed.

(** What may follow the text of a message in a receive buffer. *)
Definition ends_input (rest : bytes) : bool :=
  match skip_whitespace rest with c :: _ => bool_decide (c = NUL) | [] => true end.

Lemma ends_input_lexes rest : ends_input rest = true → ∃ r, lexes [end_of_input] rest r.
Proof.
  unfold ends_input. intros H. assert (∃ r, scan false false rest = Some (Token end_of_input r)) as [r Hr].
  { unfold scan. destruct (skip_whitespace rest) as [|c s]; [by eexists|].
    apply bool_decide_eq_true in H as ->. by eexists. }
  eauto with json.
Qed.

Lemma ends_input_delimited rest : ends_input rest = true → delimited rest = true.
Proof.
  destruct rest as [|c s]; [done|]. unfold ends_input. cbn [skip_whitespace].
  destruct (json_ws c) eqn:E; intros H.
  - clear H. revert E. by destruct c as [[] [] [] [] [] [] [] []].
  - by apply bool_decide_eq_true in H as ->.
Qed.

Lemma json_parse_dump `{FloatText} j indent indent_char ensure_ascii h :
  printable j → indent ≤ 512 → json_ws indent_char = true →
  ∃ text, json_dump j indent indent_char ensure_ascii h = DOk text ∧
    ∀ rest, ends_input rest = true → json_parse (text ++ rest) = inl (norm j).
Proof.
  intros Hp Hi Hc. destruct (json_dump_renders j indent indent_char ensure_ascii h Hp Hi Hc) as (text & Ht & Hr).
  exists text. split; [done|]. intros rest Hrest. destruct (ends_input_lexes rest Hrest) as [r Hl].
  apply (lexes_parse j _ r Hp). eapply lexes_app; [|done]. by apply Hr, ends_input_delimited.
Qed.

(** ** Property *)

(** C9 (roundtrip): the text of a value without floating-point numbers, binary data and discarded
    values, whose strings and keys are valid UTF-8, whose integers fit 64 bits and whose objects
    are [std::map]s (keys in order), is read back by [json::parse] as that value, up to the
    sign class of its integers: the text written compact or indented by at most 512 white-space
    characters a level, with or without escaping to ASCII, under any error handler, and also when only white
    space or the zero bytes of a receive buffer follow it. *)
Theorem json_roundtrip `{FloatText} j indent indent_char ensure_ascii h :
  printable j → indent ≤ 512 → json_ws indent_char = true →
  ∃ text, json_dump j indent indent_char ensure_ascii h = DOk text ∧
    ∀ rest, ends_input rest = true → json_parse (text ++ rest) = inl (norm j).
Proof. apply json_parse_dump. Qed.

Definition sample : json :=
  JObject [(b#"candidates", JArray [JString (decoded [0x63; 0xE9; 0x0A])]); (b#"n", JInteger (- 2 ^ 63));
           (b#"ok", JArray [JBoolean true; JNull; JObject []])].

Lemma json_roundtrip_witness (f := (λ l, l) : FloatText) :
  ∃ text, json_dump sample 2 SPC true strict = DOk text ∧
    json_parse (text ++ zeros 3) = inl (norm sample).
Proof.
  destruct (json_roundtrip sample 2 SPC true strict) as (text & Ht & Hr).
  - repeat (constructor || lia); try (by exists []); try (exists [0x63; 0xE9; 0x0A]; by repeat constructor).
    + exists (byteZ <$> b#"candidates"). by split; [repeat constructor|].
    + exists (byteZ <$> b#"n"). by split; [repeat constructor|].
    + exists (byteZ <$> b#"ok"). by split; [repeat constructor|].
  - lia.
  - reflexivity.
  - exists text. split; [exact Ht|]. apply Hr. reflexivity.
Defined.
