(* ===== verification/JsonParsed.v ===== *)
(** * JsonParsed: what the parser gives

    Every token the lexer gives is well formed: strings are valid UTF-8, integers fit in
    64 bits, numbers follow the grammar of RFC 8259; so every value that [json::parse]
    returns is well formed, and its text is read back as the same value. *)

From S2P Require Import Prelude CString Prog Utf8 JsonValue JsonLexer JsonParser JsonDump.
From S2P Require Import JsonNumbers JsonRoundTrip.

(** ** Strings *)

Lemma utf8_valid_nil : utf8_valid [].
Proof. by exists []. Qed.

Lemma utf8_valid_app s t : utf8_valid s → utf8_valid t → utf8_valid (s ++ t).
Proof.
  intros (a & Ha & ->) (b & Hb & ->). exists (a ++ b). split; [by apply Forall_app|].
  by rewrite fmap_app, concat_app.
Qed.

Lemma utf8_valid_encode cp : scalar cp = true → utf8_valid (utf8_encode cp).
Proof. intros Hcp. exists [cp]. split; [by constructor|]. cbn. by rewrite app_nil_r. Qed.

Lemma utf8_valid_character c t : character c t → utf8_valid (c :: t).
Proof. intros [Hs <-]%character_encode. by apply utf8_valid_encode. Qed.

Lemma utf8_valid_ascii c : byteZ c < 128 → utf8_valid [c].
Proof.
  intros Hc. apply utf8_valid_character. exists []. split; [|done].
  rewrite ranges_step_lead by apply byteZ_range. unfold lead_spec. by rewrite (proj2 (Z.ltb_lt _ _)).
Qed.

Lemma surrogate_pair_scalar c1 c2 :
  0xD800 ≤ c1 ≤ 0xDBFF → 0xDC00 ≤ c2 ≤ 0xDFFF → scalar (surrogate_pair c1 c2) = true.
Proof.
  intros H1 H2. unfold surrogate_pair, wrap. rewrite Z.shiftl_mul_pow2 by lia.
  rewrite (Z.mod_small (c1 * 2 ^ 10)) by lia. rewrite Z.mod_small by lia. unfold scalar. zify_bools; lia.
Qed.

Lemma scan_unicode_valid s added rest : scan_unicode s = SMore added rest → utf8_valid added.
Proof.
  unfold scan_unicode. destruct (get_codepoint s) as [[c1 s1]|] eqn:E1; [|done].
  apply get_codepoint_range in E1. destruct ((0xD800 <=? c1) && _) eqn:Eh.
  - destruct s1 as [|a [|b s1]]; [done..|]. destruct (bool_decide _ && bool_decide _); [|done].
    destruct (get_codepoint s1) as [[c2 s2]|] eqn:E2; [|done]. destruct ((0xDC00 <=? c2) && _) eqn:El; [|done].
    intros [= <- _]. apply utf8_valid_encode, surrogate_pair_scalar; split_bools; lia.
  - destruct ((0xDC00 <=? c1) && _) eqn:El; [done|]. intros [= <- _]. apply utf8_valid_encode.
    unfold scalar. zify_bools; lia.
Qed.

Lemma scan_escape_valid s added rest : scan_escape s = SMore added rest → utf8_valid added.
Proof.
  destruct s as [|c s]; [done|]. cbn [scan_escape].
  repeat (case_bool_decide; [intros [= <- _]; by apply utf8_valid_ascii|]).
  case_bool_decide; [apply scan_unicode_valid|done].
Qed.

Lemma scan_string_char_valid s added rest : scan_string_char s = SMore added rest → utf8_valid added.
Proof.
  destruct s as [|c s]; [done|]. cbn [scan_string_char]. case_bool_decide; [done|].
  case_bool_decide; [apply scan_escape_valid|]. destruct (byteZ c <? 0x20) eqn:E; [done|].
  destruct (string_ranges (byteZ c)) as [r|] eqn:Er; [|done].
  destruct (next_byte_in_range r s) as [[t s']|] eqn:En; [|done]. intros [= <- _].
  apply next_byte_in_range_parts in En as (_ & Ht & _). apply utf8_valid_character. exists r. split; [|done].
  unfold ranges_step. by rewrite E.
Qed.

Lemma scan_string_loop_valid fuel buf s t rest :
  utf8_valid buf → scan_string_loop fuel buf s = Some (Token t rest) → ∃ v, t = value_string v ∧ utf8_valid v.
Proof.
  revert buf s. induction fuel as [|fuel IH]; intros buf s Hb; [done|]. cbn.
  destruct (scan_string_char s) as [added s'|s'|m] eqn:E; [|intros [= <- _]; by eexists|done].
  apply IH. apply utf8_valid_app; [done|]. by eapply scan_string_char_valid.
Qed.

(** ** The grammar of numbers (RFC 8259, section 6) *)

Definition digits (ds : bytes) : Prop := forallb isdigit ds = true.

(** [int], with the minus sign of [number]. *)
Definition json_zero (s : bytes) : Prop := s = b#"0" ∨ s = b#"-0".
Definition json_nonzero (s : bytes) : Prop :=
  ∃ sgn d ds, s = sgn ++ d :: ds ∧ (sgn = [] ∨ sgn = b#"-") ∧ digit19 d = true ∧ digits ds.
Definition json_int (s : bytes) : Prop := json_zero s ∨ json_nonzero s.

(** [int] and [frac]. *)
Definition json_fraction (s : bytes) : Prop :=
  ∃ i ds, s = i ++ b#"." ++ ds ∧ json_int i ∧ ds ≠ [] ∧ digits ds.
Definition json_mantissa (s : bytes) : Prop := json_int s ∨ json_fraction s.

(** [number] with [exp]. *)
Definition json_exponent (s : bytes) : Prop :=
  ∃ m e sgn ds, s = m ++ e :: sgn ++ ds ∧ json_mantissa m ∧ is_e e = true ∧
    (sgn = [] ∨ sgn = b#"+" ∨ sgn = b#"-") ∧ ds ≠ [] ∧ digits ds.

Definition json_number (s : bytes) : Prop := json_mantissa s ∨ json_exponent s.

(** What has been read at each label of [scan_number]. *)
Definition read_at (st : number_state) (s : bytes) : Prop :=
  match st with
  | NMinus => s = b#"-"
  | NZero => json_zero s
  | NAny1 => json_nonzero s
  | NDecimal1 => ∃ i, s = i ++ b#"." ∧ json_int i
  | NDecimal2 => json_fraction s
  | NExponent => ∃ m e, s = m ++ [e] ∧ json_mantissa m ∧ is_e e = true
  | NSign => ∃ m e c, s = m ++ [e; c] ∧ json_mantissa m ∧ is_e e = true ∧ (c = "+"%char ∨ c = "-"%char)
  | NAny2 => json_exponent s
  end.

Lemma digits_snoc ds c : digits ds → isdigit c = true → digits (ds ++ [c]).
Proof. unfold digits. rewrite forallb_app. cbn. by intros -> ->. Qed.

Lemma snoc_ne (ds : bytes) c : ds ++ [c] ≠ [].
Proof. by destruct ds. Qed.

Lemma read_at_zero st s : read_at st s → st = NZero ∨ st = NAny1 → json_int s.
Proof. intros Hs [->| ->]; [by left|by right]. Qed.

(** A transition reads one more character. *)
Lemma number_step_read st s c st' :
  read_at st s → number_step st (Some c) = NGoto st' → read_at st' (s ++ [c]).
Proof.
  destruct st; cbn [number_step read_at].
  - intros ->. unfold scan_number_minus. case_bool_decide; [intros [= <-]; subst; by right|].
    destruct (digit19 c) eqn:E; [|done]. intros [= <-]. exists b#"-", c, []. split; [done|]. split; [by right|done].
  - intros Hs. unfold scan_number_zero. case_bool_decide; [intros [= <-]; subst; exists s; split; [done|by left]|].
    destruct (is_e c) eqn:E; [|done]. intros [= <-]. exists s, c. split; [done|]. split; [by left; left|done].
  - intros Hs. unfold scan_number_any1. destruct (isdigit c) eqn:Ed.
    + intros [= <-]. destruct Hs as (sgn & d & ds & -> & Hsgn & Hd & Hds). exists sgn, d, (ds ++ [c]).
      rewrite <- app_assoc. auto using digits_snoc.
    + case_bool_decide; [intros [= <-]; subst; exists s; split; [done|by right]|].
      destruct (is_e c) eqn:E; [|done]. intros [= <-]. exists s, c. split; [done|]. split; [left; by right|done].
  - intros (i & -> & Hi). unfold scan_number_decimal1. destruct (isdigit c) eqn:E; [|done]. intros [= <-].
    exists i, [c]. rewrite <- app_assoc. split; [done|]. split; [done|]. split; [done|]. unfold digits. cbn. by rewrite E.
  - intros Hs. unfold scan_number_decimal2. destruct (isdigit c) eqn:Ed.
    + intros [= <-]. destruct Hs as (i & ds & -> & Hi & Hne & Hds). exists i, (ds ++ [c]).
      rewrite <- !app_assoc. auto using digits_snoc, snoc_ne.
    + destruct (is_e c) eqn:E; [|done]. intros [= <-]. exists s, c. split; [done|]. split; [by right|done].
  - intros (m & e & -> & Hm & He). unfold scan_number_exponent. destruct (_ || _) eqn:Es.
    + intros [= <-]. exists m, e, c. rewrite <- app_assoc. apply orb_true_iff in Es.
      rewrite !bool_decide_eq_true in Es. auto.
    + destruct (isdigit c) eqn:Ed; [|done]. intros [= <-]. exists m, e, [], [c]. rewrite <- app_assoc.
      do 3 (split; [done|]). split; [by left|]. split; [done|]. unfold digits. cbn. by rewrite Ed.
  - intros (m & e & c' & -> & Hm & He & Hc'). unfold scan_number_sign. destruct (isdigit c) eqn:Ed; [|done].
    intros [= <-]. exists m, e, [c'], [c]. rewrite <- app_assoc. do 3 (split; [done|]).
    split; [right; destruct Hc' as [->| ->]; auto|]. split; [done|]. unfold digits. cbn. by rewrite Ed.
  - intros (m & e & sgn & ds & -> & Hm & He & Hs & Hne & Hds). unfold scan_number_any2.
    destruct (isdigit c) eqn:Ed; [|done]. intros [= <-]. exists m, e, sgn, (ds ++ [c]).
    rewrite <- app_assoc. cbn. rewrite <- app_assoc. auto 10 using digits_snoc, snoc_ne.
Qed.

(** A number ends at a label where one is complete. *)
Lemma number_step_done st s c : read_at st s → number_step st c = NDone → json_number s.
Proof.
  destruct st, c as [c|]; cbn [number_step read_at];
    unfold scan_number_minus, scan_number_zero, scan_number_any1, scan_number_decimal1, scan_number_decimal2,
      scan_number_exponent, scan_number_sign, scan_number_any2; intros Hs; repeat case_match; intros; try done;
    first [by left; left; left|by left; left; right|by left; right|by right].
Qed.

#[export] Instance number_type_eq_dec : EqDecision number_type.
Proof. solve_decision. Defined.

(** The characters of an integer of a type. *)
Definition integer_digits (ty : number_type) (s : bytes) : Prop :=
  match ty with
  | NTUnsigned => digits s
  | NTInteger => ∃ ds, s = "-"%char :: ds ∧ digits ds
  | NTFloat => True
  end.

(** An integer is read at the first three labels only. *)
Definition integer_at (st : number_state) (ty : number_type) (s : bytes) : Prop :=
  integer_digits (number_type_at st ty) s ∧
  (number_type_at st ty ≠ NTFloat → st = NMinus ∨ st = NZero ∨ st = NAny1).

Lemma integer_digits_snoc ty s c : integer_digits ty s → isdigit c = true → integer_digits ty (s ++ [c]).
Proof.
  destruct ty; cbn; [apply digits_snoc| |done]. intros (ds & -> & Hd) Hc. exists (ds ++ [c]). auto using digits_snoc.
Qed.

Lemma number_step_minus st c : number_step st c ≠ NGoto NMinus.
Proof.
  destruct st, c; cbn; unfold scan_number_minus, scan_number_zero, scan_number_any1, scan_number_decimal1,
    scan_number_decimal2, scan_number_exponent, scan_number_sign, scan_number_any2; by repeat case_match.
Qed.

Lemma number_step_integer st ty s c st' :
  integer_at st ty s → number_step st (Some c) = NGoto st' → integer_at st' (number_type_at st ty) (s ++ [c]).
Proof.
  intros [Hd Hst] Hs. unfold integer_at.
  destruct (decide (number_type_at st' (number_type_at st ty) = NTFloat)) as [->|Hty]; [by split|].
  assert ((st' = NZero ∨ st' = NAny1) ∧ isdigit c = true) as [Hst' Hc].
  { destruct Hst as [->|[->| ->]]; [intros E; rewrite E in Hty; destruct st'; try done; by apply (number_step_minus _ _ Hs)|..];
      cbn in Hs; unfold scan_number_minus, scan_number_zero, scan_number_any1 in Hs;
      repeat case_match; simplify_eq; try done; auto; try (split; [auto|]; by eapply digit19_isdigit).
    split; [auto|]. by apply bool_decide_eq_true in H as ->. }
  assert (number_type_at st' (number_type_at st ty) = number_type_at st ty) as -> by by destruct Hst' as [->| ->].
  split; [by apply integer_digits_snoc|]. intros _. by right.
Qed.

Lemma number_loop_read st ty buf s buf' ty' rest :
  read_at st buf → integer_at st ty buf →
  number_loop st ty buf s = inl (buf', ty', rest) → json_number buf' ∧ integer_digits ty' buf'.
Proof.
  revert st ty buf. induction s as [|c s IH]; intros st ty buf Hr Hu; cbn [number_loop].
  - destruct (number_step st None) eqn:E; [by destruct st|intros [= <- <- <-]|done].
    split; [by eapply number_step_done|]. apply Hu.
  - destruct (number_step st (Some c)) as [st'| |m] eqn:E; [|intros [= <- <- <-]|done].
    + apply IH; [by eapply number_step_read|by apply number_step_integer].
    + split; [by eapply number_step_done|]. apply Hu.
Qed.

Lemma digits_val_nonneg ds : digits ds → 0 ≤ digits_val ds.
Proof.
  unfold digits, digits_val. assert (0 ≤ 0) as H0 by done. revert H0. generalize 0 at 2 4 as acc.
  induction ds as [|d ds IH]; cbn; intros acc Hacc; [done|]. intros [Hd Hds]%andb_true_iff.
  apply IH; [|done]. unfold isdigit in Hd. unfold digit_val. split_bools. lia.
Qed.

(** ** Tokens *)

(** What the parser relies on. *)
Definition token_ok (t : token) : Prop :=
  match t with
  | value_string s => utf8_valid s
  | value_unsigned z => 0 ≤ z < 2 ^ 64
  | value_integer z => - 2 ^ 63 ≤ z ≤ 0
  | value_float l => json_number l
  | _ => True
  end.

Lemma number_token_ok buf ty : json_number buf → integer_digits ty buf → token_ok (number_token buf ty).
Proof.
  intros Hn. destruct ty; cbn [integer_digits number_token].
  - intros Hd. assert (integer_value buf = digits_val buf) as ->.
    { destruct buf as [|c buf]; [done|]. cbn. by rewrite bool_decide_eq_false_2 by (by intros ->). }
    pose proof (digits_val_nonneg _ Hd). destruct (Z.ltb_spec (digits_val buf) (2 ^ 64)); [by split|done].
  - intros (ds & -> & Hd). pose proof (digits_val_nonneg _ Hd). cbn [integer_value].
    rewrite bool_decide_eq_true_2 by done. destruct (_ && _) eqn:E; [|done]. split_bools. cbn. lia.
  - done.
Qed.

Lemma scan_number_ok c s t rest :
  c = "-"%char ∨ isdigit c = true → scan_number c s = Token t rest → token_ok t.
Proof.
  intros Hc. unfold scan_number. destruct (number_loop _ _ _ s) as [[[buf ty] s']|m] eqn:E; [|done]. intros [= <- _].
  apply number_loop_read in E as [Hn Hd]; [by apply number_token_ok|..].
  - case_bool_decide as Hm; [by subst|]. destruct Hc as [?|Hc]; [done|].
    case_bool_decide as Hz; [subst; by left|]. exists [], c, []. split; [done|]. split; [by left|]. split; [|done].
    unfold digit19. unfold isdigit in Hc. split_bools. apply andb_true_iff. split; apply Z.leb_le; [|lia].
    assert (byteZ c ≠ 48); [|lia]. intros E'. apply Hz. by apply byteZ_inj.
  - case_bool_decide as Hm; [subst; split; [by exists []|auto]|]. destruct Hc as [?|Hc]; [done|].
    assert (digits [c]) by (unfold digits; cbn; by rewrite Hc). case_bool_decide; (split; [done|auto]).
Qed.

Lemma scan_literal_token text t s t' rest : scan_literal text t s = Token t' rest → t' = t.
Proof.
  revert s. induction text as [|l text IH]; intros s; cbn; [by intros [= <- _]|].
  destruct s as [|c s]; [done|]. case_bool_decide; [apply IH|done].
Qed.

Lemma scan_token_ok s t rest : scan_token s = Some (Token t rest) → token_ok t.
Proof.
  destruct s as [|c s]; [by intros [= <- _]|]. cbn [scan_token].
  do 6 (case_bool_decide; [by intros [= <- _]|]).
  do 3 (case_bool_decide; [intros H'; apply (inj Some) in H'; apply scan_literal_token in H' as ->; done|]).
  case_bool_decide.
  { intros Hv. apply scan_string_loop_valid in Hv as (v & -> & Hv); [done|apply utf8_valid_nil]. }
  destruct (_ || _) eqn:E.
  - intros Hn. apply (inj Some) in Hn. eapply scan_number_ok; [|done]. apply orb_true_iff in E. by rewrite bool_decide_eq_true in E.
  - destruct (bool_decide (c = NUL)); [by intros [= <- _]|done].
Qed.

Lemma scan_ok ignore_comments first s t rest : scan ignore_comments first s = Some (Token t rest) → token_ok t.
Proof.
  unfold scan. destruct (if first then _ else _) as [s1|]; [|done]. destruct ignore_comments; [|apply scan_token_ok].
  destruct (skip_comments _ _) as [[s2|m]|]; [apply scan_token_ok|done..].
Qed.

Lemma get_token_ok s t s' : get_token s = Some (inl (t, s')) → token_ok t.
Proof.
  unfold get_token. destruct (scan false false s) as [[t1 s1|m]|] eqn:E; [|done..]. intros [= <- _].
  by eapply scan_ok.
Qed.

(** ** Values *)

(** What [json::parse] returns: maps with distinct keys in order, valid UTF-8, integers in
    the range of their types, and finite numbers of the grammar.  A negative sign makes a
    number a [std::int64_t], so that these are negative or [-0]. *)
#[warnings="-register-all"]
Inductive well_formed : json → Prop :=
| well_formed_null : well_formed JNull
| well_formed_object ms :
    sorted_keys ms = true → Forall (λ m, utf8_valid m.1) ms → Forall (λ m, well_formed m.2) ms →
    well_formed (JObject ms)
| well_formed_array es : Forall well_formed es → well_formed (JArray es)
| well_formed_string s : utf8_valid s → well_formed (JString s)
| well_formed_boolean b : well_formed (JBoolean b)
| well_formed_integer z : - 2 ^ 63 ≤ z ≤ 0 → well_formed (JInteger z)
| well_formed_unsigned z : 0 ≤ z < 2 ^ 64 → well_formed (JUnsigned z)
| well_formed_float l : json_number l → isfinite l = true → well_formed (JFloat l).

Definition members_ok (ms : list (bytes * json)) : Prop :=
  sorted_keys ms = true ∧ Forall (λ m, utf8_valid m.1 ∧ well_formed m.2) ms.

Lemma members_ok_object ms : members_ok ms → well_formed (JObject ms).
Proof. intros [Hs Hms]. constructor; [done|..]; (eapply Forall_impl; [exact Hms|]); by intros m []. Qed.

Lemma members_ok_assign k v ms : utf8_valid k → well_formed v → members_ok ms → members_ok (map_assign k v ms).
Proof.
  intros Hk Hv [Hs Hms]. split; [by apply map_assign_sorted|]. rewrite Forall_forall in *.
  intros m [->|Hm]%map_assign_elem; [done|by apply Hms].
Qed.

(** ** The containers under construction *)

Definition frame_ok (f : frame) : Prop :=
  match f with
  | FArray es => Forall well_formed es
  | FObject ms k => members_ok ms ∧ from_option utf8_valid True k
  end.

Definition dom_ok (d : dom) : Prop := Forall frame_ok (ref_stack d) ∧ well_formed (root d).

Lemma handle_value_ok v d : well_formed v → dom_ok d → dom_ok (handle_value v d).
Proof.
  intros Hv [Hst Hr]. unfold handle_value, dom_ok. destruct (ref_stack d) as [|[es|ms [k|]] st] eqn:E; cbn.
  - done.
  - split; [|done]. apply Forall_cons in Hst as [Hf Hst]. constructor; [|done]. apply Forall_app. by split; [|constructor].
  - split; [|done]. apply Forall_cons in Hst as [[Hms Hk] Hst]. constructor; [|done].
    split; [|done]. by apply members_ok_assign.
  - by rewrite E.
Qed.

Lemma start_object_ok d : dom_ok d → dom_ok (start_object d).
Proof. intros [Hst Hr]. split; [|done]. by repeat constructor. Qed.

Lemma start_array_ok d : dom_ok d → dom_ok (start_array d).
Proof. intros [Hst Hr]. split; [|done]. by repeat constructor. Qed.

Lemma key_ok k d : utf8_valid k → dom_ok d → dom_ok (key k d).
Proof.
  intros Hk [Hst Hr]. unfold key. destruct (ref_stack d) as [|[es|ms k'] st] eqn:E; try (split; [by rewrite E|done]).
  split; [|done]. cbn. apply Forall_cons in Hst as [[Hms _] Hst]. by repeat constructor; try apply Hms.
Qed.

Lemma end_container_ok d : dom_ok d → dom_ok (end_container d).
Proof.
  intros [Hst Hr]. unfold end_container. destruct (ref_stack d) as [|[es|ms k] st] eqn:E; [split; [by rewrite E|done]|..];
    apply Forall_cons in Hst as [Hf Hst]; (apply handle_value_ok; [|by split]).
  - by constructor.
  - apply members_ok_object, Hf.
Qed.

Create HintDb parsed discriminated.
#[export] Hint Resolve handle_value_ok start_object_ok start_array_ok key_ok end_container_ok : parsed.
#[export] Hint Constructors well_formed : parsed.

(** ** The rounds of the parser *)

Definition parser_ok (p : parser) : Prop := token_ok (last_token p) ∧ dom_ok (sax p).

Definition step_ok (r : parse_step) : Prop :=
  match r with PContinue _ p | PReturn p => parser_ok p | PThrow _ | PNoFuel => True end.

Lemma with_token_ok s k : (∀ t s', token_ok t → step_ok (k t s')) → step_ok (with_token s k).
Proof.
  intros Hk. unfold with_token. destruct (get_token s) as [[[t s']|e]|] eqn:E; [|done..].
  by eapply Hk, get_token_ok.
Qed.

Lemma parse_key_ok val s sts d : utf8_valid val → dom_ok d → step_ok (parse_key val s sts d).
Proof.
  intros Hv Hd. apply with_token_ok. intros t s1 _. case_bool_decide; [|done]. apply with_token_ok.
  intros t2 s2 Ht2. split; [done|]. cbn; auto with parsed.
Qed.

Lemma evaluate_state_ok s t sts d : token_ok t → dom_ok d → step_ok (evaluate_state s t sts d).
Proof.
  intros Ht Hd. destruct sts as [|[|] sts]; cbn [evaluate_state]; [by split|..]; apply with_token_ok; intros t1 s1 Ht1;
    (case_bool_decide; [apply with_token_ok; intros t2 s2 Ht2|case_bool_decide; [split; [done|]; cbn; auto with parsed|done]]).
  - by split.
  - destruct t2; try done. by apply parse_key_ok.
Qed.

Lemma parse_round_ok skip p : parser_ok p → step_ok (parse_round skip p).
Proof.
  intros [Ht Hd]. unfold parse_round. destruct skip; [by apply evaluate_state_ok|]. unfold parse_value.
  assert (∀ v, well_formed v →
    step_ok (evaluate_state (m_lexer p) (last_token p) (states p) (handle_value v (sax p)))) as Hv
    by (intros v Hv; apply evaluate_state_ok; auto with parsed).
  destruct (last_token p); try done; try (apply Hv; by constructor).
  - destruct (isfinite literal) eqn:E; [|done]. apply Hv. by constructor.
  - apply with_token_ok. intros t s1 Ht1. destruct t; try (split; [done|]; cbn; auto with parsed).
    apply evaluate_state_ok; auto with parsed.
  - apply with_token_ok. intros t s1 Ht1. destruct t; try done.
    + apply parse_key_ok; auto with parsed.
    + apply evaluate_state_ok; auto with parsed.
Qed.

Lemma sax_parse_internal_ok fuel skip p p' :
  parser_ok p → sax_parse_internal fuel skip p = Some (inl p') → parser_ok p'.
Proof.
  revert skip p. induction fuel as [|fuel IH]; intros skip p Hp; [done|]. cbn.
  pose proof (parse_round_ok skip p Hp) as Hs. destruct (parse_round skip p); try done.
  - by apply IH.
  - by intros [= <-].
Qed.

Lemma json_parse_well_formed s j : json_parse s = inl j → well_formed j.
Proof.
  unfold json_parse. destruct (parse_total_some s) as [r Hr]. rewrite Hr. cbn. intros ->. revert Hr. unfold parse.
  destruct (scan false true s) as [[t s'|m]|] eqn:Es; [|done..].
  destruct (sax_parse_internal _ _ _) as [[p|e]|] eqn:E; [|done..].
  apply sax_parse_internal_ok in E; [|split; [by eapply scan_ok|by split; [constructor|constructor]]].
  destruct (get_token (m_lexer p)) as [[[t' s'']|e]|]; [|done..]. case_bool_decide; [|done]. intros [= <-]. apply E.
Qed.

(** A value without floating-point numbers can be written. *)
Fixpoint no_floats (j : json) : bool :=
  match j with
  | JObject ms => forallb (λ m, no_floats m.2) ms
  | JArray es => forallb no_floats es
  | JFloat _ => false
  | _ => true
  end.

Lemma well_formed_printable j : well_formed j → no_floats j = true → printable j.
Proof.
  induction j as [|ms IH|es IH|s|b|z|z|l|d ty|] using json_induction; intros Hw Hf; inversion Hw; subst;
    try (constructor; done).
  - cbn in Hf. apply forallb_Forall in Hf. constructor; [done..|]. rewrite Forall_forall in *. eauto.
  - cbn in Hf. apply forallb_Forall in Hf. constructor. rewrite Forall_forall in *. eauto.
  - constructor. lia.
  - done.
Qed.

(** ** Properties *)

(** C14 (type): every value that [json::parse] returns is well formed: the keys of its objects
    are distinct and in order, its strings are valid UTF-8 even when they were written with
    escapes, its integers are in the range of their types, and its other numbers are finite
    and follow the grammar of RFC 8259. *)
Theorem parse_well_formed s j : json_parse s = inl j → well_formed j.
Proof. apply json_parse_well_formed. Qed.

Definition sample_text : bytes :=
  b#"{" ++ QUOTED b#"z" ++ b#":[-0,-7,18446744073709551615,1.5E3]," ++ QUOTED b#"a" ++ b#":" ++
  QUOTED b#"\ud83d\ude00" ++ b#"}".

Lemma parse_well_formed_witness :
  well_formed (JObject [(b#"a", JString (utf8_encode 0x1F600));
    (b#"z", JArray [JInteger 0; JInteger (-7); JUnsigned 18446744073709551615; JFloat b#"1.5E3"])]).
Proof. apply (parse_well_formed sample_text). vm_compute. reflexivity. Defined.

(** A text without floating-point numbers that was parsed can be written, in
    any layout, and the new text is parsed as the same value again, the sign class of [-0]
    apart: parsing, writing and parsing is parsing. *)
Lemma reparse `{FloatText} s j indent indent_char ensure_ascii h :
  json_parse s = inl j → no_floats j = true → indent ≤ 512 → json_ws indent_char = true →
  ∃ text, json_dump j indent indent_char ensure_ascii h = DOk text ∧ json_parse text = inl (norm j).
Proof.
  intros Hj Hf Hi Hc.
  destruct (json_parse_dump j indent indent_char ensure_ascii h) as (text & Ht & Hr); [|done..|].
  - apply well_formed_printable; [by eapply json_parse_well_formed|done].
  - exists text. split; [done|]. rewrite <- (app_nil_r text). by apply Hr.
Qed.

Lemma reparse_witness (f := (λ l, l) : FloatText) :
  ∃ text, json_dump (JArray [JInteger 0; JString (utf8_encode 0xE9)]) (-1) SPC true strict = DOk text ∧
    json_parse text = inl (JArray [JUnsigned 0; JString (utf8_encode 0xE9)]).
Proof.
  apply (reparse (b#" [-0, " ++ QUOTED b#"\u00e9" ++ b#"]") (JArray [JInteger 0; JString (utf8_encode 0xE9)])
    (-1) SPC true strict); vm_compute; congruence.
Defined.
