(* ===== verification/JsonInput.v ===== *)
(** * JsonInput: input in wide characters
      ([include/nlohmann/json.hpp], [iterator_input_adapter], [wide_string_input_adapter])

    A string of 16-bit or 32-bit characters is handed to the lexer as the bytes of its
    UTF-8, through a buffer of four integers ([int], so a "byte" may be out of range).  A failed
    assertion has no result. *)

From S2P Require Import Prelude CString Prog Utf8 JsonValue JsonParser.

(** [std::char_traits<char>::eof()]. *)
Definition EOF : Z := -1.

(** An [unsigned int] as an [int]. *)
Definition to_int (z : Z) : Z := if z <? 2 ^ 31 then z else z - 2 ^ 32.

(** The base adapter, an [iterator_input_adapter], is the characters that are left. *)
Record wide_string_input_adapter := mkWide {
  base_adapter : list Z;
  utf8_bytes : list Z;
  utf8_bytes_index : Z;
  utf8_bytes_filled : Z
}.

Definition wide_adapter (input : list Z) : wide_string_input_adapter := mkWide input [0; 0; 0; 0] 0 0.

(** The buffer with new bytes at its front. *)
Definition filled_with (input : list Z) (new : list Z) (a : wide_string_input_adapter) : wide_string_input_adapter :=
  mkWide input (overlay new (utf8_bytes a)) 0 (blen new).

Section adapter.
(** [char_traits<char16_t>::to_int_type], which may replace 0xFFFF, the value of [eof()]. *)
Context (to_int_type : Z → Z).

(** [wide_string_input_helper<_, 4>::fill_buffer]. *)
Definition fill_buffer_4 (a : wide_string_input_adapter) : wide_string_input_adapter :=
  match base_adapter a with
  | [] => filled_with [] [EOF] a
  | wc :: input =>
      filled_with input
        (if wc <? 0x80 then [to_int wc]
         else if wc <=? 0x7FF then
           [to_int (Z.lor 0xC0 (Z.land (Z.shiftr wc 6) 0x1F)); to_int (Z.lor 0x80 (Z.land wc 0x3F))]
         else if wc <=? 0xFFFF then
           [to_int (Z.lor 0xE0 (Z.land (Z.shiftr wc 12) 0x0F)); to_int (Z.lor 0x80 (Z.land (Z.shiftr wc 6) 0x3F));
            to_int (Z.lor 0x80 (Z.land wc 0x3F))]
         else if wc <=? 0x10FFFF then
           [to_int (Z.lor 0xF0 (Z.land (Z.shiftr wc 18) 0x07)); to_int (Z.lor 0x80 (Z.land (Z.shiftr wc 12) 0x3F));
            to_int (Z.lor 0x80 (Z.land (Z.shiftr wc 6) 0x3F)); to_int (Z.lor 0x80 (Z.land wc 0x3F))]
         else [to_int wc]) a
  end.

(** [wide_string_input_helper<_, 2>::fill_buffer]. *)
Definition fill_buffer_2 (a : wide_string_input_adapter) : wide_string_input_adapter :=
  match base_adapter a with
  | [] => filled_with [] [EOF] a
  | c :: input =>
      let wc := to_int_type c in
      if wc <? 0x80 then filled_with input [to_int wc] a
      else if wc <=? 0x7FF then
        filled_with input [to_int (Z.lor 0xC0 (Z.shiftr wc 6)); to_int (Z.lor 0x80 (Z.land wc 0x3F))] a
      else if (wc <? 0xD800) || (0xE000 <=? wc) then
        filled_with input
          [to_int (Z.lor 0xE0 (Z.shiftr wc 12)); to_int (Z.lor 0x80 (Z.land (Z.shiftr wc 6) 0x3F));
           to_int (Z.lor 0x80 (Z.land wc 0x3F))] a
      else
        match input with
        | [] => filled_with [] [to_int wc] a
        | c2 :: input =>
            let wc2 := to_int_type c2 in
            let charcode := 0x10000 + Z.lor (Z.shiftl (Z.land wc 0x3FF) 10) (Z.land wc2 0x3FF) in
            filled_with input
              [to_int (Z.lor 0xF0 (Z.shiftr charcode 18)); to_int (Z.lor 0x80 (Z.land (Z.shiftr charcode 12) 0x3F));
               to_int (Z.lor 0x80 (Z.land (Z.shiftr charcode 6) 0x3F)); to_int (Z.lor 0x80 (Z.land charcode 0x3F))] a
        end
  end.

(** [get_character], for characters of [size] bytes. *)
Definition get_character (size : Z) (a : wide_string_input_adapter) : option (Z * wide_string_input_adapter) :=
  let a := if utf8_bytes_index a =? utf8_bytes_filled a then (if size =? 4 then fill_buffer_4 a else fill_buffer_2 a) else a in
  if (0 <? utf8_bytes_filled a) && (utf8_bytes_index a <? utf8_bytes_filled a) then
    c ← utf8_bytes a !! Z.to_nat (utf8_bytes_index a);
    Some (c, mkWide (base_adapter a) (utf8_bytes a) (utf8_bytes_index a + 1) (utf8_bytes_filled a))
  else None.

(** The next [n] characters that the lexer gets. *)
Fixpoint characters (n : nat) (size : Z) (a : wide_string_input_adapter) : option (list Z) :=
  match n with
  | O => Some []
  | S n => '(c, a) ← get_character size a; cs ← characters n size a; Some (c :: cs)
  end.
End adapter.

(** ** Unicode in wide characters *)

(** The UTF-16 code units of a scalar value. *)
Definition utf16 (cp : Z) : list Z :=
  if cp <? 0x10000 then [cp] else [0xD800 + (cp - 0x10000) / 1024; 0xDC00 + (cp - 0x10000) mod 1024].

(** The characters of a string of scalar values, of [size] bytes each. *)
Definition wide_string (size : Z) (cps : list Z) : list Z := if size =? 4 then cps else concat (utf16 <$> cps).

Lemma scalar_bounds cp : scalar cp = true → 0 ≤ cp ≤ 0x10FFFF ∧ (cp < 0xD800 ∨ 0xE000 ≤ cp).
Proof. unfold scalar. rewrite orb_true_iff, !andb_true_iff, !Z.leb_le, Z.ltb_lt. lia. Qed.

Lemma outside_surrogates wc : (wc <? 0xD800) || (0xE000 <=? wc) = true ↔ wc < 0xD800 ∨ 0xE000 ≤ wc.
Proof. by rewrite orb_true_iff, Z.leb_le, Z.ltb_lt. Qed.

Lemma to_int_small z : 0 ≤ z < 256 → to_int z = z.
Proof. intros. unfold to_int. by rewrite (proj2 (Z.ltb_lt _ _)) by lia. Qed.

Lemma land_low x n : 0 ≤ n → 0 ≤ x < 2 ^ n → Z.land x (Z.ones n) = x.
Proof. intros. rewrite Z.land_ones, Z.mod_small by lia. done. Qed.

(** Both tables of bytes are those of the encoder. *)
Lemma fill_buffer_4_scalar a cp rest :
  scalar cp = true → base_adapter a = cp :: rest → fill_buffer_4 a = filled_with rest (byteZ <$> utf8_encode cp) a.
Proof.
  intros Hs Ha. apply scalar_bounds in Hs as [Hcp _]. unfold fill_buffer_4. rewrite Ha.
  rewrite utf8_encode_arith by done. rewrite !land_3F, !shiftr_div by lia.
  change (2 ^ 6) with 64. change (2 ^ 12) with 4096. change (2 ^ 18) with 262144.
  change 0x1F with (Z.ones 5). change 0x0F with (Z.ones 4). change 0x07 with (Z.ones 3).
  pose proof (Z.mod_pos_bound cp 64 ltac:(lia)). pose proof (Z.mod_pos_bound (cp / 64) 64 ltac:(lia)).
  pose proof (Z.mod_pos_bound (cp / 4096) 64 ltac:(lia)). rewrite !lor_80 by done. f_equal.
  destruct (Z.ltb_spec cp 0x80); [cbn [fmap list_fmap]; by rewrite to_int_small, byteZ_small by lia|].
  destruct (Z.leb_spec cp 0x7FF); [|destruct (Z.leb_spec cp 0xFFFF); [|rewrite (proj2 (Z.leb_le _ _)) by lia]]; cbn [fmap list_fmap].
  - assert (0 ≤ cp / 64 < 32) by (Z.div_mod_to_equations; lia).
    by rewrite land_low, lor_C0, !to_int_small, !byteZ_small by (change (2 ^ 5) with 32; lia).
  - assert (0 ≤ cp / 4096 < 16) by (Z.div_mod_to_equations; lia).
    by rewrite land_low, lor_E0, !to_int_small, !byteZ_small by (change (2 ^ 4) with 16; lia).
  - assert (0 ≤ cp / 262144 < 8) by (Z.div_mod_to_equations; lia).
    by rewrite land_low, lor_F0, !to_int_small, !byteZ_small by (change (2 ^ 3) with 8; lia).
Qed.

Lemma utf16_pair cp : 0x10000 ≤ cp ≤ 0x10FFFF →
  let wc := 0xD800 + (cp - 0x10000) / 1024 in let wc2 := 0xDC00 + (cp - 0x10000) mod 1024 in
  0xD800 ≤ wc < 0xDC00 ∧ 0xDC00 ≤ wc2 < 0xE000 ∧
  0x10000 + Z.lor (Z.shiftl (Z.land wc 0x3FF) 10) (Z.land wc2 0x3FF) = cp.
Proof.
  intros Hcp wc wc2. assert (0 ≤ (cp - 0x10000) / 1024 < 1024) as Hh by (Z.div_mod_to_equations; lia).
  pose proof (Z.mod_pos_bound (cp - 0x10000) 1024 ltac:(lia)) as Hl. unfold wc, wc2. split; [lia|]. split; [lia|].
  change 0x3FF with (Z.ones 10). rewrite !Z.land_ones by lia. change (2 ^ 10) with 1024.
  replace (0xD800 + (cp - 0x10000) / 1024) with ((cp - 0x10000) / 1024 + 54 * 1024) by lia.
  replace (0xDC00 + (cp - 0x10000) mod 1024) with ((cp - 0x10000) mod 1024 + 55 * 1024) by lia.
  rewrite !Z.mod_add, !Z.mod_small by lia. rewrite Z.lor_comm, (lor_shift 10) by lia. change (2 ^ 10) with 1024.
  Z.div_mod_to_equations; lia.
Qed.

(** The replacement of 0xFFFF leaves every other character. *)
Definition keeps_characters (to_int_type : Z → Z) : Prop := ∀ c, 0 ≤ c < 0xFFFF → to_int_type c = c.

Lemma fill_buffer_2_scalar to_int_type a cp rest :
  keeps_characters to_int_type → scalar cp = true → cp ≠ 0xFFFF → base_adapter a = utf16 cp ++ rest →
  fill_buffer_2 to_int_type a = filled_with rest (byteZ <$> utf8_encode cp) a.
Proof.
  intros Ht Hs Hf Ha. apply scalar_bounds in Hs as [Hcp Hns].
  unfold fill_buffer_2. rewrite Ha. rewrite utf8_encode_arith by done. unfold utf16.
  destruct (Z.ltb_spec cp 0x10000) as [Hb|Hb]; cbn [app].
  - rewrite Ht by lia. rewrite !land_3F, !shiftr_div by lia. change (2 ^ 6) with 64. change (2 ^ 12) with 4096.
    pose proof (Z.mod_pos_bound cp 64 ltac:(lia)). pose proof (Z.mod_pos_bound (cp / 64) 64 ltac:(lia)). rewrite !lor_80 by done.
    destruct (Z.ltb_spec cp 0x80); [cbn [fmap list_fmap]; by rewrite to_int_small, byteZ_small by lia|].
    destruct (Z.leb_spec cp 0x7FF); cbn [fmap list_fmap].
    + assert (0 ≤ cp / 64 < 32) by (Z.div_mod_to_equations; lia). by rewrite lor_C0, !to_int_small, !byteZ_small by lia.
    + rewrite (proj2 (outside_surrogates cp)) by lia. rewrite (proj2 (Z.leb_le _ _)) by lia. cbn [fmap list_fmap].
      assert (0 ≤ cp / 4096 < 16) by (Z.div_mod_to_equations; lia). by rewrite lor_E0, !to_int_small, !byteZ_small by lia.
  - destruct (utf16_pair cp ltac:(lia)) as (H1 & H2 & Hcode). cbn zeta in H1, H2, Hcode. rewrite !Ht by lia. rewrite Hcode.
    set (wc := 0xD800 + (cp - 0x10000) / 1024) in *. rewrite (proj2 (Z.ltb_ge wc 0x80)), (proj2 (Z.leb_gt wc 0x7FF)) by lia.
    assert ((wc <? 0xD800) || (0xE000 <=? wc) = false) as -> by (apply not_true_iff_false; rewrite outside_surrogates; lia).
    rewrite !land_3F, !shiftr_div by lia. change (2 ^ 6) with 64. change (2 ^ 12) with 4096. change (2 ^ 18) with 262144.
    pose proof (Z.mod_pos_bound cp 64 ltac:(lia)). pose proof (Z.mod_pos_bound (cp / 64) 64 ltac:(lia)).
    pose proof (Z.mod_pos_bound (cp / 4096) 64 ltac:(lia)). rewrite !lor_80 by done.
    rewrite (proj2 (Z.ltb_ge cp 0x80)), (proj2 (Z.leb_gt cp 0x7FF)), (proj2 (Z.leb_gt cp 0xFFFF)) by lia. cbn [fmap list_fmap].
    assert (0 ≤ cp / 262144 < 8) by (Z.div_mod_to_equations; lia). by rewrite lor_F0, !to_int_small, !byteZ_small by lia.
Qed.

(** ** What the lexer gets *)

Definition buffer_done (input : list Z) (a : wide_string_input_adapter) : Prop :=
  base_adapter a = input ∧ length (utf8_bytes a) = 4%nat ∧ utf8_bytes_index a = utf8_bytes_filled a.

Section characters.
Context (to_int_type : Z → Z) (size : Z).
Definition fill_buffer (a : wide_string_input_adapter) : wide_string_input_adapter :=
  if size =? 4 then fill_buffer_4 a else fill_buffer_2 to_int_type a.

(** The bytes of a buffer are handed out one after the other. *)
Lemma characters_drain rest (bs : list Z) (k i n : nat) l :
  (i ≤ k)%nat → (k ≤ length bs)%nat → length bs = 4%nat →
  (∀ a, buffer_done rest a → characters to_int_type n size a = Some l) →
  characters to_int_type (k - i + n) size (mkWide rest bs (Z.of_nat i) (Z.of_nat k)) = Some (drop i (take k bs) ++ l).
Proof.
  intros Hi Hk Hl Hrest. remember (k - i)%nat as d eqn:Hd. revert i Hi Hd. induction d as [|d IH]; intros i Hi Hd.
  - rewrite drop_ge by (rewrite length_take; lia). apply Hrest. split; [done|]. split; [done|]. cbn. lia.
  - destruct (lookup_lt_is_Some_2 bs i) as [c Hc]; [lia|]. cbn [Nat.add characters].
    assert (get_character to_int_type size (mkWide rest bs (Z.of_nat i) (Z.of_nat k)) =
      Some (c, mkWide rest bs (Z.of_nat (S i)) (Z.of_nat k))) as ->.
    { unfold get_character. cbn [utf8_bytes_index utf8_bytes_filled]. rewrite (proj2 (Z.eqb_neq _ _)) by lia.
      cbn [utf8_bytes_index utf8_bytes_filled utf8_bytes base_adapter]. rewrite !(proj2 (Z.ltb_lt _ _)) by lia. cbn [andb].
      rewrite Nat2Z.id, Hc. cbn. do 3 f_equal. lia. }
    cbn. rewrite IH by lia. rewrite (drop_S (take k bs) c i); [done|]. by rewrite lookup_take_lt by lia.
Qed.

(** One filling of the buffer. *)
Lemma characters_filled rest input new a n l :
  (1 ≤ length new ≤ 4)%nat → buffer_done input a → fill_buffer a = filled_with rest new a →
  (∀ a', buffer_done rest a' → characters to_int_type n size a' = Some l) →
  characters to_int_type (length new + n) size a = Some (new ++ l).
Proof.
  intros Hn (_ & Hl & Hi) Hf Hrest. set (bs := overlay new (utf8_bytes a)).
  assert (length bs = 4%nat) as Hbs by (unfold bs, overlay; rewrite length_app, length_drop; lia).
  pose proof (characters_drain rest bs (length new) 0 n l ltac:(lia) ltac:(lia) Hbs Hrest) as Hd.
  rewrite Nat.sub_0_r, drop_0 in Hd. assert (take (length new) bs = new) as Et by apply take_app_length. rewrite Et in Hd. rewrite <- Hd.
  destruct (length new) as [|k] eqn:Ek; [lia|]. cbn [Nat.add characters]. f_equal.
  unfold get_character at 1. rewrite Hi, Z.eqb_refl. fold (fill_buffer a). rewrite Hf. unfold filled_with.
  unfold get_character. cbn [utf8_bytes_index utf8_bytes_filled]. rewrite (proj2 (Z.eqb_neq (Z.of_nat 0) _)) by lia.
  unfold blen. by rewrite Ek.
Qed.

Lemma encode_length cp : (1 ≤ length (byteZ <$> utf8_encode cp) ≤ 4)%nat.
Proof. rewrite length_fmap. unfold utf8_encode. repeat case_match; cbn; lia. Qed.

Lemma characters_eof n a : buffer_done [] a → characters to_int_type n size a = Some (replicate n EOF).
Proof.
  revert a. induction n as [|n IH]; intros a Ha; [done|].
  apply (characters_filled [] [] [EOF] a n (replicate n EOF)); [cbn; lia|done| |by apply IH].
  destruct Ha as (Ha & _). unfold fill_buffer, fill_buffer_4, fill_buffer_2. rewrite Ha. by case_match.
Qed.

Lemma characters_string cps n a :
  keeps_characters to_int_type → size = 2 ∨ size = 4 →
  Forall (λ cp, scalar cp = true ∧ (size = 2 → cp ≠ 0xFFFF)) cps → buffer_done (wide_string size cps) a →
  characters to_int_type (length (concat (utf8_encode <$> cps)) + n) size a =
    Some ((byteZ <$> concat (utf8_encode <$> cps)) ++ replicate n EOF).
Proof.
  intros Ht Hsize Hcps. revert a. induction Hcps as [|cp cps [Hcp Hf] _ IH]; intros a Ha.
  { apply characters_eof. destruct Ha as (Ha & ?). split; [|done]. rewrite Ha. unfold wide_string. by case_match. }
  cbn [fmap list_fmap concat]. rewrite length_app, <- Nat.add_assoc, fmap_app, <- app_assoc, <- (length_fmap byteZ (utf8_encode cp)).
  apply (characters_filled (wide_string size cps) (wide_string size (cp :: cps))); [apply encode_length|done| |exact IH].
  destruct Ha as (Ha & _). unfold fill_buffer. destruct Hsize as [-> | ->]; cbn [Z.eqb Pos.eqb].
  - by apply fill_buffer_2_scalar; auto.
  - by apply fill_buffer_4_scalar.
Qed.
End characters.

(** From a string in 16-bit or 32-bit characters that is well-formed Unicode the
    lexer gets, character by character, the bytes of its UTF-8 and then the end of the
    input, again and again; no assertion of the adapter fails.  (In 16-bit characters the
    one value that equals [eof()] is left out.) *)
Lemma wide_input_utf8 to_int_type size cps n :
  keeps_characters to_int_type → size = 2 ∨ size = 4 →
  Forall (λ cp, scalar cp = true ∧ (size = 2 → cp ≠ 0xFFFF)) cps →
  let text := concat (utf8_encode <$> cps) in
  characters to_int_type (length text + n) size (wide_adapter (wide_string size cps)) = Some ((byteZ <$> text) ++ replicate n EOF).
Proof. intros Ht Hs Hc. by apply characters_string. Qed.

(** The sign for an euro and an emoji, in two and in four bytes a character. *)
Lemma wide_input_utf8_witness :
  characters (λ c, c) 9 2 (wide_adapter [0x20AC; 0xD83D; 0xDE00]) = Some [0xE2; 0x82; 0xAC; 0xF0; 0x9F; 0x98; 0x80; EOF; EOF] ∧
  characters (λ c, c) 9 4 (wide_adapter [0x20AC; 0x1F600]) = Some [0xE2; 0x82; 0xAC; 0xF0; 0x9F; 0x98; 0x80; EOF; EOF].
Proof.
  split; [apply (wide_input_utf8 (λ c, c) 2 [0x20AC; 0x1F600] 2)|apply (wide_input_utf8 (λ c, c) 4 [0x20AC; 0x1F600] 2)];
    auto; by repeat constructor.
Defined.

(** Characters that are not Unicode: the greatest one ends the input, and half of a surrogate pair
    takes the character behind it for the other half. *)
Example greatest_is_eof : characters (λ c, c) 3 4 (wide_adapter [0x31; 2 ^ 32 - 1; 0x32]) = Some [0x31; EOF; 0x32].
Proof. vm_compute. reflexivity. Qed.

Example low_surrogate_first : characters (λ c, c) 5 2 (wide_adapter [0xDC00; 0x41]) = Some [0xF0; 0x90; 0x81; 0x81; EOF].
Proof. vm_compute. reflexivity. Qed.
