(* ===== verification/JsonSax.v ===== *)
(** * JsonSax: the parser for any handler of its events
      ([include/nlohmann/json.hpp], class [parser] and the [json_sax_*] classes)

    [sax_parse_internal] with the handler as a parameter, and the three handlers of the
    library for text: [json_sax_dom_parser], [json_sax_dom_callback_parser] and
    [json_sax_acceptor].  [JsonParser] is the first of them with exceptions on, which is
    shown here; the others are related to it through the events they share. *)

From S2P Require Import Prelude CString Prog JsonValue JsonLexer JsonParser.

(** ** The events *)

Inductive sax_event :=
| EvValue (v : json)
| EvStartObject
| EvKey (val : bytes)
| EvEndObject
| EvStartArray
| EvEndArray.

(** A handler: the state after an event and whether to go on, or an exception, or undefined
    when an assertion fails; and what [parse_error] does, which gives [false] when it does
    not throw. *)
Record handler (D : Type) := mkHandler {
  event : sax_event → D → dres (D * bool);
  error : exn → D → D + exn
}.
Arguments event {D}.
Arguments error {D}.

(** ** The parser *)

Section sax_parser.
Context {D : Type} (h : handler D).

(** [None] is the token [parse_error]. *)
Record sparser := mkSparser { s_lexer : bytes; s_token : option token; s_states : list bool; s_sax : D }.

Inductive sax_step :=
| SContinue (skip_to_state_evaluation : bool) (p : sparser)
| SReturn (result : bool) (m_lexer : bytes) (d : D)
| SThrow (e : exn)
| SUndefined
| SNoFuel.

(** [get_token]; nothing is read after [parse_error]. *)
Definition next_token (s : bytes) (k : option token → bytes → sax_step) : sax_step :=
  match scan false false s with
  | Some (Token t s) => k (Some t) s
  | Some (ParseError _) => k None []
  | None => SNoFuel
  end.

Definition emit (ev : sax_event) (s : bytes) (d : D) (k : D → sax_step) : sax_step :=
  match event h ev d with
  | DOk (d, true) => k d
  | DOk (d, false) => SReturn false s d
  | DThrow e => SThrow e
  | DUndef _ => SUndefined
  end.

Definition raise (e : exn) (s : bytes) (d : D) : sax_step :=
  match error h e d with
  | inl d => SReturn false s d
  | inr e => SThrow e
  end.

Definition unexpected (s : bytes) (d : D) : sax_step := raise (ExJsonParse 101) s d.

(** A key and the separator, then the first token of the value. *)
Definition sax_key (val : bytes) (s : bytes) (sts : list bool) (d : D) : sax_step :=
  emit (EvKey val) s d (λ d,
  next_token s (λ t s,
    if bool_decide (t = Some name_separator)
    then next_token s (λ t s, SContinue false (mkSparser s t sts d))
    else unexpected s d)).

Definition sax_evaluate (s : bytes) (sts : list bool) (d : D) : sax_step :=
  match sts with
  | [] => SReturn true s d
  | true :: sts' =>
      next_token s (λ t s,
        if bool_decide (t = Some value_separator)
        then next_token s (λ t s, SContinue false (mkSparser s t sts d))
        else if bool_decide (t = Some end_array)
        then emit EvEndArray s d (λ d, SContinue true (mkSparser s t sts' d))
        else unexpected s d)
  | false :: sts' =>
      next_token s (λ t s,
        if bool_decide (t = Some value_separator)
        then next_token s (λ t s,
               match t with
               | Some (value_string val) => sax_key val s sts d
               | _ => unexpected s d
               end)
        else if bool_decide (t = Some end_object)
        then emit EvEndObject s d (λ d, SContinue true (mkSparser s t sts' d))
        else unexpected s d)
  end.

Definition sax_value (p : sparser) : sax_step :=
  let s := s_lexer p in
  let sts := s_states p in
  let d := s_sax p in
  let value v := emit (EvValue v) s d (λ d, sax_evaluate s sts d) in
  match s_token p with
  | Some begin_object =>
      emit EvStartObject s d (λ d,
      next_token s (λ t s,
        match t with
        | Some end_object => emit EvEndObject s d (λ d, sax_evaluate s sts d)
        | Some (value_string val) => sax_key val s (false :: sts) d
        | _ => unexpected s d
        end))
  | Some begin_array =>
      emit EvStartArray s d (λ d,
      next_token s (λ t s,
        match t with
        | Some end_array => emit EvEndArray s d (λ d, sax_evaluate s sts d)
        | _ => SContinue false (mkSparser s t (true :: sts) d)
        end))
  | Some (value_float l) => if isfinite l then value (JFloat l) else raise (ExJsonOutOfRange 406) s d
  | Some literal_false => value (JBoolean false)
  | Some literal_null => value JNull
  | Some literal_true => value (JBoolean true)
  | Some (value_integer z) => value (JInteger z)
  | Some (value_string v) => value (JString v)
  | Some (value_unsigned z) => value (JUnsigned z)
  | Some (end_array | end_object | name_separator | value_separator | end_of_input) | None => unexpected s d
  end.

Definition sax_round (skip_to_state_evaluation : bool) (p : sparser) : sax_step :=
  if skip_to_state_evaluation then sax_evaluate (s_lexer p) (s_states p) (s_sax p) else sax_value p.

Inductive sax_result :=
| SaxDone (result : bool) (m_lexer : bytes) (d : D)
| SaxThrow (e : exn)
| SaxUndefined.

Fixpoint sax_parse_internal (fuel : nat) (skip : bool) (p : sparser) : option sax_result :=
  match fuel with
  | O => None
  | S f =>
      match sax_round skip p with
      | SContinue skip p => sax_parse_internal f skip p
      | SReturn b s d => Some (SaxDone b s d)
      | SThrow e => Some (SaxThrow e)
      | SUndefined => Some SaxUndefined
      | SNoFuel => None
      end
  end.

(** The constructor of [parser] reads the first token. *)
Definition start_parser (s : bytes) (d : D) : option sparser :=
  match scan false true s with
  | Some (Token t s) => Some (mkSparser s (Some t) [] d)
  | Some (ParseError _) => Some (mkSparser [] None [] d)
  | None => None
  end.

(** [parse_error] when anything but the end of the input follows. *)
Definition expect_end (r : sax_result) : option sax_result :=
  match r with
  | SaxDone true s d =>
      match scan false false s with
      | Some (Token end_of_input _) => Some r
      | Some _ => Some (match error h (ExJsonParse 101) d with inl d => SaxDone false s d | inr e => SaxThrow e end)
      | None => None
      end
  | _ => Some r
  end.

(** [sax_parse(sax, true)]. *)
Definition sax_parse (fuel : nat) (s : bytes) (d : D) : option sax_result :=
  p ← start_parser s d;
  r ← sax_parse_internal fuel false p;
  expect_end r.

(** [parse(true, result)] looks for the end of the input after an error as well, which it
    meets with exceptions off.  (Behind a bad token, nothing stands for what is left.) *)
Definition parse_end (r : sax_result) : option sax_result :=
  match r with
  | SaxDone _ s d =>
      match scan false false s with
      | Some (Token end_of_input _) => Some r
      | Some _ => Some (match error h (ExJsonParse 101) d with inl d => SaxDone false s d | inr e => SaxThrow e end)
      | None => None
      end
  | _ => Some r
  end.

Definition parse (fuel : nat) (s : bytes) (d : D) : option sax_result :=
  p ← start_parser s d;
  r ← sax_parse_internal fuel false p;
  parse_end r.
End sax_parser.
Arguments sparser : clear implicits.
Arguments sax_step : clear implicits.
Arguments sax_result : clear implicits.

(** ** [json_sax_dom_parser] *)

(** The value under construction, and [errored]. *)
Definition dom_event (ev : sax_event) (d : dom * bool) : dres ((dom * bool) * bool) :=
  let '(d, errored) := d in
  let d := match ev with
           | EvValue v => handle_value v d
           | EvStartObject => start_object d
           | EvKey val => key val d
           | EvStartArray => start_array d
           | EvEndObject | EvEndArray => end_container d
           end in
  DOk ((d, errored), true).

(** [parse_error] of both handlers that build a value. *)
Definition build_error {A} (allow_exceptions : bool) (e : exn) (d : A * bool) : (A * bool) + exn :=
  if allow_exceptions then inr e else inl (d.1, true).

Definition dom_handler (allow_exceptions : bool) : handler (dom * bool) :=
  mkHandler _ dom_event (build_error allow_exceptions).

(** ** [json_sax_acceptor] *)

Definition acceptor : handler unit := mkHandler unit (λ _ d, DOk (d, true)) (λ _ d, inl d).

(** [json::accept]; the default is never used. *)
Definition accept_fuel (s : bytes) : nat := 3 + length s.
Definition accept (s : bytes) : bool :=
  match sax_parse acceptor (accept_fuel s) s tt with Some (SaxDone b _ _) => b | _ => false end.

(** ** Two handlers on the same input *)

(** What the parser does with what [parse_error] gives. *)
Definition failed {D} (s : bytes) (r : D + exn) : sax_step D := match r with inl d => SReturn false s d | inr e => SThrow e end.
Definition failure {D} (s : bytes) (r : D + exn) : sax_result D := match r with inl d => SaxDone false s d | inr e => SaxThrow e end.

(** The values a token gives. *)
Definition token_value (v : json) : Prop :=
  match v with JNull | JBoolean _ | JInteger _ | JUnsigned _ | JString _ | JFloat _ => True | _ => False end.

(** What two handlers promise each other: relations between their states where a value is
    expected, where an object has been opened and where a value is complete, inside the
    containers [sts] (innermost first, [true] for an array), that every event keeps; a
    relation between what they do with an error; and the exceptions that an event may throw
    in the first of them. *)
Class Simulation {D1 D2} (h1 : handler D1) (h2 : handler D2)
    (Ready Opened Done : list bool → D1 → D2 → Prop) (Err : D1 + exn → D2 + exn → Prop) (Thrown : exn → Prop) : Prop := {
  sim_event : ∀ ev sts d1 d2 (post : D1 → D2 → Prop),
    match ev with
    | EvValue v => token_value v ∧ Ready sts d1 d2 ∧ post = Done sts
    | EvStartObject => Ready sts d1 d2 ∧ post = Opened sts
    | EvKey _ => (Opened sts d1 d2 ∨ Done (false :: sts) d1 d2) ∧ post = Ready (false :: sts)
    | EvEndObject => (Opened sts d1 d2 ∨ Done (false :: sts) d1 d2) ∧ post = Done sts
    | EvStartArray => Ready sts d1 d2 ∧ post = Ready (true :: sts)
    | EvEndArray => (Ready (true :: sts) d1 d2 ∨ Done (true :: sts) d1 d2) ∧ post = Done sts
    end →
    (∃ e, event h1 ev d1 = DThrow e ∧ Thrown e) ∨
    ∃ d1' d2', event h1 ev d1 = DOk (d1', true) ∧ event h2 ev d2 = DOk (d2', true) ∧ post d1' d2';
  sim_comma : ∀ sts d1 d2, Done (true :: sts) d1 d2 → Ready (true :: sts) d1 d2;
  sim_error : ∀ e sts d1 d2, Ready sts d1 d2 ∨ Opened sts d1 d2 ∨ Done sts d1 d2 → Err (error h1 e d1) (error h2 e d2)
}.

Section simulation.
Context {D1 D2} {h1 : handler D1} {h2 : handler D2} {Ready Opened Done : list bool → D1 → D2 → Prop}
  {Err : D1 + exn → D2 + exn → Prop} {Thrown : exn → Prop} `{!Simulation h1 h2 Ready Opened Done Err Thrown}.

Inductive step_rel : sax_step D1 → sax_step D2 → Prop :=
| rel_value s t sts d1 d2 : Ready sts d1 d2 →
    step_rel (SContinue false (mkSparser s t sts d1)) (SContinue false (mkSparser s t sts d2))
| rel_state s t sts d1 d2 : Done sts d1 d2 →
    step_rel (SContinue true (mkSparser s t sts d1)) (SContinue true (mkSparser s t sts d2))
| rel_return s d1 d2 : Done [] d1 d2 → step_rel (SReturn true s d1) (SReturn true s d2)
| rel_failed s r1 r2 : Err r1 r2 → step_rel (failed s r1) (failed s r2)
| rel_thrown e st : Thrown e → step_rel (SThrow e) st
| rel_no_fuel : step_rel SNoFuel SNoFuel.

Inductive result_rel : sax_result D1 → sax_result D2 → Prop :=
| rel_done s d1 d2 : Done [] d1 d2 → result_rel (SaxDone true s d1) (SaxDone true s d2)
| rel_failure s r1 r2 : Err r1 r2 → result_rel (failure s r1) (failure s r2).

(** The second parser may have gone on, even out of fuel, where the first has thrown. *)
Inductive run_rel : option (sax_result D1) → option (sax_result D2) → Prop :=
| rel_none : run_rel None None
| rel_some r1 r2 : result_rel r1 r2 → run_rel (Some r1) (Some r2)
| rel_threw e o : Thrown e → run_rel (Some (SaxThrow e)) o.

Lemma rel_unexpected e s sts d1 d2 :
  Ready sts d1 d2 ∨ Opened sts d1 d2 ∨ Done sts d1 d2 → step_rel (raise h1 e s d1) (raise h2 e s d2).
Proof. intros H. exact (rel_failed s _ _ (sim_error e sts d1 d2 H)). Qed.

Lemma rel_next_token s k1 k2 : (∀ t s, step_rel (k1 t s) (k2 t s)) → step_rel (next_token s k1) (next_token s k2).
Proof. intros Hk. unfold next_token. destruct (scan false false s) as [[t s'|m]|]; [apply Hk|apply Hk|constructor]. Qed.

(** An event in both, and what they do then. *)
Lemma rel_emit ev s d1 d2 (post : D1 → D2 → Prop) k1 k2 :
  (∃ e, event h1 ev d1 = DThrow e ∧ Thrown e) ∨
    (∃ d1' d2', event h1 ev d1 = DOk (d1', true) ∧ event h2 ev d2 = DOk (d2', true) ∧ post d1' d2') →
  (∀ d1 d2, post d1 d2 → step_rel (k1 d1) (k2 d2)) → step_rel (emit h1 ev s d1 k1) (emit h2 ev s d2 k2).
Proof.
  unfold emit. intros [(e & -> & He)|(d1' & d2' & -> & -> & Hp)] Hk; [by constructor|by apply Hk].
Qed.

Lemma rel_key val s sts d1 d2 :
  Opened sts d1 d2 ∨ Done (false :: sts) d1 d2 → step_rel (sax_key h1 val s (false :: sts) d1) (sax_key h2 val s (false :: sts) d2).
Proof.
  intros H. unfold sax_key. eapply rel_emit; [by apply (sim_event (EvKey val) sts)|]. intros d1' d2' HR.
  apply rel_next_token. intros t s'. case_bool_decide.
  - apply rel_next_token. intros t2 s2. by constructor.
  - eapply rel_unexpected. by left.
Qed.

Lemma rel_evaluate s sts d1 d2 : Done sts d1 d2 → step_rel (sax_evaluate h1 s sts d1) (sax_evaluate h2 s sts d2).
Proof.
  intros H. destruct sts as [|[|] sts]; cbn [sax_evaluate]; [by constructor|..]; apply rel_next_token; intros t s'; case_bool_decide.
  - apply rel_next_token. intros t2 s2. constructor. by apply sim_comma.
  - case_bool_decide; [|eapply rel_unexpected; eauto].
    eapply rel_emit; [apply (sim_event EvEndArray sts); eauto|]. intros d1' d2' HR. by constructor.
  - apply rel_next_token. intros t2 s2. destruct t2 as [[]|]; try (eapply rel_unexpected; eauto). apply rel_key. by right.
  - case_bool_decide; [|eapply rel_unexpected; eauto].
    eapply rel_emit; [apply (sim_event EvEndObject sts); eauto|]. intros d1' d2' HR. by constructor.
Qed.

Lemma rel_token_value v s sts d1 d2 :
  Ready sts d1 d2 → token_value v →
  step_rel (emit h1 (EvValue v) s d1 (λ d, sax_evaluate h1 s sts d)) (emit h2 (EvValue v) s d2 (λ d, sax_evaluate h2 s sts d)).
Proof. intros H Hv. eapply rel_emit; [by apply (sim_event (EvValue v) sts)|]. intros d1' d2'. apply rel_evaluate. Qed.

Lemma rel_value_round s t sts d1 d2 :
  Ready sts d1 d2 → step_rel (sax_value h1 (mkSparser s t sts d1)) (sax_value h2 (mkSparser s t sts d2)).
Proof.
  intros H. unfold sax_value. cbn [s_lexer s_token s_states s_sax].
  assert (∀ e, step_rel (raise h1 e s d1) (raise h2 e s d2)) as Hraise by (intros e; eapply rel_unexpected; eauto).
  destruct t as [[]|]; try apply Hraise; try (apply rel_token_value; done).
  - destruct (isfinite literal); [by apply rel_token_value|apply Hraise].
  - eapply rel_emit; [by apply (sim_event EvStartArray sts)|]. intros d1' d2' HR.
    apply rel_next_token. intros t s'. destruct t as [[]|]; try (by constructor).
    eapply rel_emit; [apply (sim_event EvEndArray sts); eauto|]. intros ? ?. apply rel_evaluate.
  - eapply rel_emit; [by apply (sim_event EvStartObject sts)|]. intros d1' d2' HR.
    apply rel_next_token. intros t s'. destruct t as [[]|]; try (eapply rel_unexpected; eauto).
    + apply rel_key. by left.
    + eapply rel_emit; [apply (sim_event EvEndObject sts); eauto|]. intros ? ?. apply rel_evaluate.
Qed.

(** The two parsers run in step. *)
Lemma rel_parse_internal fuel (skip : bool) s t sts d1 d2 :
  (if skip then Done sts d1 d2 else Ready sts d1 d2) →
  run_rel (sax_parse_internal h1 fuel skip (mkSparser s t sts d1)) (sax_parse_internal h2 fuel skip (mkSparser s t sts d2)).
Proof.
  revert skip s t sts d1 d2. induction fuel as [|fuel IH]; intros skip s t sts d1 d2 H; cbn [sax_parse_internal]; [constructor|].
  assert (step_rel (sax_round h1 skip (mkSparser s t sts d1)) (sax_round h2 skip (mkSparser s t sts d2))) as Hr.
  { unfold sax_round. destruct skip; [by apply rel_evaluate|by apply rel_value_round]. }
  destruct Hr as [s' t' sts' d1' d2' HR|s' t' sts' d1' d2' HR|s' d1' d2' HR|s' r1 r2 HE|e st He|];
    [by apply IH|by apply IH| | |by constructor|constructor].
  - by repeat constructor.
  - apply (rel_failure s') in HE. destruct r1, r2; constructor; exact HE.
Qed.

Lemma rel_sax_parse fuel s d1 d2 : Ready [] d1 d2 → run_rel (sax_parse h1 fuel s d1) (sax_parse h2 fuel s d2).
Proof.
  intros H. unfold sax_parse, start_parser.
  assert (∀ s t, run_rel
    (r ← sax_parse_internal h1 fuel false (mkSparser s t [] d1); expect_end h1 r)
    (r ← sax_parse_internal h2 fuel false (mkSparser s t [] d2); expect_end h2 r)) as Hp.
  { intros s' t. destruct (rel_parse_internal fuel false s' t [] d1 d2 H) as [|r1 r2 Hr|e o He]; [constructor| |by constructor]. cbn.
    destruct Hr as [s2 d1' d2' HR|s2 r1 r2 HE].
    - cbn [expect_end]. pose proof (rel_failure s2 _ _ (sim_error (ExJsonParse 101) [] d1' d2' (or_intror (or_intror HR)))) as Hf.
      destruct (scan false false s2) as [[[] ?|]|]; constructor; try exact Hf. by constructor.
    - apply (rel_failure s2) in HE. destruct r1, r2; constructor; exact HE. }
  destruct (scan false true s) as [[t s'|m]|]; [apply Hp|apply Hp|constructor].
Qed.
End simulation.

(** ** [parse] and [sax_parse] *)

(** A handler whose events go on or throw, and whose [parse_error], once it has returned, changes
    nothing any more. *)
Class Settles {D} (h : handler D) : Prop := {
  settles_event : ∀ ev d d' b, event h ev d = DOk (d', b) → b = true;
  settles_error : ∀ e d d', error h e d = inl d' → ∀ e', error h e' d' = inl d'
}.

Section settles.
Context {D} (h : handler D) `{!Settles h}.

(** A step that ends with [false] has called [parse_error]. *)
Definition settled (d : D) : Prop := ∀ e, error h e d = inl d.
Definition step_settled (st : sax_step D) : Prop := match st with SReturn false _ d => settled d | _ => True end.

Lemma raise_settled e s d : step_settled (raise h e s d).
Proof using Type*. unfold raise. destruct (error h e d) as [d'|] eqn:E; [|done]. exact (settles_error e d d' E). Qed.

Lemma next_token_settled s k : (∀ t s, step_settled (k t s)) → step_settled (next_token s k).
Proof. intros Hk. unfold next_token. destruct (scan false false s) as [[t s'|m]|]; [apply Hk|apply Hk|done]. Qed.

Lemma emit_settled ev s d k : (∀ d, step_settled (k d)) → step_settled (emit h ev s d k).
Proof using Type*.
  intros Hk. unfold emit. destruct (event h ev d) as [[d' b]| |] eqn:E; [|done|done].
  apply settles_event in E as ->. apply Hk.
Qed.

Ltac settle := repeat first
  [ done | apply raise_settled | apply emit_settled; intros | apply next_token_settled; intros | case_bool_decide
  | match goal with |- step_settled (match ?t with _ => _ end) => destruct t end ].

Lemma key_settled val s sts d : step_settled (sax_key h val s sts d).
Proof using Type*. unfold sax_key, unexpected. settle. Qed.

Lemma evaluate_settled s sts d : step_settled (sax_evaluate h s sts d).
Proof using Type*. destruct sts as [|[|] sts]; cbn [sax_evaluate]; unfold unexpected; settle; apply key_settled. Qed.

Lemma round_settled skip p : step_settled (sax_round h skip p).
Proof using Type*.
  unfold sax_round. destruct skip; [apply evaluate_settled|]. unfold sax_value, unexpected.
  settle; (apply evaluate_settled || apply key_settled).
Qed.

Lemma parse_internal_settled fuel skip p s d : sax_parse_internal h fuel skip p = Some (SaxDone false s d) → settled d.
Proof using Type*.
  revert skip p. induction fuel as [|fuel IH]; intros skip p; cbn [sax_parse_internal]; [done|].
  pose proof (round_settled skip p) as Hr. destruct (sax_round h skip p) as [| [] | | |]; try done; [apply IH|].
  by intros [= <- <-].
Qed.

(** Looking for the end of the input after an error makes no difference. *)
Lemma parse_sax_parse fuel s d : parse h fuel s d = sax_parse h fuel s d.
Proof using Type*.
  unfold parse, sax_parse. destruct (start_parser s d) as [p|]; [|done]. cbn [mbind option_bind].
  destruct (sax_parse_internal h fuel false p) as [[[] s' d'|e|]|] eqn:E; try done. cbn [mbind option_bind parse_end expect_end].
  apply parse_internal_settled in E. rewrite (E (ExJsonParse 101)).
  destruct (scan_total_length false false s') as (r & -> & _). by destruct r as [[]|].
Qed.
End settles.

#[export] Instance dom_settles allow_exceptions : Settles (dom_handler allow_exceptions).
Proof.
  split; [by intros ev [d err] [d' err'] b [= _ _ <-]|]. intros e [d err] d'. cbn. unfold build_error.
  destruct allow_exceptions; [done|]. by intros [= <-].
Qed.

(** ** [JsonParser] is the parser with [json_sax_dom_parser] *)

(** [parse] builds a value, which is discarded after an error that did not throw. *)
Definition build_result {A} (root : A → json) (r : option (sax_result (A * bool))) : json + exn :=
  match r with
  | Some (SaxDone _ _ (d, errored)) => inl (if errored : bool then JDiscarded else root d)
  | Some (SaxThrow e) => inr e
  | Some SaxUndefined | None => inr (ExJsonParse 0)
  end.

(** [json::parse(input, nullptr, allow_exceptions)]. *)
Definition json_parse_with (allow_exceptions : bool) (s : bytes) : json + exn :=
  build_result root (parse (dom_handler allow_exceptions) (accept_fuel s) s (mkDom [] JNull, false)).

Definition generic (p : parser) : sparser (dom * bool) :=
  mkSparser (m_lexer p) (Some (last_token p)) (states p) (sax p, false).

(** A round of each; the generic parser sees a bad token one round later where no token is
    tested. *)
Inductive same_step : parse_step → sax_step (dom * bool) → Prop :=
| same_continue skip p : same_step (PContinue skip p) (SContinue skip (generic p))
| same_return p : same_step (PReturn p) (SReturn true (m_lexer p) (sax p, false))
| same_throw e : same_step (PThrow e) (SThrow e)
| same_later s sts d : same_step (PThrow (ExJsonParse 101)) (SContinue false (mkSparser s None sts d))
| same_no_fuel : same_step PNoFuel SNoFuel.

Lemma same_with_token s k1 k2 :
  (∀ t s', same_step (k1 t s') (k2 (Some t) s')) → same_step (PThrow (ExJsonParse 101)) (k2 None []) →
  same_step (with_token s k1) (next_token s k2).
Proof.
  intros Hk Hn. unfold with_token, next_token, get_token.
  destruct (scan false false s) as [[t s'|m]|]; [apply Hk|exact Hn|constructor].
Qed.

Lemma same_key val s sts d :
  same_step (parse_key val s sts d) (sax_key (dom_handler true) val s sts (d, false)).
Proof.
  unfold parse_key, sax_key, emit. cbn [event dom_handler dom_event]. apply same_with_token; [|constructor].
  intros t s'. destruct (decide (t = name_separator)) as [->|Ht].
  - rewrite !bool_decide_eq_true_2 by done. apply same_with_token; [intros t2 s2|constructor].
    exact (same_continue false (mkParser s2 t2 sts (key val d))).
  - rewrite !bool_decide_eq_false_2 by congruence. constructor.
Qed.

Lemma same_evaluate s t sts d :
  same_step (evaluate_state s t sts d) (sax_evaluate (dom_handler true) s sts (d, false)).
Proof.
  destruct sts as [|[|] sts]; cbn [evaluate_state sax_evaluate].
  - exact (same_return (mkParser s t [] d)).
  - apply same_with_token; [|constructor]. intros t' s'.
    destruct (decide (t' = value_separator)) as [->|Hv].
    { rewrite !bool_decide_eq_true_2 by done. apply same_with_token; [intros t2 s2|constructor].
      exact (same_continue false (mkParser s2 t2 (true :: sts) d)). }
    rewrite !(bool_decide_eq_false_2 (_ = value_separator)), (bool_decide_eq_false_2 (_ = Some value_separator)) by congruence.
    destruct (decide (t' = JsonLexer.end_array)) as [->|He].
    + rewrite !bool_decide_eq_true_2 by done. exact (same_continue true (mkParser s' _ sts (end_container d))).
    + rewrite !bool_decide_eq_false_2 by congruence. constructor.
  - apply same_with_token; [|constructor]. intros t' s'.
    destruct (decide (t' = value_separator)) as [->|Hv].
    { rewrite !bool_decide_eq_true_2 by done. apply same_with_token; [intros t2 s2|constructor].
      destruct t2; try constructor. apply same_key. }
    rewrite !(bool_decide_eq_false_2 (_ = value_separator)), (bool_decide_eq_false_2 (_ = Some value_separator)) by congruence.
    destruct (decide (t' = JsonLexer.end_object)) as [->|He].
    + rewrite !bool_decide_eq_true_2 by done. exact (same_continue true (mkParser s' _ sts (end_container d))).
    + rewrite !bool_decide_eq_false_2 by congruence. constructor.
Qed.

Lemma same_value p : same_step (parse_value p) (sax_value (dom_handler true) (generic p)).
Proof.
  unfold parse_value, sax_value, generic. cbn [s_lexer s_token s_states s_sax].
  destruct (last_token p); try (apply same_evaluate); try constructor.
  - destruct (isfinite literal); [apply same_evaluate|constructor].
  - cbn [emit event dom_handler dom_event]. apply same_with_token; [|constructor]. intros t s'.
    destruct t; try exact (same_continue false (mkParser s' _ (true :: states p) (start_array (sax p)))).
    apply same_evaluate.
  - cbn [emit event dom_handler dom_event]. apply same_with_token; [|constructor]. intros t s'.
    destruct t; try constructor; [apply same_key|apply same_evaluate].
Qed.

Lemma same_parse_internal f skip p r :
  JsonParser.sax_parse_internal f skip p = Some r →
  sax_parse_internal (dom_handler true) (S f) skip (generic p) =
    Some (match r with inl p => SaxDone true (m_lexer p) (sax p, false) | inr e => SaxThrow e end).
Proof.
  revert skip p. induction f as [|f IH]; intros skip p; [done|]. cbn [JsonParser.sax_parse_internal].
  assert (same_step (parse_round skip p) (sax_round (dom_handler true) skip (generic p))) as Hs.
  { unfold parse_round, sax_round. destruct skip; [apply same_evaluate|apply same_value]. }
  intros Hr. change (sax_parse_internal (dom_handler true) (S (S f)) skip (generic p)) with
    (match sax_round (dom_handler true) skip (generic p) with
     | SContinue skip p => sax_parse_internal (dom_handler true) (S f) skip p
     | SReturn b s d => Some (SaxDone b s d) | SThrow e => Some (SaxThrow e) | SUndefined => Some SaxUndefined | SNoFuel => None end).
  destruct Hs; try done.
  - by apply IH.
  - by injection Hr as <-.
  - by injection Hr as <-.
  - by injection Hr as <-.
Qed.

(** The parser with the handler that throws is [JsonParser]. *)
Lemma sax_parse_dom s :
  ∃ r, sax_parse (dom_handler true) (accept_fuel s) s (mkDom [] JNull, false) = Some r ∧
    match json_parse s with
    | inl j => ∃ s' d, r = SaxDone true s' (d, false) ∧ root d = j
    | inr e => r = SaxThrow e
    end.
Proof.
  destruct (parse_total_some s) as [res Hres]. rewrite (parse_json_parse _ _ _ Hres). revert Hres.
  unfold JsonParser.parse, sax_parse, start_parser. change (accept_fuel s) with (S (parse_fuel s)).
  destruct (scan false true s) as [[t s'|m]|]; [|intros [= <-]; by eexists|done].
  destruct (JsonParser.sax_parse_internal (parse_fuel s) false (mkParser s' t [] (mkDom [] JNull))) as [r|] eqn:E; [|done].
  cbn [mbind option_bind]. apply same_parse_internal in E. unfold generic in E. cbn [m_lexer last_token states sax] in E. rewrite E.
  cbn [mbind option_bind]. destruct r as [p|e]; [|intros [= <-]; by eexists].
  cbn [expect_end]. unfold get_token. destruct (scan false false (m_lexer p)) as [[t' s2|m]|]; [|intros [= <-]; by eexists|done].
  case_bool_decide as Ht.
  - intros [= <-]. subst t'. eexists. split; [reflexivity|]. eauto.
  - intros [= <-]. exists (SaxThrow (ExJsonParse 101)). by destruct t'.
Qed.

(** Events that do not throw leave nothing open. *)
Lemma run_rel_some {D1 D2} {Done : list bool → D1 → D2 → Prop} {Err} r1 o :
  run_rel (Done := Done) (Err := Err) (Thrown := λ _, False) (Some r1) o → ∃ r2, o = Some r2 ∧ result_rel (Done := Done) (Err := Err) r1 r2.
Proof. inversion 1; [eauto|done]. Qed.

(** ** Accepting *)

#[local] Instance accept_simulation :
  Simulation (dom_handler true) acceptor (λ _ _ _, True) (λ _ _ _, True) (λ _ _ _, True) (λ r1 r2, (∃ e, r1 = inr e) ∧ ∃ d, r2 = inl d)
    (λ _, False).
Proof.
  split; [|done|intros; split; by eexists].
  intros ev sts [d err] [] post H. right. eexists _, tt. split; [reflexivity|]. split; [reflexivity|].
  destruct ev; destruct_and?; by subst.
Qed.

(** The acceptor never throws and has an answer for every input. *)
Lemma accept_total s : ∃ s', sax_parse acceptor (accept_fuel s) s tt = Some (SaxDone (accept s) s' tt).
Proof.
  destruct (sax_parse_dom s) as (r & Hr & _). unfold accept.
  pose proof (rel_sax_parse (h1 := dom_handler true) (h2 := acceptor) (accept_fuel s) s (mkDom [] JNull, false) tt I) as Ha.
  rewrite Hr in Ha. apply run_rel_some in Ha as (ra & -> & Ha).
  destruct Ha as [s' d1 []|s' r1 r2 [_ [[] ->]]]; by eexists.
Qed.

#[local] Instance dom_simulation :
  Simulation (dom_handler true) (dom_handler false) (λ _ d1 d2, d1 = d2 ∧ d1.2 = false) (λ _ d1 d2, d1 = d2 ∧ d1.2 = false)
    (λ _ d1 d2, d1 = d2 ∧ d1.2 = false) (λ r1 r2, (∃ e, r1 = inr e) ∧ ∃ d, r2 = inl (d, true)) (λ _, False).
Proof.
  split; [|done|by intros e sts d1 d2 _; split; eexists].
  intros ev sts [d1 err1] [d2 err2] post H. right. exists (match dom_event ev (d1, err1) with DOk r => r.1 | _ => (d1, err1) end).
  eexists. split; [reflexivity|]. split; [reflexivity|]. destruct ev; destruct_and?; destruct_or?; destruct_and?; simplify_eq/=; done.
Qed.

(** [accept], [parse] with exceptions and [parse] without agree on every
    input: [accept] is true exactly when [parse] gives a value; with exceptions off, [parse]
    gives that value, and the discarded value where it would have thrown. *)
Lemma accept_parse s :
  (accept s = true ↔ ∃ j, json_parse s = inl j) ∧
  json_parse_with true s = json_parse s ∧
  json_parse_with false s = inl (match json_parse s with inl j => j | inr _ => JDiscarded end).
Proof.
  destruct (sax_parse_dom s) as (r & Hr & Hj). unfold json_parse_with, accept. rewrite !parse_sax_parse by apply _.
  pose proof (rel_sax_parse (h1 := dom_handler true) (h2 := acceptor) (accept_fuel s) s (mkDom [] JNull, false) tt I) as Ha.
  pose proof (rel_sax_parse (h1 := dom_handler true) (h2 := dom_handler false) (accept_fuel s) s (mkDom [] JNull, false) (mkDom [] JNull, false)
    (conj eq_refl eq_refl)) as Hd.
  rewrite Hr in *. apply run_rel_some in Ha as (ra & -> & Ha). apply run_rel_some in Hd as (rd & -> & Hd).
  destruct (json_parse s) as [j|e].
  - destruct Hj as (s' & d & -> & <-). split; [|split; [done|]].
    + inversion Ha as [|? r1 r2 [[e ->] [d2 ->]] Hf]; subst. split; eauto.
    + by inversion Hd as [? ? ? [<- _]|? r1 r2 [[e ->] (d' & ->)] Hf]; subst.
  - subst r. split; [|split; [done|]].
    + inversion Ha as [|? r1 r2 [[e' ->] [d2 ->]] Hf]; subst. split; [done|]. by intros [].
    + by inversion Hd as [|? r1 r2 [[e' ->] (d' & ->)] Hf]; subst.
Qed.
