(* ===== verification/JsonMessages.v ===== *)
(** * JsonMessages: what the parser reports
      ([include/nlohmann/json.hpp], [exception], [parse_error], [out_of_range],
      [lexer_base.token_type_name], [lexer.get_token_string], class [parser])

    [offerer] and [simple_answerer] print [what()] of what [json::parse] throws.  Here is
    the parser on the lexer with its state, with the exceptions it builds: their number,
    byte and text.  It refines the parser of [JsonSax], for every handler, and the
    positions that it reports are related to the text that was read. *)

From S2P Require Import Prelude CString Prog JsonValue JsonLexer JsonParser JsonSax JsonLexerState.

(** ** Exceptions *)

(** [m(what_arg)] takes a C string. *)
Definition c_str (w : bytes) : bytes := (span (λ c, bool_decide (c ≠ NUL)) w).1.

(** An exception of the library: its class and number, [byte] of a [parse_error], [what()]. *)
Record exception := mkException { ex : exn; byte : option Z; what : bytes }.

Definition name (ename : string) (id_ : Z) : bytes := b#"[json.exception." ++ str ename ++ b#"." ++ dec id_ ++ b#"] ".

(** [position_t]. *)
Record position_t := mkPosition { p_total : Z; p_column : Z; p_lines : Z }.
Definition get_position (l : lexer) : position_t := mkPosition (chars_read_total l) (chars_read_current_line l) (lines_read l).

Definition position_string (pos : position_t) : bytes :=
  b#" at line " ++ dec (p_lines pos + 1) ++ b#", column " ++ dec (p_column pos).

(** [parse_error::create]; [diagnostics] is empty without [JSON_DIAGNOSTICS]. *)
Definition parse_error (id_ : Z) (pos : position_t) (what_arg : bytes) : exception :=
  mkException (ExJsonParse id_) (Some (p_total pos))
    (c_str (name "parse_error" id_ ++ b#"parse error" ++ position_string pos ++ b#": " ++ what_arg)).
Definition parse_error_at (id_ byte_ : Z) (what_arg : bytes) : exception :=
  mkException (ExJsonParse id_) (Some byte_)
    (c_str (name "parse_error" id_ ++ b#"parse error" ++ (if byte_ =? 0 then [] else b#" at byte " ++ dec byte_) ++ b#": " ++ what_arg)).
Definition out_of_range (id_ : Z) (what_arg : bytes) : exception :=
  mkException (ExJsonOutOfRange id_) None (c_str (name "out_of_range" id_ ++ what_arg)).
Definition type_error (id_ : Z) (what_arg : bytes) : exception :=
  mkException (ExJsonType id_) None (c_str (name "type_error" id_ ++ what_arg)).
Definition invalid_iterator (id_ : Z) (what_arg : bytes) : exception :=
  mkException (ExJsonIterator id_) None (c_str (name "invalid_iterator" id_ ++ what_arg)).
Definition other_error (id_ : Z) (what_arg : bytes) : exception :=
  mkException (ExJsonOther id_) None (c_str (name "other_error" id_ ++ what_arg)).

(** ** Names and texts of tokens *)

Inductive token_type :=
| TUninitialized | TLiteralTrue | TLiteralFalse | TLiteralNull | TValueString | TValueUnsigned | TValueInteger | TValueFloat
| TBeginArray | TBeginObject | TEndArray | TEndObject | TNameSeparator | TValueSeparator | TParseError | TEndOfInput | TLiteralOrValue.

#[export] Instance token_type_eq_dec : EqDecision token_type.
Proof. solve_decision. Defined.

(** The type of what [scan] returns. *)
Definition type_of (t : option token) : token_type :=
  match t with
  | None => TParseError
  | Some literal_true => TLiteralTrue
  | Some literal_false => TLiteralFalse
  | Some literal_null => TLiteralNull
  | Some (value_string _) => TValueString
  | Some (value_unsigned _) => TValueUnsigned
  | Some (value_integer _) => TValueInteger
  | Some (value_float _) => TValueFloat
  | Some begin_array => TBeginArray
  | Some begin_object => TBeginObject
  | Some end_array => TEndArray
  | Some end_object => TEndObject
  | Some name_separator => TNameSeparator
  | Some value_separator => TValueSeparator
  | Some end_of_input => TEndOfInput
  end.

Definition token_type_name (t : token_type) : bytes :=
  match t with
  | TUninitialized => b#"<uninitialized>"
  | TLiteralTrue => b#"true literal"
  | TLiteralFalse => b#"false literal"
  | TLiteralNull => b#"null literal"
  | TValueString => b#"string literal"
  | TValueUnsigned | TValueInteger | TValueFloat => b#"number literal"
  | TBeginArray => b#"'['"
  | TBeginObject => b#"'{'"
  | TEndArray => b#"']'"
  | TEndObject => b#"'}'"
  | TNameSeparator => b#"':'"
  | TValueSeparator => b#"','"
  | TParseError => b#"<parse error>"
  | TEndOfInput => b#"end of input"
  | TLiteralOrValue => b#"'[', '{', or a literal"
  end.

(** [get_token_string()]: control characters are written as [<U+%.4X>]. *)
Definition token_char (c : ascii) : bytes :=
  if byteZ c <=? 0x1F then b#"<U+00" ++ [upper_hex (byteZ c / 16); upper_hex (byteZ c mod 16)] ++ b#">" else [c].
Definition get_token_string (l : lexer) : bytes := token_string l ≫= token_char.

Definition exception_message (last_token expected : token_type) (context : bytes) (l : lexer) : bytes :=
  b#"syntax error " ++ (match context with [] => [] | _ => b#"while parsing " ++ context ++ b#" " end) ++ b#"- " ++
  (if bool_decide (last_token = TParseError)
   then error_message l ++ b#"; last read: '" ++ get_token_string l ++ b#"'"
   else b#"unexpected " ++ token_type_name last_token) ++
  (if bool_decide (expected = TUninitialized) then [] else b#"; expected " ++ token_type_name expected).

(** ** The parser *)

(** What a handler does with the position, the text of the token and the exception; its events
    do not throw. *)
Record reporter (D : Type) := mkReporter {
  on_event : sax_event → D → option (D * bool);
  on_error : Z → bytes → exception → D → D + exception
}.
Arguments on_event {D}.
Arguments on_error {D}.

Section parser.
Context {D : Type} (x : reporter D).

Record mparser := mkMparser { m_lexer : lexer; last_token : option token; m_states : list bool; m_sax : D }.

Inductive mstep :=
| MContinue (skip_to_state_evaluation : bool) (p : mparser)
| MReturn (result : bool) (l : lexer) (d : D)
| MThrow (e : exception)
| MUndefined
| MNoFuel.

Definition get_token (l : lexer) (k : option token → lexer → mstep) : mstep :=
  match JsonLexerState.scan false l with
  | LOk t l => k t l
  | LAssert => MUndefined
  | LFuel => MNoFuel
  end.

Definition emit (ev : sax_event) (l : lexer) (d : D) (k : D → mstep) : mstep :=
  match on_event x ev d with
  | Some (d, true) => k d
  | Some (d, false) => MReturn false l d
  | None => MUndefined
  end.

(** [return sax->parse_error(m_lexer.get_position(), m_lexer.get_token_string(), e)]. *)
Definition raise (e : exception) (l : lexer) (d : D) : mstep :=
  match on_error x (p_total (get_position l)) (get_token_string l) e d with
  | inl d => MReturn false l d
  | inr e => MThrow e
  end.

Definition syntax_error (last : option token) (expected : token_type) (context : string) (l : lexer) : exception :=
  parse_error 101 (get_position l) (exception_message (type_of last) expected (str context) l).
Definition unexpected (last : option token) (expected : token_type) (context : string) (l : lexer) (d : D) : mstep :=
  raise (syntax_error last expected context l) l d.

Definition parse_key (val : bytes) (l : lexer) (sts : list bool) (d : D) : mstep :=
  emit (EvKey val) l d (λ d,
  get_token l (λ t l,
    if bool_decide (t = Some name_separator)
    then get_token l (λ t l, MContinue false (mkMparser l t sts d))
    else unexpected t TNameSeparator "object separator" l d)).

Definition evaluate_state (l : lexer) (sts : list bool) (d : D) : mstep :=
  match sts with
  | [] => MReturn true l d
  | true :: sts' =>
      get_token l (λ t l,
        if bool_decide (t = Some value_separator)
        then get_token l (λ t l, MContinue false (mkMparser l t sts d))
        else if bool_decide (t = Some end_array)
        then emit EvEndArray l d (λ d, MContinue true (mkMparser l t sts' d))
        else unexpected t TEndArray "array" l d)
  | false :: sts' =>
      get_token l (λ t l,
        if bool_decide (t = Some value_separator)
        then get_token l (λ t l,
               match t with
               | Some (value_string val) => parse_key val l sts d
               | _ => unexpected t TValueString "object key" l d
               end)
        else if bool_decide (t = Some end_object)
        then emit EvEndObject l d (λ d, MContinue true (mkMparser l t sts' d))
        else unexpected t TEndObject "object" l d)
  end.

Definition number_overflow (l : lexer) : exception :=
  out_of_range 406 (b#"number overflow parsing '" ++ get_token_string l ++ b#"'").

Definition parse_value (p : mparser) : mstep :=
  let l := m_lexer p in
  let sts := m_states p in
  let d := m_sax p in
  let value v := emit (EvValue v) l d (λ d, evaluate_state l sts d) in
  match last_token p with
  | Some begin_object =>
      emit EvStartObject l d (λ d,
      get_token l (λ t l,
        match t with
        | Some end_object => emit EvEndObject l d (λ d, evaluate_state l sts d)
        | Some (value_string val) => parse_key val l (false :: sts) d
        | _ => unexpected t TValueString "object key" l d
        end))
  | Some begin_array =>
      emit EvStartArray l d (λ d,
      get_token l (λ t l,
        match t with
        | Some end_array => emit EvEndArray l d (λ d, evaluate_state l sts d)
        | _ => MContinue false (mkMparser l t (true :: sts) d)
        end))
  | Some (value_float f) => if isfinite f then value (JFloat f) else raise (number_overflow l) l d
  | Some literal_false => value (JBoolean false)
  | Some literal_null => value JNull
  | Some literal_true => value (JBoolean true)
  | Some (value_integer z) => value (JInteger z)
  | Some (value_string v) => value (JString v)
  | Some (value_unsigned z) => value (JUnsigned z)
  | None => unexpected None TUninitialized "value" l d
  | Some (end_array | end_object | name_separator | value_separator | end_of_input) as t =>
      unexpected t TLiteralOrValue "value" l d
  end.

Definition parse_round (skip_to_state_evaluation : bool) (p : mparser) : mstep :=
  if skip_to_state_evaluation then evaluate_state (m_lexer p) (m_states p) (m_sax p) else parse_value p.

Inductive mresult :=
| MDone (result : bool) (l : lexer) (d : D)
| MThrew (e : exception)
| MAssert.

Fixpoint parse_internal (fuel : nat) (skip : bool) (p : mparser) : option mresult :=
  match fuel with
  | O => None
  | S fuel =>
      match parse_round skip p with
      | MContinue skip p => parse_internal fuel skip p
      | MReturn b l d => Some (MDone b l d)
      | MThrow e => Some (MThrew e)
      | MUndefined => Some MAssert
      | MNoFuel => None
      end
  end.

Definition sax_parse (fuel : nat) (s : bytes) (d : D) : option mresult :=
  match JsonLexerState.scan false (init_lexer s) with
  | LOk t l =>
      r ← parse_internal fuel false (mkMparser l t [] d);
      match r with
      | MDone true l d =>
          match JsonLexerState.scan false l with
          | LOk (Some end_of_input) l => Some (MDone true l d)
          | LOk t l =>
              Some (match on_error x (p_total (get_position l)) (get_token_string l) (syntax_error t TEndOfInput "value" l) d with
                    | inl d => MDone false l d
                    | inr e => MThrew e
                    end)
          | LAssert => Some MAssert
          | LFuel => None
          end
      | r => Some r
      end
  | LAssert => Some MAssert
  | LFuel => None
  end.
End parser.
Arguments mparser : clear implicits.
Arguments mstep : clear implicits.
Arguments mresult : clear implicits.

(** ** [json::parse] *)

Definition dom_reporter (allow_exceptions : bool) : reporter (dom * bool) :=
  mkReporter _ (λ ev d, match dom_event ev d with DOk r => Some r | _ => None end) (λ _ _ e d, if allow_exceptions then inr e else inl (d.1, true)).

(** [json::parse(input)] with the exception it throws; the default is never used ([json_parse_what_refines]). *)
Definition json_parse_what (s : bytes) : option (json + exception) :=
  match sax_parse (dom_reporter true) (accept_fuel s) s (mkDom [] JNull, false) with
  | Some (MDone _ _ (d, errored)) => Some (inl (if errored : bool then JDiscarded else root d))
  | Some (MThrew e) => Some (inr e)
  | Some MAssert | None => None
  end.

(** ** The parser of [JsonSax] *)

(** A reporter that throws what it is given, and a handler that does the same with the class and number alone. *)
Class Reports {D} (x : reporter D) (h : handler D) : Prop := {
  same_event : ∀ ev d, event h ev d = match on_event x ev d with Some r => DOk r | None => DUndef UB_assertion end;
  same_error : ∀ pos tok e d,
    match on_error x pos tok e d with
    | inl d' => error h (ex e) d = inl d'
    | inr e' => e' = e ∧ error h (ex e) d = inr (ex e)
    end
}.

#[export] Instance dom_reports b : Reports (dom_reporter b) (dom_handler b).
Proof. split; [by intros ev []|]. by destruct b. Qed.

(** Where a report says it happened: after a part [p] of the text and [n] times its end. *)
Definition position_in (w : bytes) (pos : position_t) : Prop :=
  ∃ p rest n, w = p ++ rest ∧ 0 ≤ n ∧ (0 < n → rest = []) ∧
    p_total pos = blen p + n ∧ p_lines pos = (position_of p).1 ∧
    (p_column pos = (position_of p).2 + n ∨ p_column pos = 0 ∧ head rest = Some LF).

(** The exceptions of the parser. *)
Definition reported (w : bytes) (e : exception) : Prop :=
  (∃ pos msg, position_in w pos ∧ e = parse_error 101 pos msg) ∨ (∃ msg, e = out_of_range 406 msg).

Lemma get_position_in w l : reading w l → position_in w (get_position l).
Proof.
  intros (p & n & [Hw Hn Hend Ht Hl Hc _ _]). exists p, (left l), n. cbn. repeat split; try done.
  rewrite Hc. unfold ungot_newline, left. destruct (next_unget l); [|by left]. cbn [andb].
  destruct (is_lf (current l)) eqn:E; [|by left]. apply bool_decide_eq_true in E. right. by rewrite E.
Qed.

Lemma syntax_error_reported w t expected context l : reading w l → reported w (syntax_error t expected context l).
Proof. intros Hr. left. eexists _, _. split; [by apply get_position_in|done]. Qed.

Section refines.
Context {D : Type} (x : reporter D) (h : handler D) `{!Reports x h} (w : bytes).

Definition same_parser (skip : bool) (p : mparser D) (q : sparser D) : Prop :=
  last_token p = s_token q ∧ m_states p = s_states q ∧ m_sax p = s_sax q ∧ reading w (m_lexer p) ∧
  (skip = true ∨ (last_token p ≠ None ∧ last_token p ≠ Some end_of_input) →
   (length (left (m_lexer p)) < length w)%nat ∧ left (m_lexer p) = s_lexer q).

(** A step of each. *)
Definition same_mstep (m : mstep D) (r : sax_step D) : Prop :=
  match m, r with
  | MContinue skip p, SContinue skip' q => skip = skip' ∧ same_parser skip p q
  | MReturn b l d, SReturn b' s d' => b = b' ∧ d = d' ∧ (b = true → started w l ∧ left l = s)
  | MThrow e, SThrow e' => ex e = e' ∧ reported w e
  | MUndefined, SUndefined => True
  | _, _ => False
  end.

Lemma same_token l k k' : started w l →
  (∀ t l', started w l' → same_mstep (k (Some t) l') (k' (Some t) (left l'))) →
  (∀ l', reading w l' → same_mstep (k None l') (k' None [])) →
  same_mstep (get_token l k) (next_token (left l) k').
Proof.
  intros Hs Hk Hn. unfold get_token, next_token. pose proof (scan_ready w false false l Hs) as Ho.
  destruct (JsonLexer.scan false false (left l)) as [[t s|m]|]; [| |done].
  - destruct Ho as (l' & -> & <- & _ & Hs' & _). apply Hk. auto.
  - destruct Ho as (l' & -> & Hr & _). by apply Hn.
Qed.

Lemma same_emit ev l s d k k' : (∀ d, same_mstep (k d) (k' d)) →
  same_mstep (emit x ev l d k) (JsonSax.emit h ev s d k').
Proof.
  intros Hk. unfold emit, JsonSax.emit. rewrite same_event. destruct (on_event x ev d) as [[d' []]|]; [apply Hk| |done].
  by split.
Qed.

Lemma same_raise e l s d : reported w e → same_mstep (raise x e l d) (JsonSax.raise h (ex e) s d).
Proof.
  intros He. unfold raise, JsonSax.raise. pose proof (same_error (p_total (get_position l)) (get_token_string l) e d) as Hx.
  destruct (on_error x _ _ e d); [rewrite Hx; by split|]. destruct Hx as [-> ->]. by split.
Qed.

Lemma same_unexpected t expected context l s d : reading w l →
  same_mstep (unexpected x t expected context l d) (JsonSax.unexpected h s d).
Proof. intros Hr. apply (same_raise (syntax_error t expected context l)). by apply syntax_error_reported. Qed.

Lemma same_continue t l sts d : started w l → same_mstep (MContinue false (mkMparser l (Some t) sts d)) (SContinue false (mkSparser (left l) (Some t) sts d)).
Proof. intros [Hr Hl]. by repeat split. Qed.
Lemma same_continue_error l sts d : reading w l → same_mstep (MContinue false (mkMparser l None sts d)) (SContinue false (mkSparser [] None sts d)).
Proof. intros Hr. repeat split; try done; cbn in *; intuition done. Qed.
Lemma same_skip t l sts d : started w l → same_mstep (MContinue true (mkMparser l (Some t) sts d)) (SContinue true (mkSparser (left l) (Some t) sts d)).
Proof. intros [Hr Hl]. by repeat split. Qed.

#[local] Hint Resolve same_unexpected same_continue same_continue_error same_skip same_emit : core.
#[local] Hint Extern 1 (reading w _) => match goal with H : started _ _ |- _ => exact (proj1 H) end : core.

(** After the token [parse_error]. *)
Ltac bad_token := intros; rewrite ?bool_decide_eq_false_2 by done; by auto.

Lemma same_parse_key val l sts d : started w l → same_mstep (parse_key x val l sts d) (sax_key h val (left l) sts d).
Proof.
  intros Hs. apply same_emit. intros d'. apply same_token; [done| |bad_token].
  intros t l' Hs'. case_bool_decide; [|by auto]. apply same_token; [done|by auto|bad_token].
Qed.

Lemma same_evaluate_state l sts d : started w l → same_mstep (evaluate_state x l sts d) (sax_evaluate h (left l) sts d).
Proof.
  intros Hs. destruct sts as [|[] sts]; cbn; [by split| |]; (apply same_token; [done| |bad_token]); intros t l' Hs'.
  - case_bool_decide; [apply same_token; [done|by auto|bad_token]|]. case_bool_decide; auto.
  - case_bool_decide; [|case_bool_decide; auto]. apply same_token; [done| |bad_token].
    intros t2 l2 Hs2. destruct t2; try (by auto). by apply same_parse_key.
Qed.

Lemma same_value_step l t sts d : reading w l → (t ≠ Some end_of_input → t ≠ None → (length (left l) < length w)%nat) →
  same_mstep (parse_value x (mkMparser l t sts d)) (sax_value h (mkSparser (left l) t sts d)).
Proof.
  intros Hr Hlen. unfold parse_value, sax_value. cbn [last_token m_lexer m_states m_sax s_token s_lexer s_states s_sax].
  destruct t as [t|]; [|by auto]. assert (t ≠ end_of_input → started w l) as Hs by (intros ?; split; [done|apply Hlen; congruence]).
  destruct t; try (by auto); try (apply same_emit; intros d'; apply same_evaluate_state; by apply Hs).
  - destruct (isfinite literal); [apply same_emit; intros d'; apply same_evaluate_state; by apply Hs|].
    apply (same_raise (number_overflow l)). right. by eexists.
  - apply same_emit. intros d'. apply same_token; [by apply Hs| |bad_token]. intros t l' Hs'.
    destruct t; try (by auto). apply same_emit. intros. by apply same_evaluate_state.
  - apply same_emit. intros d'. apply same_token; [by apply Hs| |bad_token]. intros t l' Hs'.
    destruct t; try (by auto); [by apply same_parse_key|]. apply same_emit. intros. by apply same_evaluate_state.
Qed.

Lemma same_round skip p q : same_parser skip p q → same_mstep (parse_round x skip p) (sax_round h skip q).
Proof.
  destruct p as [l t sts d], q as [s t' sts' d']. intros (Ht & Hsts & Hd & Hr & Hlen). cbn in Ht, Hsts, Hd, Hr, Hlen. subst t' sts' d'.
  unfold parse_round, sax_round. destruct skip; cbn [m_lexer m_states m_sax s_lexer s_states s_sax].
  - destruct Hlen as [Hlen <-]; [by left|]. by apply same_evaluate_state.
  - destruct (decide (t = None)) as [->|Hnone]; [exact (same_unexpected None TUninitialized "value" l s d Hr)|].
    destruct (decide (t = Some end_of_input)) as [->|Heof]; [exact (same_unexpected (Some end_of_input) TLiteralOrValue "value" l s d Hr)|].
    destruct Hlen as [Hlen <-]; [by right|]. by apply same_value_step.
Qed.

Definition same_result (r : mresult D) (r' : sax_result D) : Prop :=
  match r, r' with
  | MDone b l d, SaxDone b' s d' => b = b' ∧ d = d' ∧ (b = true → reading w l)
  | MThrew e, SaxThrow e' => ex e = e' ∧ reported w e
  | MAssert, SaxUndefined => True
  | _, _ => False
  end.

Lemma same_internal fuel skip p q : same_parser skip p q →
  match parse_internal x fuel skip p, JsonSax.sax_parse_internal h fuel skip q with
  | Some r, Some r' =>
      same_result r r' ∧ (∀ l d, r = MDone true l d → started w l ∧ r' = SaxDone true (left l) d)
  | None, None => True
  | _, _ => False
  end.
Proof.
  revert skip p q. induction fuel as [|fuel IH]; intros skip p q Hpq; [done|]. cbn.
  pose proof (same_round skip p q Hpq) as Hm.
  destruct (parse_round x skip p) as [skip1 p1|b l d|e| |], (sax_round h skip q) as [skip2 q1|b' s d'|e'| |]; cbn in Hm; try done.
  - destruct Hm as [<- Hpq1]. by apply IH.
  - destruct Hm as (<- & <- & Hb). split; [split; [done|split; [done|]]; intros ->; by destruct (Hb eq_refl) as [[]]|].
    intros l1 d1 [= -> -> ->]. by destruct (Hb eq_refl) as [? <-].
Qed.

(** A parser on a text that has not been read. *)
Lemma same_sax_parse fuel d :
  match sax_parse x fuel w d, JsonSax.sax_parse h fuel w d with
  | Some r, Some r' => same_result r r'
  | None, None => True
  | _, _ => False
  end.
Proof.
  unfold sax_parse, JsonSax.sax_parse, start_parser.
  pose proof (scan_ready w false true (init_lexer w) eq_refl) as Ho. change (left (init_lexer w)) with w in Ho.
  destruct (JsonLexer.scan false true w) as [r|]; [|done].
  assert (∃ t l q, JsonLexerState.scan false (init_lexer w) = LOk t l ∧
    (match r with Token t s => Some (mkSparser s (Some t) [] d) | ParseError _ => Some (mkSparser [] None [] d) end) = Some q ∧
    same_parser false (mkMparser l t [] d) q) as (t & l & q & -> & -> & Hpq).
  { destruct r as [t s|m].
    - destruct Ho as (l & -> & <- & Hr & Hst & _). eexists _, _, _. split; [done|]. split; [done|].
      split; [done|]. split; [done|]. split; [done|]. split; [done|]. cbn. intros [|[_ Ht]]; [done|].
      split; [|done]. apply Hst. left. congruence.
    - destruct Ho as (l & -> & Hr & _). eexists _, _, _. split; [done|]. split; [done|]. repeat split; try done; cbn in *; by intuition. }
  cbn [mbind option_bind]. pose proof (same_internal fuel false _ _ Hpq) as Hi.
  destruct (parse_internal x fuel false _) as [[[] l1 d1|e|]|], (JsonSax.sax_parse_internal h fuel false q) as [r'|]; try done.
  2-4: destruct Hi as [Hi _]; destruct r' as [[]| |]; done || by destruct Hi.
  destruct Hi as [_ Hi]. destruct (Hi l1 d1 eq_refl) as [Hs ->]. cbn [mbind option_bind expect_end].
  pose proof (scan_ready w false false l1 Hs) as Hsc.
  assert (∀ t l2, reading w l2 →
    same_result (match on_error x (p_total (get_position l2)) (get_token_string l2) (syntax_error t TEndOfInput "value" l2) d1 with
                 | inl d => MDone false l2 d | inr e => MThrew e end)
      (match error h (ExJsonParse 101) d1 with inl d => SaxDone false (left l1) d | inr e => SaxThrow e end)) as Herr.
  { intros t2 l2 Hr2. pose proof (same_error (p_total (get_position l2)) (get_token_string l2) (syntax_error t2 TEndOfInput "value" l2) d1) as Hx.
    cbn [ex syntax_error parse_error] in Hx. destruct (on_error x _ _ _ d1); [rewrite Hx; by split|].
    destruct Hx as [-> ->]. split; [done|]. by apply syntax_error_reported. }
  destruct (JsonLexer.scan false false (left l1)) as [[t2 s2|m]|]; [| |done].
  - destruct Hsc as (l2 & -> & _ & Hr2 & _). destruct t2; try (by apply Herr). by split.
  - destruct Hsc as (l2 & -> & Hr2 & _). by apply Herr.
Qed.
End refines.

(** C16 (refinement): On every text [s], [json::parse] on the lexer with its state ends without a failed
    assertion with the value or the exception class and number that [json_parse] gives; when it throws
    [parse_error], its [byte] and the line and column in [what()] are those of a prefix of [s] (and of the
    ends of input that were read after it), the column being 0 when a line feed was put back. *)
Theorem json_parse_what_refines s :
  match json_parse s with
  | inl j => json_parse_what s = Some (inl j)
  | inr e => ∃ x, json_parse_what s = Some (inr x) ∧ ex x = e ∧ reported s x
  end.
Proof.
  destruct (sax_parse_dom s) as (r & Hr & Hj). unfold json_parse_what.
  pose proof (same_sax_parse (dom_reporter true) (dom_handler true) s (accept_fuel s) (mkDom [] JNull, false)) as Hs.
  rewrite Hr in Hs. destruct (json_parse s) as [j|e].
  - destruct Hj as (s' & d & -> & <-). destruct (sax_parse _ _ s _) as [[b l [d' err]|e|]|]; try done.
    by destruct Hs as (-> & [= -> ->] & _).
  - subst r. destruct (sax_parse _ _ s _) as [[b l d'|e'|]|]; try done. destruct Hs as [<- Hrep]. by exists e'.
Qed.

(** ** Examples *)

Definition what_of (s : string) : bytes :=
  match json_parse_what (str s) with Some (inr e) => what e | _ => [] end.

Example message_unexpected : what_of "{'a':1}" =
  b#"[json.exception.parse_error.101] parse error at line 1, column 2: syntax error while parsing object key - invalid literal; last read: '{''; expected string literal".
Proof. vm_compute. reflexivity. Qed.

Example message_end : what_of "" =
  b#"[json.exception.parse_error.101] parse error at line 1, column 1: syntax error while parsing value - unexpected end of input; expected '[', '{', or a literal".
Proof. vm_compute. reflexivity. Qed.

Example message_overflow : what_of "1e999" = b#"[json.exception.out_of_range.406] number overflow parsing '1e999'".
Proof. vm_compute. reflexivity. Qed.

(** The position after a line feed that was put back: the column of the line it ends is lost. *)
Example message_lost_column :
  what_of ("[1 2]") = b#"[json.exception.parse_error.101] parse error at line 1, column 4: syntax error while parsing array - unexpected number literal; expected ']'" ∧
  json_parse_what (b#"[1 2" ++ [LF] ++ b#"]") =
    Some (inr (parse_error 101 (mkPosition 4 0 0) b#"syntax error while parsing array - unexpected number literal; expected ']'")).
Proof. split; vm_compute; reflexivity. Qed.

(** Control characters of the token are escaped. *)
Example message_control :
  json_parse_what [QUOTE; NUL] =
    Some (inr (parse_error 101 (mkPosition 2 2 0)
      (b#"syntax error while parsing value - invalid string: control character U+0000 (NUL) must be escaped to \u0000; last read: '" ++ [QUOTE] ++ b#"<U+0000>'"))).
Proof. vm_compute. reflexivity. Qed.

Example message_pointer : what (parse_error_at 107 1 b#"JSON pointer must be empty or begin with '/' - was: 'foo'") =
  b#"[json.exception.parse_error.107] parse error at byte 1: JSON pointer must be empty or begin with '/' - was: 'foo'".
Proof. vm_compute. reflexivity. Qed.
