(* ===== verification/JsonCallback.v ===== *)
(** * JsonCallback: parsing with a callback that filters
      ([include/nlohmann/json.hpp], class [json_sax_dom_callback_parser])

    The pointers of [ref_stack] are frames, innermost first, as in [JsonParser]; [None] is a
    null pointer.  A container is in its parent from its start on: its frame holds what is
    behind the pointer, and is written back when it ends.  The callback has a state of its own, may throw, and may change
    the value it is given: the value that is then stored, the container that has ended, or the
    member [discarded] of the parser, which it is given when a container starts and which takes the place of what is refused.
    It keeps no reference to what it is given.  A failed assertion, and the use of an empty stack, is undefined. *)

From S2P Require Import Prelude CString Prog JsonValue JsonLexer JsonParser JsonSax.

Inductive parse_event_t := object_start | object_end | array_start | array_end | key_event | value_event.

Definition frame_value (f : frame) : json := match f with FArray es => JArray es | FObject ms _ => JObject ms end.

(** Assigning through the pointer to the element that was added last. *)
Definition replace_last (v : json) (es : list json) : list json := removelast es ++ [v].

(** The first discarded value is erased. *)
Fixpoint erase_discarded (es : list json) : list json :=
  match es with [] => [] | JDiscarded :: es => es | e :: es => e :: erase_discarded es end.
Fixpoint erase_discarded_member (ms : list (bytes * json)) : list (bytes * json) :=
  match ms with [] => [] | (_, JDiscarded) :: ms => ms | m :: ms => m :: erase_discarded_member ms end.

Section callback.
(** What the callback returns with what it leaves in its argument and in its state, or what
    it throws. *)
Context {C : Type} (callback : Z → parse_event_t → json → C → (bool * json * C) + exn).

(** [keep_stack] and [key_keep_stack], innermost first; [c_state] is the callback's. *)
Record cdom := mkCdom {
  c_ref_stack : list (option frame);
  keep_stack : list bool;
  key_keep_stack : list bool;
  c_root : json;
  discarded : json;
  c_state : C
}.

Definition set_refs (st : list (option frame)) (d : cdom) : cdom := mkCdom st (keep_stack d) (key_keep_stack d) (c_root d) (discarded d) (c_state d).
Definition set_keys (keys : list bool) (d : cdom) : cdom := mkCdom (c_ref_stack d) (keep_stack d) keys (c_root d) (discarded d) (c_state d).
Definition set_root (j : json) (d : cdom) : cdom := mkCdom (c_ref_stack d) (keep_stack d) (key_keep_stack d) j (discarded d) (c_state d).
Definition set_keep (keep : list bool) (d : cdom) : cdom := mkCdom (c_ref_stack d) keep (key_keep_stack d) (c_root d) (discarded d) (c_state d).
Definition set_discarded (j : json) (d : cdom) : cdom := mkCdom (c_ref_stack d) (keep_stack d) (key_keep_stack d) (c_root d) j (c_state d).
Definition set_state (c : C) (d : cdom) : cdom := mkCdom (c_ref_stack d) (keep_stack d) (key_keep_stack d) (c_root d) (discarded d) c.

(** The constructor. *)
Definition init_cdom (c : C) : cdom := mkCdom [] [true] [] JNull JDiscarded c.

Definition depth (d : cdom) : Z := blen (c_ref_stack d).

(** A call of the callback: whether to keep the value, and the value it leaves. *)
Definition ask (depth : Z) (ev : parse_event_t) (v : json) (d : cdom) : dres (bool * json * cdom) :=
  match callback depth ev v (c_state d) with
  | inl (keep, v, c) => DOk (keep, v, set_state c d)
  | inr e => DThrow e
  end.

(** [handle_value]: whether the value was stored. *)
Definition c_handle_value (v : json) (skip_callback : bool) (d : cdom) : dres (cdom * bool) :=
  match keep_stack d with
  | [] => DUndef UB_assertion
  | false :: _ => DOk (d, false)
  | true :: _ =>
      '(keep, v, d) ← (if skip_callback then DOk (true, v, d) else ask (depth d) value_event v d);
      if negb keep then DOk (d, false)
      else
        match c_ref_stack d with
        | [] => DOk (set_root v d, true)
        | None :: _ => DOk (d, false)
        | Some (FArray es) :: st => DOk (set_refs (Some (FArray (es ++ [v])) :: st) d, true)
        | Some (FObject ms object_element) :: st =>
            match key_keep_stack d with
            | [] => DUndef UB_assertion
            | store_element :: keys =>
                let d := set_keys keys d in
                if negb store_element then DOk (d, false)
                else match object_element with
                     | None => DUndef UB_assertion
                     | Some k => DOk (set_refs (Some (FObject (map_assign k v ms) object_element) :: st) d, true)
                     end
            end
        end
  end.

Definition c_start (ev : parse_event_t) (f : frame) (d : cdom) : dres cdom :=
  '(keep, x, d) ← ask (depth d) ev (discarded d) d;
  let d := set_keep (keep :: keep_stack d) (set_discarded x d) in
  '(d, stored) ← c_handle_value (frame_value f) true d;
  DOk (set_refs ((if stored : bool then Some f else None) :: c_ref_stack d) d).

(** What the callback leaves in its copy of the key is not used. *)
Definition c_key (val : bytes) (d : cdom) : dres cdom :=
  '(keep, _, d) ← ask (depth d) key_event (JString val) d;
  let d := set_keys (keep :: key_keep_stack d) d in
  if negb keep then DOk d else
  match c_ref_stack d with
  | None :: _ => DOk d
  | Some (FObject ms object_element) :: st =>
      DOk (set_refs (Some (FObject (map_assign val (discarded d) ms) (Some val)) :: st) d)
  | [] | Some (FArray _) :: _ => DUndef UB_out_of_bounds
  end.

(** The value behind the pointer that was at the top of [ref_stack]. *)
Definition write_back (v : json) (d : cdom) : dres cdom :=
  match c_ref_stack d with
  | [] => DOk (set_root v d)
  | Some (FArray es) :: st => DOk (set_refs (Some (FArray (replace_last v es)) :: st) d)
  | Some (FObject ms (Some k)) :: st => DOk (set_refs (Some (FObject (map_assign k v ms) (Some k)) :: st) d)
  | Some (FObject _ None) :: _ | None :: _ => DUndef UB_null
  end.

(** [pop_back] of both stacks, after what the callback decided about the container; [true]
    when it is kept. *)
Definition c_close (ev : parse_event_t) (d : cdom) : dres (cdom * bool) :=
  match c_ref_stack d, keep_stack d with
  | None :: st, _ :: keep => DOk (set_keep keep (set_refs st d), true)
  | Some f :: st, _ :: keep_rest =>
      '(keep, v, d) ← ask (depth d - 1) ev (frame_value f) d;
      d ← write_back (if keep : bool then v else discarded d) (set_keep keep_rest (set_refs st d));
      DOk (d, keep)
  | _, _ => DUndef UB_assertion
  end.

Definition c_end_object (d : cdom) : dres cdom :=
  '(d, _) ← c_close object_end d;
  DOk (match c_ref_stack d with
       | Some (FArray es) :: st => set_refs (Some (FArray (erase_discarded es)) :: st) d
       | Some (FObject ms k) :: st => set_refs (Some (FObject (erase_discarded_member ms) k) :: st) d
       | _ => d
       end).

Definition c_end_array (d : cdom) : dres cdom :=
  '(d, keep) ← c_close array_end d;
  DOk (match c_ref_stack d with
       | Some (FArray es) :: st => if keep : bool then d else set_refs (Some (FArray (removelast es)) :: st) d
       | _ => d
       end).

Definition callback_event (ev : sax_event) (d : cdom * bool) : dres ((cdom * bool) * bool) :=
  let '(d, errored) := d in
  d ← match ev with
      | EvValue v => '(d, _) ← c_handle_value v false d; DOk d
      | EvStartObject => c_start object_start (FObject [] None) d
      | EvKey val => c_key val d
      | EvEndObject => c_end_object d
      | EvStartArray => c_start array_start (FArray []) d
      | EvEndArray => c_end_array d
      end;
  DOk ((d, errored), true).

Definition callback_handler (allow_exceptions : bool) : handler (cdom * bool) :=
  mkHandler _ callback_event (build_error allow_exceptions).

(** [parse] of a parser with the callback, in its state [c]. *)
Definition parse_callback (allow_exceptions : bool) (c : C) (s : bytes) : option (sax_result (cdom * bool)) :=
  parse (callback_handler allow_exceptions) (accept_fuel s) s (init_cdom c, false).

(** [json::parse(input, callback, allow_exceptions)]: a discarded value at the top is null. *)
Definition top_level (j : json) : json := match j with JDiscarded => JNull | _ => j end.
Definition json_parse_callback (allow_exceptions : bool) (c : C) (s : bytes) : json + exn :=
  build_result (λ d, top_level (c_root d)) (parse_callback allow_exceptions c s).
End callback.
Arguments cdom : clear implicits.

(** A callback that refuses the number 2. *)
Definition not_two (_ : Z) (ev : parse_event_t) (v : json) (_ : unit) : (bool * json * unit) + exn :=
  inl (match ev, v with value_event, JUnsigned 2 => false | _, _ => true end, v, tt).

Example filter_array : json_parse_callback not_two true tt b#"[1,2,3]" = inl (JArray [JUnsigned 1; JUnsigned 3]).
Proof. vm_compute. reflexivity. Qed.

Definition two_member : bytes := b#"{" ++ QUOTE :: b#"a" ++ QUOTE :: b#":2}".

Example filter_member : json_parse_callback not_two true tt two_member = inl (JObject [(b#"a", JDiscarded)]).
Proof. vm_compute. reflexivity. Qed.

(** One that numbers the values, and throws at the fourth. *)
Definition numbering (_ : Z) (ev : parse_event_t) (v : json) (n : Z) : (bool * json * Z) + exn :=
  match ev with
  | value_event => if n =? 4 then inr ExLengthError else inl (true, JInteger n, n + 1)
  | _ => inl (true, v, n)
  end.

Example number_array : json_parse_callback numbering true 1 b#"[null,[true,0]]" = inl (JArray [JInteger 1; JArray [JInteger 2; JInteger 3]]).
Proof. vm_compute. reflexivity. Qed.
Example number_throws : json_parse_callback numbering false 1 b#"[0,0,0,0,0]" = inr ExLengthError.
Proof. vm_compute. reflexivity. Qed.

(** One that writes to what it is given at the start of an array, and refuses objects: the
    parser then puts that in their place. *)
Definition tampering (_ : Z) (ev : parse_event_t) (v : json) (_ : unit) : (bool * json * unit) + exn :=
  match ev with array_start => inl (true, JBoolean true, tt) | object_end => inl (false, v, tt) | _ => inl (true, v, tt) end.

Example tampered : json_parse_callback tampering true tt b#"[1,{}]" = inl (JArray [JUnsigned 1; JBoolean true]).
Proof. vm_compute. reflexivity. Qed.

(** ** No assertion fails *)

Definition frame_kind (array : bool) (f : frame) : Prop := match f with FArray _ => array = true | FObject _ _ => array = false end.

(** Where a pointer to an element of the top container can be followed. *)
Definition holder (refs : list (option frame)) : Prop :=
  match refs with [] | Some (FArray _) :: _ | Some (FObject _ (Some _)) :: _ => True | _ => False end.

(** The pointers are to the open containers [sts], or null, and each is to an element of the one before. *)
Fixpoint well_linked (sts : list bool) (refs : list (option frame)) : Prop :=
  match sts, refs with
  | [], [] => True
  | b :: sts, r :: refs => match r with Some f => frame_kind b f ∧ holder refs | None => True end ∧ well_linked sts refs
  | _, _ => False
  end.

Lemma well_linked_top sts r r' st :
  well_linked sts (Some r :: st) → (∀ b, frame_kind b r → frame_kind b r') → well_linked sts (Some r' :: st).
Proof. destruct sts as [|b sts]; [done|]. cbn. intros [[? ?] ?] Hr. auto. Qed.

Section safety.
Context {C : Type} (callback : Z → parse_event_t → json → C → (bool * json * C) + exn).

Record c_inv (sts : list bool) (d : cdom C) : Prop := {
  inv_linked : well_linked sts (c_ref_stack d);
  inv_keep : length (keep_stack d) = S (length sts)
}.

Lemma inv_keep_some sts (d : cdom C) : c_inv sts d → keep_stack d ≠ [].
Proof. intros [_ Hk] E. by rewrite E in Hk. Qed.

(** Inside an object, a value is expected behind a key. *)
Definition has_key (d : cdom C) : Prop :=
  match c_ref_stack d with
  | Some (FObject _ object_element) :: _ =>
      match key_keep_stack d with true :: _ => object_element ≠ None | false :: _ => True | [] => False end
  | _ => True
  end.

(** The exceptions of the callback. *)
Definition callback_throws (e : exn) : Prop := ∃ depth ev v c, callback depth ev v c = inr e.

(** A result with [Q], or an exception of the callback. *)
Definition safe {A} (m : dres A) (Q : A → Prop) : Prop :=
  match m with DOk a => Q a | DThrow e => callback_throws e | DUndef _ => False end.

Lemma safe_bind {A B} (m : dres A) (k : A → dres B) Q R : safe m Q → (∀ a, Q a → safe (k a) R) → safe (m ≫= k) R.
Proof. destruct m; cbn; auto. Qed.

Lemma ask_safe dep ev v (d : cdom C) :
  safe (ask callback dep ev v d) (λ r, ∃ keep v' c, r = (keep, v', set_state c d)).
Proof.
  unfold ask, safe, callback_throws. destruct (callback dep ev v (c_state d)) as [[[keep v'] c]|e] eqn:E; [by eexists _, _, _|eauto].
Qed.

Lemma c_handle_value_safe v skip sts (d : cdom C) :
  well_linked sts (c_ref_stack d) → keep_stack d ≠ [] → has_key d →
  safe (c_handle_value callback v skip d) (λ '(d', stored),
    well_linked sts (c_ref_stack d') ∧ keep_stack d' = keep_stack d ∧ (stored = true → holder (c_ref_stack d'))).
Proof.
  intros Hl Hk Hkey. unfold c_handle_value, has_key in *.
  destruct (keep_stack d) as [|[] keep] eqn:Ek; [done| |by cbn].
  apply (safe_bind _ _ (λ r, ∃ keep v' c, r = (keep, v', set_state c d))).
  { destruct skip; [|apply ask_safe]. exists true, v, (c_state d). by destruct d. }
  intros _ (b & v' & c & ->). destruct b; cbn [negb]; [|by cbn]. cbn [c_ref_stack set_state key_keep_stack].
  destruct (c_ref_stack d) as [|[[es|ms el]|] st] eqn:Er; cbn [well_linked] in Hl.
  - cbn. by rewrite Er.
  - cbn. split; [|done]. by destruct sts.
  - destruct (key_keep_stack d) as [|[] keys]; [done| |].
    + destruct el as [k|]; [|done]. cbn. split; [|done]. by destruct sts.
    + cbn. by rewrite Er.
  - cbn. by rewrite Er.
Qed.

Lemma c_start_safe ev f b sts (d : cdom C) :
  c_inv sts d → has_key d → frame_kind b f →
  safe (c_start callback ev f d) (λ d', c_inv (b :: sts) d' ∧ ∃ r refs, c_ref_stack d' = r :: refs ∧ (r = None ∨ r = Some f)).
Proof.
  intros [Hl Hk] Hkey Hf. unfold c_start. eapply safe_bind; [apply ask_safe|]. intros _ (keep & x & c & ->).
  eapply safe_bind; [by apply (c_handle_value_safe _ _ sts)|]. intros [d2 stored] (Hl2 & Hk2 & Hs). cbn in Hk2.
  split; [|eexists _, _; split; [reflexivity|destruct stored; auto]].
  split; cbn [c_ref_stack keep_stack set_refs well_linked length]; [destruct stored; auto|]. by rewrite Hk2, <- Hk.
Qed.

Lemma write_back_safe v sts (d : cdom C) :
  well_linked sts (c_ref_stack d) → holder (c_ref_stack d) →
  safe (write_back v d) (λ d', well_linked sts (c_ref_stack d') ∧ keep_stack d' = keep_stack d).
Proof.
  intros Hl Hh. unfold write_back. destruct (c_ref_stack d) as [|[[es|ms [k|]]|] st] eqn:Er; try done; cbn; rewrite ?Er;
    (split; [|done]); by destruct sts.
Qed.

Lemma c_close_safe ev b sts (d : cdom C) : c_inv (b :: sts) d → safe (c_close callback ev d) (λ '(d', _), c_inv sts d').
Proof.
  intros [Hl Hk]. unfold c_close. destruct (c_ref_stack d) as [|r st] eqn:Er; [done|]. cbn [well_linked] in Hl. destruct Hl as [Hr Hl].
  destruct (keep_stack d) as [|k keep] eqn:Ek; [done|]. cbn in Hk. injection Hk as Hk. destruct r as [f|]; [|by split].
  eapply safe_bind; [apply ask_safe|]. intros _ (kp & x & c & ->). destruct Hr as [_ Hh].
  eapply safe_bind; [by apply (write_back_safe _ sts)|]. intros d' [Hl' Hk']. split; [done|]. by rewrite Hk'.
Qed.

Lemma c_end_object_safe b sts (d : cdom C) : c_inv (b :: sts) d → safe (c_end_object callback d) (c_inv sts).
Proof.
  intros Hi. eapply safe_bind; [by apply (c_close_safe _ b sts)|]. intros [d' keep] [Hl Hk].
  destruct (c_ref_stack d') as [|[[es|ms el]|] st] eqn:Er; split; cbn [set_refs c_ref_stack keep_stack]; rewrite ?Er; try done;
    by eapply well_linked_top.
Qed.

Lemma c_end_array_safe b sts (d : cdom C) : c_inv (b :: sts) d → safe (c_end_array callback d) (c_inv sts).
Proof.
  intros Hi. eapply safe_bind; [by apply (c_close_safe _ b sts)|]. intros [d' keep] [Hl Hk].
  destruct (c_ref_stack d') as [|[[es|ms el]|] st] eqn:Er, keep; split; cbn [set_refs c_ref_stack keep_stack]; rewrite ?Er; try done.
  by eapply well_linked_top.
Qed.

Lemma c_key_safe val sts (d : cdom C) : c_inv (false :: sts) d → safe (c_key callback val d) (λ d', c_inv (false :: sts) d' ∧ has_key d').
Proof.
  intros [Hl Hk]. eapply safe_bind; [apply ask_safe|]. intros _ (kp & x & c & ->). cbn [c_ref_stack set_keys set_state].
  destruct (c_ref_stack d) as [|[[es|ms el]|] st] eqn:Er; cbn [well_linked] in Hl; [done| | |].
  - by destruct Hl as [[? _] _].
  - destruct kp; (split; [split; cbn [set_refs set_keys set_state c_ref_stack keep_stack]; rewrite ?Er; done|]); [done|].
    unfold has_key. cbn. by rewrite Er.
  - destruct kp; (split; [split; cbn; rewrite ?Er; done|]); unfold has_key; cbn; by rewrite Er.
Qed.

(** Where a value, a key or the end is expected; nothing has failed. *)
Definition c_ready (sts : list bool) (d : cdom C * bool) (_ : unit) : Prop := c_inv sts d.1 ∧ has_key d.1 ∧ d.2 = false.
Definition c_opened (sts : list bool) (d : cdom C * bool) (_ : unit) : Prop := c_inv (false :: sts) d.1 ∧ d.2 = false.
Definition c_done (sts : list bool) (d : cdom C * bool) (_ : unit) : Prop := c_inv sts d.1 ∧ d.2 = false.
(** What [parse_error] gives. *)
Definition c_failed (allow_exceptions : bool) (r1 : cdom C * bool + exn) (r2 : unit + exn) : Prop :=
  match r1 with inl d => d.2 = true ∧ allow_exceptions = false | inr _ => allow_exceptions = true end ∧ ∃ d, r2 = inl d.

#[local] Instance safety_simulation allow_exceptions :
  Simulation (callback_handler callback allow_exceptions) acceptor c_ready c_opened c_done (c_failed allow_exceptions) callback_throws.
Proof.
  split.
  - intros ev sts [d err] [] post H. cbn [event callback_handler acceptor callback_event].
    assert (∀ m Q, safe m Q → (∀ d', Q d' → post (d', err) tt) →
      (∃ e, (d ← m; DOk ((d, err), true)) = DThrow e ∧ callback_throws e) ∨
      ∃ d1' d2', (d ← m; DOk ((d, err), true)) = DOk (d1', true) ∧ DOk (tt, true) = DOk (d2', true) ∧ post d1' d2') as Hgo.
    { intros [d'|e|u] Q Hm Hp; cbn in *; [right; eauto 6|left; eauto|done]. }
    destruct ev.
    + destruct H as (_ & (Hi & Hkey & Herr) & ->). cbn in Hi, Hkey, Herr.
      eapply Hgo; [eapply safe_bind; [apply (c_handle_value_safe v false sts d); [apply Hi|by eapply inv_keep_some|done]|]|].
      * intros [d' stored] (Hl & Hk & _). assert (c_inv sts d') as Hi' by (split; [done|]; rewrite Hk; apply Hi). exact Hi'.
      * intros d' Hd. by split.
    + destruct H as [(Hi & Hkey & Herr) ->]. eapply Hgo; [by apply (c_start_safe object_start (FObject [] None) false sts)|].
      intros d' [Hd _]. by split.
    + destruct H as [H ->]. assert (c_inv (false :: sts) d ∧ err = false) as [Hi Herr] by (by destruct H).
      eapply Hgo; [by apply (c_key_safe val sts)|]. intros d' [Hd Hk]. by split.
    + destruct H as [H ->]. assert (c_inv (false :: sts) d ∧ err = false) as [Hi Herr] by (by destruct H).
      eapply Hgo; [by apply (c_end_object_safe false sts)|]. intros d' Hd. by split.
    + destruct H as [(Hi & Hkey & Herr) ->]. eapply Hgo; [by apply (c_start_safe array_start (FArray []) true sts)|].
      intros d' (Hd & r & refs & Er & Hr). split; [done|]. split; [|done]. unfold has_key. cbn. rewrite Er. by destruct Hr as [-> | ->].
    + destruct H as [H ->]. assert (c_inv (true :: sts) d ∧ err = false) as [Hi Herr] by (destruct H as [(? & ? & ?)|[? ?]]; auto).
      eapply Hgo; [by apply (c_end_array_safe true sts)|]. intros d' Hd. by split.
  - intros sts [d err] [] [Hi Herr]. split; [done|]. split; [|done]. unfold has_key. cbn in *. destruct Hi as [Hl _].
    destruct (c_ref_stack d) as [|[[es|ms el]|] st]; try done. by destruct Hl as [[? _] _].
  - intros e sts [d err] [] _. cbn. unfold c_failed, build_error. destruct allow_exceptions; cbn; eauto.
Qed.

#[export] Instance callback_settles allow_exceptions : Settles (callback_handler callback allow_exceptions).
Proof.
  split.
  - intros ev [d err] [d' err'] b. cbn. destruct (match ev with EvValue _ => _ | _ => _ end); cbn; by intros [= _ _ <-] || done.
  - intros e [d err] d'. cbn. unfold build_error. destruct allow_exceptions; [done|]. by intros [= <-].
Qed.
End safety.
#[local] Existing Instance safety_simulation.

(** ** A callback that keeps everything *)

Definition keep_all (_ : Z) (_ : parse_event_t) (v : json) (_ : unit) : (bool * json * unit) + exn := inl (true, v, tt).

Definition kept (f : frame) : Prop :=
  match f with
  | FArray es => Forall (λ j, j ≠ JDiscarded) es
  | FObject ms _ => Forall (λ m, m.2 ≠ JDiscarded) ms
  end.

(** The frame [r] of the callback parser already holds [x], where the other parser will put
    the value that is under construction. *)
Definition placed (x : json) (f : frame) (r : option frame) : Prop :=
  kept f ∧ match f with
           | FArray es => r = Some (FArray (es ++ [x]))
           | FObject ms (Some k) => r = Some (FObject (map_assign k x ms) (Some k))
           | FObject _ None => False
           end.

Fixpoint linked (x : json) (refs : list frame) (crefs : list (option frame)) (croot : json) : Prop :=
  match refs, crefs with
  | [], [] => croot = x
  | f :: refs, r :: crefs => placed x f r ∧ ∃ y, linked y refs crefs croot
  | _, _ => False
  end.

(** The innermost container is the same on both sides. *)
Definition complete (refs : list frame) (root : json) (crefs : list (option frame)) (croot : json) : Prop :=
  match refs, crefs with
  | [], [] => croot = root ∧ root ≠ JDiscarded
  | f :: refs, r :: crefs => r = Some f ∧ kept f ∧ ∃ y, linked y refs crefs croot
  | _, _ => False
  end.

Definition all_kept (d : cdom unit) : Prop :=
  keep_stack d = repeat true (S (length (c_ref_stack d))) ∧ discarded d = JDiscarded.

(** The open containers are objects and arrays as the states of the parser say. *)
Definition shaped (sts : list bool) (d : dom) : Prop := Forall2 frame_kind sts (ref_stack d).

Definition k_done (sts : list bool) (d : dom * bool) (c : cdom unit * bool) : Prop :=
  complete (ref_stack d.1) (root d.1) (c_ref_stack c.1) (c_root c.1) ∧ all_kept c.1 ∧ shaped sts d.1 ∧ d.2 = c.2.

Definition ready (d : dom) (c : cdom unit) : Prop :=
  match ref_stack d, c_ref_stack c with
  | [], [] => True
  | f :: refs, r :: crefs =>
      match f with
      | FArray _ => r = Some f ∧ kept f
      | FObject _ _ => placed JDiscarded f r ∧ ∃ keys, key_keep_stack c = true :: keys
      end ∧ ∃ y, linked y refs crefs (c_root c)
  | _, _ => False
  end.

Definition k_ready (sts : list bool) (d : dom * bool) (c : cdom unit * bool) : Prop := ready d.1 c.1 ∧ all_kept c.1 ∧ shaped sts d.1 ∧ d.2 = c.2.

Lemma kept_assign k v ms el el' : v ≠ JDiscarded → kept (FObject ms el) → kept (FObject (map_assign k v ms) el').
Proof. cbn. rewrite !Forall_forall. intros Hv Hms m [->|Hm]%map_assign_elem; [done|by apply Hms]. Qed.

Lemma linked_complete v d crefs croot :
  v ≠ JDiscarded → linked v (ref_stack d) crefs croot → complete (ref_stack (handle_value v d)) (root (handle_value v d)) crefs croot.
Proof.
  intros Hv. unfold handle_value. destruct (ref_stack d) as [|[es|ms [k|]] refs], crefs as [|r crefs]; cbn; try done.
  - intros [[Hk ->] Hy]. split; [done|]. split; [|done]. apply Forall_app. split; [exact Hk|]. by constructor; [exact Hv|constructor].
  - intros [[Hk ->] Hy]. split; [done|]. split; [|done]. by apply (kept_assign k v ms (Some k) None).
  - by intros [[_ []] _].
Qed.

Lemma ask_keep_all dep ev v c : ask keep_all dep ev v c = DOk (true, v, c).
Proof. by destruct c as [? ? ? ? ? []]. Qed.

Lemma kept_handle_value v skip d c keep :
  ready d c → keep_stack c = true :: keep → ∃ c', c_handle_value keep_all v skip c = DOk (c', true) ∧
    linked v (ref_stack d) (c_ref_stack c') (c_root c') ∧ keep_stack c' = keep_stack c ∧ length (c_ref_stack c') = length (c_ref_stack c) ∧
    discarded c' = discarded c.
Proof.
  unfold ready, c_handle_value. intros H Hk. rewrite Hk.
  assert ((if skip then DOk (true, v, c) else ask keep_all (depth c) value_event v c) = DOk (true, v, c)) as ->
    by (destruct skip; [done|apply ask_keep_all]). cbn [mbind dres_bind negb].
  destruct (ref_stack d) as [|[es|ms el] refs], (c_ref_stack c) as [|r crefs] eqn:Er; try done.
  - eexists. split; [reflexivity|]. cbn. by rewrite Er.
  - destruct H as [[-> Hes] Hy]. eexists. split; [reflexivity|]. by cbn.
  - destruct H as [[[Hms Hr] [keys Ek]] Hy]. destruct el as [k|]; [|done]. subst r. rewrite Ek. cbn [negb].
    eexists. split; [reflexivity|]. cbn. by rewrite map_assign_twice.
Qed.

Lemma kept_start ev f d c :
  kept f → ready d c → all_kept c → ∃ c', c_start keep_all ev f c = DOk c' ∧
    complete (f :: ref_stack d) (root d) (c_ref_stack c') (c_root c') ∧ all_kept c'.
Proof.
  intros Hf H [Hk Hd]. unfold c_start. rewrite ask_keep_all. cbn [mbind dres_bind].
  destruct (kept_handle_value (frame_value f) true d (set_keep (true :: keep_stack c) (set_discarded (discarded c) c)) _ H eq_refl)
    as (c' & -> & Hl & Hk' & Hlen & Hd').
  cbn [mbind dres_bind]. eexists. split; [reflexivity|]. cbn [c_ref_stack set_refs c_root complete]. split; [by eauto|].
  unfold all_kept in *. cbn in *. rewrite Hk', Hk, Hlen. by rewrite Hd'.
Qed.

Lemma kept_write_back x v refs (c : cdom unit) :
  linked x refs (c_ref_stack c) (c_root c) → ∃ c', write_back v c = DOk c' ∧
    linked v refs (c_ref_stack c') (c_root c') ∧ keep_stack c' = keep_stack c ∧ length (c_ref_stack c') = length (c_ref_stack c) ∧
    discarded c' = discarded c.
Proof.
  unfold write_back. destruct refs as [|[es|ms el] refs], (c_ref_stack c) as [|r crefs] eqn:Er; cbn; try done.
  - intros _. eexists. split; [reflexivity|]. cbn. by rewrite Er.
  - intros [[Hk ->] Hy]. eexists. split; [reflexivity|]. cbn. unfold replace_last. by rewrite removelast_last.
  - intros [[Hk Hr] Hy]. destruct el as [k|]; [|done]. subst r. eexists. split; [reflexivity|]. cbn. by rewrite map_assign_twice.
Qed.

Lemma frame_value_kept f : frame_value f ≠ JDiscarded.
Proof. by destruct f. Qed.

Lemma kept_close ev d c f refs :
  ref_stack d = f :: refs → complete (ref_stack d) (root d) (c_ref_stack c) (c_root c) → all_kept c →
  ∃ c', c_close keep_all ev c = DOk (c', true) ∧
    complete (ref_stack (end_container d)) (root (end_container d)) (c_ref_stack c') (c_root c') ∧ all_kept c'.
Proof.
  intros Hd H [Hk Hdis]. unfold c_close, all_kept. rewrite Hd in H. destruct (c_ref_stack c) as [|r crefs] eqn:Er; [done|].
  destruct H as (-> & Hf & y & Hl). rewrite Hk. cbn [length repeat]. rewrite ask_keep_all. cbn [mbind dres_bind].
  destruct (kept_write_back y (frame_value f) refs (set_keep (true :: repeat true (length crefs)) (set_refs crefs c)) Hl) as (c' & -> & Hl' & Hk' & Hlen & Hd').
  cbn [mbind dres_bind]. eexists. split; [reflexivity|]. split; [|by rewrite Hk', Hlen, Hd'].
  assert (end_container d = handle_value (frame_value f) (mkDom refs (root d))) as -> by (unfold end_container; rewrite Hd; by destruct f).
  by apply linked_complete; [apply frame_value_kept|].
Qed.

Lemma erase_discarded_kept es : Forall (λ j, j ≠ JDiscarded) es → erase_discarded es = es.
Proof. induction 1 as [|e es He _ IH]; cbn; [done|]. destruct e; by rewrite ?IH. Qed.
Lemma erase_discarded_member_kept ms : Forall (λ m : bytes * json, m.2 ≠ JDiscarded) ms → erase_discarded_member ms = ms.
Proof. induction 1 as [|[k e] ms He _ IH]; cbn in *; [done|]. destruct e; by rewrite ?IH. Qed.

Lemma kept_end (array : bool) d c f refs :
  ref_stack d = f :: refs → complete (ref_stack d) (root d) (c_ref_stack c) (c_root c) → all_kept c →
  ∃ c', (if array then c_end_array keep_all c else c_end_object keep_all c) = DOk c' ∧
    complete (ref_stack (end_container d)) (root (end_container d)) (c_ref_stack c') (c_root c') ∧ all_kept c'.
Proof.
  intros Hd H Hk. destruct array.
  - unfold c_end_array. destruct (kept_close array_end d c f refs Hd H Hk) as (c' & -> & H' & Hk'). cbn [mbind dres_bind].
    exists c'. split; [|done]. by destruct (c_ref_stack c') as [|[[]|] ?].
  - unfold c_end_object. destruct (kept_close object_end d c f refs Hd H Hk) as (c' & -> & H' & Hk'). cbn [mbind dres_bind].
    exists c'. split; [|done]. revert H'. destruct c' as [crefs keep keys rt dis st]. cbn. destruct (ref_stack (end_container d)), crefs as [|r crefs]; try done.
    intros (-> & Hf & _). destruct f0; cbn in Hf; unfold set_refs; cbn; by rewrite ?erase_discarded_kept, ?erase_discarded_member_kept.
Qed.

Lemma shaped_handle_value sts v d : shaped sts d → shaped sts (handle_value v d).
Proof.
  unfold shaped, handle_value. destruct (ref_stack d) as [|[es|ms [k|]] refs] eqn:Er; rewrite <- ?Er; try done;
    rewrite ?Er; inversion_clear 1; by constructor.
Qed.

Lemma shaped_end b sts d : shaped (b :: sts) d → ∃ f refs, ref_stack d = f :: refs ∧ frame_kind b f ∧ shaped sts (end_container d).
Proof.
  unfold shaped. intros (f & refs & Hf & Hrefs & Er)%Forall2_cons_inv_l. exists f, refs. split; [done|]. split; [done|].
  unfold end_container. rewrite Er. destruct f; by apply shaped_handle_value.
Qed.

Lemma done_ready sts d c : k_done (true :: sts) d c ↔ k_ready (true :: sts) d c.
Proof.
  destruct d as [d err], c as [c err']. unfold k_done, k_ready, ready, complete, shaped. cbn [fst snd].
  split; intros (H & Hk & (f & refs & Hf & Hrefs & Er)%Forall2_cons_inv_l & Herr); rewrite Er in *; (destruct (c_ref_stack c); [done|]);
    (destruct f; [|done]); (split; [|split; [done|split; [by constructor|done]]]).
  - destruct H as (? & ? & ?). done.
  - destruct H as ((? & ?) & ?). done.
Qed.

Lemma k_end (b : bool) sts d c allow_exceptions :
  k_done (b :: sts) d c → let ev := if b then EvEndArray else EvEndObject in
  ∃ d' c', event (dom_handler allow_exceptions) ev d = DOk (d', true) ∧
    event (callback_handler keep_all allow_exceptions) ev c = DOk (c', true) ∧ k_done sts d' c'.
Proof.
  destruct d as [d err], c as [c err']. intros (H & Hk & Hs & Herr). cbn [fst snd] in *.
  destruct (shaped_end _ _ _ Hs) as (f & refs & Er & _ & Hs'). destruct (kept_end b d c f refs Er H Hk) as (c' & E & H' & Hk').
  exists (end_container d, err), (c', err'). destruct b; cbn; rewrite E; exact (conj eq_refl (conj eq_refl (conj H' (conj Hk' (conj Hs' Herr))))).
Qed.

#[local] Instance keep_all_simulation allow_exceptions :
  Simulation (dom_handler allow_exceptions) (callback_handler keep_all allow_exceptions) k_ready
    (λ sts, k_done (false :: sts)) k_done
    (λ r1 r2, match r1, r2 with inl d, inl c => d.2 = true ∧ c.2 = true | inr e, inr e' => e = e' | _, _ => False end) (λ _, False).
Proof.
  split.
  - intros ev sts [d err] [c err'] post H. destruct ev.
    + destruct H as (Hv & (H & Hk & Hs & Herr) & ->). cbn [fst snd] in *.
      destruct (kept_handle_value v false d c _ H (proj1 Hk)) as (c' & E & Hl & Hk' & Hlen & Hdis).
      right. exists (handle_value v d, err), (c', err'). split; [done|]. split; [cbn [event callback_handler callback_event]; by rewrite E|].
      split; [apply linked_complete; [by destruct v|done]|]. split; [|split; [by apply shaped_handle_value|done]].
      cbn [fst]. unfold all_kept in *. by rewrite Hk', Hlen, Hdis.
    + destruct H as ((H & Hk & Hs & Herr) & ->). cbn [fst snd] in *.
      destruct (kept_start object_start (FObject [] None) d c) as (c' & E & Hc & Hk'); [constructor|done..|].
      right. exists (start_object d, err), (c', err'). split; [done|]. split; [cbn [event callback_handler callback_event]; by rewrite E|]. split; [exact Hc|]. split; [exact Hk'|]. split; [by constructor|done].
    + destruct H as (H & ->). assert (k_done (false :: sts) (d, err) (c, err')) as (Hc & Hk & Hs & Herr) by tauto. clear H.
      cbn [fst snd] in *. unfold shaped in Hs. apply Forall2_cons_inv_l in Hs as (f & refs & Hf & Hrefs & Er). destruct f as [|ms el]; [done|].
      unfold complete in Hc. rewrite Er in Hc. destruct (c_ref_stack c) as [|r crefs] eqn:Ec; [done|]. destruct Hc as (-> & Hms & Hl).
      right. exists (key val d, err), (set_refs (Some (FObject (map_assign val JDiscarded ms) (Some val)) :: crefs) (set_keys (true :: key_keep_stack c) c), err').
      split; [done|]. split.
      { cbn [event callback_handler callback_event]. unfold c_key. rewrite ask_keep_all. cbn. by rewrite Ec, (proj2 Hk). } unfold key. rewrite Er.
      split; [|split; [unfold all_kept in *; cbn; by destruct Hk as [-> ->]; rewrite Ec|split; [by constructor|done]]].
      unfold ready. cbn. split; [split; [by split|by eauto]|exact Hl].
    + destruct H as (H & ->). right. apply (k_end false). tauto.
    + destruct H as ((H & Hk & Hs & Herr) & ->). cbn [fst snd] in *.
      destruct (kept_start array_start (FArray []) d c) as (c' & E & Hc & Hk'); [constructor|done..|].
      right. exists (start_array d, err), (c', err'). split; [done|]. split; [cbn [event callback_handler callback_event]; by rewrite E|].
      apply done_ready. split; [exact Hc|]. split; [exact Hk'|]. split; [by constructor|done].
    + destruct H as (H & ->). right. apply (k_end true). rewrite <- done_ready in H. tauto.
  - intros sts d c. apply done_ready.
  - intros e sts [d err] [c err'] H. cbn. unfold build_error. by destruct allow_exceptions.
Qed.

(** C37 (safety): for every callback, which may keep a state, change the value it is given and throw,
    every input and either setting of [allow_exceptions], the parser with the callback comes to an end
    without a failed assertion and without using an empty stack or a null pointer.  It returns only
    exceptions of the callback and, with exceptions on and on the inputs [accept] refuses, its own;
    otherwise it has an error exactly on those inputs. *)
Theorem callback_safe {C} callback allow_exceptions (c : C) s :
  ∃ r, parse_callback callback allow_exceptions c s = Some r ∧
    match r with
    | SaxDone b _ (_, errored) => b = accept s ∧ errored = negb (accept s) ∧ (errored = true → allow_exceptions = false)
    | SaxThrow e => callback_throws callback e ∨ (accept s = false ∧ allow_exceptions = true)
    | SaxUndefined => False
    end.
Proof.
  destruct (accept_total s) as (s' & Ha). unfold parse_callback. rewrite parse_sax_parse by apply _.
  assert (c_ready [] (init_cdom c, false) tt) as H0 by (repeat split; constructor).
  pose proof (rel_sax_parse (h1 := callback_handler callback allow_exceptions) (h2 := acceptor) (accept_fuel s) s _ _ H0) as H.
  rewrite Ha in H. remember (Some (SaxDone (accept s) s' tt)) as r2 eqn:E. destruct H as [|r1 r2 H|e o He]; [done| |exists (SaxThrow e); by split; [|left]].
  exists r1. split; [done|]. destruct H as [s2 [d1 err] d2 [_ Herr]|s2 r1 r2 [Hr [d ->]]].
  - injection E as <- _ _. cbn in Herr. by subst err.
  - injection E as <- _ _. destruct r1 as [[d1 err]|e]; cbn in *; [by destruct Hr as [-> ->]|auto].
Qed.

(** With a callback that keeps everything, [parse] gives what it gives
    without one. *)
Lemma callback_keep_all allow_exceptions s : json_parse_callback keep_all allow_exceptions tt s = json_parse_with allow_exceptions s.
Proof.
  unfold json_parse_callback, json_parse_with, parse_callback. rewrite !parse_sax_parse by apply _.
  assert (k_ready [] (mkDom [] JNull, false) (init_cdom tt, false)) as H0 by (repeat split; constructor).
  pose proof (rel_sax_parse (h1 := dom_handler allow_exceptions) (h2 := callback_handler keep_all allow_exceptions) (accept_fuel s) s _ _ H0) as H.
  destruct H as [|r1 r2 H|]; [done| |done].
  destruct H as [s2 [d err] [c err'] (Hc & _ & Hs & He)|s2 [[d err]|e] [[c err']|e'] He]; cbn in *; try done.
  - apply Forall2_nil_inv_l in Hs. rewrite Hs in Hc. subst err'. destruct err; [done|].
    destruct (c_ref_stack c); [|done]. destruct Hc as [-> Hc]. by destruct (root d).
  - by destruct He as [-> ->].
  - by subst e'.
Qed.
