(* ===== verification/BinaryIO.v ===== *)
(** * BinaryIO: what the binary formats of the JSON library share
      ([include/nlohmann/json.hpp], classes [binary_reader] and [binary_writer])

    Numbers in network order or in little-endian order, the reader as a state monad over
    the input that is left, the byte read last and the value under construction
    ([json_sax_dom_parser]), and its errors.  A writer is a function to the bytes it
    gives to the output adapter. *)

From S2P Require Import Prelude CString Prog JsonValue JsonParser.

(** ** Numbers as bytes *)

(** The object representation of an unsigned integer of [n] bytes, on a little-endian
    machine. *)
Fixpoint le_bytes (n : nat) (z : Z) : bytes :=
  match n with O => [] | S n => Zbyte z :: le_bytes n (Z.shiftr z 8) end.
Fixpoint le_value (s : bytes) : Z :=
  match s with [] => 0 | c :: s => byteZ c + 256 * le_value s end.

(** A pattern of [w] bits as a signed integer. *)
Definition signed (w z : Z) : Z := let x := wrap w z in if x <? 2 ^ (w - 1) then x else x - 2 ^ w.

(** [write_number<NumberType, OutputIsLittleEndian>(n)] for a number of [size] bytes. *)
Definition write_number (OutputIsLittleEndian : bool) (size : nat) (n : Z) : bytes :=
  if OutputIsLittleEndian then le_bytes size n else rev (le_bytes size n).

(** Doubles, on the literals that represent them. *)
Class FloatBits := {
  float_bits : bytes → Z;                    (** the 64 bits of a double *)
  float_of_bits : Z → bytes;
  float_bits32 : bytes → option Z;           (** the bits of a float, when it has the same value *)
  float_of_bits32 : Z → bytes;               (** a float, converted to a double *)
  float_isnan : bytes → bool;
  float_isinf : bytes → option bool;         (** infinite; with its sign, [true] when negative *)
  float_ldexp : bool → Z → Z → bytes;        (** sign, mantissa, exponent *)
  float_infinity : bool → bytes;
  float_nan : bool → bytes
}.

(** In network order. *)
Definition write_big (size : nat) (n : Z) : bytes := write_number false size n.

(** [write_compact_float], the prefixes being those of the format. *)
Definition write_compact_float `{FloatBits} (float_prefix double_prefix : Z) (l : bytes) : bytes :=
  match float_bits32 l with
  | Some b => Zbyte float_prefix :: write_big 4 b
  | None => Zbyte double_prefix :: write_big 8 (float_bits l)
  end.

Definition in_range (c lo hi : Z) : bool := (lo <=? c) && (c <=? hi).

(** ** The reader *)

Record reader := mkReader {
  current : option Z;        (** [None] for [eof] *)
  ia : bytes;                (** what is left of the input *)
  builder : dom;             (** [sax] *)
  allow_exceptions : bool
}.

(** What a member function that returns [bool] does: [true] with a result, [false], an
    exception, or no end within the fuel. *)
Inductive rres (A : Type) :=
| ROk (a : A) (r : reader)
| RFalse (r : reader)
| RThrow (e : exn)
| RNoFuel.
Arguments ROk {A} a r.
Arguments RFalse {A} r.
Arguments RThrow {A} e.
Arguments RNoFuel {A}.

Definition R (A : Type) : Type := reader → rres A.

#[export] Instance R_ret : MRet R := λ A a r, ROk a r.
#[export] Instance R_bind : MBind R :=
  λ A B f m r,
    match m r with
    | ROk a r => f a r
    | RFalse r => RFalse r
    | RThrow e => RThrow e
    | RNoFuel => RNoFuel
    end.

Definition rthrow {A} (e : exn) : R A := λ _, RThrow e.
Definition rfalse {A} : R A := λ r, RFalse r.
Definition rnofuel {A} : R A := λ _, RNoFuel.

(** [sax->parse_error]. *)
Definition parse_error {A} (id : Z) : R A := λ r,
  if allow_exceptions r then RThrow (ExJsonParse id) else RFalse r.

(** A call whose result is not looked at. *)
Definition ignored {A} (m : R A) : R unit := λ r,
  match m r with
  | ROk _ r | RFalse r => ROk tt r
  | RThrow e => RThrow e
  | RNoFuel => RNoFuel
  end.

Definition get_current : R (option Z) := λ r, ROk (current r) r.

Definition get : R (option Z) := λ r,
  match ia r with
  | c :: s => ROk (Some (byteZ c)) (mkReader (Some (byteZ c)) s (builder r) (allow_exceptions r))
  | [] => ROk None (mkReader None [] (builder r) (allow_exceptions r))
  end.

(** [unexpect_eof]: the byte read last. *)
Definition unexpect_eof : R Z := λ r,
  match current r with Some c => ROk c r | None => parse_error 110 r end.

(** The loop of [get_string], [get_binary] and [get_number]: [len] times [get] and
    [unexpect_eof]; none at all when [len] is not positive. *)
Fixpoint get_chars (len : Z) (cur : option Z) (s : bytes) : option (bytes * option Z * bytes) :=
  if len <=? 0 then Some ([], cur, s)
  else match s with
       | [] => None
       | c :: s =>
           match get_chars (len - 1) (Some (byteZ c)) s with
           | Some (t, cur, s) => Some (c :: t, cur, s)
           | None => None
           end
       end.

Definition get_string (len : Z) : R bytes := λ r,
  match get_chars len (current r) (ia r) with
  | Some (t, cur, s) => ROk t (mkReader cur s (builder r) (allow_exceptions r))
  | None => parse_error 110 (mkReader None [] (builder r) (allow_exceptions r))
  end.

(** [get_binary] differs in the type of its result only. *)
Definition get_binary (len : Z) : R bytes := get_string len.

(** [get_number<NumberType, InputIsLittleEndian>] for an unsigned type of [size] bytes. *)
Definition get_number (InputIsLittleEndian : bool) (size : nat) : R Z :=
  vec ← get_string (Z.of_nat size);
  mret (le_value (if InputIsLittleEndian then vec else rev vec)).

(** The same for a signed type. *)
Definition get_signed (InputIsLittleEndian : bool) (size : nat) : R Z :=
  n ← get_number InputIsLittleEndian size; mret (signed (8 * Z.of_nat size) n).

Definition get_big (size : nat) : R Z := get_number false size.

(** ** The events of [json_sax_dom_parser] *)

Definition sax_event (f : dom → dom) : R unit := λ r,
  ROk tt (mkReader (current r) (ia r) (f (builder r)) (allow_exceptions r)).

Definition sax_value (v : json) : R unit := sax_event (handle_value v).
Definition sax_key (k : bytes) : R unit := sax_event (key k).
Definition sax_end : R unit := sax_event end_container.

(** [static_cast<std::size_t>(-1)]: the size is not known. *)
Definition NO_SIZE : Z := 2 ^ 64 - 1.

(** [std::map<std::string, basic_json>::max_size()]: 80 bytes for a node. *)
Definition OBJECT_MAX_SIZE : Z := 115292150460684697.

Definition sax_start_array (len : Z) : R unit :=
  sax_event start_array;;
  if negb (len =? NO_SIZE) && (ARRAY_MAX_SIZE <? len) then rthrow (ExJsonOutOfRange 408) else mret tt.
Definition sax_start_object (len : Z) : R unit :=
  sax_event start_object;;
  if negb (len =? NO_SIZE) && (OBJECT_MAX_SIZE <? len) then rthrow (ExJsonOutOfRange 408) else mret tt.

(** ** Loops *)

(** [for (std::size_t i = 0; i < len; ++i)]. *)
Fixpoint for_each (fuel : nat) (len : Z) (body : R unit) : R unit :=
  if len <=? 0 then mret tt
  else match fuel with
       | O => rnofuel
       | S fuel => body;; for_each fuel (len - 1) body
       end.

(** [while (get() != stop)]. *)
Fixpoint get_until (fuel : nat) (stop : Z) (body : R unit) : R unit :=
  match fuel with
  | O => rnofuel
  | S fuel =>
      c ← get;
      if bool_decide (c = Some stop) then mret tt else body;; get_until fuel stop body
  end.

(** The same, collecting what the rounds give. *)
Fixpoint get_chunks (fuel : nat) (stop : Z) (chunk : R bytes) (result : bytes) : R bytes :=
  match fuel with
  | O => rnofuel
  | S fuel =>
      c ← get;
      if bool_decide (c = Some stop) then mret result
      else t ← chunk; get_chunks fuel stop chunk (result ++ t)
  end.

(** ** [sax_parse] and the static functions *)

(** The end of [sax_parse] for the formats other than UBJSON. *)
Definition expect_end (strict : bool) : R unit :=
  if strict then c ← get; (match c with None => mret tt | Some _ => parse_error 110 end) else mret tt.

(** [from_cbor] and the like; [None] when the fuel ends first. *)
Definition from_binary (sax_parse : R unit) (exceptions : bool) (i : bytes) : option (json + exn) :=
  match sax_parse (mkReader None i (mkDom [] JNull) exceptions) with
  | ROk _ r => Some (inl (root (builder r)))
  | RFalse _ => Some (inl JDiscarded)
  | RThrow e => Some (inr e)
  | RNoFuel => None
  end.

(** ** Numbers are read back *)

Lemma length_le_bytes n z : length (le_bytes n z) = n.
Proof. revert z. induction n as [|n IH]; intros z; cbn; [done|]. by rewrite IH. Qed.

Lemma le_value_bytes n z : le_value (le_bytes n z) = z mod 2 ^ (8 * Z.of_nat n).
Proof.
  revert z. induction n as [|n IH]; intros z; [cbn; by rewrite Z.mod_1_r|].
  cbn [le_bytes le_value]. rewrite IH, byteZ_Zbyte, Z.shiftr_div_pow2 by lia.
  replace (8 * Z.of_nat (S n)) with (8 + 8 * Z.of_nat n) by lia. rewrite Z.pow_add_r by lia.
  rewrite Z.rem_mul_r by lia. change (2 ^ 8) with 256. lia.
Qed.

Lemma le_value_range s : 0 ≤ le_value s < 2 ^ (8 * blen s).
Proof.
  induction s as [|c s IH]; [done|]. cbn [le_value]. rewrite blen_cons.
  pose proof (blen_nonneg s). pose proof (byteZ_range c).
  replace (8 * (1 + blen s)) with (8 + 8 * blen s) by lia. rewrite Z.pow_add_r by lia. change (2 ^ 8) with 256. lia.
Qed.

Lemma signed_small w z : 0 < w → - 2 ^ (w - 1) ≤ z < 2 ^ (w - 1) → signed w z = z.
Proof.
  intros Hw Hz. unfold signed, wrap. replace (2 ^ w) with (2 * 2 ^ (w - 1)) by (rewrite <- Z.pow_succ_r; f_equal; lia).
  destruct (Z.neg_nonneg_cases z).
  - replace (z mod (2 * 2 ^ (w - 1))) with (z + 2 * 2 ^ (w - 1)); [destruct (Z.ltb_spec (z + 2 * 2 ^ (w - 1)) (2 ^ (w - 1))); lia|].
    apply Z.mod_unique with (-1); lia.
  - rewrite Z.mod_small by lia. destruct (Z.ltb_spec z (2 ^ (w - 1))); lia.
Qed.

Lemma signed_wrap w z : 0 < w → signed w (z mod 2 ^ w) = signed w z.
Proof. intros. unfold signed, wrap. by rewrite Z.mod_mod by lia. Qed.

(** ** What a read leaves *)

(** The byte read last after reading [s]. *)
Definition last_byte (s : bytes) (cur : option Z) : option Z :=
  match last s with Some c => Some (byteZ c) | None => cur end.

Lemma last_byte_cons c s cur : last_byte (c :: s) cur = last_byte s (Some (byteZ c)).
Proof. unfold last_byte. by destruct s as [|d s]; [|rewrite last_cons; destruct (last (d :: s)) eqn:E; [|by apply last_None in E]]. Qed.

Lemma get_chars_app s rest cur : get_chars (blen s) cur (s ++ rest) = Some (s, last_byte s cur, rest).
Proof.
  revert cur. induction s as [|c s IH]; intros cur; [by destruct rest|]. cbn [app get_chars].
  pose proof (blen_nonneg s). rewrite blen_cons. destruct (Z.leb_spec (1 + blen s) 0); [lia|].
  replace (1 + blen s - 1) with (blen s) by lia. by rewrite IH, last_byte_cons.
Qed.

Section reads.
Context (d : dom) (b : bool).

Lemma get_string_app s rest cur :
  get_string (blen s) (mkReader cur (s ++ rest) d b) = ROk s (mkReader (last_byte s cur) rest d b).
Proof. unfold get_string. cbn. by rewrite get_chars_app. Qed.

Lemma get_number_write le size n rest cur :
  get_number le size (mkReader cur (write_number le size n ++ rest) d b) =
  ROk (n mod 2 ^ (8 * Z.of_nat size)) (mkReader (last_byte (write_number le size n) cur) rest d b).
Proof.
  assert (blen (write_number le size n) = Z.of_nat size) as Hl.
  { unfold write_number, blen. destruct le; [by rewrite length_le_bytes|by rewrite length_rev, length_le_bytes]. }
  unfold get_number, mbind, R_bind. rewrite <- Hl at 1. rewrite get_string_app. unfold mret, R_ret.
  unfold write_number. by destruct le; rewrite ?rev_involutive, le_value_bytes.
Qed.

Lemma get_signed_write le size n rest cur :
  (0 < size)%nat → - 2 ^ (8 * Z.of_nat size - 1) ≤ n < 2 ^ (8 * Z.of_nat size - 1) →
  get_signed le size (mkReader cur (write_number le size n ++ rest) d b) =
  ROk n (mkReader (last_byte (write_number le size n) cur) rest d b).
Proof.
  intros Hs Hn. unfold get_signed, mbind, R_bind. rewrite get_number_write. unfold mret, R_ret.
  by rewrite signed_wrap, signed_small by lia.
Qed.

Lemma get_app c rest cur :
  get (mkReader cur (c :: rest) d b) = ROk (Some (byteZ c)) (mkReader (Some (byteZ c)) rest d b).
Proof. done. Qed.
End reads.

Lemma length_write_number le size n : length (write_number le size n) = size.
Proof. unfold write_number. destruct le; [apply length_le_bytes|]. by rewrite length_rev, length_le_bytes. Qed.
