(* ===== verification/BinaryReads.v ===== *)
(** * BinaryReads: reasoning about the readers of the binary formats

    [reads m s f a]: when the input begins with [s], the action [m] reads exactly [s],
    gives [a] and does [f] to the value under construction.  [ends E n k m]: on an input of
    at most [n] bytes [m] comes to an end, having read at least [k] bytes when it
    succeeds, and fails in the ways that [E] allows only. *)

From S2P Require Import Prelude CString Prog JsonValue JsonParser BinaryIO.

(** Decide the comparisons of a [switch] on a byte whose range is known. *)
Ltac range_tests :=
  unfold in_range;
  repeat match goal with
  | |- context [?a <=? ?b] => first [rewrite (proj2 (Z.leb_le a b)) by lia|rewrite (proj2 (Z.leb_gt a b)) by lia]
  | |- context [?a =? ?b] => first [rewrite (proj2 (Z.eqb_eq a b)) by lia|rewrite (proj2 (Z.eqb_neq a b)) by lia]
  end; cbn [andb orb].

Lemma byte_range z : 0 ≤ z < 256 → byteZ (Zbyte z) = z.
Proof. intros. by rewrite byteZ_Zbyte, Z.mod_small. Qed.

(** Doubles are kept by the conversions to and from their bits ([IEEE 754]); [ok] holds for
    the literals that represent doubles. *)
Class FloatBitsLaws `{FloatBits} (ok : bytes → Prop) := {
  float_bits_range l : ok l → 0 ≤ float_bits l < 2 ^ 64;
  float_of_bits_bits l : ok l → float_of_bits (float_bits l) = l;
  float_bits32_range l b : ok l → float_bits32 l = Some b → 0 ≤ b < 2 ^ 32;
  float_of_bits32_bits l b : ok l → float_bits32 l = Some b → float_of_bits32 b = l;
  float_isnan_nan l : ok l → float_isnan l = true → float_nan false = l;
  float_isinf_infinity l negative : ok l → float_isinf l = Some negative → float_infinity negative = l
}.

(** Doubles given by their eight bytes satisfy the laws. *)
Definition byte_floats : FloatBits := {|
  float_bits := le_value;
  float_of_bits := le_bytes 8;
  float_bits32 := λ _, None;
  float_of_bits32 := le_bytes 8;
  float_isnan := λ _, false;
  float_isinf := λ _, None;
  float_ldexp := λ negative mant exp, le_bytes 8 (if negative then - mant else mant);
  float_infinity := λ negative, le_bytes 8 (if negative then -1 else 0);
  float_nan := λ _, le_bytes 8 1
|}.

Lemma le_bytes_value s : le_bytes (length s) (le_value s) = s.
Proof.
  induction s as [|c s IH]; [done|]. cbn [length le_bytes le_value]. pose proof (byteZ_range c). f_equal.
  - apply byteZ_inj. rewrite byteZ_Zbyte. rewrite Z.mul_comm, Z.mod_add, Z.mod_small by lia. done.
  - rewrite Z.shiftr_div_pow2 by lia. change (2 ^ 8) with 256. rewrite Z.mul_comm, Z.div_add, Z.div_small by lia. apply IH.
Qed.

Definition byte_floats_laws : FloatBitsLaws (H := byte_floats) (λ l, length l = 8%nat).
Proof.
  split; try done.
  - intros l Hl. change (0 ≤ le_value l < 2 ^ 64). pose proof (le_value_range l) as Hr. unfold blen in Hr. by rewrite Hl in Hr.
  - intros l Hl. change (le_bytes 8 (le_value l) = l). rewrite <- Hl at 1. apply le_bytes_value.
Defined.

(** ** Reading what was written *)

Definition reads_at {A} (cur : option Z) (m : R A) (s : bytes) (f : dom → dom) (a : A) : Prop :=
  ∀ rest d b, ∃ cur', m (mkReader cur (s ++ rest) d b) = ROk a (mkReader cur' rest (f d) b).

Definition reads {A} (m : R A) (s : bytes) (f : dom → dom) (a : A) : Prop := ∀ cur, reads_at cur m s f a.

Lemma reads_at_bind {A B} cur (m : R A) (k : A → R B) s t f g a b :
  reads_at cur m s f a → reads (k a) t g b → reads_at cur (m ≫= k) (s ++ t) (λ d, g (f d)) b.
Proof.
  intros Hm Hk rest d e. destruct (Hm (t ++ rest) d e) as [cur1 H1]. destruct (Hk cur1 rest (f d) e) as [cur2 H2].
  exists cur2. unfold mbind, R_bind. by rewrite <- app_assoc, H1.
Qed.

Lemma reads_bind {A B} (m : R A) (k : A → R B) s t f g a b :
  reads m s f a → reads (k a) t g b → reads (m ≫= k) (s ++ t) (λ d, g (f d)) b.
Proof. intros Hm Hk cur. by eapply reads_at_bind. Qed.

Lemma reads_at_ext {A} cur (m : R A) s f g a : (∀ d, f d = g d) → reads_at cur m s f a → reads_at cur m s g a.
Proof. intros Hfg Hm rest d b. rewrite <- Hfg. apply Hm. Qed.

Lemma reads_ext {A} (m : R A) s f g a : (∀ d, f d = g d) → reads m s f a → reads m s g a.
Proof. intros Hfg Hm cur. by eapply reads_at_ext. Qed.

Lemma reads_ret {A} (a : A) : reads (mret a) [] (λ d, d) a.
Proof. intros cur rest d b. by eexists. Qed.

Lemma reads_event f : reads (sax_event f) [] f tt.
Proof. intros cur rest d b. by eexists. Qed.

Lemma reads_get {A} (k : option Z → R A) c s f a :
  reads_at (Some (byteZ c)) (k (Some (byteZ c))) s f a → reads (get ≫= k) (c :: s) f a.
Proof. intros Hk cur rest d b. apply Hk. Qed.

Lemma reads_current {A} (k : Z → R A) c s f a :
  reads_at (Some c) (k c) s f a → reads_at (Some c) (unexpect_eof ≫= k) s f a.
Proof. intros Hk rest d b. apply Hk. Qed.

Lemma reads_byte {A} (k : Z → R A) c s f a :
  reads (k (byteZ c)) s f a → reads (get ≫= λ _, unexpect_eof ≫= k) (c :: s) f a.
Proof. intros Hk. apply reads_get, reads_current, Hk. Qed.

Lemma reads_string s : reads (get_string (blen s)) s (λ d, d) s.
Proof. intros cur rest d b. eexists. apply get_string_app. Qed.

Lemma reads_number le size n :
  0 ≤ n < 2 ^ (8 * Z.of_nat size) → reads (get_number le size) (write_number le size n) (λ d, d) n.
Proof. intros Hn cur rest d b. eexists. by rewrite get_number_write, Z.mod_small. Qed.

Lemma reads_signed le size n :
  (0 < size)%nat → - 2 ^ (8 * Z.of_nat size - 1) ≤ n < 2 ^ (8 * Z.of_nat size - 1) →
  reads (get_signed le size) (write_number le size n) (λ d, d) n.
Proof. intros Hs Hn cur rest d b. eexists. by apply get_signed_write. Qed.

(** An action that does not touch the value, and another one. *)
Lemma reads_seq {A B} (m : R A) (k : A → R B) s t g a b :
  reads m s (λ d, d) a → reads (k a) t g b → reads (m ≫= k) (s ++ t) g b.
Proof. intros Hm Hk. by apply (reads_bind m k s t (λ d, d) g a b). Qed.

Lemma reads_at_seq {A B} cur (m : R A) (k : A → R B) s t g a b :
  reads_at cur m s (λ d, d) a → reads (k a) t g b → reads_at cur (m ≫= k) (s ++ t) g b.
Proof. intros Hm Hk. by apply (reads_at_bind cur m k s t (λ d, d) g a b). Qed.

(** The end: what was read becomes a value. *)
Lemma reads_value {A} (m : R A) (v : A → json) s a :
  reads m s (λ d, d) a → reads (m ≫= λ a, sax_value (v a)) s (handle_value (v a)) tt.
Proof. intros Hm. rewrite <- (app_nil_r s). apply (reads_seq m _ s [] _ a); [done|apply reads_event]. Qed.

Lemma reads_at_value {A} cur (m : R A) (v : A → json) s a :
  reads_at cur m s (λ d, d) a → reads_at cur (m ≫= λ a, sax_value (v a)) s (handle_value (v a)) tt.
Proof. intros Hm. rewrite <- (app_nil_r s). apply (reads_at_seq cur m _ s [] _ a); [done|apply reads_event]. Qed.

Lemma reads_big size n : 0 ≤ n < 2 ^ (8 * Z.of_nat size) → reads (get_big size) (write_big size n) (λ d, d) n.
Proof. apply (reads_number false). Qed.

(** A loop over what was written for the elements of a list. *)
Lemma reads_for_each {X} (enc : X → bytes) (f : X → dom → dom) body fuel l :
  (length l ≤ fuel)%nat → Forall (λ x, reads body (enc x) (f x) tt) l →
  reads (for_each fuel (blen l) body) (concat (enc <$> l)) (λ d, foldl (λ d x, f x d) d l) tt.
Proof.
  intros Hl Hx. revert fuel Hl. induction Hx as [|x l Hx _ IH]; intros fuel Hl; [destruct fuel; apply reads_ret|].
  cbn in Hl. destruct fuel as [|fuel]; [lia|]. cbn [for_each]. rewrite blen_cons. pose proof (blen_nonneg l).
  rewrite (proj2 (Z.leb_gt _ _)) by lia. replace (1 + blen l - 1) with (blen l) by lia.
  apply (reads_bind body _ (enc x) _ (f x) (λ d, foldl (λ d x, f x d) d l) tt); [exact Hx|]. apply IH. lia.
Qed.

(** Containers. *)
Lemma build_elements es es0 st rt :
  foldl (λ d v, handle_value v d) (mkDom (FArray es0 :: st) rt) es = mkDom (FArray (es0 ++ es) :: st) rt.
Proof. revert es0. induction es as [|e es IH]; intros es0; cbn; [by rewrite app_nil_r|]. by rewrite IH, <- app_assoc. Qed.

Lemma build_array es d : end_container (foldl (λ d v, handle_value v d) (start_array d) es) = handle_value (JArray es) d.
Proof. unfold start_array. rewrite build_elements. by destruct d. Qed.

Lemma build_members ms ms0 k0 st rt :
  sorted_keys (ms0 ++ ms) = true →
  ∃ k, foldl (λ d m, handle_value m.2 (key m.1 d)) (mkDom (FObject ms0 k0 :: st) rt) ms =
    mkDom (FObject (ms0 ++ ms) k :: st) rt.
Proof.
  revert ms0 k0. induction ms as [|[k v] ms IH]; intros ms0 k0 Hs; cbn; [rewrite app_nil_r; by eexists|].
  pose proof (sorted_keys_before _ _ _ _ Hs) as Hk. rewrite (cons_middle (k, v)), app_assoc in Hs |- *.
  rewrite map_assign_last by done. by apply IH.
Qed.

Lemma sorted_keys_map (g : json → json) (ms : list (bytes * json)) :
  sorted_keys ms = true → sorted_keys (prod_map id g <$> ms) = true.
Proof.
  induction ms as [|[k j] ms IH]; [done|]. intros [Ha Hs]%sorted_keys_cons. cbn [fmap list_fmap prod_map].
  apply sorted_keys_cons. split; [|by apply IH]. unfold above in *. by apply Forall_fmap.
Qed.

Lemma build_object ms d :
  sorted_keys ms = true →
  end_container (foldl (λ d m, handle_value m.2 (key m.1 d)) (start_object d) ms) = handle_value (JObject ms) d.
Proof.
  intros Hs. unfold start_object. destruct (build_members ms [] None (ref_stack d) (root d) Hs) as [k ->]. by destruct d.
Qed.

Lemma concat_length {X} (enc : X → bytes) l :
  Forall (λ x, (1 ≤ length (enc x))%nat) l →
  (length l ≤ length (concat (enc <$> l)))%nat ∧ Forall (λ x, (length (enc x) ≤ length (concat (enc <$> l)))%nat) l.
Proof.
  induction 1 as [|x l Hx _ [IH1 IH2]]; [done|]. cbn. rewrite length_app. split; [lia|]. constructor; [lia|].
  eapply Forall_impl; [exact IH2|]. cbn. lia.
Qed.

(** A double after its prefix. *)
Lemma reads_double `{FloatBitsLaws ok} l : ok l →
  reads (n ← get_big 8; sax_value (JFloat (float_of_bits n))) (write_big 8 (float_bits l)) (handle_value (JFloat l)) tt.
Proof.
  intros Hl. pose proof (reads_value (get_big 8) (λ n, JFloat (float_of_bits n)) (write_big 8 (float_bits l)) (float_bits l)
    (reads_big 8 _ (float_bits_range l Hl))) as Hr. cbv beta in Hr. by rewrite float_of_bits_bits in Hr.
Qed.

Lemma reads_single `{FloatBitsLaws ok} l b : ok l → float_bits32 l = Some b →
  reads (n ← get_big 4; sax_value (JFloat (float_of_bits32 n))) (write_big 4 b) (handle_value (JFloat l)) tt.
Proof.
  intros Hl Hb. pose proof (reads_value (get_big 4) (λ n, JFloat (float_of_bits32 n)) (write_big 4 b) b
    (reads_big 4 _ (float_bits32_range l b Hl Hb))) as Hr. cbv beta in Hr. by rewrite (float_of_bits32_bits l) in Hr.
Qed.

Lemma foldl_fmap {A B C} (f : A → C → A) (g : B → C) l a : foldl (λ a x, f a (g x)) a l = foldl f a (g <$> l).
Proof. revert a. induction l as [|x l IH]; intros a; [done|]. cbn. apply IH. Qed.

Section containers.
Context (g : json → json) (enc : json → bytes) (body : R unit) (fuel : nat).

(** A whole array, [g] being what reading does to a value. *)
Lemma reads_array es :
  blen es ≤ ARRAY_MAX_SIZE → (length es ≤ fuel)%nat →
  Forall (λ e, reads body (enc e) (handle_value (g e)) tt) es →
  reads (sax_start_array (blen es);; for_each fuel (blen es) body;; sax_end) (concat (enc <$> es))
    (handle_value (JArray (g <$> es))) tt.
Proof.
  intros Hmax Hl Hes. rewrite <- (app_nil_l (concat _)).
  eapply (reads_ext _ _ (λ d, end_container (foldl (λ d e, handle_value (g e) d) (start_array d) es))).
  { intros d. by rewrite (foldl_fmap (λ d v, handle_value v d)), build_array. }
  apply (reads_bind _ _ _ _ start_array (λ d, end_container (foldl (λ d e, handle_value (g e) d) d es)) tt).
  - unfold sax_start_array. unfold ARRAY_MAX_SIZE in *. rewrite (proj2 (Z.ltb_ge _ (blen es))), andb_false_r by lia.
    apply (reads_bind _ _ [] [] start_array (λ d, d) tt); [apply reads_event|apply reads_ret].
  - rewrite <- (app_nil_r (concat _)).
    apply (reads_bind _ _ _ _ (λ d, foldl (λ d e, handle_value (g e) d) d es) end_container tt); [|apply reads_event].
    by apply (reads_for_each enc (λ e, handle_value (g e))).
Qed.

(** A whole object. *)
Lemma reads_object (menc : bytes * json → bytes) ms :
  blen ms ≤ OBJECT_MAX_SIZE → (length ms ≤ fuel)%nat → sorted_keys ms = true →
  Forall (λ m, reads body (menc m) (λ d, handle_value (g m.2) (key m.1 d)) tt) ms →
  reads (sax_start_object (blen ms);; for_each fuel (blen ms) body;; sax_end) (concat (menc <$> ms))
    (handle_value (JObject (prod_map id g <$> ms))) tt.
Proof.
  intros Hmax Hl Hs Hms. rewrite <- (app_nil_l (concat _)).
  eapply (reads_ext _ _ (λ d, end_container (foldl (λ d m, handle_value (g m.2) (key m.1 d)) (start_object d) ms))).
  { intros d. rewrite <- build_object.
    - f_equal. by rewrite <- (foldl_fmap (λ d m, handle_value m.2 (key m.1 d)) (prod_map id g)).
    - by apply sorted_keys_map. }
  apply (reads_bind _ _ _ _ start_object (λ d, end_container (foldl (λ d m, handle_value (g m.2) (key m.1 d)) d ms)) tt).
  - unfold sax_start_object. unfold OBJECT_MAX_SIZE in *. rewrite (proj2 (Z.ltb_ge _ (blen ms))), andb_false_r by lia.
    apply (reads_bind _ _ [] [] start_object (λ d, d) tt); [apply reads_event|apply reads_ret].
  - rewrite <- (app_nil_r (concat _)).
    apply (reads_bind _ _ _ _ (λ d, foldl (λ d m, handle_value (g m.2) (key m.1 d)) d ms) end_container tt);
      [|apply reads_event].
    by apply (reads_for_each menc (λ m d, handle_value (g m.2) (key m.1 d))).
Qed.
End containers.

(** ** Coming to an end *)

Definition failure : Type := bool → option exn → Prop.

Section ends.
Context (E : failure).

Definition post {A} (k : nat) (r : reader) (res : rres A) : Prop :=
  match res with
  | ROk _ r' => (length (ia r') + k ≤ length (ia r))%nat ∧ allow_exceptions r' = allow_exceptions r
  | RFalse r' => (length (ia r') ≤ length (ia r))%nat ∧ allow_exceptions r' = allow_exceptions r
                 ∧ E (allow_exceptions r) None
  | RThrow e => E (allow_exceptions r) (Some e)
  | RNoFuel => False
  end.

Definition ends {A} (n k : nat) (m : R A) : Prop := ∀ r, (length (ia r) ≤ n)%nat → post k r (m r).

Lemma ends_bind {A B} n k k' (m : R A) (f : A → R B) :
  ends n k m → (∀ a, (k ≤ n)%nat → ends (n - k) k' (f a)) → ends n (k + k') (m ≫= f).
Proof.
  intros Hm Hf r Hr. specialize (Hm r Hr). unfold mbind, R_bind. destruct (m r) as [a r1|r1|e|]; cbn in *; [|done..].
  destruct Hm as [Hl Hb]. specialize (Hf a ltac:(lia) r1 ltac:(lia)). destruct (f a r1) as [a2 r2|r2|e|]; cbn in *; [..|done].
  - destruct Hf as [? ?]. split; [lia|congruence].
  - destruct Hf as (? & ? & ?). rewrite <- Hb. split; [lia|]. by split.
  - by rewrite <- Hb.
Qed.

(** The first action need not read, and the second may. *)
Lemma ends_bind0 {A B} n k (m : R A) (f : A → R B) :
  ends n 0 m → (∀ a, ends n k (f a)) → ends n k (m ≫= f).
Proof. intros Hm Hf. apply (ends_bind n 0 k); [done|]. intros a _. by rewrite Nat.sub_0_r. Qed.

Lemma ends_weaken {A} n n' k k' (m : R A) : (n' ≤ n)%nat → (k' ≤ k)%nat → ends n k m → ends n' k' m.
Proof. intros Hn Hk Hm r Hr. specialize (Hm r ltac:(lia)). destruct (m r); cbn in *; intuition lia. Qed.

Lemma ends_ret {A} n (a : A) : ends n 0 (mret a).
Proof. intros r _. cbn. split; [lia|done]. Qed.

Lemma ends_event n f : ends n 0 (sax_event f).
Proof. intros r _. cbn. split; [lia|done]. Qed.

Lemma ends_throw {A} n k e : (∀ b, E b (Some e)) → ends n k (rthrow e : R A).
Proof. intros He r _. apply He. Qed.

Definition may_fail (id : Z) : Prop := E true (Some (ExJsonParse id)) ∧ E false None.

Lemma post_error {A} k r id : may_fail id → post k r (parse_error id r : rres A).
Proof. intros [H1 H2]. unfold parse_error. destruct (allow_exceptions r) eqn:Eb; cbn; rewrite ?Eb; auto. Qed.

Lemma ends_error {A} n k id : may_fail id → ends n k (parse_error id : R A).
Proof. intros H r _. by apply post_error. Qed.

Lemma ends_ignored {A} n (m : R A) : ends n 0 m → ends n 0 (ignored m).
Proof.
  intros Hm r Hr. specialize (Hm r Hr). unfold ignored. destruct (m r); cbn in *; try done.
  destruct Hm as (? & ? & _). split; [lia|done].
Qed.

Lemma ends_get n : ends n 0 get.
Proof. intros r _. unfold get. destruct (ia r) as [|c s] eqn:Ei; cbn; rewrite Ei; cbn; split; (lia || done). Qed.

Lemma ends_current n : ends n 0 get_current.
Proof. intros r _. cbn. split; [lia|done]. Qed.

Lemma ends_unexpect_eof n : may_fail 110 → ends n 0 unexpect_eof.
Proof. intros H r _. unfold unexpect_eof. destruct (current r); [cbn; split; [lia|done]|by apply post_error]. Qed.

Lemma get_chars_spec len cur s t cur' s' :
  get_chars len cur s = Some (t, cur', s') → (length s' + Z.to_nat len ≤ length s)%nat.
Proof.
  revert len cur t cur' s'. induction s as [|c s IH]; intros len cur t cur' s'; cbn.
  - destruct (Z.leb_spec len 0); [intros [= <- <- <-]; cbn; lia|done].
  - destruct (Z.leb_spec len 0); [intros [= <- <- <-]; cbn; lia|].
    destruct (get_chars (len - 1) _ s) as [[[t1 c1] s1]|] eqn:Eg; [|done]. intros [= <- <- <-]. apply IH in Eg. lia.
Qed.

Lemma ends_string n len : may_fail 110 → ends n (Z.to_nat len) (get_string len).
Proof.
  intros H r _. unfold get_string. destruct (get_chars len (current r) (ia r)) as [[[t cur] s]|] eqn:Eg.
  - apply get_chars_spec in Eg. cbn. split; [lia|done].
  - destruct H as [H1 H2]. unfold parse_error. destruct (allow_exceptions r) eqn:Eb; cbn; rewrite ?Eb; [done|].
    split; [lia|done].
Qed.

Lemma ends_number n le size : may_fail 110 → ends n size (get_number le size).
Proof.
  intros H. eapply ends_weaken; [reflexivity| |apply (ends_bind n (Z.to_nat (Z.of_nat size)) 0)];
    [lia|by apply ends_string|intros; apply ends_ret].
Qed.

Lemma ends_start_array n len : (∀ b, E b (Some (ExJsonOutOfRange 408))) → ends n 0 (sax_start_array len).
Proof. intros H. apply ends_bind0; [apply ends_event|]. intros _. destruct (_ && _); [by apply ends_throw|apply ends_ret]. Qed.

Lemma ends_start_object n len : (∀ b, E b (Some (ExJsonOutOfRange 408))) → ends n 0 (sax_start_object len).
Proof. intros H. apply ends_bind0; [apply ends_event|]. intros _. destruct (_ && _); [by apply ends_throw|apply ends_ret]. Qed.

(** A round that reads something ends the loop in time. *)
Lemma ends_for_each fuel n len body : (n < fuel)%nat → ends n 1 body → ends n 0 (for_each fuel len body).
Proof.
  revert n len. induction fuel as [|fuel IH]; intros n len Hn Hb; [lia|]. cbn [for_each].
  destruct (len <=? 0); [apply ends_ret|]. eapply (ends_weaken n n (1 + 0)); [lia..|].
  apply ends_bind; [done|]. intros _ Hpos. apply IH; [lia|]. by eapply ends_weaken; [..|exact Hb]; lia.
Qed.

(** The body of [get_until] starts from the byte read last: it fails at the end of the input. *)
Definition needs_current {A} (m : R A) : Prop := ∀ r, current r = None → ia r = [] → post 1 r (m r).

Lemma needs_current_eof {A} (k : Z → R A) : may_fail 110 → needs_current (unexpect_eof ≫= k).
Proof.
  intros H r Hr _. unfold mbind, R_bind, unexpect_eof. rewrite Hr. destruct H as [H1 H2]. unfold parse_error.
  destruct (allow_exceptions r) eqn:Eb; cbn; rewrite ?Eb; [done|]. split; [lia|done].
Qed.

(** One more [get] before an action that needs the byte. *)
Lemma ends_get_needs {A} n k (m : option Z → R A) :
  (∀ a, (0 < n)%nat → ends (n - 1) k (m (Some a))) → needs_current (m None) → ends n (S k) (get ≫= m).
Proof.
  intros Hm Hc r Hr. unfold mbind, R_bind, get. destruct (ia r) as [|c s] eqn:Ei; cbn in Hr.
  - specialize (Hc (mkReader None [] (builder r) (allow_exceptions r)) eq_refl eq_refl).
    destruct (m None _) as [a r'|r'|e|]; cbn in *; rewrite ?Ei; [lia|done..].
  - specialize (Hm (byteZ c) ltac:(lia) (mkReader (Some (byteZ c)) s (builder r) (allow_exceptions r)) ltac:(cbn; lia)).
    destruct (m _ _) as [a r'|r'|e|]; cbn in *; rewrite ?Ei; cbn; [split; [lia|apply Hm]|split; [lia|apply Hm]|done..].
Qed.

Lemma needs_current_bind {A B} (m : R A) (f : A → R B) : needs_current m → needs_current (m ≫= f).
Proof.
  intros Hm r Hr Hi. specialize (Hm r Hr Hi). unfold mbind, R_bind. destruct (m r); cbn in *; [|done..].
  rewrite Hi in Hm. cbn in Hm. lia.
Qed.

Lemma ends_get_until fuel n stop body :
  (n < fuel)%nat → ((0 < n)%nat → ends (n - 1) 0 body) → needs_current body → may_fail 110 → ends n 0 (get_until fuel stop body).
Proof.
  revert n. induction fuel as [|fuel IH]; intros n Hn Hb Hc H; [lia|]. cbn [get_until].
  eapply (ends_weaken n n 1); [lia..|]. apply ends_get_needs.
  - intros c Hpos. case_bool_decide; [apply ends_ret|]. apply ends_bind0; [by apply Hb|]. intros _.
    apply IH; [lia| |done..]. intros _. by eapply ends_weaken; [..|exact (Hb Hpos)]; lia.
  - rewrite bool_decide_eq_false_2 by done. by apply needs_current_bind.
Qed.

Lemma ends_get_chunks fuel n stop chunk result :
  (n < fuel)%nat → ((0 < n)%nat → ends (n - 1) 0 chunk) → needs_current chunk → may_fail 110 →
  ends n 0 (get_chunks fuel stop chunk result).
Proof.
  revert n result. induction fuel as [|fuel IH]; intros n result Hn Hb Hc H; [lia|]. cbn [get_chunks].
  eapply (ends_weaken n n 1); [lia..|]. apply ends_get_needs.
  - intros c Hpos. case_bool_decide; [apply ends_ret|]. apply ends_bind0; [by apply Hb|]. intros t.
    apply IH; [lia| |done..]. intros _. by eapply ends_weaken; [..|exact (Hb Hpos)]; lia.
  - rewrite bool_decide_eq_false_2 by done. by apply needs_current_bind.
Qed.

Lemma ends_expect_end n strict : may_fail 110 → ends n 0 (expect_end strict).
Proof.
  intros H. unfold expect_end. destruct strict; [|apply ends_ret].
  apply ends_bind0; [apply ends_get|]. intros [c|]; [by apply ends_error|apply ends_ret].
Qed.

(** The static functions give a value or an exception that [E] allows. *)
Lemma from_binary_ends n k m exceptions i :
  (length i ≤ n)%nat → ends n k m →
  ∃ res, from_binary m exceptions i = Some res ∧ ∀ e, res = inr e → E exceptions (Some e).
Proof.
  intros Hi Hm. specialize (Hm (mkReader None i (mkDom [] JNull) exceptions) Hi). unfold from_binary.
  destruct (m _) as [[] r|r|e|]; cbn in Hm; [..|done]; eexists; (split; [done|]); try done. by intros ? [= <-].
Qed.
End ends.

(** What was written is read by the static functions, and nothing may follow it. *)
Lemma from_binary_reads m s j exceptions strict rest :
  reads m s (handle_value j) tt →
  from_binary (m;; expect_end strict) exceptions (s ++ rest) =
  Some (if strict then match rest with
                       | [] => inl j
                       | _ :: _ => if exceptions then inr (ExJsonParse 110) else inl JDiscarded
                       end
        else inl j).
Proof.
  intros Hm. destruct (Hm None rest (mkDom [] JNull) exceptions) as [cur Hr]. unfold from_binary, mbind, R_bind.
  rewrite Hr. unfold expect_end. destruct strict; [|done]. unfold mbind, R_bind, get. destruct rest as [|c rest]; [done|].
  cbn. unfold parse_error. cbn. by destruct exceptions.
Qed.
