(* ===== verification/Cbor.v ===== *)
(** * Cbor: the CBOR format ([include/nlohmann/json.hpp], [write_cbor] and
      [parse_cbor_internal])

    The writer, one definition per type of value, and the reader, whose recursion and
    loops are bounded by fuel. *)

From S2P Require Import Prelude CString Prog JsonValue JsonParser BinaryIO.

(** ** Writing *)

(** The shortest of the five forms of a number or a length [N], for the major type whose
    first byte is [base]. *)
Definition cbor_head (base N : Z) : bytes :=
  if N <=? 0x17 then write_big 1 (base + N)
  else if N <=? 0xFF then Zbyte (base + 0x18) :: write_big 1 N
  else if N <=? 0xFFFF then Zbyte (base + 0x19) :: write_big 2 N
  else if N <=? 0xFFFFFFFF then Zbyte (base + 0x1A) :: write_big 4 N
  else Zbyte (base + 0x1B) :: write_big 8 N.

Definition cbor_unsigned (z : Z) : bytes := cbor_head 0x00 z.

Definition cbor_integer (z : Z) : bytes :=
  if 0 <=? z then cbor_head 0x00 z
  else
    let positive_number := -1 - z in
    if -24 <=? z then write_big 1 (0x20 + positive_number)
    else if positive_number <=? 0xFF then Zbyte 0x38 :: write_big 1 positive_number
    else if positive_number <=? 0xFFFF then Zbyte 0x39 :: write_big 2 positive_number
    else if positive_number <=? 0xFFFFFFFF then Zbyte 0x3A :: write_big 4 positive_number
    else Zbyte 0x3B :: write_big 8 positive_number.

Definition cbor_float `{FloatBits} (l : bytes) : bytes :=
  if float_isnan l then [Zbyte 0xF9; Zbyte 0x7E; Zbyte 0x00]
  else match float_isinf l with
       | Some negative => [Zbyte 0xF9; (if negative then Zbyte 0xFC else Zbyte 0x7C); Zbyte 0x00]
       | None => write_compact_float 0xFA 0xFB l
       end.

Definition cbor_string (s : bytes) : bytes := cbor_head 0x60 (blen s) ++ s.

Definition cbor_subtype (subtype : Z) : bytes :=
  if subtype <=? 0xFF then write_big 1 0xD8 ++ write_big 1 subtype
  else if subtype <=? 0xFFFF then write_big 1 0xD9 ++ write_big 2 subtype
  else if subtype <=? 0xFFFFFFFF then write_big 1 0xDA ++ write_big 4 subtype
  else write_big 1 0xDB ++ write_big 8 subtype.

Definition cbor_binary (data : bytes) (subtype : option Z) : bytes :=
  match subtype with Some t => cbor_subtype t | None => [] end ++ cbor_head 0x40 (blen data) ++ data.

Fixpoint write_cbor `{FloatBits} (j : json) : bytes :=
  match j with
  | JNull => [Zbyte 0xF6]
  | JBoolean b => [Zbyte (if b then 0xF5 else 0xF4)]
  | JInteger z => cbor_integer z
  | JUnsigned z => cbor_unsigned z
  | JFloat l => cbor_float l
  | JString s => cbor_string s
  | JArray es => cbor_head 0x80 (blen es) ++ concat (write_cbor <$> es)
  | JBinary data subtype => cbor_binary data subtype
  | JObject ms => cbor_head 0xA0 (blen ms) ++ concat ((λ '(k, v), cbor_string k ++ write_cbor v) <$> ms)
  | JDiscarded => []
  end.

(** ** Reading *)

(** The five forms of a length; [None] when the byte [c] is none of them. *)
Definition cbor_length (base c : Z) : option (R Z) :=
  if in_range c base (base + 0x17) then Some (mret (Z.land c 0x1F))
  else if c =? base + 0x18 then Some (get_big 1)
  else if c =? base + 0x19 then Some (get_big 2)
  else if c =? base + 0x1A then Some (get_big 4)
  else if c =? base + 0x1B then Some (get_big 8)
  else None.

Fixpoint get_cbor_string (fuel : nat) : R bytes :=
  c ← unexpect_eof;
  match cbor_length 0x60 c with
  | Some len => n ← len; get_string n
  | None =>
      if c =? 0x7F then
        match fuel with
        | O => rnofuel
        | S fuel => get_chunks fuel 0xFF (get_cbor_string fuel) []
        end
      else parse_error 113
  end.

Fixpoint get_cbor_binary (fuel : nat) : R bytes :=
  c ← unexpect_eof;
  match cbor_length 0x40 c with
  | Some len => n ← len; get_binary n
  | None =>
      if c =? 0x5F then
        match fuel with
        | O => rnofuel
        | S fuel => get_chunks fuel 0xFF (get_cbor_binary fuel) []
        end
      else parse_error 113
  end.

Inductive cbor_tag_handler_t := tag_error | tag_ignore | tag_store.

(** A half-precision number. *)
Definition half_value `{FloatBits} (half : Z) : bytes :=
  let exp := Z.land (Z.shiftr half 10) 0x1F in
  let mant := Z.land half 0x3FF in
  let negative := negb (Z.land half 0x8000 =? 0) in
  if exp =? 0 then float_ldexp negative mant (-24)
  else if exp =? 31 then (if mant =? 0 then float_infinity negative else float_nan negative)
  else float_ldexp negative (mant + 1024) (exp - 25).

Section reader.
Context `{FloatBits} (tag_handler : cbor_tag_handler_t).

(** A negative number: [-1 - n] in 64-bit arithmetic. *)
Definition sax_negative (n : Z) : R unit := sax_value (JInteger (signed 64 (-1 - signed 64 n))).

(** Major types 0 and 1. *)
Definition cbor_number (c : Z) : option (R unit) :=
  if in_range c 0x00 0x17 then Some (sax_value (JUnsigned c))
  else if c =? 0x18 then Some (n ← get_big 1; sax_value (JUnsigned n))
  else if c =? 0x19 then Some (n ← get_big 2; sax_value (JUnsigned n))
  else if c =? 0x1A then Some (n ← get_big 4; sax_value (JUnsigned n))
  else if c =? 0x1B then Some (n ← get_big 8; sax_value (JUnsigned n))
  else if in_range c 0x20 0x37 then Some (sax_value (JInteger (signed 8 (0x20 - 1 - c))))
  else if c =? 0x38 then Some (n ← get_big 1; sax_negative n)
  else if c =? 0x39 then Some (n ← get_big 2; sax_negative n)
  else if c =? 0x3A then Some (n ← get_big 4; sax_negative n)
  else if c =? 0x3B then Some (n ← get_big 8; sax_negative n)
  else None.

Definition get_cbor_array (fuel : nat) (len : Z) (parse_cbor_internal : bool → R unit) : R unit :=
  sax_start_array len;;
  (if negb (len =? NO_SIZE) then for_each fuel len (parse_cbor_internal true)
   else get_until fuel 0xFF (parse_cbor_internal false));;
  sax_end.

(** One member; the first byte of the key has been read. *)
Definition cbor_member (fuel : nat) (parse_cbor_internal : bool → R unit) : R unit :=
  k ← get_cbor_string fuel; sax_key k;; parse_cbor_internal true.

Definition get_cbor_object (fuel : nat) (len : Z) (parse_cbor_internal : bool → R unit) : R unit :=
  sax_start_object len;;
  (if negb (len =? 0) then
     if negb (len =? NO_SIZE) then for_each fuel len (_ ← get; cbor_member fuel parse_cbor_internal)
     else get_until fuel 0xFF (cbor_member fuel parse_cbor_internal)
   else mret tt);;
  sax_end.

(** The number after the tags of one, two, four and eight bytes. *)
Definition tag_size (c : Z) : option nat :=
  if c =? 0xD8 then Some 1%nat
  else if c =? 0xD9 then Some 2%nat
  else if c =? 0xDA then Some 4%nat
  else if c =? 0xDB then Some 8%nat
  else None.

(** [subtype] stays 0 when the input ends in it. *)
Definition get_subtype (size : nat) : R Z := λ r,
  match get_big size r with RFalse r => ROk 0 r | x => x end.

Definition cbor_tag (fuel : nat) (c : Z) (parse_cbor_internal : bool → R unit) : R unit :=
  match tag_handler with
  | tag_error => parse_error 112
  | tag_ignore =>
      match tag_size c with Some size => ignored (get_big size) | None => mret tt end;;
      parse_cbor_internal true
  | tag_store =>
      match tag_size c with
      | Some size =>
          subtype ← get_subtype size;
          _ ← get;
          b ← get_cbor_binary fuel;
          sax_value (JBinary b (Some subtype))
      | None => parse_cbor_internal true
      end
  end.

(** [unexpect_eof] after a [get]. *)
Definition get_byte : R Z := _ ← get; unexpect_eof.

Definition cbor_half : R unit :=
  byte1 ← get_byte;
  byte2 ← get_byte;
  sax_value (JFloat (half_value (Z.shiftl byte1 8 + byte2))).

Definition is_tag (c : Z) : bool := in_range c 0xC6 0xD4 || in_range c 0xD8 0xDB.

(** The [switch] on the byte [c]. *)
Definition cbor_value (fuel : nat) (c : Z) (parse_cbor_internal : bool → R unit) : R unit :=
  match cbor_number c with
  | Some m => m
  | None =>
      if in_range c 0x40 0x5B || (c =? 0x5F) then b ← get_cbor_binary fuel; sax_value (JBinary b None)
      else if in_range c 0x60 0x7B || (c =? 0x7F) then s ← get_cbor_string fuel; sax_value (JString s)
      else match cbor_length 0x80 c, cbor_length 0xA0 c with
      | Some len, _ => n ← len; get_cbor_array fuel n parse_cbor_internal
      | _, Some len => n ← len; get_cbor_object fuel n parse_cbor_internal
      | None, None =>
          if c =? 0x9F then get_cbor_array fuel NO_SIZE parse_cbor_internal
          else if c =? 0xBF then get_cbor_object fuel NO_SIZE parse_cbor_internal
          else if is_tag c then cbor_tag fuel c parse_cbor_internal
          else if c =? 0xF4 then sax_value (JBoolean false)
          else if c =? 0xF5 then sax_value (JBoolean true)
          else if c =? 0xF6 then sax_value JNull
          else if c =? 0xF9 then cbor_half
          else if c =? 0xFA then n ← get_big 4; sax_value (JFloat (float_of_bits32 n))
          else if c =? 0xFB then n ← get_big 8; sax_value (JFloat (float_of_bits n))
          else parse_error 112
      end
  end.

Fixpoint parse_cbor_internal (fuel : nat) (get_char : bool) : R unit :=
  c ← (if get_char then get else get_current);
  match c with
  | None => parse_error 110
  | Some c =>
      match fuel with
      | O => rnofuel
      | S fuel => cbor_value fuel c (parse_cbor_internal fuel)
      end
  end.
End reader.

(** [from_cbor(i, strict, allow_exceptions, tag_handler)]. *)
Definition from_cbor `{FloatBits} (fuel : nat) (i : bytes) (strict exceptions : bool) (tag_handler : cbor_tag_handler_t)
    : option (json + exn) :=
  from_binary (parse_cbor_internal tag_handler fuel true;; expect_end strict) exceptions i.
