(* ===== verification/CborSpec.v ===== *)
(** * CborSpec: CBOR round trip, termination and errors

    What [to_cbor] writes is read by [from_cbor] as the same value; [from_cbor] ends on
    every input, within a fuel that its length bounds, and fails in documented ways
    only. *)

From S2P Require Import Prelude CString Prog JsonValue JsonParser JsonRoundTrip BinaryIO BinaryReads Cbor.

(** ** Lengths *)

Lemma write_big_1 z : write_big 1 z = [Zbyte z].
Proof. done. Qed.

(** The header of a length, and how it is read. *)
Definition head_reads (base N : Z) : Prop :=
  ∃ c t m, cbor_head base N = Zbyte c :: t ∧ base ≤ c ≤ base + 0x1B ∧ cbor_length base c = Some m ∧
    reads m t (λ d, d) N.

Lemma cbor_head_reads base N :
  base = 0x40 ∨ base = 0x60 ∨ base = 0x80 ∨ base = 0xA0 → 0 ≤ N < 2 ^ 64 → head_reads base N.
Proof.
  intros Hb HN. unfold head_reads, cbor_head, cbor_length. rewrite !write_big_1.
  repeat match goal with |- context [N <=? ?k] => destruct (Z.leb_spec N k) end.
  - exists (base + N), [], (mret N). split; [done|]. split; [lia|]. split; [|apply reads_ret].
    range_tests. do 2 f_equal. destruct Hb as [->|[->|[->| ->]]]; change 0x1F with (Z.ones 5);
      rewrite Z.land_ones by lia; Z.div_mod_to_equations; lia.
  - exists (base + 0x18), [Zbyte N], (get_big 1). split; [done|]. split; [lia|]. split; [by range_tests|].
    by apply (reads_big 1); cbn; lia.
  - exists (base + 0x19), (write_big 2 N), (get_big 2). split; [done|]. split; [lia|]. split; [by range_tests|].
    by apply (reads_big 2); cbn; lia.
  - exists (base + 0x1A), (write_big 4 N), (get_big 4). split; [done|]. split; [lia|]. split; [by range_tests|].
    by apply (reads_big 4); cbn; lia.
  - exists (base + 0x1B), (write_big 8 N), (get_big 8). split; [done|]. split; [lia|]. split; [by range_tests|].
    by apply (reads_big 8); cbn; lia.
Qed.

(** ** Reading back *)

(** What the handler of tags keeps of a subtype. *)
Definition subtype_ok (tag_handler : cbor_tag_handler_t) (subtype : option Z) : Prop :=
  match subtype with None => True | Some t => tag_handler = tag_store ∧ 0 ≤ t < 2 ^ 64 end.

(** Values that CBOR holds exactly: strings of any bytes, within the sizes of memory. *)
#[warnings="-register-all"]
Inductive cbor_ok (tag_handler : cbor_tag_handler_t) (ok : bytes → Prop) : json → Prop :=
| cbor_ok_null : cbor_ok tag_handler ok JNull
| cbor_ok_boolean b : cbor_ok tag_handler ok (JBoolean b)
| cbor_ok_integer z : - 2 ^ 63 ≤ z < 2 ^ 63 → cbor_ok tag_handler ok (JInteger z)
| cbor_ok_unsigned z : 0 ≤ z < 2 ^ 64 → cbor_ok tag_handler ok (JUnsigned z)
| cbor_ok_float l : ok l → cbor_ok tag_handler ok (JFloat l)
| cbor_ok_string s : blen s < 2 ^ 64 → cbor_ok tag_handler ok (JString s)
| cbor_ok_binary data subtype :
    blen data < 2 ^ 64 → subtype_ok tag_handler subtype → cbor_ok tag_handler ok (JBinary data subtype)
| cbor_ok_array es :
    blen es ≤ ARRAY_MAX_SIZE → Forall (cbor_ok tag_handler ok) es → cbor_ok tag_handler ok (JArray es)
| cbor_ok_object ms :
    blen ms ≤ OBJECT_MAX_SIZE → sorted_keys ms = true → Forall (λ m, blen m.1 < 2 ^ 64) ms →
    Forall (λ m, cbor_ok tag_handler ok m.2) ms → cbor_ok tag_handler ok (JObject ms).

Section reading.
Context `{FloatBitsLaws ok} (tag_handler : cbor_tag_handler_t).

Lemma cbor_parse_reads fuel c s f :
  0 ≤ c < 256 → reads_at (Some c) (cbor_value tag_handler fuel c (parse_cbor_internal tag_handler fuel)) s f tt →
  reads (parse_cbor_internal tag_handler (S fuel) true) (Zbyte c :: s) f tt.
Proof. intros Hc Hv. cbn [parse_cbor_internal]. apply reads_get. by rewrite byte_range. Qed.

(** Numbers. *)
Lemma cbor_head_number z :
  0 ≤ z < 2 ^ 64 → ∃ c t m, cbor_unsigned z = Zbyte c :: t ∧ 0 ≤ c < 256 ∧ cbor_number c = Some m ∧
    reads m t (handle_value (JUnsigned z)) tt.
Proof.
  intros Hz. unfold cbor_unsigned, cbor_head, cbor_number. rewrite !write_big_1.
  assert (∀ size, 0 ≤ z < 2 ^ (8 * Z.of_nat size) →
    reads (n ← get_big size; sax_value (JUnsigned n)) (write_big size z) (handle_value (JUnsigned z)) tt) as Hn.
  { intros size Hsz. by apply (reads_value (get_big size) JUnsigned), reads_big. }
  repeat match goal with |- context [z <=? ?k] => destruct (Z.leb_spec z k) end.
  - exists (0 + z), [], (sax_value (JUnsigned z)). split; [done|]. split; [lia|]. range_tests. split; [done|apply reads_event].
  - exists 0x18, [Zbyte z]. eexists. do 3 (split; [done|]). apply (Hn 1%nat). cbn. lia.
  - exists 0x19, (write_big 2 z). eexists. do 3 (split; [done|]). apply (Hn 2%nat). cbn. lia.
  - exists 0x1A, (write_big 4 z). eexists. do 3 (split; [done|]). apply (Hn 4%nat). cbn. lia.
  - exists 0x1B, (write_big 8 z). eexists. do 3 (split; [done|]). apply (Hn 8%nat). cbn. lia.
Qed.

Lemma cbor_integer_number z :
  - 2 ^ 63 ≤ z < 2 ^ 63 → ∃ c t m, cbor_integer z = Zbyte c :: t ∧ 0 ≤ c < 256 ∧ cbor_number c = Some m ∧
    reads m t (handle_value (norm (JInteger z))) tt.
Proof.
  intros Hz. unfold cbor_integer. cbn [norm]. destruct (Z.leb_spec 0 z) as [Hp|Hn].
  { rewrite (proj2 (Z.ltb_ge _ _)) by lia. apply cbor_head_number. lia. }
  rewrite (proj2 (Z.ltb_lt _ _)) by lia. unfold cbor_number. rewrite !write_big_1.
  assert (∀ size, 0 ≤ -1 - z < 2 ^ (8 * Z.of_nat size) →
    reads (n ← get_big size; sax_negative n) (write_big size (-1 - z)) (handle_value (JInteger z)) tt) as Hr.
  { intros size Hsz. rewrite <- (app_nil_r (write_big _ _)). apply (reads_seq _ _ _ _ _ (-1 - z)); [by apply reads_big|].
    unfold sax_negative. rewrite (signed_small 64 (-1 - z)), signed_small by lia.
    replace (-1 - (-1 - z)) with z by lia. apply reads_event. }
  destruct (Z.leb_spec (-24) z).
  { exists (0x20 + (-1 - z)), [], (sax_value (JInteger z)). split; [done|]. split; [lia|]. range_tests.
    rewrite signed_small by lia. split; [do 3 f_equal; lia|apply reads_event]. }
  repeat match goal with |- context [?x <=? ?k] => destruct (Z.leb_spec x k) end.
  - exists 0x38, [Zbyte (-1 - z)]. eexists. do 3 (split; [done|]). apply (Hr 1%nat). cbn. lia.
  - exists 0x39, (write_big 2 (-1 - z)). eexists. do 3 (split; [done|]). apply (Hr 2%nat). cbn. lia.
  - exists 0x3A, (write_big 4 (-1 - z)). eexists. do 3 (split; [done|]). apply (Hr 4%nat). cbn. lia.
  - exists 0x3B, (write_big 8 (-1 - z)). eexists. do 3 (split; [done|]). apply (Hr 8%nat). cbn. lia.
Qed.

Lemma cbor_parse_number fuel c s m f :
  0 ≤ c < 256 → cbor_number c = Some m → reads m s f tt →
  reads (parse_cbor_internal tag_handler (S fuel) true) (Zbyte c :: s) f tt.
Proof. intros Hc Hm Hr. apply cbor_parse_reads; [done|]. unfold cbor_value. rewrite Hm. apply Hr. Qed.

(** Strings and binary data. *)
Lemma get_cbor_string_reads fuel s :
  blen s < 2 ^ 64 → ∃ c t, cbor_string s = Zbyte c :: t ∧ 0x60 ≤ c ≤ 0x7B ∧
    reads_at (Some c) (get_cbor_string fuel) t (λ d, d) s.
Proof.
  intros Hs. destruct (cbor_head_reads 0x60 (blen s)) as (c & t & m & Hh & Hc & Hm & Hr); [auto|split; [apply blen_nonneg|done]|].
  exists c, (t ++ s). unfold cbor_string. rewrite Hh. split; [done|]. split; [lia|].
  assert (get_cbor_string fuel = (c ← unexpect_eof; match cbor_length 0x60 c with
    | Some len => n ← len; get_string n | None => if c =? 0x7F then
        match fuel with O => rnofuel | S fuel => get_chunks fuel 0xFF (get_cbor_string fuel) [] end
        else parse_error 113 end)) as -> by by destruct fuel.
  apply reads_current. rewrite Hm. apply (reads_seq m _ t s _ (blen s)); [done|apply reads_string].
Qed.

Lemma get_cbor_binary_reads fuel s :
  blen s < 2 ^ 64 → ∃ c t, cbor_head 0x40 (blen s) ++ s = Zbyte c :: t ∧ 0x40 ≤ c ≤ 0x5B ∧
    reads_at (Some c) (get_cbor_binary fuel) t (λ d, d) s.
Proof.
  intros Hs. destruct (cbor_head_reads 0x40 (blen s)) as (c & t & m & Hh & Hc & Hm & Hr); [auto|split; [apply blen_nonneg|done]|].
  exists c, (t ++ s). rewrite Hh. split; [done|]. split; [lia|].
  assert (get_cbor_binary fuel = (c ← unexpect_eof; match cbor_length 0x40 c with
    | Some len => n ← len; get_binary n | None => if c =? 0x5F then
        match fuel with O => rnofuel | S fuel => get_chunks fuel 0xFF (get_cbor_binary fuel) [] end
        else parse_error 113 end)) as -> by by destruct fuel.
  apply reads_current. rewrite Hm. apply (reads_seq m _ t s _ (blen s)); [done|apply reads_string].
Qed.

Lemma cbor_parse_string fuel s :
  blen s < 2 ^ 64 → reads (parse_cbor_internal tag_handler (S fuel) true) (cbor_string s) (handle_value (JString s)) tt.
Proof.
  intros Hs. destruct (get_cbor_string_reads fuel s Hs) as (c & t & -> & Hc & Hr). apply cbor_parse_reads; [lia|].
  unfold cbor_value, cbor_number. range_tests.
  by apply (reads_at_value _ (get_cbor_string fuel) JString).
Qed.

Lemma cbor_subtype_reads subtype :
  0 ≤ subtype < 2 ^ 64 → ∃ c t size, cbor_subtype subtype = Zbyte c :: t ∧ 0xD8 ≤ c ≤ 0xDB ∧ tag_size c = Some size ∧
    reads (get_subtype size) t (λ d, d) subtype.
Proof.
  intros Hs. unfold cbor_subtype. rewrite !write_big_1.
  assert (∀ size, 0 ≤ subtype < 2 ^ (8 * Z.of_nat size) →
    reads (get_subtype size) (write_big size subtype) (λ d, d) subtype) as Hr.
  { intros size Hsz cur rest d b. destruct (reads_number false size subtype Hsz cur rest d b) as [cur' Hn].
    exists cur'. unfold get_subtype, get_big, write_big. by rewrite Hn. }
  repeat match goal with |- context [subtype <=? ?k] => destruct (Z.leb_spec subtype k) end.
  - exists 0xD8, [Zbyte subtype], 1%nat. do 3 (split; [done|]). apply Hr. cbn. lia.
  - exists 0xD9, (write_big 2 subtype), 2%nat. do 3 (split; [done|]). apply Hr. cbn. lia.
  - exists 0xDA, (write_big 4 subtype), 4%nat. do 3 (split; [done|]). apply Hr. cbn. lia.
  - exists 0xDB, (write_big 8 subtype), 8%nat. do 3 (split; [done|]). apply Hr. cbn. lia.
Qed.

Lemma cbor_parse_binary fuel data subtype :
  blen data < 2 ^ 64 → subtype_ok tag_handler subtype →
  reads (parse_cbor_internal tag_handler (S fuel) true) (cbor_binary data subtype) (handle_value (JBinary data subtype)) tt.
Proof.
  intros Hd Hs. unfold cbor_binary. destruct (get_cbor_binary_reads fuel data Hd) as (c & t & -> & Hc & Hr).
  destruct subtype as [subtype|].
  - destruct Hs as [Htag Hs]. destruct (cbor_subtype_reads subtype Hs) as (ct & tt' & size & -> & Hct & Hsize & Hrt).
    cbn [app]. apply cbor_parse_reads; [lia|]. unfold cbor_value, cbor_number, cbor_length, is_tag. range_tests.
    unfold cbor_tag. rewrite Htag, Hsize.
    apply (reads_at_seq _ _ _ _ _ _ subtype); [apply Hrt|].
    apply reads_get. rewrite byte_range by lia.
    by apply (reads_at_value _ (get_cbor_binary fuel) (λ b, JBinary b (Some subtype))).
  - cbn [app]. apply cbor_parse_reads; [lia|]. unfold cbor_value, cbor_number. range_tests.
    by apply (reads_at_value _ (get_cbor_binary fuel) (λ b, JBinary b None)).
Qed.

Lemma cbor_parse_float fuel l :
  ok l → reads (parse_cbor_internal tag_handler (S fuel) true) (cbor_float l) (handle_value (JFloat l)) tt.
Proof.
  intros Hl. unfold cbor_float.
  assert (∀ b1 b2, 0 ≤ b1 < 256 → 0 ≤ b2 < 256 → half_value (Z.shiftl b1 8 + b2) = l →
    reads (parse_cbor_internal tag_handler (S fuel) true) [Zbyte 0xF9; Zbyte b1; Zbyte b2] (handle_value (JFloat l)) tt) as Hh.
  { intros b1 b2 H1 H2 Hv. apply cbor_parse_reads; [lia|]. change (cbor_value _ _ _ _) with cbor_half.
    apply (reads_byte (λ byte1, byte2 ← get_byte; sax_value (JFloat (half_value (Z.shiftl byte1 8 + byte2))))).
    rewrite byte_range by done.
    apply (reads_byte (λ byte2, sax_value (JFloat (half_value (Z.shiftl b1 8 + byte2))))).
    rewrite byte_range, Hv by done. apply reads_event. }
  destruct (float_isnan l) eqn:En; [by apply Hh; [done..|apply (float_isnan_nan l)]|].
  destruct (float_isinf l) as [negative|] eqn:Ei.
  { pose proof (float_isinf_infinity l negative Hl Ei). by destruct negative; apply Hh. }
  unfold write_compact_float. destruct (float_bits32 l) as [b|] eqn:E32.
  - apply cbor_parse_reads; [lia|]. by apply (reads_single l b).
  - apply cbor_parse_reads; [lia|]. by apply (reads_double l).
Qed.

Lemma cbor_head_length base N : (1 ≤ length (cbor_head base N))%nat.
Proof.
  unfold cbor_head. repeat case_match; cbn [length]; try lia. unfold write_big. by rewrite length_write_number.
Qed.

Lemma write_cbor_length j : cbor_ok tag_handler ok j → (1 ≤ length (write_cbor j))%nat.
Proof.
  intros Hj. assert (∀ base N s, (1 ≤ length (cbor_head base N ++ s))%nat) as Hh.
  { intros base N s. rewrite length_app. pose proof (cbor_head_length base N). lia. }
  destruct Hj; cbn [write_cbor]; try apply Hh; try (cbn; lia).
  - destruct (cbor_integer_number z) as (c & t & m & -> & _); [done|]. cbn. lia.
  - apply cbor_head_length.
  - unfold cbor_float, write_compact_float. repeat case_match; cbn; lia.
  - unfold cbor_binary. rewrite app_assoc, <- app_assoc. rewrite length_app. specialize (Hh 0x40 (blen data) data). lia.
Qed.

(** The member [m] as [write_cbor] writes it. *)
Definition cbor_member_bytes (m : bytes * json) : bytes := cbor_string m.1 ++ write_cbor m.2.

Lemma write_cbor_object ms :
  write_cbor (JObject ms) = cbor_head 0xA0 (blen ms) ++ concat (cbor_member_bytes <$> ms).
Proof. cbn [write_cbor]. do 2 f_equal. apply list_fmap_ext. by intros ? [k v] _. Qed.

Lemma parse_array fuel es :
  blen es ≤ ARRAY_MAX_SIZE → (length es ≤ fuel)%nat →
  Forall (λ e, reads (parse_cbor_internal tag_handler fuel true) (write_cbor e) (handle_value (norm e)) tt) es →
  reads (parse_cbor_internal tag_handler (S fuel) true) (cbor_head 0x80 (blen es) ++ concat (write_cbor <$> es))
    (handle_value (norm (JArray es))) tt.
Proof.
  intros Hmax Hl Hes. pose proof (blen_nonneg es). unfold ARRAY_MAX_SIZE in *.
  destruct (cbor_head_reads 0x80 (blen es)) as (c & t & m & -> & Hc & Hm & Hr); [auto|lia|].
  apply cbor_parse_reads; [lia|]. unfold cbor_value, cbor_number. rewrite Hm. range_tests.
  apply (reads_at_seq _ _ _ t _ _ (blen es)); [apply Hr|].
  unfold get_cbor_array, NO_SIZE. rewrite (proj2 (Z.eqb_neq (blen es) _)) by lia. cbn [negb].
  by apply (reads_array norm write_cbor).
Qed.

Lemma parse_member fuel k v :
  blen k < 2 ^ 64 → reads (parse_cbor_internal tag_handler fuel true) (write_cbor v) (handle_value (norm v)) tt →
  reads (get ≫= λ _, cbor_member fuel (parse_cbor_internal tag_handler fuel)) (cbor_member_bytes (k, v))
    (λ d, handle_value (norm v) (key k d)) tt.
Proof.
  intros Hk Hv. unfold cbor_member_bytes. cbn [fst snd].
  destruct (get_cbor_string_reads fuel k Hk) as (c & t & -> & Hc & Hr). cbn [app].
  apply (reads_get (λ _, cbor_member fuel (parse_cbor_internal tag_handler fuel))). rewrite byte_range by lia.
  apply (reads_at_seq _ _ _ t _ _ k); [done|].
  rewrite <- (app_nil_l (write_cbor v)). apply (reads_bind _ _ [] _ (key k) (handle_value (norm v)) tt); [apply reads_event|done].
Qed.

Lemma parse_object fuel ms :
  blen ms ≤ OBJECT_MAX_SIZE → (length ms ≤ fuel)%nat → sorted_keys ms = true → Forall (λ m, blen m.1 < 2 ^ 64) ms →
  Forall (λ m, reads (parse_cbor_internal tag_handler fuel true) (write_cbor m.2) (handle_value (norm m.2)) tt) ms →
  reads (parse_cbor_internal tag_handler (S fuel) true) (cbor_head 0xA0 (blen ms) ++ concat (cbor_member_bytes <$> ms))
    (handle_value (norm (JObject ms))) tt.
Proof.
  intros Hmax Hl Hs Hk Hms. pose proof (blen_nonneg ms). pose proof Hmax as Hmax'. unfold OBJECT_MAX_SIZE in Hmax'.
  destruct (cbor_head_reads 0xA0 (blen ms)) as (c & t & m & -> & Hc & Hm & Hr); [auto|lia|].
  apply cbor_parse_reads; [lia|]. unfold cbor_value, cbor_number. rewrite Hm. unfold cbor_length. range_tests.
  apply (reads_at_seq _ _ _ t _ _ (blen ms)); [apply Hr|].
  unfold get_cbor_object, NO_SIZE. rewrite (proj2 (Z.eqb_neq (blen ms) (2 ^ 64 - 1))) by lia. cbn [negb].
  rewrite norm_object.
  assert ((if negb (blen ms =? 0) then for_each fuel (blen ms) (_ ← get; cbor_member fuel (parse_cbor_internal tag_handler fuel))
           else mret tt) = for_each fuel (blen ms) (_ ← get; cbor_member fuel (parse_cbor_internal tag_handler fuel))) as ->.
  { destruct (Z.eqb_spec (blen ms) 0) as [->|]; [by destruct fuel|done]. }
  apply (reads_object norm); [done..|]. rewrite Forall_forall in *. intros [k v] Hin.
  apply parse_member; [by apply (Hk (k, v))|by apply (Hms (k, v))].
Qed.

Lemma parse_write_cbor j :
  cbor_ok tag_handler ok j → ∀ fuel, (length (write_cbor j) ≤ fuel)%nat →
  reads (parse_cbor_internal tag_handler fuel true) (write_cbor j) (handle_value (norm j)) tt.
Proof.
  induction j as [|ms IH|es IH|s|b|z|z|l|data subtype|] using json_induction; intros Hok fuel Hf;
    pose proof (write_cbor_length _ Hok) as Hl; inversion Hok; subst; (destruct fuel as [|fuel]; [lia|]).
  - apply cbor_parse_reads; [lia|]. apply reads_event.
  - rewrite write_cbor_object, length_app in *. pose proof (cbor_head_length 0xA0 (blen ms)).
    rewrite Forall_forall in *. destruct (concat_length cbor_member_bytes ms) as [Hn Hm].
    { apply Forall_forall. intros m Hin. unfold cbor_member_bytes, cbor_string. rewrite !length_app.
      pose proof (cbor_head_length 0x60 (blen m.1)). lia. }
    apply parse_object; [done|lia|done|by apply Forall_forall|]. apply Forall_forall. intros m Hin.
    apply (IH m Hin); [auto|]. rewrite Forall_forall in Hm. specialize (Hm m Hin).
    unfold cbor_member_bytes at 1 in Hm. rewrite length_app in Hm. lia.
  - cbn [write_cbor] in *. rewrite length_app in *. pose proof (cbor_head_length 0x80 (blen es)).
    rewrite Forall_forall in *. destruct (concat_length write_cbor es) as [Hn Hm].
    { apply Forall_forall. intros e Hin. by apply write_cbor_length, H3. }
    apply parse_array; [done|lia|]. apply Forall_forall. intros e Hin. apply (IH e Hin); [auto|].
    rewrite Forall_forall in Hm. specialize (Hm e Hin). cbn in Hm. lia.
  - by apply cbor_parse_string.
  - destruct b; (apply cbor_parse_reads; [lia|]; apply reads_event).
  - destruct (cbor_integer_number z) as (c & t & m & Hw & Hc & Hm & Hr); [done|]. cbn [write_cbor]. rewrite Hw.
    by eapply cbor_parse_number.
  - destruct (cbor_head_number z) as (c & t & m & Hw & Hc & Hm & Hr); [done|]. cbn [write_cbor norm]. rewrite Hw.
    rewrite (proj2 (Z.ltb_ge _ _)) by lia. by eapply cbor_parse_number.
  - by apply cbor_parse_float.
  - by apply cbor_parse_binary.
Qed.
End reading.

(** ** Coming to an end *)

(** [parse_error] with these numbers, unless exceptions are off, and [out_of_range.408]. *)
Definition cbor_failure : failure := λ exceptions e,
  match e with
  | None => exceptions = false
  | Some e => e = ExJsonOutOfRange 408 ∨ (exceptions = true ∧ (e = ExJsonParse 110 ∨ e = ExJsonParse 112 ∨ e = ExJsonParse 113))
  end.

Lemma cbor_may_fail id : id = 110 ∨ id = 112 ∨ id = 113 → may_fail cbor_failure id.
Proof. intros Hid. split; [right|done]. destruct Hid as [->|[->| ->]]; auto. Qed.

Lemma cbor_408 b : cbor_failure b (Some (ExJsonOutOfRange 408)).
Proof. by left. Qed.

#[local] Hint Resolve cbor_may_fail cbor_408 : core.
#[local] Abbreviation cends := (ends cbor_failure).

Lemma cbor_length_ends n base c m : cbor_length base c = Some m → cends n 0 m.
Proof.
  unfold cbor_length. repeat case_match; try done; intros [= <-]; try apply ends_ret;
    (eapply ends_weaken; [reflexivity| |apply ends_number; auto]); lia.
Qed.

Lemma get_cbor_string_needs fuel : needs_current cbor_failure (get_cbor_string fuel).
Proof. destruct fuel; apply needs_current_eof; auto. Qed.

Lemma get_cbor_binary_needs fuel : needs_current cbor_failure (get_cbor_binary fuel).
Proof. destruct fuel; apply needs_current_eof; auto. Qed.

Lemma get_string_ends n len : cends n 0 (get_string len).
Proof. eapply ends_weaken; [reflexivity| |apply ends_string; auto]; lia. Qed.

Lemma get_cbor_string_ends fuel n : (n + 2 ≤ fuel)%nat → cends n 0 (get_cbor_string fuel).
Proof.
  revert n. induction fuel as [|fuel IH]; intros n Hn; [lia|]. cbn [get_cbor_string].
  apply ends_bind0; [apply ends_unexpect_eof; auto|]. intros c. destruct (cbor_length 0x60 c) as [m|] eqn:Em.
  - apply ends_bind0; [by eapply cbor_length_ends|]. intros len. apply get_string_ends.
  - destruct (c =? 0x7F); [|apply ends_error; auto].
    apply ends_get_chunks; [lia| |apply get_cbor_string_needs|auto]. intros Hpos. apply IH. lia.
Qed.

Lemma get_cbor_binary_ends fuel n : (n + 2 ≤ fuel)%nat → cends n 0 (get_cbor_binary fuel).
Proof.
  revert n. induction fuel as [|fuel IH]; intros n Hn; [lia|]. cbn [get_cbor_binary].
  apply ends_bind0; [apply ends_unexpect_eof; auto|]. intros c. destruct (cbor_length 0x40 c) as [m|] eqn:Em.
  - apply ends_bind0; [by eapply cbor_length_ends|]. intros len. apply get_string_ends.
  - destruct (c =? 0x5F); [|apply ends_error; auto].
    apply ends_get_chunks; [lia| |apply get_cbor_binary_needs|auto]. intros Hpos. apply IH. lia.
Qed.

Section ending.
Context `{FloatBits} (tag_handler : cbor_tag_handler_t).

Lemma get_big_ends n size : cends n 0 (get_big size).
Proof. eapply ends_weaken; [reflexivity| |apply ends_number; auto]; lia. Qed.

Lemma cbor_number_ends n c m : cbor_number c = Some m → cends n 0 m.
Proof.
  unfold cbor_number. repeat case_match; try done; intros [= <-]; try apply ends_event;
    (apply ends_bind0; [apply get_big_ends|intros; apply ends_event]).
Qed.

Lemma get_byte_ends n : cends n 0 get_byte.
Proof. apply ends_bind0; [apply ends_get|]. intros _. apply ends_unexpect_eof. auto. Qed.

Section value.
Context (fuel n : nat) (parse : bool → R unit).
Hypothesis Hfuel : (n + 2 ≤ fuel)%nat.
Hypothesis Htrue : cends n 1 (parse true).
Hypothesis Hfalse : (0 < n)%nat → cends (n - 1) 0 (parse false).
Hypothesis Hneeds : needs_current cbor_failure (parse false).

Lemma Htrue0 : cends n 0 (parse true).
Proof. by eapply ends_weaken; [..|exact Htrue]; lia. Qed.

Lemma get_cbor_array_ends len : cends n 0 (get_cbor_array fuel len parse).
Proof.
  apply ends_bind0; [by apply ends_start_array|]. intros _. apply ends_bind0; [|intros _; apply ends_event].
  destruct (negb _); [apply ends_for_each; [lia|done]|]. apply ends_get_until; [lia|done|done|auto].
Qed.

Lemma cbor_member_ends : cends n 0 (cbor_member fuel parse).
Proof.
  apply ends_bind0; [by apply get_cbor_string_ends|]. intros k. apply ends_bind0; [apply ends_event|]. intros _.
  apply Htrue0.
Qed.

Lemma cbor_member_needs : needs_current cbor_failure (cbor_member fuel parse).
Proof. apply needs_current_bind, get_cbor_string_needs. Qed.

Lemma get_cbor_object_ends len : cends n 0 (get_cbor_object fuel len parse).
Proof.
  apply ends_bind0; [by apply ends_start_object|]. intros _. apply ends_bind0; [|intros _; apply ends_event].
  destruct (negb (len =? 0)); [|apply ends_ret]. destruct (negb _).
  - apply ends_for_each; [lia|]. apply ends_get_needs; [|apply cbor_member_needs]. intros c Hpos.
    eapply ends_weaken; [| |exact cbor_member_ends]; lia.
  - apply ends_get_until; [lia| |apply cbor_member_needs|auto]. intros Hpos.
    eapply ends_weaken; [| |exact cbor_member_ends]; lia.
Qed.

Lemma cbor_tag_ends c : cends n 0 (cbor_tag tag_handler fuel c parse).
Proof.
  unfold cbor_tag. destruct tag_handler; [apply ends_error; auto|..].
  - apply ends_bind0; [|intros _; apply Htrue0]. destruct (tag_size c); [|apply ends_ret].
    apply ends_ignored, get_big_ends.
  - destruct (tag_size c) as [size|]; [|apply Htrue0]. apply ends_bind0.
    + intros r Hr. pose proof (get_big_ends n size r Hr) as Hg. unfold get_subtype.
      destruct (get_big size r); cbn in *; try done. destruct Hg as (? & ? & _). split; [lia|done].
    + intros subtype. apply ends_bind0; [apply ends_get|]. intros _.
      apply ends_bind0; [by apply get_cbor_binary_ends|]. intros b. apply ends_event.
Qed.

Lemma cbor_value_ends c : cends n 0 (cbor_value tag_handler fuel c parse).
Proof.
  unfold cbor_value. destruct (cbor_number c) as [m|] eqn:Em; [by eapply cbor_number_ends|].
  destruct (_ || _).
  { apply ends_bind0; [by apply get_cbor_binary_ends|]. intros b. apply ends_event. }
  destruct (_ || _).
  { apply ends_bind0; [by apply get_cbor_string_ends|]. intros s. apply ends_event. }
  destruct (cbor_length 0x80 c) as [m|] eqn:E1.
  { apply ends_bind0; [by eapply cbor_length_ends|]. intros len. apply get_cbor_array_ends. }
  destruct (cbor_length 0xA0 c) as [m|] eqn:E2.
  { apply ends_bind0; [by eapply cbor_length_ends|]. intros len. apply get_cbor_object_ends. }
  destruct (c =? 0x9F); [apply get_cbor_array_ends|]. destruct (c =? 0xBF); [apply get_cbor_object_ends|].
  destruct (is_tag c); [apply cbor_tag_ends|]. do 3 (case_match; [apply ends_event|]).
  case_match.
  { apply ends_bind0; [apply get_byte_ends|]. intros b1. apply ends_bind0; [apply get_byte_ends|]. intros b2. apply ends_event. }
  do 2 (case_match; [apply ends_bind0; [apply get_big_ends|]; intros; apply ends_event|]). apply ends_error. auto.
Qed.
End value.

Lemma parse_cbor_ends fuel n :
  ((n + 2 ≤ fuel)%nat → cends n 1 (parse_cbor_internal tag_handler fuel true)) ∧
  ((n + 3 ≤ fuel)%nat → cends n 0 (parse_cbor_internal tag_handler fuel false)) ∧
  needs_current cbor_failure (parse_cbor_internal tag_handler fuel false).
Proof.
  revert n. induction fuel as [|fuel IH]; intros n; (split; [intros Hn|split; [intros Hn|]]); try lia.
  1, 4: intros r Hr _; cbn; unfold mbind, R_bind, get_current; rewrite Hr; apply post_error; auto.
  - cbn [parse_cbor_internal]. apply ends_get_needs.
    + intros c Hpos. apply cbor_value_ends; [lia|..].
      * apply (IH (n - 1)%nat). lia.
      * intros Hpos'. apply (IH (n - 1 - 1)%nat). lia.
      * apply (IH 0%nat).
    + intros r _ _. apply post_error. auto.
  - cbn [parse_cbor_internal]. apply ends_bind0; [apply ends_current|]. intros [c|]; [|apply ends_error; auto].
    apply cbor_value_ends; [lia|..].
    + apply (IH n). lia.
    + intros Hpos. apply (IH (n - 1)%nat). lia.
    + apply (IH 0%nat).
Qed.
End ending.

(** ** Properties *)

(** C27 (roundtrip): a value is read from the CBOR that [to_cbor] writes for it, whatever
    the options, up to the sign class of its integers: strings and keys of any bytes,
    integers of 64 bits, doubles, binary data, with its subtype when tags are stored,
    arrays and objects; with trailing bytes, strict reading fails and the other one does
    not see them. *)
Theorem cbor_roundtrip `{FloatBitsLaws ok} tag_handler j strict exceptions rest fuel :
  cbor_ok tag_handler ok j → (length (write_cbor j) ≤ fuel)%nat →
  from_cbor fuel (write_cbor j ++ rest) strict exceptions tag_handler =
  Some (if strict then match rest with
                       | [] => inl (norm j)
                       | _ :: _ => if exceptions then inr (ExJsonParse 110) else inl JDiscarded
                       end
        else inl (norm j)).
Proof. intros Hj Hf. by apply from_binary_reads, parse_write_cbor. Qed.

(** Reading CBOR ends on every input: two more rounds than it has bytes are
    enough for every recursion and every loop, whatever lengths the input announces; what
    is thrown is [parse_error] 110, 112 or 113, and never with [allow_exceptions] off, or
    [out_of_range.408] for an excessive length, then too. *)
Lemma cbor_total `{FloatBits} i strict exceptions tag_handler :
  ∃ res, from_cbor (length i + 2) i strict exceptions tag_handler = Some res ∧
    ∀ e, res = inr e → e = ExJsonOutOfRange 408 ∨
      (exceptions = true ∧ (e = ExJsonParse 110 ∨ e = ExJsonParse 112 ∨ e = ExJsonParse 113)).
Proof.
  apply (from_binary_ends cbor_failure (length i) 0); [done|].
  apply ends_bind0; [|intros _; apply ends_expect_end; auto].
  eapply ends_weaken; [reflexivity| |by apply parse_cbor_ends]. lia.
Qed.

Definition binary_sample : json :=
  JObject [(b#"a", JArray [JInteger (-1000); JUnsigned 70000; JNull; JBoolean true; JString [Zbyte 0xE9]]);
           (b#"b", JBinary b#"xyz" (Some 300)); (b#"f", JFloat b#"12345678")].

Lemma cbor_roundtrip_witness (f := byte_floats) :
  from_cbor 100 (write_cbor binary_sample ++ []) true true tag_store = Some (inl (norm binary_sample)).
Proof.
  apply (cbor_roundtrip (H0 := byte_floats_laws) tag_store binary_sample true true [] 100).
  - unfold binary_sample. repeat (constructor || done).
  - apply Nat.leb_le. vm_compute. reflexivity.
Defined.
