(* ===== verification/MsgPack.v ===== *)
(** * MsgPack: the MessagePack format ([include/nlohmann/json.hpp], [write_msgpack] and
      [parse_msgpack_internal])

    The writer, one definition per type of value, and the reader, whose recursion and
    loops are bounded by fuel. *)

From S2P Require Import Prelude CString Prog JsonValue JsonParser BinaryIO.

(** ** Writing *)

Definition msgpack_unsigned (z : Z) : bytes :=
  if z <? 128 then write_big 1 z
  else if z <=? 0xFF then Zbyte 0xCC :: write_big 1 z
  else if z <=? 0xFFFF then Zbyte 0xCD :: write_big 2 z
  else if z <=? 0xFFFFFFFF then Zbyte 0xCE :: write_big 4 z
  else if z <=? 2 ^ 64 - 1 then Zbyte 0xCF :: write_big 8 z
  else [].

Definition msgpack_integer (z : Z) : bytes :=
  if 0 <=? z then msgpack_unsigned z
  else if -32 <=? z then write_big 1 z
  else if in_range z (- 2 ^ 7) (2 ^ 7 - 1) then Zbyte 0xD0 :: write_big 1 z
  else if in_range z (- 2 ^ 15) (2 ^ 15 - 1) then Zbyte 0xD1 :: write_big 2 z
  else if in_range z (- 2 ^ 31) (2 ^ 31 - 1) then Zbyte 0xD2 :: write_big 4 z
  else if in_range z (- 2 ^ 63) (2 ^ 63 - 1) then Zbyte 0xD3 :: write_big 8 z
  else [].

(** The header of a string; longer ones get none. *)
Definition msgpack_string_head (N : Z) : bytes :=
  if N <=? 31 then write_big 1 (Z.lor 0xA0 N)
  else if N <=? 0xFF then Zbyte 0xD9 :: write_big 1 N
  else if N <=? 0xFFFF then Zbyte 0xDA :: write_big 2 N
  else if N <=? 0xFFFFFFFF then Zbyte 0xDB :: write_big 4 N
  else [].

Definition msgpack_string (s : bytes) : bytes := msgpack_string_head (blen s) ++ s.

Definition msgpack_array_head (N : Z) : bytes :=
  if N <=? 15 then write_big 1 (Z.lor 0x90 N)
  else if N <=? 0xFFFF then Zbyte 0xDC :: write_big 2 N
  else if N <=? 0xFFFFFFFF then Zbyte 0xDD :: write_big 4 N
  else [].

Definition msgpack_object_head (N : Z) : bytes :=
  if N <=? 15 then write_big 1 (Z.lor 0x80 (Z.land N 0xF))
  else if N <=? 0xFFFF then Zbyte 0xDE :: write_big 2 N
  else if N <=? 0xFFFFFFFF then Zbyte 0xDF :: write_big 4 N
  else [].

(** The type of an extension of [N] bytes, and whether it fixes the size. *)
Definition fixext (N : Z) : Z * bool :=
  match N with
  | 1 => (0xD4, true)
  | 2 => (0xD5, true)
  | 4 => (0xD6, true)
  | 8 => (0xD7, true)
  | 16 => (0xD8, true)
  | _ => (0xC7, false)
  end.

Definition msgpack_binary_head (use_ext : bool) (N : Z) : bytes :=
  if N <=? 0xFF then
    let '(output_type, fixed) := if use_ext then fixext N else (0xC4, false) in
    Zbyte output_type :: (if fixed then [] else write_big 1 N)
  else if N <=? 0xFFFF then Zbyte (if use_ext then 0xC8 else 0xC5) :: write_big 2 N
  else if N <=? 0xFFFFFFFF then Zbyte (if use_ext then 0xC9 else 0xC6) :: write_big 4 N
  else [].

Definition msgpack_binary (data : bytes) (subtype : option Z) : bytes :=
  msgpack_binary_head (match subtype with Some _ => true | None => false end) (blen data) ++
  match subtype with Some t => write_big 1 t | None => [] end ++ data.

Fixpoint write_msgpack `{FloatBits} (j : json) : bytes :=
  match j with
  | JNull => [Zbyte 0xC0]
  | JBoolean b => [Zbyte (if b then 0xC3 else 0xC2)]
  | JInteger z => msgpack_integer z
  | JUnsigned z => msgpack_unsigned z
  | JFloat l => write_compact_float 0xCA 0xCB l
  | JString s => msgpack_string s
  | JArray es => msgpack_array_head (blen es) ++ concat (write_msgpack <$> es)
  | JBinary data subtype => msgpack_binary data subtype
  | JObject ms => msgpack_object_head (blen ms) ++ concat ((λ '(k, v), msgpack_string k ++ write_msgpack v) <$> ms)
  | JDiscarded => []
  end.

(** ** Reading *)

Definition get_msgpack_string : R bytes :=
  c ← unexpect_eof;
  if in_range c 0xA0 0xBF then get_string (Z.land c 0x1F)
  else if c =? 0xD9 then n ← get_big 1; get_string n
  else if c =? 0xDA then n ← get_big 2; get_string n
  else if c =? 0xDB then n ← get_big 4; get_string n
  else parse_error 113.

(** [assign_and_return_true(subtype)] after the data. *)
Definition get_ext (len subtype : Z) : R (bytes * option Z) :=
  data ← get_binary len; mret (data, Some (wrap 8 subtype)).

(** [get_msgpack_binary], on the byte [c] read last. *)
Definition get_msgpack_binary (c : Z) : R (bytes * option Z) :=
  if c =? 0xC4 then n ← get_big 1; data ← get_binary n; mret (data, None)
  else if c =? 0xC5 then n ← get_big 2; data ← get_binary n; mret (data, None)
  else if c =? 0xC6 then n ← get_big 4; data ← get_binary n; mret (data, None)
  else if c =? 0xC7 then n ← get_big 1; subtype ← get_signed false 1; get_ext n subtype
  else if c =? 0xC8 then n ← get_big 2; subtype ← get_signed false 1; get_ext n subtype
  else if c =? 0xC9 then n ← get_big 4; subtype ← get_signed false 1; get_ext n subtype
  else if c =? 0xD4 then subtype ← get_signed false 1; get_ext 1 subtype
  else if c =? 0xD5 then subtype ← get_signed false 1; get_ext 2 subtype
  else if c =? 0xD6 then subtype ← get_signed false 1; get_ext 4 subtype
  else if c =? 0xD7 then subtype ← get_signed false 1; get_ext 8 subtype
  else if c =? 0xD8 then subtype ← get_signed false 1; get_ext 16 subtype
  else rfalse.

Definition get_msgpack_array (fuel : nat) (len : Z) (parse_msgpack_internal : R unit) : R unit :=
  sax_start_array len;; for_each fuel len parse_msgpack_internal;; sax_end.

Definition msgpack_member (parse_msgpack_internal : R unit) : R unit :=
  _ ← get; k ← get_msgpack_string; sax_key k;; parse_msgpack_internal.

Definition get_msgpack_object (fuel : nat) (len : Z) (parse_msgpack_internal : R unit) : R unit :=
  sax_start_object len;; for_each fuel len (msgpack_member parse_msgpack_internal);; sax_end.

(** The integers. *)
Definition msgpack_number (c : Z) : option (R unit) :=
  if in_range c 0x00 0x7F then Some (sax_value (JUnsigned c))
  else if c =? 0xCC then Some (n ← get_big 1; sax_value (JUnsigned n))
  else if c =? 0xCD then Some (n ← get_big 2; sax_value (JUnsigned n))
  else if c =? 0xCE then Some (n ← get_big 4; sax_value (JUnsigned n))
  else if c =? 0xCF then Some (n ← get_big 8; sax_value (JUnsigned n))
  else if c =? 0xD0 then Some (n ← get_signed false 1; sax_value (JInteger n))
  else if c =? 0xD1 then Some (n ← get_signed false 2; sax_value (JInteger n))
  else if c =? 0xD2 then Some (n ← get_signed false 4; sax_value (JInteger n))
  else if c =? 0xD3 then Some (n ← get_signed false 8; sax_value (JInteger n))
  else if in_range c 0xE0 0xFF then Some (sax_value (JInteger (signed 8 c)))
  else None.

Definition is_msgpack_string (c : Z) : bool := in_range c 0xA0 0xBF || in_range c 0xD9 0xDB.
Definition is_msgpack_binary (c : Z) : bool := in_range c 0xC4 0xC9 || in_range c 0xD4 0xD8.

(** The [switch] on the byte [c]. *)
Definition msgpack_value `{FloatBits} (fuel : nat) (c : Z) (parse_msgpack_internal : R unit) : R unit :=
  match msgpack_number c with
  | Some m => m
  | None =>
      if in_range c 0x80 0x8F then get_msgpack_object fuel (Z.land c 0x0F) parse_msgpack_internal
      else if in_range c 0x90 0x9F then get_msgpack_array fuel (Z.land c 0x0F) parse_msgpack_internal
      else if is_msgpack_string c then s ← get_msgpack_string; sax_value (JString s)
      else if c =? 0xC0 then sax_value JNull
      else if c =? 0xC2 then sax_value (JBoolean false)
      else if c =? 0xC3 then sax_value (JBoolean true)
      else if is_msgpack_binary c then b ← get_msgpack_binary c; sax_value (JBinary b.1 b.2)
      else if c =? 0xCA then n ← get_big 4; sax_value (JFloat (float_of_bits32 n))
      else if c =? 0xCB then n ← get_big 8; sax_value (JFloat (float_of_bits n))
      else if c =? 0xDC then n ← get_big 2; get_msgpack_array fuel n parse_msgpack_internal
      else if c =? 0xDD then n ← get_big 4; get_msgpack_array fuel n parse_msgpack_internal
      else if c =? 0xDE then n ← get_big 2; get_msgpack_object fuel n parse_msgpack_internal
      else if c =? 0xDF then n ← get_big 4; get_msgpack_object fuel n parse_msgpack_internal
      else parse_error 112
  end.

Fixpoint parse_msgpack_internal `{FloatBits} (fuel : nat) : R unit :=
  c ← get;
  match c with
  | None => parse_error 110
  | Some c =>
      match fuel with
      | O => rnofuel
      | S fuel => msgpack_value fuel c (parse_msgpack_internal fuel)
      end
  end.

(** [from_msgpack(i, strict, allow_exceptions)]. *)
Definition from_msgpack `{FloatBits} (fuel : nat) (i : bytes) (strict exceptions : bool) : option (json + exn) :=
  from_binary (parse_msgpack_internal fuel;; expect_end strict) exceptions i.
