(* ===== verification/MsgPackSpec.v ===== *)
(** * MsgPackSpec: MessagePack round trip, termination and errors

    What [to_msgpack] writes is read by [from_msgpack] as the same value; [from_msgpack]
    ends on every input, and fails in documented ways only. *)

From S2P Require Import Prelude CString Prog JsonValue JsonParser Utf8 JsonRoundTrip BinaryIO BinaryReads MsgPack.

(** Values that MessagePack holds exactly: no size above 32 bits, subtypes of 8 bits. *)
#[warnings="-register-all"]
Inductive msgpack_ok (ok : bytes → Prop) : json → Prop :=
| msgpack_ok_null : msgpack_ok ok JNull
| msgpack_ok_boolean b : msgpack_ok ok (JBoolean b)
| msgpack_ok_integer z : - 2 ^ 63 ≤ z < 2 ^ 63 → msgpack_ok ok (JInteger z)
| msgpack_ok_unsigned z : 0 ≤ z < 2 ^ 64 → msgpack_ok ok (JUnsigned z)
| msgpack_ok_float l : ok l → msgpack_ok ok (JFloat l)
| msgpack_ok_string s : blen s < 2 ^ 32 → msgpack_ok ok (JString s)
| msgpack_ok_binary data subtype :
    blen data < 2 ^ 32 → from_option (λ t, 0 ≤ t < 256) True subtype → msgpack_ok ok (JBinary data subtype)
| msgpack_ok_array es : blen es < 2 ^ 32 → Forall (msgpack_ok ok) es → msgpack_ok ok (JArray es)
| msgpack_ok_object ms :
    blen ms < 2 ^ 32 → sorted_keys ms = true → Forall (λ m, blen m.1 < 2 ^ 32) ms →
    Forall (λ m, msgpack_ok ok m.2) ms → msgpack_ok ok (JObject ms).

Section reading.
Context `{FloatBitsLaws ok}.

Lemma msgpack_parse_reads fuel c s f :
  0 ≤ c < 256 → reads_at (Some c) (msgpack_value fuel c (parse_msgpack_internal fuel)) s f tt →
  reads (parse_msgpack_internal (S fuel)) (Zbyte c :: s) f tt.
Proof. intros Hc Hv. cbn [parse_msgpack_internal]. apply reads_get. by rewrite byte_range. Qed.

(** Numbers. *)
Definition number_reads (s : bytes) (v : json) : Prop :=
  ∃ c t m, s = Zbyte c :: t ∧ 0 ≤ c < 256 ∧ msgpack_number c = Some m ∧ reads m t (handle_value v) tt.

Lemma unsigned_reads z : 0 ≤ z < 2 ^ 64 → number_reads (msgpack_unsigned z) (JUnsigned z).
Proof.
  intros Hz. unfold number_reads, msgpack_unsigned.
  assert (∀ size, 0 ≤ z < 2 ^ (8 * Z.of_nat size) →
    reads (n ← get_big size; sax_value (JUnsigned n)) (write_big size z) (handle_value (JUnsigned z)) tt) as Hn.
  { intros size Hsz. by apply (reads_value (get_big size) JUnsigned), reads_big. }
  destruct (Z.ltb_spec z 128).
  { exists z, [], (sax_value (JUnsigned z)). split; [done|]. split; [lia|]. unfold msgpack_number. range_tests.
    split; [done|apply reads_event]. }
  repeat match goal with |- context [z <=? ?k] => destruct (Z.leb_spec z k) end; [..|lia].
  - eexists 0xCC, _, _. do 3 (split; [done|]). apply (Hn 1%nat). cbn. lia.
  - eexists 0xCD, _, _. do 3 (split; [done|]). apply (Hn 2%nat). cbn. lia.
  - eexists 0xCE, _, _. do 3 (split; [done|]). apply (Hn 4%nat). cbn. lia.
  - eexists 0xCF, _, _. do 3 (split; [done|]). apply (Hn 8%nat). cbn. lia.
Qed.

Lemma integer_reads z : - 2 ^ 63 ≤ z < 2 ^ 63 → number_reads (msgpack_integer z) (norm (JInteger z)).
Proof.
  intros Hz. unfold msgpack_integer. cbn [norm]. destruct (Z.leb_spec 0 z).
  { rewrite (proj2 (Z.ltb_ge _ _)) by lia. apply unsigned_reads. lia. }
  rewrite (proj2 (Z.ltb_lt _ _)) by lia. unfold number_reads.
  assert (∀ size, (0 < size)%nat → - 2 ^ (8 * Z.of_nat size - 1) ≤ z < 2 ^ (8 * Z.of_nat size - 1) →
    reads (n ← get_signed false size; sax_value (JInteger n)) (write_big size z) (handle_value (JInteger z)) tt) as Hn.
  { intros size Hs Hsz. by apply (reads_value (get_signed false size) JInteger), reads_signed. }
  destruct (Z.leb_spec (-32) z).
  { exists (z + 256), [], (sax_value (JInteger z)). split; [|split; [lia|]].
    - unfold write_big, write_number. cbn. f_equal. apply byteZ_inj. rewrite !byteZ_Zbyte. Z.div_mod_to_equations; lia.
    - unfold msgpack_number. range_tests. split; [|apply reads_event]. do 3 f_equal.
      rewrite <- (signed_wrap 8) by lia. replace ((z + 256) mod 2 ^ 8) with (z mod 2 ^ 8).
      + by rewrite signed_wrap, signed_small by lia.
      + change (2 ^ 8) with 256. Z.div_mod_to_equations; lia. }
  unfold in_range.
  repeat match goal with |- context [?k <=? z] => destruct (Z.leb_spec k z) | |- context [z <=? ?k] => destruct (Z.leb_spec z k) end;
    try lia; cbn [andb].
  - eexists 0xD0, _, _. do 3 (split; [done|]). apply (Hn 1%nat); cbn; lia.
  - eexists 0xD1, _, _. do 3 (split; [done|]). apply (Hn 2%nat); cbn; lia.
  - eexists 0xD2, _, _. do 3 (split; [done|]). apply (Hn 4%nat); cbn; lia.
  - eexists 0xD3, _, _. do 3 (split; [done|]). apply (Hn 8%nat); cbn; lia.
Qed.

Lemma msgpack_parse_number fuel s v : number_reads s v → reads (parse_msgpack_internal (S fuel)) s (handle_value v) tt.
Proof. intros (c & t & m & -> & Hc & Hm & Hr). apply msgpack_parse_reads; [done|]. unfold msgpack_value. rewrite Hm. apply Hr. Qed.

(** Strings. *)
Lemma land_31 N : 0 ≤ N < 32 → Z.land (0xA0 + N) 0x1F = N.
Proof. change 0x1F with (Z.ones 5). rewrite Z.land_ones by lia. intros. Z.div_mod_to_equations; lia. Qed.

Lemma land_15 base N : base = 0x80 ∨ base = 0x90 → 0 ≤ N < 16 → Z.land (base + N) 0x0F = N.
Proof. change 0x0F with (Z.ones 4). rewrite Z.land_ones by lia. intros [->| ->] ?; Z.div_mod_to_equations; lia. Qed.

Lemma string_reads s :
  blen s < 2 ^ 32 → ∃ c t, msgpack_string s = Zbyte c :: t ∧ 0 ≤ c < 256 ∧ is_msgpack_string c = true ∧
    reads_at (Some c) get_msgpack_string t (λ d, d) s.
Proof.
  intros Hs. pose proof (blen_nonneg s). unfold msgpack_string, msgpack_string_head, is_msgpack_string.
  assert (∀ size c, 0 ≤ blen s < 2 ^ (8 * Z.of_nat size) →
    reads_at (Some c) (n ← get_big size; get_string n) (write_big size (blen s) ++ s) (λ d, d) s) as Hn.
  { intros size c Hsz. apply (reads_at_seq _ _ _ _ _ _ (blen s)); [by apply reads_big|apply reads_string]. }
  repeat match goal with |- context [blen s <=? ?k] => destruct (Z.leb_spec (blen s) k) end; [..|lia].
  - exists (0xA0 + blen s), s. rewrite (lor_add 0xA0 32) by (done || lia). split; [done|]. split; [lia|]. range_tests.
    split; [done|]. apply reads_current. range_tests. rewrite land_31 by lia. apply reads_string.
  - eexists 0xD9, _. do 3 (split; [done|]). apply reads_current. apply (Hn 1%nat). cbn. lia.
  - eexists 0xDA, _. do 3 (split; [done|]). apply reads_current. apply (Hn 2%nat). cbn. lia.
  - eexists 0xDB, _. do 3 (split; [done|]). apply reads_current. apply (Hn 4%nat). cbn. lia.
Qed.

Lemma string_not_number c : is_msgpack_string c = true → msgpack_number c = None ∧ in_range c 0x80 0x8F = false ∧ in_range c 0x90 0x9F = false.
Proof.
  unfold is_msgpack_string, in_range, msgpack_number. intros Hc.
  assert (0xA0 ≤ c ≤ 0xBF ∨ 0xD9 ≤ c ≤ 0xDB) as [?|?] by (apply orb_true_iff in Hc as [?|?]; split_bools; lia);
    by range_tests.
Qed.

Lemma msgpack_parse_string fuel s :
  blen s < 2 ^ 32 → reads (parse_msgpack_internal (S fuel)) (msgpack_string s) (handle_value (JString s)) tt.
Proof.
  intros Hs. destruct (string_reads s Hs) as (c & t & -> & Hc & Hstr & Hr). apply msgpack_parse_reads; [done|].
  destruct (string_not_number c Hstr) as (H1 & H2 & H3). unfold msgpack_value. rewrite H1, H2, H3, Hstr.
  by apply (reads_at_value _ get_msgpack_string JString).
Qed.

(** Binary data. *)
Lemma ext_reads data subtype :
  0 ≤ subtype < 256 →
  reads (t ← get_signed false 1; get_ext (blen data) t) (write_big 1 subtype ++ data) (λ d, d) (data, Some subtype).
Proof.
  intros Hs. apply (reads_seq _ _ _ _ _ (signed 8 subtype)).
  - unfold get_signed. rewrite <- (app_nil_r (write_big _ _)). apply (reads_seq _ _ _ _ _ subtype); [by apply reads_big|].
    apply reads_ret.
  - unfold get_ext. rewrite <- (app_nil_r data) at 2. apply (reads_seq _ _ _ _ _ data); [apply reads_string|].
    assert (wrap 8 (signed 8 subtype) = subtype) as ->; [|apply reads_ret].
    unfold signed, wrap. change (2 ^ 8) with 256. rewrite (Z.mod_small subtype) by lia.
    destruct (subtype <? 2 ^ (8 - 1)); [by rewrite Z.mod_small by lia|].
    rewrite <- (Z.mod_add _ 1) by lia. rewrite Z.mod_small by lia. lia.
Qed.

Lemma binary_reads data subtype :
  blen data < 2 ^ 32 → from_option (λ t, 0 ≤ t < 256) True subtype →
  ∃ c t, msgpack_binary data subtype = Zbyte c :: t ∧ 0 ≤ c < 256 ∧ is_msgpack_binary c = true ∧
    reads (get_msgpack_binary c) t (λ d, d) (data, subtype).
Proof.
  intros Hs Ht. pose proof (blen_nonneg data). unfold msgpack_binary, msgpack_binary_head.
  assert (∀ size, 0 ≤ blen data < 2 ^ (8 * Z.of_nat size) →
    reads (n ← get_big size; b ← get_binary n; mret (b, None)) (write_big size (blen data) ++ data) (λ d, d)
      (data, None : option Z)) as Hbin.
  { intros size Hsz. apply (reads_seq _ _ _ _ _ (blen data)); [by apply reads_big|]. rewrite <- (app_nil_r data) at 2.
    apply (reads_seq _ _ _ _ _ data); [apply reads_string|apply reads_ret]. }
  assert (∀ size t, 0 ≤ blen data < 2 ^ (8 * Z.of_nat size) → 0 ≤ t < 256 →
    reads (n ← get_big size; t ← get_signed false 1; get_ext n t) (write_big size (blen data) ++ write_big 1 t ++ data)
      (λ d, d) (data, Some t)) as Hext.
  { intros size t Hsz Hst. apply (reads_seq _ _ _ _ _ (blen data)); [by apply reads_big|]. by apply ext_reads. }
  destruct subtype as [t|]; cbn [from_option] in Ht.
  - repeat match goal with |- context [blen data <=? ?k] => destruct (Z.leb_spec (blen data) k) end; [..|lia].
    + assert (∀ c n, blen data = n → fixext n = (c, true) → 0 ≤ c < 256 → is_msgpack_binary c = true →
        get_msgpack_binary c = (t ← get_signed false 1; get_ext n t) →
        ∃ c' t', (let '(output_type, fixed) := fixext (blen data) in
          Zbyte output_type :: (if fixed then [] else write_big 1 (blen data))) ++ write_big 1 t ++ data = Zbyte c' :: t' ∧
          0 ≤ c' < 256 ∧ is_msgpack_binary c' = true ∧ reads (get_msgpack_binary c') t' (λ d, d) (data, Some t)) as Hfix.
      { intros c n Hn Hf Hc Hb Hg. exists c, (write_big 1 t ++ data). rewrite Hn, Hf, Hg, <- Hn. do 3 (split; [done|]).
        by apply ext_reads. }
      destruct (Z.eq_dec (blen data) 1); [by eapply Hfix|]. destruct (Z.eq_dec (blen data) 2); [by eapply Hfix|].
      destruct (Z.eq_dec (blen data) 4); [by eapply Hfix|]. destruct (Z.eq_dec (blen data) 8); [by eapply Hfix|].
      destruct (Z.eq_dec (blen data) 16); [by eapply Hfix|].
      assert (fixext (blen data) = (0xC7, false)) as ->.
      { unfold fixext. repeat case_match; try done; lia. }
      eexists 0xC7, _. do 3 (split; [done|]). apply (Hext 1%nat); [cbn; lia|done].
    + eexists 0xC8, _. do 3 (split; [done|]). apply (Hext 2%nat); [cbn; lia|done].
    + eexists 0xC9, _. do 3 (split; [done|]). apply (Hext 4%nat); [cbn; lia|done].
  - repeat match goal with |- context [blen data <=? ?k] => destruct (Z.leb_spec (blen data) k) end; [..|lia].
    + eexists 0xC4, _. do 3 (split; [done|]). apply (Hbin 1%nat). cbn. lia.
    + eexists 0xC5, _. do 3 (split; [done|]). apply (Hbin 2%nat). cbn. lia.
    + eexists 0xC6, _. do 3 (split; [done|]). apply (Hbin 4%nat). cbn. lia.
Qed.

Lemma msgpack_parse_binary fuel data subtype :
  blen data < 2 ^ 32 → from_option (λ t, 0 ≤ t < 256) True subtype →
  reads (parse_msgpack_internal (S fuel)) (msgpack_binary data subtype) (handle_value (JBinary data subtype)) tt.
Proof.
  intros Hd Ht. destruct (binary_reads data subtype Hd Ht) as (c & t & -> & Hc & Hb & Hr). apply msgpack_parse_reads; [done|].
  assert (msgpack_value fuel c (parse_msgpack_internal fuel) = b ← get_msgpack_binary c; sax_value (JBinary b.1 b.2)) as ->.
  { clear Hr. unfold is_msgpack_binary, in_range in Hb.
    assert (0xC4 ≤ c ≤ 0xC9 ∨ 0xD4 ≤ c ≤ 0xD8) as [?|?] by (apply orb_true_iff in Hb as [?|?]; split_bools; lia);
      unfold msgpack_value, msgpack_number, is_msgpack_string, is_msgpack_binary; by range_tests. }
  apply (reads_value (get_msgpack_binary c) (λ b, JBinary b.1 b.2) t (data, subtype) Hr).
Qed.

Lemma msgpack_parse_float fuel l :
  ok l → reads (parse_msgpack_internal (S fuel)) (write_compact_float 0xCA 0xCB l) (handle_value (JFloat l)) tt.
Proof.
  intros Hl. unfold write_compact_float. destruct (float_bits32 l) as [b|] eqn:E32; (apply msgpack_parse_reads; [lia|]).
  - by apply (reads_single l b).
  - by apply (reads_double l).
Qed.

(** Containers. *)
Lemma array_reads es fuel :
  blen es < 2 ^ 32 → (length es ≤ fuel)%nat →
  Forall (λ e, reads (parse_msgpack_internal fuel) (write_msgpack e) (handle_value (norm e)) tt) es →
  reads (parse_msgpack_internal (S fuel)) (msgpack_array_head (blen es) ++ concat (write_msgpack <$> es))
    (handle_value (norm (JArray es))) tt.
Proof.
  intros Hmax Hl Hes. pose proof (blen_nonneg es). unfold msgpack_array_head.
  assert (reads (get_msgpack_array fuel (blen es) (parse_msgpack_internal fuel)) (concat (write_msgpack <$> es))
    (handle_value (norm (JArray es))) tt) as Hr.
  { apply (reads_array norm write_msgpack); [unfold ARRAY_MAX_SIZE; lia|done..]. }
  assert (∀ size, 0 ≤ blen es < 2 ^ (8 * Z.of_nat size) →
    reads (n ← get_big size; get_msgpack_array fuel n (parse_msgpack_internal fuel))
      (write_big size (blen es) ++ concat (write_msgpack <$> es)) (handle_value (norm (JArray es))) tt) as Hn.
  { intros size Hsz. apply (reads_seq _ _ _ _ _ (blen es)); [by apply reads_big|done]. }
  repeat match goal with |- context [blen es <=? ?k] => destruct (Z.leb_spec (blen es) k) end; [..|lia].
  - rewrite (lor_add 0x90 16) by (done || lia). apply msgpack_parse_reads; [lia|].
    unfold msgpack_value, msgpack_number. range_tests. rewrite land_15 by lia. apply Hr.
  - apply msgpack_parse_reads; [lia|]. apply (Hn 2%nat). cbn. lia.
  - apply msgpack_parse_reads; [lia|]. apply (Hn 4%nat). cbn. lia.
Qed.

Definition msgpack_member_bytes (m : bytes * json) : bytes := msgpack_string m.1 ++ write_msgpack m.2.

Lemma write_msgpack_object ms :
  write_msgpack (JObject ms) = msgpack_object_head (blen ms) ++ concat (msgpack_member_bytes <$> ms).
Proof. cbn [write_msgpack]. do 2 f_equal. apply list_fmap_ext. by intros ? [k v] _. Qed.

Lemma member_reads fuel k v :
  blen k < 2 ^ 32 → reads (parse_msgpack_internal fuel) (write_msgpack v) (handle_value (norm v)) tt →
  reads (msgpack_member (parse_msgpack_internal fuel)) (msgpack_member_bytes (k, v)) (λ d, handle_value (norm v) (key k d)) tt.
Proof.
  intros Hk Hv. unfold msgpack_member_bytes, msgpack_member. cbn [fst snd].
  destruct (string_reads k Hk) as (c & t & -> & Hc & _ & Hr). cbn [app].
  apply (reads_get (λ _, k ← get_msgpack_string; sax_key k;; parse_msgpack_internal fuel)). rewrite byte_range by lia.
  apply (reads_at_seq _ _ _ t _ _ k); [done|].
  rewrite <- (app_nil_l (write_msgpack v)). apply (reads_bind _ _ [] _ (key k) (handle_value (norm v)) tt); [apply reads_event|done].
Qed.

Lemma object_reads ms fuel :
  blen ms < 2 ^ 32 → (length ms ≤ fuel)%nat → sorted_keys ms = true → Forall (λ m, blen m.1 < 2 ^ 32) ms →
  Forall (λ m, reads (parse_msgpack_internal fuel) (write_msgpack m.2) (handle_value (norm m.2)) tt) ms →
  reads (parse_msgpack_internal (S fuel)) (msgpack_object_head (blen ms) ++ concat (msgpack_member_bytes <$> ms))
    (handle_value (norm (JObject ms))) tt.
Proof.
  intros Hmax Hl Hs Hk Hms. pose proof (blen_nonneg ms). unfold msgpack_object_head.
  assert (reads (get_msgpack_object fuel (blen ms) (parse_msgpack_internal fuel)) (concat (msgpack_member_bytes <$> ms))
    (handle_value (norm (JObject ms))) tt) as Hr.
  { rewrite norm_object. apply (reads_object norm); [unfold OBJECT_MAX_SIZE; lia|done..|].
    rewrite Forall_forall in *. intros [k v] Hin. apply member_reads; [by apply (Hk (k, v))|by apply (Hms (k, v))]. }
  assert (∀ size, 0 ≤ blen ms < 2 ^ (8 * Z.of_nat size) →
    reads (n ← get_big size; get_msgpack_object fuel n (parse_msgpack_internal fuel))
      (write_big size (blen ms) ++ concat (msgpack_member_bytes <$> ms)) (handle_value (norm (JObject ms))) tt) as Hn.
  { intros size Hsz. apply (reads_seq _ _ _ _ _ (blen ms)); [by apply reads_big|done]. }
  repeat match goal with |- context [blen ms <=? ?k] => destruct (Z.leb_spec (blen ms) k) end; [..|lia].
  - assert (Z.land (blen ms) 0xF = blen ms) as -> by (change 0xF with (Z.ones 4); rewrite Z.land_ones, Z.mod_small by lia; lia).
    rewrite (lor_add 0x80 16) by (done || lia). apply msgpack_parse_reads; [lia|].
    unfold msgpack_value, msgpack_number. range_tests. rewrite land_15 by lia. apply Hr.
  - apply msgpack_parse_reads; [lia|]. apply (Hn 2%nat). cbn. lia.
  - apply msgpack_parse_reads; [lia|]. apply (Hn 4%nat). cbn. lia.
Qed.

Lemma array_head_length N : N < 2 ^ 32 → (1 ≤ length (msgpack_array_head N))%nat.
Proof. intros. unfold msgpack_array_head. repeat case_match; zify_bools; cbn [length]; try lia. unfold write_big. by rewrite length_write_number. Qed.

Lemma object_head_length N : N < 2 ^ 32 → (1 ≤ length (msgpack_object_head N))%nat.
Proof. intros. unfold msgpack_object_head. repeat case_match; zify_bools; cbn [length]; try lia. unfold write_big. by rewrite length_write_number. Qed.

Lemma number_reads_length s v : number_reads s v → (1 ≤ length s)%nat.
Proof. intros (c & t & m & -> & _). cbn. lia. Qed.

Lemma write_msgpack_length j : msgpack_ok ok j → (1 ≤ length (write_msgpack j))%nat.
Proof.
  intros Hj. destruct Hj; cbn [write_msgpack]; rewrite ?length_app; try (cbn; lia).
  - by eapply number_reads_length, integer_reads.
  - by eapply number_reads_length, unsigned_reads.
  - unfold write_compact_float. case_match; cbn; lia.
  - destruct (string_reads s) as (c & t & -> & _); [done|]. cbn. lia.
  - destruct (binary_reads data subtype) as (c & t & -> & _); [done..|]. cbn. lia.
  - pose proof (array_head_length (blen es)). lia.
  - pose proof (object_head_length (blen ms)). lia.
Qed.

Lemma parse_write_msgpack j :
  msgpack_ok ok j → ∀ fuel, (length (write_msgpack j) ≤ fuel)%nat →
  reads (parse_msgpack_internal fuel) (write_msgpack j) (handle_value (norm j)) tt.
Proof.
  induction j as [|ms IH|es IH|s|b|z|z|l|data subtype|] using json_induction; intros Hok fuel Hf;
    pose proof (write_msgpack_length _ Hok) as Hl; inversion Hok; subst; (destruct fuel as [|fuel]; [lia|]).
  - apply msgpack_parse_reads; [lia|]. apply reads_event.
  - rewrite write_msgpack_object, length_app in *. pose proof (object_head_length (blen ms) ltac:(done)).
    rewrite Forall_forall in *. destruct (concat_length msgpack_member_bytes ms) as [Hn Hm].
    { apply Forall_forall. intros m Hin. unfold msgpack_member_bytes. rewrite length_app.
      pose proof (write_msgpack_length m.2 ltac:(auto)). lia. }
    apply object_reads; [done|lia|done|by apply Forall_forall|]. apply Forall_forall. intros m Hin.
    apply (IH m Hin); [auto|]. rewrite Forall_forall in Hm. specialize (Hm m Hin).
    unfold msgpack_member_bytes at 1 in Hm. rewrite length_app in Hm. lia.
  - cbn [write_msgpack] in *. rewrite length_app in *. pose proof (array_head_length (blen es) ltac:(done)).
    rewrite Forall_forall in *. destruct (concat_length write_msgpack es) as [Hn Hm].
    { apply Forall_forall. intros e Hin. apply write_msgpack_length. auto. }
    apply array_reads; [done|lia|]. apply Forall_forall. intros e Hin. apply (IH e Hin); [auto|].
    rewrite Forall_forall in Hm. specialize (Hm e Hin). cbn in Hm. lia.
  - by apply msgpack_parse_string.
  - destruct b; (apply msgpack_parse_reads; [lia|]; apply reads_event).
  - by apply msgpack_parse_number, integer_reads.
  - cbn [write_msgpack norm]. rewrite (proj2 (Z.ltb_ge _ _)) by lia. by apply msgpack_parse_number, unsigned_reads.
  - by apply msgpack_parse_float.
  - by apply msgpack_parse_binary.
Qed.
End reading.

(** ** Coming to an end *)

Definition msgpack_failure : failure := λ exceptions e,
  match e with
  | None => exceptions = false
  | Some e => e = ExJsonOutOfRange 408 ∨ (exceptions = true ∧ (e = ExJsonParse 110 ∨ e = ExJsonParse 112 ∨ e = ExJsonParse 113))
  end.

Lemma msgpack_may_fail id : id = 110 ∨ id = 112 ∨ id = 113 → may_fail msgpack_failure id.
Proof. intros Hid. split; [right|done]. destruct Hid as [->|[->| ->]]; auto. Qed.

Lemma msgpack_408 b : msgpack_failure b (Some (ExJsonOutOfRange 408)).
Proof. by left. Qed.

#[local] Hint Resolve msgpack_may_fail msgpack_408 : core.
#[local] Abbreviation mends := (ends msgpack_failure).

Lemma mends_string n len : mends n 0 (get_string len).
Proof. eapply ends_weaken; [reflexivity| |apply ends_string; auto]; lia. Qed.

Lemma mends_big n size : mends n 0 (get_big size).
Proof. eapply ends_weaken; [reflexivity| |apply ends_number; auto]; lia. Qed.

Lemma mends_signed n size : mends n 0 (get_signed false size).
Proof. apply ends_bind0; [apply mends_big|]. intros; apply ends_ret. Qed.

(** Chains of reads. *)
Ltac mends :=
  repeat first
    [ apply ends_event | apply ends_ret | apply mends_string | apply mends_big | apply mends_signed
    | apply ends_unexpect_eof; [by auto] | apply ends_error; [by auto]
    | apply ends_bind0; [|intros ?] | case_match ].

Lemma get_msgpack_string_ends n : mends n 0 get_msgpack_string.
Proof. unfold get_msgpack_string. mends. Qed.

Lemma get_ext_ends n len subtype : mends n 0 (get_ext len subtype).
Proof. unfold get_ext, get_binary. mends. Qed.

Lemma get_msgpack_binary_ends n c : is_msgpack_binary c = true → mends n 0 (get_msgpack_binary c).
Proof.
  intros Hc. unfold get_msgpack_binary, get_binary. pose proof get_ext_ends. unfold is_msgpack_binary, in_range in Hc.
  repeat (case_match; [mends; try apply get_ext_ends|]).
  exfalso. zify_bools. apply orb_true_iff in Hc as [?|?]; split_bools; lia.
Qed.

Section ending.
Context `{FloatBits}.

Lemma msgpack_number_ends n c m : msgpack_number c = Some m → mends n 0 m.
Proof. unfold msgpack_number. repeat (case_match; [intros [= <-]; mends|]). done. Qed.

Section value.
Context (fuel n : nat) (parse : R unit).
Hypothesis Hfuel : (n < fuel)%nat.
Hypothesis Hparse : mends n 1 parse.

Lemma get_msgpack_array_ends len : mends n 0 (get_msgpack_array fuel len parse).
Proof.
  apply ends_bind0; [by apply ends_start_array|]. intros _. apply ends_bind0; [|intros _; apply ends_event].
  by apply ends_for_each.
Qed.

Lemma msgpack_member_ends : mends n 1 (msgpack_member parse).
Proof.
  apply ends_bind0; [apply ends_get|]. intros _. apply ends_bind0; [apply get_msgpack_string_ends|]. intros k.
  apply ends_bind0; [apply ends_event|]. by intros _.
Qed.

Lemma get_msgpack_object_ends len : mends n 0 (get_msgpack_object fuel len parse).
Proof.
  apply ends_bind0; [by apply ends_start_object|]. intros _. apply ends_bind0; [|intros _; apply ends_event].
  apply ends_for_each; [done|apply msgpack_member_ends].
Qed.

Lemma msgpack_value_ends c : mends n 0 (msgpack_value fuel c parse).
Proof.
  unfold msgpack_value. destruct (msgpack_number c) as [m|] eqn:Em; [by eapply msgpack_number_ends|].
  destruct (in_range c 0x80 0x8F); [apply get_msgpack_object_ends|].
  destruct (in_range c 0x90 0x9F); [apply get_msgpack_array_ends|].
  destruct (is_msgpack_string c); [apply ends_bind0; [apply get_msgpack_string_ends|]; intros; apply ends_event|].
  do 3 (case_match; [apply ends_event|]).
  destruct (is_msgpack_binary c) eqn:Eb; [apply ends_bind0; [by apply get_msgpack_binary_ends|]; intros; apply ends_event|].
  do 2 (case_match; [mends|]).
  do 2 (case_match; [apply ends_bind0; [apply mends_big|]; intros; apply get_msgpack_array_ends|]).
  do 2 (case_match; [apply ends_bind0; [apply mends_big|]; intros; apply get_msgpack_object_ends|]).
  mends.
Qed.
End value.

Lemma parse_msgpack_ends fuel n : (n + 2 ≤ fuel)%nat → mends n 1 (parse_msgpack_internal fuel).
Proof.
  revert n. induction fuel as [|fuel IH]; intros n Hn; [lia|]. cbn [parse_msgpack_internal]. apply ends_get_needs.
  - intros c Hpos. apply msgpack_value_ends; [lia|]. apply IH. lia.
  - intros r _ _. apply post_error. auto.
Qed.
End ending.

(** ** Properties *)

(** C28 (roundtrip): a value is read from the MessagePack that [to_msgpack] writes for it, up
    to the sign class of its integers: strings and keys of any bytes, integers of 64 bits,
    doubles, binary data with its subtype, arrays and objects, when no size needs more than
    32 bits and no subtype more than 8; with trailing bytes, strict reading fails. *)
Theorem msgpack_roundtrip `{FloatBitsLaws ok} j strict exceptions rest fuel :
  msgpack_ok ok j → (length (write_msgpack j) ≤ fuel)%nat →
  from_msgpack fuel (write_msgpack j ++ rest) strict exceptions =
  Some (if strict then match rest with
                       | [] => inl (norm j)
                       | _ :: _ => if exceptions then inr (ExJsonParse 110) else inl JDiscarded
                       end
        else inl (norm j)).
Proof. intros Hj Hf. by apply from_binary_reads, parse_write_msgpack. Qed.

Definition msgpack_sample : json :=
  JObject [(b#"a", JArray [JInteger (-1000); JUnsigned 70000; JNull; JInteger (-5); JString [Zbyte 0xE9]]);
           (b#"b", JBinary b#"wxyz" (Some 200)); (b#"f", JFloat b#"12345678")].

Lemma msgpack_roundtrip_witness (f := byte_floats) :
  from_msgpack 100 (write_msgpack msgpack_sample ++ b#"!") true true = Some (inr (ExJsonParse 110)).
Proof.
  apply (msgpack_roundtrip (H0 := byte_floats_laws) msgpack_sample true true b#"!" 100).
  - unfold msgpack_sample. repeat (constructor || done).
  - apply Nat.leb_le. vm_compute. reflexivity.
Defined.

(** Reading MessagePack ends on every input within two more rounds than it
    has bytes, whatever lengths it announces; what is thrown is [parse_error] 110, 112 or
    113, and never with [allow_exceptions] off, or [out_of_range.408], then too. *)
Lemma msgpack_total `{FloatBits} i strict exceptions :
  ∃ res, from_msgpack (length i + 2) i strict exceptions = Some res ∧
    ∀ e, res = inr e → e = ExJsonOutOfRange 408 ∨
      (exceptions = true ∧ (e = ExJsonParse 110 ∨ e = ExJsonParse 112 ∨ e = ExJsonParse 113)).
Proof.
  apply (from_binary_ends msgpack_failure (length i) 0); [done|].
  apply ends_bind0; [|intros _; apply ends_expect_end; auto].
  eapply ends_weaken; [reflexivity| |by apply parse_msgpack_ends]. lia.
Qed.
