(* ===== verification/Bson.v ===== *)
(** * Bson: the BSON format ([include/nlohmann/json.hpp], [write_bson] and
      [parse_bson_internal])

    The writer first adds up the size of a document, which also finds the keys that BSON
    cannot hold; the reader does not look at the sizes of documents. *)

From S2P Require Import Prelude CString Prog JsonValue JsonParser BinaryIO.

(** ** Sizes *)

Definition has_nul (name : bytes) : bool := existsb (λ c, bool_decide (c = NUL)) name.

Definition calc_bson_entry_header_size (name : bytes) : dres Z :=
  if has_nul name then DThrow (ExJsonOutOfRange 409) else DOk (1 + blen name + 1).

Definition calc_bson_string_size (value : bytes) : Z := 4 + blen value + 1.
Definition calc_bson_integer_size (value : Z) : Z := if in_range value (- 2 ^ 31) (2 ^ 31 - 1) then 4 else 8.
Definition calc_bson_unsigned_size (value : Z) : Z := if value <=? 2 ^ 31 - 1 then 4 else 8.
Definition calc_bson_binary_size (value : bytes) : Z := 4 + blen value + 1.

(** [calc_bson_object_size] and [calc_bson_array_size], given the size of an element. *)
Definition sum_members (calc_bson_element_size : bytes → json → dres Z) : Z → list (bytes * json) → dres Z :=
  fix go result ms :=
    match ms with
    | [] => DOk result
    | (k, v) :: ms => n ← calc_bson_element_size k v; go (result + n) ms
    end.
Definition sum_elements (calc_bson_element_size : bytes → json → dres Z) : Z → Z → list json → dres Z :=
  fix go array_index result es :=
    match es with
    | [] => DOk result
    | v :: es => n ← calc_bson_element_size (dec array_index) v; go (array_index + 1) (result + n) es
    end.

Definition calc_bson_object_size (calc_bson_element_size : bytes → json → dres Z) (value : list (bytes * json)) : dres Z :=
  document_size ← sum_members calc_bson_element_size 0 value; DOk (4 + document_size + 1).

Definition calc_bson_array_size (calc_bson_element_size : bytes → json → dres Z) (value : list json) : dres Z :=
  embedded_document_size ← sum_elements calc_bson_element_size 0 0 value; DOk (4 + embedded_document_size + 1).

Fixpoint calc_bson_element_size (name : bytes) (j : json) {struct j} : dres Z :=
  header_size ← calc_bson_entry_header_size name;
  match j with
  | JObject ms => n ← calc_bson_object_size calc_bson_element_size ms; DOk (header_size + n)
  | JArray es => n ← calc_bson_array_size calc_bson_element_size es; DOk (header_size + n)
  | JBinary data _ => DOk (header_size + calc_bson_binary_size data)
  | JBoolean _ => DOk (header_size + 1)
  | JFloat _ => DOk (header_size + 8)
  | JInteger z => DOk (header_size + calc_bson_integer_size z)
  | JUnsigned z => DOk (header_size + calc_bson_unsigned_size z)
  | JString s => DOk (header_size + calc_bson_string_size s)
  | JNull => DOk header_size
  | JDiscarded => DUndef UB_assertion
  end.

(** ** Writing *)

Definition write_little (size : nat) (n : Z) : bytes := write_number true size n.

Definition write_bson_entry_header (name : bytes) (element_type : Z) : bytes := Zbyte element_type :: name ++ [NUL].

Definition write_bson_boolean (name : bytes) (value : bool) : bytes :=
  write_bson_entry_header name 0x08 ++ [Zbyte (if value then 0x01 else 0x00)].
Definition write_bson_double `{FloatBits} (name value : bytes) : bytes :=
  write_bson_entry_header name 0x01 ++ write_little 8 (float_bits value).
Definition write_bson_string (name value : bytes) : bytes :=
  write_bson_entry_header name 0x02 ++ write_little 4 (blen value + 1) ++ value ++ [NUL].
Definition write_bson_null (name : bytes) : bytes := write_bson_entry_header name 0x0A.
Definition write_bson_integer (name : bytes) (value : Z) : bytes :=
  if in_range value (- 2 ^ 31) (2 ^ 31 - 1)
  then write_bson_entry_header name 0x10 ++ write_little 4 value
  else write_bson_entry_header name 0x12 ++ write_little 8 value.
Definition write_bson_unsigned (name : bytes) (value : Z) : dres bytes :=
  if value <=? 2 ^ 31 - 1 then DOk (write_bson_entry_header name 0x10 ++ write_little 4 value)
  else if value <=? 2 ^ 63 - 1 then DOk (write_bson_entry_header name 0x12 ++ write_little 8 value)
  else DThrow (ExJsonOutOfRange 407).
Definition write_bson_binary (name data : bytes) (subtype : option Z) : bytes :=
  write_bson_entry_header name 0x05 ++ write_little 4 (blen data) ++ [Zbyte (default 0 subtype)] ++ data.

(** [write_bson_object] and [write_bson_array], given the writer of an element. *)
Definition write_members (write_bson_element : bytes → json → dres bytes) : list (bytes * json) → dres bytes :=
  fix go ms :=
    match ms with
    | [] => DOk []
    | (k, v) :: ms => s ← write_bson_element k v; t ← go ms; DOk (s ++ t)
    end.
Definition write_elements (write_bson_element : bytes → json → dres bytes) : Z → list json → dres bytes :=
  fix go array_index es :=
    match es with
    | [] => DOk []
    | v :: es => s ← write_bson_element (dec array_index) v; t ← go (array_index + 1) es; DOk (s ++ t)
    end.

Definition write_bson_object (write_bson_element : bytes → json → dres bytes) (value : list (bytes * json)) : dres bytes :=
  size ← calc_bson_object_size calc_bson_element_size value;
  s ← write_members write_bson_element value;
  DOk (write_little 4 size ++ s ++ [Zbyte 0x00]).

Definition write_bson_array (write_bson_element : bytes → json → dres bytes) (name : bytes) (value : list json) : dres bytes :=
  size ← calc_bson_array_size calc_bson_element_size value;
  s ← write_elements write_bson_element 0 value;
  DOk (write_bson_entry_header name 0x04 ++ write_little 4 size ++ s ++ [Zbyte 0x00]).

Fixpoint write_bson_element `{FloatBits} (name : bytes) (j : json) {struct j} : dres bytes :=
  match j with
  | JObject ms => s ← write_bson_object write_bson_element ms; DOk (write_bson_entry_header name 0x03 ++ s)
  | JArray es => write_bson_array write_bson_element name es
  | JBinary data subtype => DOk (write_bson_binary name data subtype)
  | JBoolean b => DOk (write_bson_boolean name b)
  | JFloat l => DOk (write_bson_double name l)
  | JInteger z => DOk (write_bson_integer name z)
  | JUnsigned z => write_bson_unsigned name z
  | JString s => DOk (write_bson_string name s)
  | JNull => DOk (write_bson_null name)
  | JDiscarded => DUndef UB_assertion
  end.

Definition write_bson `{FloatBits} (j : json) : dres bytes :=
  match j with
  | JObject ms => write_bson_object write_bson_element ms
  | _ => DThrow (ExJsonType 317)
  end.

(** ** Reading *)

(** [get_bson_cstr]: up to a null byte. *)
Fixpoint take_cstr (s : bytes) : option (bytes * bytes) :=
  match s with
  | [] => None
  | c :: s =>
      if bool_decide (c = NUL) then Some ([], s)
      else match take_cstr s with Some (t, s) => Some (c :: t, s) | None => None end
  end.
Definition get_bson_cstr : R bytes := λ r,
  match take_cstr (ia r) with
  | Some (t, s) => ROk t (mkReader (Some 0) s (builder r) (allow_exceptions r))
  | None => parse_error 110 (mkReader None [] (builder r) (allow_exceptions r))
  end.

(** At the end of the input in place of the terminator, [false] without an error. *)
Definition get_bson_string (len : Z) : R bytes :=
  if len <? 1 then parse_error 112
  else
    s ← get_string (len - 1);
    c ← get;
    match c with None => rfalse | Some _ => mret s end.

(** The subtype stays 0 when the input ends before it. *)
Definition get_bson_subtype : R Z := λ r,
  match get_number false 1 r with RFalse r => ROk 0 r | x => x end.
Definition get_bson_binary (len : Z) : R (bytes * Z) :=
  if len <? 0 then parse_error 112
  else
    subtype ← get_bson_subtype;
    data ← get_binary len;
    mret (data, subtype).

(** [parse_bson_internal] and [parse_bson_array], around [parse_bson_element_list]. *)
Definition bson_entry (is_array : bool) (parse_bson_element_internal : Z → R unit) : R unit :=
  element_type ← unexpect_eof;
  k ← get_bson_cstr;
  (if is_array then mret tt else sax_key k);;
  parse_bson_element_internal element_type.

Definition parse_bson_element_list (fuel : nat) (is_array : bool) (parse_bson_element_internal : Z → R unit) : R unit :=
  get_until fuel 0 (bson_entry is_array parse_bson_element_internal).

Definition parse_bson_internal (fuel : nat) (parse_bson_element_internal : Z → R unit) : R unit :=
  ignored (get_signed true 4);;
  sax_start_object NO_SIZE;;
  parse_bson_element_list fuel false parse_bson_element_internal;;
  sax_end.

Definition parse_bson_array (fuel : nat) (parse_bson_element_internal : Z → R unit) : R unit :=
  ignored (get_signed true 4);;
  sax_start_array NO_SIZE;;
  parse_bson_element_list fuel true parse_bson_element_internal;;
  sax_end.

(** [sax->boolean(get() != 0)]; the end of the input is not 0. *)
Definition bson_boolean : R unit :=
  c ← get; sax_value (JBoolean (negb (bool_decide (c = Some 0)))).

Fixpoint parse_bson_element_internal `{FloatBits} (fuel : nat) (element_type : Z) : R unit :=
  if element_type =? 0x01 then number ← get_number true 8; sax_value (JFloat (float_of_bits number))
  else if element_type =? 0x02 then len ← get_signed true 4; value ← get_bson_string len; sax_value (JString value)
  else if element_type =? 0x03 then
    match fuel with O => rnofuel | S fuel => parse_bson_internal fuel (parse_bson_element_internal fuel) end
  else if element_type =? 0x04 then
    match fuel with O => rnofuel | S fuel => parse_bson_array fuel (parse_bson_element_internal fuel) end
  else if element_type =? 0x05 then
    len ← get_signed true 4; value ← get_bson_binary len; sax_value (JBinary value.1 (Some value.2))
  else if element_type =? 0x08 then bson_boolean
  else if element_type =? 0x0A then sax_value JNull
  else if element_type =? 0x10 then value ← get_signed true 4; sax_value (JInteger value)
  else if element_type =? 0x12 then value ← get_signed true 8; sax_value (JInteger value)
  else parse_error 114.

(** [from_bson(i, strict, allow_exceptions)]. *)
Definition from_bson `{FloatBits} (fuel : nat) (i : bytes) (strict exceptions : bool) : option (json + exn) :=
  from_binary (parse_bson_internal fuel (parse_bson_element_internal fuel);; expect_end strict) exceptions i.
