(* ===== verification/BsonSpec.v ===== *)
(** * BsonSpec: BSON round trip, sizes, termination and errors

    What [to_bson] writes is read by [from_bson] as the same document, the sizes in it are
    those of what follows, and [from_bson] ends on every input and fails in documented ways
    only. *)

From S2P Require Import Prelude CString Prog JsonValue JsonParser JsonRoundTrip BinaryIO BinaryReads Bson.

(** Values that BSON holds: integers of 64 signed bits, strings and binary data with sizes of
    31 bits, keys without null bytes. *)
#[warnings="-register-all"]
Inductive bson_ok (ok : bytes → Prop) : json → Prop :=
| bson_ok_null : bson_ok ok JNull
| bson_ok_boolean b : bson_ok ok (JBoolean b)
| bson_ok_integer z : - 2 ^ 63 ≤ z < 2 ^ 63 → bson_ok ok (JInteger z)
| bson_ok_unsigned z : 0 ≤ z < 2 ^ 63 → bson_ok ok (JUnsigned z)
| bson_ok_float l : ok l → bson_ok ok (JFloat l)
| bson_ok_string s : blen s < 2 ^ 31 - 1 → bson_ok ok (JString s)
| bson_ok_binary data subtype : blen data < 2 ^ 31 → bson_ok ok (JBinary data subtype)
| bson_ok_array es : Forall (bson_ok ok) es → bson_ok ok (JArray es)
| bson_ok_object ms :
    sorted_keys ms = true → Forall (λ m, no_nul m.1 = true) ms → Forall (λ m, bson_ok ok m.2) ms →
    bson_ok ok (JObject ms).

(** What is read for a value: integers are signed, and binary data has a subtype of a byte. *)
Fixpoint bson_norm (j : json) : json :=
  match j with
  | JObject ms => JObject ((λ '(k, v), (k, bson_norm v)) <$> ms)
  | JArray es => JArray (bson_norm <$> es)
  | JUnsigned z => JInteger z
  | JBinary data subtype => JBinary data (Some (wrap 8 (default 0 subtype)))
  | _ => j
  end.

Lemma bson_norm_object ms : bson_norm (JObject ms) = JObject (prod_map id bson_norm <$> ms).
Proof. cbn. f_equal. apply list_fmap_ext. by intros ? [k v] _. Qed.

(** ** Keys *)

Lemma has_nul_no_nul name : has_nul name = negb (no_nul name).
Proof.
  induction name as [|c s IH]; [done|]. unfold has_nul, no_nul in *. cbn. rewrite IH, negb_andb. f_equal.
  by repeat case_bool_decide.
Qed.

Lemma calc_header name : no_nul name = true → calc_bson_entry_header_size name = DOk (blen name + 2).
Proof. intros Hn. unfold calc_bson_entry_header_size. rewrite has_nul_no_nul, Hn. cbn. f_equal. lia. Qed.

Lemma blen_header name t : blen (write_bson_entry_header name t) = blen name + 2.
Proof. unfold write_bson_entry_header. rewrite blen_cons, blen_app. unfold blen. cbn. lia. Qed.

Lemma length_header name t : length (write_bson_entry_header name t) = (length name + 2)%nat.
Proof. unfold write_bson_entry_header. cbn. rewrite length_app. cbn. lia. Qed.

Lemma header_assoc name t s1 s2 s3 :
  (write_bson_entry_header name t ++ s1 ++ s2) ++ s3 = Zbyte t :: (name ++ NUL :: s1) ++ s2 ++ s3.
Proof. unfold write_bson_entry_header. cbn. by rewrite <- !app_assoc. Qed.

Lemma take_cstr_app name s : no_nul name = true → take_cstr (name ++ NUL :: s) = Some (name, s).
Proof.
  induction name as [|c name IH]; [done|]. intros [Hc Hn]%no_nul_cons. cbn [app take_cstr].
  by rewrite bool_decide_eq_false_2, IH by done.
Qed.

Lemma reads_cstr name : no_nul name = true → reads get_bson_cstr (name ++ [NUL]) (λ d, d) name.
Proof.
  intros Hn cur rest d b. unfold get_bson_cstr. cbn [ia]. rewrite <- app_assoc. cbn [app].
  rewrite take_cstr_app by done. by eexists.
Qed.

(** An array is a document with its indices as keys. *)
Fixpoint indexed (array_index : Z) (es : list json) : list (bytes * json) :=
  match es with [] => [] | v :: es => (dec array_index, v) :: indexed (array_index + 1) es end.

Lemma write_indexed f i es : write_elements f i es = write_members f (indexed i es).
Proof. revert i. induction es as [|e es IH]; intros i; [done|]. cbn. destruct (f _ e); cbn; [|done..]. by rewrite IH. Qed.

Lemma sum_indexed f i n es : sum_elements f i n es = sum_members f n (indexed i es).
Proof. revert i n. induction es as [|e es IH]; intros i n; [done|]. cbn. destruct (f _ e); cbn; [|done..]. by rewrite IH. Qed.

Lemma indexed_values i es : (indexed i es).*2 = es.
Proof. revert i. induction es as [|e es IH]; intros i; [done|]. cbn. by rewrite IH. Qed.

Lemma indexed_keys i es : Forall (λ m, no_nul m.1 = true) (indexed i es).
Proof. revert i. induction es as [|e es IH]; intros i; [constructor|]. cbn. constructor; [apply dec_no_nul|apply IH]. Qed.

Section reading.
Context `{FloatBitsLaws ok}.

(** What is written for a value under any key: its type, the key, and bytes that are read as
    the value; the size that is computed for it. *)
Definition element_spec (j : json) : Prop :=
  ∀ name, no_nul name = true → ∃ t s,
    write_bson_element name j = DOk (write_bson_entry_header name t ++ s) ∧
    calc_bson_element_size name j = DOk (blen name + 2 + blen s) ∧ 0 < t < 256 ∧
    ∀ fuel, (length s ≤ fuel)%nat → reads (parse_bson_element_internal fuel t) s (handle_value (bson_norm j)) tt.

(** ** Documents *)

Definition add_member (is_array : bool) (d : dom) (m : bytes * json) : dom :=
  handle_value (bson_norm m.2) (if is_array then d else key m.1 d).

Lemma entry_reads is_array fuel name t s j :
  no_nul name = true → reads (parse_bson_element_internal fuel t) s (handle_value (bson_norm j)) tt →
  reads_at (Some t) (bson_entry is_array (parse_bson_element_internal fuel)) (name ++ NUL :: s)
    (λ d, add_member is_array d (name, j)) tt.
Proof.
  intros Hn Hr. unfold bson_entry. apply reads_current. rewrite (cons_middle NUL), app_assoc.
  apply (reads_seq _ _ _ s _ name); [by apply reads_cstr|]. unfold add_member. cbn [fst snd].
  destruct is_array.
  - by apply (reads_seq (mret tt) _ [] s _ tt); [apply reads_ret|].
  - by apply (reads_bind (sax_key name) _ [] s (key name) _ tt); [apply reads_event|].
Qed.

Lemma members_spec is_array ms :
  Forall (λ m, no_nul m.1 = true ∧ element_spec m.2) ms →
  ∃ s, write_members write_bson_element ms = DOk s ∧
    (∀ n, sum_members calc_bson_element_size n ms = DOk (n + blen s)) ∧
    ∀ fuel fuel', (length s ≤ fuel)%nat → (length s < fuel')%nat →
      reads (get_until fuel' 0 (bson_entry is_array (parse_bson_element_internal fuel))) (s ++ [Zbyte 0])
        (λ d, foldl (add_member is_array) d ms) tt.
Proof.
  induction 1 as [|[k j] ms [Hk Hj] _ (s2 & Hw2 & Hc2 & Hr2)]; cbn [fst snd] in *.
  - exists []. split; [done|]. split; [intros n; by rewrite blen_nil, Z.add_0_r|]. intros fuel [|fuel'] _ Hf; [cbn in Hf; lia|].
    cbn [get_until app]. apply reads_get. rewrite byte_range, bool_decide_eq_true_2 by (done || lia). by apply reads_ret.
  - destruct (Hj k Hk) as (t & s1 & Hw1 & Hc1 & Ht & Hr1).
    exists (write_bson_entry_header k t ++ s1 ++ s2).
    split; [cbn [write_members]; rewrite Hw1; cbn [mbind dres_bind]; rewrite Hw2; cbn [mbind dres_bind]; by rewrite <- app_assoc|]. split.
    + intros n. cbn [sum_members]. rewrite Hc1. cbn [mbind dres_bind]. rewrite Hc2.
      rewrite !blen_app, blen_header. f_equal. lia.
    + intros fuel fuel' Hf Hf'. rewrite !length_app, length_header in *. rewrite header_assoc.
      destruct fuel' as [|fuel']; [lia|]. cbn [get_until]. apply reads_get. rewrite byte_range by lia.
      rewrite bool_decide_eq_false_2 by (intros [= ?]; lia).
      apply (reads_at_bind _ _ _ _ _ (λ d, add_member is_array d (k, j)) (λ d, foldl (add_member is_array) d ms) tt).
      * apply entry_reads; [done|]. apply Hr1. lia.
      * apply Hr2; lia.
Qed.

Lemma reads_ignored {A} (m : R A) s f a : reads m s f a → reads (ignored m) s f tt.
Proof. intros Hm cur rest d b. destruct (Hm cur rest d b) as [cur' Hr]. exists cur'. unfold ignored. by rewrite Hr. Qed.

Lemma reads_size n : reads (ignored (get_signed true 4)) (write_little 4 n) (λ d, d) tt.
Proof.
  eapply reads_ignored. intros cur rest d b. eexists. unfold get_signed, mbind, R_bind. by rewrite get_number_write.
Qed.

Lemma document_reads (is_array : bool) size s ms fuel :
  (∀ fuel fuel', (length s ≤ fuel)%nat → (length s < fuel')%nat →
     reads (get_until fuel' 0 (bson_entry is_array (parse_bson_element_internal fuel))) (s ++ [Zbyte 0])
       (λ d, foldl (add_member is_array) d ms) tt) →
  (length s < fuel)%nat →
  reads (if is_array then parse_bson_array fuel (parse_bson_element_internal fuel)
         else parse_bson_internal fuel (parse_bson_element_internal fuel))
    (write_little 4 size ++ s ++ [Zbyte 0])
    (λ d, end_container (foldl (add_member is_array) (if is_array then start_array d else start_object d) ms)) tt.
Proof.
  intros Hs Hf. destruct is_array.
  all: apply (reads_seq _ _ _ _ _ tt); [apply reads_size|].
  1: apply (reads_bind (sax_start_array NO_SIZE) _ [] _ start_array
      (λ d, end_container (foldl (add_member true) d ms)) tt).
  3: apply (reads_bind (sax_start_object NO_SIZE) _ [] _ start_object
      (λ d, end_container (foldl (add_member false) d ms)) tt).
  1,3: intros cur rest d b; by eexists.
  all: rewrite <- (app_nil_r (s ++ _)).
  - apply (reads_bind _ _ _ [] (λ d, foldl (add_member true) d ms) end_container tt); [|apply reads_event].
    apply Hs; lia.
  - apply (reads_bind _ _ _ [] (λ d, foldl (add_member false) d ms) end_container tt); [|apply reads_event].
    apply Hs; lia.
Qed.

Lemma add_members ms d :
  sorted_keys ms = true →
  end_container (foldl (add_member false) (start_object d) ms) = handle_value (bson_norm (JObject ms)) d.
Proof.
  intros Hs. rewrite bson_norm_object, <- build_object.
  - f_equal. by rewrite <- (foldl_fmap (λ d m, handle_value m.2 (key m.1 d)) (prod_map id bson_norm)).
  - by apply sorted_keys_map.
Qed.

Lemma add_elements ms d :
  end_container (foldl (add_member true) (start_array d) ms) = handle_value (bson_norm (JArray ms.*2)) d.
Proof.
  cbn [bson_norm]. rewrite <- build_array. f_equal.
  by rewrite <- list_fmap_compose, <- (foldl_fmap (λ d v, handle_value v d) (bson_norm ∘ snd)).
Qed.

(** The document that [write_bson_object] writes. *)
Lemma object_spec ms :
  sorted_keys ms = true → Forall (λ m, no_nul m.1 = true) ms → Forall (λ m, element_spec m.2) ms →
  ∃ s, write_bson_object write_bson_element ms = DOk (write_little 4 (blen s + 5) ++ s ++ [Zbyte 0]) ∧
    calc_bson_object_size calc_bson_element_size ms = DOk (blen s + 5) ∧
    ∀ fuel, (length s < fuel)%nat →
      reads (parse_bson_internal fuel (parse_bson_element_internal fuel)) (write_little 4 (blen s + 5) ++ s ++ [Zbyte 0])
        (handle_value (bson_norm (JObject ms))) tt.
Proof.
  intros Hs Hk Hms. destruct (members_spec false ms) as (s & Hw & Hc & Hr).
  { rewrite Forall_forall in *. auto. }
  assert (calc_bson_object_size calc_bson_element_size ms = DOk (blen s + 5)) as Hsize.
  { unfold calc_bson_object_size. rewrite Hc. cbn. f_equal. lia. }
  exists s. split; [unfold write_bson_object; rewrite Hsize; cbn [mbind dres_bind]; by rewrite Hw|]. split; [done|].
  intros fuel Hf. eapply reads_ext; [|by apply (document_reads false)]. intros d. by apply add_members.
Qed.

Lemma array_spec name es :
  Forall element_spec es →
  ∃ s, write_bson_array write_bson_element name es =
      DOk (write_bson_entry_header name 4 ++ write_little 4 (blen s + 5) ++ s ++ [Zbyte 0]) ∧
    calc_bson_array_size calc_bson_element_size es = DOk (blen s + 5) ∧
    ∀ fuel, (length s < fuel)%nat →
      reads (parse_bson_array fuel (parse_bson_element_internal fuel)) (write_little 4 (blen s + 5) ++ s ++ [Zbyte 0])
        (handle_value (bson_norm (JArray es))) tt.
Proof.
  intros Hes. destruct (members_spec true (indexed 0 es)) as (s & Hw & Hc & Hr).
  { apply Forall_and. split; [apply indexed_keys|]. apply (proj1 (Forall_fmap snd element_spec _)). by rewrite indexed_values. }
  assert (calc_bson_array_size calc_bson_element_size es = DOk (blen s + 5)) as Hsize.
  { unfold calc_bson_array_size. rewrite sum_indexed, Hc. cbn. f_equal. lia. }
  exists s. split.
  { unfold write_bson_array. rewrite Hsize. cbn [mbind dres_bind]. by rewrite write_indexed, Hw. }
  split; [done|]. intros fuel Hf. eapply reads_ext; [|by apply (document_reads true)].
  intros d. etrans; [apply add_elements|]. by rewrite indexed_values.
Qed.

(** ** Values *)

Lemma reads_bson_string s : reads (get_bson_string (blen s + 1)) (s ++ [NUL]) (λ d, d) s.
Proof.
  unfold get_bson_string. pose proof (blen_nonneg s). rewrite (proj2 (Z.ltb_ge _ _)) by lia.
  rewrite Z.add_simpl_r. apply (reads_seq _ _ _ _ _ s); [apply reads_string|]. apply reads_get.
  intros rest d b. by eexists.
Qed.

Lemma reads_bson_binary data z :
  reads (get_bson_binary (blen data)) (Zbyte z :: data) (λ d, d) (data, wrap 8 z).
Proof.
  unfold get_bson_binary. pose proof (blen_nonneg data). rewrite (proj2 (Z.ltb_ge _ _)) by lia.
  apply (reads_seq get_bson_subtype _ [Zbyte z] data _ (wrap 8 z)).
  - intros cur rest d b. eexists. unfold get_bson_subtype.
    change ([Zbyte z] ++ rest) with (write_number false 1 z ++ rest). rewrite get_number_write. reflexivity.
  - rewrite <- (app_nil_r data) at 2. apply (reads_seq _ _ data [] _ data); [apply reads_string|apply reads_ret].
Qed.

Lemma reads_bson_float l fuel :
  ok l → reads (parse_bson_element_internal fuel 1) (write_little 8 (float_bits l)) (handle_value (JFloat l)) tt.
Proof.
  intros Hl. assert (parse_bson_element_internal fuel 1 = number ← get_number true 8; sax_value (JFloat (float_of_bits number)))
    as -> by (by destruct fuel).
  rewrite <- (float_of_bits_bits l Hl) at 2.
  by apply (reads_value (get_number true 8) (λ n, JFloat (float_of_bits n))), reads_number, float_bits_range.
Qed.

Lemma reads_bson_int fuel t size z :
  (t, size) ∈ [(0x10, 4%nat); (0x12, 8%nat)] → - 2 ^ (8 * Z.of_nat size - 1) ≤ z < 2 ^ (8 * Z.of_nat size - 1) →
  reads (parse_bson_element_internal fuel t) (write_little size z) (handle_value (JInteger z)) tt.
Proof.
  intros Ht Hz. assert (parse_bson_element_internal fuel t = (n ← get_signed true size; sax_value (JInteger n)) ∧ (0 < size)%nat)
    as [-> Hs].
  { apply elem_of_cons in Ht as [[= -> ->]|[[= -> ->]|?%not_elem_of_nil]%elem_of_cons]; [..|done];
      (split; [by destruct fuel|lia]). }
  by apply (reads_value (get_signed true size) JInteger), reads_signed.
Qed.

(** An integer of 31 bits, or one of 63. *)
Lemma integer_spec name z :
  - 2 ^ 63 ≤ z < 2 ^ 63 → ∃ t size,
    write_bson_integer name z = write_bson_entry_header name t ++ write_little size z ∧
    calc_bson_integer_size z = Z.of_nat size ∧ 0 < t < 256 ∧
    ∀ fuel, reads (parse_bson_element_internal fuel t) (write_little size z) (handle_value (JInteger z)) tt.
Proof.
  intros Hz. unfold write_bson_integer, calc_bson_integer_size. destruct (in_range z _ _) eqn:Er.
  - exists 0x10, 4%nat. do 2 (split; [done|]). split; [lia|]. intros fuel. unfold in_range in Er. split_bools.
    apply reads_bson_int; [repeat constructor|cbn; lia].
  - exists 0x12, 8%nat. do 2 (split; [done|]). split; [lia|]. intros fuel.
    apply reads_bson_int; [repeat constructor|cbn; lia].
Qed.

Lemma unsigned_integer name z :
  0 ≤ z < 2 ^ 63 → write_bson_unsigned name z = DOk (write_bson_integer name z) ∧
    calc_bson_unsigned_size z = calc_bson_integer_size z.
Proof.
  intros Hz. unfold write_bson_unsigned, write_bson_integer, calc_bson_unsigned_size, calc_bson_integer_size, in_range.
  rewrite (proj2 (Z.leb_le (- 2 ^ 31) z)) by lia. cbn [andb].
  destruct (z <=? 2 ^ 31 - 1); [done|]. by rewrite (proj2 (Z.leb_le z (2 ^ 63 - 1))) by lia.
Qed.

(** The element is its header and [s], whatever the fuel. *)
Ltac element t s :=
  exists t, s; split; [cbn [write_bson_element]; f_equal; by try rewrite app_nil_r|]; split;
  [cbn [calc_bson_element_size]; rewrite calc_header by done; cbn [mbind dres_bind]; f_equal
  |split; [lia|intros fuel Hf]].

Lemma integer_element z : - 2 ^ 63 ≤ z < 2 ^ 63 → element_spec (JInteger z).
Proof.
  intros Hz name Hn. destruct (integer_spec name z Hz) as (t & size & Hw & Hc & Ht & Hr).
  exists t, (write_little size z). cbn [write_bson_element calc_bson_element_size].
  rewrite Hw, Hc, calc_header by done. cbn [mbind dres_bind]. split; [done|]. split; [|split; [done|by intros]].
  unfold blen, write_little. by rewrite length_write_number.
Qed.

Lemma write_bson_ok j : bson_ok ok j → element_spec j.
Proof.
  induction j as [|ms IH|es IH|s|b|z|z|l|data subtype|] using json_induction; intros Hok; inversion Hok; subst.
  - intros name Hn. element 0x0A (@nil ascii). { by rewrite blen_nil, Z.add_0_r. }
    destruct fuel; apply reads_event.
  - destruct (object_spec ms) as (s & Hw & Hc & Hr); [done..|rewrite Forall_forall in *; auto|].
    intros name Hn. exists 0x03, (write_little 4 (blen s + 5) ++ s ++ [Zbyte 0]).
    cbn [write_bson_element calc_bson_element_size]. rewrite Hw, Hc, calc_header by done. cbn [mbind dres_bind].
    split; [done|]. rewrite !blen_app, !length_app. unfold write_little. split; [|split; [lia|]].
    + f_equal. unfold blen. rewrite length_write_number. cbn. lia.
    + rewrite length_write_number. intros [|fuel] Hf; [cbn in Hf; lia|]. apply Hr. cbn in Hf. lia.
  - assert (Forall element_spec es) as Hes by (rewrite Forall_forall in *; auto).
    intros name Hn. destruct (array_spec name es Hes) as (s & Hw & Hc & Hr).
    exists 0x04, (write_little 4 (blen s + 5) ++ s ++ [Zbyte 0]).
    cbn [write_bson_element calc_bson_element_size]. rewrite Hw, Hc, calc_header by done. cbn [mbind dres_bind].
    split; [done|]. rewrite !blen_app, !length_app. unfold write_little. split; [|split; [lia|]].
    + f_equal. unfold blen. rewrite length_write_number. cbn. lia.
    + rewrite length_write_number. intros [|fuel] Hf; [cbn in Hf; lia|]. apply Hr. cbn in Hf. lia.
  - intros name Hn. element 0x02 (write_little 4 (blen s + 1) ++ s ++ [NUL]).
    { rewrite !blen_app. unfold calc_bson_string_size. change (blen [NUL]) with 1.
      change (blen (write_little 4 (blen s + 1))) with 4. lia. }
    assert (parse_bson_element_internal fuel 0x02 =
      (len ← get_signed true 4; value ← get_bson_string len; sax_value (JString value))) as -> by (by destruct fuel).
    pose proof (blen_nonneg s). apply (reads_seq _ _ _ _ _ (blen s + 1)); [apply reads_signed; cbn; lia|].
    apply (reads_value (get_bson_string (blen s + 1)) JString), reads_bson_string.
  - intros name Hn. element 0x08 [Zbyte (if b then 1 else 0)]; [done..|].
    assert (parse_bson_element_internal fuel 0x08 = bson_boolean) as -> by (by destruct fuel).
    apply reads_get. destruct b; apply reads_event.
  - by apply integer_element.
  - intros name Hn. destruct (integer_element z ltac:(lia) name Hn) as (t & s & Hw & Hc & Ht & Hr).
    destruct (unsigned_integer name z) as [Hu Hcu]; [done|]. exists t, s. cbn [write_bson_element calc_bson_element_size] in *.
    rewrite Hu, Hcu. by rewrite Hc.
  - intros name Hn. element 0x01 (write_little 8 (float_bits l)); [done..|]. by apply reads_bson_float.
  - intros name Hn. element 0x05 (write_little 4 (blen data) ++ Zbyte (default 0 subtype) :: data).
    { rewrite !blen_app, blen_cons. unfold calc_bson_binary_size. change (blen (write_little 4 (blen data))) with 4. lia. }
    assert (parse_bson_element_internal fuel 0x05 =
      (len ← get_signed true 4; value ← get_bson_binary len; sax_value (JBinary value.1 (Some value.2)))) as ->
      by (by destruct fuel).
    pose proof (blen_nonneg data). apply (reads_seq _ _ _ _ _ (blen data)); [apply reads_signed; cbn; lia|].
    apply (reads_value (get_bson_binary (blen data)) (λ v, JBinary v.1 (Some v.2)) _ _ (reads_bson_binary data _)).
Qed.

(** The document of an object. *)
Lemma write_bson_object_ok ms :
  bson_ok ok (JObject ms) →
  ∃ s, write_bson (JObject ms) = DOk (write_little 4 (blen s + 5) ++ s ++ [Zbyte 0]) ∧
    ∀ fuel, (length s < fuel)%nat →
      reads (parse_bson_internal fuel (parse_bson_element_internal fuel)) (write_little 4 (blen s + 5) ++ s ++ [Zbyte 0])
        (handle_value (bson_norm (JObject ms))) tt.
Proof.
  intros Hok. inversion Hok; subst. destruct (object_spec ms) as (s & Hw & _ & Hr); [done..| |by exists s].
  rewrite Forall_forall in *. intros m Hin. apply write_bson_ok. auto.
Qed.
End reading.

(** ** Coming to an end *)

(** [get_bson_string] may fail without an error. *)
Definition bson_failure : failure := λ exceptions e,
  match e with
  | None => True
  | Some e => exceptions = true ∧ (e = ExJsonParse 110 ∨ e = ExJsonParse 112 ∨ e = ExJsonParse 114)
  end.

Lemma bson_may_fail id : id = 110 ∨ id = 112 ∨ id = 114 → may_fail bson_failure id.
Proof. intros Hid. split; [|done]. split; [done|]. destruct Hid as [->|[->| ->]]; auto. Qed.

#[local] Hint Resolve bson_may_fail : core.
#[local] Abbreviation bends := (ends bson_failure).

Lemma bends_number n le size : bends n 0 (get_number le size).
Proof. eapply ends_weaken; [reflexivity| |apply ends_number; auto]; lia. Qed.

Lemma bends_signed n size : bends n 0 (get_signed true size).
Proof. apply ends_bind0; [apply bends_number|]. intros; apply ends_ret. Qed.

Lemma bends_string n len : bends n 0 (get_string len).
Proof. eapply ends_weaken; [reflexivity| |apply ends_string; auto]; lia. Qed.

Lemma take_cstr_shorter s t s' : take_cstr s = Some (t, s') → (length s' < length s)%nat.
Proof.
  revert t s'. induction s as [|c s IH]; intros t s'; [done|]. cbn. case_bool_decide; [intros [= <- <-]; lia|].
  destruct (take_cstr s) as [[t1 s1]|]; [|done]. intros [= <- <-]. specialize (IH t1 s1 eq_refl). lia.
Qed.

Lemma get_bson_cstr_ends n : bends n 0 get_bson_cstr.
Proof.
  intros r Hr. unfold get_bson_cstr. destruct (take_cstr (ia r)) as [[t s]|] eqn:Et.
  - apply take_cstr_shorter in Et. cbn. split; [lia|done].
  - unfold parse_error. cbn. destruct (allow_exceptions r) eqn:Eb; cbn; rewrite ?Eb; [by split; [|auto]|]. split; [lia|done].
Qed.

Lemma get_bson_subtype_ends n : bends n 0 get_bson_subtype.
Proof.
  intros r Hr. unfold get_bson_subtype. pose proof (bends_number n false 1 r Hr) as Hn.
  destruct (get_number false 1 r); cbn in *; try done. split; [lia|]. apply Hn.
Qed.

Lemma get_bson_string_ends n len : bends n 0 (get_bson_string len).
Proof.
  unfold get_bson_string. case_match; [apply ends_error; auto|]. apply ends_bind0; [apply bends_string|]. intros s.
  apply ends_bind0; [apply ends_get|]. intros [c|]; [apply ends_ret|]. intros r _. cbn. split; [lia|done].
Qed.

Lemma get_bson_binary_ends n len : bends n 0 (get_bson_binary len).
Proof.
  unfold get_bson_binary. case_match; [apply ends_error; auto|]. apply ends_bind0; [apply get_bson_subtype_ends|].
  intros t. apply ends_bind0; [apply bends_string|]. intros; apply ends_ret.
Qed.

Section ending.
Context `{FloatBits}.

Lemma document_ends fuel n is_array element (start : R unit) :
  (n < fuel)%nat → (∀ k t, (k < n)%nat → bends k 0 (element t)) → bends n 0 start →
  bends n 0 (ignored (get_signed true 4);; start;; parse_bson_element_list fuel is_array element;; sax_end).
Proof.
  intros Hf He Hs. apply ends_bind0; [apply ends_ignored, bends_signed|]. intros _.
  apply ends_bind0; [done|]. intros _. apply ends_bind0; [|intros _; apply ends_event].
  apply ends_get_until; [done| | |auto].
  - intros Hpos. unfold bson_entry. apply ends_bind0; [apply ends_unexpect_eof; auto|]. intros t.
    apply ends_bind0; [apply get_bson_cstr_ends|]. intros k. apply ends_bind0; [|intros _; apply He; lia].
    destruct is_array; [apply ends_ret|apply ends_event].
  - apply needs_current_eof. auto.
Qed.

Lemma start_array_ends n : bends n 0 (sax_start_array NO_SIZE).
Proof. apply ends_bind0; [apply ends_event|]. intros _. apply ends_ret. Qed.

Lemma start_object_ends n : bends n 0 (sax_start_object NO_SIZE).
Proof. apply ends_bind0; [apply ends_event|]. intros _. apply ends_ret. Qed.

Lemma bson_element_ends fuel n t : (n + 2 ≤ fuel)%nat → bends n 0 (parse_bson_element_internal fuel t).
Proof.
  revert n t. induction fuel as [|fuel IH]; intros n t Hn; [lia|]. cbn [parse_bson_element_internal].
  case_match; [apply ends_bind0; [apply bends_number|intros; apply ends_event]|].
  case_match; [apply ends_bind0; [apply bends_signed|intros len; apply ends_bind0; [apply get_bson_string_ends|intros; apply ends_event]]|].
  case_match; [apply document_ends; [lia|intros; apply IH; lia|apply start_object_ends]|].
  case_match; [apply document_ends; [lia|intros; apply IH; lia|apply start_array_ends]|].
  case_match; [apply ends_bind0; [apply bends_signed|intros len; apply ends_bind0; [apply get_bson_binary_ends|intros; apply ends_event]]|].
  case_match; [apply ends_bind0; [apply ends_get|intros; apply ends_event]|].
  case_match; [apply ends_event|].
  do 2 (case_match; [apply ends_bind0; [apply bends_signed|intros; apply ends_event]|]).
  apply ends_error. auto.
Qed.

Lemma parse_bson_ends fuel n : (n + 2 ≤ fuel)%nat → bends n 0 (parse_bson_internal fuel (parse_bson_element_internal fuel)).
Proof. intros Hf. apply document_ends; [lia|intros; apply bson_element_ends; lia|apply start_object_ends]. Qed.
End ending.

(** ** Properties *)

(** C29 (roundtrip): a document is read from the BSON that [to_bson] writes for it, and its first four
    bytes are the number of bytes written; with trailing bytes, strict reading fails.  What is read is
    the document up to the sign class of its integers (all are signed) and the subtypes of its binary data, of which
    BSON keeps a byte (0 for none, else the subtype modulo 256).  The document is an object with
    keys in order and without zero bytes, unsigned integers below 2^63, strings under 2^31 - 1
    bytes and binary data under 2^31, no discarded values, and doubles whose bits the platform's
    conversions keep. *)
Theorem bson_roundtrip `{FloatBitsLaws ok} ms :
  bson_ok ok (JObject ms) →
  ∃ s, write_bson (JObject ms) = DOk s ∧ take 4 s = write_little 4 (blen s) ∧
    ∀ strict exceptions rest fuel, (length s ≤ fuel)%nat →
      from_bson fuel (s ++ rest) strict exceptions =
      Some (if strict then match rest with
                           | [] => inl (bson_norm (JObject ms))
                           | _ :: _ => if exceptions then inr (ExJsonParse 110) else inl JDiscarded
                           end
            else inl (bson_norm (JObject ms))).
Proof.
  intros Hok. destruct (write_bson_object_ok ms Hok) as (s & Hw & Hr).
  exists (write_little 4 (blen s + 5) ++ s ++ [Zbyte 0]). split; [done|]. split.
  - rewrite take_app_length' by (unfold write_little; by rewrite length_write_number). f_equal.
    rewrite !blen_app. unfold blen. unfold write_little. rewrite length_write_number. cbn. lia.
  - intros strict exceptions rest fuel Hf. apply from_binary_reads, Hr.
    rewrite !length_app in Hf. cbn in Hf. lia.
Qed.

Definition bson_sample : list (bytes * json) :=
  [(b#"a", JArray [JInteger (-1000); JUnsigned 7000000000; JNull; JBoolean true; JString [NUL; Zbyte 0xE9]]);
   (b#"b", JBinary b#"xyz" None); (b#"f", JFloat b#"12345678"); (b#"o", JObject [])].

Lemma bson_roundtrip_witness (f := byte_floats) :
  ∃ s, write_bson (JObject bson_sample) = DOk s ∧ take 4 s = write_little 4 (blen s) ∧
    from_bson 200 (s ++ b#"!") false true = Some (inl (bson_norm (JObject bson_sample))).
Proof.
  destruct (bson_roundtrip (H0 := byte_floats_laws) bson_sample) as (s & Hw & Hs & Hr).
  - unfold bson_sample. repeat (constructor || done).
  - exists s. split; [done|]. split; [done|]. apply (Hr false true).
    vm_compute in Hw. injection Hw as <-. apply Nat.leb_le. vm_compute. reflexivity.
Defined.

(** Reading BSON ends on every input within two more rounds than it has
    bytes, whatever sizes it announces; what is thrown is [parse_error] 110, 112 or 114, and
    nothing with [allow_exceptions] off. *)
Lemma bson_total `{FloatBits} i strict exceptions :
  ∃ res, from_bson (length i + 2) i strict exceptions = Some res ∧
    ∀ e, res = inr e → exceptions = true ∧ (e = ExJsonParse 110 ∨ e = ExJsonParse 112 ∨ e = ExJsonParse 114).
Proof.
  apply (from_binary_ends bson_failure (length i) 0); [done|].
  apply ends_bind0; [|intros _; apply ends_expect_end; auto]. by apply parse_bson_ends.
Qed.

(** What BSON does not hold: a key with a null byte anywhere in the document is an error
    before anything is written, and so is a document that is not an object. *)
Lemma bson_key_nul `{FloatBits} k v ms : has_nul k = true → write_bson (JObject ((k, v) :: ms)) = DThrow (ExJsonOutOfRange 409).
Proof.
  intros Hk. cbn [write_bson]. unfold write_bson_object, calc_bson_object_size. cbn [sum_members].
  assert (calc_bson_element_size k v = DThrow (ExJsonOutOfRange 409)) as ->; [|done].
  destruct v; cbn [calc_bson_element_size]; unfold calc_bson_entry_header_size; by rewrite Hk.
Qed.

(** A string whose terminator is missing at the end of the input: a discarded value, and no
    exception even when they are allowed. *)
Lemma bson_string_no_terminator (f := byte_floats) :
  from_bson 100 ([Zbyte 0; Zbyte 0; Zbyte 0; Zbyte 0; Zbyte 2; "k"%char; NUL; Zbyte 2; NUL; NUL; NUL; "x"%char]) true true =
  Some (inl JDiscarded).
Proof. vm_compute. reflexivity. Qed.
