(* ===== verification/Ubjson.v ===== *)
(** * Ubjson: the UBJSON format ([include/nlohmann/json.hpp], [write_ubjson] and
      [parse_ubjson_internal])

    The writer with its optional counts and types of containers, and the reader, which skips
    no-ops and, in a container of a given type, reads values without a prefix.  The number
    of rounds of such a container is bounded by the limit on sizes only. *)

From S2P Require Import Prelude CString Prog JsonValue JsonLexer JsonParser JsonDump BinaryIO.

(** The value of a character. *)
Definition ch (a : ascii) : Z := byteZ a.

(** ** Writing *)

(** [write_number_with_ubjson_prefix] for [std::uint64_t]; [high] writes the numbers that
    have no binary form. *)
Definition ubjson_unsigned (high : Z → bytes) (n : Z) (add_prefix : bool) : bytes :=
  let pre c := if add_prefix then [c] else [] in
  if n <=? 127 then pre "i"%char ++ write_big 1 n
  else if n <=? 255 then pre "U"%char ++ write_big 1 n
  else if n <=? 2 ^ 15 - 1 then pre "I"%char ++ write_big 2 n
  else if n <=? 2 ^ 31 - 1 then pre "l"%char ++ write_big 4 n
  else if n <=? 2 ^ 63 - 1 then pre "L"%char ++ write_big 8 n
  else pre "H"%char ++ high n.

(** The digits after their number, which is small: it has no high-precision form. *)
Definition ubjson_high (n : Z) : bytes :=
  let number := dump_integer (zeros 64) n in
  ubjson_unsigned (λ _, []) (blen number) true ++ number.

Definition write_unsigned_with_ubjson_prefix : Z → bool → bytes := ubjson_unsigned ubjson_high.

(** The same for [std::int64_t]. *)
Definition write_signed_with_ubjson_prefix (n : Z) (add_prefix : bool) : bytes :=
  let pre c := if add_prefix then [c] else [] in
  if in_range n (-128) 127 then pre "i"%char ++ write_big 1 n
  else if in_range n 0 255 then pre "U"%char ++ write_big 1 n
  else if in_range n (- 2 ^ 15) (2 ^ 15 - 1) then pre "I"%char ++ write_big 2 n
  else if in_range n (- 2 ^ 31) (2 ^ 31 - 1) then pre "l"%char ++ write_big 4 n
  else if in_range n (- 2 ^ 63) (2 ^ 63 - 1) then pre "L"%char ++ write_big 8 n
  else pre "H"%char ++ ubjson_high n.

Definition write_double_with_ubjson_prefix `{FloatBits} (l : bytes) (add_prefix : bool) : bytes :=
  (if add_prefix then b#"D" else []) ++ write_big 8 (float_bits l).

Definition ubjson_prefix (j : json) : ascii :=
  match j with
  | JNull => "Z"%char
  | JBoolean b => if b then "T"%char else "F"%char
  | JInteger n =>
      if in_range n (-128) 127 then "i"%char
      else if in_range n 0 255 then "U"%char
      else if in_range n (- 2 ^ 15) (2 ^ 15 - 1) then "I"%char
      else if in_range n (- 2 ^ 31) (2 ^ 31 - 1) then "l"%char
      else if in_range n (- 2 ^ 63) (2 ^ 63 - 1) then "L"%char
      else "H"%char
  | JUnsigned n =>
      if n <=? 127 then "i"%char
      else if n <=? 255 then "U"%char
      else if n <=? 2 ^ 15 - 1 then "I"%char
      else if n <=? 2 ^ 31 - 1 then "l"%char
      else if n <=? 2 ^ 63 - 1 then "L"%char
      else "H"%char
  | JFloat _ => "D"%char
  | JString _ => "S"%char
  | JArray _ | JBinary _ _ => "["%char
  | JObject _ => "{"%char
  | JDiscarded => "N"%char
  end.

(** The type of a container, when it is asked for and its values share one. *)
Definition ubjson_type (use_type : bool) (values : list json) : option ascii :=
  match values with
  | v :: vs =>
      let first_prefix := ubjson_prefix v in
      if use_type && forallb (λ v, bool_decide (ubjson_prefix v = first_prefix)) vs then Some first_prefix else None
  | [] => None
  end.

(** What comes before the values: the type and the number of the values. *)
Definition ubjson_head (use_count use_type : bool) (values : list json) : bytes :=
  match ubjson_type use_type values with Some c => ["$"%char; c] | None => [] end ++
  (if use_count then b#"#" ++ write_unsigned_with_ubjson_prefix (blen values) true else []).

Definition ubjson_string (s : bytes) : bytes := write_unsigned_with_ubjson_prefix (blen s) true ++ s.

(** [JSON_ASSERT(use_count)] in a container that is not empty. *)
Definition assert_count (use_count use_type empty : bool) : dres unit :=
  if use_type && negb empty && negb use_count then DUndef UB_assertion else DOk tt.

Definition ubjson_binary (use_count use_type : bool) (data : bytes) : bytes :=
  (if use_type && negb (bool_decide (data = [])) then b#"$U" else []) ++
  (if use_count then b#"#" ++ write_unsigned_with_ubjson_prefix (blen data) true else []) ++
  (if use_type then data else flat_map (λ c, ["U"%char; c]) data) ++
  (if use_count then [] else b#"]").

Definition write_values (write_ubjson : json → dres bytes) : list json → dres bytes :=
  fix go es := match es with [] => DOk [] | v :: es => s ← write_ubjson v; t ← go es; DOk (s ++ t) end.
Definition write_entries (write_ubjson : json → dres bytes) : list (bytes * json) → dres bytes :=
  fix go ms :=
    match ms with [] => DOk [] | (k, v) :: ms => s ← write_ubjson v; t ← go ms; DOk (ubjson_string k ++ s ++ t) end.

Fixpoint write_ubjson `{FloatBits} (j : json) (use_count use_type add_prefix : bool) {struct j} : dres bytes :=
  let pre c := if add_prefix then [c] else [] in
  match j with
  | JNull => DOk (pre "Z"%char)
  | JBoolean b => DOk (pre (if b then "T"%char else "F"%char))
  | JInteger n => DOk (write_signed_with_ubjson_prefix n add_prefix)
  | JUnsigned n => DOk (write_unsigned_with_ubjson_prefix n add_prefix)
  | JFloat l => DOk (write_double_with_ubjson_prefix l add_prefix)
  | JString s => DOk (pre "S"%char ++ ubjson_string s)
  | JArray es =>
      assert_count use_count use_type (bool_decide (es = []));;
      let prefix_required := match ubjson_type use_type es with Some _ => false | None => true end in
      s ← write_values (λ el, write_ubjson el use_count use_type prefix_required) es;
      DOk (pre "["%char ++ ubjson_head use_count use_type es ++ s ++ (if use_count then [] else b#"]"))
  | JBinary data _ =>
      assert_count use_count use_type (bool_decide (data = []));;
      DOk (pre "["%char ++ ubjson_binary use_count use_type data)
  | JObject ms =>
      assert_count use_count use_type (bool_decide (ms = []));;
      let prefix_required := match ubjson_type use_type ms.*2 with Some _ => false | None => true end in
      s ← write_entries (λ el, write_ubjson el use_count use_type prefix_required) ms;
      DOk (pre "{"%char ++ ubjson_head use_count use_type ms.*2 ++ s ++ (if use_count then [] else b#"}"))
  | JDiscarded => DOk []
  end.

(** [to_ubjson(j, use_size, use_type)]. *)
Definition to_ubjson `{FloatBits} (j : json) (use_size use_type : bool) : dres bytes :=
  write_ubjson j use_size use_type true.

(** ** Reading *)

(** [get_ignore_noop]: the first byte that is not ['N']. *)
Fixpoint drop_noop (s : bytes) : bytes :=
  match s with c :: s' => if bool_decide (c = "N"%char) then drop_noop s' else s | [] => [] end.
Definition get_ignore_noop : R (option Z) := λ r,
  get (mkReader (current r) (drop_noop (ia r)) (builder r) (allow_exceptions r)).

(** The integers, by their prefix. *)
Definition ubjson_int (prefix : Z) : option (R Z) :=
  if prefix =? ch "U" then Some (get_big 1)
  else if prefix =? ch "i" then Some (get_signed false 1)
  else if prefix =? ch "I" then Some (get_signed false 2)
  else if prefix =? ch "l" then Some (get_signed false 4)
  else if prefix =? ch "L" then Some (get_signed false 8)
  else None.

(** A negative length gives the empty string. *)
Definition get_ubjson_string (get_char : bool) : R bytes :=
  (if get_char then get else get_current);;
  c ← unexpect_eof;
  match ubjson_int c with
  | Some len => n ← len; get_string n
  | None => parse_error 113
  end.

(** Converted to [std::size_t]. *)
Definition get_ubjson_size_value : R Z :=
  c ← get_ignore_noop;
  match c ≫= ubjson_int with
  | Some number => n ← number; mret (wrap 64 n)
  | None => parse_error 113
  end.

(** The size, or [NO_SIZE], and the type, or 0. *)
Definition size_type (c : option Z) : R (Z * Z) :=
  if bool_decide (c = Some (ch "$")) then
    _ ← get;
    type ← unexpect_eof;
    c ← get_ignore_noop;
    if bool_decide (c = Some (ch "#")) then size ← get_ubjson_size_value; mret (size, type)
    else unexpect_eof;; parse_error 112
  else if bool_decide (c = Some (ch "#")) then size ← get_ubjson_size_value; mret (size, 0)
  else mret (NO_SIZE, 0).
Definition get_ubjson_size_type : R (Z * Z) := get_ignore_noop ≫= size_type.

(** [while (current != stop)] with [get_ignore_noop()] at the end of the round. *)
Fixpoint while_current (fuel : nat) (stop : Z) (body : R unit) : R unit :=
  c ← get_current;
  if bool_decide (c = Some stop) then mret tt
  else match fuel with
       | O => rnofuel
       | S fuel => body;; get_ignore_noop;; while_current fuel stop body
       end.

Section reader.
Context `{FloatBits}.

Definition get_ubjson_high_precision_number : R unit :=
  size ← get_ubjson_size_value;
  number_vector ← get_string size;
  match scan false true number_vector with
  | None => rnofuel
  | Some (ParseError _) => parse_error 115
  | Some (Token result_number rest) =>
      match scan false false rest with
      | None => rnofuel
      | Some (Token end_of_input _) =>
          match result_number with
          | value_integer z => sax_value (JInteger z)
          | value_unsigned z => sax_value (JUnsigned z)
          | value_float l => sax_value (JFloat l)
          | _ => parse_error 115
          end
      | Some _ => parse_error 115
      end
  end.

Section containers.
Context (fuel : nat) (get_ubjson_value : option Z → R unit).

Definition parse_ubjson_value (get_char : bool) : R unit :=
  c ← (if get_char then get_ignore_noop else get_current); get_ubjson_value c.

Definition array_values (st : Z * Z) : R unit :=
  let '(size, type) := st in
  (if negb (size =? NO_SIZE) then
     sax_start_array size;;
     if negb (type =? 0) then
       if negb (type =? ch "N") then for_each fuel size (get_ubjson_value (Some type)) else mret tt
     else for_each fuel size (parse_ubjson_value true)
   else
     sax_start_array NO_SIZE;; while_current fuel (ch "]") (parse_ubjson_value false));;
  sax_end.
Definition get_ubjson_array : R unit := get_ubjson_size_type ≫= array_values.

Definition ubjson_member (get_char : bool) (value : R unit) : R unit :=
  k ← get_ubjson_string get_char; sax_key k;; value.

Definition object_values (st : Z * Z) : R unit :=
  let '(size, type) := st in
  (if negb (size =? NO_SIZE) then
     sax_start_object size;;
     for_each fuel size
       (ubjson_member true (if negb (type =? 0) then get_ubjson_value (Some type) else parse_ubjson_value true))
   else
     sax_start_object NO_SIZE;; while_current fuel (ch "}") (ubjson_member false (parse_ubjson_value true)));;
  sax_end.
Definition get_ubjson_object : R unit := get_ubjson_size_type ≫= object_values.
End containers.

(** The prefixes of values that are not containers; [None] for those of containers and bytes that are no
    prefix. *)
Definition ubjson_scalar (prefix : Z) : option (R unit) :=
  if prefix =? ch "T" then Some (sax_value (JBoolean true))
  else if prefix =? ch "F" then Some (sax_value (JBoolean false))
  else if prefix =? ch "Z" then Some (sax_value JNull)
  else if prefix =? ch "U" then Some (number ← get_big 1; sax_value (JUnsigned number))
  else if prefix =? ch "i" then Some (number ← get_signed false 1; sax_value (JInteger number))
  else if prefix =? ch "I" then Some (number ← get_signed false 2; sax_value (JInteger number))
  else if prefix =? ch "l" then Some (number ← get_signed false 4; sax_value (JInteger number))
  else if prefix =? ch "L" then Some (number ← get_signed false 8; sax_value (JInteger number))
  else if prefix =? ch "d" then Some (number ← get_big 4; sax_value (JFloat (float_of_bits32 number)))
  else if prefix =? ch "D" then Some (number ← get_big 8; sax_value (JFloat (float_of_bits number)))
  else if prefix =? ch "H" then Some get_ubjson_high_precision_number
  else if prefix =? ch "C" then
    Some (_ ← get; c ← unexpect_eof; if 127 <? c then parse_error 113 else sax_value (JString [Zbyte c]))
  else if prefix =? ch "S" then Some (s ← get_ubjson_string true; sax_value (JString s))
  else None.

Fixpoint get_ubjson_value (fuel : nat) (prefix : option Z) : R unit :=
  match prefix with
  | None => unexpect_eof;; mret tt
  | Some prefix =>
      match ubjson_scalar prefix with
      | Some m => m
      | None =>
          if prefix =? ch "[" then
            match fuel with O => rnofuel | S fuel => get_ubjson_array fuel (get_ubjson_value fuel) end
          else if prefix =? ch "{" then
            match fuel with O => rnofuel | S fuel => get_ubjson_object fuel (get_ubjson_value fuel) end
          else parse_error 112
      end
  end.
End reader.

Definition parse_ubjson_internal `{FloatBits} (fuel : nat) (get_char : bool) : R unit :=
  parse_ubjson_value (get_ubjson_value fuel) get_char.

(** The end of [sax_parse] for UBJSON: no-ops may follow. *)
Definition expect_ubjson_end (strict : bool) : R unit :=
  if strict then c ← get_ignore_noop; (match c with None => mret tt | Some _ => parse_error 110 end) else mret tt.

(** [from_ubjson(i, strict, allow_exceptions)]. *)
Definition from_ubjson `{FloatBits} (fuel : nat) (i : bytes) (strict exceptions : bool) : option (json + exn) :=
  from_binary (parse_ubjson_internal fuel true;; expect_ubjson_end strict) exceptions i.

