(* ===== verification/UbjsonSpec.v ===== *)
(** * UbjsonSpec: UBJSON round trip, termination and errors

    What [to_ubjson] writes, with or without counts and types, is read by [from_ubjson] as
    the same value; [from_ubjson] ends on every input, and fails in documented ways only. *)

From S2P Require Import Prelude CString Prog JsonValue JsonLexer JsonParser JsonDump JsonNumbers JsonRoundTrip BinaryIO BinaryReads Ubjson.

(** Values that UBJSON holds: integers of 64 bits, sizes of 63 bits. *)
#[warnings="-register-all"]
Inductive ubjson_ok (ok : bytes → Prop) : json → Prop :=
| ubjson_ok_null : ubjson_ok ok JNull
| ubjson_ok_boolean b : ubjson_ok ok (JBoolean b)
| ubjson_ok_integer z : - 2 ^ 63 ≤ z < 2 ^ 63 → ubjson_ok ok (JInteger z)
| ubjson_ok_unsigned z : 0 ≤ z < 2 ^ 64 → ubjson_ok ok (JUnsigned z)
| ubjson_ok_float l : ok l → ubjson_ok ok (JFloat l)
| ubjson_ok_string s : blen s < 2 ^ 63 → ubjson_ok ok (JString s)
| ubjson_ok_binary data subtype : blen data ≤ ARRAY_MAX_SIZE → ubjson_ok ok (JBinary data subtype)
| ubjson_ok_array es : blen es ≤ ARRAY_MAX_SIZE → Forall (ubjson_ok ok) es → ubjson_ok ok (JArray es)
| ubjson_ok_object ms :
    blen ms ≤ OBJECT_MAX_SIZE → sorted_keys ms = true → Forall (λ m, blen m.1 < 2 ^ 63) ms →
    Forall (λ m, ubjson_ok ok m.2) ms → ubjson_ok ok (JObject ms).

(** What is read for a value: the prefix decides on the sign class of an integer, and binary
    data becomes an array of numbers. *)
Definition ubjson_integer (z : Z) : json :=
  if in_range z 128 255 then JUnsigned z else if z <=? 2 ^ 63 - 1 then JInteger z else JUnsigned z.

Fixpoint ubjson_norm (j : json) : json :=
  match j with
  | JObject ms => JObject ((λ '(k, v), (k, ubjson_norm v)) <$> ms)
  | JArray es => JArray (ubjson_norm <$> es)
  | JInteger z | JUnsigned z => ubjson_integer z
  | JBinary data _ => JArray ((λ c, JUnsigned (byteZ c)) <$> data)
  | _ => j
  end.

Lemma ubjson_norm_object ms : ubjson_norm (JObject ms) = JObject (prod_map id ubjson_norm <$> ms).
Proof. cbn. f_equal. apply list_fmap_ext. by intros ? [k v] _. Qed.

(** Rounds that are enough to read a value: values of a typed container may take no bytes. *)
Fixpoint rounds (j : json) : nat :=
  match j with
  | JObject ms => S (sum_list ((λ '(k, v), S (rounds v)) <$> ms))
  | JArray es => S (sum_list ((λ v, S (rounds v)) <$> es))
  | JBinary data _ => S (S (length data))
  | _ => 1
  end.

(** ** Bytes that are not skipped *)

Lemma reads_at_assoc {A B C} cur (m : R A) (f : A → R B) (g : B → R C) s h c :
  reads_at cur (m ≫= λ a, f a ≫= g) s h c → reads_at cur ((m ≫= f) ≫= g) s h c.
Proof.
  intros Hr rest d b. destruct (Hr rest d b) as [cur' H]. exists cur'. rewrite <- H.
  unfold mbind, R_bind. by destruct (m _).
Qed.

Lemma reads_ignore_noop {A} (k : option Z → R A) c s f a :
  c ≠ "N"%char → reads_at (Some (ch c)) (k (Some (ch c))) s f a → reads (get_ignore_noop ≫= k) (c :: s) f a.
Proof.
  intros Hc Hk cur rest d b. destruct (Hk rest d b) as [cur' Hr]. exists cur'.
  unfold mbind, R_bind, get_ignore_noop. cbn. rewrite bool_decide_eq_false_2 by done. apply Hr.
Qed.

(** Rounds that end with the next byte: an entry [x] is a first byte and the rest. *)
Lemma reads_while {X} (enc : X → ascii * bytes) (f : X → dom → dom) stop body fuel l :
  (length l ≤ fuel)%nat → stop ≠ "N"%char →
  Forall (λ x, (enc x).1 ≠ "N"%char ∧ (enc x).1 ≠ stop ∧ reads_at (Some (ch (enc x).1)) body (enc x).2 (f x) tt) l →
  ∀ c s, concat ((λ x, (enc x).1 :: (enc x).2) <$> l) ++ [stop] = c :: s →
    c ≠ "N"%char ∧ reads_at (Some (ch c)) (while_current fuel (ch stop) body) s (λ d, foldl (λ d x, f x d) d l) tt.
Proof.
  intros Hl Hstop Hx. revert fuel Hl. induction Hx as [|x l (HN & Hs & Hb) _ IH]; intros fuel Hl c s Hcs.
  - cbn in Hcs. injection Hcs as <- <-. split; [done|]. intros rest d b. exists (Some (ch stop)).
    destruct fuel; unfold while_current, mbind, R_bind, get_current; cbn [current]; by rewrite bool_decide_eq_true_2.
  - cbn in Hcs. injection Hcs as <- <-. split; [done|]. cbn in Hl. destruct fuel as [|fuel]; [lia|].
    rewrite <- app_assoc. destruct (concat _ ++ [stop]) as [|c2 s2] eqn:E; [by destruct (concat _)|].
    destruct (IH fuel ltac:(lia) c2 s2 eq_refl) as [HN2 Hr2].
    assert (reads_at (Some (ch (enc x).1)) (body;; get_ignore_noop;; while_current fuel (ch stop) body)
      ((enc x).2 ++ c2 :: s2) (λ d, foldl (λ d x, f x d) (f x d) l) tt) as Hr.
    { apply (reads_at_bind _ _ _ _ _ (f x) (λ d, foldl (λ d x, f x d) d l) tt); [done|]. by apply reads_ignore_noop. }
    intros rest d b. destruct (Hr rest d b) as [cur' H']. exists cur'. etrans; [|exact H'].
    cbn [while_current]. unfold mbind at 1, R_bind at 1, get_current. cbn [current].
    rewrite bool_decide_eq_false_2; [done|]. intros [= E2%byteZ_inj]. done.
Qed.

(** ** Numbers *)

(** The bytes after the prefix [p] are read as the integer. *)
Definition int_reads (p : ascii) (s : bytes) (z : Z) : Prop :=
  ∃ m, ubjson_int (ch p) = Some m ∧ reads m s (λ d, d) z.

Lemma int_reads_scalar `{FloatBits} p s z :
  int_reads p s z → ∃ m, ubjson_scalar (ch p) = Some m ∧ p ≠ "N"%char ∧
    reads m s (handle_value (if bool_decide (p = "U"%char) then JUnsigned z else JInteger z)) tt.
Proof.
  intros (m & Hm & Hr).
  assert (p ∈ str "UiIlL") as Hp.
  { unfold ubjson_int in Hm.
    repeat match type of Hm with context [ch p =? ch ?c] => destruct (Z.eqb_spec (ch p) (ch c)) as [E%byteZ_inj|];
      [subst; refine (bool_decide_unpack _ _); vm_compute; exact I|] end. done. }
  unfold str in Hp. cbn in Hp. repeat (apply elem_of_cons in Hp as [->|Hp]); [..|by apply not_elem_of_nil in Hp];
    cbn in Hm; injection Hm as <-; eexists; (do 2 (split; [done|])); by apply (reads_value _ _ _ z Hr).
Qed.

Definition prefixed (add_prefix : bool) (p : ascii) (s : bytes) : bytes := (if add_prefix then [p] else []) ++ s.

Lemma unsigned_int z :
  0 ≤ z ≤ 2 ^ 63 - 1 → ∃ s,
    (∀ high add_prefix, ubjson_unsigned high z add_prefix = prefixed add_prefix (ubjson_prefix (JUnsigned z)) s) ∧
    int_reads (ubjson_prefix (JUnsigned z)) s z ∧ (ubjson_prefix (JUnsigned z) = "U"%char ↔ 128 ≤ z ≤ 255).
Proof.
  intros Hz. unfold ubjson_unsigned, ubjson_prefix, prefixed.
  repeat match goal with |- context [z <=? ?k] => destruct (Z.leb_spec z k) end; [..|lia]; eexists; (split; [done|]);
    (split; [eexists; split; [reflexivity|]|split; [try done|intros; try done; lia]]).
  - apply reads_signed; cbn; lia.
  - apply reads_big; cbn; lia.
  - lia.
  - apply reads_signed; cbn; lia.
  - apply reads_signed; cbn; lia.
  - apply reads_signed; cbn; lia.
Qed.

Lemma signed_int z :
  - 2 ^ 63 ≤ z < 2 ^ 63 → ∃ s,
    (∀ add_prefix, write_signed_with_ubjson_prefix z add_prefix = prefixed add_prefix (ubjson_prefix (JInteger z)) s) ∧
    int_reads (ubjson_prefix (JInteger z)) s z ∧ (ubjson_prefix (JInteger z) = "U"%char ↔ 128 ≤ z ≤ 255).
Proof.
  intros Hz. unfold write_signed_with_ubjson_prefix, ubjson_prefix, prefixed, in_range.
  repeat match goal with |- context [(?a <=? z) && (z <=? ?k)] => destruct (Z.leb_spec a z), (Z.leb_spec z k); cbn [andb] end;
    try lia; eexists; (split; [done|]);
    (split; [eexists; split; [reflexivity|]|split; [try done|intros; try done; lia]]);
    try lia; first [apply reads_signed; cbn; lia|apply reads_big; cbn; lia].
Qed.

Lemma ubjson_integer_kind z (p : ascii) :
  z ≤ 2 ^ 63 - 1 → (p = "U"%char ↔ 128 ≤ z ≤ 255) →
  ubjson_integer z = if bool_decide (p = "U"%char) then JUnsigned z else JInteger z.
Proof.
  intros Hz Hp. unfold ubjson_integer, in_range. rewrite (proj2 (Z.leb_le z (2 ^ 63 - 1))) by lia.
  case_bool_decide as E; [apply Hp in E; by range_tests|].
  destruct (Z.leb_spec 128 z); cbn [andb]; [|done]. destruct (Z.leb_spec z 255); [|done]. exfalso. apply E, Hp. lia.
Qed.

(** The prefixes are none of the other signs. *)
Definition plain (p : ascii) : Prop := (p ∉ str "N$#]}") ∧ p ≠ NUL.

(** Decided for a given prefix. *)
Ltac plain := split; [refine (bool_decide_unpack _ _); vm_compute; exact I|done].

Lemma int_reads_plain p s z : int_reads p s z → plain p.
Proof.
  intros (m & Hm & _). split; [|intros ->; vm_compute in Hm; done].
  intros Hp. unfold str in Hp. cbn in Hp. repeat (apply elem_of_cons in Hp as [->|Hp]; [done|]). by apply not_elem_of_nil in Hp.
Qed.

Lemma plain_ne p : plain p → p ≠ "N"%char ∧ p ≠ "$"%char ∧ p ≠ "#"%char ∧ p ≠ "]"%char ∧ p ≠ "}"%char ∧ p ≠ NUL.
Proof. intros [Hp Hn]. repeat split; try done; intros ->; apply Hp; unfold str; cbn; set_solver. Qed.

(** Sizes and strings. *)
Lemma size_value_reads n :
  0 ≤ n ≤ 2 ^ 63 - 1 → reads get_ubjson_size_value (write_unsigned_with_ubjson_prefix n true) (λ d, d) n.
Proof.
  intros Hn. unfold write_unsigned_with_ubjson_prefix. destruct (unsigned_int n Hn) as (s & -> & Hr & _). unfold prefixed.
  pose proof (plain_ne _ (int_reads_plain _ _ _ Hr)) as (HN & _). destruct Hr as (m & Hm & Hr). cbn [app].
  apply reads_ignore_noop; [done|]. cbn [mbind option_bind]. rewrite Hm.
  rewrite <- (app_nil_r s). apply (reads_seq _ _ _ [] _ n _ Hr). unfold wrap. rewrite Z.mod_small by lia. apply reads_ret.
Qed.

Lemma string_bytes s :
  blen s < 2 ^ 63 → ∃ p t, ubjson_string s = p :: t ∧ plain p ∧
    ∃ m, ubjson_int (ch p) = Some m ∧ reads (n ← m; get_string n) t (λ d, d) s.
Proof.
  intros Hs. pose proof (blen_nonneg s). unfold ubjson_string, write_unsigned_with_ubjson_prefix.
  destruct (unsigned_int (blen s) ltac:(lia)) as (t & -> & Hr & _).
  exists (ubjson_prefix (JUnsigned (blen s))), (t ++ s). split; [done|]. split; [by eapply int_reads_plain|].
  destruct Hr as (m & Hm & Hr). exists m. split; [done|]. apply (reads_seq _ _ _ _ _ _ _ Hr), reads_string.
Qed.

Lemma get_string_reads s :
  blen s < 2 ^ 63 → reads (get_ubjson_string true) (ubjson_string s) (λ d, d) s.
Proof.
  intros Hs. destruct (string_bytes s Hs) as (p & t & -> & _ & m & Hm & Hr).
  unfold get_ubjson_string. apply (reads_byte (λ c, match ubjson_int c with Some len => n ← len; get_string n | None => parse_error 113 end)).
  cbv beta. change (byteZ p) with (ch p). by rewrite Hm.
Qed.

(** The three forms of the head of a container. *)
Section heads.
Context {A : Type} (values : Z * Z → R A) (s : bytes) (f : dom → dom) (a : A).

Lemma reads_typed n p :
  0 ≤ n ≤ 2 ^ 63 - 1 → reads (values (n, ch p)) s f a →
  reads (get_ubjson_size_type ≫= values) ("$"%char :: p :: "#"%char :: write_unsigned_with_ubjson_prefix n true ++ s) f a.
Proof.
  intros Hn Hr cur. apply reads_at_assoc, reads_ignore_noop; [done|]. unfold size_type. rewrite bool_decide_eq_true_2 by done.
  apply reads_at_assoc, reads_get, reads_at_assoc, reads_current, reads_at_assoc, reads_ignore_noop; [done|].
  rewrite bool_decide_eq_true_2 by done. apply reads_at_assoc.
  apply (reads_at_seq _ _ _ _ _ _ n); [by apply size_value_reads|]. apply Hr.
Qed.

Lemma reads_counted n :
  0 ≤ n ≤ 2 ^ 63 - 1 → reads (values (n, 0)) s f a →
  reads (get_ubjson_size_type ≫= values) ("#"%char :: write_unsigned_with_ubjson_prefix n true ++ s) f a.
Proof.
  intros Hn Hr cur. apply reads_at_assoc, reads_ignore_noop; [done|]. unfold size_type.
  rewrite bool_decide_eq_false_2, bool_decide_eq_true_2 by done. apply reads_at_assoc.
  apply (reads_at_seq _ _ _ _ _ _ n); [by apply size_value_reads|]. apply Hr.
Qed.

Lemma reads_uncounted c :
  c ≠ "N"%char → c ≠ "$"%char → c ≠ "#"%char → reads_at (Some (ch c)) (values (NO_SIZE, 0)) s f a →
  reads (get_ubjson_size_type ≫= values) (c :: s) f a.
Proof.
  intros HN Hd Hh Hr cur. apply reads_at_assoc, reads_ignore_noop; [done|]. unfold size_type.
  rewrite !bool_decide_eq_false_2 by (intros [= ?%byteZ_inj]; done). apply Hr.
Qed.
End heads.

Section reading.
Context `{FloatBitsLaws ok} (use_count use_type : bool).
Hypothesis Hcount : use_type = true → use_count = true.

(** The bytes after the prefix. *)
Definition body_bytes (j : json) : bytes :=
  match write_ubjson j use_count use_type false with DOk s => s | _ => [] end.

Definition element_spec (j : json) : Prop :=
  plain (ubjson_prefix j) ∧
  (∀ add_prefix, write_ubjson j use_count use_type add_prefix = DOk (prefixed add_prefix (ubjson_prefix j) (body_bytes j))) ∧
  ∀ fuel, (rounds j ≤ fuel)%nat →
    reads (get_ubjson_value fuel (Some (ch (ubjson_prefix j)))) (body_bytes j) (handle_value (ubjson_norm j)) tt.

Lemma element_spec_intro j s :
  plain (ubjson_prefix j) →
  (∀ add_prefix, write_ubjson j use_count use_type add_prefix = DOk (prefixed add_prefix (ubjson_prefix j) s)) →
  (∀ fuel, (rounds j ≤ fuel)%nat →
    reads (get_ubjson_value fuel (Some (ch (ubjson_prefix j)))) s (handle_value (ubjson_norm j)) tt) →
  element_spec j.
Proof. intros Hp Hw Hr. assert (body_bytes j = s) as E by (unfold body_bytes; by rewrite Hw). unfold element_spec. by rewrite E. Qed.

Lemma value_scalar fuel p m : ubjson_scalar p = Some m → get_ubjson_value fuel (Some p) = m.
Proof. intros Hm. by destruct fuel; cbn [get_ubjson_value]; rewrite Hm. Qed.

(** ** Scalars *)

Lemma int_element j z s :
  (∀ add_prefix, write_ubjson j use_count use_type add_prefix = DOk (prefixed add_prefix (ubjson_prefix j) s)) →
  int_reads (ubjson_prefix j) s z → ubjson_norm j = ubjson_integer z → z ≤ 2 ^ 63 - 1 →
  (ubjson_prefix j = "U"%char ↔ 128 ≤ z ≤ 255) → element_spec j.
Proof.
  intros Hw Hr Hn Hz Hp. apply (element_spec_intro j s); [by eapply int_reads_plain|done|]. intros fuel _.
  destruct (int_reads_scalar _ _ _ Hr) as (m & Hm & _ & Hrm). rewrite (value_scalar _ _ m Hm), Hn.
  by rewrite (ubjson_integer_kind z (ubjson_prefix j)).
Qed.

Lemma high_reads z :
  2 ^ 63 - 1 < z < 2 ^ 64 → reads get_ubjson_high_precision_number (ubjson_high z) (handle_value (JUnsigned z)) tt.
Proof.
  intros Hz. unfold ubjson_high. rewrite dump_integer_dec by (done || lia).
  assert (blen (dec z) ≤ 127) as Hl.
  { unfold dec, dec_nonneg, blen. destruct (Z.ltb_spec z 0); [lia|].
    pose proof (length_dec_digits (S (Z.to_nat (Z.log2 z))) z 19). lia. }
  pose proof (blen_nonneg (dec z)). unfold get_ubjson_high_precision_number.
  apply (reads_seq _ _ _ _ _ (blen (dec z))).
  { pose proof (size_value_reads (blen (dec z)) ltac:(lia)) as Hs. unfold write_unsigned_with_ubjson_prefix, ubjson_unsigned in *.
    by rewrite (proj2 (Z.leb_le _ _)) in * by lia. }
  rewrite <- (app_nil_r (dec z)) at 2. apply (reads_seq _ _ _ _ _ (dec z)); [apply reads_string|].
  assert (scan false true (dec z) = Some (Token (value_unsigned z) [])) as ->.
  { apply scan_first. rewrite <- (app_nil_r (dec z)), scan_integer by (done || lia). unfold integer_token.
    by rewrite (proj2 (Z.ltb_ge _ _)) by lia. }
  apply reads_event.
Qed.

Lemma high_element z : 2 ^ 63 - 1 < z < 2 ^ 64 → element_spec (JUnsigned z).
Proof.
  intros Hz. assert (ubjson_prefix (JUnsigned z) = "H"%char) as Hp by (unfold ubjson_prefix; by range_tests).
  apply (element_spec_intro _ (ubjson_high z)); rewrite Hp; [plain| |].
  - intros add_prefix. cbn [write_ubjson]. unfold write_unsigned_with_ubjson_prefix, ubjson_unsigned. by range_tests.
  - intros fuel _. rewrite (value_scalar fuel (ch "H"%char) get_ubjson_high_precision_number eq_refl). cbn [ubjson_norm].
    unfold ubjson_integer. range_tests. by apply high_reads.
Qed.

Lemma unsigned_element z : 0 ≤ z < 2 ^ 64 → element_spec (JUnsigned z).
Proof.
  intros Hz. destruct (Z.le_gt_cases z (2 ^ 63 - 1)) as [Hs|]; [|apply high_element; lia].
  destruct (unsigned_int z) as (s & Hw & Hr & Hp); [lia|]. apply (int_element _ z s); try done.
  intros add_prefix. cbn [write_ubjson]. unfold write_unsigned_with_ubjson_prefix. by rewrite Hw.
Qed.

Lemma signed_element z : - 2 ^ 63 ≤ z < 2 ^ 63 → element_spec (JInteger z).
Proof.
  intros Hz. destruct (signed_int z Hz) as (s & Hw & Hr & Hp). apply (int_element _ z s); try done; [|lia].
  intros add_prefix. cbn [write_ubjson]. by rewrite Hw.
Qed.

Lemma string_element s : blen s < 2 ^ 63 → element_spec (JString s).
Proof.
  intros Hs. apply (element_spec_intro _ (ubjson_string s)); [plain|done|].
  intros fuel _. cbn [ubjson_prefix]. rewrite (value_scalar fuel (ch "S"%char) _ eq_refl). by apply (reads_value _ JString), get_string_reads.
Qed.

Lemma float_element l : ok l → element_spec (JFloat l).
Proof.
  intros Hl. apply (element_spec_intro _ (write_big 8 (float_bits l))); [plain|done|].
  intros fuel _. cbn [ubjson_prefix]. rewrite (value_scalar fuel (ch "D"%char) _ eq_refl). by apply reads_double.
Qed.

Lemma constant_element j :
  j ∈ [JNull; JBoolean true; JBoolean false] → element_spec j.
Proof.
  intros Hj. assert (∀ j p, plain p → ubjson_prefix j = p → write_ubjson j use_count use_type true = DOk [p] →
    write_ubjson j use_count use_type false = DOk [] → ubjson_scalar (ch p) = Some (sax_value (ubjson_norm j)) →
    element_spec j) as Hconst.
  { clear. intros j p Hp <- Hw1 Hw0 Hs. apply (element_spec_intro _ []); [done|by intros []|].
    intros fuel _. rewrite (value_scalar _ _ _ Hs). apply reads_event. }
  repeat (apply elem_of_cons in Hj as [->|Hj]); [..|by apply not_elem_of_nil in Hj];
    eapply Hconst; try done; plain.
Qed.

(** ** Containers *)

Section values.
Context (p : json → ascii) (enc : json → bytes) (g : json → json) (v : option Z → R unit) (fuel : nat).

Definition value_reads (e : json) : Prop := plain (p e) ∧ reads (v (Some (ch (p e)))) (enc e) (handle_value (g e)) tt.

Lemma reads_prefixed e :
  value_reads e → reads (parse_ubjson_value v true) (p e :: enc e) (handle_value (g e)) tt.
Proof. intros [Hp Hr]. unfold parse_ubjson_value. apply reads_ignore_noop; [by apply plain_ne|]. apply Hr. Qed.

Lemma reads_prefixed_at e :
  value_reads e → reads_at (Some (ch (p e))) (parse_ubjson_value v false) (enc e) (handle_value (g e)) tt.
Proof. intros [Hp Hr] rest d b. apply Hr. Qed.

Lemma reads_assoc3 {A} (m n : R unit) (k : R A) s f a :
  reads (m;; n;; k) s f a → reads ((m;; n);; k) s f a.
Proof. intros Hr cur. apply reads_at_assoc, Hr. Qed.

Lemma ch_zero c : c ≠ NUL → (ch c =? 0) = false.
Proof. intros Hc. apply Z.eqb_neq. intros E. by apply Hc, byteZ_inj. Qed.

(** A container with an end mark, around its rounds. *)
Lemma reads_at_document cur (start : R unit) (f0 : dom → dom) (m : R unit) s f :
  (∀ r, start r = ROk tt (mkReader (current r) (ia r) (f0 (builder r)) (allow_exceptions r))) →
  reads_at cur m s f tt → reads_at cur ((start;; m);; sax_end) s (λ d, end_container (f (f0 d))) tt.
Proof.
  intros Hs Hm rest d b. destruct (Hm rest (f0 d) b) as [cur' Hr]. exists cur'. unfold mbind, R_bind. rewrite Hs. cbn.
  by rewrite Hr.
Qed.

Section array.
Context (es : list json).
Hypothesis Hes : Forall value_reads es.
Hypothesis Hfuel : (length es ≤ fuel)%nat.
Hypothesis Hmax : blen es ≤ ARRAY_MAX_SIZE.

Lemma array_size : (blen es =? NO_SIZE) = false.
Proof. unfold ARRAY_MAX_SIZE, NO_SIZE in *. apply Z.eqb_neq. lia. Qed.

Lemma array_typed c :
  Forall (λ e, p e = c) es → plain c →
  reads (array_values fuel v (blen es, ch c)) (concat (enc <$> es)) (handle_value (JArray (g <$> es))) tt.
Proof.
  intros Hc Hp. apply plain_ne in Hp as (HN & _ & _ & _ & _ & Hnul). unfold array_values.
  rewrite array_size, ch_zero by done. cbn [negb].
  rewrite (proj2 (Z.eqb_neq _ _)) by (intros E; by apply byteZ_inj in E). cbn [negb].
  apply reads_assoc3, reads_array; [done..|]. rewrite Forall_forall in *. intros e Hin. rewrite <- (Hc e Hin). by apply Hes.
Qed.

Lemma array_counted :
  reads (array_values fuel v (blen es, 0)) (concat ((λ e, p e :: enc e) <$> es)) (handle_value (JArray (g <$> es))) tt.
Proof.
  unfold array_values. rewrite array_size, Z.eqb_refl. cbn [negb].
  apply reads_assoc3, (reads_array g (λ e, p e :: enc e)); [done..|].
  eapply Forall_impl; [exact Hes|]. apply reads_prefixed.
Qed.

Lemma array_uncounted :
  reads (get_ubjson_array fuel v) (concat ((λ e, p e :: enc e) <$> es) ++ b#"]") (handle_value (JArray (g <$> es))) tt.
Proof.
  destruct (concat _ ++ b#"]") as [|c s] eqn:E; [by destruct (concat _)|].
  destruct (reads_while (λ e, (p e, enc e)) (λ e, handle_value (g e)) "]"%char (parse_ubjson_value v false) fuel es
    Hfuel ltac:(done)) with c s as [HN Hr]; [|done|].
  { eapply Forall_impl; [exact Hes|]. cbn. intros e He. pose proof (plain_ne _ (proj1 He)).
    split; [tauto|]. split; [tauto|]. by apply reads_prefixed_at. }
  assert (c ≠ "$"%char ∧ c ≠ "#"%char) as [Hd Hh].
  { clear Hr. destruct es as [|e es']; cbn in E; injection E as <- _; [done|]. inversion Hes; subst.
    pose proof (plain_ne (p e)) as Hp. unfold value_reads in *. tauto. }
  apply reads_uncounted; [done..|]. unfold array_values. rewrite Z.eqb_refl. cbn [negb].
  eapply reads_at_ext; [|eapply (reads_at_document _ (sax_start_array NO_SIZE) start_array); [done|exact Hr]].
  intros d. cbv beta. by rewrite <- build_array, <- foldl_fmap.
Qed.
End array.

Section object.
Context (ms : list (bytes * json)).
Hypothesis Hms : Forall (λ m, value_reads m.2) ms.
Hypothesis Hkeys : Forall (λ m, blen m.1 < 2 ^ 63) ms.
Hypothesis Hsorted : sorted_keys ms = true.
Hypothesis Hfuel : (length ms ≤ fuel)%nat.
Hypothesis Hmax : blen ms ≤ OBJECT_MAX_SIZE.

Lemma object_size : (blen ms =? NO_SIZE) = false.
Proof. unfold OBJECT_MAX_SIZE, NO_SIZE in *. apply Z.eqb_neq. lia. Qed.

Lemma reads_member m value s :
  blen m.1 < 2 ^ 63 → reads value s (handle_value (g m.2)) tt →
  reads (ubjson_member true value) (ubjson_string m.1 ++ s) (λ d, handle_value (g m.2) (key m.1 d)) tt.
Proof.
  intros Hk Hr. unfold ubjson_member. apply (reads_seq _ _ _ _ _ m.1); [by apply get_string_reads|].
  by apply (reads_bind (sax_key m.1) _ [] s (key m.1) _ tt); [apply reads_event|].
Qed.

Lemma object_typed c :
  Forall (λ m, p m.2 = c) ms → plain c →
  reads (object_values fuel v (blen ms, ch c)) (concat ((λ m, ubjson_string m.1 ++ enc m.2) <$> ms))
    (handle_value (JObject (prod_map id g <$> ms))) tt.
Proof.
  intros Hc Hp. apply plain_ne in Hp as (HN & _ & _ & _ & _ & Hnul). unfold object_values.
  rewrite object_size, ch_zero by done. cbn [negb].
  apply reads_assoc3, (reads_object g); [done..|]. rewrite Forall_forall in *. intros m Hin.
  apply reads_member; [by apply Hkeys|]. rewrite <- (Hc m Hin). by apply Hms.
Qed.

Lemma object_counted :
  reads (object_values fuel v (blen ms, 0)) (concat ((λ m, ubjson_string m.1 ++ p m.2 :: enc m.2) <$> ms))
    (handle_value (JObject (prod_map id g <$> ms))) tt.
Proof.
  unfold object_values. rewrite object_size, Z.eqb_refl. cbn [negb].
  apply reads_assoc3, (reads_object g _ _ (λ m, ubjson_string m.1 ++ p m.2 :: enc m.2)); [done..|].
  rewrite Forall_forall in *. intros m Hin. apply reads_member; [by apply Hkeys|]. by apply reads_prefixed, Hms.
Qed.

(** The first byte of a member, and the rest. *)
Definition member_head (m : bytes * json) : ascii * bytes :=
  match ubjson_string m.1 ++ p m.2 :: enc m.2 with c :: s => (c, s) | [] => (NUL, []) end.

Lemma member_head_reads m :
  blen m.1 < 2 ^ 63 → value_reads m.2 →
  ubjson_string m.1 ++ p m.2 :: enc m.2 = (member_head m).1 :: (member_head m).2 ∧ plain (member_head m).1 ∧
  reads_at (Some (ch (member_head m).1)) (ubjson_member false (parse_ubjson_value v true)) (member_head m).2
    (λ d, handle_value (g m.2) (key m.1 d)) tt.
Proof.
  intros Hk Hm. unfold member_head. destruct (string_bytes m.1 Hk) as (c & t & -> & Hp & len & Hlen & Hr). cbn [app fst snd].
  split; [done|]. split; [done|]. unfold ubjson_member. apply (reads_at_seq _ _ _ t _ _ m.1).
  - unfold get_ubjson_string. cut (reads_at (Some (ch c)) (c0 ← unexpect_eof; match ubjson_int c0 with
      | Some len => n ← len; get_string n | None => parse_error 113 end) t (λ d, d) m.1).
    { intros Hcur rest d b. apply (Hcur rest d b). }
    apply reads_current. rewrite Hlen. intros rest d b. apply Hr.
  - apply (reads_bind (sax_key m.1) _ [] _ (key m.1) _ tt); [apply reads_event|]. by apply reads_prefixed.
Qed.

Lemma object_uncounted :
  reads (get_ubjson_object fuel v) (concat ((λ m, ubjson_string m.1 ++ p m.2 :: enc m.2) <$> ms) ++ b#"}")
    (handle_value (JObject (prod_map id g <$> ms))) tt.
Proof.
  assert (concat ((λ m, ubjson_string m.1 ++ p m.2 :: enc m.2) <$> ms) =
    concat ((λ m, (member_head m).1 :: (member_head m).2) <$> ms)) as ->.
  { f_equal. apply list_fmap_ext. intros i m Hi%list_elem_of_lookup_2. rewrite Forall_forall in *.
    apply member_head_reads; auto. }
  assert (Forall (λ m, plain (member_head m).1 ∧
    reads_at (Some (ch (member_head m).1)) (ubjson_member false (parse_ubjson_value v true)) (member_head m).2
      (λ d, handle_value (g m.2) (key m.1 d)) tt) ms) as Hheads.
  { rewrite Forall_forall in *. intros m Hin. apply member_head_reads; auto. }
  destruct (concat _ ++ b#"}") as [|c s] eqn:E; [by destruct (concat _)|].
  destruct (reads_while member_head (λ m d, handle_value (g m.2) (key m.1 d)) "}"%char
    (ubjson_member false (parse_ubjson_value v true)) fuel ms Hfuel ltac:(done)) with c s as [HN Hr]; [|done|].
  { eapply Forall_impl; [exact Hheads|]. cbn. intros m [Hp Hm]. apply plain_ne in Hp. split; [tauto|]. by split; [tauto|]. }
  assert (c ≠ "$"%char ∧ c ≠ "#"%char) as [Hd Hh].
  { clear Hr. destruct ms as [|m ms']; cbn in E; injection E as <- _; [done|]. inversion Hheads as [|? ? [Hp _] _]; subst.
    apply plain_ne in Hp. tauto. }
  apply reads_uncounted; [done..|]. unfold object_values. rewrite Z.eqb_refl. cbn [negb].
  eapply reads_at_ext; [|eapply (reads_at_document _ (sax_start_object NO_SIZE) start_object); [done|exact Hr]].
  intros d. cbv beta. rewrite <- build_object by (by apply sorted_keys_map).
  f_equal. by rewrite <- (foldl_fmap (λ d m, handle_value m.2 (key m.1 d)) (prod_map id g)).
Qed.
End object.
End values.

(** What is written for the values of a container. *)
Lemma write_values_ok add_prefix es :
  Forall element_spec es →
  write_values (λ el, write_ubjson el use_count use_type add_prefix) es =
  DOk (concat ((λ e, prefixed add_prefix (ubjson_prefix e) (body_bytes e)) <$> es)).
Proof.
  induction 1 as [|e es (_ & Hw & _) _ IH]; [done|]. cbn [write_values]. rewrite Hw. cbn [mbind dres_bind]. by rewrite IH.
Qed.

Lemma write_entries_ok add_prefix ms :
  Forall (λ m, element_spec m.2) ms →
  write_entries (λ el, write_ubjson el use_count use_type add_prefix) ms =
  DOk (concat ((λ m, ubjson_string m.1 ++ prefixed add_prefix (ubjson_prefix m.2) (body_bytes m.2)) <$> ms)).
Proof.
  induction 1 as [|[k e] ms (_ & Hw & _) _ IH]; [done|]. cbn [write_entries fst snd] in *. rewrite Hw. cbn [mbind dres_bind].
  rewrite IH. cbn [mbind dres_bind]. cbn. by rewrite <- app_assoc.
Qed.

Lemma element_value_reads fuel e :
  element_spec e → (rounds e ≤ fuel)%nat → value_reads ubjson_prefix body_bytes ubjson_norm (get_ubjson_value fuel) e.
Proof. intros (Hp & _ & Hr) Hf. split; [done|]. by apply Hr. Qed.

Lemma assert_count_ok empty : assert_count use_count use_type empty = DOk tt.
Proof.
  unfold assert_count. destruct use_type; [|done]. rewrite (Hcount eq_refl). by destruct empty.
Qed.

Lemma ubjson_type_Some es c :
  ubjson_type use_type es = Some c → use_type = true ∧ Forall (λ e, ubjson_prefix e = c) es ∧ ∃ e, e ∈ es ∧ ubjson_prefix e = c.
Proof.
  destruct es as [|e es]; [done|]. unfold ubjson_type. destruct (use_type && _) eqn:E; [|done]. intros [= <-].
  apply andb_true_iff in E as [-> E]. split; [done|]. split; [|exists e; split; [set_solver|done]].
  constructor; [done|]. apply forallb_Forall in E. eapply Forall_impl; [exact E|]. intros v Hv. by apply bool_decide_eq_true in Hv.
Qed.

Lemma sum_rounds {X} (f : X → nat) l fuel :
  (sum_list ((λ x, S (f x)) <$> l) ≤ fuel)%nat → (length l ≤ fuel)%nat ∧ Forall (λ x, (f x ≤ fuel)%nat) l.
Proof.
  revert fuel. induction l as [|x l IH]; intros fuel Hf; cbn in *; [split; [lia|constructor]|].
  destruct (IH (fuel - S (f x))%nat ltac:(lia)) as [Hl Hx]. split; [lia|]. constructor; [lia|].
  eapply Forall_impl; [exact Hx|]. cbn. lia.
Qed.

Lemma array_value fuel : get_ubjson_value (S fuel) (Some (ch "[")) = get_ubjson_array fuel (get_ubjson_value fuel).
Proof. done. Qed.

Lemma object_value fuel : get_ubjson_value (S fuel) (Some (ch "{")) = get_ubjson_object fuel (get_ubjson_value fuel).
Proof. done. Qed.

Lemma array_element es : blen es ≤ ARRAY_MAX_SIZE → Forall element_spec es → element_spec (JArray es).
Proof.
  intros Hmax Hes. pose proof (blen_nonneg es). unfold ARRAY_MAX_SIZE in Hmax.
  set (required := match ubjson_type use_type es with Some _ => false | None => true end).
  apply (element_spec_intro _ (ubjson_head use_count use_type es ++
    concat ((λ e, prefixed required (ubjson_prefix e) (body_bytes e)) <$> es) ++ (if use_count then [] else b#"]"))).
  - plain.
  - intros add_prefix. cbn [write_ubjson]. fold required. rewrite assert_count_ok. cbn [mbind dres_bind].
    by rewrite write_values_ok.
  - intros [|fuel] Hf; cbn [rounds] in Hf; [lia|].
    apply le_S_n, sum_rounds in Hf as [Hl Hr]. cbn [ubjson_prefix]. rewrite array_value. cbn [ubjson_norm].
    assert (Forall (value_reads ubjson_prefix body_bytes ubjson_norm (get_ubjson_value fuel)) es) as Hv.
    { rewrite Forall_forall in *. intros e Hin. apply element_value_reads; auto. }
    unfold ubjson_head, required. destruct (ubjson_type use_type es) as [c|] eqn:Et.
    + apply ubjson_type_Some in Et as (Ht & Hc & e & Hin & He). rewrite (Hcount Ht).
      assert (plain c) as Hp by (subst c; rewrite Forall_forall in Hes; by apply Hes).
      rewrite app_nil_r. cbn. apply reads_typed; [lia|]. by apply (array_typed ubjson_prefix).
    + destruct use_count; cbn [app].
      * rewrite app_nil_r. apply reads_counted; [lia|]. by apply (array_counted ubjson_prefix).
      * by apply (array_uncounted ubjson_prefix).
Qed.

(** Binary data is an array of numbers of type ['U']. *)
Definition byte_of (j : json) : bytes := match j with JUnsigned z => [Zbyte z] | _ => [] end.

Lemma binary_reads_value fuel c :
  value_reads (λ _, "U"%char) byte_of id (get_ubjson_value fuel) (JUnsigned (byteZ c)).
Proof.
  split; [plain|]. rewrite (value_scalar fuel (ch "U"%char) _ eq_refl).
  apply (reads_value (get_big 1) JUnsigned). apply (reads_big 1). pose proof (byteZ_range c). cbn. lia.
Qed.

Lemma binary_values data :
  ∃ es, (λ c, JUnsigned (byteZ c)) <$> data = id <$> es ∧ data = concat (byte_of <$> es) ∧
    flat_map (λ c, ["U"%char; c]) data = concat ((λ e, "U"%char :: byte_of e) <$> es) ∧ length es = length data ∧
    ∀ fuel, Forall (value_reads (λ _, "U"%char) byte_of id (get_ubjson_value fuel)) es.
Proof.
  exists ((λ c, JUnsigned (byteZ c)) <$> data). rewrite list_fmap_id. split; [done|]. split; [|split; [|split]].
  - induction data as [|c data IH]; [done|]. cbn. by rewrite <- IH, Zbyte_byteZ.
  - induction data as [|c data IH]; [done|]. cbn. by rewrite <- IH, Zbyte_byteZ.
  - apply length_fmap.
  - intros fuel. apply Forall_fmap, Forall_true. intros c. apply binary_reads_value.
Qed.

Lemma binary_element data subtype : blen data ≤ ARRAY_MAX_SIZE → element_spec (JBinary data subtype).
Proof.
  intros Hmax. pose proof (blen_nonneg data) as Hpos. unfold ARRAY_MAX_SIZE in Hmax.
  apply (element_spec_intro _ (ubjson_binary use_count use_type data)).
  - plain.
  - intros add_prefix. cbn [write_ubjson]. by rewrite assert_count_ok.
  - intros [|fuel] Hf; cbn [rounds] in Hf; [lia|]. cbn [ubjson_prefix]. rewrite array_value. cbn [ubjson_norm].
    destruct (binary_values data) as (es & -> & Hd & Hu & Hlen & Hv). specialize (Hv fuel).
    assert (blen data = blen es) as Hn by (unfold blen; by rewrite Hlen). rewrite Hn in *.
    unfold ubjson_binary. rewrite Hn. destruct use_type.
    + rewrite (Hcount eq_refl), app_nil_r. case_bool_decide as Hnil.
      * rewrite Hnil in *. destruct es; [|done]. cbn. apply (reads_counted _ [] _ _ 0); [lia|].
        apply (array_counted (λ _, "U"%char) byte_of id _ fuel []); [constructor|cbn; lia|done].
      * rewrite Hd at 1. cbn. apply reads_typed; [lia|].
        apply (array_typed (λ _, "U"%char)); [done|lia|done|by apply Forall_true|by apply (binary_reads_value 0 NUL)].
    + rewrite Hu. cbn. destruct use_count; cbn.
      * rewrite app_nil_r. apply reads_counted; [lia|]. apply (array_counted (λ _, "U"%char)); (done || lia).
      * apply (array_uncounted (λ _, "U"%char)); (done || lia).
Qed.

Lemma object_element ms :
  blen ms ≤ OBJECT_MAX_SIZE → sorted_keys ms = true → Forall (λ m, blen m.1 < 2 ^ 63) ms →
  Forall (λ m, element_spec m.2) ms → element_spec (JObject ms).
Proof.
  intros Hmax Hs Hk Hms. pose proof (blen_nonneg ms). assert (blen ms ≤ 2 ^ 63 - 1) by (unfold OBJECT_MAX_SIZE in *; lia).
  set (required := match ubjson_type use_type ms.*2 with Some _ => false | None => true end).
  apply (element_spec_intro _ (ubjson_head use_count use_type ms.*2 ++
    concat ((λ m, ubjson_string m.1 ++ prefixed required (ubjson_prefix m.2) (body_bytes m.2)) <$> ms) ++
    (if use_count then [] else b#"}"))).
  - plain.
  - intros add_prefix. cbn [write_ubjson]. fold required. rewrite assert_count_ok. cbn [mbind dres_bind].
    by rewrite write_entries_ok.
  - intros [|fuel] Hf; cbn [rounds] in Hf; [lia|]. apply le_S_n in Hf.
    replace ((λ '(k, v), S (rounds v)) <$> ms) with ((λ m, S (rounds m.2)) <$> ms) in Hf
      by (apply list_fmap_ext; by intros ? [k v] _).
    apply (sum_rounds (λ m, rounds m.2)) in Hf as [Hl Hr]. cbn [ubjson_prefix]. rewrite object_value, ubjson_norm_object.
    assert (Forall (λ m, value_reads ubjson_prefix body_bytes ubjson_norm (get_ubjson_value fuel) m.2) ms) as Hv.
    { rewrite Forall_forall in *. intros m Hin. apply element_value_reads; auto. }
    assert (blen ms.*2 = blen ms) as Hn by (unfold blen; by rewrite length_fmap).
    unfold ubjson_head, required. rewrite Hn. destruct (ubjson_type use_type ms.*2) as [c|] eqn:Et.
    + apply ubjson_type_Some in Et as (Ht & Hc & e & Hin & He). rewrite (Hcount Ht).
      assert (plain c) as Hp.
      { subst c. apply list_elem_of_fmap in Hin as (m & -> & Hin). rewrite Forall_forall in Hms. by apply (Hms m). }
      rewrite app_nil_r. cbn. apply reads_typed; [lia|]. apply (object_typed ubjson_prefix); [done..| |done].
      by apply Forall_fmap in Hc.
    + destruct use_count; cbn [app].
      * rewrite app_nil_r. apply reads_counted; [lia|]. by apply (object_counted ubjson_prefix).
      * by apply (object_uncounted ubjson_prefix).
Qed.

Lemma write_ubjson_ok j : ubjson_ok ok j → element_spec j.
Proof.
  induction j as [|ms IH|es IH|s|b|z|z|l|data subtype|] using json_induction; intros Hok; inversion Hok; subst.
  - apply constant_element. set_solver.
  - apply object_element; [done..|]. rewrite Forall_forall in *. auto.
  - apply array_element; [done|]. rewrite Forall_forall in *. auto.
  - by apply string_element.
  - apply constant_element. destruct b; set_solver.
  - by apply signed_element.
  - by apply unsigned_element.
  - by apply float_element.
  - by apply binary_element.
Qed.
End reading.

(** ** Properties *)

(** C30 (roundtrip): a value is read from the UBJSON that [to_ubjson] writes for it, without
    counts, with counts, or with counts and types, up to the sign class of its integers and
    binary data becoming an array; with trailing bytes, strict reading skips no-ops and
    fails on anything else. *)
Theorem ubjson_roundtrip `{FloatBitsLaws ok} j use_size use_type :
  ubjson_ok ok j → (use_type = true → use_size = true) →
  ∃ s, to_ubjson j use_size use_type = DOk s ∧
    ∀ strict exceptions rest fuel, (rounds j ≤ fuel)%nat →
      from_ubjson fuel (s ++ rest) strict exceptions =
      Some (if strict then match drop_noop rest with
                           | [] => inl (ubjson_norm j)
                           | _ :: _ => if exceptions then inr (ExJsonParse 110) else inl JDiscarded
                           end
            else inl (ubjson_norm j)).
Proof.
  intros Hok Ht. destruct (write_ubjson_ok use_size use_type Ht j Hok) as (Hp & Hw & Hr).
  eexists. split; [apply Hw|]. intros strict exceptions rest fuel Hf. unfold prefixed. cbn [app].
  assert (reads (parse_ubjson_internal fuel true) (ubjson_prefix j :: body_bytes use_size use_type j)
    (handle_value (ubjson_norm j)) tt) as Hread by (apply reads_ignore_noop; [by apply plain_ne|]; by apply Hr).
  destruct (Hread None rest (mkDom [] JNull) exceptions) as [cur Hcur].
  unfold from_ubjson, from_binary, mbind, R_bind. rewrite app_comm_cons, Hcur. unfold expect_ubjson_end. destruct strict; [|done].
  unfold mbind, R_bind, get_ignore_noop, get. cbn [ia builder allow_exceptions current].
  destruct (drop_noop rest); [done|]. cbn. unfold parse_error. cbn. by destruct exceptions.
Qed.

Definition ubjson_sample : json :=
  JObject [(b#"a", JArray [JInteger (-1000); JInteger 300]);
           (b#"b", JArray [JBinary b#"xyz" None; JArray []; JArray [JNull; JNull]]);
           (b#"f", JArray [JFloat b#"12345678"; JUnsigned 18446744073709551615])].

Lemma ubjson_roundtrip_witness (f := byte_floats) :
  ∃ s, to_ubjson ubjson_sample true true = DOk s ∧
    from_ubjson 100 (s ++ b#"N") true true = Some (inl (ubjson_norm ubjson_sample)).
Proof.
  destruct (ubjson_roundtrip (H0 := byte_floats_laws) ubjson_sample true true) as (s & Hw & Hr).
  - unfold ubjson_sample. repeat (constructor || done).
  - done.
  - exists s. split; [done|]. apply (Hr true true b#"N"). apply Nat.leb_le. vm_compute. reflexivity.
Defined.

(** A type without a count is a failed assertion. *)
Lemma ubjson_type_without_count (f := byte_floats) : to_ubjson (JArray [JNull]) false true = DUndef UB_assertion.
Proof. reflexivity. Qed.

(** Seven bytes of input give an array of as many values as its 16-bit size says. *)
Lemma ubjson_amplified (f := byte_floats) :
  match from_ubjson 2000 b#"[$Z#I" true true, from_ubjson 2000 (b#"[$Z#I" ++ write_big 2 1000) true true with
  | Some (inr e), Some (inl (JArray es)) => e = ExJsonParse 110 ∧ length es = 1000%nat
  | _, _ => False
  end.
Proof. vm_compute. by split. Qed.

(** A negative length of a string is taken for an empty string. *)
Lemma ubjson_negative_length (f := byte_floats) :
  from_ubjson 10 (b#"Si" ++ write_big 1 (-5)) true true = Some (inl (JString [])).
Proof. reflexivity. Qed.
