(* ===== verification/UbjsonTotal.v ===== *)
(** * UbjsonTotal: reading UBJSON ends

    The nesting is bounded by the input, and the size of a container by the limit on sizes:
    a container of constants takes no input for its values. *)

From S2P Require Import Prelude CString Prog JsonValue JsonLexer JsonParser BinaryIO BinaryReads Ubjson.

Definition ubjson_failure : failure := λ exceptions e,
  match e with
  | None => exceptions = false
  | Some e => e = ExJsonOutOfRange 408 ∨
      (exceptions = true ∧ (e = ExJsonParse 110 ∨ e = ExJsonParse 112 ∨ e = ExJsonParse 113 ∨ e = ExJsonParse 115))
  end.

Lemma ubjson_may_fail id : id = 110 ∨ id = 112 ∨ id = 113 ∨ id = 115 → may_fail ubjson_failure id.
Proof. intros Hid. split; [right|done]. destruct Hid as [->|[->|[->| ->]]]; auto. Qed.

Lemma ubjson_408 b : ubjson_failure b (Some (ExJsonOutOfRange 408)).
Proof. by left. Qed.

#[local] Hint Resolve ubjson_may_fail ubjson_408 : core.
#[local] Abbreviation uends := (ends ubjson_failure).
#[local] Abbreviation uneeds := (needs_current ubjson_failure).

(** ** Bytes *)

Lemma drop_noop_length s : (length (drop_noop s) ≤ length s)%nat.
Proof. induction s as [|c s IH]; cbn; [lia|]. case_bool_decide; cbn; lia. Qed.

Lemma uends_noop n : uends n 0 get_ignore_noop.
Proof.
  intros r Hr. unfold get_ignore_noop. pose proof (drop_noop_length (ia r)).
  set (r1 := mkReader _ _ _ _). pose proof (ends_get ubjson_failure n r1) as Hg. cbn in Hg. specialize (Hg ltac:(lia)).
  destruct (get r1); cbn in *; [split; [lia|apply Hg]|split; [lia|apply Hg]|done..].
Qed.

(** The next byte, or a failure at the end. *)
Lemma uends_noop_needs {A} n k (m : option Z → R A) :
  (∀ a, (0 < n)%nat → uends (n - 1) k (m (Some a))) → uneeds (m None) → uends n (S k) (get_ignore_noop ≫= m).
Proof.
  intros Hm Hc r Hr. pose proof (drop_noop_length (ia r)) as Hl.
  pose proof (ends_get_needs ubjson_failure n k m Hm Hc (mkReader (current r) (drop_noop (ia r)) (builder r) (allow_exceptions r))
    ltac:(cbn; lia)) as Hg.
  unfold mbind, R_bind, get_ignore_noop in *. destruct (get _); [destruct (m _ _)|..]; cbn in *; try done;
    (split; [lia|apply Hg]).
Qed.

Lemma uends_assoc {A B C} n k (m : R A) (f : A → R B) (g : B → R C) :
  uends n k (m ≫= λ a, f a ≫= g) → uends n k ((m ≫= f) ≫= g).
Proof. intros Hm r Hr. specialize (Hm r Hr). revert Hm. unfold mbind, R_bind. by destruct (m r). Qed.

Lemma uneeds_assoc {A B C} (m : R A) (f : A → R B) (g : B → R C) :
  uneeds (m ≫= λ a, f a ≫= g) → uneeds ((m ≫= f) ≫= g).
Proof. intros Hm r Hr Hi. specialize (Hm r Hr Hi). revert Hm. unfold mbind, R_bind. by destruct (m r). Qed.

(** The start of a container, and its limit. *)
Lemma uends_start_array {A} n k len (m : unit → R A) :
  (len = NO_SIZE ∨ len ≤ ARRAY_MAX_SIZE → uends n k (m tt)) → uends n k (sax_start_array len ≫= m).
Proof.
  intros Hm. apply uends_assoc, ends_bind0; [apply ends_event|]. intros _.
  destruct (Z.eqb_spec len NO_SIZE) as [?|?], (Z.ltb_spec ARRAY_MAX_SIZE len); cbn [negb andb]; intros r Hr;
    [apply Hm; auto..|apply ubjson_408|apply Hm; auto].
Qed.

Lemma uends_start_object {A} n k len (m : unit → R A) :
  (len = NO_SIZE ∨ len ≤ ARRAY_MAX_SIZE → uends n k (m tt)) → uends n k (sax_start_object len ≫= m).
Proof.
  intros Hm. apply uends_assoc, ends_bind0; [apply ends_event|]. intros _. unfold ARRAY_MAX_SIZE, OBJECT_MAX_SIZE in *.
  destruct (Z.eqb_spec len NO_SIZE) as [?|?], (Z.ltb_spec 115292150460684697 len); cbn [negb andb]; intros r Hr;
    [apply Hm; auto..|apply ubjson_408|apply Hm; auto; right; lia].
Qed.

Lemma uends_count fuel n len body : len ≤ Z.of_nat fuel → uends n 0 body → uends n 0 (for_each fuel len body).
Proof.
  revert len. induction fuel as [|fuel IH]; intros len Hl Hb; cbn [for_each]; destruct (Z.leb_spec len 0); try apply ends_ret; [lia|].
  apply ends_bind0; [done|]. intros _. apply IH; [lia|done].
Qed.

Lemma uends_while fuel n stop body :
  (n + 2 ≤ fuel)%nat → uends n 0 body → uneeds body → uends n 0 (while_current fuel stop body).
Proof.
  revert n. induction fuel as [|fuel IH]; intros n Hf Hb Hc; [lia|]. cbn [while_current].
  apply ends_bind0; [apply ends_current|]. intros c. case_bool_decide; [apply ends_ret|].
  apply ends_bind0; [done|]. intros _. eapply (ends_weaken _ n n 1); [lia..|]. apply uends_noop_needs.
  - intros c' Hpos. apply IH; [lia| |done]. by eapply ends_weaken; [..|exact Hb]; lia.
  - destruct fuel as [|fuel]; [lia|]. intros r Hr Hi. cbn [while_current]. unfold mbind at 1, R_bind at 1, get_current. rewrite Hr.
    rewrite bool_decide_eq_false_2 by done. apply (needs_current_bind _ _ _ Hc _ Hr Hi).
Qed.

(** The same, when nothing is left. *)
Lemma uneeds_while fuel stop body : (0 < fuel)%nat → uneeds body → uneeds (while_current fuel stop body).
Proof.
  intros Hf Hc r Hr Hi. destruct fuel as [|fuel]; [lia|]. cbn [while_current]. unfold mbind at 1, R_bind at 1, get_current. rewrite Hr.
  rewrite bool_decide_eq_false_2 by done. apply (needs_current_bind _ _ _ Hc _ Hr Hi).
Qed.

Lemma uneeds_event {A} f (m : unit → R A) : uneeds (m tt) → uneeds (sax_event f ≫= m).
Proof. intros Hm r Hr Hi. apply (Hm (mkReader (current r) (ia r) (f (builder r)) (allow_exceptions r)) Hr Hi). Qed.

(** ** Numbers and strings *)

Lemma uends_big n size : uends n 0 (get_big size).
Proof. eapply ends_weaken; [reflexivity| |apply ends_number; auto]; lia. Qed.

Lemma uends_signed n size : uends n 0 (get_signed false size).
Proof. apply ends_bind0; [apply uends_big|]. intros; apply ends_ret. Qed.

Lemma uends_string n len : uends n 0 (get_string len).
Proof. eapply ends_weaken; [reflexivity| |apply ends_string; auto]; lia. Qed.

Lemma ubjson_int_ends n c m : ubjson_int c = Some m → uends n 0 m.
Proof. unfold ubjson_int. repeat (case_match; [intros [= <-]; first [apply uends_big|apply uends_signed]|]). done. Qed.

Lemma get_ubjson_string_ends n get_char : uends n 0 (get_ubjson_string get_char).
Proof.
  apply ends_bind0; [destruct get_char; [apply ends_get|apply ends_current]|]. intros _.
  apply ends_bind0; [apply ends_unexpect_eof; auto|]. intros c. destruct (ubjson_int c) eqn:E; [|apply ends_error; auto].
  apply ends_bind0; [by eapply ubjson_int_ends|]. intros. apply uends_string.
Qed.

Lemma get_ubjson_string_needs : uneeds (get_ubjson_string false).
Proof.
  intros r Hr Hi. unfold get_ubjson_string. unfold mbind at 1, R_bind at 1, get_current.
  by apply needs_current_eof; auto.
Qed.

Lemma size_value_ends n : uends n 0 get_ubjson_size_value.
Proof.
  apply ends_bind0; [apply uends_noop|]. intros c. destruct (c ≫= ubjson_int) as [m|] eqn:E; [|apply ends_error; auto].
  destruct c as [c|]; [|done]. apply ends_bind0; [by eapply ubjson_int_ends|]. intros; apply ends_ret.
Qed.

Lemma size_type_ends n c : uends n 0 (size_type c).
Proof.
  unfold size_type. case_bool_decide.
  - apply ends_bind0; [apply ends_get|]. intros _. apply ends_bind0; [apply ends_unexpect_eof; auto|]. intros t.
    apply ends_bind0; [apply uends_noop|]. intros c'. case_bool_decide.
    + apply ends_bind0; [apply size_value_ends|]. intros; apply ends_ret.
    + apply ends_bind0; [apply ends_unexpect_eof; auto|]. intros. apply ends_error. auto.
  - case_bool_decide; [|apply ends_ret]. apply ends_bind0; [apply size_value_ends|]. intros; apply ends_ret.
Qed.

(** ** Values *)

Section ending.
Context `{FloatBits}.

Lemma high_precision_ends n : uends n 0 get_ubjson_high_precision_number.
Proof.
  apply ends_bind0; [apply size_value_ends|]. intros size. apply ends_bind0; [apply uends_string|]. intros s.
  destruct (scan_total_length false true s) as (r & -> & _). destruct r as [t rest|]; [|apply ends_error; auto].
  destruct (scan_total_length false false rest) as (r' & -> & _). destruct r' as [t' rest'|]; [|apply ends_error; auto].
  destruct t'; try (apply ends_error; auto). destruct t; try (apply ends_error; auto); apply ends_event.
Qed.

Lemma scalar_ends n p m : ubjson_scalar p = Some m → uends n 0 m.
Proof.
  unfold ubjson_scalar. do 3 (case_match; [intros [= <-]; apply ends_event|]).
  do 7 (case_match; [intros [= <-]; apply ends_bind0; [first [apply uends_big|apply uends_signed]|intros; apply ends_event]|]).
  case_match; [intros [= <-]; apply high_precision_ends|]. case_match.
  { intros [= <-]. apply ends_bind0; [apply ends_get|]. intros _. apply ends_bind0; [apply ends_unexpect_eof; auto|].
    intros c. case_match; [apply ends_error; auto|apply ends_event]. }
  case_match; [|done]. intros [= <-]. apply ends_bind0; [apply get_ubjson_string_ends|]. intros; apply ends_event.
Qed.

Section containers.
Context (fuel n : nat) (v : option Z → R unit).
Hypothesis Hfuel : (n + 2 ≤ fuel)%nat.
Hypothesis Hsize : ARRAY_MAX_SIZE ≤ Z.of_nat fuel.
Hypothesis Hv : ∀ p, uends n 0 (v p).
Hypothesis Hv0 : uneeds (v None).

Lemma parse_value_ends get_char : uends n 0 (parse_ubjson_value v get_char).
Proof. apply ends_bind0; [destruct get_char; [apply uends_noop|apply ends_current]|]. intros c. apply Hv. Qed.

Lemma parse_value_needs : uneeds (parse_ubjson_value v false).
Proof.
  intros r Hr Hi. unfold parse_ubjson_value. unfold mbind, R_bind, get_current. rewrite Hr. by apply Hv0.
Qed.

Lemma member_ends get_char value : uends n 0 value → uends n 0 (ubjson_member get_char value).
Proof.
  intros Hm. apply ends_bind0; [apply get_ubjson_string_ends|]. intros k. apply ends_bind0; [apply ends_event|]. by intros _.
Qed.

Lemma array_values_ends st : uends n 0 (array_values fuel v st).
Proof.
  destruct st as [size t]. unfold array_values. apply ends_bind0; [|intros _; apply ends_event].
  destruct (Z.eqb_spec size NO_SIZE) as [->|?]; cbn [negb]; apply uends_start_array; intros Hs.
  - apply uends_while; [done|apply parse_value_ends|apply parse_value_needs].
  - destruct Hs as [?|Hs]; [done|]. case_match; [|apply uends_count; [lia|apply parse_value_ends]].
    case_match; [apply uends_count; [lia|apply Hv]|apply ends_ret].
Qed.

Lemma object_values_ends st : uends n 0 (object_values fuel v st).
Proof.
  destruct st as [size t]. unfold object_values. apply ends_bind0; [|intros _; apply ends_event].
  destruct (Z.eqb_spec size NO_SIZE) as [->|?]; cbn [negb]; apply uends_start_object; intros Hs.
  - apply uends_while; [done|apply member_ends, parse_value_ends|]. apply needs_current_bind, get_ubjson_string_needs.
  - destruct Hs as [?|Hs]; [done|]. apply uends_count; [lia|]. apply member_ends. case_match; [apply Hv|apply parse_value_ends].
Qed.

Lemma array_values_needs : uneeds (array_values fuel v (NO_SIZE, 0)).
Proof.
  unfold array_values. rewrite Z.eqb_refl. cbn [negb]. apply needs_current_bind, uneeds_assoc, uneeds_event.
  intros r Hr Hi. unfold mbind, R_bind. cbn. apply uneeds_while; [lia|apply parse_value_needs|done..].
Qed.

Lemma object_values_needs : uneeds (object_values fuel v (NO_SIZE, 0)).
Proof.
  unfold object_values. rewrite Z.eqb_refl. cbn [negb]. apply needs_current_bind, uneeds_assoc, uneeds_event.
  intros r Hr Hi. unfold mbind, R_bind. cbn. apply uneeds_while; [lia|apply needs_current_bind, get_ubjson_string_needs|done..].
Qed.
End containers.

(** A container reads a byte before its values. *)
Lemma container_ends n (values : Z * Z → R unit) :
  ((0 < n)%nat → ∀ st, uends (n - 1) 0 (values st)) → uneeds (values (NO_SIZE, 0)) →
  uends n 0 (get_ubjson_size_type ≫= values).
Proof.
  intros Hv Hc. apply uends_assoc. eapply (ends_weaken _ n n 1); [lia..|]. apply uends_noop_needs.
  - intros c Hpos. apply ends_bind0; [apply size_type_ends|]. by apply Hv.
  - apply Hc.
Qed.

Lemma value_ends fuel n p :
  (n + Z.to_nat ARRAY_MAX_SIZE + 2 ≤ fuel)%nat → uends n 0 (get_ubjson_value fuel p) ∧ uneeds (get_ubjson_value fuel None).
Proof.
  intros Hf. assert (1 < ARRAY_MAX_SIZE) as Hmax by done. assert (∀ fuel, uneeds (get_ubjson_value fuel None)) as Hneeds.
  { intros fuel'. destruct fuel'; apply needs_current_eof; auto. }
  split; [|done]. revert n p Hf. induction fuel as [|fuel IH]; intros n p Hf; [lia|]. cbn [get_ubjson_value].
  destruct p as [p|]; [|apply ends_bind0; [apply ends_unexpect_eof; auto|intros; apply ends_ret]].
  destruct (ubjson_scalar p) as [m|] eqn:Em; [by eapply scalar_ends|].
  case_match; [|case_match; [|apply ends_error; auto]]; apply container_ends.
  - intros Hpos st. apply array_values_ends; [lia|lia| |done]. intros. apply IH. lia.
  - apply (array_values_needs _ 0); [lia|done].
  - intros Hpos st. apply object_values_ends; [lia|lia|]. intros. apply IH. lia.
  - apply (object_values_needs _ 0). lia.
Qed.
End ending.

(** Reading UBJSON ends on every input, although the values of a container of
    constants take no input: the limit on sizes bounds the rounds.  What is thrown is
    [parse_error] 110, 112, 113 or 115, and never with [allow_exceptions] off, or
    [out_of_range.408], then too. *)
Lemma ubjson_total `{FloatBits} i strict exceptions fuel :
  (length i + Z.to_nat ARRAY_MAX_SIZE + 2 ≤ fuel)%nat →
  ∃ res, from_ubjson fuel i strict exceptions = Some res ∧
    ∀ e, res = inr e → e = ExJsonOutOfRange 408 ∨
      (exceptions = true ∧ (e = ExJsonParse 110 ∨ e = ExJsonParse 112 ∨ e = ExJsonParse 113 ∨ e = ExJsonParse 115)).
Proof.
  intros Hf. apply (from_binary_ends ubjson_failure (length i) 0); [done|].
  apply ends_bind0; [apply parse_value_ends; intros; by apply value_ends|]. intros _.
  unfold expect_ubjson_end. destruct strict; [|apply ends_ret]. apply ends_bind0; [apply uends_noop|].
  intros [c|]; [apply ends_error; auto|apply ends_ret].
Qed.

Lemma ubjson_total_witness (f := byte_floats) :
  ∃ res, from_ubjson (length (b#"[$") + Z.to_nat ARRAY_MAX_SIZE + 2) b#"[$" true false = Some res ∧
    ∀ e, res = inr e → e = ExJsonOutOfRange 408 ∨
      (false = true ∧ (e = ExJsonParse 110 ∨ e = ExJsonParse 112 ∨ e = ExJsonParse 113 ∨ e = ExJsonParse 115)).
Proof. apply ubjson_total. apply le_n. Defined.
