(* ===== verification/Grisu.v ===== *)
(** * Grisu: the text of a double ([include/nlohmann/json.hpp], namespace [dtoa_impl] and
      [to_chars])

    The Grisu2 algorithm on 64-bit integers with their wrap-around, with its assertions and
    its table of powers of ten, and the layout of the digits.  A double is given by its
    bits ([IEEE 754]). *)

From S2P Require Import Prelude CString Prog.

(** What a function of [dtoa_impl] does: give a result, fail an assertion, or not end within
    the fuel of its loop. *)
Inductive gres (A : Type) :=
| GOk (a : A)
| GAssert
| GNoFuel.
Arguments GOk {A} a.
Arguments GAssert {A}.
Arguments GNoFuel {A}.

#[export] Instance gres_ret : MRet gres := @GOk.
#[export] Instance gres_bind : MBind gres :=
  λ A B f m, match m with GOk a => f a | GAssert => GAssert | GNoFuel => GNoFuel end.

Definition JSON_ASSERT (b : bool) : gres unit := if b then GOk tt else GAssert.

(** ** [diyfp]: [f * 2^e] *)

Record diyfp := mkDiyfp { f : Z; e : Z }.

Definition sub (x y : diyfp) : gres diyfp :=
  JSON_ASSERT (e x =? e y);;
  JSON_ASSERT (f y <=? f x);;
  GOk (mkDiyfp (wrap 64 (f x - f y)) (e x)).

Definition mul (x y : diyfp) : diyfp :=
  let u_lo := Z.land (f x) 0xFFFFFFFF in
  let u_hi := Z.shiftr (f x) 32 in
  let v_lo := Z.land (f y) 0xFFFFFFFF in
  let v_hi := Z.shiftr (f y) 32 in
  let p0 := wrap 64 (u_lo * v_lo) in
  let p1 := wrap 64 (u_lo * v_hi) in
  let p2 := wrap 64 (u_hi * v_lo) in
  let p3 := wrap 64 (u_hi * v_hi) in
  let p0_hi := Z.shiftr p0 32 in
  let p1_lo := Z.land p1 0xFFFFFFFF in
  let p1_hi := Z.shiftr p1 32 in
  let p2_lo := Z.land p2 0xFFFFFFFF in
  let p2_hi := Z.shiftr p2 32 in
  let Q := wrap 64 (p0_hi + p1_lo + p2_lo) in
  let Q := wrap 64 (Q + Z.shiftl 1 (64 - 32 - 1)) in
  let h := wrap 64 (p3 + p2_hi + p1_hi + Z.shiftr Q 32) in
  mkDiyfp h (e x + e y + 64).

Fixpoint normalize_loop (fuel : nat) (x : diyfp) : gres diyfp :=
  if Z.shiftr (f x) 63 =? 0 then
    match fuel with
    | O => GNoFuel
    | S fuel => normalize_loop fuel (mkDiyfp (wrap 64 (Z.shiftl (f x) 1)) (e x - 1))
    end
  else GOk x.

(** 64 bits are shifted out at most. *)
Definition normalize (x : diyfp) : gres diyfp := JSON_ASSERT (negb (f x =? 0));; normalize_loop 64 x.

Definition normalize_to (x : diyfp) (target_exponent : Z) : gres diyfp :=
  let delta := e x - target_exponent in
  JSON_ASSERT (0 <=? delta);;
  JSON_ASSERT (Z.shiftr (wrap 64 (Z.shiftl (f x) delta)) delta =? f x);;
  GOk (mkDiyfp (wrap 64 (Z.shiftl (f x) delta)) target_exponent).

(** ** The boundaries of a double *)

Record boundaries := mkBoundaries { w : diyfp; minus : diyfp; plus : diyfp }.

Definition kPrecision : Z := 53.
Definition kBias : Z := 1024 - 1 + (kPrecision - 1).
Definition kMinExp : Z := 1 - kBias.
Definition kHiddenBit : Z := Z.shiftl 1 (kPrecision - 1).

Definition isfinite (bits : Z) : bool := negb (Z.land (Z.shiftr bits 52) 0x7FF =? 0x7FF).
Definition signbit (bits : Z) : bool := negb (Z.shiftr bits 63 =? 0).
Definition is_positive (bits : Z) : bool := negb (signbit bits) && negb (bits =? 0).

Definition compute_boundaries (bits : Z) : gres boundaries :=
  JSON_ASSERT (isfinite bits);;
  JSON_ASSERT (is_positive bits);;
  let E := Z.shiftr bits (kPrecision - 1) in
  let F := Z.land bits (kHiddenBit - 1) in
  let is_denormal := E =? 0 in
  let v := if is_denormal then mkDiyfp F kMinExp else mkDiyfp (F + kHiddenBit) (E - kBias) in
  let lower_boundary_is_closer := (F =? 0) && (1 <? E) in
  let m_plus := mkDiyfp (wrap 64 (2 * f v + 1)) (e v - 1) in
  let m_minus :=
    if lower_boundary_is_closer then mkDiyfp (wrap 64 (4 * f v - 1)) (e v - 2)
    else mkDiyfp (wrap 64 (2 * f v - 1)) (e v - 1) in
  w_plus ← normalize m_plus;
  w_minus ← normalize_to m_minus (e w_plus);
  v ← normalize v;
  GOk (mkBoundaries v w_minus w_plus).

(** ** Powers of ten *)

Definition kAlpha : Z := -60.
Definition kGamma : Z := -32.

(** [c = f * 2^e ~= 10^k]. *)
Record cached_power := mkCachedPower { cached_f : Z; cached_e : Z; cached_k : Z }.

Definition kCachedPowersMinDecExp : Z := -300.
Definition kCachedPowersDecStep : Z := 8.

Definition kCachedPowers : list cached_power :=
  [mkCachedPower 0xAB70FE17C79AC6CA (-1060) (-300); mkCachedPower 0xFF77B1FCBEBCDC4F (-1034) (-292);
   mkCachedPower 0xBE5691EF416BD60C (-1007) (-284); mkCachedPower 0x8DD01FAD907FFC3C (-980) (-276);
   mkCachedPower 0xD3515C2831559A83 (-954) (-268); mkCachedPower 0x9D71AC8FADA6C9B5 (-927) (-260);
   mkCachedPower 0xEA9C227723EE8BCB (-901) (-252); mkCachedPower 0xAECC49914078536D (-874) (-244);
   mkCachedPower 0x823C12795DB6CE57 (-847) (-236); mkCachedPower 0xC21094364DFB5637 (-821) (-228);
   mkCachedPower 0x9096EA6F3848984F (-794) (-220); mkCachedPower 0xD77485CB25823AC7 (-768) (-212);
   mkCachedPower 0xA086CFCD97BF97F4 (-741) (-204); mkCachedPower 0xEF340A98172AACE5 (-715) (-196);
   mkCachedPower 0xB23867FB2A35B28E (-688) (-188); mkCachedPower 0x84C8D4DFD2C63F3B (-661) (-180);
   mkCachedPower 0xC5DD44271AD3CDBA (-635) (-172); mkCachedPower 0x936B9FCEBB25C996 (-608) (-164);
   mkCachedPower 0xDBAC6C247D62A584 (-582) (-156); mkCachedPower 0xA3AB66580D5FDAF6 (-555) (-148);
   mkCachedPower 0xF3E2F893DEC3F126 (-529) (-140); mkCachedPower 0xB5B5ADA8AAFF80B8 (-502) (-132);
   mkCachedPower 0x87625F056C7C4A8B (-475) (-124); mkCachedPower 0xC9BCFF6034C13053 (-449) (-116);
   mkCachedPower 0x964E858C91BA2655 (-422) (-108); mkCachedPower 0xDFF9772470297EBD (-396) (-100);
   mkCachedPower 0xA6DFBD9FB8E5B88F (-369) (-92); mkCachedPower 0xF8A95FCF88747D94 (-343) (-84);
   mkCachedPower 0xB94470938FA89BCF (-316) (-76); mkCachedPower 0x8A08F0F8BF0F156B (-289) (-68);
   mkCachedPower 0xCDB02555653131B6 (-263) (-60); mkCachedPower 0x993FE2C6D07B7FAC (-236) (-52);
   mkCachedPower 0xE45C10C42A2B3B06 (-210) (-44); mkCachedPower 0xAA242499697392D3 (-183) (-36);
   mkCachedPower 0xFD87B5F28300CA0E (-157) (-28); mkCachedPower 0xBCE5086492111AEB (-130) (-20);
   mkCachedPower 0x8CBCCC096F5088CC (-103) (-12); mkCachedPower 0xD1B71758E219652C (-77) (-4);
   mkCachedPower 0x9C40000000000000 (-50) 4; mkCachedPower 0xE8D4A51000000000 (-24) 12;
   mkCachedPower 0xAD78EBC5AC620000 3 20; mkCachedPower 0x813F3978F8940984 30 28;
   mkCachedPower 0xC097CE7BC90715B3 56 36; mkCachedPower 0x8F7E32CE7BEA5C70 83 44;
   mkCachedPower 0xD5D238A4ABE98068 109 52; mkCachedPower 0x9F4F2726179A2245 136 60;
   mkCachedPower 0xED63A231D4C4FB27 162 68; mkCachedPower 0xB0DE65388CC8ADA8 189 76;
   mkCachedPower 0x83C7088E1AAB65DB 216 84; mkCachedPower 0xC45D1DF942711D9A 242 92;
   mkCachedPower 0x924D692CA61BE758 269 100; mkCachedPower 0xDA01EE641A708DEA 295 108;
   mkCachedPower 0xA26DA3999AEF774A 322 116; mkCachedPower 0xF209787BB47D6B85 348 124;
   mkCachedPower 0xB454E4A179DD1877 375 132; mkCachedPower 0x865B86925B9BC5C2 402 140;
   mkCachedPower 0xC83553C5C8965D3D 428 148; mkCachedPower 0x952AB45CFA97A0B3 455 156;
   mkCachedPower 0xDE469FBD99A05FE3 481 164; mkCachedPower 0xA59BC234DB398C25 508 172;
   mkCachedPower 0xF6C69A72A3989F5C 534 180; mkCachedPower 0xB7DCBF5354E9BECE 561 188;
   mkCachedPower 0x88FCF317F22241E2 588 196; mkCachedPower 0xCC20CE9BD35C78A5 614 204;
   mkCachedPower 0x98165AF37B2153DF 641 212; mkCachedPower 0xE2A0B5DC971F303A 667 220;
   mkCachedPower 0xA8D9D1535CE3B396 694 228; mkCachedPower 0xFB9B7CD9A4A7443C 720 236;
   mkCachedPower 0xBB764C4CA7A44410 747 244; mkCachedPower 0x8BAB8EEFB6409C1A 774 252;
   mkCachedPower 0xD01FEF10A657842C 800 260; mkCachedPower 0x9B10A4E5E9913129 827 268;
   mkCachedPower 0xE7109BFBA19C0C9D 853 276; mkCachedPower 0xAC2820D9623BF429 880 284;
   mkCachedPower 0x80444B5E7AA7CF85 907 292; mkCachedPower 0xBF21E44003ACDD2D 933 300;
   mkCachedPower 0x8E679C2F5E44FF8F 960 308; mkCachedPower 0xD433179D9C8CB841 986 316;
   mkCachedPower 0x9E19DB92B4E31BA9 1013 324].

(** Divisions of [int] truncate. *)
Definition get_cached_power_for_binary_exponent (e : Z) : gres cached_power :=
  JSON_ASSERT (-1500 <=? e);;
  JSON_ASSERT (e <=? 1500);;
  let f := kAlpha - e - 1 in
  let k := Z.quot (f * 78913) (Z.shiftl 1 18) + (if 0 <? f then 1 else 0) in
  let index := Z.quot (- kCachedPowersMinDecExp + k + (kCachedPowersDecStep - 1)) kCachedPowersDecStep in
  JSON_ASSERT (0 <=? index);;
  match kCachedPowers !! Z.to_nat index with
  | None => GAssert
  | Some cached =>
      JSON_ASSERT (kAlpha <=? cached_e cached + e + 64);;
      JSON_ASSERT (cached_e cached + e + 64 <=? kGamma);;
      GOk cached
  end.

(** [k] and [pow10]. *)
Definition find_largest_pow10 (n : Z) : Z * Z :=
  if 1000000000 <=? n then (10, 1000000000)
  else if 100000000 <=? n then (9, 100000000)
  else if 10000000 <=? n then (8, 10000000)
  else if 1000000 <=? n then (7, 1000000)
  else if 100000 <=? n then (6, 100000)
  else if 10000 <=? n then (5, 10000)
  else if 1000 <=? n then (4, 1000)
  else if 100 <=? n then (3, 100)
  else if 10 <=? n then (2, 10)
  else (1, 1).

(** ** Digits *)

(** [buf\[len - 1\]], and its decrement. *)
Definition last_char (buf : bytes) : ascii := default NUL (last buf).
Definition decrement_last (buf : bytes) : bytes := removelast buf ++ [Zbyte (byteZ (last_char buf) - 1)].

(** The test of the loop of [grisu2_round]. *)
Definition round_more (dist delta rest ten_k : Z) : bool :=
  (rest <? dist) && (ten_k <=? wrap 64 (delta - rest)) &&
  ((wrap 64 (rest + ten_k) <? dist) || (wrap 64 (wrap 64 (rest + ten_k) - dist) <? wrap 64 (dist - rest))).

Fixpoint round_loop (fuel : nat) (buf : bytes) (dist delta rest ten_k : Z) : gres bytes :=
  if round_more dist delta rest ten_k then
    match fuel with
    | O => GNoFuel
    | S fuel =>
        JSON_ASSERT (bool_decide (last_char buf ≠ "0"%char));;
        round_loop fuel (decrement_last buf) dist delta (wrap 64 (rest + ten_k)) ten_k
    end
  else GOk buf.

(** A digit is decremented at most nine times. *)
Definition grisu2_round (buf : bytes) (dist delta rest ten_k : Z) : gres bytes :=
  JSON_ASSERT (1 <=? blen buf);;
  JSON_ASSERT (dist <=? delta);;
  JSON_ASSERT (rest <=? delta);;
  JSON_ASSERT (0 <? ten_k);;
  round_loop 9 buf dist delta rest ten_k.

(** The digits of the integral part.  Either enough of them have been generated, and [n] is
    what is left of the exponent, or there are none left.  [shift] is [-one.e]. *)
Fixpoint integral_digits (n : nat) (buffer : bytes) (p1 p2 pow10 shift dist delta : Z) : gres (bytes * nat + bytes) :=
  match n with
  | O => GOk (inr buffer)
  | S n =>
      let d := p1 / pow10 in
      let r := p1 mod pow10 in
      JSON_ASSERT (d <=? 9);;
      let buffer := buffer ++ [Zbyte (byteZ "0" + d)] in
      let p1 := r in
      let rest := wrap 64 (wrap 64 (Z.shiftl p1 shift) + p2) in
      if rest <=? delta then
        let ten_n := wrap 64 (Z.shiftl pow10 shift) in
        buffer ← grisu2_round buffer dist delta rest ten_n;
        GOk (inl (buffer, n))
      else integral_digits n buffer p1 p2 (pow10 / 10) shift dist delta
  end.

(** The digits of the fractional part: the buffer and [m]. *)
Fixpoint fraction_digits (fuel : nat) (buffer : bytes) (m p2 one_f shift dist delta : Z) : gres (bytes * Z) :=
  match fuel with
  | O => GNoFuel
  | S fuel =>
      JSON_ASSERT (p2 <=? (2 ^ 64 - 1) / 10);;
      let p2 := wrap 64 (p2 * 10) in
      let d := Z.shiftr p2 shift in
      let r := Z.land p2 (one_f - 1) in
      JSON_ASSERT (d <=? 9);;
      let buffer := buffer ++ [Zbyte (byteZ "0" + d)] in
      let p2 := r in
      let m := m + 1 in
      let delta := wrap 64 (delta * 10) in
      let dist := wrap 64 (dist * 10) in
      if p2 <=? delta then
        buffer ← grisu2_round buffer dist delta p2 one_f;
        GOk (buffer, m)
      else fraction_digits fuel buffer m p2 one_f shift dist delta
  end.

(** [delta] reaches [p2] within 19 multiplications by ten. *)
Definition grisu2_digit_gen (decimal_exponent : Z) (M_minus w M_plus : diyfp) : gres (bytes * Z) :=
  JSON_ASSERT (kAlpha <=? e M_plus);;
  JSON_ASSERT (e M_plus <=? kGamma);;
  delta ← sub M_plus M_minus;
  dist ← sub M_plus w;
  let one := mkDiyfp (wrap 64 (Z.shiftl 1 (- e M_plus))) (e M_plus) in
  let p1 := wrap 32 (Z.shiftr (f M_plus) (- e one)) in
  let p2 := Z.land (f M_plus) (f one - 1) in
  JSON_ASSERT (0 <? p1);;
  let '(k, pow10) := find_largest_pow10 p1 in
  digits ← integral_digits (Z.to_nat k) [] p1 p2 pow10 (- e one) (f dist) (f delta);
  match digits with
  | inl (buffer, n) => GOk (buffer, decimal_exponent + Z.of_nat n)
  | inr buffer =>
      JSON_ASSERT (f delta <? p2);;
      fraction ← fraction_digits 19 buffer 0 p2 (f one) (- e one) (f dist) (f delta);
      let '(buffer, m) := fraction in
      GOk (buffer, decimal_exponent - m)
  end.

(** [grisu2] for the boundaries: the digits and the decimal exponent. *)
Definition grisu2_boundaries (m_minus v m_plus : diyfp) : gres (bytes * Z) :=
  JSON_ASSERT (e m_plus =? e m_minus);;
  JSON_ASSERT (e m_plus =? e v);;
  cached ← get_cached_power_for_binary_exponent (e m_plus);
  let c_minus_k := mkDiyfp (cached_f cached) (cached_e cached) in
  let w := mul v c_minus_k in
  let w_minus := mul m_minus c_minus_k in
  let w_plus := mul m_plus c_minus_k in
  let M_minus := mkDiyfp (wrap 64 (f w_minus + 1)) (e w_minus) in
  let M_plus := mkDiyfp (wrap 64 (f w_plus - 1)) (e w_plus) in
  grisu2_digit_gen (- cached_k cached) M_minus w M_plus.

Definition grisu2 (bits : Z) : gres (bytes * Z) :=
  JSON_ASSERT (isfinite bits);;
  JSON_ASSERT (is_positive bits);;
  b ← compute_boundaries bits;
  grisu2_boundaries (minus b) (w b) (plus b).

(** ** The text *)

Definition digit (d : Z) : ascii := Zbyte (byteZ "0" + d).

Definition append_exponent (e : Z) : gres bytes :=
  JSON_ASSERT (-1000 <? e);;
  JSON_ASSERT (e <? 1000);;
  let k := if e <? 0 then - e else e in
  GOk ((if e <? 0 then b#"-" else b#"+") ++
       (if k <? 10 then ["0"%char; digit k]
        else if k <? 100 then [digit (k / 10); digit (k mod 10)]
        else [digit (k / 100); digit (k mod 100 / 10); digit (k mod 100 mod 10)])).

(** The characters up to the pointer that is returned. *)
Definition format_buffer (buf : bytes) (decimal_exponent min_exp max_exp : Z) : gres bytes :=
  JSON_ASSERT (min_exp <? 0);;
  JSON_ASSERT (0 <? max_exp);;
  let k := blen buf in
  let n := blen buf + decimal_exponent in
  if (k <=? n) && (n <=? max_exp) then GOk (buf ++ replicate (Z.to_nat (n - k)) "0"%char ++ b#".0")
  else if (0 <? n) && (n <=? max_exp) then
    JSON_ASSERT (n <? k);;
    GOk (take (Z.to_nat n) buf ++ b#"." ++ drop (Z.to_nat n) buf)
  else if (min_exp <? n) && (n <=? 0) then GOk (b#"0." ++ replicate (Z.to_nat (- n)) "0"%char ++ buf)
  else
    exponent ← append_exponent (n - 1);
    GOk ((if k =? 1 then buf else take 1 buf ++ b#"." ++ drop 1 buf) ++ b#"e" ++ exponent).

Definition kMinExp10 : Z := -4.
Definition kMaxExp10 : Z := 15.
Definition max_digits10 : Z := 17.

(** [to_chars(first, last, value)], with [size] characters from [first] to [last]. *)
Definition to_chars (size bits : Z) : gres bytes :=
  JSON_ASSERT (isfinite bits);;
  let '(sign, bits, size) := if signbit bits then (b#"-", Z.land bits (2 ^ 63 - 1), size - 1) else ([], bits, size) in
  if bits =? 0 then GOk (sign ++ b#"0.0")
  else
    JSON_ASSERT (max_digits10 <=? size);;
    number ← grisu2 bits;
    let '(buffer, decimal_exponent) := number in
    JSON_ASSERT (blen buffer <=? max_digits10);;
    JSON_ASSERT (kMaxExp10 + 2 <=? size);;
    JSON_ASSERT (2 + (- kMinExp10 - 1) + max_digits10 <=? size);;
    JSON_ASSERT (max_digits10 + 6 <=? size);;
    text ← format_buffer buffer decimal_exponent kMinExp10 kMaxExp10;
    GOk (sign ++ text).
