(* ===== verification/GrisuArith.v ===== *)
(** * GrisuArith: the arithmetic of [dtoa_impl]

    Multiplication and normalization of [diyfp]s, the boundaries of a double, and the table
    of powers of ten, as exact statements on integers. *)

From S2P Require Import Prelude CString Prog Grisu.

(** Divisions and remainders by powers of two. *)
Ltac dlia := Z.to_euclidean_division_equations; lia.

Lemma JSON_ASSERT_true b : b = true → JSON_ASSERT b = GOk tt.
Proof. by intros ->. Qed.

(** ** Multiplication *)

Lemma wrap_small n z : 0 ≤ z < 2 ^ n → wrap n z = z.
Proof. intros. unfold wrap. by apply Z.mod_small. Qed.

Lemma split32 z : 0 ≤ z < 2 ^ 64 → ∃ lo hi, Z.land z 0xFFFFFFFF = lo ∧ Z.shiftr z 32 = hi ∧ z = lo + 2 ^ 32 * hi ∧ 0 ≤ lo < 2 ^ 32 ∧ 0 ≤ hi < 2 ^ 32.
Proof.
  intros Hz. eexists _, _. do 2 (split; [reflexivity|]). change 0xFFFFFFFF with (Z.ones 32).
  rewrite Z.land_ones, Z.shiftr_div_pow2 by lia. dlia.
Qed.

(** The upper 64 bits of the product, rounded. *)
Lemma mul_spec x y :
  0 ≤ f x < 2 ^ 64 → 0 ≤ f y < 2 ^ 64 →
  f (mul x y) = (f x * f y + 2 ^ 63) / 2 ^ 64 ∧ e (mul x y) = e x + e y + 64 ∧ 0 ≤ f (mul x y) < 2 ^ 64.
Proof.
  intros Hx Hy. assert (0 ≤ (f x * f y + 2 ^ 63) / 2 ^ 64 < 2 ^ 64) as Hr.
  { split; [apply Z.div_pos; nia|]. apply Z.div_lt_upper_bound; [lia|]. nia. }
  cut (f (mul x y) = (f x * f y + 2 ^ 63) / 2 ^ 64); [intros ->; done|].
  assert (0 ≤ f x * f y ≤ (2 ^ 64 - 1) * (2 ^ 64 - 1)) as Hmax by nia. clear Hr.
  destruct (split32 (f x) Hx) as (u_lo & u_hi & Eu1 & Eu2 & Eu & Hul & Huh).
  destruct (split32 (f y) Hy) as (v_lo & v_hi & Ev1 & Ev2 & Ev & Hvl & Hvh).
  unfold mul. rewrite Eu1, Eu2, Ev1, Ev2. cbn [f].
  assert (0 ≤ u_lo * v_lo < 2 ^ 64 ∧ 0 ≤ u_lo * v_hi < 2 ^ 64 ∧ 0 ≤ u_hi * v_lo < 2 ^ 64 ∧ 0 ≤ u_hi * v_hi < 2 ^ 64)
    as (H0 & H1 & H2 & H3) by (repeat split; nia).
  rewrite (wrap_small 64 (u_lo * v_lo)), (wrap_small 64 (u_lo * v_hi)), (wrap_small 64 (u_hi * v_lo)),
    (wrap_small 64 (u_hi * v_hi)) by done.
  assert (f x * f y = u_lo * v_lo + 2 ^ 32 * (u_lo * v_hi + u_hi * v_lo) + 2 ^ 64 * (u_hi * v_hi)) as Ep by (rewrite Eu, Ev; ring).
  rewrite Ep in Hmax |- *. clear Ep. generalize dependent (u_lo * v_lo). generalize dependent (u_lo * v_hi). generalize dependent (u_hi * v_lo).
  generalize dependent (u_hi * v_hi). intros p3 H3 p2 H2 p1 H1 p0 Hmax H0.
  destruct (split32 p0 H0) as (? & p0_hi & _ & -> & ? & ? & ?).
  destruct (split32 p1 H1) as (p1_lo & p1_hi & -> & -> & ? & ? & ?).
  destruct (split32 p2 H2) as (p2_lo & p2_hi & -> & -> & ? & ? & ?).
  rewrite (wrap_small 64 (p0_hi + p1_lo + p2_lo)) by lia. change (Z.shiftl 1 (64 - 32 - 1)) with (2 ^ 31).
  rewrite (wrap_small 64 (p0_hi + p1_lo + p2_lo + 2 ^ 31)) by lia.
  rewrite Z.shiftr_div_pow2 by lia.
  pose proof (Z.div_mod (p0_hi + p1_lo + p2_lo + 2 ^ 31) (2 ^ 32) ltac:(lia)).
  pose proof (Z.mod_pos_bound (p0_hi + p1_lo + p2_lo + 2 ^ 31) (2 ^ 32) ltac:(lia)).
  match goal with |- wrap 64 ?h = ?v => assert (h = v) as E; [|rewrite E; apply wrap_small; dlia] end.
  apply Z.div_unique_pos with (p0 + 2 ^ 32 * (p1 + p2) + 2 ^ 64 * p3 + 2 ^ 63
    - 2 ^ 64 * (p3 + p2_hi + p1_hi + (p0_hi + p1_lo + p2_lo + 2 ^ 31) / 2 ^ 32)); lia.
Qed.

(** ** Normalization *)

Lemma shiftl_mul x n : 0 ≤ n → Z.shiftl x n = x * 2 ^ n.
Proof. intros. by rewrite Z.shiftl_mul_pow2. Qed.

Lemma normalize_loop_spec fuel x :
  0 < f x < 2 ^ 64 → 2 ^ 63 ≤ f x * 2 ^ Z.of_nat fuel →
  ∃ s, 0 ≤ s ∧ normalize_loop fuel x = GOk (mkDiyfp (f x * 2 ^ s) (e x - s)) ∧ 2 ^ 63 ≤ f x * 2 ^ s < 2 ^ 64.
Proof.
  revert x. induction fuel as [|fuel IH]; intros [fx ex]; cbn [f e normalize_loop]; intros Hx Hf; rewrite Z.shiftr_div_pow2 by lia.
  - cbn in Hf. exists 0. rewrite (proj2 (Z.eqb_neq _ _)) by dlia. rewrite Z.sub_0_r, Z.mul_1_r. split; [lia|]. split; [done|lia].
  - destruct (Z.eqb_spec (fx / 2 ^ 63) 0) as [E|E].
    + assert (fx < 2 ^ 63) as Hlt by dlia. rewrite shiftl_mul, wrap_small by lia. destruct (IH (mkDiyfp (fx * 2 ^ 1) (ex - 1))) as (s & Hs & Hl & Hb); cbn [f e] in *; [lia| |].
      { rewrite Nat2Z.inj_succ, Z.pow_succ_r in Hf by lia. lia. }
      exists (s + 1). split; [lia|]. rewrite Z.pow_add_r by lia. rewrite Hl. split; [do 2 f_equal; lia|lia].
    + exists 0. rewrite Z.sub_0_r, Z.mul_1_r. split; [lia|]. split; [done|]. dlia.
Qed.

Lemma normalize_spec x :
  0 < f x < 2 ^ 64 →
  ∃ s, 0 ≤ s ∧ normalize x = GOk (mkDiyfp (f x * 2 ^ s) (e x - s)) ∧ 2 ^ 63 ≤ f x * 2 ^ s < 2 ^ 64.
Proof.
  intros Hx. unfold normalize. rewrite (proj2 (Z.eqb_neq _ _)) by lia. apply normalize_loop_spec; [done|].
  change (Z.of_nat 64) with 64. nia.
Qed.

Lemma normalize_to_spec x t :
  0 ≤ e x - t → 0 ≤ f x → f x * 2 ^ (e x - t) < 2 ^ 64 → normalize_to x t = GOk (mkDiyfp (f x * 2 ^ (e x - t)) t).
Proof.
  intros Ht Hx Hl. unfold normalize_to. rewrite (proj2 (Z.leb_le _ _)) by lia. cbn [JSON_ASSERT mbind gres_bind].
  rewrite shiftl_mul, wrap_small by (try split; try apply Z.mul_nonneg_nonneg; lia).
  rewrite Z.shiftr_div_pow2, Z.div_mul by lia. by rewrite Z.eqb_refl.
Qed.

(** ** The boundaries of a double *)

(** The significand and the exponent of the double with the bits [b]. *)
Definition significand (b : Z) : Z := if b / 2 ^ 52 =? 0 then b mod 2 ^ 52 else b mod 2 ^ 52 + 2 ^ 52.
Definition exponent (b : Z) : Z := Z.max 1 (b / 2 ^ 52) - 1075.

(** The lower neighbour is closer than the upper one. *)
Definition closer (b : Z) : bool := (b mod 2 ^ 52 =? 0) && (1 <? b / 2 ^ 52).

Definition finite_positive (b : Z) : Prop := 0 < b < 2047 * 2 ^ 52.

Lemma significand_range b : finite_positive b → 0 < significand b < 2 ^ 53 ∧ -1074 ≤ exponent b ≤ 971 ∧ (closer b = true → significand b = 2 ^ 52).
Proof.
  unfold finite_positive, significand, exponent, closer. intros Hb. destruct (Z.eqb_spec (b / 2 ^ 52) 0) as [E|E].
  - repeat split; try dlia; intros ?; split_bools; dlia.
  - repeat split; try dlia; intros ?; split_bools; dlia.
Qed.

Lemma finite_spec b : finite_positive b → isfinite b = true ∧ is_positive b = true.
Proof.
  unfold finite_positive, isfinite, is_positive, signbit. intros Hb. change 0x7FF with (Z.ones 11).
  rewrite Z.land_ones, !Z.shiftr_div_pow2 by lia. split.
  - apply negb_true_iff, Z.eqb_neq. change (Z.ones 11) with 2047. rewrite Z.mod_small; dlia.
  - assert (b / 2 ^ 63 = 0) as -> by dlia. cbn. apply negb_true_iff, Z.eqb_neq. lia.
Qed.

(** The boundaries share the exponent of the normalized double. *)
Lemma compute_boundaries_spec b :
  finite_positive b → ∃ s,
    compute_boundaries b = GOk (mkBoundaries (mkDiyfp (significand b * 2 ^ s) (exponent b - s))
      (mkDiyfp (if closer b then (4 * significand b - 1) * 2 ^ (s - 2) else (2 * significand b - 1) * 2 ^ (s - 1)) (exponent b - s))
      (mkDiyfp ((2 * significand b + 1) * 2 ^ (s - 1)) (exponent b - s))) ∧
    11 ≤ s ≤ 63 ∧ 2 ^ 63 ≤ significand b * 2 ^ s ∧ (2 * significand b + 1) * 2 ^ (s - 1) < 2 ^ 64.
Proof.
  intros Hb. destruct (significand_range b Hb) as (Hs & He & Hc). destruct (finite_spec b Hb) as [Hf Hp].
  unfold compute_boundaries. rewrite Hf, Hp. cbn [JSON_ASSERT mbind gres_bind].
  change (kHiddenBit - 1) with (Z.ones 52). change (kPrecision - 1) with 52. change kHiddenBit with (2 ^ 52).
  rewrite Z.land_ones, Z.shiftr_div_pow2 by lia.
  assert ((if b / 2 ^ 52 =? 0 then mkDiyfp (b mod 2 ^ 52) kMinExp else mkDiyfp (b mod 2 ^ 52 + 2 ^ 52) (b / 2 ^ 52 - kBias)) =
    mkDiyfp (significand b) (exponent b)) as ->.
  { unfold significand, exponent. change kMinExp with (-1074). change kBias with 1075. unfold finite_positive in Hb.
    destruct (Z.eqb_spec (b / 2 ^ 52) 0); f_equal; dlia. }
  fold (closer b). generalize dependent (significand b). generalize dependent (exponent b). intros ex He sg Hs Hc. cbn [f e].
  rewrite (wrap_small 64 (2 * sg + 1)) by lia.
  destruct (normalize_spec (mkDiyfp (2 * sg + 1) (ex - 1))) as (s & Hs0 & -> & Hl); cbn [f e] in *; [lia|].
  cbn [mbind gres_bind e].
  destruct (normalize_spec (mkDiyfp sg ex)) as (t & Ht0 & -> & Hlt); cbn [f e] in *; [lia|].
  pose proof (Z.pow_pos_nonneg 2 s ltac:(lia) ltac:(lia)).
  assert (s ≤ 62) as Hs62.
  { destruct (Z.le_gt_cases s 62) as [|Hs63]; [done|exfalso].
    pose proof (Z.pow_le_mono_r 2 63 s ltac:(lia) ltac:(lia)). nia. }
  assert (t = s + 1) as ->.
  { destruct (Z.lt_trichotomy t (s + 1)) as [Hlt1|[?|Hgt]]; [exfalso|done|exfalso].
    - assert (2 ^ s = 2 ^ t * 2 ^ (s - t)) as E by (rewrite <- Z.pow_add_r by lia; f_equal; lia).
      pose proof (Z.pow_pos_nonneg 2 (s - t) ltac:(lia) ltac:(lia)). rewrite E in Hl. nia.
    - assert (2 ^ 63 = 2 ^ s * (2 * 2 ^ (62 - s))) as E1.
      { change 2 with (2 ^ 1) at 3. rewrite <- !Z.pow_add_r by lia. f_equal. lia. }
      assert (2 ^ t = 2 ^ s * (4 * 2 ^ (t - s - 2))) as E2.
      { change 4 with (2 ^ 2). rewrite <- !Z.pow_add_r by lia. f_equal. lia. }
      pose proof (Z.pow_pos_nonneg 2 (t - s - 2) ltac:(lia) ltac:(lia)).
      assert (2 ^ (62 - s) ≤ sg) by nia. change (2 ^ 64) with (2 * 2 ^ 63) in *. rewrite E1, E2 in Hlt. nia. }
  exists (s + 1). rewrite Z.pow_add_r in * by lia. change (2 ^ 1) with 2 in *.
  assert (10 ≤ s) as Hs10.
  { destruct (Z.le_gt_cases 10 s) as [|Hs9]; [done|exfalso].
    pose proof (Z.pow_le_mono_r 2 s 9 ltac:(lia) ltac:(lia)). change (2 ^ 9) with 512 in *. nia. }
  replace (s + 1 - 1) with s by lia. replace (s + 1 - 2) with (s - 1) by lia.
  assert (2 ^ s = 2 * 2 ^ (s - 1)) as Es by (rewrite <- Z.pow_succ_r by lia; f_equal; lia).
  pose proof (Z.pow_pos_nonneg 2 (s - 1) ltac:(lia) ltac:(lia)).
  split; [|repeat split; lia].
  destruct (closer b).
  - rewrite (wrap_small 64) by lia. rewrite normalize_to_spec; cbn [f e]; [|lia..|].
    + cbn [mbind gres_bind]. replace (ex - 2 - (ex - 1 - s)) with (s - 1) by lia. by replace (ex - 1 - s) with (ex - (s + 1)) by lia.
    + replace (ex - 2 - (ex - 1 - s)) with (s - 1) by lia. nia.
  - rewrite (wrap_small 64) by lia. rewrite normalize_to_spec; cbn [f e]; [|lia..|].
    + cbn [mbind gres_bind]. replace (ex - 1 - (ex - 1 - s)) with s by lia. by replace (ex - 1 - s) with (ex - (s + 1)) by lia.
    + replace (ex - 1 - (ex - 1 - s)) with s by lia. nia.
Qed.
