(* ===== verification/GrisuDigits.v ===== *)
(** * GrisuDigits: the table of powers of ten and the generation of digits

    Every cached power is the nearest 64-bit significand to its power of ten, and there is
    one for every exponent; [grisu2_digit_gen] fails no assertion, ends, and gives a number
    between [M-] and [M+]. *)

From S2P Require Import Prelude CString Prog Grisu GrisuArith.

(** ** The table *)

(** [10^k / 2^e] as a fraction. *)
Definition pow_num (c : cached_power) : Z := 10 ^ Z.max (cached_k c) 0 * 2 ^ Z.max (- cached_e c) 0.
Definition pow_den (c : cached_power) : Z := 10 ^ Z.max (- cached_k c) 0 * 2 ^ Z.max (cached_e c) 0.

(** Normalized, within half a unit in the last place, and in the range of a double. *)
Definition accurate (c : cached_power) : bool :=
  (Z.abs (cached_k c) <=? 324) && (2 ^ 63 <=? cached_f c) && (cached_f c <? 2 ^ 64) && (2 * Z.abs (cached_f c * pow_den c - pow_num c) <=? pow_den c).

Lemma table_accurate : forallb accurate kCachedPowers = true.
Proof. vm_compute. reflexivity. Qed.

Definition power_found (e : Z) : bool :=
  match get_cached_power_for_binary_exponent e with GOk _ => true | _ => false end.

Lemma powers_found : forallb (λ i, power_found (-1137 + Z.of_nat i)) (seq 0 2098) = true.
Proof. vm_compute. reflexivity. Qed.

Lemma get_cached_power_table e c :
  get_cached_power_for_binary_exponent e = GOk c → c ∈ kCachedPowers ∧ -60 ≤ cached_e c + e + 64 ≤ -32.
Proof.
  unfold get_cached_power_for_binary_exponent, JSON_ASSERT, mbind, gres_bind. cbv zeta.
  destruct (-1500 <=? e); [|done]. destruct (e <=? 1500); [|done]. destruct (0 <=? Z.quot _ _); [|done].
  destruct (kCachedPowers !! _) as [c1|] eqn:El; [|done]. apply list_elem_of_lookup_2 in El.
  destruct (Z.leb_spec kAlpha (cached_e c1 + e + 64)); [|done].
  destruct (Z.leb_spec (cached_e c1 + e + 64) kGamma); [|done].
  intros [= <-]. split; [done|]. unfold kAlpha, kGamma in *. lia.
Qed.

Lemma pow_den_pos c : 0 < pow_den c.
Proof. unfold pow_den. apply Z.mul_pos_pos; apply Z.pow_pos_nonneg; lia. Qed.

Lemma get_cached_power_spec e :
  -1137 ≤ e ≤ 960 → ∃ c, get_cached_power_for_binary_exponent e = GOk c ∧
    2 ^ 63 ≤ cached_f c < 2 ^ 64 ∧ 2 * Z.abs (cached_f c * pow_den c - pow_num c) ≤ pow_den c ∧ -60 ≤ cached_e c + e + 64 ≤ -32 ∧
    -324 ≤ cached_k c ≤ 324.
Proof.
  intros He. pose proof powers_found as Hp. apply forallb_Forall in Hp. rewrite Forall_forall in Hp.
  specialize (Hp (Z.to_nat (e + 1137)) ltac:(apply elem_of_seq; lia)). cbv beta in Hp.
  replace (-1137 + Z.of_nat (Z.to_nat (e + 1137))) with e in Hp by lia. unfold power_found in Hp.
  destruct (get_cached_power_for_binary_exponent e) as [c| |] eqn:Ec; [|done..]. exists c. split; [done|].
  apply get_cached_power_table in Ec as [Hin He']. pose proof table_accurate as Ht. apply forallb_Forall in Ht.
  rewrite Forall_forall in Ht. specialize (Ht c Hin). unfold accurate in Ht. split_bools. lia.
Qed.

Lemma find_largest_pow10_spec n :
  0 < n < 2 ^ 32 → ∃ k, (1 ≤ k ≤ 10)%nat ∧ find_largest_pow10 n = (Z.of_nat k, 10 ^ (Z.of_nat k - 1)) ∧
    10 ^ (Z.of_nat k - 1) ≤ n < 10 ^ Z.of_nat k.
Proof.
  intros Hn. unfold find_largest_pow10.
  repeat match goal with |- context [?a <=? n] => destruct (Z.leb_spec a n) end.
  - exists 10%nat. split; [lia|]. split; [done|]. cbn. lia.
  - exists 9%nat. split; [lia|]. split; [done|]. cbn. lia.
  - exists 8%nat. split; [lia|]. split; [done|]. cbn. lia.
  - exists 7%nat. split; [lia|]. split; [done|]. cbn. lia.
  - exists 6%nat. split; [lia|]. split; [done|]. cbn. lia.
  - exists 5%nat. split; [lia|]. split; [done|]. cbn. lia.
  - exists 4%nat. split; [lia|]. split; [done|]. cbn. lia.
  - exists 3%nat. split; [lia|]. split; [done|]. cbn. lia.
  - exists 2%nat. split; [lia|]. split; [done|]. cbn. lia.
  - exists 1%nat. split; [lia|]. split; [done|]. cbn. lia.
Qed.

(** ** Rounding *)

Definition digit_ok (c : ascii) : Prop := isdigit c = true.

Lemma digit_char_digit d : digit_char d = digit d.
Proof. reflexivity. Qed.

Lemma byteZ_digit d : 0 ≤ d ≤ 9 → byteZ (digit d) = 48 + d.
Proof. intros. unfold digit. change (byteZ "0") with 48. rewrite byteZ_Zbyte, Z.mod_small; lia. Qed.

Lemma last_char_snoc buf c : last_char (buf ++ [c]) = c.
Proof. unfold last_char. by rewrite last_snoc. Qed.

Lemma decrement_last_snoc buf d : 1 ≤ d ≤ 9 → decrement_last (buf ++ [digit d]) = buf ++ [digit (d - 1)].
Proof.
  intros Hd. unfold decrement_last. rewrite last_char_snoc, removelast_last, byteZ_digit by lia. unfold digit.
  change (byteZ "0") with 48. do 3 f_equal. lia.
Qed.

(** The last digit stays positive: the number with one digit less is too far away. *)
Lemma round_loop_spec fuel buf d dist delta rest ten_k :
  1 ≤ d ≤ 9 → 0 ≤ rest ≤ delta → delta < 2 ^ 64 → 0 < ten_k → delta < rest + d * ten_k → d ≤ Z.of_nat fuel →
  ∃ d', 1 ≤ d' ≤ d ∧ round_loop fuel (buf ++ [digit d]) dist delta rest ten_k = GOk (buf ++ [digit d']) ∧
    rest + (d - d') * ten_k ≤ delta.
Proof.
  revert d rest. induction fuel as [|fuel IH]; intros d rest Hd Hr Hdelta Hk Hfar Hf; [lia|].
  cbn [round_loop]. destruct (round_more dist delta rest ten_k) eqn:Em.
  - unfold round_more in Em. rewrite (wrap_small 64 (delta - rest)) in Em by lia.
    apply andb_true_iff in Em as [Em _]. split_bools.
    assert (d ≠ 1) by nia. rewrite last_char_snoc, bool_decide_eq_true_2.
    2:{ intros E. apply (f_equal byteZ) in E. rewrite byteZ_digit in E by lia. change (byteZ "0") with 48 in E. lia. }
    cbn [JSON_ASSERT mbind gres_bind]. rewrite decrement_last_snoc, wrap_small by lia.
    destruct (IH (d - 1) (rest + ten_k)) as (d' & Hd' & Hl & Hb); [lia|lia|lia|lia|nia|lia|].
    exists d'. split; [lia|]. split; [done|nia].
  - exists d. split; [lia|]. split; [done|nia].
Qed.

Lemma grisu2_round_spec buf d dist delta rest ten_k :
  1 ≤ d ≤ 9 → 0 ≤ rest ≤ delta → delta < 2 ^ 64 → dist ≤ delta → 0 < ten_k → delta < rest + d * ten_k →
  ∃ d', 1 ≤ d' ≤ d ∧ grisu2_round (buf ++ [digit d]) dist delta rest ten_k = GOk (buf ++ [digit d']) ∧
    rest + (d - d') * ten_k ≤ delta.
Proof.
  intros. unfold grisu2_round. pose proof (blen_nonneg buf). rewrite blen_app.
  change (blen [digit d]) with 1. rewrite !(proj2 (Z.leb_le _ _)), (proj2 (Z.ltb_lt _ _)) by lia.
  cbn [JSON_ASSERT mbind gres_bind]. by apply round_loop_spec; try lia.
Qed.

(** ** The value of the digits *)

Lemma digits_val_snoc ds d : 0 ≤ d ≤ 9 → digits_val (ds ++ [digit d]) = 10 * digits_val ds + d.
Proof. intros. unfold digits_val. rewrite fold_left_app. cbn. rewrite <- digit_char_digit, digit_val_char by lia. lia. Qed.

Lemma digit_isdigit d : 0 ≤ d ≤ 9 → isdigit (digit d) = true.
Proof. intros. rewrite <- digit_char_digit. apply digit_char_isdigit. lia. Qed.

(** Digits, the first of which is not 0. *)
Definition number_digits (ds : bytes) : Prop := forallb isdigit ds = true ∧ ∃ d ds', ds = digit d :: ds' ∧ 1 ≤ d ≤ 9.

Lemma number_digits_snoc ds d :
  0 ≤ d ≤ 9 → (ds = [] ∧ 1 ≤ d ∨ number_digits ds) → number_digits (ds ++ [digit d]).
Proof.
  intros Hd [[-> Hd1]|[Hf (c & ds' & -> & Hc)]].
  - split; [cbn; by rewrite digit_isdigit|]. exists d, []. split; [done|lia].
  - split; [rewrite forallb_app, Hf; cbn; by rewrite digit_isdigit|]. by exists c, (ds' ++ [digit d]).
Qed.

(** ** The loops *)

Lemma pow10_pos n : 0 ≤ n → 0 < 10 ^ n.
Proof. intros. apply Z.pow_pos_nonneg; lia. Qed.

Section generation.
Context (shift : Z).
Hypothesis Hshift : 32 ≤ shift ≤ 60.

Lemma one_pos : 0 < 2 ^ shift.
Proof. apply Z.pow_pos_nonneg; lia. Qed.

Lemma integral_digits_spec (M p2 delta dist : Z) n buf p1 pow10 :
  0 ≤ p2 < 2 ^ shift → M < 2 ^ 64 → dist ≤ delta → 0 ≤ delta →
  (n ≠ O → pow10 = 10 ^ (Z.of_nat n - 1)) → 0 ≤ p1 < 10 ^ Z.of_nat n →
  M = digits_val buf * 10 ^ Z.of_nat n * 2 ^ shift + (p1 * 2 ^ shift + p2) → 0 ≤ digits_val buf →
  delta < p1 * 2 ^ shift + p2 →
  (buf = [] ∧ (1 ≤ n)%nat ∧ 10 ^ (Z.of_nat n - 1) ≤ p1) ∨ number_digits buf →
  (∃ ds n' rest, integral_digits n buf p1 p2 pow10 shift dist delta = GOk (inl (ds, n')) ∧ (n' < n)%nat ∧
     number_digits ds ∧ length ds = (length buf + (n - n'))%nat ∧
     M = digits_val ds * 10 ^ Z.of_nat n' * 2 ^ shift + rest ∧ 0 ≤ rest ≤ delta ∧ delta < 10 ^ (Z.of_nat n' + 1) * 2 ^ shift) ∨
  (∃ ds, integral_digits n buf p1 p2 pow10 shift dist delta = GOk (inr ds) ∧ number_digits ds ∧
     length ds = (length buf + n)%nat ∧ M = digits_val ds * 2 ^ shift + p2 ∧ delta < p2 ∧ 0 ≤ digits_val ds).
Proof.
  intros Hp2 HM Hdist Hdelta. revert buf p1 pow10. pose proof one_pos as H1.
  induction n as [|n IH]; intros buf p1 pow10 Hpow Hp1 EM HB Hfar Hbuf.
  { right. exists buf. cbn in Hp1. assert (p1 = 0) as -> by lia. cbn [integral_digits]. split; [done|].
    destruct Hbuf as [(_ & ? & _)|?]; [lia|]. split; [done|]. split; [lia|]. cbn in EM. split; [lia|]. split; lia. }
  cbn [integral_digits]. rewrite Hpow by lia. replace (Z.of_nat (S n) - 1) with (Z.of_nat n) in * by lia.
  rewrite Nat2Z.inj_succ, Z.pow_succ_r in * by lia. pose proof (pow10_pos (Z.of_nat n) ltac:(lia)) as Hten.
  set (ten := 10 ^ Z.of_nat n) in *.
  pose proof (Z.div_mod p1 ten ltac:(lia)) as Ediv. pose proof (Z.mod_pos_bound p1 ten Hten) as Hr.
  set (d := p1 / ten) in *. set (r := p1 mod ten) in *.
  assert (0 ≤ d ≤ 9) as Hd by nia.
  assert (0 ≤ r * 2 ^ shift) as Hrpos by nia.
  assert (M = (10 * digits_val buf + d) * ten * 2 ^ shift + (r * 2 ^ shift + p2)) as EM'.
  { rewrite EM, Ediv. ring. }
  assert (r * 2 ^ shift + p2 < 2 ^ 64) as Hsmall.
  { assert (0 ≤ (10 * digits_val buf + d) * ten * 2 ^ shift); [|lia]. repeat apply Z.mul_nonneg_nonneg; lia. }
  rewrite (proj2 (Z.leb_le d 9)) by lia. cbn [JSON_ASSERT mbind gres_bind]. rewrite (shiftl_mul r) by lia.
  rewrite (wrap_small 64 (r * 2 ^ shift)), (wrap_small 64 (r * 2 ^ shift + p2)) by lia.
  change (Zbyte (byteZ "0" + d)) with (digit d).
  destruct (Z.leb_spec (r * 2 ^ shift + p2) delta) as [Hstop|Hgo].
  - left. assert (d ≠ 0) as Hd0 by (intros E; rewrite E in *; nia).
    assert (delta < r * 2 ^ shift + p2 + d * (ten * 2 ^ shift)) as Hfar'.
    { replace (r * 2 ^ shift + p2 + d * (ten * 2 ^ shift)) with (p1 * 2 ^ shift + p2) by (rewrite Ediv; ring). done. }
    assert (0 < ten * 2 ^ shift < 2 ^ 64) as Hulp.
    { split; [nia|]. assert (0 ≤ 10 * digits_val buf * ten * 2 ^ shift) by (repeat apply Z.mul_nonneg_nonneg; lia). nia. }
    rewrite (shiftl_mul ten), wrap_small by lia.
    destruct (grisu2_round_spec buf d dist delta (r * 2 ^ shift + p2) (ten * 2 ^ shift)) as (d' & Hd' & -> & Hrest); [lia..|].
    cbn [mbind gres_bind]. exists (buf ++ [digit d']), n, (r * 2 ^ shift + p2 + (d - d') * (ten * 2 ^ shift)).
    split; [done|]. split; [lia|]. split; [|split; [rewrite length_app; cbn; lia|split; [|split; [split; [|done]|]]]].
    + apply number_digits_snoc; [lia|]. destruct Hbuf as [(-> & _)|?]; [left; split; [done|lia]|by right].
    + rewrite digits_val_snoc by lia. fold ten. rewrite EM'. ring.
    + apply Z.add_nonneg_nonneg; [lia|]. apply Z.mul_nonneg_nonneg; lia.
    + rewrite Z.pow_add_r by lia. fold ten. change (10 ^ 1) with 10. eapply Z.lt_le_trans; [exact Hfar|].
      assert (p1 + 1 ≤ ten * 10) by lia. nia.
  - destruct (IH (buf ++ [digit d]) r (ten / 10)) as [(ds & n' & rest & -> & Hn & Hds & Hl & Hrest)|(ds & -> & Hds & Hl & Hrest)].
    + intros Hn. unfold ten. replace (Z.of_nat n) with (Z.of_nat n - 1 + 1) at 1 by lia.
      rewrite Z.pow_add_r, Z.div_mul by lia. done.
    + done.
    + rewrite digits_val_snoc by lia. done.
    + rewrite digits_val_snoc by lia. lia.
    + done.
    + right. apply number_digits_snoc; [lia|]. destruct Hbuf as [(-> & _ & Hge)|?]; [left; split; [done|nia]|by right].
    + left. exists ds, n', rest. split; [done|]. split; [lia|]. split; [done|]. rewrite length_app in Hl. cbn in Hl. split; [lia|done].
    + right. exists ds. split; [done|]. split; [done|]. rewrite length_app in Hl. cbn in Hl. split; [lia|done].
Qed.

Lemma fraction_digits_spec fuel buf m p2 delta dist :
  0 ≤ p2 < 2 ^ shift → 0 ≤ dist ≤ delta → delta < p2 → 10 ^ 19 ≤ delta * 10 ^ Z.of_nat fuel →
  number_digits buf → 0 ≤ digits_val buf →
  ∃ ds j rest, fraction_digits fuel buf m p2 (2 ^ shift) shift dist delta = GOk (ds, m + j) ∧ 1 ≤ j ∧
    number_digits ds ∧ blen ds = blen buf + j ∧
    (digits_val buf * 2 ^ shift + p2) * 10 ^ j = digits_val ds * 2 ^ shift + rest ∧ 0 ≤ rest ≤ delta * 10 ^ j ∧
    delta * 10 ^ (j - 1) < 2 ^ shift.
Proof.
  pose proof one_pos as H1. assert (2 ^ shift ≤ 2 ^ 60) as Hone by (apply Z.pow_le_mono_r; lia).
  revert buf m p2 delta dist. induction fuel as [|fuel IH]; intros buf m p2 delta dist Hp2 Hdist Hfar Hf Hbuf HB.
  { exfalso. cbn in Hf. lia. }
  cbn [fraction_digits]. change ((2 ^ 64 - 1) / 10) with 1844674407370955161.
  rewrite (proj2 (Z.leb_le p2 _)) by lia. cbn [JSON_ASSERT mbind gres_bind].
  rewrite (wrap_small 64 (p2 * 10)), (wrap_small 64 (delta * 10)), (wrap_small 64 (dist * 10)) by lia.
  rewrite Z.shiftr_div_pow2 by lia. rewrite Z.sub_1_r, <- Z.ones_equiv, Z.land_ones by lia.
  pose proof (Z.div_mod (p2 * 10) (2 ^ shift) ltac:(lia)) as Ediv. pose proof (Z.mod_pos_bound (p2 * 10) (2 ^ shift) H1) as Hr.
  set (d := p2 * 10 / 2 ^ shift) in *. set (r := (p2 * 10) mod 2 ^ shift) in *.
  assert (0 ≤ d ≤ 9) as Hd by nia.
  rewrite (proj2 (Z.leb_le d 9)) by lia. cbn [JSON_ASSERT mbind gres_bind].
  change (Zbyte (byteZ "0" + d)) with (digit d).
  assert ((digits_val buf * 2 ^ shift + p2) * 10 = (10 * digits_val buf + d) * 2 ^ shift + r) as EM by lia.
  destruct (Z.leb_spec r (delta * 10)) as [Hstop|Hgo].
  - assert (d ≠ 0) as Hd0 by (intros E; rewrite E in *; lia).
    destruct (grisu2_round_spec buf d (dist * 10) (delta * 10) r (2 ^ shift)) as (d' & Hd' & -> & Hrest); [lia..|].
    cbn [mbind gres_bind]. exists (buf ++ [digit d']), 1, (r + (d - d') * 2 ^ shift).
    split; [done|]. split; [lia|]. split; [apply number_digits_snoc; [lia|by right]|]. split; [rewrite blen_app; done|].
    rewrite digits_val_snoc by lia. change (10 ^ 1) with 10. split; [rewrite EM; ring|]. split; [|cbn; lia]. split; [|done].
    apply Z.add_nonneg_nonneg; [lia|]. apply Z.mul_nonneg_nonneg; lia.
  - destruct (IH (buf ++ [digit d]) (m + 1) r (delta * 10) (dist * 10)) as (ds & j & rest & -> & Hj & Hds & Hl & E & Hrest & Hd1).
    + lia.
    + lia.
    + lia.
    + rewrite Nat2Z.inj_succ, Z.pow_succ_r in Hf by lia. lia.
    + apply number_digits_snoc; [lia|by right].
    + rewrite digits_val_snoc by lia. lia.
    + exists ds, (j + 1), rest. rewrite digits_val_snoc in E by lia. rewrite blen_app in Hl. change (blen [digit d]) with 1 in Hl.
      split; [do 2 f_equal; lia|]. split; [lia|]. split; [done|]. split; [lia|].
      rewrite Z.pow_add_r by lia. change (10 ^ 1) with 10.
      split; [rewrite (Z.mul_comm (10 ^ j)), Z.mul_assoc, EM; exact E|]. split; [lia|].
      replace (j + 1 - 1) with (j - 1 + 1) by lia. rewrite Z.pow_add_r by lia. lia.
Qed.
End generation.
