(* ===== verification/GrisuSpec.v ===== *)
(** * GrisuSpec: the digits of a double denote it

    [grisu2] fails no assertion and ends; its at most seventeen digits are nearer to the
    double than to any other one. *)

From Stdlib Require Import QArith Qpower Qabs Lqa.
From S2P Require Import Prelude CString Prog Grisu GrisuArith GrisuDigits.

#[local] Open Scope Z_scope.

(** ** [grisu2_digit_gen] *)

Lemma digit_gen_spec t shift m_minus m_w m_plus :
  32 ≤ shift ≤ 60 → 0 < m_minus ≤ m_w → m_w ≤ m_plus → m_minus < m_plus → 2 ^ 61 ≤ m_plus < 2 ^ 64 →
  ∃ ds a b rest,
    grisu2_digit_gen t (mkDiyfp m_minus (- shift)) (mkDiyfp m_w (- shift)) (mkDiyfp m_plus (- shift)) = GOk (ds, t + a - b) ∧
    0 ≤ a ≤ 10 ∧ 0 ≤ b ≤ blen ds ∧ number_digits ds ∧ m_plus * 10 ^ b = digits_val ds * 10 ^ a * 2 ^ shift + rest ∧
    0 ≤ rest ≤ (m_plus - m_minus) * 10 ^ b ∧ (2 ≤ blen ds → 10 ^ (blen ds - 2) * (m_plus - m_minus) < m_plus).
Proof.
  intros Hs Hm Hw Hlt Hp. assert (0 < 2 ^ shift ≤ 2 ^ 60) as H1.
  { split; [apply Z.pow_pos_nonneg; lia|apply Z.pow_le_mono_r; lia]. }
  unfold grisu2_digit_gen, sub, kAlpha, kGamma. cbn [f e].
  rewrite !(proj2 (Z.leb_le _ _)), !Z.eqb_refl by lia. cbn [JSON_ASSERT mbind gres_bind f e].
  rewrite !Z.opp_involutive, (wrap_small 64 (m_plus - m_minus)), (wrap_small 64 (m_plus - m_w)) by lia.
  rewrite shiftl_mul, Z.mul_1_l, (wrap_small 64 (2 ^ shift)) by lia.
  rewrite Z.shiftr_div_pow2 by lia. rewrite Z.sub_1_r, <- Z.ones_equiv, Z.land_ones by lia.
  pose proof (Z.div_mod m_plus (2 ^ shift) ltac:(lia)) as Ediv. pose proof (Z.mod_pos_bound m_plus (2 ^ shift) ltac:(lia)) as Hr.
  assert (0 < m_plus / 2 ^ shift < 2 ^ 32) as Hp1.
  { split; [apply Z.div_str_pos; lia|]. apply Z.div_lt_upper_bound; [lia|].
    assert (2 ^ 32 ≤ 2 ^ shift) by (apply Z.pow_le_mono_r; lia). nia. }
  rewrite (wrap_small 32) by lia. rewrite (proj2 (Z.ltb_lt 0 (m_plus / 2 ^ shift))) by lia. cbn [JSON_ASSERT mbind gres_bind].
  destruct (find_largest_pow10_spec _ Hp1) as (k & Hk & -> & Hlo & Hhi). rewrite Nat2Z.id.
  set (p1 := m_plus / 2 ^ shift) in *. set (p2 := m_plus mod 2 ^ shift) in *.
  assert (10 ^ (Z.of_nat k - 1) * 2 ^ shift ≤ m_plus) as Hlow by nia.
  destruct (integral_digits_spec shift Hs m_plus p2 (m_plus - m_minus) (m_plus - m_w) k [] p1 (10 ^ (Z.of_nat k - 1)))
    as [(ds & n & rest & -> & Hn & Hds & Hl & EM & Hrest & Hd)|(ds & -> & Hds & Hl & EM & Hfar & Hpos)];
    try (cbn; lia); cbn [mbind gres_bind].
  { left. split; [done|]. split; [lia|done]. }
  - exists ds, (Z.of_nat n), 0, rest. split; [do 2 f_equal; lia|]. split; [lia|]. split; [unfold blen in *; lia|]. split; [done|].
    rewrite Z.pow_0_r, !Z.mul_1_r. split; [exact EM|]. split; [exact Hrest|]. intros Hlen. cbn [length] in Hl.
    assert (10 ^ (blen ds - 2) * (10 ^ (Z.of_nat n + 1) * 2 ^ shift) = 10 ^ (Z.of_nat k - 1) * 2 ^ shift) as E.
    { rewrite Z.mul_assoc, <- Z.pow_add_r by lia. do 2 f_equal. unfold blen. lia. }
    eapply Z.lt_le_trans; [|rewrite <- E in Hlow; exact Hlow]. apply Z.mul_lt_mono_pos_l; [apply pow10_pos; lia|done].
  - rewrite (proj2 (Z.ltb_lt _ _)) by done. cbn [JSON_ASSERT mbind gres_bind].
    destruct (fraction_digits_spec shift Hs 19 ds 0 p2 (m_plus - m_minus) (m_plus - m_w))
      as (ds' & j & rest & -> & Hj & Hds' & Hl' & EM' & Hrest & Hd);
      [lia|lia|done|change (Z.of_nat 19) with 19; lia|done|done|].
    cbn [mbind gres_bind]. exists ds', 0, j, rest. split; [do 2 f_equal; lia|]. split; [lia|]. split; [unfold blen in *; lia|]. split; [done|].
    rewrite Z.pow_0_r, Z.mul_1_r. split; [by rewrite EM|]. split; [exact Hrest|]. intros Hlen. cbn [length] in Hl.
    assert (10 ^ (blen ds' - 2) = 10 ^ (Z.of_nat k - 1) * 10 ^ (j - 1)) as E.
    { rewrite <- Z.pow_add_r by lia. f_equal. unfold blen in *. lia. }
    eapply Z.lt_le_trans; [|exact Hlow]. rewrite E, <- Z.mul_assoc. apply Z.mul_lt_mono_pos_l; [apply pow10_pos; lia|lia].
Qed.

(** ** [grisu2] on boundaries *)

Lemma product_bounds x y :
  0 ≤ f x < 2 ^ 64 → 0 ≤ f y < 2 ^ 64 →
  f (mul x y) * 2 ^ 64 ≤ f x * f y + 2 ^ 63 < (f (mul x y) + 1) * 2 ^ 64 ∧ 0 ≤ f (mul x y) < 2 ^ 64.
Proof. intros Hx Hy. destruct (mul_spec x y Hx Hy) as (-> & _ & Hr). split; [dlia|done]. Qed.

(** A significand times a power of ten, and the rounded product with the cached power. *)
Lemma scaled_bounds h x c :
  0 < x < 2 ^ 64 → 2 * Z.abs (cached_f c * pow_den c - pow_num c) ≤ pow_den c →
  h * 2 ^ 64 ≤ x * cached_f c + 2 ^ 63 < (h + 1) * 2 ^ 64 →
  (h - 1) * 2 ^ 64 * pow_den c < x * pow_num c < (h + 1) * 2 ^ 64 * pow_den c.
Proof.
  intros Hx Hc Hh. pose proof (pow_den_pos c) as Hd. set (d := pow_den c) in *. set (n := pow_num c) in *. set (g := cached_f c) in *.
  assert (- d ≤ 2 * (g * d - n) ≤ d) as Hn by lia.
  assert (- (x * d) ≤ 2 * (x * g * d - x * n) ≤ x * d) as Hxn by (split; nia).
  assert (h * 2 ^ 64 * d ≤ (x * g + 2 ^ 63) * d < (h + 1) * 2 ^ 64 * d) as Hhd by (split; nia).
  assert (x * d < 2 ^ 64 * d) as Hxd by nia. split; nia.
Qed.

Lemma grisu2_boundaries_spec fm fv fp ew :
  -1137 ≤ ew ≤ 960 → 0 < fm → fm + 2 ^ 9 ≤ fv → fv + 2 ^ 10 ≤ fp → 2 ^ 63 ≤ fp < 2 ^ 64 → fp ≤ 2 ^ 53 * (fp - fm) →
  ∃ c ds a b, grisu2_boundaries (mkDiyfp fm ew) (mkDiyfp fv ew) (mkDiyfp fp ew) = GOk (ds, - cached_k c + a - b) ∧
    0 ≤ a ∧ 0 ≤ b ∧ -400 ≤ - cached_k c + a - b ≤ 400 ∧ number_digits ds ∧ blen ds ≤ 17 ∧ 0 ≤ - cached_e c - ew ∧
    fm * pow_num c * 10 ^ b < digits_val ds * 10 ^ a * 2 ^ (- cached_e c - ew) * pow_den c < fp * pow_num c * 10 ^ b.
Proof.
  intros He Hm Hmv Hvp Hp Hgap. destruct (get_cached_power_spec ew He) as (c & Hc & Hf & Hacc & Hexp & Hk).
  unfold grisu2_boundaries. cbn [e]. rewrite !Z.eqb_refl. cbn [JSON_ASSERT mbind gres_bind]. rewrite Hc. cbn [mbind gres_bind].
  set (C := mkDiyfp (cached_f c) (cached_e c)).
  destruct (product_bounds (mkDiyfp fm ew) C) as [Bm Rm]; [cbn; lia..|].
  destruct (product_bounds (mkDiyfp fv ew) C) as [Bv Rv]; [cbn; lia..|].
  destruct (product_bounds (mkDiyfp fp ew) C) as [Bp Rp]; [cbn; lia..|].
  assert (∀ x, e (mul (mkDiyfp x ew) C) = - - (cached_e c + ew + 64)) as Ee.
  { intros x. unfold mul, C. cbn [e]. lia. }
  rewrite !Ee. destruct (mul (mkDiyfp fv ew) C) as [hv ev] eqn:Ev. pose proof (Ee fv) as Ee'. rewrite Ev in Ee'. cbn in Ee'. subst ev.
  set (hm := f (mul (mkDiyfp fm ew) C)) in *. set (hp := f (mul (mkDiyfp fp ew) C)) in *. cbn [f e C] in *.
  set (g := cached_f c) in *.
  assert (hm + 255 ≤ hv ∧ hv + 511 ≤ hp ∧ 2 ^ 62 - 1 ≤ hp) as (Gm & Gp & Glow) .
  { assert (fm * g + 512 * 2 ^ 63 ≤ fv * g) by nia. assert (fv * g + 1024 * 2 ^ 63 ≤ fp * g) by nia.
    assert (2 ^ 63 * 2 ^ 63 ≤ fp * g) by nia. lia. }
  rewrite (wrap_small 64 (hm + 1)), (wrap_small 64 (hp - 1)) by lia.
  destruct (digit_gen_spec (- cached_k c) (- (cached_e c + ew + 64)) (hm + 1) hv (hp - 1)) as
    (ds & a & b & rest & -> & Ha & Hb & Hds & EM & Hrest & Hlen); [lia..|].
  assert (blen ds ≤ 17) as Hl17.
  { destruct (Z.le_gt_cases (blen ds) 17) as [|Hl]; [done|exfalso]. specialize (Hlen ltac:(lia)).
    pose proof (Z.pow_le_mono_r 10 16 (blen ds - 2) ltac:(lia) ltac:(lia)).
    assert (10 ^ 16 * (hp - 1 - (hm + 1)) < hp - 1) as Hcontra by nia.
    assert (fp * g ≤ 2 ^ 53 * ((fp - fm) * g)) by nia. assert (1536 * 2 ^ 63 ≤ (fp - fm) * g) by nia. lia. }
  exists c, ds, a, b. split; [done|]. do 2 (split; [lia|]). split; [lia|]. do 2 (split; [done|]). split; [lia|].
  pose proof (scaled_bounds hm fm c ltac:(lia) Hacc Bm) as Sm. pose proof (scaled_bounds hp fp c ltac:(lia) Hacc Bp) as Sp.
    pose proof (pow10_pos b ltac:(lia)) as Hten. pose proof (pow_den_pos c) as Hd.
    replace (- cached_e c - ew) with (- (cached_e c + ew + 64) + 64) by lia. rewrite Z.pow_add_r by lia.
    set (V := digits_val ds * 10 ^ a * 2 ^ (- (cached_e c + ew + 64))) in *.
    replace (digits_val ds * 10 ^ a * (2 ^ (- (cached_e c + ew + 64)) * 2 ^ 64) * pow_den c) with (V * (2 ^ 64 * pow_den c)) by (unfold V; ring).
    assert ((hm + 1) * 10 ^ b ≤ V ≤ (hp - 1) * 10 ^ b) as HV by (split; lia).
    set (D := 2 ^ 64 * pow_den c) in *. assert (0 < D) by (unfold D; lia).
    split.
    + apply Z.lt_le_trans with ((hm + 1) * 10 ^ b * D); [|apply Z.mul_le_mono_nonneg_r; lia].
      replace ((hm + 1) * 10 ^ b * D) with ((hm + 1) * 2 ^ 64 * pow_den c * 10 ^ b) by (unfold D; ring).
      apply Z.mul_lt_mono_pos_r; lia.
    + apply Z.le_lt_trans with ((hp - 1) * 10 ^ b * D); [apply Z.mul_le_mono_nonneg_r; lia|].
      replace ((hp - 1) * 10 ^ b * D) with ((hp - 1) * 2 ^ 64 * pow_den c * 10 ^ b) by (unfold D; ring).
      apply Z.mul_lt_mono_pos_r; lia.
Qed.

(** ** Doubles and decimals as rational numbers *)

#[local] Open Scope Q_scope.
(** [2^n] and [10^n]. *)
Definition two_to (n : Z) : Q := Qpower (inject_Z 2) n.
Definition ten_to (n : Z) : Q := Qpower (inject_Z 10) n.

(** The double with the bits [b]. *)
Definition double_value (b : Z) : Q := inject_Z (significand b) * two_to (exponent b).

(** The digits [ds], scaled. *)
Definition decimal_value (ds : bytes) (t : Z) : Q := inject_Z (digits_val ds) * ten_to t.

Lemma two_to_pos n : 0 < two_to n.
Proof. by apply Qpower_0_lt. Qed.

Lemma ten_to_pos n : 0 < ten_to n.
Proof. by apply Qpower_0_lt. Qed.

Lemma two_to_add n m : two_to (n + m) == two_to n * two_to m.
Proof. by apply Qpower_plus. Qed.

Lemma ten_to_add n m : ten_to (n + m) == ten_to n * ten_to m.
Proof. by apply Qpower_plus. Qed.

Lemma two_to_Z n : (0 <= n)%Z → inject_Z (2 ^ n)%Z == two_to n.
Proof. apply Zpower_Qpower. Qed.

Lemma ten_to_Z n : (0 <= n)%Z → inject_Z (10 ^ n)%Z == ten_to n.
Proof. apply Zpower_Qpower. Qed.

(** [pow_num] and [pow_den] are the numerator and the denominator of [10^k / 2^e]. *)
Lemma pow_ratio c : inject_Z (pow_num c) * two_to (cached_e c) == ten_to (cached_k c) * inject_Z (pow_den c).
Proof.
  unfold pow_num, pow_den. rewrite !inject_Z_mult, !two_to_Z, !ten_to_Z by lia.
  assert (ten_to (Z.max (cached_k c) 0) == ten_to (cached_k c) * ten_to (Z.max (- cached_k c) 0)) as ->.
  { rewrite <- ten_to_add. by replace (cached_k c + Z.max (- cached_k c) 0)%Z with (Z.max (cached_k c) 0) by lia. }
  assert (two_to (Z.max (cached_e c) 0) == two_to (cached_e c) * two_to (Z.max (- cached_e c) 0)) as ->.
  { rewrite <- two_to_add. by replace (cached_e c + Z.max (- cached_e c) 0)%Z with (Z.max (cached_e c) 0) by lia. }
  ring.
Qed.

(** The bounds of the digits, without the cached power. *)
Lemma decimal_scaled c ds a b ew x :
  (0 <= a → 0 <= b → 0 <= - cached_e c - ew)%Z →
  (0 <= a)%Z → (0 <= b)%Z →
  let z := inject_Z (pow_den c) * ten_to (cached_k c + b) * two_to (- cached_e c - ew) in
  decimal_value ds (- cached_k c + a - b) * z == inject_Z (digits_val ds * 10 ^ a * 2 ^ (- cached_e c - ew) * pow_den c)%Z ∧
  inject_Z x * two_to ew * z == inject_Z (x * pow_num c * 10 ^ b)%Z ∧ 0 < z.
Proof.
  intros Hn Ha Hb z. specialize (Hn Ha Hb). split; [|split].
  - unfold decimal_value, z. rewrite !inject_Z_mult, two_to_Z, ten_to_Z by lia.
    assert (ten_to a == ten_to (- cached_k c + a - b) * ten_to (cached_k c + b)) as ->.
    { rewrite <- ten_to_add. by replace (- cached_k c + a - b + (cached_k c + b))%Z with a by lia. }
    ring.
  - unfold z. rewrite !inject_Z_mult, ten_to_Z by lia.
    assert (ten_to (cached_k c + b) == ten_to (cached_k c) * ten_to b) as -> by apply ten_to_add.
    assert (inject_Z (pow_num c) == ten_to (cached_k c) * inject_Z (pow_den c) * two_to (- cached_e c)) as ->.
    { rewrite <- pow_ratio, <- Qmult_assoc, <- two_to_add.
      replace (cached_e c + - cached_e c)%Z with 0%Z by lia. change (two_to 0) with 1. ring. }
    assert (two_to (- cached_e c) == two_to ew * two_to (- cached_e c - ew)) as ->.
    { rewrite <- two_to_add. by replace (ew + (- cached_e c - ew))%Z with (- cached_e c)%Z by lia. }
    ring.
  - unfold z. assert (0 < inject_Z (pow_den c)) by (change 0 with (inject_Z 0); rewrite <- Zlt_Qlt; apply pow_den_pos).
    pose proof (ten_to_pos (cached_k c + b)). pose proof (two_to_pos (- cached_e c - ew)).
    by repeat apply Qmult_lt_0_compat.
Qed.

Lemma decimal_between c ds a b ew fm fp :
  (0 <= a)%Z → (0 <= b)%Z → (0 <= - cached_e c - ew)%Z →
  (fm * pow_num c * 10 ^ b < digits_val ds * 10 ^ a * 2 ^ (- cached_e c - ew) * pow_den c < fp * pow_num c * 10 ^ b)%Z →
  inject_Z fm * two_to ew < decimal_value ds (- cached_k c + a - b) < inject_Z fp * two_to ew.
Proof.
  intros Ha Hb Hn [Hlo Hhi]. rewrite Zlt_Qlt in Hlo, Hhi.
  destruct (decimal_scaled c ds a b ew fm ltac:(done) Ha Hb) as (Ed & Em & Hz).
  destruct (decimal_scaled c ds a b ew fp ltac:(done) Ha Hb) as (_ & Ep & _).
  split; (eapply Qmult_lt_r; [exact Hz|]).
  - by rewrite Em, Ed.
  - by rewrite Ed, Ep.
Qed.

(** ** Neighbouring doubles *)

(** Where the doubles with the bits [b] and [c] are equally near. *)
Definition midpoint (b c : Z) : Q := (double_value b + double_value c) * (1 # 2).

Lemma two_to_succ n : two_to (n + 1) == two_to n * inject_Z 2.
Proof. by rewrite two_to_add. Qed.

Lemma two_to_half n : two_to n == two_to (n - 1) * inject_Z 2.
Proof. rewrite <- two_to_succ. by replace (n - 1 + 1)%Z with n by lia. Qed.

(** The next double, with the exponent of this one. *)
Lemma double_value_succ b : (0 <= b)%Z → double_value (b + 1) == double_value b + two_to (exponent b).
Proof.
  intros Hb. unfold double_value.
  assert ((significand (b + 1) = significand b + 1 ∧ exponent (b + 1) = exponent b ∨
    significand (b + 1) = 2 ^ 52 ∧ significand b = 2 ^ 53 - 1 ∧ exponent (b + 1) = exponent b + 1)%Z) as [[-> ->]|(-> & -> & ->)].
  { unfold significand, exponent. destruct (Z.eqb_spec ((b + 1) / 2 ^ 52) 0), (Z.eqb_spec (b / 2 ^ 52) 0); dlia. }
  - rewrite inject_Z_plus. change (inject_Z 1) with 1. ring.
  - rewrite two_to_succ. change (inject_Z (2 ^ 52)) with (inject_Z 4503599627370496).
    change (inject_Z (2 ^ 53 - 1)) with (inject_Z 9007199254740991). unfold inject_Z. ring.
Qed.

Lemma double_value_lt b c : (0 <= b < c)%Z → double_value b < double_value c.
Proof.
  intros [Hb Hc]. replace c with (b + 1 + Z.of_nat (Z.to_nat (c - b - 1)))%Z by lia.
  induction (Z.to_nat (c - b - 1)) as [|n IH].
  - rewrite Z.add_0_r, double_value_succ by lia. pose proof (two_to_pos (exponent b)). lra.
  - rewrite Nat2Z.inj_succ. replace (b + 1 + Z.succ (Z.of_nat n))%Z with (b + 1 + Z.of_nat n + 1)%Z by lia.
    rewrite double_value_succ by lia. pose proof (two_to_pos (exponent (b + 1 + Z.of_nat n))). lra.
Qed.

Lemma double_value_le b c : (0 <= b <= c)%Z → double_value b <= double_value c.
Proof. intros H. destruct (Z.eq_dec b c) as [->|]; [lra|]. apply Qlt_le_weak, double_value_lt. lia. Qed.

(** What lies between the midpoints around [b] is nearest to [b]. *)
Lemma nearest_between b c x :
  (0 < b)%Z → (0 <= c)%Z → b ≠ c → midpoint (b - 1) b < x < midpoint b (b + 1) →
  Qabs (x - double_value b) < Qabs (x - double_value c).
Proof.
  unfold midpoint. intros Hb Hc Hne [Hlo Hhi].
  destruct (Z.lt_ge_cases b c) as [Hlt|Hge].
  - pose proof (double_value_le (b + 1) c ltac:(lia)). pose proof (double_value_lt (b - 1) b ltac:(lia)).
    pose proof (double_value_lt b (b + 1) ltac:(lia)).
    do 2 apply Qabs_case; intros; lra.
  - pose proof (double_value_le c (b - 1) ltac:(lia)). pose proof (double_value_lt (b - 1) b ltac:(lia)).
    pose proof (double_value_lt b (b + 1) ltac:(lia)).
    do 2 apply Qabs_case; intros; lra.
Qed.

(** The boundaries of [compute_boundaries] are the midpoints. *)
Lemma upper_boundary b s :
  (0 < b)%Z → (1 <= s)%Z →
  inject_Z ((2 * significand b + 1) * 2 ^ (s - 1)) * two_to (exponent b - s) == midpoint b (b + 1).
Proof.
  intros Hb Hs. unfold midpoint. rewrite double_value_succ by lia. unfold double_value.
  rewrite inject_Z_mult, two_to_Z, <- Qmult_assoc, <- two_to_add by lia.
  replace (s - 1 + (exponent b - s))%Z with (exponent b - 1)%Z by lia.
  rewrite inject_Z_plus, inject_Z_mult, (two_to_half (exponent b)). change (inject_Z 1) with 1. change (inject_Z 2) with 2. ring.
Qed.

Lemma lower_boundary b s :
  finite_positive b → (2 <= s)%Z →
  inject_Z (if closer b then (4 * significand b - 1) * 2 ^ (s - 2) else (2 * significand b - 1) * 2 ^ (s - 1)) * two_to (exponent b - s)
    == midpoint (b - 1) b.
Proof.
  intros Hb Hs. unfold midpoint. assert (double_value b == double_value (b - 1) + two_to (exponent (b - 1))) as E.
  { rewrite <- double_value_succ by (unfold finite_positive in Hb; lia). by replace (b - 1 + 1)%Z with b by lia. }
  assert (double_value (b - 1) == double_value b - two_to (exponent (b - 1))) as -> by lra. clear E. unfold double_value.
  assert (exponent (b - 1) = if closer b then exponent b - 1 else exponent b)%Z as ->.
  { unfold finite_positive in Hb. unfold exponent, closer. destruct (Z.eqb_spec (b mod 2 ^ 52) 0), (Z.ltb_spec 1 (b / 2 ^ 52)); cbn [andb]; dlia. }
  destruct (closer b).
  - rewrite inject_Z_mult, two_to_Z, <- Qmult_assoc, <- two_to_add by lia.
    replace (s - 2 + (exponent b - s))%Z with (exponent b - 1 - 1)%Z by lia.
    rewrite (two_to_half (exponent b)), (two_to_half (exponent b - 1)). unfold Z.sub at 1. rewrite inject_Z_plus, inject_Z_mult.
    change (inject_Z 4) with 4. change (inject_Z (-(1))) with (-(1)). change (inject_Z 2) with 2. ring.
  - rewrite inject_Z_mult, two_to_Z, <- Qmult_assoc, <- two_to_add by lia.
    replace (s - 1 + (exponent b - s))%Z with (exponent b - 1)%Z by lia.
    rewrite (two_to_half (exponent b)). unfold Z.sub at 1. rewrite inject_Z_plus, inject_Z_mult.
    change (inject_Z (-(1))) with (-(1)). change (inject_Z 2) with 2. ring.
Qed.

(** What [grisu2] gives for a finite positive double. *)
Lemma grisu2_spec b :
  finite_positive b →
  ∃ ds t, grisu2 b = GOk (ds, t) ∧ number_digits ds ∧ (blen ds <= 17)%Z ∧ (-400 <= t <= 400)%Z ∧
    midpoint (b - 1) b < decimal_value ds t < midpoint b (b + 1).
Proof.
  intros Hb. destruct (compute_boundaries_spec b Hb) as (s & Ebd & Hs & Hv & Hp).
  destruct (significand_range b Hb) as (Hsig & He & Hc).
  unfold grisu2. destruct (finite_spec b Hb) as [-> ->]. cbn [JSON_ASSERT mbind gres_bind]. rewrite Ebd. cbn [mbind gres_bind minus w plus].
  pose proof (Z.pow_le_mono_r 2 9 (s - 2) ltac:(lia) ltac:(lia)) as Hpow.
  assert (2 ^ (s - 1) = 2 * 2 ^ (s - 2))%Z as E1 by (rewrite <- Z.pow_succ_r by lia; f_equal; lia).
  assert (2 ^ s = 4 * 2 ^ (s - 2))%Z as E2 by (replace s with (Z.succ (Z.succ (s - 2))) at 1 by lia; rewrite !Z.pow_succ_r by lia; lia).
  pose proof (upper_boundary b s ltac:(unfold finite_positive in Hb; lia) ltac:(lia)) as Eup.
  pose proof (lower_boundary b s Hb ltac:(lia)) as Elow.
  edestruct grisu2_boundaries_spec as (k & ds & a & d & -> & Ha & Hd & Ht & Hds & Hlen & Hn & Hbounds);
    [..|exists ds, (- cached_k k + a - d)%Z]; [lia|destruct (closer b); nia..|destruct (closer b); [rewrite Hc by done; nia|nia]|].
  do 4 (split; [done|]).
  rewrite <- Eup, <- Elow. apply decimal_between; [lia..|exact Hbounds].
Qed.

(** C32 (functional): for every finite positive double, [grisu2] fails no assertion and ends,
    and gives at most seventeen digits and a decimal exponent whose value is nearer to that
    double than to every other one, so that reading it back with rounding to nearest gives
    the double again.  (The value for the bits [2047 * 2^52] is [2^1024], from whose
    midpoint on a number is rounded to infinity.) *)
Theorem grisu2_correct b :
  finite_positive b →
  ∃ ds t, grisu2 b = GOk (ds, t) ∧ number_digits ds ∧ (blen ds <= 17)%Z ∧
    ∀ c, (0 <= c <= 2047 * 2 ^ 52)%Z → c ≠ b →
      Qabs (decimal_value ds t - double_value b) < Qabs (decimal_value ds t - double_value c).
Proof.
  intros Hb. destruct (grisu2_spec b Hb) as (ds & t & Hg & Hds & Hlen & _ & Hx). exists ds, t. do 3 (split; [done|]).
  intros c Hc Hne. apply nearest_between; [unfold finite_positive in Hb; lia|lia|done|exact Hx].
Qed.

Lemma grisu2_correct_witness :
  finite_positive 0x3FB999999999999A ∧
  ∃ ds t, grisu2 0x3FB999999999999A = GOk (ds, t) ∧ ds = b#"1" ∧ t = (-1)%Z.
Proof.
  assert (finite_positive 0x3FB999999999999A) as H by (unfold finite_positive; lia). split; [done|].
  destruct (grisu2_correct 0x3FB999999999999A H) as (ds & t & E & _). exists ds, t. split; [done|].
  vm_compute in E. injection E as <- <-. done.
Defined.
