(* ===== verification/GrisuText.v ===== *)
(** * GrisuText: the text of a floating-point number

    [dump_float] ([include/nlohmann/json.hpp], class [serializer]) on the bits of a double,
    and its text: the lexer reads it as one floating-point literal, and the value of that
    literal is nearer to the number that was written than to any other. *)

From Stdlib Require Import QArith Qpower Qabs Lqa.
From S2P Require Import Prelude CString Prog JsonValue JsonLexer JsonDump JsonNumbers Grisu GrisuArith GrisuDigits GrisuSpec.

#[local] Open Scope Z_scope.

(** [dump_float]: infinities and NaNs are written as [null]; [number_buffer] holds 64
    characters. *)
Definition dump_float (x : Z) : gres bytes :=
  if negb (isfinite x) then GOk b#"null" else to_chars 64 x.

(** ** Number literals *)

(** The parts of a literal: digits, fraction, and sign and digits of the exponent. *)
Definition number_text (i fr : bytes) (ex : option (bool * bytes)) : bytes :=
  i ++ match fr with [] => [] | _ => b#"." ++ fr end ++
  match ex with Some (neg, ds) => b#"e" ++ (if neg then b#"-" else b#"+") ++ ds | None => [] end.

Definition exponent_value (ex : option (bool * bytes)) : Z :=
  match ex with Some (neg, ds) => if neg : bool then - digits_val ds else digits_val ds | None => 0 end.

(** The number a literal without a sign denotes, by the grammar of JSON numbers. *)
Definition unsigned_value (l : bytes) : Q :=
  let '(i, l) := span isdigit l in
  let '(fr, l) :=
    match l with c :: l' => if bool_decide (c = "."%char) then span isdigit l' else ([], l) | [] => ([], []) end in
  let exp :=
    match l with
    | _ :: c :: l' => if bool_decide (c = "-"%char) then - digits_val l'
                      else if bool_decide (c = "+"%char) then digits_val l' else digits_val (c :: l')
    | _ => 0
    end in
  (inject_Z (digits_val (i ++ fr)) * ten_to (exp - blen fr))%Q.

Definition literal_value (l : bytes) : Q :=
  match l with
  | c :: l' => if bool_decide (c = "-"%char) then (- unsigned_value l')%Q else unsigned_value l
  | [] => unsigned_value []
  end.

Example literal_value_1 : (literal_value b#"-12.5e-1" == - (125 # 100))%Q.
Proof. reflexivity. Qed.

(** What follows the digits of a number does not start with a digit. *)
Definition no_digit (r : bytes) : Prop := ∀ c r', r = c :: r' → isdigit c = false.

Lemma unsigned_value_text i fr ex :
  forallb isdigit i = true → forallb isdigit fr = true →
  (unsigned_value (number_text i fr ex) == inject_Z (digits_val (i ++ fr)) * ten_to (exponent_value ex - blen fr))%Q.
Proof.
  intros Hi Hf. unfold unsigned_value, number_text.
  set (x := match ex with Some _ => _ | None => _ end).
  assert (no_digit x) as Hx.
  { unfold x. intros c r' Hr. destruct ex as [[neg ds]|]; [|done]. by injection Hr as <- _. }
  assert (match x with
    | _ :: c :: l' => if bool_decide (c = "-"%char) then - digits_val l'
                      else if bool_decide (c = "+"%char) then digits_val l' else digits_val (c :: l')
    | _ => 0 end = exponent_value ex) as Ex.
  { unfold x. destruct ex as [[[] ds]|]; reflexivity. }
  rewrite span_all; [|done|].
  - destruct fr as [|d fr].
    + cbn [app]. destruct x as [|c x'] eqn:E; [by rewrite <- Ex|].
      assert (c ≠ "."%char) as Hc.
      { subst x. destruct ex as [[neg ds]|]; [|done]. by injection E as <- _. }
      rewrite bool_decide_eq_false_2 by done. by rewrite <- Ex.
    + change ((b#"." ++ d :: fr) ++ x) with ("."%char :: (d :: fr) ++ x). cbn iota.
      rewrite bool_decide_eq_true_2 by done. rewrite (span_all isdigit (d :: fr)) by done. by rewrite <- Ex.
  - destruct fr; [exact Hx|]. intros c r' [= <- _]. done.
Qed.

(** ** Reading a literal *)

Definition int_state (st : number_state) : bool :=
  match st with NZero | NAny1 => true | _ => false end.
Definition exp_state (st : number_state) : bool :=
  match st with NZero | NAny1 | NDecimal2 => true | _ => false end.
Definition end_state (st : number_state) : bool :=
  match st with NZero | NAny1 | NDecimal2 | NAny2 => true | _ => false end.
Definition digit_state (st : number_state) : bool :=
  match st with NAny1 | NDecimal2 | NAny2 => true | _ => false end.

Lemma loop_step st st' ty buf c s :
  number_step st (Some c) = NGoto st' → number_loop st ty buf (c :: s) = number_loop st' (number_type_at st ty) (buf ++ [c]) s.
Proof. intros E. cbn [number_loop]. by rewrite E. Qed.

Lemma loop_digits st ty buf ds rest :
  digit_state st = true → forallb isdigit ds = true →
  number_loop st ty buf (ds ++ rest) = number_loop st ty (buf ++ ds) rest.
Proof.
  intros Hst. revert buf. induction ds as [|d ds IH]; intros buf Hds; [by rewrite app_nil_r|].
  cbn [forallb] in Hds. apply andb_true_iff in Hds as [Hd Hds].
  assert (number_loop st ty buf ((d :: ds) ++ rest) = number_loop st ty (buf ++ [d]) (ds ++ rest)) as ->.
  { destruct st; try done; cbn; by rewrite Hd. }
  rewrite IH by done. by rewrite <- app_assoc.
Qed.

Lemma loop_done st ty buf rest :
  end_state st = true → delimited rest = true →
  number_loop st ty buf rest = inl (buf, ty, rest).
Proof.
  intros Hst Hr. destruct rest as [|c rest]; [by destruct st|]. cbn in Hr.
  apply negb_true_iff in Hr. apply orb_false_iff in Hr as [Hr He]. apply orb_false_iff in Hr as [Hd Hp].
  destruct st; try done; cbn; by rewrite ?Hd, ?Hp, ?He.
Qed.

Lemma loop_exponent st ty buf neg d ds rest :
  exp_state st = true →
  isdigit d = true → forallb isdigit ds = true → delimited rest = true →
  number_loop st ty buf (b#"e" ++ (if neg : bool then b#"-" else b#"+") ++ (d :: ds) ++ rest) =
    inl (buf ++ b#"e" ++ (if neg then b#"-" else b#"+") ++ d :: ds, NTFloat, rest).
Proof.
  intros Hst Hd Hds Hr.
  assert (number_loop st ty buf (b#"e" ++ (if neg then b#"-" else b#"+") ++ (d :: ds) ++ rest) =
    number_loop NAny2 NTFloat (buf ++ b#"e" ++ (if neg then b#"-" else b#"+") ++ [d]) (ds ++ rest)) as ->.
  { assert ((if neg then b#"-" else b#"+") = [if neg then "-"%char else "+"%char]) as -> by (by destruct neg).
    change (b#"e") with ["e"%char]. cbn [app]. erewrite loop_step by (by destruct st).
    erewrite loop_step by (by destruct neg). erewrite loop_step by (cbn; by rewrite Hd). cbn [number_type_at]. by rewrite <- !app_assoc. }
  rewrite loop_digits, loop_done by done. rewrite <- !app_assoc. by destruct neg.
Qed.

(** The parts of a floating-point literal: the integral part has no leading zero, and there
    is a fraction or an exponent. *)
Definition float_parts (i fr : bytes) (ex : option (bool * bytes)) : Prop :=
  (i = b#"0" ∨ number_digits i) ∧ forallb isdigit fr = true ∧ (fr ≠ [] ∨ ex ≠ None) ∧
  match ex with Some (_, ds) => ds ≠ [] ∧ forallb isdigit ds = true | None => True end.

Lemma loop_tail st ty buf fr ex rest :
  int_state st = true →
  forallb isdigit fr = true → (fr ≠ [] ∨ ex ≠ None) →
  match ex with Some (_, ds) => ds ≠ [] ∧ forallb isdigit ds = true | None => True end →
  delimited rest = true →
  number_loop st ty buf (number_text [] fr ex ++ rest) = inl (buf ++ number_text [] fr ex, NTFloat, rest).
Proof.
  intros Hst Hf Hor Hex Hr. unfold number_text. cbn [app]. destruct fr as [|d fr].
  - destruct ex as [[neg [|d ds]]|]; [by destruct Hex| |by destruct Hor]. destruct Hex as [_ Hds].
    cbn [forallb] in Hds. apply andb_true_iff in Hds as [Hd Hds]. cbn [app]. rewrite <- !app_assoc.
    apply loop_exponent; try done. by destruct st.
  - cbn [forallb] in Hf. apply andb_true_iff in Hf as [Hd Hf]. rewrite <- !app_assoc.
    assert (∀ r, number_loop st ty buf (b#"." ++ (d :: fr) ++ r) = number_loop NDecimal2 NTFloat (buf ++ b#"." ++ [d]) (fr ++ r)) as ->.
    { intros r. change (b#".") with ["."%char]. cbn [app]. erewrite (loop_step st NDecimal1) by (destruct st; by try done).
      erewrite loop_step by (cbn; by rewrite Hd). cbn [number_type_at]. by rewrite <- app_assoc. }
    rewrite loop_digits by done. destruct ex as [[neg [|d' ds]]|]; [by destruct Hex| |].
    + destruct Hex as [_ Hds]. cbn [forallb] in Hds. apply andb_true_iff in Hds as [Hd' Hds].
      rewrite <- !app_assoc. rewrite loop_exponent by done. by rewrite <- !app_assoc.
    + cbn [app]. rewrite loop_done by done. by rewrite <- !app_assoc, app_nil_r.
Qed.

Lemma digit19_digit d : 1 ≤ d ≤ 9 → digit19 (digit d) = true ∧ digit d ≠ "-"%char ∧ digit d ≠ "0"%char.
Proof.
  intros Hd. assert (digit19 (digit d) = true) as H.
  { unfold digit19, digit. rewrite byteZ_Zbyte. change (byteZ "0") with 48. rewrite Z.mod_small by lia.
    apply andb_true_iff. split; apply Z.leb_le; lia. }
  split; [done|]. by apply digit19_isdigit.
Qed.

(** Such a literal is read as a whole, whatever follows it. *)
Lemma scan_number_text (neg : bool) i fr ex rest :
  float_parts i fr ex → delimited rest = true →
  ∃ c s, (if neg then b#"-" else []) ++ number_text i fr ex = c :: s ∧ (c = "-"%char ↔ neg = true) ∧
    scan_number c (s ++ rest) = Token (value_float (c :: s)) rest.
Proof.
  intros (Hi & Hf & Hor & Hex) Hr.
  assert (∃ d i', i = d :: i' ∧ d ≠ "-"%char ∧ (d = "0"%char ∧ i' = [] ∨ d ≠ "0"%char ∧ digit19 d = true ∧ forallb isdigit i' = true))
    as (d & i' & -> & Hm & Hd).
  { destruct Hi as [->|[Hall (d & i' & -> & Hd)]]; [exists "0"%char, []; auto|].
    exists (digit d), i'. destruct (digit19_digit d Hd) as (? & ? & ?). cbn [forallb] in Hall.
    apply andb_true_iff in Hall as [_ Hall]. auto 6. }
  assert (∀ ty buf, number_loop (if bool_decide (d = "0"%char) then NZero else NAny1) ty buf (i' ++ number_text [] fr ex ++ rest) =
    inl (buf ++ i' ++ number_text [] fr ex, NTFloat, rest)) as Hloop.
  { intros ty buf. destruct Hd as [[-> ->]|(Hd & _ & Hall)].
    - rewrite bool_decide_eq_true_2 by done. by apply loop_tail.
    - rewrite bool_decide_eq_false_2 by done. rewrite loop_digits by done. rewrite loop_tail by done. by rewrite <- app_assoc. }
  assert (number_text (d :: i') fr ex = d :: i' ++ number_text [] fr ex) as -> by done.
  destruct neg.
  - exists "-"%char, (d :: i' ++ number_text [] fr ex). split; [done|]. split; [done|]. unfold scan_number.
    rewrite bool_decide_eq_true_2 by done.
    assert (number_loop NMinus NTUnsigned ["-"%char] ((d :: i' ++ number_text [] fr ex) ++ rest) =
      number_loop (if bool_decide (d = "0"%char) then NZero else NAny1) NTInteger ["-"%char; d] (i' ++ number_text [] fr ex ++ rest)) as ->.
    { cbn [app]. rewrite <- app_assoc. destruct Hd as [[-> ->]|(Hd & H19 & _)]; [done|]. cbn. rewrite H19. by rewrite !bool_decide_eq_false_2 by done. }
    by rewrite Hloop.
  - exists d, (i' ++ number_text [] fr ex). split; [done|]. split; [done|]. unfold scan_number.
    rewrite (bool_decide_eq_false_2 (d = "-"%char)) by done. rewrite <- app_assoc. by rewrite Hloop.
Qed.

(** ** The layout of the digits *)

Lemma digits_val_acc ds acc : fold_left (λ acc c, acc * 10 + digit_val c) ds acc = acc * 10 ^ blen ds + digits_val ds.
Proof.
  unfold digits_val. revert acc. induction ds as [|d ds IH]; intros acc; cbn [fold_left].
  - change (blen []) with 0. rewrite Z.pow_0_r. cbn [fold_left]. lia.
  - rewrite IH, (IH (0 * 10 + _)), blen_cons. rewrite (Z.add_comm 1), Z.pow_add_r by (unfold blen; lia). lia.
Qed.

Lemma digits_val_app ds1 ds2 : digits_val (ds1 ++ ds2) = digits_val ds1 * 10 ^ blen ds2 + digits_val ds2.
Proof. unfold digits_val at 1. by rewrite fold_left_app, digits_val_acc. Qed.

Lemma digits_val_zeros n : digits_val (replicate n "0"%char) = 0.
Proof. induction n as [|n IH]; [done|]. change (replicate (S n) "0"%char) with (b#"0" ++ replicate n "0"%char). by rewrite digits_val_app, IH. Qed.

Lemma zeros_digits n : forallb isdigit (replicate n "0"%char) = true.
Proof. by induction n. Qed.

Lemma digits_val_digit d : 0 ≤ d ≤ 9 → digits_val [digit d] = d ∧ isdigit (digit d) = true.
Proof. intros. rewrite <- digit_char_digit, digit_char_isdigit by lia. unfold digits_val. cbn. by rewrite digit_val_char by lia. Qed.

(** The exponent that is appended, its sign and its digits. *)
Lemma append_exponent_spec n :
  -1000 < n < 1000 → ∃ ds, append_exponent n = GOk ((if n <? 0 then b#"-" else b#"+") ++ ds) ∧
    ds ≠ [] ∧ forallb isdigit ds = true ∧ digits_val ds = Z.abs n ∧ blen ds ≤ 3.
Proof.
  intros Hn. unfold append_exponent. rewrite (proj2 (Z.ltb_lt (-1000) n)), (proj2 (Z.ltb_lt n 1000)) by lia. cbn [JSON_ASSERT mbind gres_bind].
  replace (if n <? 0 then - n else n) with (Z.abs n) by (destruct (Z.ltb_spec n 0); lia).
  assert (0 ≤ Z.abs n < 1000) as Hk by lia. generalize dependent (Z.abs n). intros k Hk.
  eexists. split; [reflexivity|]. destruct (Z.ltb_spec k 10); [|destruct (Z.ltb_spec k 100)].
  - destruct (digits_val_digit k) as [Ev Ed]; [lia|]. split; [done|]. split; [cbn; by rewrite Ed|]. split; [|done].
    change ["0"%char; digit k] with (b#"0" ++ [digit k]). by rewrite digits_val_app, Ev.
  - destruct (digits_val_digit (k / 10)) as [Ev Ed]; [dlia|]. destruct (digits_val_digit (k mod 10)) as [Ev' Ed']; [dlia|].
    split; [done|]. split; [cbn; by rewrite Ed, Ed'|]. split; [|done].
    change [digit (k / 10); digit (k mod 10)] with ([digit (k / 10)] ++ [digit (k mod 10)]). rewrite digits_val_app, Ev, Ev'.
    change (blen [_]) with 1. dlia.
  - destruct (digits_val_digit (k / 100)) as [Ev Ed]; [dlia|]. destruct (digits_val_digit (k mod 100 / 10)) as [Ev' Ed']; [dlia|].
    destruct (digits_val_digit (k mod 100 mod 10)) as [Ev'' Ed'']; [dlia|].
    split; [done|]. split; [cbn; by rewrite Ed, Ed', Ed''|]. split; [|done].
    change [digit (k / 100); digit (k mod 100 / 10); digit (k mod 100 mod 10)]
      with ([digit (k / 100)] ++ [digit (k mod 100 / 10)] ++ [digit (k mod 100 mod 10)]).
    rewrite !digits_val_app, Ev, Ev', Ev''. rewrite blen_app. change (blen [_]) with 1. dlia.
Qed.

Lemma number_digits_app ds x : number_digits ds → forallb isdigit x = true → number_digits (ds ++ x).
Proof.
  intros [Hds (d & ds' & -> & Hd)] Hx. split; [by rewrite forallb_app, Hds|]. by exists d, (ds' ++ x).
Qed.

Lemma number_digits_split n ds :
  number_digits ds → number_digits (take (S n) ds) ∧ forallb isdigit (drop (S n) ds) = true.
Proof.
  intros [Hds (d & ds' & -> & Hd)]. rewrite <- (take_drop (S n) (digit d :: ds')), forallb_app in Hds.
  apply andb_true_iff in Hds as [Ht Hdr]. split; [|done]. split; [done|]. by exists d, (take n ds').
Qed.

Lemma blen_replicate n (c : ascii) : blen (replicate n c) = Z.of_nat n.
Proof. unfold blen. by rewrite length_replicate. Qed.

Lemma blen_take_nat n (ds : bytes) : (n ≤ length ds)%nat → blen (take n ds) = Z.of_nat n.
Proof. intros. unfold blen. rewrite length_take. lia. Qed.

Lemma blen_drop_nat n (ds : bytes) : (n ≤ length ds)%nat → blen (drop n ds) = blen ds - Z.of_nat n.
Proof. intros. unfold blen. rewrite length_drop. lia. Qed.

Lemma number_text_blen i fr ex :
  blen (number_text i fr ex) ≤ blen i + blen fr + 1 + match ex with Some (_, ds) => blen ds + 2 | None => 0 end.
Proof.
  unfold number_text. assert (blen b#"." = 1 ∧ blen b#"e" = 1 ∧ blen b#"-" = 1 ∧ blen b#"+" = 1) as (Ed & Ee & Em & Ep) by done.
  pose proof (Zle_0_nat (length fr)) as Hf. fold (blen fr) in Hf. destruct fr; destruct ex as [[[] ds]|];
    cbn iota; rewrite ?blen_app, ?Ed, ?Ee, ?Em, ?Ep; change (@blen ascii []) with 0 in *; lia.
Qed.

(** The exponent, after the first digit. *)
Lemma format_exponent ds n :
  number_digits ds → blen ds ≤ 17 → -1000 < n < 1000 →
  ∃ fr ex, (exponent ← append_exponent n;
      GOk ((if blen ds =? 1 then ds else take 1 ds ++ b#"." ++ drop 1 ds) ++ b#"e" ++ exponent)) = GOk (number_text (take 1 ds) fr ex) ∧
    float_parts (take 1 ds) fr ex ∧ blen (number_text (take 1 ds) fr ex) ≤ 23 ∧
    take 1 ds ++ fr = ds ∧ exponent_value ex - blen fr = n + 1 - blen ds.
Proof.
  intros Hds Hlen Hn. destruct (append_exponent_spec n Hn) as (es & -> & Hne & He & Hv & Hl). cbn [mbind gres_bind].
  destruct (number_digits_split 0 ds Hds) as [Hi Hf].
  assert (1 ≤ length ds)%nat as H1 by (destruct Hds as [_ (d & ds' & -> & _)]; cbn; lia).
  exists (drop 1 ds), (Some (n <? 0, es)). split; [|split; [|split; [|split]]].
  - unfold number_text. destruct ds as [|d [|d' ds]]; [cbn in H1; lia|cbn; by destruct (n <? 0)|].
    rewrite (proj2 (Z.eqb_neq _ _)) by (rewrite !blen_cons; unfold blen; lia). cbn. by destruct (n <? 0).
  - split; [by right|]. split; [done|]. split; [by right|done].
  - pose proof (number_text_blen (take 1 ds) (drop 1 ds) (Some (n <? 0, es))). rewrite blen_take_nat, blen_drop_nat in * by done. lia.
  - apply take_drop.
  - rewrite blen_drop_nat by done. cbn [exponent_value]. rewrite Hv. destruct (Z.ltb_spec n 0); lia.
Qed.

(** The text has the parts of a floating-point literal, and their value is that of the
    digits. *)
Lemma format_buffer_spec ds t :
  number_digits ds → blen ds ≤ 17 → -400 ≤ t ≤ 400 →
  ∃ i fr ex p, format_buffer ds t kMinExp10 kMaxExp10 = GOk (number_text i fr ex) ∧ float_parts i fr ex ∧
    blen (number_text i fr ex) ≤ 23 ∧ 0 ≤ p ∧ digits_val (i ++ fr) = digits_val ds * 10 ^ p ∧ exponent_value ex - blen fr = t - p.
Proof.
  intros Hds Hlen Ht. assert (1 ≤ blen ds) as H1.
  { destruct Hds as [_ (d & ds' & -> & _)]. rewrite blen_cons. unfold blen. lia. }
  unfold format_buffer, kMinExp10, kMaxExp10. change (-4 <? 0) with true. change (0 <? 15) with true.
  cbn [JSON_ASSERT mbind gres_bind]. remember (blen ds + t) as n eqn:En.
  destruct ((blen ds <=? n) && (n <=? 15)) eqn:E1; [|destruct ((0 <? n) && (n <=? 15)) eqn:E2; [|destruct ((-4 <? n) && (n <=? 0)) eqn:E3]].
  - split_bools. exists (ds ++ replicate (Z.to_nat (n - blen ds)) "0"%char), b#"0", None, (t + 1).
    split; [unfold number_text; by rewrite <- app_assoc|]. split; [|split; [|split; [lia|]]].
    + split; [right; by apply number_digits_app, zeros_digits|]. split; [done|]. split; [by left|done].
    + eapply Z.le_trans; [apply number_text_blen|]. rewrite blen_app, blen_replicate. change (blen b#"0") with 1. lia.
    + split; [|change (0 - 1 = t - (t + 1)); lia]. rewrite !digits_val_app, digits_val_zeros, blen_replicate.
      change (blen b#"0") with 1. change (digits_val b#"0") with 0. rewrite Z.pow_add_r by lia.
      replace (Z.of_nat (Z.to_nat (n - blen ds))) with t by lia. lia.
  - assert (n < blen ds) by (apply andb_false_iff in E1; split_bools; destruct E1 as [E1|E1]; [apply Z.leb_gt in E1|apply Z.leb_gt in E1]; lia).
    split_bools. rewrite (proj2 (Z.ltb_lt n (blen ds))) by done. cbn [JSON_ASSERT mbind gres_bind].
    destruct (number_digits_split (pred (Z.to_nat n)) ds Hds) as [Hi Hf]. rewrite Nat.succ_pred in Hi, Hf by lia.
    exists (take (Z.to_nat n) ds), (drop (Z.to_nat n) ds), None, 0.
    assert (Z.to_nat n < length ds)%nat as Hn by (unfold blen in *; lia).
    assert (drop (Z.to_nat n) ds ≠ []) as Hne by (intros E; apply (f_equal length) in E; rewrite length_drop in E; cbn in E; lia).
    split; [unfold number_text; rewrite app_nil_r; by destruct (drop (Z.to_nat n) ds)|]. split; [|split; [|split; [lia|]]].
    + split; [by right|]. split; [done|]. split; [by left|done].
    + eapply Z.le_trans; [apply number_text_blen|]. rewrite blen_take_nat, blen_drop_nat by lia. lia.
    + rewrite take_drop, blen_drop_nat by lia. cbn [exponent_value]. lia.
  - split_bools. exists b#"0", (replicate (Z.to_nat (- n)) "0"%char ++ ds), None, 0.
    assert (ds ≠ []) as Hne by (intros ->; change (1 ≤ 0) in H1; lia).
    split; [unfold number_text; rewrite app_nil_r; by destruct (Z.to_nat (- n)), ds|]. split; [|split; [|split; [lia|]]].
    + split; [by left|]. split; [by rewrite forallb_app, zeros_digits, (proj1 Hds)|]. split; [left; by destruct (Z.to_nat (- n)), ds|done].
    + eapply Z.le_trans; [apply number_text_blen|]. rewrite blen_app, blen_replicate. change (blen b#"0") with 1. lia.
    + rewrite !digits_val_app, digits_val_zeros, blen_app, blen_replicate. cbn [exponent_value]. change (digits_val b#"0") with 0. lia.
  - destruct (format_exponent ds (n - 1) Hds Hlen ltac:(lia)) as (fr & ex & -> & Hp & Hl & Ev & Ex).
    exists (take 1 ds), fr, ex, 0. do 3 (split; [done|]). split; [lia|]. rewrite Ev. lia.
Qed.

(** ** The text of a double *)

(** The absolute value and the value of the double with the bits [b]. *)
Definition magnitude (b : Z) : Z := Z.land b (2 ^ 63 - 1).
Definition signed_value (b : Z) : Q :=
  if signbit b then (- double_value (magnitude b))%Q else double_value (magnitude b).

Lemma double_bits b :
  0 ≤ b < 2 ^ 64 → isfinite b = true →
  0 ≤ magnitude b < 2047 * 2 ^ 52 ∧ isfinite (magnitude b) = true ∧ (signbit b = false → magnitude b = b).
Proof.
  unfold magnitude, isfinite, signbit. intros Hb Hf. change (2 ^ 63 - 1) with (Z.ones 63). change 0x7FF with (Z.ones 11) in *.
  rewrite !Z.land_ones, !Z.shiftr_div_pow2 in * by lia. change (Z.ones 11) with 2047 in *.
  apply negb_true_iff, Z.eqb_neq in Hf.
  assert (b mod 2 ^ 63 / 2 ^ 52 = b / 2 ^ 52 mod 2 ^ 11) as E by dlia.
  split; [dlia|]. split; [|intros Hs; apply negb_false_iff, Z.eqb_eq in Hs; dlia].
  rewrite E. apply negb_true_iff, Z.eqb_neq. rewrite Z.mod_mod by lia. done.
Qed.

Lemma unsigned_value_digits i fr ex ds t p :
  forallb isdigit i = true → forallb isdigit fr = true → 0 ≤ p →
  digits_val (i ++ fr) = digits_val ds * 10 ^ p → exponent_value ex - blen fr = t - p →
  (unsigned_value (number_text i fr ex) == decimal_value ds t)%Q.
Proof.
  intros Hi Hf Hp Ev Ex. rewrite unsigned_value_text, Ev, Ex by done. unfold decimal_value.
  rewrite inject_Z_mult, ten_to_Z, <- Qmult_assoc, <- ten_to_add by done. by replace (p + (t - p)) with t by lia.
Qed.

(** Zero, or between the midpoints around the double [m]. *)
Definition rounds_to (m : Z) (x : Q) : Prop :=
  (if m =? 0 then x == 0 else midpoint (m - 1) m < x < midpoint m (m + 1))%Q.

Lemma dump_float_text b :
  0 ≤ b < 2 ^ 64 → isfinite b = true →
  ∃ i fr ex, dump_float b = GOk ((if signbit b then b#"-" else []) ++ number_text i fr ex) ∧
    float_parts i fr ex ∧ blen (number_text i fr ex) ≤ 23 ∧ rounds_to (magnitude b) (unsigned_value (number_text i fr ex)).
Proof.
  intros Hb Hf. destruct (double_bits b Hb Hf) as (Hm & Hmf & Hs). unfold dump_float. rewrite Hf. cbn [negb].
  unfold to_chars. rewrite Hf. cbn [JSON_ASSERT mbind gres_bind]. fold (magnitude b).
  assert (∃ size, (if signbit b then (b#"-", magnitude b, 64 - 1) else ([], b, 64)) =
    ((if signbit b then b#"-" else []), magnitude b, size) ∧ 63 ≤ size) as (size & -> & Hsize).
  { destruct (signbit b); [by exists 63|]. exists 64. by rewrite Hs. }
  unfold rounds_to. destruct (Z.eqb_spec (magnitude b) 0) as [E|E].
  - exists b#"0", b#"0", None. split; [done|]. split; [split; [by left|]; split; [done|]; split; [by left|done]|].
    split; [done|]. reflexivity.
  - destruct (grisu2_spec (magnitude b)) as (ds & t & -> & Hds & Hl & Ht & Hx); [unfold finite_positive; lia|].
    unfold max_digits10. rewrite (proj2 (Z.leb_le 17 size)) by lia. cbn [JSON_ASSERT mbind gres_bind].
    rewrite (proj2 (Z.leb_le (blen ds) 17)) by done. change (kMaxExp10 + 2) with 17. change (2 + (- kMinExp10 - 1) + 17) with 22.
    rewrite !(proj2 (Z.leb_le _ size)) by lia. cbn [JSON_ASSERT mbind gres_bind].
    destruct (format_buffer_spec ds t Hds Hl Ht) as (i & fr & ex & p & -> & Hp & Hlen & Hp0 & Ev & Ex).
    exists i, fr, ex. do 3 (split; [done|]). destruct Hp as (Hi & Hfr & _).
    rewrite (unsigned_value_digits i fr ex ds t p); try done. by destruct Hi as [->|[? _]].
Qed.

(** A decimal between the midpoints is nearer to its double than to any other, of either
    sign. *)
Lemma rounds_to_nearest m c x y :
  0 ≤ m < 2047 * 2 ^ 52 → 0 ≤ c → rounds_to m x → (y == double_value c ∨ y == - double_value c)%Q →
  (¬ y == double_value m)%Q → (Qabs (x - double_value m) < Qabs (x - y))%Q.
Proof.
  intros Hm Hc Hx Hy Hne. assert (double_value 0 == 0)%Q as E0 by reflexivity.
  pose proof (double_value_le 0 c ltac:(lia)) as Hc0. unfold rounds_to in Hx. destruct (Z.eqb_spec m 0) as [->|Hm0].
  - rewrite E0 in *. do 2 apply Qabs_case; intros; try lra; destruct (Qlt_le_dec y 0); try lra;
      assert (y == 0)%Q by lra; done.
  - pose proof (nearest_between m 0 x ltac:(lia) ltac:(lia) ltac:(lia) Hx) as Hz.
    assert (0 < x)%Q as Hx0.
    { unfold midpoint in Hx. pose proof (double_value_le 0 (m - 1) ltac:(lia)). pose proof (double_value_lt (m - 1) m ltac:(lia)). lra. }
    destruct Hy as [Hy|Hy]; rewrite Hy in *.
    + apply nearest_between; [lia|done|by intros ->|done].
    + eapply Qlt_le_trans; [exact Hz|]. rewrite E0 in *. do 2 apply Qabs_case; intros; lra.
Qed.

Lemma signed_value_abs b : 0 ≤ b < 2 ^ 64 → isfinite b = true →
  0 ≤ magnitude b ∧ (signed_value b = double_value (magnitude b) ∨ signed_value b = - double_value (magnitude b))%Q.
Proof.
  intros Hb Hf. destruct (double_bits b Hb Hf) as ([Hm _] & _ & _). split; [done|].
  unfold signed_value. destruct (signbit b); auto.
Qed.

(** C31 (roundtrip): [dump_float] fails no assertion on any finite double, zeros and
    subnormal numbers included, and writes at most 24 of the 64 characters of its buffer.
    The text has a minus sign exactly when the sign bit is set; the lexer reads all of it,
    and no more, as one floating-point literal; and the value of that literal is nearer to
    the number than to any finite double of another value. *)
Theorem dump_float_roundtrip b rest :
  0 ≤ b < 2 ^ 64 → isfinite b = true → delimited rest = true →
  ∃ c s, dump_float b = GOk (c :: s) ∧ blen (c :: s) ≤ 24 ∧ (c = "-"%char ↔ signbit b = true) ∧
    scan_number c (s ++ rest) = Token (value_float (c :: s)) rest ∧
    ∀ b', 0 ≤ b' < 2 ^ 64 → isfinite b' = true → (¬ signed_value b' == signed_value b)%Q →
      (Qabs (literal_value (c :: s) - signed_value b) < Qabs (literal_value (c :: s) - signed_value b'))%Q.
Proof.
  intros Hb Hf Hr. destruct (dump_float_text b Hb Hf) as (i & fr & ex & -> & Hp & Hlen & Hx).
  destruct (scan_number_text (signbit b) i fr ex rest Hp Hr) as (c & s & E & Hc & Hscan).
  exists c, s. split; [by f_equal|]. split; [|split; [done|split; [done|]]].
  { rewrite <- E, blen_app. destruct (signbit b); [change (blen b#"-") with 1|change (@blen ascii []) with 0]; lia. }
  intros b' Hb' Hf' Hne. destruct (double_bits b Hb Hf) as (Hm & _ & _). destruct (signed_value_abs b' Hb' Hf') as [Hm' Hv'].
  assert (signed_value b = if signbit b then (- double_value (magnitude b))%Q else double_value (magnitude b)) as Eb by done.
  rewrite Eb in *. clear Eb. destruct (signbit b).
  - cbn [app] in E. injection E as <- <-. unfold literal_value. rewrite bool_decide_eq_true_2 by done.
    set (u := unsigned_value (number_text i fr ex)) in *.
    assert (- u - - double_value (magnitude b) == - (u - double_value (magnitude b)))%Q as -> by ring.
    assert (- u - signed_value b' == - (u - - signed_value b'))%Q as -> by ring. rewrite !Qabs_opp.
    apply (rounds_to_nearest (magnitude b) (magnitude b')); try done.
    + destruct Hv' as [Ey|Ey]; rewrite Ey; [by right|left; ring].
    + intros E. apply Hne. rewrite <- E. ring.
  - assert (literal_value (c :: s) = unsigned_value (number_text i fr ex)) as ->.
    { cbn [app] in E. rewrite E. unfold literal_value. rewrite bool_decide_eq_false_2; [done|]. intros Hm1. by apply Hc in Hm1. }
    apply (rounds_to_nearest (magnitude b) (magnitude b')); try done. destruct Hv' as [Ey|Ey]; rewrite Ey; [by left|by right].
Qed.

Lemma dump_float_roundtrip_witness :
  (0 ≤ 0xC029000000000000 < 2 ^ 64 ∧ isfinite 0xC029000000000000 = true ∧ delimited b#"," = true) ∧
  ∃ c s, dump_float 0xC029000000000000 = GOk (c :: s) ∧ c :: s = b#"-12.5" ∧
    scan_number c (s ++ b#",") = Token (value_float (c :: s)) b#",".
Proof.
  assert (0 ≤ 0xC029000000000000 < 2 ^ 64 ∧ isfinite 0xC029000000000000 = true ∧ delimited b#"," = true) as (Hb & Hf & Hr).
  { split; [lia|]. split; reflexivity. }
  split; [done|]. destruct (dump_float_roundtrip 0xC029000000000000 b#"," Hb Hf Hr) as (c & s & E & _ & _ & Hscan & _).
  exists c, s. split; [done|]. split; [|done]. vm_compute in E. by injection E as <- <-.
Defined.
