(* ===== verification/Plog.v ===== *)
(** * Plog: records, formatters and the logger of plog
      ([include/plog/Severity.h], [Util.h], [Record.h], [Formatters], [Converters], [Logger.h])

    The code for POSIX systems, where [nstring] is [std::string].  A [const char *] that
    points to a string is the bytes before its terminator, and [None] when it is null.  The
    broken-down time and the text of a pointer come from the C library: they are
    parameters.  The CSV lines are read back by the rules of RFC 4180. *)

From S2P Require Import Prelude CString ThreadSafeMap.

(** ** [Severity.h] *)

Inductive Severity := none | fatal | error | warning | info | debug | verbose.

#[export] Instance Severity_eq_dec : EqDecision Severity.
Proof. solve_decision. Defined.

Definition severity_value (severity : Severity) : Z :=
  match severity with none => 0 | fatal => 1 | error => 2 | warning => 3 | info => 4 | debug => 5 | verbose => 6 end.

Definition severityToString (severity : Severity) : bytes :=
  match severity with
  | fatal => b#"FATAL"
  | error => b#"ERROR"
  | warning => b#"WARN"
  | info => b#"INFO"
  | debug => b#"DEBUG"
  | verbose => b#"VERB"
  | none => b#"NONE"
  end.

(** [toupper], undefined on a negative [char]. *)
Definition toupper (c : ascii) : cres ascii :=
  if 128 <=? byteZ c then UB UB_out_of_bounds
  else Def (if (97 <=? byteZ c) && (byteZ c <=? 122) then Zbyte (byteZ c - 32) else c).

Definition severityFromString (str : bytes) : cres Severity :=
  c ← toupper (default NUL (head str));
  mret (if bool_decide (c = "F"%char) then fatal
        else if bool_decide (c = "E"%char) then error
        else if bool_decide (c = "W"%char) then warning
        else if bool_decide (c = "I"%char) then info
        else if bool_decide (c = "D"%char) then debug
        else if bool_decide (c = "V"%char) then verbose
        else none).

(** ** [Util.h] *)

(** The string up to a character, and from it on, when it occurs: [strchr]. *)
Definition strchr (c : ascii) (s : bytes) : option (bytes * bytes) :=
  let '(t, found, r) := take_until c s in if found : bool then Some (t, r) else None.

(** The parts of a string around the last occurrence of a character: [strrchr]. *)
Definition strrchr (c : ascii) (s : bytes) : option (bytes * bytes) :=
  match strchr c (rev s) with Some (t, r) => Some (rev r, rev t) | None => None end.

Definition SPACE : ascii := " ".

(** The name before the first parenthesis, from the last space before it on. *)
Definition processFuncName (func : bytes) : bytes :=
  match strchr "(" func with
  | None => func
  | Some (funcEnd, _) => match strrchr SPACE funcEnd with Some (_, name) => name | None => funcEnd end
  end.

Definition findExtensionDot (fileName : bytes) : option (bytes * bytes) := strrchr "." fileName.

(** [fileNameNoExt] and [fileExt]. *)
Definition splitFileName (fileName : bytes) : bytes * bytes :=
  match findExtensionDot fileName with
  | Some (fileNameNoExt, fileExt) => (fileNameNoExt, fileExt)
  | None => (fileName, [])
  end.

(** ** [Record.h] *)

(** The string a pointer into an [std::string] gives: up to its first terminator. *)
Definition c_string (s : bytes) : bytes := (take_until NUL s).1.1.

Record Time := mkTime { time : Z; millitm : Z }.

Record Record_ := mkRecord {
  m_time : Time;
  m_severity : Severity;
  m_tid : Z;
  m_object : Z;
  m_line : Z;
  m_message : bytes;
  m_func : bytes;
  m_file : bytes;
  m_instanceId : Z
}.

(** The constructor, with the time and the thread it asks the system for. *)
Definition make_record (now : Time) (tid : Z) (severity : Severity) (func : bytes) (line : Z) (file : bytes) (object instanceId : Z) : Record_ :=
  mkRecord now severity tid object line [] func file instanceId.

Definition set_message (message : bytes) (r : Record_) : Record_ :=
  mkRecord (m_time r) (m_severity r) (m_tid r) (m_object r) (m_line r) message (m_func r) (m_file r) (m_instanceId r).

(** [detail::operator<<] for a pointer to characters. *)
Definition stream_chars (data : option bytes) : bytes := default b#"(null)" data.

(** [Record::operator<<] for a [char], a [const char *] and an [std::string]. *)
Definition put_chars (data : option bytes) (r : Record_) : Record_ := set_message (m_message r ++ stream_chars data) r.
Definition put_char (data : ascii) (r : Record_) : Record_ := put_chars (Some (c_string [data])) r.
Definition put_string (data : bytes) (r : Record_) : Record_ := put_chars (Some (c_string data)) r.

Definition getMessage (r : Record_) : bytes := c_string (m_message r).
Definition getFunc (r : Record_) : bytes := c_string (processFuncName (m_func r)).

(** ** Formatters *)

Record tm := mkTm { tm_year : Z; tm_mon : Z; tm_mday : Z; tm_hour : Z; tm_min : Z; tm_sec : Z }.

(** [std::setw(n)] with a fill character, on the left of the text or on its right. *)
Definition pad_left (fill : ascii) (n : nat) (s : bytes) : bytes := replicate (n - length s) fill ++ s.
Definition pad_right (fill : ascii) (n : nat) (s : bytes) : bytes := s ++ replicate (n - length s) fill.
Definition two (n : Z) : bytes := pad_left "0" 2 (dec n).

(** [std::getline(split, token, delimiter)] until [eof]: the tokens.  The stream is at its end
    once a token has not been followed by the delimiter. *)
Fixpoint tokens (fuel : nat) (delim : ascii) (split : bytes) : option (list bytes) :=
  match fuel with
  | O => None
  | S fuel =>
      let '(token, found, rest) := take_until delim split in
      if found : bool then cons token <$> tokens fuel delim rest else Some [token]
  end.

Definition kMaxMessageSize : Z := 32000.

Definition truncate_message (message : bytes) : bytes :=
  if kMaxMessageSize <? blen message then take (Z.to_nat kMaxMessageSize) message ++ b#"..." else message.

(** Every token takes a character of the message but the last. *)
Definition csv_message (message : bytes) : option bytes :=
  ts ← tokens (S (length message)) QUOTE message;
  Some (concat ((λ token, QUOTE :: token ++ [QUOTE]) <$> ts)).

Section formatters.
(** [localtime_r] or [gmtime_r], and the text [operator<<] gives for a pointer. *)
Context (calendar : Z → tm) (pointer_text : Z → bytes).

Definition csv_header : bytes := b#"Date;Time;Severity;TID;This;Function;Message" ++ [LF].

Definition date_text (separator : bytes) (t : tm) : bytes :=
  dec (tm_year t + 1900) ++ separator ++ two (tm_mon t + 1) ++ separator ++ two (tm_mday t).
Definition time_text (t : tm) (millitm : Z) : bytes :=
  two (tm_hour t) ++ b#":" ++ two (tm_min t) ++ b#":" ++ two (tm_sec t) ++ b#"." ++ pad_left "0" 3 (dec millitm).

Definition csv_format (record : Record_) : option bytes :=
  let t := calendar (time (m_time record)) in
  message ← csv_message (truncate_message (getMessage record));
  Some (date_text b#"/" t ++ b#";" ++ time_text t (millitm (m_time record)) ++ b#";" ++
        severityToString (m_severity record) ++ b#";" ++ dec (m_tid record) ++ b#";" ++
        pointer_text (m_object record) ++ b#";" ++ getFunc record ++ b#"@" ++ dec (m_line record) ++ b#";" ++
        message ++ [LF]).

Definition txt_header : bytes := [].

Definition txt_format (record : Record_) : bytes :=
  let t := calendar (time (m_time record)) in
  date_text b#"-" t ++ b#" " ++ time_text t (millitm (m_time record)) ++ b#" " ++
  pad_right " " 5 (severityToString (m_severity record)) ++ b#" " ++ b#"[" ++ dec (m_tid record) ++ b#"] " ++
  b#"[" ++ getFunc record ++ b#"@" ++ dec (m_line record) ++ b#"] " ++ getMessage record ++ [LF].

Definition func_message_format (record : Record_) : bytes :=
  getFunc record ++ b#"@" ++ dec (m_line record) ++ b#": " ++ getMessage record ++ [LF].

Definition message_only_format (record : Record_) : bytes := getMessage record ++ [LF].
End formatters.

(** [UTF8Converter]: [convert] gives its argument. *)
Definition kBOM : bytes := [Zbyte 0xEF; Zbyte 0xBB; Zbyte 0xBF].
Definition convert (str : bytes) : bytes := str.
Definition converter_header (str : bytes) : bytes := kBOM ++ convert str.

(** ** [Logger.h] *)

Section logger.
(** The appenders, and [write] on one of them, which also changes its surroundings. *)
Context {A W : Type} (write : A → Record_ → W → A * W).

Record Logger := mkLogger { m_maxSeverity : Severity; m_appenders : list A }.

Definition addAppender (l : Logger) (appender : A) : Logger := mkLogger (m_maxSeverity l) (m_appenders l ++ [appender]).
Definition setMaxSeverity (l : Logger) (severity : Severity) : Logger := mkLogger severity (m_appenders l).
Definition checkSeverity (l : Logger) (severity : Severity) : bool :=
  severity_value severity <=? severity_value (m_maxSeverity l).

Fixpoint write_all (appenders : list A) (record : Record_) (w : W) : list A * W :=
  match appenders with
  | [] => ([], w)
  | a :: rest =>
      let '(a, w) := write a record w in
      let '(rest, w) := write_all rest record w in
      (a :: rest, w)
  end.

Definition logger_write (l : Logger) (record : Record_) (w : W) : Logger * W :=
  if checkSeverity l (m_severity record) then
    let '(appenders, w) := write_all (m_appenders l) record w in
    (mkLogger (m_maxSeverity l) appenders, w)
  else (l, w).
End logger.

(** ** Reading CSV: RFC 4180 with semicolons *)

(** At the start of a field, in one without quotes, in a quoted one, and behind a quote in
    a quoted one. *)
Inductive csv_state := CsvStart | CsvPlain | CsvQuoted | CsvQuote.

(** The fields of a line, and what follows it. *)
Fixpoint csv_read (st : csv_state) (field : bytes) (fields : list bytes) (s : bytes) : option (list bytes * bytes) :=
  match s with
  | [] => None
  | c :: s' =>
      let ends :=
        if bool_decide (c = ";"%char) then Some (csv_read CsvStart [] (fields ++ [field]) s')
        else if bool_decide (c = LF) then Some (Some (fields ++ [field], s')) else None in
      match st with
      | CsvQuoted => if bool_decide (c = QUOTE) then csv_read CsvQuote field fields s' else csv_read CsvQuoted (field ++ [c]) fields s'
      | CsvQuote =>
          if bool_decide (c = QUOTE) then csv_read CsvQuoted (field ++ [c]) fields s'
          else match ends with Some r => r | None => None end
      | CsvStart =>
          if bool_decide (c = QUOTE) then csv_read CsvQuoted field fields s'
          else match ends with Some r => r | None => csv_read CsvPlain (field ++ [c]) fields s' end
      | CsvPlain =>
          if bool_decide (c = QUOTE) then None
          else match ends with Some r => r | None => csv_read CsvPlain (field ++ [c]) fields s' end
      end
  end.

(** What a field without quotes may hold. *)
Definition plain_char (c : ascii) : bool := negb (bool_decide (c = QUOTE) || bool_decide (c = ";"%char) || bool_decide (c = LF)).
Definition plain (s : bytes) : bool := forallb plain_char s.

(** ** Lemmas *)

Lemma severity_roundtrip severity : severityFromString (severityToString severity) = Def severity.
Proof. by destruct severity. Qed.

Definition double_quotes (m : bytes) : bytes := m ≫= λ c, if bool_decide (c = QUOTE) then [QUOTE; QUOTE] else [c].

Lemma double_quotes_absent m : QUOTE ∉ m → double_quotes m = m.
Proof.
  unfold double_quotes. induction m as [|c m IH]; intros Hm; [done|]. apply not_elem_of_cons in Hm as [Hc Hm].
  rewrite bind_cons, IH, bool_decide_eq_false_2 by done. done.
Qed.

(** A message is quoted by doubling its quotes. *)
Lemma csv_message_eq m : csv_message m = Some (QUOTE :: double_quotes m ++ [QUOTE]).
Proof.
  unfold csv_message.
  assert (∀ fuel m, (length m < fuel)%nat → ∃ ts, tokens fuel QUOTE m = Some ts ∧
    concat ((λ token, QUOTE :: token ++ [QUOTE]) <$> ts) = QUOTE :: double_quotes m ++ [QUOTE]) as H.
  { clear m. induction fuel as [|fuel IH]; intros m Hm; [lia|]. cbn [tokens].
    destruct (decide (QUOTE ∈ m)) as [Hin|Hout].
    - apply list_elem_of_split_l in Hin as (t & r & -> & Ht). rewrite take_until_found by done.
      rewrite length_app in Hm. cbn in Hm. destruct (IH r) as (ts & -> & E); [lia|]. eexists. split; [reflexivity|].
      rewrite fmap_cons. cbn [concat]. rewrite E. unfold double_quotes at 2. rewrite bind_app, bind_cons, bool_decide_eq_true_2 by done.
      fold (double_quotes t) (double_quotes r). rewrite (double_quotes_absent t) by done. cbn. by rewrite <- !app_assoc.
    - rewrite take_until_absent by done. eexists. split; [reflexivity|]. rewrite double_quotes_absent by done.
      cbn. by rewrite app_nil_r. }
  destruct (H (S (length m)) m ltac:(lia)) as (ts & -> & E). cbn. by rewrite E.
Qed.

Lemma csv_read_quoted m field fields s :
  csv_read CsvQuoted field fields (double_quotes m ++ QUOTE :: LF :: s) = Some (fields ++ [field ++ m], s).
Proof.
  revert field. induction m as [|c m IH]; intros field; [cbn; by rewrite app_nil_r|].
  unfold double_quotes. rewrite bind_cons. fold (double_quotes m). destruct (decide (c = QUOTE)) as [->|Hc].
  - rewrite (bool_decide_eq_true_2 (QUOTE = QUOTE)) by done. cbn. rewrite IH. by rewrite <- app_assoc.
  - rewrite (bool_decide_eq_false_2 (c = QUOTE)) by done. cbn. rewrite (bool_decide_eq_false_2 (c = QUOTE)) by done.
    rewrite IH. by rewrite <- app_assoc.
Qed.

(** A field of plain characters up to its semicolon. *)
Lemma csv_read_plain f fields s :
  plain f = true → csv_read CsvStart [] fields (f ++ b#";" ++ s) = csv_read CsvStart [] (fields ++ [f]) s.
Proof.
  intros Hf. assert (∀ field st, (st = CsvStart ∨ st = CsvPlain) → plain f = true →
    csv_read st field fields (f ++ b#";" ++ s) = csv_read CsvStart [] (fields ++ [field ++ f]) s) as H; [|by apply (H []); [left|]].
  clear Hf. induction f as [|c f IH]; intros field st Hst Hf.
  - rewrite app_nil_r. by destruct Hst as [-> | ->].
  - unfold plain in Hf. cbn in Hf. apply andb_true_iff in Hf as [Hc Hf]. unfold plain_char in Hc.
    apply negb_true_iff in Hc. apply orb_false_iff in Hc as [Hc Hl]. apply orb_false_iff in Hc as [Hq Hs].
    assert (csv_read st field fields ((c :: f) ++ b#";" ++ s) = csv_read CsvPlain (field ++ [c]) fields (f ++ b#";" ++ s)) as ->.
    { destruct Hst as [-> | ->]; cbn; by rewrite Hq, Hs, Hl. }
    rewrite IH by auto. by rewrite <- app_assoc.
Qed.

Lemma plain_app s t : plain (s ++ t) = plain s && plain t.
Proof. apply forallb_app. Qed.

Lemma plain_digits s : forallb isdigit s = true → plain s = true.
Proof.
  unfold plain. rewrite !forallb_forall. intros H c Hc. specialize (H c Hc). unfold plain_char.
  apply negb_true_iff, orb_false_iff. rewrite orb_false_iff. repeat split; apply bool_decide_eq_false_2; intros ->; done.
Qed.

Lemma plain_dec n : plain (dec n) = true.
Proof.
  unfold dec. destruct (n <? 0) eqn:E.
  - cbn. apply plain_digits. apply (dec_nonneg_spec (- n)). lia.
  - apply plain_digits. apply (dec_nonneg_spec n). lia.
Qed.

Lemma plain_pad fill n s : plain_char fill = true → plain s = true → plain (pad_left fill n s) = true.
Proof.
  intros Hf Hs. unfold pad_left. rewrite plain_app, Hs, andb_true_r. unfold plain.
  induction (n - length s)%nat as [|k IH]; [done|]. cbn. by rewrite Hf, IH.
Qed.

(** The message of a record without its quotes. *)
Lemma csv_read_message m fields rest :
  csv_read CsvStart [] fields ((QUOTE :: double_quotes m ++ [QUOTE]) ++ [LF] ++ rest) = Some (fields ++ [m], rest).
Proof. rewrite <- app_comm_cons, <- app_assoc. cbn [csv_read]. rewrite bool_decide_eq_true_2 by done. apply (csv_read_quoted m []). Qed.

(** ** The fields of a record

    Written without the functions of the formatter. *)

(** The digits of a number, padded with zeros to a width. *)
Definition fixed (width : nat) (n : Z) : bytes :=
  (λ i, digit_char (n / 10 ^ Z.of_nat i mod 10)) <$> rev (seq 0 width).

(** A string up to a character. *)
Definition until (c : ascii) (s : bytes) : bytes := (span (λ d, negb (bool_decide (d = c))) s).1.

(** The name of the function in [__PRETTY_FUNCTION__]: before the first parenthesis, behind
    the last space before it. *)
Definition function_name (func : bytes) : bytes :=
  if bool_decide ("("%char ∈ func) then rev (until SPC (rev (until "(" func))) else func.

(** The first 32000 characters of a message, and a sign that there were more. *)
Definition shortened (m : bytes) : bytes :=
  if bool_decide (blen m ≤ 32000) then m else take (Z.to_nat 32000) m ++ b#"...".

(** A broken-down time, of a year of four digits. *)
Definition tm_ok (t : tm) : Prop :=
  1000 ≤ tm_year t + 1900 < 10000 ∧ 0 ≤ tm_mon t < 12 ∧ 1 ≤ tm_mday t ≤ 31 ∧
  0 ≤ tm_hour t < 24 ∧ 0 ≤ tm_min t < 60 ∧ 0 ≤ tm_sec t ≤ 60.

Definition csv_fields (t : tm) (pointer : bytes) (r : Record_) : list bytes :=
  [fixed 4 (tm_year t + 1900) ++ b#"/" ++ fixed 2 (tm_mon t + 1) ++ b#"/" ++ fixed 2 (tm_mday t);
   fixed 2 (tm_hour t) ++ b#":" ++ fixed 2 (tm_min t) ++ b#":" ++ fixed 2 (tm_sec t) ++ b#"." ++ fixed 3 (millitm (m_time r));
   match m_severity r with
   | none => b#"NONE" | fatal => b#"FATAL" | error => b#"ERROR" | warning => b#"WARN"
   | info => b#"INFO" | debug => b#"DEBUG" | verbose => b#"VERB"
   end;
   dec (m_tid r); pointer; until NUL (function_name (m_func r)) ++ b#"@" ++ dec (m_line r);
   shortened (until NUL (m_message r))].

(** What holds of the numbers below a bound, by computation. *)
Lemma all_below n (P : Z → Prop) `{∀ z, Decision (P z)} z :
  forallb (λ i, bool_decide (P (Z.of_nat i))) (seq 0 n) = true → 0 ≤ z < Z.of_nat n → P z.
Proof.
  rewrite forallb_forall. intros Hall Hz. specialize (Hall (Z.to_nat z)). rewrite Z2Nat.id in Hall by lia.
  eapply bool_decide_eq_true_1, Hall, in_seq. lia.
Qed.

Lemma two_fixed n : 0 ≤ n < 100 → two n = fixed 2 n.
Proof. apply (all_below 100 (λ n, two n = fixed 2 n)). by vm_compute. Qed.

Lemma three_fixed n : 0 ≤ n < 1000 → pad_left "0" 3 (dec n) = fixed 3 n.
Proof. apply (all_below (Z.to_nat 1000) (λ n, pad_left "0" 3 (dec n) = fixed 3 n)). by vm_compute. Qed.

Lemma year_fixed n : 1000 ≤ n < 10000 → dec n = fixed 4 n.
Proof.
  intros Hn. replace n with (n - 1000 + 1000) by lia.
  apply (all_below (Z.to_nat 9000) (λ n, dec (n + 1000) = fixed 4 (n + 1000))); [by vm_compute|lia].
Qed.

Lemma take_until_span c s : take_until c s = (until c s, bool_decide (c ∈ s), drop (S (length (until c s))) s).
Proof.
  unfold until. destruct (decide (c ∈ s)) as [Hin|Hout].
  - rewrite (bool_decide_eq_true_2 (c ∈ s)) by done. apply list_elem_of_split_l in Hin as (t & r & -> & Ht).
    rewrite take_until_found by done.
    assert ((span (λ d, negb (bool_decide (d = c))) (t ++ c :: r)).1 = t) as ->.
    { clear -Ht. induction t as [|d t IH]; cbn; [by rewrite bool_decide_eq_true_2|]. apply not_elem_of_cons in Ht as [Hd Ht].
      rewrite bool_decide_eq_false_2 by done. cbn. specialize (IH Ht). destruct (span _ (t ++ _)). cbn in *. congruence. }
    f_equal. change (S (length t)) with (1 + length t)%nat. by rewrite Nat.add_comm, <- drop_drop, drop_app_length.
  - rewrite (bool_decide_eq_false_2 (c ∈ s)) by done. rewrite take_until_absent by done.
    assert ((span (λ d, negb (bool_decide (d = c))) s).1 = s) as ->.
    { clear -Hout. induction s as [|d s IH]; cbn; [done|]. apply not_elem_of_cons in Hout as [Hd Ht].
      rewrite bool_decide_eq_false_2 by done. cbn. specialize (IH Ht). destruct (span _ s). cbn in *. congruence. }
    by rewrite drop_ge by lia.
Qed.

Lemma c_string_until s : c_string s = until NUL s.
Proof. unfold c_string. by rewrite take_until_span. Qed.

Lemma function_name_eq func : processFuncName func = function_name func.
Proof.
  unfold processFuncName, function_name, strrchr, strchr. rewrite take_until_span.
  destruct (decide ("("%char ∈ func)) as [Hin|Hout].
  - rewrite !(bool_decide_eq_true_2 ("("%char ∈ func)) by done. rewrite take_until_span. change SPACE with SPC.
    destruct (decide (SPC ∈ rev (until "(" func))) as [|Hs]; [by rewrite bool_decide_eq_true_2|].
    rewrite bool_decide_eq_false_2 by done. pose proof (take_until_absent SPC _ Hs) as E. rewrite take_until_span in E.
    injection E as -> _ _. by rewrite rev_involutive.
  - by rewrite !(bool_decide_eq_false_2 ("("%char ∈ func)).
Qed.

Lemma shortened_eq m : truncate_message m = shortened m.
Proof.
  unfold truncate_message, shortened, kMaxMessageSize. case_bool_decide; destruct (Z.ltb_spec 32000 (blen m)); lia || done.
Qed.

Section csv.
Context (calendar : Z → tm) (pointer_text : Z → bytes).

Lemma csv_fields_eq r (t := calendar (time (m_time r))) :
  tm_ok t → 0 ≤ millitm (m_time r) < 1000 →
  csv_fields t (pointer_text (m_object r)) r =
  [date_text b#"/" t; time_text t (millitm (m_time r)); severityToString (m_severity r); dec (m_tid r);
   pointer_text (m_object r); getFunc r ++ b#"@" ++ dec (m_line r); truncate_message (getMessage r)].
Proof.
  intros (Hy & Hmon & Hd & Hh & Hmin & Hs) Hms. unfold csv_fields, date_text, time_text, getFunc, getMessage.
  rewrite (year_fixed (tm_year t + 1900)), !two_fixed, three_fixed by lia. rewrite !c_string_until, function_name_eq, shortened_eq.
  by destruct (m_severity r).
Qed.

Lemma plain_getFunc r : plain (function_name (m_func r)) = true → plain (getFunc r) = true.
Proof.
  unfold getFunc. rewrite c_string_until, function_name_eq. unfold until. set (f := function_name _).
  destruct (span _ f) as [a b] eqn:E. apply span_parts in E as [-> _]. rewrite plain_app. by intros [? _]%andb_true_iff.
Qed.

(** C34 (roundtrip): the line that [CsvFormatter] writes for a record is read back, by the rules
    of RFC 4180 and whatever follows it in the file, as the fields of the record: the date and the
    time of day in digits of fixed width, the severity, the thread, the pointer, the function with the line, and the
    message up to its first zero byte, with its quotes, semicolons and line ends; of a message of more than 32000
    characters the first 32000 and three dots.  The name of the function and the text of
    the pointer, which are not quoted, must be plain, and the broken-down time that the
    C library gives must be one of a year of four digits. *)
Theorem csv_roundtrip r rest (t := calendar (time (m_time r))) :
  plain (function_name (m_func r)) = true → plain (pointer_text (m_object r)) = true →
  tm_ok t → 0 ≤ millitm (m_time r) < 1000 →
  ∃ line, csv_format calendar pointer_text r = Some line ∧
    csv_read CsvStart [] [] (line ++ rest) = Some (csv_fields t (pointer_text (m_object r)) r, rest).
Proof.
  intros Hf Hp Ht0 Hms. subst t; rewrite csv_fields_eq by done; set (t := calendar (time (m_time r))). apply plain_getFunc in Hf.
  unfold csv_format. rewrite csv_message_eq. eexists. split; [reflexivity|]. fold t.
  assert (∀ n, plain (two n) = true) as Htwo by (intros; by apply plain_pad, plain_dec).
  assert (plain (date_text b#"/" t) = true) as Hd by (unfold date_text; by rewrite !plain_app, plain_dec, !Htwo).
  assert (plain (time_text t (millitm (m_time r))) = true) as Ht.
  { unfold time_text. rewrite !plain_app, !Htwo. cbn [plain andb]. by rewrite plain_pad by (done || apply plain_dec). }
  assert (plain (severityToString (m_severity r)) = true) as Hs by (by destruct (m_severity r)).
  assert (plain (getFunc r ++ b#"@" ++ dec (m_line r)) = true) as Hg by (by rewrite !plain_app, Hf, plain_dec).
  pose proof (plain_dec (m_tid r)) as Hi.
  rewrite <- !app_assoc.
  rewrite (csv_read_plain (date_text _ t)), (csv_read_plain (time_text t _)), (csv_read_plain (severityToString _)),
    (csv_read_plain (dec (m_tid r))), (csv_read_plain (pointer_text _)) by done.
  replace (getFunc r ++ b#"@" ++ dec (m_line r) ++ b#";" ++ (QUOTE :: double_quotes (truncate_message (getMessage r)) ++ [QUOTE]) ++ [LF] ++ rest)
    with ((getFunc r ++ b#"@" ++ dec (m_line r)) ++ b#";" ++ (QUOTE :: double_quotes (truncate_message (getMessage r)) ++ [QUOTE]) ++ [LF] ++ rest)
    by (by rewrite <- !app_assoc).
  rewrite (csv_read_plain (getFunc r ++ _)) by done. by rewrite csv_read_message.
Qed.
End csv.

Definition example_record : Record_ :=
  put_char "!" (put_chars (Some (b#"say " ++ [QUOTE] ++ b#"a;b" ++ [QUOTE; LF]))
    (make_record (mkTime 0 7) 42 info b#"int main(int, char**)" 12 b#"server.cpp" 0 0)).

Lemma csv_roundtrip_witness (calendar := λ _, mkTm 124 0 31 12 5 0) (pointer_text := λ _, b#"0") :
  (plain (function_name (m_func example_record)) = true ∧ plain (pointer_text (m_object example_record)) = true) ∧
  ∃ line, csv_format calendar pointer_text example_record = Some line ∧
    csv_read CsvStart [] [] (line ++ b#"rest") =
      Some ([b#"2024/01/31"; b#"12:05:00.007"; b#"INFO"; b#"42"; b#"0"; b#"main@12"; b#"say " ++ [QUOTE] ++ b#"a;b" ++ [QUOTE; LF] ++ b#"!"], b#"rest").
Proof.
  split; [split; reflexivity|].
  destruct (csv_roundtrip calendar pointer_text example_record b#"rest") as (line & Hl & Hr); [reflexivity|reflexivity|repeat split; cbn; lia|cbn; lia|].
  exists line. split; [exact Hl|]. rewrite Hr. reflexivity.
Defined.
