(* ===== verification/PlogRolling.v ===== *)
(** * PlogRolling: the rolling log file of plog
      ([include/plog/Appenders/RollingFileAppender.h], class [File] of [Util.h])

    The appender with its file system: every write to the log, the switch to a new file
    when the current one has grown over the limit, and the renaming of the older ones.
    An open file is known by its name: it is closed before it is renamed, and the
    position in it is its end, for nothing else writes to it. *)

From S2P Require Import Prelude CString ThreadSafeMap Plog.

(** ** [util::File] on a file system *)

(** What the system allows: to open a file, to write some bytes of a text, all of them or
    none, to remove a file, to rename one. *)
Class FileSystem := {
  can_open : bytes → bool;
  accepted : files → bytes → bytes → option nat;
  can_unlink : bytes → bool;
  can_rename : bytes → bytes → bool
}.

(** [static_cast<size_t>(-1)]. *)
Definition SIZE_ERROR : Z := wrap 64 (-1).

Section file.
Context `{FileSystem}.

(** [open]: the file is created when it does not exist; the size of what it holds. *)
Definition file_open (fileName : bytes) (fs : files) : option bytes * files * Z :=
  if can_open fileName then
    let content := default [] (fs !! fileName) in
    (Some fileName, <[fileName := content]> fs, blen content)
  else (None, fs, SIZE_ERROR).

(** [write]: the bytes that were appended. *)
Definition file_write (m_file : option bytes) (buf : bytes) (fs : files) : files * Z :=
  match m_file with
  | None => (fs, SIZE_ERROR)
  | Some name =>
      match accepted fs name buf with
      | None => (fs, SIZE_ERROR)
      | Some n =>
          let data := take n buf in
          (<[name := default [] (fs !! name) ++ data]> fs, blen data)
      end
  end.

Definition file_unlink (fileName : bytes) (fs : files) : files :=
  if can_unlink fileName then delete fileName fs else fs.

(** A file that does not exist is not renamed; one of the new name is replaced. *)
Definition file_rename (oldFilename newFilename : bytes) (fs : files) : files :=
  match fs !! oldFilename with
  | Some content =>
      if can_rename oldFilename newFilename then <[newFilename := content]> (delete oldFilename fs) else fs
  | None => fs
  end.
End file.

(** ** [RollingFileAppender] *)

Record appender := mkAppender {
  m_file : option bytes;
  m_fileSize : Z;
  m_maxFileSize : Z;
  m_maxFiles : Z;
  m_fileExt : bytes;
  m_fileNameNoExt : bytes;
  m_firstWrite : bool
}.

Definition buildFileName (a : appender) (fileNumber : Z) : bytes :=
  m_fileNameNoExt a ++ (if 0 <? fileNumber then b#"." ++ dec fileNumber else []) ++
  (if bool_decide (m_fileExt a = []) then [] else b#"." ++ m_fileExt a).

Definition set_file (file : option bytes) (size : Z) (a : appender) : appender :=
  mkAppender file size (m_maxFileSize a) (m_maxFiles a) (m_fileExt a) (m_fileNameNoExt a) (m_firstWrite a).
Definition set_firstWrite (firstWrite : bool) (a : appender) : appender :=
  mkAppender (m_file a) (m_fileSize a) (m_maxFileSize a) (m_maxFiles a) (m_fileExt a) (m_fileNameNoExt a) firstWrite.

Definition setFileName (fileName : bytes) (a : appender) : appender :=
  let '(fileNameNoExt, fileExt) := splitFileName fileName in
  mkAppender None (m_fileSize a) (m_maxFileSize a) (m_maxFiles a) fileExt fileNameNoExt true.
Definition setMaxFiles (maxFiles : Z) (a : appender) : appender :=
  mkAppender (m_file a) (m_fileSize a) (m_maxFileSize a) maxFiles (m_fileExt a) (m_fileNameNoExt a) (m_firstWrite a).
Definition setMaxFileSize (maxFileSize : Z) (a : appender) : appender :=
  mkAppender (m_file a) (m_fileSize a) (Z.max maxFileSize 1000) (m_maxFiles a) (m_fileExt a) (m_fileNameNoExt a) (m_firstWrite a).

(** The constructor. *)
Definition make_appender (fileName : bytes) (maxFileSize maxFiles : Z) : appender :=
  setMaxFileSize maxFileSize (setFileName fileName (mkAppender None 0 0 maxFiles [] [] true)).

Section appender.
(** [Formatter::header()] and [Formatter::format()]; the converter is that of the default
    template argument. *)
Context `{FileSystem} (header : bytes) (format : Record_ → bytes).

(** [m_fileSize += bytesWritten], unless the write failed. *)
Definition add_size (size bytesWritten : Z) : Z :=
  if bytesWritten =? SIZE_ERROR then size else wrap 64 (size + bytesWritten).

Definition openLogFile (a : appender) (fs : files) : appender * files :=
  let '(file, fs, size) := file_open (buildFileName a 0) fs in
  if size =? 0 then
    let '(fs, bytesWritten) := file_write file (converter_header header) fs in
    (set_file file (add_size size bytesWritten) a, fs)
  else (set_file file size a, fs).

(** The loop over the older files: [n] is [fileNumber + 1]. *)
Fixpoint rename_files (n : nat) (a : appender) (fs : files) : files :=
  match n with
  | O => fs
  | S i => rename_files i a (file_rename (buildFileName a (Z.of_nat i)) (buildFileName a (Z.of_nat i + 1)) fs)
  end.

Definition rollLogFiles (a : appender) (fs : files) : appender * files :=
  let a := set_file None (m_fileSize a) a in
  let fs := file_unlink (buildFileName a (m_maxFiles a - 1)) fs in
  let fs := rename_files (Z.to_nat (m_maxFiles a - 1)) a fs in
  let '(a, fs) := openLogFile a fs in
  (set_firstWrite false a, fs).

Definition write (a : appender) (record : Record_) (fs : files) : appender * files :=
  let '(a, fs) :=
    if m_firstWrite a then
      let '(a, fs) := openLogFile a fs in (set_firstWrite false a, fs)
    else if (0 <? m_maxFiles a) && (m_maxFileSize a <? m_fileSize a) && negb (m_fileSize a =? SIZE_ERROR) then
      rollLogFiles a fs
    else (a, fs) in
  let '(fs, bytesWritten) := file_write (m_file a) (convert (format record)) fs in
  (set_file (m_file a) (add_size (m_fileSize a) bytesWritten) a, fs).

(** Several records, one after the other. *)
Fixpoint writes (a : appender) (records : list Record_) (fs : files) : appender * files :=
  match records with
  | [] => (a, fs)
  | r :: rest => let '(a, fs) := write a r fs in writes a rest fs
  end.
End appender.

(** ** Lemmas *)

Lemma dec_inj i j : 0 ≤ i → 0 ≤ j → dec i = dec j → i = j.
Proof.
  intros Hi Hj E. unfold dec in E. rewrite !(proj2 (Z.ltb_ge _ 0)) in E by done.
  destruct (dec_nonneg_spec i Hi) as [Ei _]. destruct (dec_nonneg_spec j Hj) as [Ej _]. congruence.
Qed.

(** The names of the log files are different. *)
Lemma buildFileName_inj a (i j : nat) : buildFileName a (Z.of_nat i) = buildFileName a (Z.of_nat j) → i = j.
Proof.
  unfold buildFileName. intros E. apply app_inv_head in E. revert E.
  generalize (if bool_decide (m_fileExt a = []) then [] else b#"." ++ m_fileExt a). intros ext E.
  apply app_inv_tail in E. destruct (Z.ltb_spec 0 (Z.of_nat i)), (Z.ltb_spec 0 (Z.of_nat j)); try done; try lia.
  apply app_inv_head, dec_inj in E; lia.
Qed.

Lemma buildFileName_set_file file size a i : buildFileName (set_file file size a) i = buildFileName a i.
Proof. done. Qed.

(** The system refuses nothing: without this, a record whose write or whose file is
    refused is lost ([file_write] and [file_open] give what is left then). *)
Class Healthy `{FileSystem} : Prop := {
  healthy_open : ∀ name, can_open name = true;
  healthy_write : ∀ fs name buf, accepted fs name buf = Some (length buf);
  healthy_unlink : ∀ name, can_unlink name = true;
  healthy_rename : ∀ old new, can_rename old new = true
}.

Section healthy.
Context `{Healthy}.

(** Every file takes the place of the next older one. *)
Lemma rename_files_spec n a fs (name := λ i : nat, buildFileName a (Z.of_nat i)) :
  fs !! name n = None →
  rename_files n a fs !! name O = None ∧
  (∀ i, (i < n)%nat → rename_files n a fs !! name (S i) = fs !! name i) ∧
  (∀ x, (∀ i, (i ≤ n)%nat → x ≠ name i) → rename_files n a fs !! x = fs !! x).
Proof.
  assert (∀ i j, name i = name j → i = j) as Hinj by (intros i j; apply buildFileName_inj).
  revert fs. induction n as [|n IH]; intros fs Hn; cbn [rename_files]; [split; [done|]; split; [lia|done]|].
  replace (Z.of_nat n + 1) with (Z.of_nat (S n)) by lia. fold (name n) (name (S n)).
  set (fs1 := file_rename (name n) (name (S n)) fs).
  assert (∀ x, fs1 !! x = if decide (x = name (S n)) then fs !! name n else if decide (x = name n) then None else fs !! x) as E.
  { intros x. unfold fs1, file_rename. destruct (fs !! name n) as [content|] eqn:En.
    - rewrite healthy_rename. destruct (decide (x = name (S n))) as [->|Hx]; [by rewrite lookup_insert_eq|].
      rewrite lookup_insert_ne by done. destruct (decide (x = name n)) as [->|Hx']; [by rewrite lookup_delete_eq|by rewrite lookup_delete_ne].
    - destruct (decide (x = name (S n))) as [->|]; [done|]. by destruct (decide (x = name n)) as [->|]. }
  destruct (IH fs1) as (Hz & Hs & Hx).
  { rewrite E, decide_False, decide_True; [done..|]. intros Hn'. apply Hinj in Hn'. lia. }
  split; [done|]. split.
  - intros i Hi. destruct (decide (i = n)) as [->|Hin].
    + rewrite Hx; [by rewrite E, decide_True|]. intros j Hj Hn'. apply Hinj in Hn'. lia.
    + rewrite Hs by lia. rewrite E, !decide_False; [done|..]; intros Hn'; apply Hinj in Hn'; lia.
  - intros x Hx'. rewrite Hx by (intros; apply Hx'; lia). rewrite E, !decide_False; [done|..]; apply Hx'; lia.
Qed.

(** ** The log as a list of runs of records, the newest first *)

Context (header : bytes) (format : Record_ → bytes).

(** The header and the records of a file. *)
Definition file_text (run : list Record_) : bytes := converter_header header ++ concat (format <$> run).

(** What a record does to the runs: a new run is begun when the newest one is over the
    limit, and the oldest is dropped when there are too many. *)
Definition spec_write (limit : Z) (n : nat) (record : Record_) (runs : list (list Record_)) : list (list Record_) :=
  match runs with
  | [] => [[record]]
  | run :: older =>
      if limit <? blen (file_text run) then take n ([record] :: run :: older) else (run ++ [record]) :: older
  end.

(** The files of the given names hold the runs, and no other file has changed. *)
Record holds (name : nat → bytes) (fs0 : files) (n : nat) (runs : list (list Record_)) (fs : files) : Prop := {
  holds_files : ∀ i, (i < n)%nat → fs !! name i = file_text <$> runs !! i;
  holds_others : ∀ x, (∀ i, (i < n)%nat → x ≠ name i) → fs !! x = fs0 !! x
}.

(** The state between two writes. *)
Record in_log (name : nat → bytes) (fs0 : files) (limit : Z) (n : nat) (runs : list (list Record_)) (a : appender) (fs : files) : Prop := {
  in_log_name : ∀ i, buildFileName a (Z.of_nat i) = name i;
  in_log_maxFiles : m_maxFiles a = Z.of_nat n;
  in_log_limit : m_maxFileSize a = limit;
  in_log_holds : holds name fs0 n runs fs;
  in_log_open :
    match runs with
    | [] => m_firstWrite a = true
    | run :: _ => m_firstWrite a = false ∧ m_file a = Some (name O) ∧ m_fileSize a = blen (file_text run) ∧ m_fileSize a < SIZE_ERROR
    end
}.

Lemma file_text_snoc run r : file_text (run ++ [r]) = file_text run ++ format r.
Proof. unfold file_text. rewrite fmap_app, concat_app. cbn. by rewrite app_nil_r, <- app_assoc. Qed.

Lemma add_size_small size k : 0 ≤ size → 0 ≤ k → size + k < SIZE_ERROR → add_size size k = size + k.
Proof.
  unfold add_size, SIZE_ERROR. change (wrap 64 (-1)) with (2 ^ 64 - 1). intros. destruct (Z.eqb_spec k (2 ^ 64 - 1)); [lia|].
  unfold wrap. apply Z.mod_small. lia.
Qed.

(** Opening a file that does not exist writes its header. *)
Lemma openLogFile_new a fs :
  fs !! buildFileName a 0 = None → blen (converter_header header) < SIZE_ERROR →
  openLogFile header a fs =
    (set_file (Some (buildFileName a 0)) (blen (file_text [])) a, <[buildFileName a 0 := file_text []]> fs).
Proof.
  intros Hf Hl. unfold openLogFile, file_open. rewrite healthy_open, Hf. cbn [default from_option].
  change (blen [] =? 0) with true. cbv iota. unfold file_write. rewrite healthy_write. rewrite firstn_all.
  rewrite lookup_insert_eq, insert_insert_eq. cbn [default from_option app]. unfold file_text. cbn [fmap list_fmap concat].
  rewrite app_nil_r, add_size_small by (change (@blen ascii []) with 0; pose_blen; lia). done.
Qed.

(** Adding a record to the newest file. *)
Lemma append_record a fs run r :
  m_file a = Some (buildFileName a 0) → m_fileSize a = blen (file_text run) → fs !! buildFileName a 0 = Some (file_text run) →
  blen (file_text run) + blen (format r) < SIZE_ERROR →
  (let '(fs', bytesWritten) := file_write (m_file a) (convert (format r)) fs in
   (set_file (m_file a) (add_size (m_fileSize a) bytesWritten) a, fs')) =
  (set_file (Some (buildFileName a 0)) (blen (file_text (run ++ [r]))) a, <[buildFileName a 0 := file_text (run ++ [r])]> fs).
Proof.
  intros Hm Hs Hf Hl. rewrite Hm, Hs. unfold file_write, convert. rewrite healthy_write, firstn_all, Hf. cbn [default from_option].
  rewrite file_text_snoc, blen_app, add_size_small by (pose proof (blen_nonneg (format r)); pose proof (blen_nonneg (file_text run)); lia). done.
Qed.

(** Renaming makes room for a new file. *)
Lemma roll_slots name fs0 n runs a fs :
  (0 < n)%nat → (∀ i, buildFileName a (Z.of_nat i) = name i) → holds name fs0 n runs fs →
  let fs' := rename_files (n - 1) a (file_unlink (name (n - 1)%nat) fs) in
  fs' !! name O = None ∧ (∀ i, (S i < n)%nat → fs' !! name (S i) = file_text <$> runs !! i) ∧
  (∀ x, (∀ i, (i < n)%nat → x ≠ name i) → fs' !! x = fs0 !! x).
Proof.
  intros Hn Hname [Hf Ho] fs'. unfold fs', file_unlink. rewrite healthy_unlink.
  assert (∀ i j, name i = name j → i = j) as Hinj by (intros i j; rewrite <- !Hname; apply buildFileName_inj).
  destruct (rename_files_spec (n - 1) a (delete (name (n - 1)%nat) fs)) as (Hz & Hs & Hx);
    [by rewrite Hname, lookup_delete_eq|]. rewrite Hname in Hz. split; [done|]. split.
  - intros i Hi. specialize (Hs i ltac:(lia)). rewrite !Hname in Hs. rewrite Hs, lookup_delete_ne; [apply Hf; lia|].
    intros E. apply Hinj in E. lia.
  - intros x Hx'. rewrite Hx; [|intros; rewrite Hname; apply Hx'; lia]. rewrite lookup_delete_ne; [by apply Ho|].
    intros E. apply (Hx' (n - 1)%nat); [lia|done].
Qed.

(** One record. *)
Lemma write_in_log name fs0 limit n runs a fs r :
  (0 < n)%nat → in_log name fs0 limit n runs a fs → Z.max (blen (converter_header header)) limit + blen (format r) < SIZE_ERROR →
  in_log name fs0 limit n (spec_write limit n r runs) (write header format a r fs).1 (write header format a r fs).2.
Proof.
  intros Hn [Hname Hmax Hlim Hh Hopen] Hsize. pose proof (blen_nonneg (format r)) as Hr.
  assert (∀ i j, name i = name j → i = j) as Hinj by (intros i j; rewrite <- !Hname; apply buildFileName_inj).
  pose proof (Hname O) as Hname0. change (Z.of_nat 0) with 0 in Hname0.
  assert (blen (file_text []) = blen (converter_header header)) as Hh0 by (unfold file_text; by rewrite app_nil_r).
  (* a new file with one record *)
  assert (∀ a1 fs1, (∀ i, buildFileName a1 i = buildFileName a i) → m_maxFiles a1 = m_maxFiles a → m_maxFileSize a1 = m_maxFileSize a →
    fs1 !! name O = None →
    (∀ i, (S i < n)%nat → fs1 !! name (S i) = file_text <$> runs !! i) → (∀ x, (∀ i, (i < n)%nat → x ≠ name i) → fs1 !! x = fs0 !! x) →
    let '(a2, fs2) := openLogFile header a1 fs1 in
    let '(fs3, k) := file_write (m_file (set_firstWrite false a2)) (convert (format r)) fs2 in
    in_log name fs0 limit n (take n ([r] :: runs)) (set_file (m_file (set_firstWrite false a2)) (add_size (m_fileSize (set_firstWrite false a2)) k) (set_firstWrite false a2)) fs3) as Hnew.
  { intros a1 fs1 En E1 E2 Hz Hs Ho. rewrite openLogFile_new by (rewrite ?En, ?Hname0; done || lia).
    pose proof (append_record (set_firstWrite false (set_file (Some (buildFileName a1 0)) (blen (file_text [])) a1))
      (<[buildFileName a1 0 := file_text []]> fs1) [] r eq_refl eq_refl) as Happ.
    cbn [m_file m_fileSize set_file set_firstWrite] in *. rewrite lookup_insert_eq in Happ.
    specialize (Happ eq_refl ltac:(lia)). destruct (file_write _ _ _) as [fs3 k]. injection Happ as Hk ->.
    destruct n as [|n]; [lia|]. split; cbn [take app m_maxFiles m_maxFileSize m_firstWrite m_file m_fileSize set_file set_firstWrite]; try congruence.
    - intros i. rewrite <- Hname, <- En. done.
    - rewrite insert_insert_eq. split.
      + intros [|i] Hi; rewrite En, Hname0; [by rewrite lookup_insert_eq|].
        rewrite lookup_insert_ne by (intros E; apply Hinj in E; lia). rewrite Hs by done. change (([r] :: take n runs) !! S i) with (take n runs !! i). by rewrite lookup_take_lt by lia.
      + intros x Hx. rewrite En, Hname0, lookup_insert_ne by (intros E; apply (Hx O); [lia|done]). by apply Ho.
    - rewrite En, Hname0. split; [done|]. split; [done|]. rewrite Hk. split; [done|].
      change (file_text [r]) with (file_text ([] ++ [r])). rewrite file_text_snoc, blen_app. lia. }
  unfold write. destruct Hh as [Hf Ho]. destruct runs as [|run older].
  - rewrite Hopen. specialize (Hnew a fs (λ _, eq_refl) eq_refl eq_refl (Hf O Hn) (λ i Hi, Hf (S i) Hi) Ho).
    destruct (openLogFile header a fs) as [a2 fs2]. destruct (file_write _ _ _) as [fs3 k]. cbn [fst snd spec_write].
    by destruct n as [|n]; [lia|destruct n].
  - destruct Hopen as (Hfw & Hm & Hs & Hse). rewrite Hfw, Hmax, Hlim. rewrite (proj2 (Z.ltb_lt 0 (Z.of_nat n))) by lia.
    rewrite (proj2 (Z.eqb_neq (m_fileSize a) SIZE_ERROR)) by lia. cbn [andb negb]. rewrite andb_true_r. cbn [spec_write]. rewrite <- Hs.
    destruct (Z.ltb_spec limit (m_fileSize a)) as [Hover|Hunder].
    + unfold rollLogFiles. cbn [m_maxFiles set_file]. rewrite Hmax.
      replace (Z.of_nat n - 1) with (Z.of_nat (n - 1)) by lia. rewrite Nat2Z.id, buildFileName_set_file, Hname.
      destruct (roll_slots name fs0 n (run :: older) (set_file None (m_fileSize a) a) fs Hn Hname ltac:(by split)) as (Hz & Hsl & Hx).
      specialize (Hnew (set_file None (m_fileSize a) a) _ (λ _, eq_refl) eq_refl eq_refl Hz Hsl Hx).
      destruct (openLogFile header _ _) as [a2 fs2]. destruct (file_write _ _ _) as [fs3 k]. exact Hnew.
    + pose proof (append_record a fs run r ltac:(congruence) Hs ltac:(by rewrite Hname0, Hf) ltac:(lia)) as Happ.
      destruct (file_write _ _ _) as [fs' k]. injection Happ as _ Hk ->. cbn [fst snd].
      split; cbn [m_maxFiles m_maxFileSize m_firstWrite m_file m_fileSize set_file]; try done.
      * rewrite Hname0. split.
        -- intros [|i] Hi; [by rewrite lookup_insert_eq|]. rewrite lookup_insert_ne by (intros E; apply Hinj in E; lia). by rewrite Hf.
        -- intros x Hx. rewrite lookup_insert_ne by (intros E; apply (Hx O); [lia|done]). by apply Ho.
      * split; [done|]. split; [done|]. rewrite Hk. split; [done|]. rewrite file_text_snoc, blen_app. lia.
Qed.

(** Several records, on the runs. *)
Definition spec_log (limit : Z) (n : nat) (records : list Record_) (runs : list (list Record_)) : list (list Record_) :=
  foldl (λ runs r, spec_write limit n r runs) runs records.

Lemma writes_in_log name fs0 limit n records :
  (0 < n)%nat → Forall (λ r, Z.max (blen (converter_header header)) limit + blen (format r) < SIZE_ERROR) records →
  ∀ runs a fs, in_log name fs0 limit n runs a fs →
  in_log name fs0 limit n (spec_log limit n records runs) (writes header format a records fs).1 (writes header format a records fs).2.
Proof.
  intros Hn Hs. induction Hs as [|r records Hr Hs IH]; intros runs a fs Hl; [done|].
  cbn [writes spec_log foldl]. pose proof (write_in_log name fs0 limit n runs a fs r Hn Hl Hr) as Hw.
  destruct (write header format a r fs) as [a' fs']. by apply IH.
Qed.

(** The records of the runs are the last ones; the lost ones were in files beyond the
    [n]-th.  A record is added to a file only within the limit, and a file is left only
    over it. *)
Record log_of (limit : Z) (n : nat) (records : list Record_) (runs : list (list Record_)) : Prop := {
  log_length : (length runs ≤ n)%nat;
  log_suffix : ∃ lost, records = lost ++ concat (reverse runs) ∧ ((length runs < n)%nat → lost = []);
  log_sizes : Forall (λ run, ∃ pre r, run = pre ++ [r] ∧ (pre = [] ∨ blen (file_text pre) ≤ limit)) runs;
  log_closed : Forall (λ run, limit < blen (file_text run)) (tail runs)
}.

Lemma concat_reverse_take n (runs : list (list Record_)) :
  concat (reverse runs) = concat (reverse (drop n runs)) ++ concat (reverse (take n runs)).
Proof. rewrite <- concat_app, <- reverse_app. by rewrite take_drop. Qed.

Lemma spec_write_log limit n records runs r :
  (0 < n)%nat → log_of limit n records runs → log_of limit n (records ++ [r]) (spec_write limit n r runs).
Proof.
  intros Hn [Hlen (lost & E & Hlost) Hsz Hcl]. destruct runs as [|run older]; cbn [spec_write].
  - split; [cbn; lia| |repeat constructor; exists [], r; auto|constructor].
    exists lost. rewrite E. cbn. rewrite app_nil_r. split; [done|]. intros _. apply Hlost. cbn. lia.
  - destruct (Z.ltb_spec limit (blen (file_text run))) as [Ho|Hu].
    + split.
      * rewrite length_take. lia.
      * exists (lost ++ concat (reverse (drop n ([r] :: run :: older)))). rewrite <- app_assoc, <- concat_reverse_take.
        split; [rewrite E, (reverse_cons (run :: older)), concat_app; cbn [concat]; by rewrite app_nil_r, <- app_assoc|].
        rewrite length_take. intros Hl. rewrite Hlost by (cbn [length] in *; lia). rewrite drop_ge by (cbn [length] in *; lia). done.
      * apply Forall_take. constructor; [exists [], r; auto|done].
      * destruct n as [|n]; [lia|]. cbn [take tail]. apply Forall_take. constructor; [done|exact Hcl].
    + apply Forall_cons in Hsz as [_ Hsz]. split; [done| | |exact Hcl].
      * exists lost. split; [|exact Hlost]. rewrite E, !reverse_cons, !concat_app. cbn. by rewrite !app_nil_r, <- !app_assoc.
      * constructor; [exists run, r; auto|done].
Qed.

Lemma spec_log_log limit n new : (0 < n)%nat → ∀ records runs,
  log_of limit n records runs → log_of limit n (records ++ new) (spec_log limit n new runs).
Proof.
  intros Hn. induction new as [|r new IH]; intros records runs Hl; [by rewrite app_nil_r|].
  change (r :: new) with ([r] ++ new). rewrite app_assoc. by apply (IH _ (spec_write limit n r runs)), spec_write_log.
Qed.

(** C33 (refinement): the log files, when there were none before and the system refuses nothing (no [open],
    [write], [unlink] or [rename] fails and every write is complete; [maxFiles] is positive, and no
    file reaches the size that stands for an error).  After any records, the [maxFiles] files hold the last ones, the oldest file first and none cut in two, each
    file with its header; records are lost only with files beyond [maxFiles]; a file grows
    only while it is within the limit and is left only when it is over it; and no other file of
    the system changes. *)
Theorem rolling_log fileName maxFileSize n records fs (name := λ i : nat, buildFileName (make_appender fileName maxFileSize (Z.of_nat n)) (Z.of_nat i)) :
  (0 < n)%nat → (∀ i, (i < n)%nat → fs !! name i = None) →
  Forall (λ r, Z.max (blen (converter_header header)) (Z.max maxFileSize 1000) + blen (format r) < SIZE_ERROR) records →
  let fs' := (writes header format (make_appender fileName maxFileSize (Z.of_nat n)) records fs).2 in
  ∃ runs, log_of (Z.max maxFileSize 1000) n records runs ∧
    (∀ i, (i < n)%nat → fs' !! name i = file_text <$> runs !! i) ∧
    (∀ x, (∀ i, (i < n)%nat → x ≠ name i) → fs' !! x = fs !! x).
Proof.
  intros Hn Hnone Hs fs'. exists (spec_log (Z.max maxFileSize 1000) n records []). split.
  - apply (spec_log_log _ n records Hn []). split; [cbn; lia|by exists []|constructor|constructor].
  - assert (in_log name fs (Z.max maxFileSize 1000) n [] (make_appender fileName maxFileSize (Z.of_nat n)) fs) as Hi.
    { split; try done; by unfold make_appender, setFileName; destruct (splitFileName fileName). }
    destruct (in_log_holds _ _ _ _ _ _ _ (writes_in_log _ _ _ _ _ Hn Hs _ _ _ Hi)) as [Hf Ho]. by split.
Qed.
End healthy.

(** A system that refuses nothing. *)
#[local] Instance permissive : FileSystem := {
  can_open _ := true; accepted _ _ buf := Some (length buf); can_unlink _ := true; can_rename _ _ := true
}.
#[local] Instance permissive_healthy : Healthy.
Proof. by split. Qed.

(** A record whose text is longer than the smallest limit. *)
Definition long_record (line : Z) : Record_ :=
  put_string (replicate 1001 "x"%char) (make_record (mkTime 0 0) 1 info b#"main()" line [] 0 0).

Lemma rolling_log_witness :
  let records := long_record <$> [1; 2; 3] in
  let name := λ i : nat, buildFileName (make_appender b#"server.log" 0 2) (Z.of_nat i) in
  name 1%nat = b#"server.1.log" ∧
  ∃ runs, log_of [] func_message_format 1000 2 records runs ∧
    (writes [] func_message_format (make_appender b#"server.log" 0 2) records ∅).2 !! name 1%nat =
      file_text [] func_message_format <$> runs !! 1%nat.
Proof.
  intros records name. split; [reflexivity|].
  destruct (rolling_log [] func_message_format b#"server.log" 0 2 records ∅) as (runs & Hl & Hf & _).
  - lia.
  - done.
  - repeat constructor; vm_compute; reflexivity.
  - exists runs. split; [exact Hl|]. apply Hf. lia.
Defined.

(** The extension is looked for in the whole path: with a point in the name of a directory only,
    the older files are in other directories. *)
Example rolling_directory_point :
  buildFileName (make_appender b#"/var/log.d/server" 0 2) 1 = b#"/var/log.1.d/server".
Proof. reflexivity. Qed.

(** A name that ends in a point loses it. *)
Example rolling_final_point : buildFileName (make_appender b#"server." 0 2) 0 = b#"server".
Proof. reflexivity. Qed.

(** [rollLogFiles] on an appender without a number of files empties its only file. *)
Lemma roll_without_files header fileName maxFileSize fs :
  let a := make_appender fileName maxFileSize 0 in
  blen (converter_header header) < SIZE_ERROR →
  (rollLogFiles header a fs).2 !! buildFileName a 0 = Some (converter_header header).
Proof.
  intros a Hl. unfold rollLogFiles. cbn [m_maxFiles set_file].
  assert (m_maxFiles a = 0) as -> by (unfold a, make_appender, setFileName; by destruct (splitFileName fileName)).
  change (Z.to_nat (0 - 1)) with O. cbn [rename_files]. rewrite (openLogFile_new header (λ _, [])); [|by apply lookup_delete_eq|done].
  cbn [fst snd]. rewrite buildFileName_set_file, lookup_insert_eq. unfold file_text. cbn. by rewrite app_nil_r.
Qed.
