(* ===== verification/PlogInit.v ===== *)
(** * PlogInit: consoles, initializers and the logging macros of plog
      ([include/plog/Appenders/ConsoleAppender.h], [ColorConsoleAppender.h], [Init.h],
      [Initializers/RollingFileInitializer.h], [Log.h])

    The loggers of a process with everything they write to.  An appender is known by its address:
    a console, the static [RollingFileAppender] of an instance of [init], or a logger, which is an
    appender as well.  POSIX only; [PLOG_DISABLE_LOGGING] is not defined. *)

From S2P Require Import Prelude CString ThreadSafeMap Plog PlogRolling.

(** ** Appenders *)

Inductive formatter := CsvFormatter | TxtFormatter | FuncMessageFormatter | MessageOnlyFormatter.

#[export] Instance formatter_eq_dec : EqDecision formatter.
Proof. solve_decision. Defined.
#[export] Instance formatter_countable : Countable formatter.
Proof.
  refine (inj_countable' (λ f, match f with CsvFormatter => 0%nat | TxtFormatter => 1%nat | FuncMessageFormatter => 2%nat | MessageOnlyFormatter => 3%nat end)
    (λ n, match n with 0 => CsvFormatter | 1 => TxtFormatter | 2 => FuncMessageFormatter | _ => MessageOnlyFormatter end%nat) _).
  by intros [].
Defined.

Inductive OutputStream := streamStdOut | streamStdErr.

(** [ConsoleAppender], or [ColorConsoleAppender] when [color]. *)
Record console := mkConsole { outStream : OutputStream; m_isatty : bool; color : bool; c_formatter : formatter }.

Inductive address :=
| AConsole (c : console)
| ARolling (f : formatter) (instanceId : Z)
| ALogger (instanceId : Z).

(** A process: its files, what it has printed, and its static objects. *)
Record process := mkProcess {
  fs : files;
  stdout : bytes;
  stderr : bytes;
  rolling : gmap (formatter * Z) appender;
  loggers : gmap Z (@Logger address)
}.

Definition start (fs : files) : process := mkProcess fs [] [] ∅ ∅.

Section plog.
Context `{FileSystem} (calendar : Z → tm) (pointer_text : Z → bytes).

Definition header_of (f : formatter) : bytes :=
  match f with CsvFormatter => csv_header | TxtFormatter => txt_header | _ => [] end.

(** The fuel of the CSV formatter suffices ([csv_message_eq]). *)
Definition format_of (f : formatter) (r : Record_) : bytes :=
  match f with
  | CsvFormatter => default [] (csv_format calendar pointer_text r)
  | TxtFormatter => txt_format calendar r
  | FuncMessageFormatter => func_message_format r
  | MessageOnlyFormatter => message_only_format r
  end.

(** ** Consoles *)

Definition ESC : ascii := "027".

Definition setColor (c : console) (severity : Severity) : bytes :=
  if m_isatty c then
    match severity with
    | fatal => ESC :: b#"[97m" ++ ESC :: b#"[41m"
    | error => ESC :: b#"[91m"
    | warning => ESC :: b#"[93m"
    | debug | verbose => ESC :: b#"[96m"
    | _ => []
    end
  else [].

Definition resetColor (c : console) : bytes := if m_isatty c then ESC :: b#"[0m" ++ ESC :: b#"[0K" else [].

Definition console_text (c : console) (r : Record_) : bytes :=
  let str := format_of (c_formatter c) r in
  if color c then setColor c (m_severity r) ++ str ++ resetColor c else str.

Definition console_write (c : console) (r : Record_) (p : process) : process :=
  match outStream c with
  | streamStdOut => mkProcess (fs p) (stdout p ++ console_text c r) (stderr p) (rolling p) (loggers p)
  | streamStdErr => mkProcess (fs p) (stdout p) (stderr p ++ console_text c r) (rolling p) (loggers p)
  end.

(** ** [write] on an appender *)

Definition rolling_write (f : formatter) (i : Z) (r : Record_) (p : process) : option process :=
  a ← rolling p !! (f, i);
  let '(a, fs) := PlogRolling.write (header_of f) (format_of f) a r (fs p) in
  Some (mkProcess fs (stdout p) (stderr p) (<[(f, i) := a]> (rolling p)) (loggers p)).

(** [Logger::operator+=]: each appender in turn. *)
Definition write_each (write : address → process → option process) (l : list address) (p : process) : option process :=
  foldl (λ p a, p ← p; write a p) (Some p) l.

(** [depth] is how deep the calls of [write] may nest before the stack overflows. *)
Fixpoint write (depth : nat) (r : Record_) (a : address) (p : process) : option process :=
  match depth with
  | O => None
  | S depth =>
      match a with
      | AConsole c => Some (console_write c r p)
      | ARolling f i => rolling_write f i r p
      | ALogger i =>
          l ← loggers p !! i;
          if checkSeverity l (m_severity r) then write_each (write depth r) (m_appenders l) p else Some p
      end
  end.

(** ** [init] *)

Definition set_logger (i : Z) (l : @Logger address) (p : process) : process :=
  mkProcess (fs p) (stdout p) (stderr p) (rolling p) (<[i := l]> (loggers p)).

(** [init<instanceId>(maxSeverity, appender)]: the static logger is made by the first call. *)
Definition init (i : Z) (maxSeverity : Severity) (appender : option address) (p : process) : process :=
  let logger := default (mkLogger maxSeverity []) (loggers p !! i) in
  set_logger i (match appender with Some a => addAppender logger a | None => logger end) p.

(** [init<Formatter, instanceId>(maxSeverity, fileName, maxFileSize, maxFiles)]: so is the static appender. *)
Definition init_rolling (f : formatter) (i : Z) (maxSeverity : Severity) (fileName : bytes) (maxFileSize maxFiles : Z) (p : process) : process :=
  let a := default (make_appender fileName maxFileSize maxFiles) (rolling p !! (f, i)) in
  init i maxSeverity (Some (ARolling f i)) (mkProcess (fs p) (stdout p) (stderr p) (<[(f, i) := a]> (rolling p)) (loggers p)).

Definition isCsv (fileName : bytes) : bool :=
  match findExtensionDot fileName with Some (_, fileExt) => bool_decide (fileExt = b#"csv") | None => false end.

(** [init<instanceId>(maxSeverity, fileName, ...)]: the formatter by the extension. *)
Definition init_file (i : Z) (maxSeverity : Severity) (fileName : bytes) (maxFileSize maxFiles : Z) (p : process) : process :=
  init_rolling (if isCsv fileName then CsvFormatter else TxtFormatter) i maxSeverity fileName maxFileSize maxFiles p.

(** ** [PLOG_(instanceId, severity) << ...] *)

Definition PLOG (depth : nat) (i : Z) (r : Record_) (p : process) : option process :=
  match loggers p !! i with
  | None => Some p
  | Some l => if checkSeverity l (m_severity r) then write_each (write depth r) (m_appenders l) p else Some p
  end.

(** ** Where a record goes *)

(** The consoles and files that a record reaches, in order: a logger stands for its own
    appenders if it lets the record pass. *)
Fixpoint leaves (depth : nat) (severity : Severity) (ls : gmap Z (@Logger address)) (a : address) : list address :=
  match depth with
  | O => []
  | S depth =>
      match a with
      | ALogger i =>
          match ls !! i with
          | Some l => if checkSeverity l severity then flat_map (leaves depth severity ls) (m_appenders l) else []
          | None => []
          end
      | _ => [a]
      end
  end.

(** [write] on a console or a file. *)
Definition write_leaf (r : Record_) (a : address) (p : process) : option process :=
  match a with AConsole c => Some (console_write c r p) | ARolling f i => rolling_write f i r p | ALogger _ => None end.

(** The appenders exist, and no logger is below itself: [rank] falls from a logger to its appenders. *)
Definition rank_of (rank : Z → nat) (a : address) : nat := match a with ALogger i => S (rank i) | _ => 0 end.

Record connected (rank : Z → nat) (p : process) : Prop := {
  connected_loggers : ∀ i l a, loggers p !! i = Some l → a ∈ m_appenders l →
    (rank_of rank a ≤ rank i)%nat ∧
    match a with ALogger j => is_Some (loggers p !! j) | ARolling f j => is_Some (rolling p !! (f, j)) | AConsole _ => True end
}.

(** ** Lemmas *)

(** Writing changes no logger, and no static appender appears or disappears. *)
Definition same_objects (p q : process) : Prop :=
  loggers q = loggers p ∧ ∀ k, is_Some (rolling p !! k) → is_Some (rolling q !! k).

#[local] Instance same_objects_preorder : PreOrder same_objects.
Proof. split; [by split|]. intros p q s [H1 H2] [H3 H4]. split; [congruence|auto]. Qed.

Definition exists_in (p : process) (a : address) : Prop :=
  match a with ALogger j => is_Some (loggers p !! j) | ARolling f j => is_Some (rolling p !! (f, j)) | AConsole _ => True end.

Lemma same_exists p q a : same_objects p q → exists_in p a → exists_in q a.
Proof. intros [H1 H2]. destruct a; cbn; [done|apply H2|by rewrite H1]. Qed.

Lemma same_connected rank p q : same_objects p q → connected rank p → connected rank q.
Proof.
  intros Hs [Hc]. split. intros i l a Hl Ha. rewrite (proj1 Hs) in Hl. destruct (Hc i l a Hl Ha) as [Hr He].
  split; [done|]. by apply (same_exists p q).
Qed.

Lemma write_leaf_ok r a p : exists_in p a → rank_of (λ _, 0%nat) a = 0%nat → ∃ q, write_leaf r a p = Some q ∧ same_objects p q.
Proof.
  destruct a as [c|f i|i]; cbn; intros He Hr; [|destruct He as [a Ha]|done].
  - eexists. split; [done|]. by unfold console_write; destruct (outStream c).
  - unfold rolling_write. rewrite Ha. cbn. destruct (PlogRolling.write _ _ _ _ _) as [a' fs']. eexists. split; [done|].
    split; [done|]. intros k Hk. cbn. by apply lookup_insert_is_Some'; right.
Qed.

Lemma write_each_none (w : address → process → option process) l : foldl (λ p a, p ← p; w a p) None l = None.
Proof. by induction l. Qed.

Lemma write_each_cons w a l p : write_each w (a :: l) p = (q ← w a p; write_each w l q).
Proof. unfold write_each. cbn. destruct (w a p) as [q|]; [done|]. apply write_each_none. Qed.

Lemma write_each_app w l1 l2 p : write_each w (l1 ++ l2) p = (q ← write_each w l1 p; write_each w l2 q).
Proof.
  revert p. induction l1 as [|a l1 IH]; intros p; [done|]. cbn [app]. rewrite !write_each_cons.
  destruct (w a p) as [q|]; [|done]. cbn. apply IH.
Qed.

Lemma leaves_same depth severity p q a : same_objects p q → leaves depth severity (loggers q) a = leaves depth severity (loggers p) a.
Proof. by intros [-> _]. Qed.

(** A list of appenders whose [write] is the writing of their leaves. *)
Lemma write_each_leaves (w : address → process → option process) (lv : address → list address) r l p :
  (∀ a q, a ∈ l → same_objects p q → ∃ q', w a q = Some q' ∧ write_each (write_leaf r) (lv a) q = Some q' ∧ same_objects q q') →
  ∃ q, write_each w l p = Some q ∧ write_each (write_leaf r) (flat_map lv l) p = Some q ∧ same_objects p q.
Proof.
  revert p. induction l as [|a l IH]; intros p Hw; [by exists p|].
  destruct (Hw a p) as (q & H1 & H2 & H3); [by left|done|]. destruct (IH q) as (q' & H4 & H5 & H6).
  { intros b s Hb Hs. apply Hw; [by right|]. by etransitivity. }
  exists q'. cbn [flat_map]. rewrite write_each_cons, H1, write_each_app, H2. split; [done|]. split; [done|]. by etransitivity.
Qed.

Lemma write_leaves rank depth r a p :
  connected rank p → exists_in p a → (rank_of rank a < depth)%nat →
  ∃ q, write depth r a p = Some q ∧
    write_each (write_leaf r) (leaves depth (m_severity r) (loggers p) a) p = Some q ∧ same_objects p q.
Proof.
  revert a p. induction depth as [|depth IH]; intros a p Hc He Hd; [lia|].
  destruct a as [c|f i|i].
  - destruct (write_leaf_ok r (AConsole c) p He eq_refl) as (q & H1 & H2). by exists q.
  - destruct (write_leaf_ok r (ARolling f i) p He eq_refl) as (q & H1 & H2). exists q. cbn in *. by rewrite H1.
  - destruct He as [l Hl]. cbn in Hd |- *. rewrite Hl. cbn. destruct (checkSeverity l (m_severity r)); [|by exists p].
    apply write_each_leaves. intros a q Ha Hs. destruct (connected_loggers _ _ Hc i l a Hl Ha) as [Hr Hex].
    rewrite <- (leaves_same depth (m_severity r) p q a Hs). apply IH; [by eapply same_connected|by eapply same_exists|lia].
Qed.

(** What the consoles among the leaves print. *)
Definition printed (stream : OutputStream) (r : Record_) (l : list address) : bytes :=
  flat_map (λ a, match a with
                 | AConsole c => match outStream c, stream with
                                 | streamStdOut, streamStdOut | streamStdErr, streamStdErr => console_text c r
                                 | _, _ => []
                                 end
                 | _ => []
                 end) l.

Lemma printed_leaves r l p q : write_each (write_leaf r) l p = Some q →
  stdout q = stdout p ++ printed streamStdOut r l ∧ stderr q = stderr p ++ printed streamStdErr r l.
Proof.
  revert p. induction l as [|a l IH]; intros p; [intros [= <-]; cbn; by rewrite !app_nil_r|].
  rewrite write_each_cons. destruct (write_leaf r a p) as [s|] eqn:E; [|done]. cbn. intros H'%IH. destruct H' as [-> ->].
  unfold printed. cbn [flat_map]. rewrite !app_assoc.
  assert (∀ x y z : bytes, x = y → x ++ z = y ++ z) as Happ by (by intros ? ? ? ->).
  destruct a as [c|f i|i]; cbn in E; [| |done].
  - injection E as <-. unfold console_write. destruct (outStream c); cbn; by rewrite ?app_nil_r.
  - unfold rolling_write in E. destruct (rolling p !! (f, i)) as [a|]; [|done]. cbn in E.
    destruct (PlogRolling.write _ _ _ _ _) as [a' fs']. injection E as <-. cbn. by rewrite !app_nil_r.
Qed.

(** A record that is logged while no logger is, through others, its own appender reaches
    the consoles and files below its logger, each as often as it was added and in that order, and the call
    ends with no more nested calls than the loggers are high; the consoles then print the text of the record, in
    the colors of its severity, and nothing else; a record that is not severe enough goes nowhere. *)
Lemma logged rank depth i l r p :
  connected rank p → loggers p !! i = Some l → (rank i < depth)%nat →
  let reached := if checkSeverity l (m_severity r) then flat_map (leaves depth (m_severity r) (loggers p)) (m_appenders l) else [] in
  ∃ q, PLOG depth i r p = Some q ∧ write_each (write_leaf r) reached p = Some q ∧
    stdout q = stdout p ++ printed streamStdOut r reached ∧ stderr q = stderr p ++ printed streamStdErr r reached ∧
    loggers q = loggers p.
Proof.
  intros Hc Hl Hd reached. unfold PLOG. rewrite Hl. cbn.
  assert (∃ q, (if checkSeverity l (m_severity r) then write_each (write depth r) (m_appenders l) p else Some p) = Some q ∧
    write_each (write_leaf r) reached p = Some q ∧ same_objects p q) as (q & H1 & H2 & H3).
  { unfold reached. destruct (checkSeverity l (m_severity r)); [|by exists p].
    apply write_each_leaves. intros a q Ha Hs. destruct (connected_loggers _ _ Hc i l a Hl Ha) as [Hr Hex].
    rewrite <- (leaves_same depth (m_severity r) p q a Hs).
    apply (write_leaves rank); [by eapply same_connected|by eapply same_exists|lia]. }
  exists q. destruct (printed_leaves _ _ _ _ H2) as [Ho He]. split; [done|]. split; [done|]. split; [done|]. split; [done|]. apply H3.
Qed.

(** ** Several calls of [init] *)

Record call := mkCall { call_formatter : formatter; call_severity : Severity; call_file : bytes; call_maxFileSize : Z; call_maxFiles : Z }.

Definition init_call (i : Z) (c : call) (p : process) : process :=
  init_rolling (call_formatter c) i (call_severity c) (call_file c) (call_maxFileSize c) (call_maxFiles c) p.
Definition inits (i : Z) (cs : list call) (p : process) : process := foldl (λ p c, init_call i c p) p cs.

Definition appender_of (c : call) : appender := make_appender (call_file c) (call_maxFileSize c) (call_maxFiles c).

Lemma init_call_spec i c p :
  loggers (init_call i c p) !! i =
    Some (let l := default (mkLogger (call_severity c) []) (loggers p !! i) in addAppender l (ARolling (call_formatter c) i)) ∧
  ∀ f, rolling (init_call i c p) !! (f, i) =
    if bool_decide (f = call_formatter c) then Some (default (appender_of c) (rolling p !! (f, i))) else rolling p !! (f, i).
Proof.
  unfold init_call, init_rolling, init. cbn. split; [by rewrite lookup_insert_eq|]. intros f. case_bool_decide as Hf.
  - subst f. by rewrite lookup_insert_eq.
  - rewrite lookup_insert_ne; [done|]. intros [= E]. by apply Hf.
Qed.

(** The first call decides the severity, and the first one with a formatter its file and limits; every call adds
    its appender once more. *)
Lemma inits_spec i c cs p :
  loggers p !! i = None → (∀ f, rolling p !! (f, i) = None) →
  loggers (inits i (c :: cs) p) !! i = Some (mkLogger (call_severity c) (map (λ c, ARolling (call_formatter c) i) (c :: cs))) ∧
  ∀ f, rolling (inits i (c :: cs) p) !! (f, i) = appender_of <$> head (filter (λ c, call_formatter c = f) (c :: cs)).
Proof.
  intros Hl Hr. induction cs as [|d cs IH] using rev_ind.
  - cbn [inits foldl]. destruct (init_call_spec i c p) as [H1 H2]. rewrite H1, Hl. split; [done|]. intros f. rewrite H2, Hr.
    rewrite filter_cons, filter_nil. case_bool_decide; destruct (decide (call_formatter c = f)); congruence || done.
  - destruct IH as [IHl IHr].
    assert (inits i (c :: cs ++ [d]) p = init_call i d (inits i (c :: cs) p)) as -> by (unfold inits; by rewrite app_comm_cons, foldl_app).
    rewrite app_comm_cons. set (q := inits i (c :: cs) p) in *. destruct (init_call_spec i d q) as [H1 H2]. split.
    + rewrite H1, IHl. unfold addAppender. cbn. by rewrite map_app.
    + intros f. rewrite H2, filter_app, IHr. destruct (filter (λ c, call_formatter c = f) (c :: cs)) as [|e es] eqn:E; cbn [app head].
      * rewrite filter_cons, filter_nil. case_bool_decide as Hf; destruct (decide (call_formatter d = f)); congruence || done.
      * by case_bool_decide.
Qed.
End plog.

(** ** Examples *)

#[local] Instance permissive : FileSystem :=
  { can_open _ := true; accepted _ _ buf := Some (length buf); can_unlink _ := true; can_rename _ _ := true }.

Definition example_calendar : Z → tm := λ _, mkTm 124 0 31 12 5 0.
Definition example_pointer_text : Z → bytes := λ _, b#"0".
Definition hello : Record_ := put_chars (Some b#"hello") (make_record (mkTime 0 7) 42 error b#"main()" 12 b#"" 0 0).
Definition console_out : address := AConsole (mkConsole streamStdOut true true MessageOnlyFormatter).

(** Two calls of [init] with different files: every record is written twice to the file of the first. *)
Example init_twice :
  (p ← PLOG example_calendar example_pointer_text 3 0 hello (init_file 0 info b#"b.txt" 0 0 (init_file 0 fatal b#"a.txt" 0 0 (start ∅))); Some (fs p)) = Some ∅ ∧
  (p ← PLOG example_calendar example_pointer_text 3 0 hello (init_rolling MessageOnlyFormatter 0 fatal b#"b.txt" 0 0 (init_rolling MessageOnlyFormatter 0 info b#"a.txt" 0 0 (start ∅)));
   Some (map_to_list (fs p))) = Some [(b#"a.txt", kBOM ++ b#"hello" ++ [LF] ++ b#"hello" ++ [LF])].
Proof. split; vm_compute; reflexivity. Qed.

Definition two_loggers : process := init 1 warning (Some (AConsole (mkConsole streamStdOut true true MessageOnlyFormatter))) (init 0 debug (Some (ALogger 1)) (start ∅)).

(** A logger below another, and a record in colors. *)
Lemma logged_witness :
  (connected (λ i, if i =? 0 then 1%nat else 0%nat) two_loggers ∧ loggers two_loggers !! 0 = Some (mkLogger debug [ALogger 1]) ∧ (1 < 2)%nat) ∧
  ∃ q, PLOG example_calendar example_pointer_text 2 0 hello two_loggers = Some q ∧
    stdout q = ESC :: b#"[91mhello" ++ [LF] ++ ESC :: b#"[0m" ++ ESC :: b#"[0K".
Proof.
  assert (connected (λ i, if i =? 0 then 1%nat else 0%nat) two_loggers) as Hc.
  { split. intros i l a Hl Ha. assert (loggers two_loggers = {[1 := mkLogger warning [console_out]; 0 := mkLogger debug [ALogger 1]]}) as E by reflexivity.
    rewrite E in Hl. apply lookup_insert_Some in Hl as [[<- <-]|[_ Hl]].
    - apply list_elem_of_singleton in Ha as ->. cbn. split; [lia|done].
    - apply lookup_singleton_Some in Hl as [<- <-]. apply list_elem_of_singleton in Ha as ->. cbn [rank_of]. split; [cbn; lia|]. rewrite E. by eexists. }
  split; [split; [exact Hc|split; [reflexivity|lia]]|].
  destruct (logged example_calendar example_pointer_text _ 2 0 _ hello two_loggers Hc eq_refl ltac:(cbn; lia)) as (q & H1 & _ & H2 & _).
  exists q. split; [exact H1|]. rewrite H2. reflexivity.
Defined.

(** Two loggers that are appenders of each other call each other for ever. *)
Example cyclic_loggers :
  PLOG example_calendar example_pointer_text 100 0 hello (init 1 debug (Some (ALogger 0)) (init 0 debug (Some (ALogger 1)) (start ∅))) = None.
Proof. vm_compute. reflexivity. Qed.

(** A severity of [none] passes every logger. *)
Example none_is_logged :
  let r := put_chars (Some b#"hello") (make_record (mkTime 0 7) 42 none b#"main()" 12 b#"" 0 0) in
  (p ← PLOG example_calendar example_pointer_text 3 0 r (init 0 none (Some (AConsole (mkConsole streamStdErr false true MessageOnlyFormatter))) (start ∅)); Some (stderr p)) = Some (b#"hello" ++ [LF]).
Proof. vm_compute. reflexivity. Qed.
