(* ===== verification/Server.v ===== *)
(** * Server: one thread per client ([src/server.cpp])

    [client_handler] is a loop over the commands of one client.  A command is
    received into [buffer]; [dispatch] is the chain of [strncmp] tests and the
    [cmd_*] definitions are its branches, in the order of the source.  The calls
    that other threads or the network can observe are [server_call]s; the store is
    used through the [Directory] interface.  Text printed on the console is not
    observable here, but printing an array reads it as a string ([cout]). *)

From S2P Require Import Prelude CString Prog Net User Directory.

Inductive store_call :=
| SAddUser (u : User)
| SLoginUser (username password : bytes)
| SLogOutUser (username : bytes)
| SHasUser (username : bytes)
| SIsLogin (username : bytes)
| SGetUser (username : bytes).

#[export] Instance store_call_eq_dec : EqDecision store_call.
Proof. solve_decision. Defined.

Definition store_result (c : store_call) : Type :=
  match c with
  | SAddUser _ => cres unit
  | SLoginUser _ _ => bool
  | SLogOutUser _ => unit
  | SHasUser _ => bool
  | SIsLogin _ => cres bool
  | SGetUser _ => cres (option User)
  end.

(** The member functions of [UserStore] that hold its mutex for their whole body: all but
    [logOutUser]. *)
Definition takes_mutex (c : store_call) : bool :=
  match c with SLogOutUser _ => false | _ => true end.

Inductive server_call :=
| CRunning                      (** [running.load()] *)
| CStore (c : store_call)
| CNet (c : net_call)
| CSigaction                    (** [sigaction(SIGINT, ...)] *)
| CSpawn (client_socket : Z)    (** [std::thread(client_handler, client_socket)]: whether the thread was started *)
| CJoin (t : nat).              (** [threads[t].join()] *)

#[export] Instance server_call_eq_dec : EqDecision server_call.
Proof. solve_decision. Defined.

Definition server_result (c : server_call) : Type :=
  match c with
  | CRunning => bool
  | CStore c => store_result c
  | CNet c => net_result c
  | CSigaction => Z
  | CSpawn _ => bool
  | CJoin _ => unit
  end.

Abbreviation sprog := (prog server_result).

Definition running_load : sprog bool := call CRunning.
Definition net (c : net_call) : sprog (net_result c) := call (result:=server_result) (CNet c).
Definition store (c : store_call) : sprog (store_result c) := call (result:=server_result) (CStore c).

(** [std::cout << array]: the array is read up to its terminator. *)
Definition cout (array : bytes) : sprog unit := _ ← lift_c (cstr array); mret tt.

(** [connect_to_client]: the result and the new value of [*client_socket_fd]. *)
Definition connect_to_client (client_ip_address : bytes) (client_port_int : Z) : sprog (Z * Z) :=
  client_socket_fd ← net (NSocket false);
  if (client_socket_fd : Z) =? -1 then mret (-1, client_socket_fd) else
  ip ← lift_c (cstr client_ip_address);
  r ← net (NInetPton ip);
  if negb ((r : Z) =? 1) then mret (-1, client_socket_fd) else
  r ← net (NConnect client_socket_fd ip (htons client_port_int));
  if (r : Z) =? -1 then mret (-1, client_socket_fd) else mret (0, client_socket_fd).

(** The local variables of [client_handler] that live across the loop. *)
Record locals := mkLocals {
  client_ip_address : bytes;   (** [char[15]] *)
  client_port_int : Z;
  client_socket_fd : Z;
  username : bytes;
  password : bytes;
  haslogin : bool
}.

#[export] Instance locals_eq_dec : EqDecision locals.
Proof. solve_decision. Defined.

Definition init_locals : locals := mkLocals (zeros 15) (-1) (-1) [] [] false.

Definition set_endpoint (ip : bytes) (port fd : Z) (l : locals) : locals :=
  mkLocals ip port fd (username l) (password l) (haslogin l).
Definition set_credentials (u p : bytes) (l : locals) : locals :=
  mkLocals (client_ip_address l) (client_port_int l) (client_socket_fd l) u p (haslogin l).

Definition cmd_client (client_socket : Z) (l : locals) (buffer : bytes) : sprog (ctl locals) :=
  vs ← lift_c (sscanf buffer "CLIENT %s %d");
  ip ← lift_c (store_str (client_ip_address l) (vs !! 0%nat));
  let port := store_int (client_port_int l) (vs !! 1%nat) in
  cout ip;;
  '(r, fd) ← connect_to_client ip port;
  let l := set_endpoint ip port fd l in
  if negb (r =? 0) then mret (Break l) else
  net (NSend fd (packet (b#"Hello from new server" ++ [LF])));;
  mret (Continue l).

(** [sscanf(buffer, fmt, username_char, password_char)] into two zeroed arrays of
    50 bytes, then [std::string] of both. *)
Definition scan_credentials (buffer : bytes) (fmt : string) : cres (bytes * bytes) :=
  vs ← sscanf buffer fmt;
  username_char ← store_str (zeros 50) (vs !! 0%nat);
  password_char ← store_str (zeros 50) (vs !! 1%nat);
  u ← cstr username_char;
  p ← cstr password_char;
  mret (u, p).

Definition cmd_signup (client_socket : Z) (l : locals) (buffer : bytes) : sprog (ctl locals) :=
  '(u, p) ← lift_c (scan_credentials buffer "SIGNUP %s %s");
  let l := set_credentials u p l in
  r ← store (SAddUser (User_make u p false (client_socket_fd l)));
  lift_c r;;
  net (NSend client_socket (packet (b#"Signup is successful" ++ [LF])));;
  mret (Continue l).

Definition cmd_login (client_socket : Z) (l : locals) (buffer : bytes) : sprog (ctl locals) :=
  '(u, p) ← lift_c (scan_credentials buffer "LOGIN %s %s");
  let l := set_credentials u p l in
  store (SLoginUser u p);;
  net (NSend client_socket (packet (b#"Login is successful" ++ [LF])));;
  mret (Continue l).

(** The receiver's name and the text after ["CALL name "]. [strlen(buffer)-len] is
    computed in [size_t]. *)
Definition scan_call (buffer : bytes) : cres (bytes * bytes) :=
  vs ← sscanf buffer "CALL %s";
  receiver_username_char ← store_str (zeros 50) (vs !! 0%nat);
  receiver_username ← cstr receiver_username_char;
  let len := 4 + 1 + blen receiver_username + 1 in
  n ← strlen buffer;
  src ← from_index buffer len;
  first_peer_sdp ← strncpy (zeros SOCKET_BUFFER_SIZE) src (wrap 64 (n - len));
  sdp ← cstr first_peer_sdp;
  mret (receiver_username, sdp).

(** The body of the [try] block. *)
Definition forward_call (l : locals) (receiver_username first_peer_sdp : bytes) : sprog unit :=
  r ← store (SGetUser receiver_username);
  found ← lift_c r;
  receiverUser ← match found with
                 | Some u => mret u
                 | None => Raise (ExRuntimeError b#"User not found")
                 end;
  receiver_fd ← lift_c (getSocketFd receiverUser);
  message ← lift_c (sprintf (zeros (SOCKET_BUFFER_SIZE * 2)) "INVITE %s %s"
                      [VStr receiver_username; VStr first_peer_sdp]);
  cout message;;
  net (NSend receiver_fd message);;
  rcv ← net (NRecv receiver_fd SOCKET_BUFFER_SIZE);
  let incoming_message := recv_into rcv (zeros SOCKET_BUFFER_SIZE) in
  cout incoming_message;;
  vs ← lift_c (sscanf incoming_message "%s");
  accept_command ← lift_c (store_str (zeros 50) (vs !! 0%nat));
  accepted ← lift_c (starts_with accept_command "ACCEPT" 6);
  if (accepted : bool)
  then
    cout incoming_message;;
    net (NSend (client_socket_fd l) incoming_message);;
    mret tt
  else mret tt.

(** [catch (std::runtime_error err)]; other exceptions go on. *)
Definition catch_runtime_error (e : exn) : sprog unit :=
  match e with ExRuntimeError _ => mret tt | _ => Raise e end.

Definition cmd_call (l : locals) (buffer : bytes) : sprog (ctl locals) :=
  '(receiver_username, first_peer_sdp) ← lift_c (scan_call buffer);
  r ← store (SIsLogin receiver_username);
  logged_in ← lift_c r;
  if negb logged_in then mret (Continue l) else
  known ← store (SHasUser receiver_username);
  if negb (known : bool) then mret (Continue l) else
  try_catch (forward_call l receiver_username first_peer_sdp) catch_runtime_error;;
  mret (Continue l).

Definition cmd_logout (client_socket : Z) (l : locals) : sprog (ctl locals) :=
  store (SLogOutUser (username l));;
  net (NSend client_socket (packet (b#"Logout is successful" ++ [LF])));;
  mret (Continue l).

Definition cmd_exit (client_socket : Z) (l : locals) : sprog (ctl locals) :=
  r ← net (NSend client_socket (packet (b#"Exit is succesful" ++ [LF])));
  if (r : Z) =? -1 then mret (Break l) else
  net (NSend (client_socket_fd l) (lit "EXIT"));;
  mret (Break l).

Definition dispatch (client_socket : Z) (l : locals) (buffer : bytes) : sprog (ctl locals) :=
  is_client ← lift_c (starts_with buffer "CLIENT" 6);
  if (is_client : bool) then cmd_client client_socket l buffer else
  is_signup ← lift_c (starts_with buffer "SIGNUP" 6);
  if (is_signup : bool) then cmd_signup client_socket l buffer else
  is_login ← lift_c (starts_with buffer "LOGIN" 5);
  if (is_login : bool) then cmd_login client_socket l buffer else
  is_call ← lift_c (starts_with buffer "CALL" 4);
  if (is_call : bool) then cmd_call l buffer else
  is_logout ← lift_c (starts_with buffer "LOGOUT" 6);
  if (is_logout : bool) then cmd_logout client_socket l else
  is_exit ← lift_c (starts_with buffer "EXIT" 4);
  if (is_exit : bool) then cmd_exit client_socket l else
  mret (Continue l).

(** One round of [while(running.load())]. *)
Definition handler_body (client_socket : Z) (l : locals) : sprog (ctl locals) :=
  go ← running_load;
  if negb go then mret (Break l) else
  rcv ← net (NRecv client_socket SOCKET_BUFFER_SIZE);
  if recv_count rcv <=? 0 then mret (Break l) else
  go ← running_load;
  if negb go then mret (Break l) else
  let buffer := recv_into rcv (zeros SOCKET_BUFFER_SIZE) in
  cout buffer;;
  dispatch client_socket l buffer.

(** After the loop: the same descriptor is closed twice. *)
Definition handler_end (client_socket : Z) (l : locals) : sprog unit :=
  net (NClose client_socket);;
  if negb (client_socket_fd l =? -1) then net (NClose client_socket);; mret tt
  else mret tt.

(** ** [main] *)

(** Up to the accept loop: an exit code, or the listening socket. *)
Definition main_setup (argv : list bytes) : sprog (Z + Z) :=
  match argv with
  | [_; arg] =>
      match stoi arg with
      | StoiInvalidArgument => Raise ExInvalidArgument
      | StoiOutOfRange => Raise ExOutOfRange
      | StoiOk port =>
          server_socket ← net (NSocket false);
          if (server_socket : Z) =? -1 then mret (inl 1) else
          r ← net (NSetsockopt server_socket);
          if (r : Z) =? -1 then mret (inl 1) else
          r ← net (NBind server_socket INADDR_ANY (htons port));
          if (r : Z) =? -1 then mret (inl 1) else
          r ← net (NListen server_socket);
          if (r : Z) =? -1 then mret (inl 1) else
          r ← call CSigaction;
          if (r : Z) =? -1 then mret (inl 1) else
          mret (inr server_socket)
      end
  | _ => mret (inl 1)
  end.

(** One round of the accept loop; the loop variable is the number of threads in the
    vector.  A thread that the system cannot start is an exception that nothing catches. *)
Definition accept_body (server_socket : Z) (threads : nat) : sprog (ctl nat) :=
  go ← running_load;
  if negb go then mret (Break threads) else
  client_socket ← net (NAccept server_socket);
  go ← running_load;
  if negb go then mret (Break threads) else
  if (client_socket : Z) =? -1 then mret (Break threads) else
  started ← call (result:=server_result) (CSpawn client_socket);
  if negb (started : bool) then Raise ExSystemError else
  mret (Continue (S threads)).

(** [for (auto& t : threads) t.join();] *)
Fixpoint join_all (threads : list nat) : sprog unit :=
  match threads with
  | [] => mret tt
  | t :: threads => call (result:=server_result) (CJoin t);; join_all threads
  end.

Definition main_end (server_socket : Z) (threads : nat) : sprog Z :=
  join_all (seq 0 threads);;
  net (NClose server_socket);;
  mret 0.

(** ** The meaning of the store calls *)

Section store_sem.
Context {D : Type} `{Directory D}.

Definition store_sem (c : store_call) (d : D) : store_result c * D :=
  match c with
  | SAddUser u => match dir_addUser d u with Def d' => (Def tt, d') | UB e => (UB e, d) end
  | SLoginUser n p => dir_loginUser d n p
  | SLogOutUser n => (tt, dir_logOutUser d n)
  | SHasUser n => (dir_hasUser d n, d)
  | SIsLogin n => (dir_isLogin d n, d)
  | SGetUser n => (dir_getUser d n, d)
  end.
End store_sem.

(** ** One handler against a deterministic world

    The network is any function of its own state [N]; the log keeps the calls. *)

Record world (D N : Type) := mkWorld {
  w_store : D;
  w_running : bool;
  w_net : N;
  w_log : list server_call
}.
Arguments mkWorld {D N}.
Arguments w_store {D N}.
Arguments w_running {D N}.
Arguments w_net {D N}.
Arguments w_log {D N}.

Section server_env.
Context {D N : Type} `{Directory D} (netw : ∀ c : net_call, N → net_result c * N).

Definition server_env (c : server_call) (w : world D N) : server_result c * world D N :=
  let log := w_log w ++ [c] in
  match c return server_result c * world D N with
  | CRunning => (w_running w, mkWorld (w_store w) (w_running w) (w_net w) log)
  | CStore sc =>
      let '(r, d) := store_sem sc (w_store w) in
      (r, mkWorld d (w_running w) (w_net w) log)
  | CNet nc =>
      let '(r, n) := netw nc (w_net w) in
      (r, mkWorld (w_store w) (w_running w) n log)
  | CSigaction => (0, mkWorld (w_store w) (w_running w) (w_net w) log)
  | CSpawn _ => (true, mkWorld (w_store w) (w_running w) (w_net w) log)
  | CJoin _ => (tt, mkWorld (w_store w) (w_running w) (w_net w) log)
  end.
End server_env.
