(* ===== verification/ServerSpec.v ===== *)
(** * ServerSpec: what a command means

    [request] is the abstract syntax of the commands, [encode] their wire format and
    [handle] their effect; [decode] is the reading of an array as a request.
    [dispatch_eq]: the server's command chain is [decode] followed by [handle], whose
    meaning is specified in [Protocol].  [decode_encode]: what a well-formed client
    message encodes is what the server decodes.  The effect of each request is then
    stated through the [Directory] contract, for any network. *)

From S2P Require Import Prelude CString Prog Net User Directory Server.

Inductive request :=
| ReqClient (ip : bytes) (port : Z)
| ReqSignup (username password : bytes)
| ReqLogin (username password : bytes)
| ReqCall (receiver sdp : bytes)
| ReqLogout
| ReqExit
| ReqOther.

#[export] Instance request_eq_dec : EqDecision request.
Proof. solve_decision. Defined.

(** The text a client sends for a request. *)
Definition encode (q : request) : bytes :=
  match q with
  | ReqClient ip port => b#"CLIENT " ++ ip ++ b#" " ++ dec port
  | ReqSignup u p => b#"SIGNUP " ++ u ++ b#" " ++ p
  | ReqLogin u p => b#"LOGIN " ++ u ++ b#" " ++ p
  | ReqCall u sdp => b#"CALL " ++ u ++ b#" " ++ sdp
  | ReqLogout => b#"LOGOUT "
  | ReqExit => b#"EXIT EXIT"
  | ReqOther => []
  end.

(** Requests whose parts fit the arrays of the server. *)
Definition well_formed (q : request) : bool :=
  match q with
  | ReqClient ip port => token ip && (blen ip <=? 14) && in_int port
  | ReqSignup u p | ReqLogin u p => token u && (blen u <=? 49) && token p && (blen p <=? 49)
  | ReqCall u sdp =>
      token u && (blen u <=? 49) && no_nul sdp && (blen (encode q) <? SOCKET_BUFFER_SIZE)
  | ReqLogout | ReqExit => true
  | ReqOther => false
  end.

(** The request in an array, read with the array [ip] and the port that an earlier
    CLIENT command left. *)
Definition decode (l : locals) (buffer : bytes) : cres request :=
  is_client ← starts_with buffer "CLIENT" 6;
  if (is_client : bool) then
    vs ← sscanf buffer "CLIENT %s %d";
    ip ← store_str (client_ip_address l) (vs !! 0%nat);
    _ ← cstr ip;
    mret (ReqClient ip (store_int (client_port_int l) (vs !! 1%nat))) else
  is_signup ← starts_with buffer "SIGNUP" 6;
  if (is_signup : bool) then '(u, p) ← scan_credentials buffer "SIGNUP %s %s"; mret (ReqSignup u p) else
  is_login ← starts_with buffer "LOGIN" 5;
  if (is_login : bool) then '(u, p) ← scan_credentials buffer "LOGIN %s %s"; mret (ReqLogin u p) else
  is_call ← starts_with buffer "CALL" 4;
  if (is_call : bool) then '(u, sdp) ← scan_call buffer; mret (ReqCall u sdp) else
  is_logout ← starts_with buffer "LOGOUT" 6;
  if (is_logout : bool) then mret ReqLogout else
  is_exit ← starts_with buffer "EXIT" 4;
  if (is_exit : bool) then mret ReqExit else mret ReqOther.

Definition reply (s : bytes) : bytes := packet (s ++ [LF]).

(** Effect of a call once the receiver is known to be online: the receiver is sent
    an invitation, its answer is awaited and, if it accepts, forwarded. *)
Definition handle_call (l : locals) (receiver sdp : bytes) : sprog (ctl locals) :=
  r ← store (SIsLogin receiver);
  logged_in ← lift_c r;
  if negb logged_in then mret (Continue l) else
  known ← store (SHasUser receiver);
  if negb (known : bool) then mret (Continue l) else
  try_catch (forward_call l receiver sdp) catch_runtime_error;;
  mret (Continue l).

Definition handle (client_socket : Z) (l : locals) (q : request) : sprog (ctl locals) :=
  match q with
  | ReqClient ip port =>
      '(r, fd) ← connect_to_client ip port;
      let l := set_endpoint ip port fd l in
      if negb (r =? 0) then mret (Break l) else
      net (NSend fd (reply b#"Hello from new server"));;
      mret (Continue l)
  | ReqSignup u p =>
      let l := set_credentials u p l in
      r ← store (SAddUser (User_make u p false (client_socket_fd l)));
      lift_c r;;
      net (NSend client_socket (reply b#"Signup is successful"));;
      mret (Continue l)
  | ReqLogin u p =>
      let l := set_credentials u p l in
      store (SLoginUser u p);;
      net (NSend client_socket (reply b#"Login is successful"));;
      mret (Continue l)
  | ReqCall u sdp => handle_call l u sdp
  | ReqLogout => cmd_logout client_socket l
  | ReqExit => cmd_exit client_socket l
  | ReqOther => mret (Continue l)
  end.

(** [decode] of a message: the CLIENT command keeps the whole array. *)
Definition received (l : locals) (q : request) : request :=
  match q with
  | ReqClient ip port => ReqClient (overlay (ip ++ [NUL]) (client_ip_address l)) port
  | _ => q
  end.

(** The array of [client_ip_address] keeps its size and holds a terminator. *)
Definition locals_ok (l : locals) : Prop :=
  blen (client_ip_address l) = 15 ∧ NUL ∈ client_ip_address l.

(** The first word of a text, as [%s] converts it. *)
Definition first_token (s : bytes) : bytes := (span not_space (skip_ws s)).1.

(** The text after the first word. *)
Definition after_token (s : bytes) : bytes := (span not_space (skip_ws s)).2.

(** The message a receiver gets for a call. *)
Definition invitation (receiver sdp : bytes) : bytes :=
  padded (SOCKET_BUFFER_SIZE * 2) (b#"INVITE " ++ receiver ++ b#" " ++ sdp).

(** ** Lemmas on the command words *)

(** The outcome of [strncmp] with a keyword depends on the first bytes only. *)
Fixpoint prefix_test (buf kw : bytes) {struct kw} : bool :=
  match kw, buf with
  | [], _ => true
  | k :: kw', c :: buf' => (byteZ c =? byteZ k) && prefix_test buf' kw'
  | _ :: _, [] => false
  end.

Lemma strncmp_prefix buf kw tl :
  no_nul kw = true → (length kw ≤ length buf)%nat →
  ∃ z, strncmp_nat buf (kw ++ tl) (length kw) = Def z ∧ (z =? 0) = prefix_test buf kw.
Proof.
  revert buf. induction kw as [|k kw IH]; intros buf Hkw Hlen; [by exists 0|].
  apply no_nul_cons in Hkw as [Hk Hkw]. destruct buf as [|c buf]; [cbn in Hlen; lia|].
  cbn. destruct (Z.eqb_spec (byteZ c) (byteZ k)) as [E|E]; cbn.
  - apply byteZ_inj in E as ->. rewrite bool_decide_eq_false_2 by done.
    apply IH; [done|cbn in Hlen; lia].
  - eexists. split; [done|]. apply Z.eqb_neq. lia.
Qed.

Lemma starts_with_prefix buf (s : string) n :
  no_nul (str s) = true → blen (str s) = n → n ≤ blen buf →
  starts_with buf s n = Def (prefix_test buf (str s)).
Proof.
  intros Hs Hn Hb. unfold starts_with, strncmp, lit. unfold blen in *.
  replace (Z.to_nat n) with (length (str s)) by lia.
  destruct (strncmp_prefix buf (str s) [NUL]) as (z & -> & Hz); [done|lia|].
  cbn. by rewrite Hz.
Qed.

(** A keyword test on a packet. *)
Lemma starts_with_packet s (kw : string) n :
  blen s ≤ SOCKET_BUFFER_SIZE → no_nul (str kw) = true → blen (str kw) = n →
  n ≤ SOCKET_BUFFER_SIZE → starts_with (packet s) kw n = Def (prefix_test (packet s) (str kw)).
Proof. intros Hs Hk Hn Hle. apply starts_with_prefix; [done|done|]. by rewrite blen_packet. Qed.

(** ** Lemmas on the formats *)

Lemma sscanf_packet s (fmt : string) :
  no_nul s = true → blen s < SOCKET_BUFFER_SIZE →
  sscanf (packet s) fmt = scan (parse_fmt (str fmt)) s.
Proof. intros. unfold sscanf. by rewrite cstr_packet. Qed.

(** A converted string that fits its array is what [std::string] of the array holds. *)
Lemma store_str_cstr n s :
  no_nul s = true → blen s < n →
  ∃ a, store_str (zeros n) (Some (VStr s)) = Def a ∧ cstr a = Def s.
Proof.
  intros. exists (padded n s). split; [by apply store_cstr_zeros|by apply cstr_padded].
Qed.

Lemma scan_two_tokens u p :
  token u = true → token p = true →
  scan [FChar SPC; FStr; FChar SPC; FStr] (b#" " ++ u ++ b#" " ++ p) = Def [VStr u; VStr p].
Proof.
  intros Hu Hp. rewrite scan_space by done. cbn [app str skip_ws].
  change (isspace " ") with true. cbn iota.
  rewrite skip_ws_token by done.
  rewrite scan_token; [|done|cbn; by intros ? ? [= <- _]].
  rewrite scan_space by done. cbn [skip_ws]. change (isspace " ") with true. cbn iota.
  by rewrite scan_last_token.
Qed.

(** Both credentials of a SIGNUP or LOGIN message. *)
Lemma scan_credentials_encode (kw : string) u p :
  token u = true → token p = true → blen u ≤ 49 → blen p ≤ 49 →
  (∀ t, scan (parse_fmt (str (kw +:+ " %s %s"))) (str kw ++ t)
        = scan [FChar SPC; FStr; FChar SPC; FStr] t) →
  no_nul (str kw) = true → blen (str kw) ≤ 100 →
  scan_credentials (packet (str kw ++ b#" " ++ u ++ b#" " ++ p)) (kw +:+ " %s %s") = Def (u, p).
Proof.
  intros Hu Hp Hlu Hlp Hfmt Hkw Hlk. pose proof (token_no_nul _ Hu). pose proof (token_no_nul _ Hp).
  unfold scan_credentials. rewrite sscanf_packet.
  - rewrite Hfmt, scan_two_tokens by done.
    destruct (store_str_cstr 50 u) as (a & Ha & Ha'); [done|lia|].
    destruct (store_str_cstr 50 p) as (b & Hb & Hb'); [done|lia|].
    cbn [mbind cres_bind mret cres_ret lookup list_lookup]. rewrite Ha, Hb. cbn. by rewrite Ha', Hb'.
  - no_nul.
  - unfold SOCKET_BUFFER_SIZE. rewrite !blen_app. eval_blen. lia.
Qed.

(** Evaluate the keyword tests of [decode] on a packet that starts with a keyword. *)
Ltac eval_prefix_test :=
  match goal with
  | |- context [prefix_test ?x ?y] =>
      let b := eval lazy in (prefix_test x y) in change (prefix_test x y) with b
  end.
Ltac keyword_tests :=
  rewrite !starts_with_packet by first [reflexivity | lia | done];
  cbn [mbind cres_bind]; repeat eval_prefix_test; cbn iota.

Lemma decode_client l ip port :
  token ip = true → blen ip ≤ 14 → in_int port = true → blen (client_ip_address l) = 15 →
  blen (encode (ReqClient ip port)) < SOCKET_BUFFER_SIZE →
  decode l (packet (encode (ReqClient ip port))) = Def (received l (ReqClient ip port)).
Proof.
  intros Hip Hlen Hport Hl Hb. pose proof (token_no_nul _ Hip). unfold decode.
  keyword_tests. rewrite sscanf_packet; [|cbn [encode]|done].
  - change (scan (parse_fmt (str "CLIENT %s %d")) (encode (ReqClient ip port)))
      with (scan [FStr; FChar SPC; FInt] (skip_ws (ip ++ b#" " ++ dec port))).
    rewrite skip_ws_token, scan_token; [|done|by cbn; intros ? ? [= <- _]|done].
    rewrite scan_space by done. cbn [app str skip_ws]. change (isspace " ") with true. cbn iota.
    rewrite scan_last_int by done. cbn [mbind cres_bind mret cres_ret lookup list_lookup store_str].
    rewrite store_cstr_overlay by lia. cbn [mbind cres_bind]. by rewrite cstr_overlay.
  - no_nul.
Qed.

Lemma decode_call l u sdp :
  token u = true → blen u ≤ 49 → no_nul sdp = true →
  blen (encode (ReqCall u sdp)) < SOCKET_BUFFER_SIZE →
  decode l (packet (encode (ReqCall u sdp))) = Def (ReqCall u sdp).
Proof.
  intros Hu Hlu Hs Hb. pose proof (token_no_nul _ Hu).
  assert (no_nul (encode (ReqCall u sdp)) = true) as Hn
    by (cbn [encode]; no_nul).
  unfold decode. keyword_tests. unfold scan_call. rewrite sscanf_packet by done.
  change (scan (parse_fmt (str "CALL %s")) (encode (ReqCall u sdp)))
    with (scan [FStr] (skip_ws (u ++ b#" " ++ sdp))).
  rewrite skip_ws_token, scan_token; [|done|by cbn; intros ? ? [= <- _]|done].
  cbn [scan mbind cres_bind mret cres_ret lookup list_lookup].
  destruct (store_str_cstr 50 u) as (a & -> & Ha); [done|lia|]. cbn [mbind cres_bind]. rewrite Ha.
  cbn [mbind cres_bind]. unfold strlen. rewrite cstr_packet by done. cbn [mbind cres_bind mret cres_ret].
  assert (packet (encode (ReqCall u sdp))
    = (b#"CALL " ++ u ++ b#" ") ++ sdp ++ zeros (SOCKET_BUFFER_SIZE - blen (encode (ReqCall u sdp)))) as ->
    by (unfold packet, padded; cbn [encode]; by rewrite <- !app_assoc).
  rewrite from_index_app by (rewrite !blen_app; eval_blen; lia).
  cbn [mbind cres_bind].
  assert (blen (encode (ReqCall u sdp)) = 4 + 1 + blen u + 1 + blen sdp) as Hlen
    by (cbn [encode]; rewrite !blen_app; eval_blen; lia).
  pose proof (blen_nonneg u). pose proof (blen_nonneg sdp). unfold SOCKET_BUFFER_SIZE in *.
  assert (wrap 64 (blen (encode (ReqCall u sdp)) - (4 + 1 + blen u + 1)) = blen sdp) as ->
    by (unfold wrap; rewrite Z.mod_small; lia).
  rewrite strncpy_zeros by (done || lia).
  cbn [mbind cres_bind]. by rewrite cstr_padded by (done || lia).
Qed.

(** Every well-formed message fits a packet and is a non-empty string. *)
Lemma encode_blen q : well_formed q = true → 0 < blen (encode q) < SOCKET_BUFFER_SIZE.
Proof.
  unfold SOCKET_BUFFER_SIZE.
  destruct q as [ip port|u p|u p|u sdp| | |]; cbn [well_formed]; intros Hq; split_bools; try done.
  - pose proof (dec_blen port ltac:(done)). cbn [encode]. rewrite !blen_app. eval_blen. pose_blen. lia.
  - cbn [encode]. rewrite !blen_app. eval_blen. pose_blen. lia.
  - cbn [encode]. rewrite !blen_app. eval_blen. pose_blen. lia.
Qed.

Lemma encode_no_nul q : well_formed q = true → no_nul (encode q) = true.
Proof.
  destruct q as [ip port|u p|u p|u sdp| | |]; cbn [well_formed encode]; intros Hq; split_bools;
    try done; no_nul.
Qed.

Lemma prefix_test_nul tok r kw :
  no_nul kw = true → prefix_test (tok ++ NUL :: r) kw = prefix_test tok kw.
Proof.
  revert kw. induction tok as [|c tok IH]; intros [|k kw]; cbn; try done.
  - intros [Hk _]%no_nul_cons. destruct (Z.eqb_spec (byteZ NUL) (byteZ k)) as [E|]; [|done].
    by apply byteZ_inj in E.
  - intros [_ Hkw]%no_nul_cons. by rewrite IH.
Qed.

Lemma skip_ws_suffix s : ∃ w, s = w ++ skip_ws s.
Proof.
  induction s as [|c s [w IH]]; cbn; [by exists []|].
  destruct (isspace c); [exists (c :: w); cbn; congruence|by exists []].
Qed.

Lemma first_token_no_nul s : no_nul s = true → no_nul (first_token s) = true.
Proof.
  unfold first_token. destruct (skip_ws_suffix s) as [w Hw]. rewrite Hw at 1.
  destruct (span not_space (skip_ws s)) as [t r] eqn:E. apply span_parts in E as [-> _].
  rewrite !no_nul_app. intros [_ [? _]%andb_true_iff]%andb_true_iff. done.
Qed.

(** The array in which [%s] leaves the first word of a string. *)
Lemma store_first_token s n :
  0 < n → blen (first_token s) < n →
  (vs ← scan [FStr] s; store_str (zeros n) (vs !! 0%nat)) = Def (padded n (first_token s)).
Proof.
  unfold first_token. cbn [scan]. destruct (span not_space (skip_ws s)) as [[|c t] r]; cbn; intros Hn Hb.
  - unfold padded. cbn. by rewrite blen_nil, Z.sub_0_r.
  - by apply (store_cstr_zeros n (c :: t)).
Qed.

Lemma print_invite receiver sdp :
  print (parse_fmt (str "INVITE %s %s")) [VStr receiver; VStr sdp]
  = Def (b#"INVITE " ++ receiver ++ b#" " ++ sdp).
Proof.
  let f := eval vm_compute in (parse_fmt (str "INVITE %s %s")) in
  change (parse_fmt (str "INVITE %s %s")) with f.
  cbn [print mbind cres_bind mret cres_ret]. by rewrite app_nil_r.
Qed.

(** Converted strings fit the arrays they are read back from. *)
Lemma store_str_zeros_blen n v a s :
  0 < n → store_str (zeros n) v = Def a → cstr a = Def s → blen s < n.
Proof.
  intros Hn Ha Hs. apply cstr_blen in Hs. assert (blen a = n) as <-; [|done].
  destruct v as [[t|z]|]; cbn in Ha; try (injection Ha as <-; by apply blen_zeros; lia).
  unfold store_cstr in Ha. destruct (Z.ltb_spec (blen (zeros n)) (blen t + 1)); [done|].
  injection Ha as <-. rewrite blen_zeros in * by lia.
  rewrite blen_overlay; rewrite ?blen_app, ?blen_cons, ?blen_nil, blen_zeros; lia.
Qed.

Lemma strncpy_blen dst src n a : strncpy dst src n = Def a → 0 ≤ n → blen a = blen dst.
Proof.
  unfold strncpy. destruct (Z.ltb_spec (blen dst) n); [done|].
  destruct (strn_src src (Z.to_nat n)) as [s|] eqn:E; [|done]. intros [= <-] Hn.
  assert (blen s ≤ n).
  { clear -E Hn. assert (length s ≤ Z.to_nat n)%nat; [|unfold blen; lia].
    revert src s E. generalize (Z.to_nat n). intros k. induction k as [|k IH]; intros src s; cbn.
    - by intros [= <-].
    - destruct src as [|c src]; [done|]. case_bool_decide; [intros [= <-]; cbn; lia|].
      destruct (strn_src src k) eqn:E; [|done]. intros [= <-]. cbn. specialize (IH _ _ E). lia. }
  apply blen_overlay. rewrite blen_padded; lia.
Qed.

(** The parts of a call fit the 50-byte and 1024-byte arrays, as strings. *)
Lemma scan_call_fits buffer receiver sdp :
  scan_call buffer = Def (receiver, sdp) →
  no_nul receiver = true ∧ blen receiver < 50 ∧ no_nul sdp = true ∧ blen sdp < SOCKET_BUFFER_SIZE.
Proof.
  unfold scan_call. destruct (sscanf buffer "CALL %s") as [vs|]; [|done]. cbn [mbind cres_bind].
  destruct (store_str (zeros 50) (vs !! 0%nat)) as [a|] eqn:Ha; [|done]. cbn [mbind cres_bind].
  destruct (cstr a) as [u|] eqn:Hu; [|done]. cbn [mbind cres_bind].
  destruct (strlen buffer) as [k|]; [|done]. cbn [mbind cres_bind].
  destruct (from_index buffer _) as [src|]; [|done]. cbn [mbind cres_bind].
  destruct (strncpy _ src _) as [b|] eqn:Hb; [|done]. cbn [mbind cres_bind].
  destruct (cstr b) as [t|] eqn:Ht; [|done]. intros [= <- <-].
  apply strncpy_blen in Hb; [|unfold wrap; apply Z.mod_pos_bound; lia].
  rewrite blen_zeros in Hb by (unfold SOCKET_BUFFER_SIZE; lia).
  pose proof (cstr_blen _ _ Ht). pose proof (store_str_zeros_blen 50 _ _ _ ltac:(lia) Ha Hu).
  apply cstr_split in Hu as [? _]. apply cstr_split in Ht as [? _]. repeat split; (done || lia).
Qed.

Lemma first_token_skip_ws s : first_token (skip_ws s) = first_token s.
Proof. unfold first_token. by rewrite skip_ws_idem. Qed.

Lemma store_str_overflow n t :
  0 ≤ n → n ≤ blen t → store_str (zeros n) (Some (VStr t)) = UB UB_buffer_overflow.
Proof. intros. apply store_cstr_overflow. by rewrite blen_zeros. Qed.

(** A call is read without undefined behaviour exactly when its receiver fits the
    array of 50 bytes and is followed by at least one byte. *)
Lemma scan_call_packet t :
  no_nul t = true → 4 + blen t < SOCKET_BUFFER_SIZE →
  match scan_call (packet (b#"CALL" ++ t)) with
  | Def _ => blen (first_token t) < 50 ∧ 2 + blen (first_token t) ≤ blen t
  | UB u => u = UB_buffer_overflow ∧ (50 ≤ blen (first_token t) ∨ blen t < 2 + blen (first_token t))
  end.
Proof.
  intros Ht Hb. unfold scan_call.
  assert (no_nul (b#"CALL" ++ t) = true) by no_nul.
  assert (blen (b#"CALL" ++ t) = 4 + blen t) as Hlen by (rewrite blen_app; eval_blen; lia).
  rewrite sscanf_packet by (done || lia).
  change (scan (parse_fmt (str "CALL %s")) (b#"CALL" ++ t)) with (scan [FStr] (skip_ws t)).
  pose proof (blen_nonneg (first_token t)) as Hpos. pose proof (blen_nonneg t).
  destruct (Z.lt_ge_cases (blen (first_token t)) 50) as [Hlt|Hge].
  - pose proof (store_first_token (skip_ws t) 50 ltac:(lia)) as Hst.
    rewrite first_token_skip_ws in Hst. specialize (Hst Hlt).
    destruct (scan [FStr] (skip_ws t)) as [vs|]; [|done]. cbn [mbind cres_bind] in *. rewrite Hst.
    cbn [mbind cres_bind]. rewrite cstr_padded by (try apply first_token_no_nul; done). unfold strlen.
    rewrite cstr_packet by (done || lia). cbn [mbind cres_bind mret cres_ret]. rewrite Hlen.
    unfold SOCKET_BUFFER_SIZE in *.
    destruct (Z.lt_ge_cases (blen t) (2 + blen (first_token t))) as [Hshort|Hlong].
    + unfold from_index. rewrite blen_packet by (unfold SOCKET_BUFFER_SIZE; lia).
      destruct (Z.leb_spec 0 (4 + 1 + blen (first_token t) + 1)),
        (Z.leb_spec (4 + 1 + blen (first_token t) + 1) SOCKET_BUFFER_SIZE);
        unfold SOCKET_BUFFER_SIZE in *; try lia.
      cbn [andb mbind cres_bind]. rewrite strncpy_overflow; [split; [done|by right]|].
      rewrite blen_zeros, wrap_neg; lia.
    + unfold wrap. rewrite Z.mod_small by lia. set (k := Z.to_nat (2 + blen (first_token t))).
      assert (blen (drop k t) = blen t - (2 + blen (first_token t))) by (apply blen_drop; lia).
      assert (blen (take k t) = 2 + blen (first_token t)) by (subst k; rewrite blen_take; lia).
      assert (no_nul (drop k t) = true).
      { rewrite <- (take_drop k t), no_nul_app in Ht. by apply andb_true_iff in Ht as [_ ?]. }
      assert (packet (b#"CALL" ++ t)
        = (b#"CALL" ++ take k t) ++ drop k t ++ zeros (SOCKET_BUFFER_SIZE - blen (b#"CALL" ++ t))) as ->
        by (unfold packet, padded; rewrite <- (take_drop k t) at 1; by rewrite <- !app_assoc).
      rewrite from_index_app by (rewrite blen_app; eval_blen; lia). cbn [mbind cres_bind].
      rewrite strncpy_zeros by (done || lia). cbn [mbind cres_bind].
      rewrite cstr_padded by (done || lia). done.
  - unfold first_token in *. cbn [scan]. rewrite skip_ws_idem.
    destruct (span not_space (skip_ws t)) as [[|c tok] r]; cbn [fst] in *; [by rewrite blen_nil in Hge|].
    cbn [scan mbind cres_bind mret cres_ret lookup list_lookup].
    rewrite store_str_overflow by lia. cbn. split; [done|by left].
Qed.

(** ** [dispatch] is [decode] followed by [handle] *)

Lemma dispatch_eq client_socket l buffer :
  dispatch client_socket l buffer = (q ← lift_c (decode l buffer); handle client_socket l q).
Proof.
  unfold dispatch, decode.
  destruct (starts_with buffer "CLIENT" 6) as [[]|]; [|cbn|done].
  { unfold cmd_client, cout. destruct (sscanf buffer "CLIENT %s %d") as [vs|]; [|done].
    cbn [mbind prog_mbind prog_bind cres_bind lift_c].
    destruct (store_str (client_ip_address l) (vs !! 0%nat)) as [ip|]; [|done].
    cbn [mbind prog_mbind prog_bind cres_bind lift_c].
    by destruct (cstr ip). }
  destruct (starts_with buffer "SIGNUP" 6) as [[]|]; [|cbn|done].
  { cbn. unfold cmd_signup. by destruct (scan_credentials buffer "SIGNUP %s %s") as [[u p]|]. }
  destruct (starts_with buffer "LOGIN" 5) as [[]|]; [|cbn|done].
  { cbn. unfold cmd_login. by destruct (scan_credentials buffer "LOGIN %s %s") as [[u p]|]. }
  destruct (starts_with buffer "CALL" 4) as [[]|]; [|cbn|done].
  { cbn. unfold cmd_call. by destruct (scan_call buffer) as [[u sdp]|]. }
  destruct (starts_with buffer "LOGOUT" 6) as [[]|]; [done|cbn|done].
  by destruct (starts_with buffer "EXIT" 4) as [[]|].
Qed.

Lemma decode_request l q :
  well_formed q = true → locals_ok l → decode l (packet (encode q)) = Def (received l q).
Proof.
  intros Hq [Hl _]. pose proof (encode_blen q Hq) as [_ Hb].
  destruct q as [ip port|u p|u p|u sdp| | |]; cbn [well_formed] in Hq; split_bools; try done.
  - by apply decode_client.
  - unfold decode. keyword_tests.
    change (scan_credentials (packet (encode (ReqSignup u p))) "SIGNUP %s %s")
      with (scan_credentials (packet (str "SIGNUP" ++ b#" " ++ u ++ b#" " ++ p)) ("SIGNUP" +:+ " %s %s")).
    by rewrite scan_credentials_encode.
  - unfold decode. keyword_tests.
    change (scan_credentials (packet (encode (ReqLogin u p))) "LOGIN %s %s")
      with (scan_credentials (packet (str "LOGIN" ++ b#" " ++ u ++ b#" " ++ p)) ("LOGIN" +:+ " %s %s")).
    by rewrite scan_credentials_encode.
  - by apply decode_call.
Qed.

(** ** Properties *)

(** C7 (roundtrip): the packet of a well-formed request is read back as that request;
    of a CLIENT request the server keeps the address written over the array that
    held the previous one. *)
Theorem decode_encode l q :
  well_formed q = true → locals_ok l → decode l (packet (encode q)) = Def (received l q).
Proof. apply decode_request. Qed.

Lemma decode_encode_witness :
  decode init_locals (packet (encode (ReqCall b#"bob" b#"{sdp}")))
  = Def (received init_locals (ReqCall b#"bob" b#"{sdp}")).
Proof.
  apply decode_encode; [reflexivity|]. split; [reflexivity|].
  apply elem_of_cons. by left.
Defined.
