(* ===== verification/Protocol.v ===== *)
(** * Protocol: what the server does with a text

    A specification of one round of [client_handler] that uses none of its parts: how a
    text is read as a request ([requested]), in words rather than in calls of [sscanf] and
    [strncpy] on arrays, and what the server then does ([carry_out]).  [dispatch_protocol]
    says that [dispatch] does just that on every array that holds a text. *)

From S2P Require Import Prelude CString Prog Net User Directory Server ServerSpec.

(** ** Reading a request *)

(** What follows a keyword at the start of a text. *)
Fixpoint after_keyword (kw t : bytes) : option bytes :=
  match kw, t with
  | [], _ => Some t
  | k :: kw, c :: t => if bool_decide (c = k) then after_keyword kw t else None
  | _ :: _, [] => None
  end.

(** Two words, each of which must fit an array of 50 bytes. *)
Definition two_words (rest : bytes) : cres (bytes * bytes) :=
  let u := first_token rest in
  let p := first_token (after_token rest) in
  if (50 <=? blen u) || (50 <=? blen p) then UB UB_buffer_overflow else Def (u, p).

(** An address and a port; what the text does not have stays as it was.  The address
    must fit 15 bytes, and is written over the one before. *)
Definition endpoint (l : locals) (rest : bytes) : cres (bytes * Z) :=
  let ip := first_token rest in
  let port := match scan_int (after_token rest) with Some (z, _) => z | None => client_port_int l end in
  if bool_decide (ip = []) then Def (client_ip_address l, client_port_int l)
  else if bool_decide (is_Some (scan_int (after_token rest))) && negb (in_int port) then UB UB_int_overflow
  else if 15 <=? blen ip then UB UB_buffer_overflow
  else Def (overlay (ip ++ [NUL]) (client_ip_address l), port).

(** The name of the receiver, and the text behind the name and one more character, counted
    from the keyword, even if more than one space is before the name. *)
Definition receiver_and_text (rest : bytes) : cres (bytes * bytes) :=
  let n := blen (first_token rest) in
  if (50 <=? n) || (blen rest <? 2 + n) then UB UB_buffer_overflow
  else Def (first_token rest, drop (Z.to_nat (2 + n)) rest).

Definition requested (l : locals) (t : bytes) : cres request :=
  match after_keyword b#"CLIENT" t with
  | Some rest => '(ip, port) ← endpoint l rest; mret (ReqClient ip port)
  | None =>
  match after_keyword b#"SIGNUP" t with
  | Some rest => '(u, p) ← two_words rest; mret (ReqSignup u p)
  | None =>
  match after_keyword b#"LOGIN" t with
  | Some rest => '(u, p) ← two_words rest; mret (ReqLogin u p)
  | None =>
  match after_keyword b#"CALL" t with
  | Some rest => '(u, sdp) ← receiver_and_text rest; mret (ReqCall u sdp)
  | None =>
  match after_keyword b#"LOGOUT" t with
  | Some _ => mret ReqLogout
  | None =>
  match after_keyword b#"EXIT" t with
  | Some _ => mret ReqExit
  | None => mret ReqOther
  end end end end end end.

(** ** Carrying it out *)

(** A connection back to the client, kept even if it cannot be made; the session ends then. *)
Definition connect_back (ip : bytes) (port : Z) (l : locals) : sprog (ctl locals) :=
  fd ← net (NSocket false);
  let l := set_endpoint ip port fd l in
  if (fd : Z) =? -1 then mret (Break l) else
  address ← lift_c (cstr ip);
  valid ← net (NInetPton address);
  if bool_decide ((valid : Z) = 1) then
    r ← net (NConnect fd address (htons port));
    if (r : Z) =? -1 then mret (Break l) else
    net (NSend fd (reply b#"Hello from new server"));;
    mret (Continue l)
  else mret (Break l).

(** The receiver, if it is online, is invited; its answer goes to the caller if the first word
    of it begins with ACCEPT. *)
Definition invite (l : locals) (receiver sdp : bytes) : sprog (ctl locals) :=
  online ← store (SIsLogin receiver);
  match (online : cres bool) with
  | UB u => Undef u
  | Def false => mret (Continue l)
  | Def true =>
      known ← store (SHasUser receiver);
      if negb (known : bool) then mret (Continue l) else
      account ← store (SGetUser receiver);
      match (account : cres (option User)) with
      | UB u => Undef u
      | Def None => mret (Continue l)
      | Def (Some u) =>
          match socket_fd_ u with
          | None => Undef UB_indeterminate
          | Some fd =>
              net (NSend fd (invitation receiver sdp));;
              rcv ← net (NRecv fd SOCKET_BUFFER_SIZE);
              let message := recv_into rcv (zeros SOCKET_BUFFER_SIZE) in
              match cstr message with
              | UB u => Undef u
              | Def answer =>
                  if 50 <=? blen (first_token answer) then Undef UB_buffer_overflow else
                  match after_keyword b#"ACCEPT" (first_token answer) with
                  | Some _ => net (NSend (client_socket_fd l) message);; mret (Continue l)
                  | None => mret (Continue l)
                  end
              end
          end
      end
  end.

Definition carry_out (client_socket : Z) (l : locals) (q : request) : sprog (ctl locals) :=
  match q with
  | ReqClient ip port => connect_back ip port l
  | ReqSignup u p =>
      r ← store (SAddUser (mkUser u p (Some false) (Some (client_socket_fd l))));
      lift_c r;;
      net (NSend client_socket (reply b#"Signup is successful"));;
      mret (Continue (set_credentials u p l))
  | ReqLogin u p =>
      store (SLoginUser u p);;
      net (NSend client_socket (reply b#"Login is successful"));;
      mret (Continue (set_credentials u p l))
  | ReqCall u sdp => invite l u sdp
  | ReqLogout =>
      store (SLogOutUser (username l));;
      net (NSend client_socket (reply b#"Logout is successful"));;
      mret (Continue l)
  | ReqExit =>
      r ← net (NSend client_socket (reply b#"Exit is succesful"));
      if (r : Z) =? -1 then mret (Break l) else
      net (NSend (client_socket_fd l) (b#"EXIT" ++ [NUL]));;
      mret (Break l)
  | ReqOther => mret (Continue l)
  end.

(** ** Arrays that hold a text *)

Section array.
Context (buffer t : bytes) (Htext : cstr buffer = Def t).

Lemma array_split : no_nul t = true ∧ ∃ r, buffer = t ++ NUL :: r.
Proof using Htext. by apply cstr_split. Qed.

Lemma prefix_test_keyword s (kw : bytes) :
  prefix_test s kw = match after_keyword kw s with Some _ => true | None => false end.
Proof.
  revert s. induction kw as [|k kw IH]; intros [|c s]; cbn; try done. case_bool_decide as Hc.
  - subst. rewrite Z.eqb_refl. apply IH.
  - destruct (Z.eqb_spec (byteZ c) (byteZ k)) as [E|]; [by apply byteZ_inj in E|done].
Qed.

Lemma after_keyword_app kw s rest : after_keyword kw s = Some rest → s = kw ++ rest.
Proof.
  revert s. induction kw as [|k kw IH]; intros [|c s]; cbn; try congruence. case_bool_decide; [|done].
  intros ->%IH. by subst.
Qed.

Lemma starts_with_text (kw : string) n :
  no_nul (str kw) = true → blen (str kw) = n → n ≤ blen buffer →
  starts_with buffer kw n = Def (match after_keyword (str kw) t with Some _ => true | None => false end).
Proof using Htext.
  intros Hk Hn Hb. rewrite starts_with_prefix by done. destruct array_split as [_ [r E]].
  rewrite E, prefix_test_nul by done. by rewrite prefix_test_keyword.
Qed.

Lemma sscanf_text fmt : sscanf buffer fmt = scan (parse_fmt (str fmt)) t.
Proof using Htext. unfold sscanf. by rewrite Htext. Qed.
End array.

(** ** The parts of the chain *)

(** The first word ends where what follows it begins. *)
Lemma words_split t : ∃ w, t = w ++ first_token t ++ after_token t.
Proof.
  destruct (skip_ws_suffix t) as [w Hw]. exists w. unfold first_token, after_token.
  destruct (span not_space (skip_ws t)) as [s r] eqn:E. apply span_parts in E as [E _]. cbn. congruence.
Qed.

Lemma after_token_no_nul t : no_nul t = true → no_nul (after_token t) = true.
Proof. destruct (words_split t) as [w Hw]. rewrite Hw at 1. rewrite !no_nul_app. by intros [_ [_ ?]%andb_true_iff]%andb_true_iff. Qed.

(** Nothing is left behind a word that is not there. *)
Lemma after_no_token t : first_token t = [] → after_token t = [].
Proof.
  unfold first_token, after_token. induction t as [|c t IH]; [done|]. cbn. destruct (isspace c) eqn:Hc; [done|].
  cbn. unfold not_space at 1. rewrite Hc. cbn. by destruct (span not_space t).
Qed.

(** Two [%s] with white space before each. *)
Lemma scan_two t :
  scan [FChar SPC; FStr; FChar SPC; FStr] t =
    Def (match first_token t with
         | [] => []
         | _ => VStr (first_token t) ::
             match first_token (after_token t) with [] => [] | _ => [VStr (first_token (after_token t))] end
         end).
Proof.
  rewrite scan_space by done. cbn [scan]. rewrite skip_ws_idem. unfold first_token, after_token.
  destruct (span not_space (skip_ws t)) as [[|c s] r]; [done|]. cbn [fst snd]. change (isspace SPC) with true. cbn iota.
  rewrite skip_ws_idem. by destruct (span not_space (skip_ws r)) as [[|d p] r'].
Qed.

(** A word in an array of [n] zeros. *)
Lemma store_word n s :
  0 < n → store_str (zeros n) (match s with [] => None | _ => Some (VStr s) end) =
    if n <=? blen s then UB UB_buffer_overflow else Def (padded n s).
Proof.
  intros Hn. destruct s as [|c s].
  - rewrite blen_nil. destruct (Z.leb_spec n 0); [lia|]. cbn. f_equal. unfold padded. by rewrite blen_nil, Z.sub_0_r.
  - destruct (Z.leb_spec n (blen (c :: s))); [by apply store_str_overflow; lia|by apply store_cstr_zeros].
Qed.

Lemma two_words_scan t :
  no_nul t = true →
  (vs ← scan [FChar SPC; FStr; FChar SPC; FStr] t;
   username_char ← store_str (zeros 50) (vs !! 0%nat);
   password_char ← store_str (zeros 50) (vs !! 1%nat);
   u ← cstr username_char; p ← cstr password_char; mret (u, p)) = two_words t.
Proof.
  intros Ht. pose proof (first_token_no_nul t Ht) as Hu. pose proof (first_token_no_nul _ (after_token_no_nul t Ht)) as Hp.
  rewrite scan_two. unfold two_words. cbn [mbind cres_bind].
  set (u := first_token t) in *. set (p := first_token (after_token t)) in *.
  assert (p = [] ∨ u ≠ []) as Hup.
  { destruct (decide (u = [])) as [E|]; [left|by right]. unfold p. by rewrite (after_no_token t E). }
  assert ((match u with [] => [] | _ => VStr u :: match p with [] => [] | _ => [VStr p] end end) !! 0%nat
    = match u with [] => None | _ => Some (VStr u) end) as -> by (clearbody u; by destruct u).
  assert ((match u with [] => [] | _ => VStr u :: match p with [] => [] | _ => [VStr p] end end) !! 1%nat
    = match p with [] => None | _ => Some (VStr p) end) as ->
    by (clearbody u p; destruct u, p; try done; by destruct Hup).
  rewrite (store_word 50 u) by lia. destruct (Z.leb_spec 50 (blen u)); [done|]. cbn [mbind cres_bind orb].
  rewrite (store_word 50 p) by lia. destruct (Z.leb_spec 50 (blen p)); [done|]. cbn [mbind cres_bind].
  rewrite cstr_padded by done. cbn [mbind cres_bind]. by rewrite cstr_padded.
Qed.

(** [%s %d] for the endpoint. *)
Lemma endpoint_scan l t :
  locals_ok l → no_nul t = true →
  (vs ← scan [FChar SPC; FStr; FChar SPC; FInt] t;
   ip ← store_str (client_ip_address l) (vs !! 0%nat); _ ← cstr ip;
   mret (ReqClient ip (store_int (client_port_int l) (vs !! 1%nat)))) =
  ('(ip, port) ← endpoint l t; mret (ReqClient ip port)).
Proof.
  intros [Hl Hn] Ht. pose proof (first_token_no_nul t Ht) as Hu.
  rewrite scan_space by done. unfold endpoint. cbn [scan]. rewrite skip_ws_idem. unfold first_token, after_token in *.
  destruct (span not_space (skip_ws t)) as [[|c s] r]; cbn [fst snd] in *.
  - cbn. by destruct (cstr_defined _ Hn) as [? ->].
  - rewrite bool_decide_eq_false_2 by done. change (isspace SPC) with true. cbn iota.
    assert (scan_int (skip_ws r) = scan_int r) as -> by (unfold scan_int; by rewrite skip_ws_idem).
    assert (∀ port, (ip ← store_cstr (client_ip_address l) (c :: s); _ ← cstr ip; mret (ReqClient ip port)) =
      (if 15 <=? blen (c :: s) then UB UB_buffer_overflow else Def (ReqClient (overlay ((c :: s) ++ [NUL]) (client_ip_address l)) port))) as Hstore.
    { intros port. destruct (Z.leb_spec 15 (blen (c :: s))); [by rewrite store_cstr_overflow by lia|].
      rewrite store_cstr_overlay by lia. cbn [mbind cres_bind]. by rewrite cstr_overlay. }
    destruct (scan_int r) as [[z r']|].
    + rewrite (bool_decide_eq_true_2 (is_Some _)) by by eexists. cbn [andb]. destruct (in_int z); [|done].
      cbn [mbind cres_bind scan mret cres_ret lookup list_lookup store_str store_int negb]. rewrite Hstore. by destruct (15 <=? _).
    + rewrite (bool_decide_eq_false_2 (is_Some _)) by by intros []. cbn [andb].
      cbn [mbind cres_bind scan mret cres_ret lookup list_lookup store_str store_int]. rewrite Hstore. by destruct (15 <=? _).
Qed.

(** The call, on any array that holds its text. *)
Lemma scan_call_text buffer rest :
  cstr buffer = Def (b#"CALL" ++ rest) → blen buffer = SOCKET_BUFFER_SIZE → scan_call buffer = receiver_and_text rest.
Proof.
  intros Hc Hb. destruct (cstr_split _ _ Hc) as [Hn [junk E]]. pose proof (cstr_blen _ _ Hc) as Hlen.
  rewrite no_nul_app in Hn. apply andb_true_iff in Hn as [_ Hn]. pose proof (first_token_no_nul rest Hn) as Hu.
  rewrite blen_app, Hb in Hlen. change (blen b#"CALL") with 4 in Hlen. unfold SOCKET_BUFFER_SIZE in *.
  unfold scan_call, receiver_and_text. rewrite (sscanf_text _ _ Hc).
  assert (scan (parse_fmt (str "CALL %s")) (b#"CALL" ++ rest) = Def (match first_token rest with [] => [] | _ => [VStr (first_token rest)] end)) as ->.
  { change (scan (parse_fmt (str "CALL %s")) (b#"CALL" ++ rest)) with (scan [FStr] (skip_ws rest)). cbn [scan].
    rewrite skip_ws_idem. unfold first_token. by destruct (span not_space (skip_ws rest)) as [[|c s] r]. }
  cbn [mbind cres_bind]. set (u := first_token rest) in *.
  assert ((match u with [] => [] | _ => [VStr u] end) !! 0%nat = match u with [] => None | _ => Some (VStr u) end) as -> by (clearbody u; by destruct u).
  rewrite (store_word 50 u) by lia. destruct (Z.leb_spec 50 (blen u)); [done|]. cbn [mbind cres_bind orb].
  rewrite cstr_padded by done. cbn [mbind cres_bind]. unfold strlen. rewrite Hc. cbn [mbind cres_bind mret cres_ret].
  rewrite blen_app. change (blen b#"CALL") with 4. pose proof (blen_nonneg u). pose proof (blen_nonneg rest).
  destruct (Z.ltb_spec (blen rest) (2 + blen u)) as [Hs|Hs].
  - unfold from_index. destruct (Z.leb_spec 0 (4 + 1 + blen u + 1)), (Z.leb_spec (4 + 1 + blen u + 1) (blen buffer)); try lia.
    cbn [andb mbind cres_bind]. rewrite strncpy_overflow; [done|]. rewrite blen_zeros, wrap_neg; unfold SOCKET_BUFFER_SIZE; lia.
  - unfold wrap. rewrite Z.mod_small by lia. set (k := Z.to_nat (2 + blen u)).
    assert (buffer = (b#"CALL" ++ take k rest) ++ drop k rest ++ NUL :: junk) as Eb.
    { rewrite E. rewrite <- (take_drop k rest) at 1. by rewrite <- !app_assoc. }
    assert (blen (take k rest) = 2 + blen u) as Hk by (subst k; rewrite blen_take; lia).
    assert (blen (drop k rest) = blen rest - (2 + blen u)) by (apply blen_drop; lia).
    assert (no_nul (drop k rest) = true).
    { rewrite <- (take_drop k rest), no_nul_app in Hn. by apply andb_true_iff in Hn as [_ ?]. }
    rewrite Eb, from_index_app by (rewrite blen_app, Hk; eval_blen; lia). cbn [mbind cres_bind].
    rewrite strncpy_zeros by (done || (unfold SOCKET_BUFFER_SIZE; lia)). cbn [mbind cres_bind].
    rewrite cstr_padded by (done || (unfold SOCKET_BUFFER_SIZE; lia)). done.
Qed.

Lemma decode_text l buffer t :
  cstr buffer = Def t → blen buffer = SOCKET_BUFFER_SIZE → locals_ok l → decode l buffer = requested l t.
Proof.
  intros Hc Hb Hl. assert (no_nul t = true) as Hn by by apply (cstr_split _ _ Hc).
  assert (∀ kw rest, after_keyword kw t = Some rest → no_nul rest = true) as Hrest.
  { intros kw rest ->%after_keyword_app. rewrite no_nul_app in Hn. by apply andb_true_iff in Hn as [_ ?]. }
  unfold decode, requested.
  rewrite !(starts_with_text _ _ Hc) by (reflexivity || (rewrite Hb; unfold SOCKET_BUFFER_SIZE; lia)). cbn [mbind cres_bind].
  destruct (after_keyword b#"CLIENT" t) as [rest|] eqn:E.
  { rewrite (sscanf_text _ _ Hc), <- endpoint_scan by eauto. apply after_keyword_app in E as ->. reflexivity. }
  destruct (after_keyword b#"SIGNUP" t) as [rest|] eqn:E1.
  { unfold scan_credentials. rewrite (sscanf_text _ _ Hc), <- two_words_scan by eauto. apply after_keyword_app in E1 as ->. reflexivity. }
  destruct (after_keyword b#"LOGIN" t) as [rest|] eqn:E2.
  { unfold scan_credentials. rewrite (sscanf_text _ _ Hc), <- two_words_scan by eauto. apply after_keyword_app in E2 as ->. reflexivity. }
  destruct (after_keyword b#"CALL" t) as [rest|] eqn:E3.
  { apply after_keyword_app in E3 as ->. by rewrite (scan_call_text _ rest). }
  by destruct (after_keyword b#"LOGOUT" t), (after_keyword b#"EXIT" t).
Qed.

(** The arrays of a call are large enough for what has been read. *)
Definition fits (q : request) : Prop :=
  match q with ReqCall u sdp => no_nul u = true ∧ blen u < 50 ∧ no_nul sdp = true ∧ blen sdp < SOCKET_BUFFER_SIZE | _ => True end.

Lemma requested_fits l t q : no_nul t = true → blen t < SOCKET_BUFFER_SIZE → requested l t = Def q → fits q.
Proof.
  unfold requested. intros Hn Hb.
  destruct (after_keyword b#"CLIENT" t) as [rest|]; [destruct (endpoint l rest) as [[]|]; cbn; [by intros [= <-]|done]|].
  destruct (after_keyword b#"SIGNUP" t) as [rest|]; [destruct (two_words rest) as [[]|]; cbn; [by intros [= <-]|done]|].
  destruct (after_keyword b#"LOGIN" t) as [rest|]; [destruct (two_words rest) as [[]|]; cbn; [by intros [= <-]|done]|].
  destruct (after_keyword b#"CALL" t) as [rest|] eqn:E.
  - apply after_keyword_app in E as ->. rewrite no_nul_app in Hn. apply andb_true_iff in Hn as [_ Hn].
    rewrite blen_app in Hb. change (blen b#"CALL") with 4 in Hb. unfold receiver_and_text.
    destruct (Z.leb_spec 50 (blen (first_token rest))); [done|]. cbn [orb].
    destruct (Z.ltb_spec (blen rest) (2 + blen (first_token rest))); [done|]. cbn. intros [= <-]. cbn.
    pose proof (blen_nonneg (first_token rest)). split; [by apply first_token_no_nul|]. split; [done|]. split.
    + set (k := Z.to_nat _). rewrite <- (take_drop k rest), no_nul_app in Hn. by apply andb_true_iff in Hn as [_ ?].
    + rewrite blen_drop by lia. lia.
  - by destruct (after_keyword b#"LOGOUT" t), (after_keyword b#"EXIT" t); intros [= <-].
Qed.

(** ** The effects *)

(** Reduce both programs to their next calls. *)
Ltac run_both := cbn [lift_c mbind prog_mbind prog_bind try_catch catch_runtime_error mret prog_mret cres_ret cres_bind].

Lemma invite_equiv l u sdp : fits (ReqCall u sdp) → handle_call l u sdp ≡ invite l u sdp.
Proof.
  intros (Hu & Hbu & Hs & Hbs). unfold handle_call, invite, store, net, call. cbn [mbind prog_mbind prog_bind].
  apply equiv_act. intros [[]|]; cbn [lift_c mbind prog_mbind prog_bind negb]; [|done|done].
  apply equiv_act. intros []; cbn [negb]; [|done]. unfold forward_call, store, net, call.
  cbn [mbind prog_mbind prog_bind try_catch].
  apply equiv_act. intros [[a|]|]; run_both; [|done|done].
  unfold getSocketFd, read. destruct (socket_fd_ a) as [fd|]; [|done].
  run_both.
  unfold sprintf. rewrite print_invite. cbn [mbind cres_bind].
  assert (blen (b#"INVITE " ++ u ++ b#" " ++ sdp) < SOCKET_BUFFER_SIZE * 2) as Hb.
  { unfold SOCKET_BUFFER_SIZE in *. rewrite !blen_app. eval_blen. lia. }
  rewrite store_cstr_zeros by done. fold (invitation u sdp). unfold cout. run_both.
  assert (cstr (invitation u sdp) = Def (b#"INVITE " ++ u ++ b#" " ++ sdp)) as -> by (apply cstr_padded; [no_nul|done]).
  run_both.
  apply equiv_act. intros _. apply equiv_act. intros rcv. cbn [prog_bind].
  change (server_result (CNet (NRecv fd SOCKET_BUFFER_SIZE))) with recv_result in rcv.
  destruct (cstr (recv_into rcv (zeros SOCKET_BUFFER_SIZE))) as [answer|] eqn:Ha; [|done].
  run_both. destruct (cstr_split _ _ Ha) as [Hna _].
  unfold sscanf. rewrite Ha. cbn [mbind cres_bind].
  pose proof (first_token_no_nul answer Hna) as Hw.
  assert (scan (parse_fmt (str "%s")) answer = Def (match first_token answer with [] => [] | _ => [VStr (first_token answer)] end)) as ->.
  { change (parse_fmt (str "%s")) with [FStr]. cbn [scan]. unfold first_token. by destruct (span not_space (skip_ws answer)) as [[|c s] r]. }
  set (w := first_token answer) in *. run_both.
  assert ((match w with [] => [] | _ => [VStr w] end) !! 0%nat = match w with [] => None | _ => Some (VStr w) end) as -> by (clearbody w; by destruct w).
  rewrite (store_word 50 w) by lia. destruct (Z.leb_spec 50 (blen w)) as [|Hbw]; [done|]. cbn [lift_c mbind prog_mbind prog_bind].
  rewrite (starts_with_text (padded 50 w) w) by (try (rewrite blen_padded by lia); reflexivity || lia || by apply cstr_padded).
  cbn [lift_c prog_bind]. change (str "ACCEPT") with b#"ACCEPT". destruct (after_keyword b#"ACCEPT" w); [|done].
  run_both. done.
Qed.

Lemma carry_out_equiv client_socket l q : fits q → handle client_socket l q ≡ carry_out client_socket l q.
Proof.
  intros Hq. destruct q as [ip port|u p|u p|u sdp| | |]; cbn [handle carry_out]; [| | |by apply invite_equiv|done..].
  - unfold connect_to_client, connect_back, net, call. cbn [mbind prog_mbind prog_bind]. apply equiv_act. intros fd.
    change (server_result _) with Z in fd. destruct (fd =? -1); [done|]. destruct (cstr ip) as [a|]; [|done].
    cbn [lift_c prog_bind]. apply equiv_act. intros valid. change (server_result _) with Z in valid.
    cbn [prog_bind]. destruct (Z.eqb_spec valid 1); [rewrite bool_decide_eq_true_2 by done|by rewrite bool_decide_eq_false_2 by done].
    cbn [negb prog_bind]. apply equiv_act. intros r. change (server_result _) with Z in r. by destruct (r =? -1).
  - done.
  - done.
Qed.

(** ** Property *)

(** C6 (equivalence): on every array of 1024 bytes that holds a text, the command chain of [client_handler]
    makes, for every answer the store and the network give, the calls of the specification: it reads
    the text as a request in its words ([requested], which says when that is undefined: a
    word or an address that is too long, a port that is no [int], a call without a byte
    behind the name of the receiver) and carries it out ([carry_out]: the connection back to the
    client, the store, the replies, the invitation and its answer), and goes on or ends as that does. *)
Theorem dispatch_protocol client_socket l buffer t :
  cstr buffer = Def t → blen buffer = SOCKET_BUFFER_SIZE → locals_ok l →
  dispatch client_socket l buffer ≡ (q ← lift_c (requested l t); carry_out client_socket l q).
Proof.
  intros Hc Hb Hl. rewrite dispatch_eq, (decode_text l buffer t) by done. destruct (cstr_split _ _ Hc) as [Hn _].
  pose proof (cstr_blen _ _ Hc). destruct (requested l t) as [q|] eqn:E; [|done]. cbn [lift_c mbind prog_mbind prog_bind].
  apply carry_out_equiv, (requested_fits l t); [done|lia|done].
Qed.

(** Behind a keyword the first words count, whatever is before and after them. *)
Lemma dispatch_protocol_witness :
  (cstr (packet b#"LOGINx  y z") = Def b#"LOGINx  y z" ∧ requested init_locals b#"LOGINx  y z" = Def (ReqLogin b#"x" b#"y")) ∧
  dispatch 4 init_locals (packet b#"LOGINx  y z") ≡ carry_out 4 init_locals (ReqLogin b#"x" b#"y").
Proof.
  split; [split; vm_compute; reflexivity|].
  apply (dispatch_protocol 4 init_locals (packet b#"LOGINx  y z") b#"LOGINx  y z"); [vm_compute; reflexivity|reflexivity|].
  split; [reflexivity|]. apply elem_of_cons. by left.
Defined.

(** With two spaces behind CALL the description begins a character early, for the offset counts one. *)
Example call_two_spaces : requested init_locals b#"CALL  bob x" = Def (ReqCall b#"bob" b#" x").
Proof. vm_compute. reflexivity. Qed.
