(* ===== verification/ServerEffect.v ===== *)
(** * ServerEffect: the effect of each command on the store and the network

    One round of [client_handler] against any directory that satisfies
    [DirectoryLaws] and any network: which accounts change, what is sent and in which
    order ([w_log]), on every branch; and the messages whose handling is undefined. *)

From S2P Require Import Prelude CString Prog Net User Directory UserStore Server ServerSpec.

Section effect.
Context {D N : Type} `{DirectoryLaws D} (netw : ∀ c : net_call, N → net_result c * N).
Implicit Types (w : world D N) (l : locals).

Definition run_round (client_socket : Z) l w : outcome (ctl locals) * world D N :=
  exec (server_env netw) (handler_body client_socket l) w.

Definition receive_calls (client_socket : Z) : list server_call :=
  [CRunning; CNet (NRecv client_socket SOCKET_BUFFER_SIZE); CRunning].

(** The world after the calls that receive a command, the network being in [n]. *)
Definition after_receive (client_socket : Z) (n : N) w : world D N :=
  mkWorld (w_store w) (w_running w) n
    (w_log w ++ receive_calls client_socket).

(** The server is running and the next command on [client_socket] is the packet of
    [s], after which the network is in [n]. *)
Definition receives (client_socket : Z) (s : bytes) (n : N) w : Prop :=
  w_running w = true ∧
  netw (NRecv client_socket SOCKET_BUFFER_SIZE) (w_net w) = (RecvBytes (packet s), n).

(** The network after sending [data] on [fd] from [n]. *)
Definition net_send (fd : Z) (data : bytes) (n : N) : N := (netw (NSend fd data) n).2.

(** The world with another store and network and more calls logged. *)
Definition advance w (d : D) (n : N) (calls : list server_call) : world D N :=
  mkWorld d (w_running w) n (w_log w ++ calls).

(** ** Receiving *)

Lemma round_not_running client_socket l w :
  w_running w = false →
  run_round client_socket l w = (Done (Break l), advance w (w_store w) (w_net w) [CRunning]).
Proof. destruct w as [d b n lg]. cbn. by intros ->. Qed.

Lemma round_closed client_socket l w rcv n :
  w_running w = true → recv_count rcv ≤ 0 →
  netw (NRecv client_socket SOCKET_BUFFER_SIZE) (w_net w) = (rcv, n) →
  run_round client_socket l w =
  (Done (Break l), advance w (w_store w) n [CRunning; CNet (NRecv client_socket SOCKET_BUFFER_SIZE)]).
Proof.
  destruct w as [d b n0 lg]. cbn. intros -> Hc Hn. unfold run_round, handler_body. cbn. rewrite Hn.
  destruct (Z.leb_spec (recv_count rcv) 0); [|lia]. cbn. unfold advance. by rewrite <- app_assoc.
Qed.

(** A command that arrives is read from the array and dispatched. *)
Lemma round_receives client_socket l w rcv n :
  w_running w = true → 0 < recv_count rcv →
  netw (NRecv client_socket SOCKET_BUFFER_SIZE) (w_net w) = (rcv, n) →
  run_round client_socket l w =
  exec (server_env netw)
    (cout (recv_into rcv (zeros SOCKET_BUFFER_SIZE));;
     dispatch client_socket l (recv_into rcv (zeros SOCKET_BUFFER_SIZE)))
    (after_receive client_socket n w).
Proof.
  destruct w as [d b n0 lg]. cbn [w_running w_net]. intros -> Hc Hn.
  unfold run_round, handler_body, after_receive, receive_calls, running_load, net, call.
  cbn [mbind prog_mbind prog_bind exec server_env w_running w_net w_store w_log negb].
  rewrite Hn. destruct (Z.leb_spec (recv_count rcv) 0); [lia|].
  cbn [mbind prog_mbind prog_bind exec server_env w_running w_net w_store w_log negb].
  by rewrite <- !app_assoc.
Qed.

Lemma round_packet client_socket l w s n :
  receives client_socket s n w → no_nul s = true → 0 < blen s < SOCKET_BUFFER_SIZE →
  run_round client_socket l w =
  exec (server_env netw) (dispatch client_socket l (packet s)) (after_receive client_socket n w).
Proof.
  intros [Hr Hn] Hs Hb. erewrite round_receives; [|done| |done].
  - rewrite recv_packet by lia. rewrite exec_bind. unfold cout.
    rewrite cstr_packet by (done || lia). done.
  - cbn. rewrite blen_packet; unfold SOCKET_BUFFER_SIZE in *; lia.
Qed.

(** A packet that encodes a request is handled as that request. *)
Lemma round_request client_socket l w q n :
  receives client_socket (encode q) n w → well_formed q = true → locals_ok l →
  run_round client_socket l w =
  exec (server_env netw) (handle client_socket l (received l q)) (after_receive client_socket n w).
Proof.
  intros Hr Hq Hl. rewrite (round_packet _ _ _ (encode q) n) by auto using encode_no_nul, encode_blen.
  by rewrite dispatch_eq, decode_request.
Qed.

(** A packet that cannot be read ends the server with undefined behaviour. *)
Lemma round_undefined client_socket l w s n u :
  receives client_socket s n w → no_nul s = true → 0 < blen s < SOCKET_BUFFER_SIZE →
  decode l (packet s) = UB u →
  run_round client_socket l w = (Undefined u, after_receive client_socket n w).
Proof.
  intros Hr Hs Hb Hu. rewrite (round_packet _ _ _ s n) by done.
  by rewrite dispatch_eq, Hu.
Qed.

(** Unfold a handler against the environment. *)
Ltac run_handler :=
  cbn [received handle mbind prog_mbind prog_bind net store call exec server_env store_sem
       after_receive w_running w_net w_store w_log lift_c negb mret prog_mret cres_ret cres_bind
       getSocketFd read socket_fd_].

(** ** Sign-up, login, logout *)

(** SIGNUP files the user under its name with the password, logged
    out, reachable on the connection the CLIENT command opened, whatever account had
    that name before; no other account changes; the client is told so; the session
    takes the credentials of the message. *)
Lemma signup_effect client_socket l w u p n :
  receives client_socket (encode (ReqSignup u p)) n w → well_formed (ReqSignup u p) = true →
  locals_ok l → dir_ok (w_store w) →
  ∃ d,
    run_round client_socket l w =
    (Done (Continue (set_credentials u p l)),
     advance w d (net_send client_socket (reply b#"Signup is successful") n)
       (receive_calls client_socket ++
        [CStore (SAddUser (User_make u p false (client_socket_fd l)));
         CNet (NSend client_socket (reply b#"Signup is successful"))])) ∧
    dir_ok d ∧
    ∀ k, dir_account d k =
      if bool_decide (k = u) then Some (mkAccount u p false (Some (client_socket_fd l)))
      else dir_account (w_store w) k.
Proof.
  intros Hr Hq Hl Hd. erewrite round_request by done.
  destruct (dir_add_spec (w_store w) (User_make u p false (client_socket_fd l)) false
              (client_socket_fd l) Hd) as (d & Hadd & Hok & Hacc); [done|done|].
  exists d. split; [|done]. run_handler.
  cbn [client_socket_fd set_credentials]. rewrite Hadd. run_handler.
  unfold advance, net_send. destruct (netw _ n) as [r n']. cbn. by rewrite <- !app_assoc.
Qed.

Lemma login_round client_socket l w u p n :
  receives client_socket (encode (ReqLogin u p)) n w → well_formed (ReqLogin u p) = true →
  locals_ok l → dir_ok (w_store w) →
  ∃ d,
    run_round client_socket l w =
    (Done (Continue (set_credentials u p l)),
     advance w d (net_send client_socket (reply b#"Login is successful") n)
       (receive_calls client_socket ++
        [CStore (SLoginUser u p);
         CNet (NSend client_socket (reply b#"Login is successful"))])) ∧
    dir_ok d ∧
    ∀ k, dir_account d k =
      if bool_decide (k = u) && accepts (w_store w) u p
      then set_online true <$> dir_account (w_store w) k
      else dir_account (w_store w) k.
Proof.
  intros Hr Hq Hl Hd. erewrite round_request by done.
  destruct (dir_login_spec (w_store w) u p Hd) as (_ & Hok & Hacc).
  exists (dir_loginUser (w_store w) u p).2. split; [|done]. run_handler.
  destruct (dir_loginUser (w_store w) u p) as [b d]. run_handler.
  unfold advance, net_send. destruct (netw _ n) as [r n']. cbn. by rewrite <- !app_assoc.
Qed.

(** LOGIN logs the named account in exactly when the password is its
    password, and changes nothing else; the answer to the client is the same
    "Login is successful" in both cases, and the session takes the name given even
    when the password is wrong. *)
Lemma login_effect client_socket l w u p n :
  receives client_socket (encode (ReqLogin u p)) n w → well_formed (ReqLogin u p) = true →
  locals_ok l → dir_ok (w_store w) →
  ∃ d,
    run_round client_socket l w =
    (Done (Continue (set_credentials u p l)),
     advance w d (net_send client_socket (reply b#"Login is successful") n)
       (receive_calls client_socket ++
        [CStore (SLoginUser u p);
         CNet (NSend client_socket (reply b#"Login is successful"))])) ∧
    dir_ok d ∧
    ∀ k, dir_account d k =
      if bool_decide (k = u) && accepts (w_store w) u p
      then set_online true <$> dir_account (w_store w) k
      else dir_account (w_store w) k.
Proof. apply login_round. Qed.

Lemma logout_round client_socket l w n :
  receives client_socket (encode ReqLogout) n w → locals_ok l → dir_ok (w_store w) →
  ∃ d,
    run_round client_socket l w =
    (Done (Continue l),
     advance w d (net_send client_socket (reply b#"Logout is successful") n)
       (receive_calls client_socket ++
        [CStore (SLogOutUser (username l));
         CNet (NSend client_socket (reply b#"Logout is successful"))])) ∧
    dir_ok d ∧
    ∀ k, dir_account d k =
      if bool_decide (k = username l)
      then Some (default ghost_account (set_online false <$> dir_account (w_store w) k))
      else dir_account (w_store w) k.
Proof.
  intros Hr Hl Hd. erewrite round_request by done.
  destruct (dir_logout_spec (w_store w) (username l) Hd) as (Hok & Hacc).
  exists (dir_logOutUser (w_store w) (username l)). split; [|done]. unfold cmd_logout. run_handler.
  unfold advance, net_send. unfold cmd_logout. run_handler. unfold reply.
  destruct (netw _ n) as [r n']. cbn. by rewrite <- !app_assoc.
Qed.

(** LOGOUT logs out the account the session last named, with no check
    that this session logged it in; a name that has no account gets an empty account
    that is offline and has no connection. *)
Lemma logout_effect client_socket l w n :
  receives client_socket (encode ReqLogout) n w → locals_ok l → dir_ok (w_store w) →
  ∃ d,
    run_round client_socket l w =
    (Done (Continue l),
     advance w d (net_send client_socket (reply b#"Logout is successful") n)
       (receive_calls client_socket ++
        [CStore (SLogOutUser (username l));
         CNet (NSend client_socket (reply b#"Logout is successful"))])) ∧
    dir_ok d ∧
    ∀ k, dir_account d k =
      if bool_decide (k = username l)
      then Some (default ghost_account (set_online false <$> dir_account (w_store w) k))
      else dir_account (w_store w) k.
Proof. apply logout_round. Qed.

(** ** Calls *)

(** The calls that forward an invitation, when the receiver answers [incoming] whose
    first word is [tok]. *)
Definition forward_calls l (receiver sdp : bytes) (fd : Z) (incoming tok : bytes) : list server_call :=
  [CStore (SGetUser receiver); CNet (NSend fd (invitation receiver sdp));
   CNet (NRecv fd SOCKET_BUFFER_SIZE)] ++
  (if prefix_test tok b#"ACCEPT" then [CNet (NSend (client_socket_fd l) incoming)] else []).

(** The network after an invitation was sent on [fd] and an answer was awaited. *)
Definition after_invite (fd : Z) (invite : bytes) (n : N) : recv_result * N :=
  netw (NRecv fd SOCKET_BUFFER_SIZE) (net_send fd invite n).

Lemma forward_call_run l receiver sdp w a fd rcv n' s :
  dir_ok (w_store w) → dir_account (w_store w) receiver = Some a → acc_endpoint a = Some fd →
  no_nul receiver = true → blen receiver < 50 → no_nul sdp = true → blen sdp < SOCKET_BUFFER_SIZE →
  after_invite fd (invitation receiver sdp) (w_net w) = (rcv, n') →
  cstr (recv_into rcv (zeros SOCKET_BUFFER_SIZE)) = Def s → blen (first_token s) < 50 →
  exec (server_env netw) (forward_call l receiver sdp) w =
  (Done tt,
   advance w (w_store w)
     (if prefix_test (first_token s) b#"ACCEPT"
      then net_send (client_socket_fd l) (recv_into rcv (zeros SOCKET_BUFFER_SIZE)) n' else n')
     (forward_calls l receiver sdp fd (recv_into rcv (zeros SOCKET_BUFFER_SIZE)) (first_token s))).
Proof.
  intros Hok Ha Hfd Hnr Hbr Hns Hbs Hrcv Hstr Htok.
  set (incoming := recv_into rcv (zeros SOCKET_BUFFER_SIZE)) in *.
  assert (no_nul (b#"INVITE " ++ receiver ++ b#" " ++ sdp) = true) as Hnm by no_nul.
  assert (blen (b#"INVITE " ++ receiver ++ b#" " ++ sdp) < SOCKET_BUFFER_SIZE * 2) as Hbm
    by (unfold SOCKET_BUFFER_SIZE in *; rewrite !blen_app; eval_blen; lia).
  unfold forward_call. run_handler. rewrite dir_get_spec, Ha by done.
  unfold acc_user. cbn [User_copy read islogin_ socket_fd_ mbind cres_bind mret cres_ret username_ password_].
  rewrite Hfd. run_handler.
  unfold sprintf. rewrite print_invite. cbn [mbind cres_bind]. rewrite store_cstr_zeros by done.
  run_handler. unfold cout. rewrite cstr_padded by done. run_handler.
  change (padded (SOCKET_BUFFER_SIZE * 2) _) with (invitation receiver sdp).
  unfold after_invite, net_send in Hrcv. destruct (netw (NSend fd _) _) as [r1 n1]. run_handler.
  cbn [snd] in Hrcv. rewrite Hrcv. run_handler. fold incoming. rewrite Hstr. run_handler.
  pose proof (store_first_token s 50 ltac:(lia) Htok) as Hst.
  unfold sscanf. rewrite Hstr. cbn [mbind cres_bind].
  change (parse_fmt (str "%s")) with [FStr]. destruct (scan [FStr] s) as [vs|]; [|done].
  run_handler. cbn [mbind cres_bind] in Hst. rewrite Hst. run_handler.
  pose proof (blen_nonneg (first_token s)).
  rewrite starts_with_prefix by (done || rewrite blen_padded; lia). run_handler.
  rewrite padded_nul, prefix_test_nul by done. unfold forward_calls, advance, net_send.
  destruct (prefix_test (first_token s) b#"ACCEPT").
  - run_handler. destruct (netw (NSend (client_socket_fd l) incoming) n') as [r2 n2].
    run_handler. cbn. by rewrite <- !app_assoc.
  - run_handler. cbn. by rewrite <- !app_assoc.
Qed.

(** A call to a user who is not online does nothing: the store is
    asked once and nothing is sent, to the caller or to anybody. *)
Lemma call_offline_effect client_socket l w receiver sdp n :
  receives client_socket (encode (ReqCall receiver sdp)) n w →
  well_formed (ReqCall receiver sdp) = true → locals_ok l → dir_ok (w_store w) →
  online (w_store w) receiver = false →
  run_round client_socket l w =
  (Done (Continue l),
   advance w (w_store w) n (receive_calls client_socket ++ [CStore (SIsLogin receiver)])).
Proof.
  intros Hr Hq Hl Hd Ho. erewrite round_request by done. run_handler. unfold handle_call. run_handler.
  rewrite dir_isLogin_spec, Ho by done. run_handler. unfold advance. by rewrite <- !app_assoc.
Qed.

Lemma call_online_round client_socket l w receiver sdp n a fd rcv n' s :
  receives client_socket (encode (ReqCall receiver sdp)) n w →
  well_formed (ReqCall receiver sdp) = true → locals_ok l → dir_ok (w_store w) →
  dir_account (w_store w) receiver = Some a → acc_online a = true → acc_endpoint a = Some fd →
  after_invite fd (invitation receiver sdp) n = (rcv, n') →
  cstr (recv_into rcv (zeros SOCKET_BUFFER_SIZE)) = Def s → blen (first_token s) < 50 →
  run_round client_socket l w =
  (Done (Continue l),
   advance w (w_store w)
     (if prefix_test (first_token s) b#"ACCEPT"
      then net_send (client_socket_fd l) (recv_into rcv (zeros SOCKET_BUFFER_SIZE)) n' else n')
     (receive_calls client_socket ++ [CStore (SIsLogin receiver); CStore (SHasUser receiver)] ++
      forward_calls l receiver sdp fd (recv_into rcv (zeros SOCKET_BUFFER_SIZE)) (first_token s))).
Proof.
  intros Hr Hq Hl Hd Ha Hon Hfd Hrcv Hstr Htok. erewrite round_request by done.
  run_handler. unfold handle_call. run_handler. unfold online.
  rewrite dir_isLogin_spec by done. unfold online. rewrite Ha, Hon. run_handler.
  rewrite dir_has_spec, Ha by done. rewrite bool_decide_eq_true_2 by eauto. run_handler.
  rewrite exec_bind, exec_try_catch. cbn [well_formed] in Hq. split_bools.
  assert (blen sdp < SOCKET_BUFFER_SIZE).
  { pose proof (blen_nonneg receiver).
    match goal with Hb : blen (encode _) < _ |- _ => revert Hb end. unfold SOCKET_BUFFER_SIZE. cbn [encode].
    rewrite !blen_app. eval_blen. lia. }
  erewrite forward_call_run; [|done|done|done|by apply token_no_nul|lia|done|done|done|done|done].
  cbn [exec w_store]. unfold advance. cbn. by rewrite <- !app_assoc.
Qed.

(** C8 (functional): a call to an online user sends that user, on its own connection, an
    invitation with the caller's session description, waits for one answer there,
    and forwards the answer unchanged to the caller's connection exactly when its
    first word starts with ACCEPT.  The invitation names the receiver: nothing in it
    depends on who calls. *)
Theorem call_online_effect client_socket l w receiver sdp n a fd rcv n' s :
  receives client_socket (encode (ReqCall receiver sdp)) n w →
  well_formed (ReqCall receiver sdp) = true → locals_ok l → dir_ok (w_store w) →
  dir_account (w_store w) receiver = Some a → acc_online a = true → acc_endpoint a = Some fd →
  after_invite fd (invitation receiver sdp) n = (rcv, n') →
  cstr (recv_into rcv (zeros SOCKET_BUFFER_SIZE)) = Def s → blen (first_token s) < 50 →
  run_round client_socket l w =
  (Done (Continue l),
   advance w (w_store w)
     (if prefix_test (first_token s) b#"ACCEPT"
      then net_send (client_socket_fd l) (recv_into rcv (zeros SOCKET_BUFFER_SIZE)) n' else n')
     (receive_calls client_socket ++ [CStore (SIsLogin receiver); CStore (SHasUser receiver)] ++
      forward_calls l receiver sdp fd (recv_into rcv (zeros SOCKET_BUFFER_SIZE)) (first_token s))).
Proof. apply call_online_round. Qed.

(** ** Messages whose handling is undefined *)

(** A full array with no terminator among its 1024 bytes is undefined
    behaviour, whatever it says: printing it runs past its end. *)
Lemma full_buffer_undefined client_socket l w s n :
  w_running w = true → blen s = SOCKET_BUFFER_SIZE → no_nul s = true →
  netw (NRecv client_socket SOCKET_BUFFER_SIZE) (w_net w) = (RecvBytes s, n) →
  run_round client_socket l w = (Undefined UB_over_read, after_receive client_socket n w).
Proof.
  intros Hr Hb Hs Hn. erewrite round_receives; [|done| |done].
  - rewrite recv_into_zeros, padded_full by done. unfold cout. by rewrite cstr_no_nul.
  - cbn. rewrite Hb. done.
Qed.

Lemma decode_CALL l t :
  4 + blen t < SOCKET_BUFFER_SIZE →
  decode l (packet (b#"CALL" ++ t))
  = ('(u, sdp) ← scan_call (packet (b#"CALL" ++ t)); mret (ReqCall u sdp)).
Proof.
  intros. assert (blen (b#"CALL" ++ t) ≤ SOCKET_BUFFER_SIZE) by (rewrite blen_app; eval_blen; lia).
  unfold decode. by keyword_tests.
Qed.

(** A CALL message is handled exactly when its first word fits the array
    of 50 bytes and something follows the word; any other CALL message overflows an
    array, in particular one with no byte after the name, for which the length given
    to [strncpy] wraps round. *)
Lemma call_message_defined client_socket l w t n :
  receives client_socket (b#"CALL" ++ t) n w → no_nul t = true → 4 + blen t < SOCKET_BUFFER_SIZE →
  if (blen (first_token t) <? 50) && (2 + blen (first_token t) <=? blen t)
  then ∃ u sdp, run_round client_socket l w =
         exec (server_env netw) (handle_call l u sdp) (after_receive client_socket n w)
  else run_round client_socket l w = (Undefined UB_buffer_overflow, after_receive client_socket n w).
Proof.
  intros Hr Ht Hb.
  rewrite (round_packet _ _ _ (b#"CALL" ++ t) n); [|done|by no_nul|rewrite blen_app; eval_blen; pose_blen; lia].
  rewrite dispatch_eq, decode_CALL by done.
  pose proof (scan_call_packet t Ht Hb) as Hscan.
  destruct (scan_call (packet (b#"CALL" ++ t))) as [[u sdp]|e].
  - destruct Hscan as [H1 H2]. apply Z.ltb_lt in H1 as ->. apply Z.leb_le in H2 as ->. by exists u, sdp.
  - destruct Hscan as [-> [H1|H1]]; [apply Z.ltb_ge in H1 as ->|apply Z.leb_gt in H1 as ->];
      rewrite ?andb_false_r; done.
Qed.

(** A client address of fifteen characters, the length of an ordinary
    dotted quad such as 192.168.100.100, overflows the array that receives it. *)
Lemma client_address_overflow client_socket l w ip port n :
  receives client_socket (encode (ReqClient ip port)) n w → token ip = true →
  15 ≤ blen ip ≤ 500 → in_int port = true → locals_ok l →
  run_round client_socket l w = (Undefined UB_buffer_overflow, after_receive client_socket n w).
Proof.
  intros Hr Hip Hlen Hport [Hl _]. pose proof (token_no_nul _ Hip).
  assert (no_nul (encode (ReqClient ip port)) = true) by (cbn [encode]; no_nul).
  assert (0 < blen (encode (ReqClient ip port)) < SOCKET_BUFFER_SIZE).
  { pose proof (dec_blen port Hport). unfold SOCKET_BUFFER_SIZE. cbn [encode].
    rewrite !blen_app. eval_blen. pose_blen. lia. }
  apply (round_undefined _ _ _ (encode (ReqClient ip port))); [done|done|done|].
  unfold decode. keyword_tests. rewrite sscanf_packet by (done || lia).
  change (scan (parse_fmt (str "CLIENT %s %d")) (encode (ReqClient ip port)))
    with (scan [FStr; FChar SPC; FInt] (skip_ws (ip ++ b#" " ++ dec port))).
  rewrite skip_ws_token, scan_token; [|done|by cbn; intros ? ? [= <- _]|done].
  rewrite scan_space by done. cbn [app str skip_ws]. change (isspace " ") with true. cbn iota.
  rewrite scan_last_int by done. cbn [mbind cres_bind mret cres_ret lookup list_lookup store_str].
  rewrite store_cstr_overflow by lia. done.
Qed.

(** ** Leaving the loop *)

(** EXIT answers the client, sends "EXIT" on the connection the CLIENT
    command opened unless the answer failed, and leaves the loop in both cases. *)
Lemma exit_effect client_socket l w n :
  receives client_socket (encode ReqExit) n w → locals_ok l →
  let bye := NSend client_socket (reply b#"Exit is succesful") in
  run_round client_socket l w =
  (Done (Break l),
   if (netw bye n).1 =? -1
   then advance w (w_store w) (netw bye n).2 (receive_calls client_socket ++ [CNet bye])
   else advance w (w_store w) (net_send (client_socket_fd l) (lit "EXIT") (netw bye n).2)
          (receive_calls client_socket ++ [CNet bye; CNet (NSend (client_socket_fd l) (lit "EXIT"))])).
Proof.
  intros Hr Hl bye. erewrite round_request by done. run_handler. unfold cmd_exit. run_handler.
  change (packet (b#"Exit is succesful" ++ [LF])) with (reply b#"Exit is succesful"). fold bye.
  unfold net_send. destruct (netw bye n) as [r n1]. run_handler. cbn [fst snd].
  destruct (r =? -1); run_handler.
  - unfold advance. by rewrite <- !app_assoc.
  - destruct (netw (NSend (client_socket_fd l) (lit "EXIT")) n1) as [r2 n2]. run_handler.
    unfold advance. cbn. by rewrite <- !app_assoc.
Qed.

(** A handler that leaves its loop closes the client's socket twice
    when it had opened a connection back to the client, and never that connection. *)
Lemma handler_end_closes client_socket l w :
  ∃ n,
    exec (server_env netw) (handler_end client_socket l) w =
    (Done tt, advance w (w_store w) n
       (if client_socket_fd l =? -1 then [CNet (NClose client_socket)]
        else [CNet (NClose client_socket); CNet (NClose client_socket)])).
Proof.
  unfold handler_end, advance. run_handler.
  destruct (netw (NClose client_socket) (w_net w)) as [r n1]. run_handler.
  destruct (client_socket_fd l =? -1); cbn; [by exists n1|].
  destruct (netw (NClose client_socket) n1) as [r2 n2] eqn:E. exists n2. cbn.
  by rewrite <- !app_assoc.
Qed.

(** A session that never proved who it is can log a user out: one LOGIN
    with the victim's name and a wrong password, then one LOGOUT. *)
Lemma foreign_logout client_socket l w victim p a n1 n2 :
  dir_ok (w_store w) → locals_ok l →
  dir_account (w_store w) victim = Some a → acc_online a = true → acc_password a ≠ p →
  well_formed (ReqLogin victim p) = true →
  receives client_socket (encode (ReqLogin victim p)) n1 w →
  ∃ l1 w1,
    run_round client_socket l w = (Done (Continue l1), w1) ∧
    dir_account (w_store w1) victim = Some a ∧
    (receives client_socket (encode ReqLogout) n2 w1 →
     ∃ w2, run_round client_socket l1 w1 = (Done (Continue l1), w2) ∧
           dir_account (w_store w2) victim = Some (set_online false a)).
Proof.
  intros Hd Hl Ha Hon Hp Hq Hr.
  destruct (login_round client_socket l w victim p n1) as (d & Hrun & Hok & Hacc); [done..|].
  assert (accepts (w_store w) victim p = false) as Hno
    by (unfold accepts; rewrite Ha; by apply bool_decide_eq_false_2).
  eexists _, _. split; [exact Hrun|]. cbn [w_store advance]. split.
  { rewrite Hacc, Hno, andb_false_r. done. }
  intros Hr2.
  edestruct (logout_round client_socket (set_credentials victim p l)) as (d2 & Hrun2 & _ & Hacc2);
    [exact Hr2|done|done|].
  eexists. split; [exact Hrun2|]. cbn [w_store advance username set_credentials]. rewrite Hacc2.
  rewrite bool_decide_eq_true_2 by done. cbn [w_store advance]. by rewrite Hacc, Hno, andb_false_r, Ha.
Qed.
End effect.

(** ** Concrete runs

    A network that delivers a script of messages, one per [recv], and accepts
    everything that is sent. *)

Definition script_net (c : net_call) (script : list bytes) : net_result c * list bytes :=
  match c return net_result c * list bytes with
  | NRecv _ _ =>
      match script with [] => (RecvError, []) | m :: script => (RecvBytes m, script) end
  | NSend _ data => (blen data, script)
  | NClose _ => (tt, script)
  | NSocket _ => (7, script)
  | NInetPton _ => (1, script)
  | _ => (0, script)
  end.

(** bob is registered and online, reachable on descriptor 5. *)
Definition bob_store : users_map := <[b#"bob" := User_make b#"bob" b#"secret" true 5]> ∅.

Definition script_world (script : list bytes) : world users_map (list bytes) :=
  mkWorld bob_store true script [].

Lemma bob_store_ok : dir_ok bob_store.
Proof. apply users_ok_insert; [apply map_Forall_empty|]. repeat split; [eauto|left; split; [done|eauto]]. Qed.

Lemma init_locals_ok : locals_ok init_locals.
Proof. split; [done|]. by apply in_zeros. Qed.

Lemma signup_effect_witness :
  (run_round script_net 4 init_locals (script_world [packet b#"SIGNUP eve x"])).1
  = Done (Continue (set_credentials b#"eve" b#"x" init_locals)).
Proof.
  destruct (signup_effect script_net 4 init_locals (script_world [packet b#"SIGNUP eve x"])
              b#"eve" b#"x" []) as (d & Hrun & _);
    [by split|done|apply init_locals_ok|apply bob_store_ok|].
  by rewrite Hrun.
Defined.

Lemma login_effect_witness :
  (run_round script_net 4 init_locals (script_world [packet b#"LOGIN bob guess"])).1
  = Done (Continue (set_credentials b#"bob" b#"guess" init_locals)).
Proof.
  destruct (login_effect script_net 4 init_locals (script_world [packet b#"LOGIN bob guess"])
              b#"bob" b#"guess" []) as (d & Hrun & _);
    [by split|done|apply init_locals_ok|apply bob_store_ok|].
  by rewrite Hrun.
Defined.

Lemma logout_effect_witness :
  (run_round script_net 4 init_locals (script_world [packet b#"LOGOUT "])).1
  = Done (Continue init_locals).
Proof.
  destruct (logout_effect script_net 4 init_locals (script_world [packet b#"LOGOUT "]) [])
    as (d & Hrun & _); [by split|apply init_locals_ok|apply bob_store_ok|].
  by rewrite Hrun.
Defined.

Lemma call_offline_effect_witness :
  w_log (run_round script_net 4 init_locals (script_world [packet b#"CALL eve {}"])).2
  = receive_calls 4 ++ [CStore (SIsLogin b#"eve")].
Proof.
  rewrite (call_offline_effect script_net 4 init_locals (script_world [packet b#"CALL eve {}"])
             b#"eve" b#"{}" []);
    [done|by split|done|apply init_locals_ok|apply bob_store_ok|done].
Defined.

Lemma call_online_effect_witness :
  w_log (run_round script_net 4 (set_endpoint (zeros 15) 8080 6 init_locals)
           (script_world [packet b#"CALL bob {offer}"; packet b#"ACCEPT {answer}"])).2
  = receive_calls 4 ++
    [CStore (SIsLogin b#"bob"); CStore (SHasUser b#"bob"); CStore (SGetUser b#"bob");
     CNet (NSend 5 (invitation b#"bob" b#"{offer}")); CNet (NRecv 5 SOCKET_BUFFER_SIZE);
     CNet (NSend 6 (packet b#"ACCEPT {answer}"))].
Proof.
  rewrite (call_online_effect script_net 4 (set_endpoint (zeros 15) 8080 6 init_locals)
             (script_world [packet b#"CALL bob {offer}"; packet b#"ACCEPT {answer}"])
             b#"bob" b#"{offer}" [packet b#"ACCEPT {answer}"]
             (mkAccount b#"bob" b#"secret" true (Some 5)) 5
             (RecvBytes (packet b#"ACCEPT {answer}")) [] b#"ACCEPT {answer}");
    [done|by split|done|split; [done|by apply in_zeros]|apply bob_store_ok|done|done|done|done|done|done].
Defined.

Lemma full_buffer_undefined_witness :
  (run_round script_net 4 init_locals
     (script_world [replicate (Z.to_nat SOCKET_BUFFER_SIZE) "A"%char])).1 = Undefined UB_over_read.
Proof.
  rewrite (full_buffer_undefined script_net 4 init_locals _
             (replicate (Z.to_nat SOCKET_BUFFER_SIZE) "A"%char) []);
    [done|done|vm_compute; reflexivity|vm_compute; reflexivity|done].
Defined.

Lemma call_message_defined_witness :
  (run_round script_net 4 init_locals (script_world [packet b#"CALL bob"])).1
  = Undefined UB_buffer_overflow.
Proof.
  pose proof (call_message_defined script_net 4 init_locals (script_world [packet b#"CALL bob"])
    b#" bob" [] ltac:(by split) ltac:(done) ltac:(done)) as H.
  change ((blen (first_token b#" bob") <? 50) && (2 + blen (first_token b#" bob") <=? blen b#" bob"))
    with false in H.
  by rewrite H.
Defined.

Lemma client_address_overflow_witness :
  (run_round script_net 4 init_locals
     (script_world [packet b#"CLIENT 192.168.100.100 8080"])).1 = Undefined UB_buffer_overflow.
Proof.
  rewrite (client_address_overflow script_net 4 init_locals
             (script_world [packet b#"CLIENT 192.168.100.100 8080"]) b#"192.168.100.100" 8080 []);
    [done|by split|done|vm_compute; split; discriminate|done|apply init_locals_ok].
Defined.

Lemma exit_effect_witness :
  (run_round script_net 4 init_locals (script_world [packet b#"EXIT EXIT"])).1
  = Done (Break init_locals).
Proof.
  rewrite (exit_effect script_net 4 init_locals (script_world [packet b#"EXIT EXIT"]) []);
    [done|by split|apply init_locals_ok].
Defined.

Lemma foreign_logout_witness :
  ∃ l1 w1, run_round script_net 4 init_locals
             (script_world [packet b#"LOGIN bob guess"; packet b#"LOGOUT "]) = (Done (Continue l1), w1).
Proof.
  destruct (foreign_logout script_net 4 init_locals
      (script_world [packet b#"LOGIN bob guess"; packet b#"LOGOUT "])
      b#"bob" b#"guess" (mkAccount b#"bob" b#"secret" true (Some 5)) [packet b#"LOGOUT "] [])
    as (l1 & w1 & Hrun & _);
    [apply bob_store_ok|apply init_locals_ok|done|done|done|done|by split|].
  by exists l1, w1.
Defined.

(** A whole session: [fuel] rounds of the loop against a script. *)
Definition run_session (fuel : nat) (store : users_map) (script : list bytes)
    : option (outcome locals * world users_map (list bytes)) :=
  exec_loop (server_env script_net) fuel (handler_body 4) init_locals (mkWorld store true script []).

(** From an empty store, a client that logs in under an unknown name, logs
    out, logs in again without a password and calls that name makes the server copy
    an uninitialised descriptor: logging out an unknown name creates an account with
    an empty password and no connection. *)
Lemma ghost_call_undefined :
  fst <$> run_session 5 ∅
    [packet b#"LOGIN eve x"; packet b#"LOGOUT "; packet b#"LOGIN eve"; packet b#"CALL eve {}"]
  = Some (Undefined UB_indeterminate).
Proof. vm_compute. reflexivity. Qed.

(** Signing up, logging in, being called and leaving, end to end: the
    store ends with the account online and the loop ends by itself. *)
Lemma session_run :
  match run_session 6 bob_store
    [packet b#"CLIENT 10.0.0.2 8080"; packet b#"SIGNUP amy pw"; packet b#"LOGIN amy pw";
     packet b#"CALL bob {offer}"; packet b#"ACCEPT {answer}"; packet b#"EXIT EXIT"] with
  | Some (Done l, w) =>
      username l = b#"amy" ∧ client_socket_fd l = 7 ∧
      online (w_store w) b#"amy" = true ∧ w_net w = []
  | _ => False
  end.
Proof. vm_compute. auto. Qed.
