(* ===== verification/ServerSystem.v ===== *)
(** * ServerSystem: the whole server as interleaved threads

    [main] accepts connections and starts one handler thread per client; all of them
    share [userStore] and [running].  A step of the system is one call of one thread
    ([server_call]), except that an operation of the store is two: the thread enters the
    store, and leaves it with the result.  A thread that takes the mutex waits while
    another one that has taken it is in the store; when two threads are in the store and
    one of them has not taken the mutex ([logOutUser]), their accesses to the map are a data
    race, which is undefined.  So operations that do not race do not overlap, and it
    does not matter that the map changes when the thread leaves.  The environment answers
    socket calls with anything [net_ok] allows, may kill the process by SIGPIPE at a [send]
    on a stream, may refuse to start a thread, and may deliver SIGINT at any moment. *)

From S2P Require Import Prelude CString Prog Net User Directory Server ServerSpec.

(** Why the process is gone. *)
Inductive fault :=
| FaultUndefined (u : ub)
| FaultRace (c c' : store_call) (** two threads in the store, not both with its mutex *)
| FaultSigpipe (fd : Z)         (** SIGPIPE at a [send] on a connection that is closed *)
| FaultTerminate (e : exn)      (** an exception leaves a thread: [std::terminate] *)
| FaultExit (code : Z).

#[export] Instance fault_eq_dec : EqDecision fault.
Proof. solve_decision. Defined.

(** A handler thread: in its loop, in the statements after it, or over. *)
Inductive hthread :=
| HLoop (client_socket : Z) (p : sprog (ctl locals))
| HEnd (client_socket : Z) (p : sprog unit)
| HDone.

(** The main thread. *)
Inductive mthread :=
| MSetup (p : sprog (Z + Z))
| MAccept (server_socket : Z) (p : sprog (ctl nat))
| MEnd (p : sprog Z)
| MExited (code : Z).

(** A program that has no call left moves to what the source runs next. *)
Definition settle_loop (client_socket : Z) (p : sprog (ctl locals)) : hthread + fault :=
  match p with
  | Ret (Continue l) => inl (HLoop client_socket (handler_body client_socket l))
  | Ret (Break l) => inl (HEnd client_socket (handler_end client_socket l))
  | Act _ _ => inl (HLoop client_socket p)
  | Raise e => inr (FaultTerminate e)
  | Undef u => inr (FaultUndefined u)
  | Halt c => inr (FaultExit c)
  end.

Definition settle_end (client_socket : Z) (p : sprog unit) : hthread + fault :=
  match p with
  | Ret _ => inl HDone
  | Act _ _ => inl (HEnd client_socket p)
  | Raise e => inr (FaultTerminate e)
  | Undef u => inr (FaultUndefined u)
  | Halt c => inr (FaultExit c)
  end.

Definition settle_main_end (p : sprog Z) : mthread + fault :=
  match p with
  | Ret code => inl (MExited code)
  | Act _ _ => inl (MEnd p)
  | Raise e => inr (FaultTerminate e)
  | Undef u => inr (FaultUndefined u)
  | Halt c => inr (FaultExit c)
  end.

Definition settle_accept (server_socket : Z) (p : sprog (ctl nat)) : mthread + fault :=
  match p with
  | Ret (Continue n) => inl (MAccept server_socket (accept_body server_socket n))
  | Ret (Break n) => settle_main_end (main_end server_socket n)
  | Act _ _ => inl (MAccept server_socket p)
  | Raise e => inr (FaultTerminate e)
  | Undef u => inr (FaultUndefined u)
  | Halt c => inr (FaultExit c)
  end.

Definition settle_setup (p : sprog (Z + Z)) : mthread + fault :=
  match p with
  | Ret (inl code) => inl (MExited code)
  | Ret (inr server_socket) => inl (MAccept server_socket (accept_body server_socket 0))
  | Act _ _ => inl (MSetup p)
  | Raise e => inr (FaultTerminate e)
  | Undef u => inr (FaultUndefined u)
  | Halt c => inr (FaultExit c)
  end.

(** [std::thread(client_handler, client_socket)]. *)
Definition new_handler (client_socket : Z) : hthread :=
  HLoop client_socket (handler_body client_socket init_locals).

(** A call the thread is about to make, with what follows it. *)
Definition hthread_call (t : hthread) : option server_call :=
  match t with
  | HLoop _ (Act c _) => Some c
  | HEnd _ (Act c _) => Some c
  | _ => None
  end.

Definition mthread_call (m : mthread) : option server_call :=
  match m with
  | MSetup (Act c _) => Some c
  | MAccept _ (Act c _) => Some c
  | MEnd (Act c _) => Some c
  | _ => None
  end.

Section system.
Context {D : Type} `{DirectoryLaws D}.

Record system := mkSystem {
  y_store : D;
  y_running : bool;
  y_main : mthread;
  y_threads : list hthread;      (** the vector [threads], by index *)
  y_inside : option nat;         (** the thread that is in an operation of the store *)
  y_fault : option fault
}.

Definition init_main (argv : list bytes) : mthread + fault := settle_setup (main_setup argv).

(** The server just started. *)
Definition init_system (argv : list bytes) : system :=
  match init_main argv with
  | inl m => mkSystem dir_empty true m [] None None
  | inr f => mkSystem dir_empty true (MExited 0) [] None (Some f)
  end.

(** The answers a call may get when [running] is [b] and the store is [d], and the
    store after it.  Starting and joining threads are steps of [main]. *)
Definition answers (b : bool) (d : D) (c : server_call) : server_result c → D → Prop :=
  match c with
  | CRunning => λ r d', r = b ∧ d' = d
  | CStore sc => λ r d', store_sem sc d = (r, d')
  | CNet nc => λ r d', net_ok nc r ∧ d' = d
  | CSigaction => λ r d', (r = 0 ∨ r = -1) ∧ d' = d
  | CSpawn _ | CJoin _ => λ _ _, False
  end.

(** One call of a program: the store before and after, and the rest of the program. *)
Definition call_step {A} (b : bool) (d : D) (p : sprog A) (d' : D) (p' : sprog A) : Prop :=
  match p with
  | Act c k => ∃ r, answers b d c r d' ∧ p' = k r
  | _ => False
  end.

(** One call of a handler thread. *)
Definition hthread_step (b : bool) (d : D) (t : hthread) (d' : D) (t' : hthread + fault) : Prop :=
  match t with
  | HLoop s p => ∃ p', call_step b d p d' p' ∧ t' = settle_loop s p'
  | HEnd s p => ∃ p', call_step b d p d' p' ∧ t' = settle_end s p'
  | HDone => False
  end.

(** One call of [main]; the threads change when one is started, and a join waits for
    its thread to be over. *)
Definition main_call {A} (b : bool) (d : D) (ts : list hthread) (p : sprog A)
    (d' : D) (ts' : list hthread) (p' : sprog A) : Prop :=
  match p with
  | Act (CSpawn s) k =>
      d' = d ∧ (ts' = ts ++ [new_handler s] ∧ p' = k true ∨ ts' = ts ∧ p' = k false)
  | Act (CJoin t) k => ts !! t = Some HDone ∧ d' = d ∧ ts' = ts ∧ p' = k tt
  | _ => call_step b d p d' p' ∧ ts' = ts
  end.

Definition main_step (b : bool) (d : D) (ts : list hthread) (m : mthread)
    (d' : D) (ts' : list hthread) (m' : mthread + fault) : Prop :=
  match m with
  | MSetup p => ∃ p', main_call b d ts p d' ts' p' ∧ m' = settle_setup p'
  | MAccept s p => ∃ p', main_call b d ts p d' ts' p' ∧ m' = settle_accept s p'
  | MEnd p => ∃ p', main_call b d ts p d' ts' p' ∧ m' = settle_main_end p'
  | MExited _ => False
  end.

(** The system after a handler or [main] has moved. *)
Definition set_thread (y : system) (i : nat) (d : D) (t : hthread + fault) : system :=
  match t with
  | inl t => mkSystem d (y_running y) (y_main y) (<[i := t]> (y_threads y)) (y_inside y) None
  | inr f => mkSystem d (y_running y) (y_main y) (y_threads y) (y_inside y) (Some f)
  end.
Definition set_main (y : system) (d : D) (ts : list hthread) (m : mthread + fault) : system :=
  match m with
  | inl m => mkSystem d (y_running y) m ts (y_inside y) None
  | inr f => mkSystem d (y_running y) (y_main y) ts (y_inside y) (Some f)
  end.
Definition set_inside (i : option nat) (y : system) : system :=
  mkSystem (y_store y) (y_running y) (y_main y) (y_threads y) i (y_fault y).
Definition crash (f : fault) (y : system) : system :=
  mkSystem (y_store y) (y_running y) (y_main y) (y_threads y) (y_inside y) (Some f).

(** The call that handler [i] is about to make. *)
Definition handler_call (y : system) (i : nat) : option server_call := y_threads y !! i ≫= hthread_call.

Definition is_store_call (c : option server_call) : bool := match c with Some (CStore _) => true | _ => false end.

(** A step of handler [i]: a call that is not one of the store; entering the store, which
    nobody else may be in; leaving it; and the two ways in which the process ends in a
    call.  A thread with the mutex keeps the others that take it waiting. *)
Inductive handler_move (i : nat) (y : system) : system → Prop :=
| handler_calls t d t' :
    y_threads y !! i = Some t → is_store_call (hthread_call t) = false →
    hthread_step (y_running y) (y_store y) t d t' →
    handler_move i y (set_thread y i d t')
| handler_enters c :
    handler_call y i = Some (CStore c) → y_inside y = None →
    handler_move i y (set_inside (Some i) y)
| handler_leaves t d t' :
    y_threads y !! i = Some t → y_inside y = Some i →
    hthread_step (y_running y) (y_store y) t d t' →
    handler_move i y (set_thread (set_inside None y) i d t')
| handler_races c j c' :
    handler_call y i = Some (CStore c) → y_inside y = Some j → i ≠ j →
    handler_call y j = Some (CStore c') → takes_mutex c && takes_mutex c' = false →
    handler_move i y (crash (FaultRace c c') y)
| handler_sigpipe fd data :
    handler_call y i = Some (CNet (NSend fd data)) →
    handler_move i y (crash (FaultSigpipe fd) y).

(** One step that is not a signal. *)
Inductive move : system → system → Prop :=
| move_handler y i y' : y_fault y = None → handler_move i y y' → move y y'
| move_main y d ts m :
    y_fault y = None → main_step (y_running y) (y_store y) (y_threads y) (y_main y) d ts m →
    move y (set_main y d ts m).

(** [signal_handler(SIGINT)]: [running.store(false)]. *)
Definition sigint (y : system) : system :=
  mkSystem (y_store y) false (y_main y) (y_threads y) (y_inside y) (y_fault y).

Inductive step : system → system → Prop :=
| step_move y y' : move y y' → step y y'
| step_sigint y : y_fault y = None → step y (sigint y).

Definition reachable (argv : list bytes) (y : system) : Prop := rtc step (init_system argv) y.
End system.
Arguments system : clear implicits.

(** ** What one handler may do

    The ghost state of the proof is the list of names known to be registered. *)

(** The calls a handler on [client_socket] is allowed to make. *)
Definition handler_pre (client_socket : Z) (known : list bytes) (c : server_call) : Prop :=
  match c with
  | CStore (SAddUser u) => islogin_ u = Some false ∧ is_Some (socket_fd_ u)
  | CStore (SGetUser n) => n ∈ known
  | CNet (NClose fd) => fd = client_socket
  | CSigaction | CSpawn _ | CJoin _ => False
  | _ => True
  end.

(** The answers it can get, and what they tell. *)
Definition handler_ok (known : list bytes) (c : server_call) : server_result c → list bytes → Prop :=
  match c with
  | CStore (SHasUser n) => λ r known', known' = if (r : bool) then n :: known else known
  | CStore (SAddUser _) => λ r known', r = Def tt ∧ known' = known
  | CStore (SIsLogin _) => λ r known', (∃ b, r = Def b) ∧ known' = known
  | CStore (SGetUser _) => λ r known', r ≠ Def None ∧ known' = known
  | CNet nc => λ r known', net_ok nc r ∧ known' = known
  | _ => λ _ known', known' = known
  end.

(** How a round of the loop may end: never by an exception. *)
Definition body_post (_ : list bytes) (o : outcome (ctl locals)) : Prop :=
  match o with
  | Done (Continue l) | Done (Break l) => locals_ok l
  | Threw _ | Exited _ => False
  | Undefined _ => True
  end.

Definition no_throw {A} (_ : list bytes) (o : outcome A) : Prop :=
  match o with Threw _ | Exited _ => False | _ => True end.

(** The statements after the loop only come to their end. *)
Definition only_ends {A} (_ : list bytes) (o : outcome A) : Prop := match o with Done _ => True | _ => False end.

(** ** Lemmas *)

Abbreviation hwp s := (wp (result:=server_result) (handler_pre s) handler_ok).

(** Walk through a handler: binds, C functions, calls. *)
Ltac hwp_step :=
  match goal with
  | |- wp _ _ _ (_ ≫= _) _ => apply wp_bind
  | |- wp _ _ _ (lift_c _) _ => apply wp_lift_c; intros ? ?
  | |- wp _ _ _ (Ret _) _ => cbn [wp]
  | |- wp _ _ _ (mret _) _ => cbn [wp mret prog_mret]
  | |- wp _ _ _ (call _) _ => unfold call
  | |- wp _ _ _ (store _) _ => unfold store, call
  | |- wp _ _ _ (net _) _ => unfold net, call
  | |- wp _ _ _ running_load _ => unfold running_load, call
  | |- wp _ _ _ (cout _) _ => unfold cout
  | |- wp _ _ _ (Act _ _) _ => cbn [wp]; split; [try done|intros ? ? ?]
  | |- bind_post _ _ _ _ _ _ => cbn [bind_post]
  | |- wp _ _ _ (if ?b then _ else _) _ => destruct b eqn:?
  | |- wp _ _ _ (let '(_, _) := ?x in _) _ => destruct x eqn:?
  | |- body_post _ (Undefined _) => exact I
  | |- no_throw _ (Undefined _) => exact I
  | |- no_throw _ (Done _) => exact I
  | |- only_ends _ (Done _) => exact I
  end.

Lemma store_str_locals_ok l v ip port fd :
  locals_ok l → store_str (client_ip_address l) v = Def ip → locals_ok (set_endpoint ip port fd l).
Proof.
  intros [Hl Hn]. unfold locals_ok. cbn. destruct v as [[t|z]|]; cbn; [|by intros [= <-]..].
  unfold store_cstr. destruct (Z.ltb_spec (blen (client_ip_address l)) (blen t + 1)); [done|].
  intros [= <-]. split.
  - rewrite blen_overlay; rewrite ?blen_app, ?blen_cons, ?blen_nil; lia.
  - unfold overlay. rewrite !elem_of_app, elem_of_cons. auto.
Qed.

Lemma set_credentials_locals_ok l u p : locals_ok l → locals_ok (set_credentials u p l).
Proof. done. Qed.

#[local] Hint Resolve store_str_locals_ok set_credentials_locals_ok : core.

Lemma connect_wp s g ip port Q :
  (∀ r fd, Q g (Done (r, fd))) → (∀ u, Q g (Undefined u)) →
  hwp s g (connect_to_client ip port) Q.
Proof.
  intros HQ HU. unfold connect_to_client. repeat hwp_step; cbn in *; try destruct_and!; subst; eauto.
Qed.

(** The body of the [try] block, once the receiver is known to be registered. *)
Lemma forward_call_wp s g l receiver sdp :
  receiver ∈ g → hwp s g (forward_call l receiver sdp) no_throw.
Proof.
  intros Hin. unfold forward_call. do 3 hwp_step.
  match goal with H : handler_ok _ _ _ _ |- _ => cbn in H; destruct H as [Hr ->] end.
  change (server_result _) with (cres (option User)) in r.
  destruct r as [[u|]|ub]; [|done|exact I]. cbn [bind_post lift_c]. hwp_step. cbn [wp bind_post].
  hwp_step. cbn [wp mret prog_mret bind_post].
  repeat hwp_step; try exact I; cbn in *; try destruct_and!; subst; try exact I.
Qed.

(** Walk to the end and close what only needs the answers' facts. *)
Ltac hwp_all :=
  repeat hwp_step; try exact I; cbn in *; try destruct_and!; subst;
  eauto using store_str_locals_ok; try done.

Lemma cmd_client_wp s g l buffer :
  locals_ok l → hwp s g (cmd_client s l buffer) body_post.
Proof.
  intros Hl. unfold cmd_client. hwp_step. hwp_step; [|exact I]. cbn [bind_post].
  hwp_step. hwp_step; [|exact I]. cbn [bind_post]. hwp_step. hwp_step. hwp_step. hwp_step; [|exact I].
  cbn [bind_post mret prog_mret wp]. hwp_step. apply connect_wp; [|done].
  intros r fd. assert (locals_ok (set_endpoint a0 (store_int (client_port_int l) (a !! 1%nat)) fd l))
    by eauto using store_str_locals_ok.
  hwp_all.
Qed.

Lemma cmd_signup_wp s g l buffer :
  locals_ok l → hwp s g (cmd_signup s l buffer) body_post.
Proof.
  intros Hl. unfold cmd_signup. hwp_step. hwp_step; [|exact I]. cbn [bind_post]. destruct a as [u p].
  hwp_all.
Qed.

Lemma cmd_login_wp s g l buffer :
  locals_ok l → hwp s g (cmd_login s l buffer) body_post.
Proof.
  intros Hl. unfold cmd_login. hwp_step. hwp_step; [|exact I]. cbn [bind_post]. destruct a as [u p].
  hwp_all.
Qed.

Lemma cmd_call_wp s g l buffer :
  locals_ok l → hwp s g (cmd_call l buffer) body_post.
Proof.
  intros Hl. unfold cmd_call. hwp_step. hwp_step; [|exact I]. cbn [bind_post]. destruct a as [u sdp].
  do 3 hwp_step. destruct r as [b|]; [|by cbn in *; naive_solver]. cbn [bind_post lift_c].
  hwp_step. cbn [wp bind_post]. hwp_step; [by hwp_all|]. do 3 hwp_step. cbn [bind_post].
  change (server_result _) with bool in r. hwp_step; [by hwp_all|]. hwp_step. apply wp_try_catch.
  destruct r; [|done].
  match goal with H : handler_ok _ (CStore (SHasUser _)) _ _ |- _ => cbn in H; subst end.
  eapply wp_mono; [done|done| |apply forward_call_wp; apply elem_of_cons; by left].
  intros ? [[]|e|ub|c]; cbn; try done.
Qed.

Lemma dispatch_wp s g l buffer :
  locals_ok l → hwp s g (dispatch s l buffer) body_post.
Proof.
  intros Hl. unfold dispatch.
  repeat (hwp_step; hwp_step; [|exact I]; cbn [bind_post]; hwp_step;
          [solve [eauto using cmd_client_wp, cmd_signup_wp, cmd_login_wp, cmd_call_wp]|]).
  hwp_step. hwp_step; [|exact I]. cbn [bind_post]. hwp_step; [unfold cmd_logout; by hwp_all|].
  hwp_step. hwp_step; [|exact I]. cbn [bind_post]. hwp_step; [unfold cmd_exit; by hwp_all|].
  done.
Qed.

Lemma handler_body_wp s g l : locals_ok l → hwp s g (handler_body s l) body_post.
Proof. intros Hl. unfold handler_body. repeat hwp_step; try done. by apply dispatch_wp. Qed.

Lemma handler_end_wp s g l : hwp s g (handler_end s l) only_ends.
Proof. unfold handler_end. hwp_all. Qed.

(** ** Running a schedule

    An event says which thread moves and what its call is answered; [run_event] checks
    that the answer is allowed. *)

Inductive net_answer := NInt (z : Z) | NData (r : recv_result) | NUnit.

(** [EHandler] on a thread that is about to call the store makes it enter and, when it is
    inside, leave.  The answer of [EMain] to the start of a thread is whether it started. *)
Inductive event :=
| EHandler (i : nat) (a : net_answer)
| ESigpipe (i : nat)
| EMain (a : net_answer)
| ESigint.

Definition net_answer_of (nc : net_call) (a : net_answer) : option (net_result nc) :=
  match nc return option (net_result nc) with
  | NRecv _ n =>
      match a with
      | NData RecvError => Some RecvError
      | NData (RecvBytes s) => if blen s <=? n then Some (RecvBytes s) else None
      | _ => None
      end
  | NClose _ => Some tt
  | NSend _ data | NSendTo _ data _ _ _ =>
      match a with NInt z => if (-1 <=? z) && (z <=? blen data) then Some z else None | _ => None end
  | _ => match a with NInt z => if -1 <=? z then Some z else None | _ => None end
  end.

Section schedule.
Context {D : Type} `{Directory D}.

Definition answer_of (b : bool) (d : D) (c : server_call) (a : net_answer)
    : option (server_result c * D) :=
  match c return option (server_result c * D) with
  | CRunning => Some (b, d)
  | CStore sc => Some (store_sem sc d)
  | CNet nc => r ← net_answer_of nc a; Some (r, d)
  | CSigaction => Some (0, d)
  | CSpawn _ | CJoin _ => None
  end.

Definition run_call {A} (b : bool) (d : D) (a : net_answer) (p : sprog A) : option (D * sprog A) :=
  match p with
  | Act c k => '(r, d') ← answer_of b d c a; Some (d', k r)
  | _ => None
  end.

Definition run_hthread (b : bool) (d : D) (a : net_answer) (t : hthread)
    : option (D * (hthread + fault)) :=
  match t with
  | HLoop s p => '(d', p') ← run_call b d a p; Some (d', settle_loop s p')
  | HEnd s p => '(d', p') ← run_call b d a p; Some (d', settle_end s p')
  | HDone => None
  end.

Definition is_done (t : option hthread) : bool := match t with Some HDone => true | _ => false end.

Definition run_main_call {A} (b : bool) (d : D) (ts : list hthread) (a : net_answer) (p : sprog A)
    : option (D * list hthread * sprog A) :=
  match p with
  | Act (CSpawn s) k =>
      match a with
      | NUnit => Some (d, ts ++ [new_handler s], k true)
      | _ => Some (d, ts, k false)
      end
  | Act (CJoin t) k => if is_done (ts !! t) then Some (d, ts, k tt) else None
  | _ => '(d', p') ← run_call b d a p; Some (d', ts, p')
  end.

Definition run_main (b : bool) (d : D) (ts : list hthread) (a : net_answer) (m : mthread)
    : option (D * list hthread * (mthread + fault)) :=
  match m with
  | MSetup p => '(d', ts', p') ← run_main_call b d ts a p; Some (d', ts', settle_setup p')
  | MAccept s p => '(d', ts', p') ← run_main_call b d ts a p; Some (d', ts', settle_accept s p')
  | MEnd p => '(d', ts', p') ← run_main_call b d ts a p; Some (d', ts', settle_main_end p')
  | MExited _ => None
  end.

Definition run_event (e : event) (y : system D) : option (system D) :=
  if bool_decide (is_Some (y_fault y)) then None else
  match e with
  | EHandler i a =>
      t ← y_threads y !! i;
      match hthread_call t, y_inside y with
      | Some (CStore c), None => Some (set_inside (Some i) y)
      | Some (CStore c), Some j =>
          if bool_decide (i = j) then
            '(d, t') ← run_hthread (y_running y) (y_store y) a t;
            Some (set_thread (set_inside None y) i d t')
          else
            match handler_call y j with
            | Some (CStore c') => if takes_mutex c && takes_mutex c' then None else Some (crash (FaultRace c c') y)
            | _ => None
            end
      | _, _ =>
          '(d, t') ← run_hthread (y_running y) (y_store y) a t;
          Some (set_thread y i d t')
      end
  | ESigpipe i =>
      match handler_call y i with
      | Some (CNet (NSend fd data)) => Some (crash (FaultSigpipe fd) y)
      | _ => None
      end
  | EMain a =>
      '(d, ts, m) ← run_main (y_running y) (y_store y) (y_threads y) a (y_main y);
      Some (set_main y d ts m)
  | ESigint => Some (sigint y)
  end.

Fixpoint run_events (es : list event) (y : system D) : option (system D) :=
  match es with
  | [] => Some y
  | e :: es => y' ← run_event e y; run_events es y'
  end.

(** The call each thread is about to make. *)
Definition pending_calls (y : system D) : list (option server_call) := hthread_call <$> y_threads y.

Lemma net_answer_of_ok nc a r : net_answer_of nc a = Some r → net_ok nc r.
Proof.
  destruct nc; cbn; destruct a as [z|[|s]|]; cbn; try done;
    repeat case_match; try done; intros [= <-]; split_bools; try done; try (split; blia); blia.
Qed.

Lemma answer_of_ok b d c a r d' : answer_of b d c a = Some (r, d') → answers b d c r d'.
Proof.
  destruct c as [|sc|nc| |s|t]; cbn; try done.
  - by intros [= <- <-].
  - by intros [= ->].
  - destruct (net_answer_of nc a) as [x|] eqn:E; [|done]. intros [= <- <-].
    split; [|done]. by eapply net_answer_of_ok.
  - intros [= <- <-]. auto.
Qed.

Lemma run_call_ok {A} b d a (p : sprog A) d' p' :
  run_call b d a p = Some (d', p') → call_step b d p d' p'.
Proof.
  destruct p as [|c k| | |]; cbn; try done.
  destruct (answer_of b d c a) as [[r d2]|] eqn:E; [|done]. intros [= <- <-].
  exists r. split; [|done]. by eapply answer_of_ok.
Qed.

Lemma run_main_call_ok {A} b d ts a (p : sprog A) d' ts' p' :
  run_main_call b d ts a p = Some (d', ts', p') → main_call b d ts p d' ts' p'.
Proof.
  unfold run_main_call, main_call. intros E.
  destruct p as [|c k| | |]; try done. destruct c as [|sc|nc| |s|t];
    try (destruct (run_call b d a _) as [[d2 p2]|] eqn:Ec; [|done]; injection E as <- <- <-;
         split; [by apply run_call_ok in Ec|done]).
  - destruct a; injection E as <- <- <-; (split; [done|]); by (left + right).
  - destruct (ts !! t) as [[| |]|]; try done. by injection E as <- <- <-.
Qed.

Lemma run_hthread_ok b (d : D) a t d' t' : run_hthread b d a t = Some (d', t') → hthread_step b d t d' t'.
Proof.
  destruct t as [s p|s p|]; cbn; [| |done];
    (destruct (run_call b d a p) as [[d2 p2]|] eqn:Ec; [|done]); intros [= <- <-];
    eexists; (split; [by eapply run_call_ok|done]).
Qed.

Lemma run_event_move e y y' : run_event e y = Some y' → e ≠ ESigint → move y y'.
Proof.
  unfold run_event. destruct (y_fault y) eqn:Hf; [done|].
  rewrite bool_decide_eq_false_2 by (by intros [? ?]). destruct e as [i a|i|a|]; [| | |done]; intros Hr Hne.
  - apply (move_handler y i); [done|]. destruct (y_threads y !! i) as [t|] eqn:Ht; [|done]. cbn in Hr.
    assert (handler_call y i = hthread_call t) as Hc by (unfold handler_call; by rewrite Ht).
    assert (is_store_call (hthread_call t) = false →
      ('(d, t') ← run_hthread (y_running y) (y_store y) a t; Some (set_thread y i d t')) = Some y' → handler_move i y y') as Hplain.
    { intros Hs. destruct (run_hthread _ _ a t) as [[d t']|] eqn:E; [|done]. intros [= <-].
      eapply handler_calls; [done|done|by eapply run_hthread_ok]. }
    destruct (hthread_call t) as [[|c| | | |]|] eqn:Et; try by apply Hplain.
    destruct (y_inside y) as [j|] eqn:Hj; [|injection Hr as <-; by eapply handler_enters].
    case_bool_decide as Hij.
    + subst j. destruct (run_hthread _ _ a t) as [[d t']|] eqn:E; [|done]. injection Hr as <-.
      eapply handler_leaves; [done|done|by eapply run_hthread_ok].
    + destruct (handler_call y j) as [[|c'| | | |]|] eqn:Hcj; try done.
      destruct (takes_mutex c && takes_mutex c') eqn:Hm; [done|]. injection Hr as <-. by eapply handler_races.
  - apply (move_handler y i); [done|]. destruct (handler_call y i) as [[| |[]| | |]|] eqn:Hc; try done.
    injection Hr as <-. by eapply handler_sigpipe.
  - destruct (run_main _ _ _ a _) as [[[d ts] m]|] eqn:E; [|done]. injection Hr as <-.
    apply move_main; [done|].
    destruct (y_main y) as [p|s p|p|]; cbn in *; [| | |done];
      (destruct (run_main_call _ _ _ a p) as [[[d2 ts2] p2]|] eqn:Ec; [|done]);
      injection E as <- <- <-; eexists; (split; [by eapply run_main_call_ok|done]).
Qed.

Lemma run_event_step e y y' : run_event e y = Some y' → step y y'.
Proof.
  intros He. assert (e = ESigint ∨ e ≠ ESigint) as [->|] by (destruct e; auto).
  - unfold run_event in He. destruct (y_fault y) eqn:Hf; [done|].
    rewrite bool_decide_eq_false_2 in He by (by intros [? ?]). injection He as <-. by apply step_sigint.
  - apply step_move. by eapply run_event_move.
Qed.

Lemma run_events_steps es y y' : run_events es y = Some y' → rtc step y y'.
Proof.
  revert y. induction es as [|e es IH]; intros y; cbn; [by intros [= <-]|].
  destruct (run_event e y) as [y1|] eqn:E; [|done]. intros Hr.
  eapply rtc_l; [by eapply run_event_step|]. by apply IH.
Qed.
End schedule.
