(* ===== verification/ServerSafety.v ===== *)
(** * ServerSafety: what holds in every state of the server

    The invariant of [ServerSystem]: the store is well formed, every handler thread is
    in the middle of a program that [handler_body_wp] covers, and [main] joins its
    threads in order.  From it: what can end the process, accounts never disappear, a name
    goes online only by a LOGIN with its password, and [main] returns only when every
    handler is over. *)

From S2P Require Import Prelude CString Prog Net User Directory UserStore Server ServerSpec ServerSystem.

(** ** The calls of [main] *)

(** The ghost state: how many threads were started and how many were joined. *)
Definition main_pre (g : nat * nat) (c : server_call) : Prop :=
  match c with
  | CStore _ => False
  | CSpawn _ => g.2 = 0%nat
  | CJoin t => t = g.2 ∧ (t < g.1)%nat
  | _ => True
  end.

Definition main_ok (g : nat * nat) (c : server_call) : server_result c → nat * nat → Prop :=
  match c with
  | CSpawn _ => λ r g', g' = if (r : bool) then (S g.1, g.2) else g
  | CJoin _ => λ _ g', g' = (g.1, S g.2)
  | _ => λ _ g', g' = g
  end.

Abbreviation mwp := (wp (result:=server_result) main_pre main_ok).

Definition setup_post (g : nat * nat) (o : outcome (Z + Z)) : Prop :=
  match o with Done _ => g = (0, 0)%nat | _ => False end.
Definition accept_post (g : nat * nat) (o : outcome (ctl nat)) : Prop :=
  match o with Done (Continue n) | Done (Break n) => g = (n, 0)%nat | Threw e => e = ExSystemError | _ => False end.
Definition end_post (g : nat * nat) (o : outcome Z) : Prop :=
  match o with Done _ => g.1 = g.2 | _ => False end.

(** A program whose next event is a call. *)
Definition is_act {A} (p : sprog A) : Prop := match p with Act _ _ => True | _ => False end.

Section safety.
Context {D : Type} `{DirectoryLaws D}.

Definition registered (d : D) (n : bytes) : Prop := is_Some (dir_account d n).

(** A handler thread keeps to [handler_pre], knowing names that are registered. *)
Definition thread_ok (d : D) (t : hthread) : Prop :=
  match t with
  | HLoop s p => is_act p ∧ ∃ known, Forall (registered d) known ∧
      wp (result:=server_result) (handler_pre s) handler_ok known p body_post
  | HEnd s p => is_act p ∧ ∃ known, Forall (registered d) known ∧
      wp (result:=server_result) (handler_pre s) handler_ok known p only_ends
  | HDone => True
  end.

(** [main] has joined the first [j] threads. *)
Definition main_thread_ok (ts : list hthread) (m : mthread) : Prop :=
  ∃ j, (∀ t, (t < j)%nat → ts !! t = Some HDone) ∧
  match m with
  | MSetup p => is_act p ∧ mwp (length ts, j) p setup_post
  | MAccept _ p => is_act p ∧ mwp (length ts, j) p accept_post
  | MEnd p => is_act p ∧ mwp (length ts, j) p end_post
  | MExited _ => j = length ts
  end.

Definition is_logout (c : store_call) : bool := match c with SLogOutUser _ => true | _ => false end.

(** What a step can end the process with, and where. *)
Definition cause (y : system D) (f : fault) : Prop :=
  match f with
  | FaultUndefined _ => ∃ i s p, y_threads y !! i = Some (HLoop s p)
  | FaultRace c c' =>
      (is_logout c = true ∨ is_logout c' = true) ∧
      ∃ i j, i ≠ j ∧ handler_call y i = Some (CStore c) ∧ handler_call y j = Some (CStore c')
  | FaultSigpipe fd => ∃ i data, handler_call y i = Some (CNet (NSend fd data))
  | FaultTerminate e => e = ExSystemError ∧ ∃ s p, y_main y = MAccept s p
  | FaultExit _ => False
  end.

Record system_ok (y : system D) : Prop := mkSystemOk {
  ok_store : dir_ok (y_store y);
  ok_threads : Forall (thread_ok (y_store y)) (y_threads y);
  ok_main : y_fault y = None → main_thread_ok (y_threads y) (y_main y);
  ok_inside : ∀ i, y_fault y = None → y_inside y = Some i → is_store_call (handler_call y i) = true
}.

(** The names that are registered in [d] still are in [d']. *)
Definition grows (d d' : D) : Prop := ∀ n, registered d n → registered d' n.

#[global] Instance grows_preorder : PreOrder grows.
Proof. split; [by intros d n|intros d1 d2 d3 H12 H23 n Hn; auto]. Qed.

(** ** Store calls *)

(** A store call made within [handler_pre] answers within [handler_ok], keeps the store
    well formed and forgets no account. *)
Lemma store_sem_ok s known sc d r d' :
  dir_ok d → Forall (registered d) known → handler_pre s known (CStore sc) →
  store_sem sc d = (r, d') →
  dir_ok d' ∧ grows d d' ∧
  ∃ known', handler_ok known (CStore sc) r known' ∧ Forall (registered d') known'.
Proof.
  intros Hd Hk Hpre Hs.
  assert (∀ d'', grows d d'' → Forall (registered d'') known) as Hmono
    by (intros d'' Hg; eapply Forall_impl; [done|apply Hg]).
  destruct sc as [u|n p|n|n|n|n]; cbn in Hs, Hpre |- *.
  - destruct Hpre as [Hb [fd Hfd]]. destruct (dir_add_spec d u false fd Hd Hb Hfd) as (d2 & Hadd & Hok & Hacc).
    rewrite Hadd in Hs. injection Hs as <- <-.
    assert (grows d d2) as Hg by (intros k Hr; unfold registered; rewrite Hacc; by case_bool_decide).
    split; [done|]. split; [done|]. eauto.
  - destruct (dir_login_spec d n p Hd) as (_ & Hok & Hacc). rewrite Hs in Hok, Hacc. cbn in *.
    assert (grows d d') as Hg
      by (intros k Hr; unfold registered; rewrite Hacc; destruct (_ && _); [by apply fmap_is_Some|done]).
    split; [done|]. split; [done|]. eauto.
  - injection Hs as <- <-. destruct (dir_logout_spec d n Hd) as (Hok & Hacc).
    assert (grows d (dir_logOutUser d n)) as Hg
      by (intros k Hr; unfold registered; rewrite Hacc; by case_bool_decide).
    split; [done|]. split; [done|]. eauto.
  - injection Hs as <- <-. split; [done|]. split; [done|]. eexists; split; [done|].
    rewrite dir_has_spec by done. case_bool_decide; [|done]. by constructor.
  - injection Hs as <- <-. split; [done|]. split; [done|]. rewrite dir_isLogin_spec by done. eauto.
  - injection Hs as <- <-. split; [done|]. split; [done|]. exists known. split; [|done]. split; [|done].
    rewrite dir_get_spec by done. rewrite Forall_forall in Hk. destruct (Hk n Hpre) as [a ->].
    by destruct (acc_user a).
Qed.

Lemma thread_ok_grows d d' t : grows d d' → thread_ok d t → thread_ok d' t.
Proof.
  intros Hg. destruct t as [s p|s p|]; cbn; [| |done];
    (intros (? & known & Hk & ?); split; [done|]; exists known; split; [|done]);
    (eapply Forall_impl; [done|]; apply Hg).
Qed.

(** One call of a handler program. *)
Lemma call_step_ok {A} s known b d (p : sprog A) d' p' Q :
  dir_ok d → Forall (registered d) known →
  wp (result:=server_result) (handler_pre s) handler_ok known p Q →
  call_step b d p d' p' →
  dir_ok d' ∧ grows d d' ∧
  ∃ known', Forall (registered d') known' ∧
    wp (result:=server_result) (handler_pre s) handler_ok known' p' Q.
Proof.
  intros Hd Hk Hwp Hs. destruct p as [|c k| | |]; try done.
  destruct Hwp as [Hpre Hwp]. destruct Hs as (r & Hr & ->).
  destruct c as [|sc|nc| |?|?]; cbn in Hr.
  - destruct Hr as [-> ->]. split; [done|]. split; [done|]. exists known. split; [done|]. by apply Hwp.
  - destruct (store_sem_ok s known sc d r d') as (? & ? & known' & ? & ?); try done.
    split; [done|]. split; [done|]. exists known'. split; [done|]. by apply Hwp.
  - destruct Hr as [Hr ->]. split; [done|]. split; [done|]. exists known. split; [done|].
    by apply Hwp.
  - done.
  - done.
  - done.
Qed.

(** Where a handler program goes when it has no call left. *)
Lemma settle_loop_ok s known d p :
  Forall (registered d) known →
  wp (result:=server_result) (handler_pre s) handler_ok known p body_post →
  match settle_loop s p with inl t => thread_ok d t | inr f => ∃ u, f = FaultUndefined u end.
Proof.
  intros Hk. destruct p as [[l|l]|c k|e|u|c]; cbn; try done; try by eexists.
  - intros Hl. split; [done|]. exists known. split; [done|]. by apply handler_body_wp.
  - intros Hl. split; [done|]. exists known. split; [done|]. by apply handler_end_wp.
  - intros Hwp. split; [done|]. by exists known.
Qed.

Lemma settle_end_ok s known d p :
  Forall (registered d) known →
  wp (result:=server_result) (handler_pre s) handler_ok known p only_ends →
  match settle_end s p with inl t => thread_ok d t | inr f => False end.
Proof.
  intros Hk. destruct p as [[]|c k|e|u|c]; cbn; try done.
  intros Hwp. split; [done|]. by exists known.
Qed.

Lemma hthread_step_ok b d t d' t' :
  dir_ok d → thread_ok d t → hthread_step b d t d' t' →
  dir_ok d' ∧ grows d d' ∧
  match t' with
  | inl t' => thread_ok d' t'
  | inr f => (∃ u, f = FaultUndefined u) ∧ ∃ s p, t = HLoop s p
  end.
Proof.
  intros Hd Ht Hs. destruct t as [s p|s p|]; cbn in Ht, Hs; [| |done];
    destruct Ht as (_ & known & Hk & Hwp); destruct Hs as (p' & Hs & ->);
    destruct (call_step_ok s known b d p d' p' _ Hd Hk Hwp Hs) as (? & ? & known' & Hk' & Hwp');
    (split; [done|]; split; [done|]).
  - pose proof (settle_loop_ok s known' d' p' Hk' Hwp'). destruct (settle_loop s p'); eauto.
  - pose proof (settle_end_ok s known' d' p' Hk' Hwp'). by destruct (settle_end s p').
Qed.

(** ** [main] *)

Lemma accept_body_wp s n : mwp (n, 0%nat) (accept_body s n) accept_post.
Proof.
  unfold accept_body, running_load, net, call. cbn [mbind prog_mbind prog_bind wp].
  split; [done|]. intros [] g' ->; cbn; [|done].
  split; [done|]. intros cs g' ->. split; [done|]. intros [] g' ->; cbn; [|done].
  destruct (cs =? -1); cbn; [done|]. split; [done|]. by intros [] ? ->.
Qed.

Lemma join_all_wp n k (Q : nat * nat → outcome unit → Prop) j :
  (∀ g, g = (j + n, j + n)%nat → Q g (Done tt)) → (k = j + n)%nat →
  mwp (k, j) (join_all (seq j n)) Q.
Proof.
  revert j. induction n as [|n IH]; intros j HQ Hk; cbn.
  - apply HQ. f_equal; lia.
  - split; [split; [done|lia]|]. intros _ g' ->. apply (IH (S j)); [|cbn; lia].
    intros g ->. apply HQ. f_equal; lia.
Qed.

Lemma main_end_wp s n : mwp (n, 0%nat) (main_end s n) end_post.
Proof.
  unfold main_end. apply wp_bind. apply join_all_wp; [|lia]. intros g ->. cbn.
  split; [done|]. intros _ g' ->. done.
Qed.

Lemma main_setup_wp argv :
  mwp (0, 0)%nat (main_setup argv) setup_post ∨
  main_setup argv = Raise ExInvalidArgument ∨ main_setup argv = Raise ExOutOfRange.
Proof.
  destruct argv as [|a0 [|arg [|]]]; try by left. cbn.
  destruct (stoi arg) as [port| |]; auto. left. cbn.
  repeat (split; [done|]; intros ? ? ->; cbn;
          match goal with |- context [if ?b then _ else _] => destruct b end; cbn; try done).
Qed.

Lemma main_call_ok {A} b d ts (p : sprog A) d' ts' p' j Q :
  dir_ok d → Forall (thread_ok d) ts → (∀ t, (t < j)%nat → ts !! t = Some HDone) →
  mwp (length ts, j) p Q → main_call b d ts p d' ts' p' →
  d' = d ∧ Forall (thread_ok d) ts' ∧
  ∃ j', (∀ t, (t < j')%nat → ts' !! t = Some HDone) ∧ mwp (length ts', j') p' Q.
Proof.
  intros Hd Hts Hj Hwp Hs. destruct p as [|c k| | |]; try by destruct Hs.
  destruct Hwp as [Hpre Hwp]. destruct c as [|sc|nc| |cs|t]; cbn in Hs, Hpre; try done.
  - destruct Hs as [(r & [-> ->] & ->) ->]. split; [done|]. split; [done|]. exists j. split; [done|]. by apply Hwp.
  - destruct Hs as [(r & [? ->] & ->) ->]. split; [done|]. split; [done|]. exists j. split; [done|]. by apply Hwp.
  - destruct Hs as [(r & [? ->] & ->) ->]. split; [done|]. split; [done|]. exists j. split; [done|]. by apply Hwp.
  - destruct Hs as (-> & [(-> & ->)|(-> & ->)]); (split; [done|]).
    + split.
      * apply Forall_app_2; [done|]. apply Forall_singleton. split; [done|]. exists [].
        split; [done|]. apply handler_body_wp. split; [done|]. by apply in_zeros.
      * exists 0%nat. split; [intros; lia|]. rewrite length_app, Nat.add_1_r. subst j. by apply Hwp.
    + split; [done|]. exists j. split; [done|]. by apply Hwp.
  - destruct Hs as (Ht & -> & -> & ->). destruct Hpre as [-> _]. split; [done|]. split; [done|].
    exists (S j). split; [|by apply Hwp]. intros t Hlt.
    destruct (decide (t = j)) as [->|]; [done|]. apply Hj. lia.
Qed.

(** [main] leaves the threads that are there as they are. *)
Lemma main_call_threads {A} b (d : D) ts (p : sprog A) d' ts' p' i t :
  main_call b d ts p d' ts' p' → ts !! i = Some t → ts' !! i = Some t.
Proof.
  intros Hs Ht. destruct p as [|[|sc|nc| |cs|j] k| | |]; cbn in Hs; destruct_and?; destruct_or?; destruct_and?; subst; try done.
  by apply lookup_app_l_Some.
Qed.

Lemma main_step_threads b (d : D) ts m d' ts' m' i t :
  main_step b d ts m d' ts' m' → ts !! i = Some t → ts' !! i = Some t.
Proof.
  intros Hs Ht. destruct m as [p|s p|p|code]; cbn in Hs; [| | |done]; destruct Hs as (p' & Hs & _);
    by eapply main_call_threads.
Qed.

(** Where [main] goes when a part of it has no call left. *)
Lemma settle_setup_ok ts j p :
  (∀ t, (t < j)%nat → ts !! t = Some HDone) → mwp (length ts, j) p setup_post →
  ∃ m, settle_setup p = inl m ∧ main_thread_ok ts m.
Proof.
  intros Hj. destruct p as [[code|s]|c k|e|u|c]; cbn; try done.
  - intros [= Hl ->]. eexists. split; [done|]. exists 0%nat. split; [intros; lia|]. done.
  - intros [= Hl ->]. eexists. split; [done|]. exists 0%nat. split; [intros; lia|]. split; [done|].
    rewrite Hl. apply accept_body_wp.
  - intros Hwp. eexists. split; [done|]. by exists j.
Qed.

Lemma settle_main_end_ok ts j p :
  (∀ t, (t < j)%nat → ts !! t = Some HDone) → mwp (length ts, j) p end_post →
  ∃ m, settle_main_end p = inl m ∧ main_thread_ok ts m.
Proof.
  intros Hj. destruct p as [code|c k|e|u|c]; cbn; try done.
  - intros Hl. eexists. split; [done|]. exists j. split; [done|]. by cbn in Hl.
  - intros Hwp. eexists. split; [done|]. by exists j.
Qed.

Lemma settle_accept_ok s ts j p :
  (∀ t, (t < j)%nat → ts !! t = Some HDone) → mwp (length ts, j) p accept_post →
  (∃ m, settle_accept s p = inl m ∧ main_thread_ok ts m) ∨ settle_accept s p = inr (FaultTerminate ExSystemError).
Proof.
  intros Hj. destruct p as [[n|n]|c k|e|u|c]; cbn; try done.
  - intros [= <- ->]. left. eexists. split; [done|]. exists 0%nat. split; [intros; lia|]. split; [done|].
    apply accept_body_wp.
  - intros [= <- ->]. left. apply (settle_main_end_ok ts 0); [intros; lia|]. apply main_end_wp.
  - intros Hwp. left. eexists. split; [done|]. by exists j.
  - intros ->. by right.
Qed.

Lemma main_step_ok b d ts m d' ts' m' :
  dir_ok d → Forall (thread_ok d) ts → main_thread_ok ts m → main_step b d ts m d' ts' m' →
  d' = d ∧ Forall (thread_ok d) ts' ∧
  ((∃ m1, m' = inl m1 ∧ main_thread_ok ts' m1) ∨ m' = inr (FaultTerminate ExSystemError) ∧ ∃ s p, m = MAccept s p).
Proof.
  intros Hd Hts (j & Hj & Hm) Hs. destruct m as [p|s p|p|code]; cbn in Hm, Hs; [| | |done];
    destruct Hm as [_ Hm]; destruct Hs as (p' & Hs & ->);
    destruct (main_call_ok b d ts p d' ts' p' j _ Hd Hts Hj Hm Hs) as (-> & ? & j' & Hj' & Hwp);
    (split; [done|]; split; [done|]).
  - destruct (settle_setup_ok _ _ _ Hj' Hwp) as (m & -> & ?). eauto.
  - destruct (settle_accept_ok s _ _ _ Hj' Hwp) as [(m & -> & ?)| ->]; [|right]; eauto.
  - destruct (settle_main_end_ok _ _ _ Hj' Hwp) as (m & -> & ?). eauto.
Qed.

(** ** The system *)

Lemma init_system_ok argv :
  y_fault (init_system (D:=D) argv) = None → system_ok (init_system (D:=D) argv).
Proof.
  unfold init_system, init_main.
  destruct (main_setup_wp argv) as [Hwp|[E|E]]; [|rewrite E; done..].
  destruct (settle_setup_ok [] 0 (main_setup argv)) as (m & Hm & ?); [intros; lia|done|].
  rewrite Hm. intros _. split; cbn; [apply dir_empty_ok|done|done|done].
Qed.

(** A thread that another one is not keeps its call. *)
Lemma handler_call_insert (y : system D) i j t ts :
  ts = <[i := t]> (y_threads y) → i ≠ j → ts !! j ≫= hthread_call = handler_call y j.
Proof. intros -> Hij. unfold handler_call. by rewrite list_lookup_insert_ne. Qed.

Lemma thread_of y i t : system_ok y → y_threads y !! i = Some t → thread_ok (y_store y) t.
Proof. intros [_ Hts _ _] Ht. rewrite Forall_forall in Hts. eauto using list_elem_of_lookup_2. Qed.

(** [main] goes on with what it has when a handler moves: only a thread that is over has been joined. *)
Lemma main_thread_ok_insert ts m i t t' d d' :
  main_thread_ok ts m → ts !! i = Some t → (∃ b, hthread_step b d t d' t') →
  ∀ t1, main_thread_ok (<[i := t1]> ts) m.
Proof.
  intros (j & Hj & Hm) Ht [b Hs] t1. exists j. rewrite length_insert. split; [|done].
  intros t0 Ht0. specialize (Hj t0 Ht0). destruct (decide (t0 = i)) as [->|]; [|by rewrite list_lookup_insert_ne].
  rewrite Hj in Ht. injection Ht as <-. done.
Qed.

(** A call of handler [i], which is made with [inside] in the store afterwards. *)
Lemma set_thread_ok y i t d t' inside :
  system_ok y → y_fault y = None → y_threads y !! i = Some t →
  hthread_step (y_running y) (y_store y) t d t' →
  (∀ j, inside = Some j → i ≠ j ∧ is_store_call (handler_call y j) = true) →
  let y' := set_thread (set_inside inside y) i d t' in
  system_ok y' ∧ grows (y_store y) (y_store y') ∧ ∀ f, y_fault y' = Some f → cause y f.
Proof.
  intros Hy Hnf Ht Hs Hin y'. pose proof (thread_of y i t Hy Ht) as Hti. destruct Hy as [Hd Hts Hm _].
  destruct (hthread_step_ok _ _ _ _ _ Hd Hti Hs) as (Hd' & Hg & Ht').
  assert (Forall (thread_ok d) (y_threads y)) as Hts' by (eapply Forall_impl; [done|]; intros ?; by apply thread_ok_grows).
  destruct t' as [t'|f]; cbn in *; (split; [split; cbn; try done|split; [done|]]); try done.
  - by apply Forall_insert.
  - intros _. eapply main_thread_ok_insert; eauto.
  - intros j _ Hj. destruct (Hin j Hj) as [Hij Hc]. unfold handler_call. cbn.
    by rewrite (handler_call_insert y i j t' _ eq_refl Hij).
  - intros f' [= <-]. destruct Ht' as ((u & ->) & s & p & ->). by exists i, s, p.
Qed.

Lemma handler_move_ok y i y' :
  system_ok y → y_fault y = None → handler_move i y y' →
  system_ok y' ∧ grows (y_store y) (y_store y') ∧ ∀ f, y_fault y' = Some f → cause y f.
Proof.
  intros Hy Hnf Hmv. destruct Hmv as [t d t' Ht Hns Hs|c Hc Hi|t d t' Ht Hi Hs|c j c' Hc Hi Hij Hc' Hm|fd data Hc].
  - assert (set_inside (y_inside y) y = y) as E by by destruct y.
    pose proof (set_thread_ok y i t d t' (y_inside y) Hy Hnf Ht Hs) as H'. rewrite E in H'. apply H'.
    intros j Hj. pose proof (ok_inside y Hy j Hnf Hj) as Hsc. split; [|done]. intros <-.
    unfold handler_call in Hsc. rewrite Ht in Hsc. cbn in Hsc. congruence.
  - destruct Hy as [Hd Hts Hmt _]. split; [|split; [done|cbn; by rewrite Hnf]]. split; try done.
    intros j _ [= <-]. change (handler_call (set_inside (Some i) y) i) with (handler_call y i). by rewrite Hc.
  - by apply (set_thread_ok y i t d t' None).
  - destruct Hy as [Hd Hts Hmt _]. split; [by split|]. split; [done|]. intros f [= <-]. split; [|by exists i, j].
    destruct c, c'; cbn in *; auto.
  - destruct Hy as [Hd Hts Hmt _]. split; [by split|]. split; [done|]. intros f [= <-]. by exists i, data.
Qed.

Lemma move_ok y y' :
  system_ok y → move y y' → system_ok y' ∧ grows (y_store y) (y_store y') ∧ ∀ f, y_fault y' = Some f → cause y f.
Proof.
  intros Hy Hmv. destruct Hmv as [y i y' Hnf Hs|y d ts m Hnf Hs]; [by eapply handler_move_ok|].
  destruct Hy as [Hd Hts Hm Hi].
  destruct (main_step_ok _ _ _ _ _ _ _ Hd Hts (Hm Hnf) Hs) as (-> & Hts' & [(m1 & -> & Hm1)|(-> & s & p & Ep)]).
  - split; [|done]. split; cbn; try done. intros i _ Hin. specialize (Hi i Hnf Hin). unfold handler_call in *. cbn.
    destruct (y_threads y !! i) as [t|] eqn:Et; [|done].
    assert (ts !! i = Some t) as ->; [|done]. by eapply main_step_threads.
  - cbn. split; [split; cbn; try done|]. split; [done|]. intros f [= <-]. split; [done|]. by exists s, p.
Qed.

Lemma step_ok y y' : system_ok y → step y y' → system_ok y' ∧ grows (y_store y) (y_store y').
Proof.
  intros Hy Hs. destruct Hs as [y y' Hmv|y Hnf]; [destruct (move_ok y y' Hy Hmv) as (? & ? & _); by split|].
  destruct Hy. by split.
Qed.

Lemma steps_ok y y' : system_ok y → rtc step y y' → system_ok y' ∧ grows (y_store y) (y_store y').
Proof.
  intros Hy Hs. induction Hs as [y|y y1 y2 Hs1 _ IH]; [done|].
  destruct (step_ok _ _ Hy Hs1) as [Hy1 Hg1]. destruct (IH Hy1) as [Hy2 Hg2].
  split; [done|]. by etrans.
Qed.

(** ** Properties *)


(** A run ends with its first fault. *)
Lemma race_logout y y' c c' :
  system_ok y → y_fault y = None → rtc step y y' → y_fault y' = Some (FaultRace c c') →
  is_logout c = true ∨ is_logout c' = true.
Proof.
  intros Hy Hf Hs Hf'. induction Hs as [y|y y1 y2 Hs1 Hs IH]; [congruence|].
  destruct (step_ok _ _ Hy Hs1) as [Hy1 _]. destruct (y_fault y1) as [f|] eqn:Hf1; [|by apply IH].
  assert (y2 = y1) as ->.
  { inversion Hs as [|? ? ? Hs2]; [done|]. subst. destruct Hs2 as [? ? [? ? ? Hn _|? ? ? ? Hn _]|? Hn]; congruence. }
  destruct Hs1 as [y y1 Hm|y _]; [|cbn in Hf1; congruence].
  destruct (move_ok y y1 Hy Hm) as (_ & _ & Hc). apply (Hc (FaultRace c c')). congruence.
Qed.

(** C4 (invariant): an account, once made, is never removed, by any command and in any interleaving of the
    operations on the store, up to the end of the run; and the operations on the store overlap, which
    ends the run as a data race, only where one of them is [logOutUser], for the others hold the mutex. *)
Theorem accounts_persist argv (y y' : system D) :
  y_fault (init_system (D:=D) argv) = None → reachable argv y → y_fault y = None → rtc step y y' →
  (∀ n, is_Some (dir_account (y_store y) n) → is_Some (dir_account (y_store y') n)) ∧
  ∀ c c', y_fault y' = Some (FaultRace c c') → is_logout c = true ∨ is_logout c' = true.
Proof.
  intros Hi Hr Hf Hs. destruct (steps_ok _ y (init_system_ok argv Hi) Hr) as [Hy _].
  destruct (steps_ok _ _ Hy Hs) as [_ Hg]. split; [exact Hg|]. intros c c'. by apply (race_logout y y').
Qed.

Lemma store_sem_online s known sc d r d' n :
  dir_ok d → handler_pre s known (CStore sc) → store_sem sc d = (r, d') →
  online d n = false → online d' n = true →
  ∃ p, sc = SLoginUser n p ∧ accepts d n p = true.
Proof.
  intros Hd Hpre Hs Hoff Hon. destruct sc as [u|m p|m|m|m|m]; cbn in Hs, Hpre.
  - exfalso. destruct Hpre as [Hb [fd Hfd]].
    destruct (dir_add_spec d u false fd Hd Hb Hfd) as (d2 & Hadd & _ & Hacc).
    rewrite Hadd in Hs. injection Hs as <- <-. unfold online in *. rewrite Hacc in Hon.
    case_bool_decide; cbn in Hon; congruence.
  - destruct (dir_login_spec d m p Hd) as (_ & _ & Hacc). rewrite Hs in Hacc. cbn in Hacc.
    unfold online in *. rewrite Hacc in Hon.
    destruct (bool_decide (n = m)) eqn:Hn, (accepts d m p) eqn:Ha; cbn in Hon; try congruence.
    apply bool_decide_eq_true in Hn as ->. eauto.
  - exfalso. destruct (dir_logout_spec d m Hd) as (_ & Hacc). injection Hs as <- <-.
    unfold online in *. rewrite Hacc in Hon. case_bool_decide; [|congruence].
    by destruct (dir_account d n).
  - injection Hs as <- <-. congruence.
  - injection Hs as <- <-. congruence.
  - injection Hs as <- <-. congruence.
Qed.

Lemma call_step_online {A} s known b d (p : sprog A) d' p' Q n :
  dir_ok d → wp (result:=server_result) (handler_pre s) handler_ok known p Q →
  call_step b d p d' p' → online d n = false → online d' n = true →
  ∃ q k, p = Act (CStore (SLoginUser n q)) k ∧ accepts d n q = true.
Proof.
  intros Hd Hwp Hs Hoff Hon. destruct p as [|c k| | |]; try done.
  destruct Hwp as [Hpre _]. destruct Hs as (r & Hr & ->).
  destruct c as [|sc|nc| |?|?]; cbn in Hr; try done.
  - destruct Hr as [-> ->]. congruence.
  - destruct (store_sem_online s known sc d r d' n) as (q & -> & ?); eauto.
  - destruct Hr as [_ ->]. congruence.
Qed.

Lemma hthread_step_online b (d : D) t d' t' n :
  dir_ok d → thread_ok d t → hthread_step b d t d' t' → online d n = false → online d' n = true →
  ∃ q, hthread_call t = Some (CStore (SLoginUser n q)) ∧ accepts d n q = true.
Proof.
  intros Hd Ht Hs Hoff Hon. destruct t as [s p|s p|]; cbn in Ht, Hs; [| |done];
    destruct Ht as (_ & known & _ & Hwp); destruct Hs as (p' & Hs & _);
    destruct (call_step_online _ _ _ _ _ _ _ _ n Hd Hwp Hs Hoff Hon) as (q & k & -> & ?); by exists q.
Qed.

(** C3 (safety): an offline name becomes online in exactly one way: some handler thread runs
    [loginUser] for that name with the password of its account. *)
Theorem online_by_login argv (y y' : system D) n :
  y_fault (init_system (D:=D) argv) = None → reachable argv y → move y y' →
  online (y_store y) n = false → online (y_store y') n = true →
  ∃ i t q, y_threads y !! i = Some t ∧ hthread_call t = Some (CStore (SLoginUser n q)) ∧
    accepts (y_store y) n q = true.
Proof.
  intros Hi Hr Hm Hoff Hon. destruct (steps_ok _ y (init_system_ok argv Hi) Hr) as [Hy _].
  destruct Hm as [y i y' Hnf Hs|y d ts m Hnf Hs].
  - destruct Hs as [t d t' Ht _ Hs|c Hc Hin|t d t' Ht Hin Hs|c j c' Hc _ _ _ _|fd data Hc]; try (cbn in Hon; congruence);
      (assert (online d n = true) as Hon' by by destruct t'); exists i, t;
      destruct (hthread_step_online _ _ _ _ _ n (ok_store _ Hy) (thread_of _ _ _ Hy Ht) Hs Hoff Hon') as (q & ? & ?); eauto.
  - destruct Hy as [Hd Hts Hmt _].
    destruct (main_step_ok _ _ _ _ _ _ _ Hd Hts (Hmt Hnf) Hs) as (-> & _ & [(m1 & -> & _)|(-> & _)]); cbn in Hon; congruence.
Qed.

(** C5 (safety): [main] returns only when every handler thread it started is over. *)
Theorem exit_after_join argv (y : system D) code :
  y_fault (init_system (D:=D) argv) = None → reachable argv y →
  y_fault y = None → y_main y = MExited code → Forall (λ t, t = HDone) (y_threads y).
Proof.
  intros Hi Hr Hf Hm. destruct (steps_ok _ y (init_system_ok argv Hi) Hr) as [[_ _ Hok _] _].
  destruct (Hok Hf) as (j & Hj & Hmj). rewrite Hm in Hmj. subst j.
  apply Forall_forall. intros t [i Hl]%list_elem_of_lookup_1.
  pose proof (lookup_lt_Some _ _ _ Hl) as Hlt. rewrite (Hj i Hlt) in Hl. by injection Hl.
Qed.
End safety.

(** ** Concrete schedules *)

(** Start the server and accept [fd]. *)
Definition start_events : list event :=
  [EMain (NInt 3); EMain (NInt 0); EMain (NInt 0); EMain (NInt 0); EMain NUnit].
Definition accept_events (fd : Z) : list event :=
  [EMain NUnit; EMain (NInt fd); EMain NUnit; EMain NUnit].

(** Thread [i] receives the packet of [s] and is about to act on it. *)
Definition receive_events (i : nat) (s : bytes) : list event :=
  [EHandler i NUnit; EHandler i (NData (RecvBytes (packet s))); EHandler i NUnit].

Definition server_argv : list bytes := [b#"server"; b#"8080"].

Definition run_server (es : list event) : option (system users_map) :=
  run_events es (init_system server_argv).

Lemma run_server_reachable (es : list event) y : run_server es = Some y → reachable server_argv y.
Proof. apply run_events_steps. Qed.

(** A decidable fact about the state a schedule leads to. *)
Lemma run_server_check (es : list event) (P : system users_map → bool) :
  match run_server es with Some y => P y | None => false end = true →
  ∃ y, reachable server_argv y ∧ P y = true.
Proof.
  destruct (run_server es) as [y|] eqn:E; [|done]. intros HP. exists y. split; [|done].
  by eapply run_server_reachable.
Qed.

(** The same for a state and a later one. *)
Lemma run_server_check2 (es es' : list event) (P : system users_map → system users_map → bool) :
  match run_server es with
  | Some y => match run_events es' y with Some y' => P y y' | None => false end
  | None => false
  end = true →
  ∃ y y', reachable server_argv y ∧ run_events es' y = Some y' ∧ P y y' = true.
Proof.
  destruct (run_server es) as [y|] eqn:E; [|done]. destruct (run_events es' y) as [y'|] eqn:E'; [|done].
  intros HP. exists y, y'. split; [|done]. by eapply run_server_reachable.
Qed.

Definition race_events : list event :=
  start_events ++ accept_events 4 ++ accept_events 5 ++
  receive_events 0 b#"LOGOUT " ++ receive_events 1 b#"LOGIN amy pw".

(** One client signs up, and is in the store for its LOGIN. *)
Definition login_events : list event :=
  start_events ++ accept_events 4 ++ receive_events 0 b#"SIGNUP amy pw" ++
  [EHandler 0 NUnit; EHandler 0 NUnit; EHandler 0 (NInt 1024)] ++ receive_events 0 b#"LOGIN amy pw" ++ [EHandler 0 NUnit].

(** SIGINT with one client connected, until [main] returns. *)
Definition shutdown_events : list event :=
  [ESigint; EHandler 0 NUnit; EMain NUnit; EHandler 0 NUnit; EMain NUnit; EMain NUnit].

(** [logOutUser] takes no lock, so the store is not protected: a thread can enter it for
    [logOutUser] while another one is in [loginUser], which holds the mutex. *)
Lemma logout_race :
  ∃ y : system users_map, reachable server_argv y ∧
    y_fault y = Some (FaultRace (SLogOutUser []) (SLoginUser b#"amy" b#"pw")).
Proof.
  destruct (run_server_check (race_events ++ [EHandler 1 NUnit; EHandler 0 NUnit])
    (λ y, bool_decide (y_fault y = Some (FaultRace (SLogOutUser []) (SLoginUser b#"amy" b#"pw")))))
    as (y & Hy & HP%bool_decide_eq_true); [vm_compute; reflexivity|]. by exists y.
Qed.

(** Two operations with the mutex are one after the other. *)
Example second_login_waits :
  match run_server (start_events ++ accept_events 4 ++ accept_events 5 ++
    receive_events 0 b#"LOGIN amy pw" ++ receive_events 1 b#"LOGIN amy pw" ++ [EHandler 0 NUnit]) with
  | Some y => run_event (EHandler 1 NUnit) y = None ∧
      match run_events [EHandler 0 NUnit; EHandler 1 NUnit] y with Some y' => y_inside y' = Some 1%nat | None => False end
  | None => False
  end.
Proof. vm_compute. split; reflexivity. Qed.


(** The system does not start the thread of a client. *)
Example thread_not_started :
  match run_server (start_events ++ [EMain NUnit; EMain (NInt 4); EMain NUnit; EMain (NInt (-1))]) with
  | Some y => y_fault y = Some (FaultTerminate ExSystemError)
  | None => False
  end.
Proof. vm_compute. reflexivity. Qed.

Lemma accounts_persist_witness :
  ∃ y y' : system users_map, reachable server_argv y ∧ y_running y' = false ∧
    is_Some (dir_account (y_store y) b#"amy") ∧ is_Some (dir_account (y_store y') b#"amy").
Proof.
  destruct (run_server_check2 login_events [EHandler 0 NUnit; EHandler 0 (NInt 9); ESigint]
    (λ y y', bool_decide (is_Some (dir_account (y_store y) b#"amy")) && bool_decide (y_fault y = None) && negb (y_running y')))
    as (y & y' & Hy & Hs & HP); [vm_compute; reflexivity|].
  apply andb_true_iff in HP as [[Ha%bool_decide_eq_true Hf%bool_decide_eq_true]%andb_true_iff Hr%negb_true_iff].
  exists y, y'. split; [done|]. split; [done|]. split; [done|].
  apply (accounts_persist server_argv y y'); [done|done|done|by eapply run_events_steps|done].
Defined.

Lemma online_by_login_witness :
  ∃ (y y' : system users_map), reachable server_argv y ∧ move y y' ∧
    ∃ i t q, y_threads y !! i = Some t ∧ hthread_call t = Some (CStore (SLoginUser b#"amy" q)) ∧
      accepts (y_store y) b#"amy" q = true.
Proof.
  destruct (run_server_check2 login_events [EHandler 0 NUnit]
    (λ y y', negb (online (y_store y) b#"amy") && online (y_store y') b#"amy"))
    as (y & y' & Hy & Hs & HP); [vm_compute; reflexivity|].
  apply andb_true_iff in HP as [Hoff%negb_true_iff Hon].
  assert (move y y') as Hm.
  { cbn in Hs. destruct (run_event (EHandler 0 NUnit) y) as [y1|] eqn:E; [|done]. injection Hs as <-.
    by eapply run_event_move. }
  exists y, y'. split; [done|]. split; [done|].
  by apply (online_by_login server_argv y y').
Defined.

Lemma exit_after_join_witness :
  ∃ y : system users_map, reachable server_argv y ∧ y_main y = MExited 0 ∧
    length (y_threads y) = 1%nat ∧ Forall (λ t, t = HDone) (y_threads y).
Proof.
  destruct (run_server_check (start_events ++ accept_events 4 ++ shutdown_events)
    (λ y, match y_main y with MExited c => c =? 0 | _ => false end
          && bool_decide (y_fault y = None) && bool_decide (length (y_threads y) = 1%nat)))
    as (y & Hy & HP); [vm_compute; reflexivity|].
  apply andb_true_iff in HP as [[Hm Hf%bool_decide_eq_true]%andb_true_iff Hl%bool_decide_eq_true].
  assert (y_main y = MExited 0) as Hm0
    by (destruct (y_main y) as [| | |c]; try done; f_equal; by apply Z.eqb_eq).
  exists y. split; [done|]. split; [done|]. split; [done|].
  by apply (exit_after_join server_argv y 0).
Defined.
