(* ===== verification/ServerShutdown.v ===== *)
(** * ServerShutdown: after SIGINT the server comes to an end

    The number of steps a thread can still make is bounded: a round of the handler
    loop makes at most nine calls, three of them of the store, which are two steps each,
    and once [running] is [false] a new round makes one and leaves.  [budget] adds up the
    bounds of all the threads; every step after SIGINT lowers it, and a system that
    cannot step any more has left [main].  The model's socket calls always return;
    a [recv] or [accept] that blocks for ever is the one thing that can hold the real server
    back: [server_live] is about the threads that are not in a socket call. *)

From S2P Require Import Prelude CString Prog Net User Directory UserStore Server ServerSpec ServerSystem ServerSafety.

(** ** Counting calls *)

(** The steps of a call. *)
Definition cost (c : server_call) : nat := match c with CStore _ => 2 | _ => 1 end.

(** At most [g] steps are left; a thread is started only if [spawn]. *)
Definition count_pre (spawn : bool) (g : nat) (c : server_call) : Prop :=
  (cost c ≤ g)%nat ∧ match c with CSpawn _ => spawn = true | _ => True end.
Definition count_ok (g : nat) (c : server_call) (_ : server_result c) (g' : nat) : Prop := g = (cost c + g')%nat.

Definition within {A} (spawn : bool) (g : nat) (p : sprog A) : Prop :=
  wp (result:=server_result) (count_pre spawn) count_ok g p (λ _ _, True).

(** A handler thread that still makes at most [n] steps once [running] is [false]: the
    rest of its round, the test of [running], and the two calls of [close]. *)
Definition thread_calls (t : hthread) (n : nat) : Prop :=
  match t with
  | HLoop _ p => ∃ g, within false g p ∧ n = (g + 3)%nat
  | HEnd _ p => within false n p
  | HDone => n = 0%nat
  end.

(** A thread that is about to test [running]. *)
Definition thread_budget (t : hthread) (n : nat) : Prop :=
  thread_calls t n ∨ ∃ s l, t = HLoop s (handler_body s l) ∧ n = 3%nat.

(** The same for [main] when [k] threads were started; starting one costs its budget. *)
Definition main_calls (k : nat) (m : mthread) (n : nat) : Prop :=
  match m with
  | MSetup p => ∃ g, within false g p ∧ n = (g + k + 2)%nat
  | MAccept _ p => ∃ g, within true g p ∧ n = (5 * g + k + 2)%nat
  | MEnd p => within false n p
  | MExited _ => n = 0%nat
  end.

Definition main_budget (k : nat) (m : mthread) (n : nat) : Prop :=
  main_calls k m n ∨ ∃ s, m = MAccept s (accept_body s k) ∧ n = (k + 2)%nat.

(** The step that a thread in the store has made of its call. *)
Definition held (y_inside : option nat) : nat := match y_inside with Some _ => 1 | None => 0 end.

Definition budget {D} (y : system D) (n : nat) : Prop :=
  ∃ nm ns, main_budget (length (y_threads y)) (y_main y) nm ∧
    Forall2 thread_budget (y_threads y) ns ∧ (n + held (y_inside y) = nm + sum_list ns)%nat.

Lemma within_step {A} spawn g c (k : server_result c → sprog A) r :
  within spawn g (Act c k) → ∃ g', g = (cost c + g')%nat ∧ within spawn g' (k r).
Proof.
  intros [[Hg _] Hk]. exists (g - cost c)%nat. split; [lia|]. apply Hk. unfold count_ok. lia.
Qed.

Lemma cost_pos c : (0 < cost c)%nat.
Proof. destruct c; cbn; lia. Qed.

(** Walk a program with the counter at hand. *)
Ltac within_step :=
  match goal with
  | |- wp _ _ _ (_ ≫= _) _ => apply wp_bind
  | |- wp _ _ _ (try_catch _ _) _ => apply wp_try_catch
  | |- wp _ _ _ (lift_c _) _ => apply wp_lift_c; intros ? ?
  | |- wp _ _ _ (Ret _) _ => cbn [wp]
  | |- wp _ _ _ (mret _) _ => cbn [wp mret prog_mret]
  | |- wp _ _ _ (Raise _) _ => cbn [wp]
  | |- wp _ _ _ (call _) _ => unfold call
  | |- wp _ _ _ (store _) _ => unfold store, call
  | |- wp _ _ _ (net _) _ => unfold net, call
  | |- wp _ _ _ running_load _ => unfold running_load, call
  | |- wp _ _ _ (cout _) _ => unfold cout
  | |- wp _ _ _ (Act _ _) _ =>
      cbn [wp]; split; [unfold count_pre; split; [cbn [cost]; lia|done]|intros ? ? ?; unfold count_ok in *; cbn [cost] in *]
  | |- bind_post _ _ _ _ _ _ => cbn [bind_post]
  | |- True => exact I
  | |- wp _ _ _ (if ?b then _ else _) _ => destruct b
  | |- wp _ _ _ (match ?x with _ => _ end) _ => destruct x
  | |- wp _ _ _ (catch_runtime_error ?e) _ => destruct e; cbn [catch_runtime_error]
  | |- match ?x with _ => _ end => cbn iota
  end.

(** The longest round is a call that is accepted. *)
Lemma handler_body_within s l : within false 12 (handler_body s l).
Proof.
  unfold within, handler_body. repeat within_step.
  unfold dispatch, cmd_client, cmd_signup, cmd_login, cmd_call, cmd_logout, cmd_exit, connect_to_client,
    forward_call.
  repeat within_step.
Qed.

Lemma handler_end_within s l : within false 2 (handler_end s l).
Proof. unfold within, handler_end. repeat within_step. Qed.

Lemma accept_body_within s k : within true 4 (accept_body s k).
Proof. unfold within, accept_body. repeat within_step. Qed.

Lemma main_setup_within argv : within false 5 (main_setup argv).
Proof. unfold within, main_setup. repeat within_step. Qed.

Lemma join_all_within (n j g : nat) (Q : nat → outcome unit → Prop) :
  Q g (Done tt) →
  wp (result:=server_result) (count_pre false) count_ok (n + g)%nat (join_all (seq j n)) Q.
Proof.
  intros HQ. revert j. induction n as [|n IH]; intros j; cbn [seq join_all]; [done|].
  within_step. within_step. within_step. cbn [bind_post].
  match goal with |- wp _ _ ?k _ _ => replace k with (n + g)%nat by lia end. apply IH.
Qed.

Lemma main_end_within s k : within false (k + 1)%nat (main_end s k).
Proof.
  unfold within, main_end. within_step. apply join_all_within. cbn [bind_post]. repeat within_step.
Qed.

(** ** One step after SIGINT *)

Lemma thread_calls_budget t n : thread_calls t n → thread_budget t n.
Proof. by left. Qed.

(** What a thread pays for its next call. *)
Definition next_cost (t : hthread) : nat := match hthread_call t with Some c => cost c | None => 1 end.

Definition prog_cost {A} (p : sprog A) : nat := match p with Act c _ => cost c | _ => 1 end.

Lemma call_step_within {A D} `{Directory D} spawn g b (d : D) (p : sprog A) d' p' :
  within spawn g p → call_step b d p d' p' → ∃ g', g = (prog_cost p + g')%nat ∧ within spawn g' p'.
Proof.
  intros Hw Hs. destruct p as [|c k| | |]; try done. destruct Hs as (r & _ & ->).
  by eapply within_step.
Qed.

(** What is left of a round, a handler's end, after a call. *)
Lemma settle_loop_budget s g p t :
  within false g p → settle_loop s p = inl t → ∃ n, (n ≤ g + 3)%nat ∧ thread_budget t n.
Proof.
  intros Hw. destruct p as [[l|l]|c k|e|u|c]; cbn; try done; intros [= <-].
  - exists 3%nat. split; [lia|]. right. eauto.
  - exists 2%nat. split; [lia|]. left. apply handler_end_within.
  - exists (g + 3)%nat. split; [done|]. left. by exists g.
Qed.

Lemma settle_end_budget s g p t :
  within false g p → settle_end s p = inl t → ∃ n, (n ≤ g)%nat ∧ thread_calls t n.
Proof.
  intros Hw. destruct p as [[]|c k|e|u|c]; cbn; try done; intros [= <-].
  - exists 0%nat. split; [lia|]. done.
  - by exists g.
Qed.

Lemma fresh_round_step {D} `{Directory D} (d : D) s l d' t' :
  hthread_step false d (HLoop s (handler_body s l)) d' t' → t' = inl (HEnd s (handler_end s l)).
Proof. intros (p' & (r & [-> _] & ->) & ->). done. Qed.

Lemma hthread_step_budget {D} `{Directory D} (d : D) t n d' t' :
  thread_budget t n → hthread_step false d t d' t' →
  (next_cost t ≤ n)%nat ∧ ∀ t1, t' = inl t1 → ∃ n1, (n1 + next_cost t ≤ n)%nat ∧ thread_budget t1 n1.
Proof.
  intros [Hc|(s & l & -> & ->)] Hs.
  - destruct t as [s p|s p|]; cbn in Hc, Hs; [| |done].
    + destruct Hc as (g & Hw & ->), Hs as (p' & Hs & ->). assert (next_cost (HLoop s p) = prog_cost p) as -> by by destruct p.
      destruct (call_step_within _ _ _ _ _ _ _ Hw Hs) as (g' & -> & Hw').
      split; [lia|]. intros t1 Ht. destruct (settle_loop_budget _ _ _ _ Hw' Ht) as (n & ? & ?).
      exists n. split; [lia|done].
    + destruct Hs as (p' & Hs & ->). assert (next_cost (HEnd s p) = prog_cost p) as -> by by destruct p.
      destruct (call_step_within _ _ _ _ _ _ _ Hc Hs) as (g' & -> & Hw').
      split; [lia|]. intros t1 Ht. destruct (settle_end_budget _ _ _ _ Hw' Ht) as (n & ? & ?).
      exists n. split; [lia|by left].
  - apply fresh_round_step in Hs as ->. split; [cbn; lia|]. intros t1 [= <-]. exists 2%nat. split; [cbn; lia|].
    left. apply handler_end_within.
Qed.

(** A thread that is about to make a call has at least its cost left. *)
Lemma thread_budget_cost t n c : thread_budget t n → hthread_call t = Some c → (cost c ≤ n)%nat.
Proof.
  intros [Hc|(s & l & -> & ->)] Ht; [|injection Ht as <-; cbn; lia].
  destruct t as [s [|c' k| | |]|s [|c' k| | |]|]; try done; injection Ht as ->; cbn in Hc.
  - destruct Hc as (g & [[Hg _] _] & ->). lia.
  - by destruct Hc as [[Hg _] _].
Qed.

(** [main] may add one thread, whose first action is to test [running]. *)
Definition new_threads (ts ts' : list hthread) : Prop :=
  ts' = ts ∨ ∃ s, ts' = ts ++ [new_handler s].

Lemma main_call_within {A D} `{Directory D} spawn g b (d : D) ts (p : sprog A) d' ts' p' :
  within spawn g p → main_call b d ts p d' ts' p' →
  ∃ g', (g' < g)%nat ∧ within spawn g' p' ∧ new_threads ts ts' ∧ (spawn = false → ts' = ts).
Proof.
  intros Hw Hs. unfold new_threads. destruct p as [|c k| | |]; try by destruct Hs.
  assert (∀ r, ∃ g', (g' < g)%nat ∧ within spawn g' (k r)) as Hk.
  { intros r. destruct (within_step _ _ _ _ r Hw) as (g' & -> & ?). exists g'. split; [|done]. pose proof (cost_pos c). lia. }
  destruct c as [|sc|nc| |s|t]; cbn in Hs;
    try (destruct Hs as [(r & _ & ->) ->]; destruct (Hk r) as (g' & ? & ?); by eauto 10).
  - destruct Hs as (_ & [(-> & ->)|(-> & ->)]); [destruct (Hk true) as (g' & ? & ?)|destruct (Hk false) as (g' & ? & ?)]; exists g';
      (split; [done|]); (split; [done|]); (split; [by eauto|]); destruct Hw as [[_ ->] _]; done.
  - destruct Hs as (_ & _ & -> & ->). destruct (Hk tt) as (g' & ? & ?). eauto 10.
Qed.

Lemma settle_main_end_budget k g p m :
  within false g p → settle_main_end p = inl m → ∃ n, (n ≤ g)%nat ∧ main_calls k m n.
Proof.
  intros Hw. destruct p as [c|c h|e|u|c]; cbn; try done; intros [= <-].
  - exists 0%nat. split; [lia|]. done.
  - by exists g.
Qed.

(** Leaving the accept loop with [k] threads. *)
Lemma settle_accept_budget s k g p m :
  within true g p → (∀ n, p = Ret (Continue n) ∨ p = Ret (Break n) → n = k) →
  settle_accept s p = inl m → ∃ n, (n ≤ 5 * g + k + 2)%nat ∧ main_budget k m n.
Proof.
  intros Hw Hk. destruct p as [[n|n]|c h|e|u|c]; cbn [settle_accept]; try done.
  - intros [= <-]. rewrite (Hk n) by auto. exists (k + 2)%nat. split; [lia|]. right. eauto.
  - intros Hm. rewrite (Hk n) in Hm by auto.
    destruct (settle_main_end_budget k _ _ _ (main_end_within s k) Hm) as (n' & ? & ?).
    exists n'. split; [lia|by left].
  - intros [= <-]. eexists. split; [done|]. left. by exists g.
Qed.

Lemma settle_setup_budget k g p m :
  within false g p → (∀ s, p = Ret (inr s) → k = 0%nat) →
  settle_setup p = inl m → ∃ n, (n ≤ g + k + 2)%nat ∧ main_budget k m n.
Proof.
  intros Hw Hk. destruct p as [[c|s]|c h|e|u|c]; cbn [settle_setup]; try done; intros [= <-].
  - exists 0%nat. split; [lia|]. by left.
  - rewrite (Hk s) by done. exists 2%nat. split; [lia|]. right. eauto.
  - exists (g + k + 2)%nat. split; [done|]. left. by exists g.
Qed.

Section budget.
Context {D : Type} `{DirectoryLaws D}.

(** [accept_body] goes no further once [running] is [false]. *)
Lemma fresh_accept_step (d : D) ts s k d' ts' m' :
  main_step false d ts (MAccept s (accept_body s k)) d' ts' m' →
  ts' = ts ∧ m' = settle_main_end (main_end s k).
Proof. intros (p' & [(r & [-> _] & ->) ->] & ->). done. Qed.

Lemma length_new_threads ts ts' :
  new_threads ts ts' → (length ts ≤ length ts' ≤ length ts + 1)%nat.
Proof. intros [->|[s ->]]; [lia|]. rewrite length_app. cbn. lia. Qed.

Lemma main_step_budget (d : D) ts m n d' ts' m' :
  dir_ok d → Forall (thread_ok d) ts → main_thread_ok ts m →
  main_budget (length ts) m n → main_step false d ts m d' ts' m' →
  new_threads ts ts' ∧ (0 < n)%nat ∧
  ∀ m1, m' = inl m1 →
    ∃ n1, (n1 + 3 * (length ts' - length ts) < n)%nat ∧ main_budget (length ts') m1 n1.
Proof.
  intros Hd Hts Hmt [Hc|(s & -> & ->)] Hs.
  - destruct Hmt as (j & Hj & Hm). destruct m as [p|s p|p|code]; cbn in Hc, Hs, Hm; [| | |done];
      destruct Hm as [_ Hm].
    + destruct Hc as (g & Hw & ->), Hs as (p' & Hs & ->).
      destruct (main_call_within _ _ _ _ _ _ _ _ _ Hw Hs) as (g' & Hg & Hw' & Hn & Hts').
      specialize (Hts' eq_refl) as ->. split; [done|]. split; [lia|]. intros m1 Hm1.
      destruct (main_call_ok _ _ _ _ _ _ _ _ _ Hd Hts Hj Hm Hs) as (_ & _ & j' & _ & Hwp).
      destruct (settle_setup_budget (length ts) _ _ m1 Hw') as (n & ? & ?); [|done|].
      { intros s ->. cbn in Hwp. by injection Hwp. }
      exists n. split; [lia|done].
    + destruct Hc as (g & Hw & ->), Hs as (p' & Hs & ->).
      destruct (main_call_within _ _ _ _ _ _ _ _ _ Hw Hs) as (g' & Hg & Hw' & Hn & _).
      split; [done|]. split; [lia|]. intros m1 Hm1. pose proof (length_new_threads _ _ Hn).
      destruct (main_call_ok _ _ _ _ _ _ _ _ _ Hd Hts Hj Hm Hs) as (_ & _ & j' & _ & Hwp).
      destruct (settle_accept_budget s (length ts') _ _ m1 Hw') as (n & ? & ?); [|done|].
      { intros n [->| ->]; cbn in Hwp; by injection Hwp. }
      exists n. split; [lia|done].
    + destruct Hs as (p' & Hs & ->).
      destruct (main_call_within _ _ _ _ _ _ _ _ _ Hc Hs) as (g' & Hg & Hw' & Hn & Hts').
      specialize (Hts' eq_refl) as ->. split; [done|]. split; [lia|]. intros m1 Hm1.
      destruct (settle_main_end_budget (length ts) _ _ _ Hw' Hm1) as (n1 & ? & ?).
      exists n1. split; [lia|by left].
  - apply fresh_accept_step in Hs as [-> ->]. split; [by left|]. split; [lia|]. intros m1 Hm1.
    destruct (settle_main_end_budget (length ts) _ _ _ (main_end_within s _) Hm1) as (n & ? & ?).
    exists n. split; [lia|by left].
Qed.

Lemma sum_list_insert (ns : list nat) i n n' :
  ns !! i = Some n → (sum_list (<[i := n']> ns) + n = sum_list ns + n')%nat.
Proof.
  revert i. induction ns as [|m ns IH]; intros i Hi; [done|]. destruct i as [|i].
  - injection Hi as ->. cbn. lia.
  - specialize (IH i Hi). change (<[S i := n']> (m :: ns)) with (m :: <[i := n']> ns).
    cbn [sum_list_with id]. lia.
Qed.

(** A thread that is in the store has more than one step left. *)
Lemma inside_budget (ts : list hthread) ns i t c :
  Forall2 thread_budget ts ns → ts !! i = Some t → hthread_call t = Some (CStore c) → (2 ≤ sum_list ns)%nat.
Proof.
  intros Hns Ht Hc. destruct (Forall2_lookup_l _ _ _ _ _ Hns Ht) as (n & Hn & Hb).
  pose proof (thread_budget_cost _ _ _ Hb Hc). pose proof (sum_list_insert ns i n 0 Hn). cbn in *. lia.
Qed.

Lemma inside_calls_budget (y : system D) ns j :
  Forall2 thread_budget (y_threads y) ns → is_store_call (handler_call y j) = true → (2 ≤ sum_list ns)%nat.
Proof.
  unfold handler_call. intros Hns Hc. destruct (y_threads y !! j) as [tj|] eqn:Hj; [|done]. cbn in Hc.
  destruct (hthread_call tj) as [[|cj| | | |]|] eqn:Hcj; try done. pose proof (inside_budget _ ns j tj cj Hns Hj Hcj). lia.
Qed.

(** A call that thread [i] makes, with what it has paid of it already. *)
Lemma set_thread_budget (y : system D) i t d t' inside n :
  y_running y = false → budget y n → y_threads y !! i = Some t → hthread_step false (y_store y) t d t' →
  (held (y_inside y) < next_cost t + held inside)%nat →
  (∀ j, inside = Some j → i ≠ j ∧ is_store_call (handler_call y j) = true) →
  let y' := set_thread (set_inside inside y) i d t' in
  (0 < n)%nat ∧ (y_fault y' = None → ∃ n', (n' < n)%nat ∧ budget y' n').
Proof.
  intros Hrun (nm & ns & Hm & Hns & Hn) Ht Hs Hlt Hin y'.
  destruct (Forall2_lookup_l _ _ _ _ _ Hns Ht) as (k & Hk & Hb).
  destruct (hthread_step_budget _ _ _ _ _ Hb Hs) as [Hpos Hnext]. pose proof (sum_list_insert ns i k 0 Hk) as Hsum.
  assert (∀ t1 ns', Forall2 thread_budget (<[i := t1]> (y_threads y)) ns' → (held inside ≤ sum_list ns')%nat) as Hheld.
  { intros t1 ns' Hns'. destruct inside as [j|]; cbn; [|lia]. destruct (Hin j eq_refl) as [Hij Hc].
    unfold handler_call in Hc. destruct (y_threads y !! j) as [tj|] eqn:Hj; [|done]. cbn in Hc.
    destruct (hthread_call tj) as [[|c| | | |]|] eqn:Hcj; try done.
    pose proof (inside_budget _ ns' j tj c Hns' ltac:(by rewrite list_lookup_insert_ne) Hcj). lia. }
  assert (Forall2 thread_budget (<[i := HDone]> (y_threads y)) (<[i := 0%nat]> ns)) as Hover by (by apply Forall2_insert; [|left]).
  pose proof (Hheld _ _ Hover). split; [lia|]. destruct t' as [t1|f]; [|done]. intros _.
  destruct (Hnext t1 eq_refl) as (n1 & Hn1 & Hb1). pose proof (sum_list_insert ns i k n1 Hk).
  assert (Forall2 thread_budget (<[i := t1]> (y_threads y)) (<[i := n1]> ns)) as Hns1 by by apply Forall2_insert.
  pose proof (Hheld _ _ Hns1). exists (nm + sum_list (<[i := n1]> ns) - held inside)%nat. split; [lia|].
  exists nm, (<[i := n1]> ns). cbn. rewrite length_insert. split; [done|]. split; [done|lia].
Qed.

Lemma handler_move_budget (y y' : system D) i n :
  system_ok y → y_fault y = None → y_running y = false → budget y n → handler_move i y y' →
  (0 < n)%nat ∧ y_running y' = false ∧ (y_fault y' = None → ∃ n', (n' < n)%nat ∧ budget y' n').
Proof.
  intros Hy Hnf Hrun Hb Hmv. pose proof (ok_inside y Hy) as Hin.
  assert (∀ c, handler_call y i = Some c → ∃ t, y_threads y !! i = Some t ∧ hthread_call t = Some c) as Hcall.
  { unfold handler_call. intros c Hc. destruct (y_threads y !! i) as [t|]; [|done]. by exists t. }
  assert (∀ c, handler_call y i = Some c → (0 < n)%nat) as Hpos.
  { intros c Hc. destruct Hb as (nm & ns & Hm & Hns & Hn). destruct (Hcall c Hc) as (t & Ht & Htc).
    destruct (Forall2_lookup_l _ _ _ _ _ Hns Ht) as (k & Hk & Hbk). pose proof (thread_budget_cost _ _ _ Hbk Htc).
    pose proof (cost_pos c). pose proof (sum_list_insert ns i k 0 Hk).
    destruct (y_inside y) as [j|]; cbn in Hn; [|lia]. specialize (Hin j Hnf eq_refl).
    pose proof (inside_calls_budget y ns j Hns Hin). lia. }
  destruct Hmv as [t d t' Ht Hns Hs|c Hc Hi|t d t' Ht Hi Hs|c j c' Hc Hi Hij Hc' Hm|fd data Hc].
  - rewrite Hrun in Hs. assert (set_inside (y_inside y) y = y) as E by by destruct y.
    destruct (set_thread_budget y i t d t' (y_inside y) n Hrun Hb Ht Hs) as [Hp Hnext].
    + unfold next_cost. destruct (hthread_call t) as [c|]; [pose proof (cost_pos c)|]; lia.
    + intros j Hj. split; [|by apply Hin]. intros <-. specialize (Hin i Hnf Hj). unfold handler_call in Hin.
      rewrite Ht in Hin. cbn in Hin. congruence.
    + rewrite E in Hnext. split; [done|]. split; [by destruct t'|done].
  - destruct Hb as (nm & ns & Hm & Hns & Hn). destruct (Hcall _ Hc) as (t & Ht & Htc).
    pose proof (inside_budget _ ns i t c Hns Ht Htc). rewrite Hi in Hn. cbn in Hn. split; [lia|]. split; [done|]. intros _.
    exists (n - 1)%nat. split; [lia|]. exists nm, ns. split; [done|]. split; [done|]. cbn. lia.
  - rewrite Hrun in Hs. destruct (set_thread_budget y i t d t' None n Hrun Hb Ht Hs) as [Hp Hnext]; [|done|].
    + specialize (Hin i Hnf Hi). unfold handler_call in Hin. rewrite Ht in Hin. cbn in Hin. rewrite Hi. unfold next_cost. cbn.
      destruct (hthread_call t) as [[|c| | | |]|]; try done. cbn. lia.
    + split; [done|]. split; [by destruct t'|done].
  - split; [|done]. by apply (Hpos _ Hc).
  - split; [|done]. by apply (Hpos _ Hc).
Qed.

(** Every step after SIGINT lowers the budget, and takes one that is positive. *)
Lemma move_budget (y y' : system D) n :
  system_ok y → y_running y = false → budget y n → move y y' →
  (0 < n)%nat ∧ y_running y' = false ∧
  (y_fault y' = None → ∃ n', (n' < n)%nat ∧ budget y' n').
Proof.
  intros Hy Hrun Hb Hmv. destruct Hmv as [y i y' Hnf Hs|y d ts m Hnf Hs]; [by eapply handler_move_budget|].
  pose proof (ok_inside y Hy) as Hin. destruct Hb as (nm & ns & Hm & Hns & Hn).
  destruct Hy as [Hd Hts Hmt _]. rewrite Hrun in Hs.
  destruct (main_step_budget _ _ _ _ _ _ _ Hd Hts (Hmt Hnf) Hm Hs) as (Hnew & Hpos & Hnext).
  assert (held (y_inside y) ≤ sum_list ns)%nat as Hheld.
  { destruct (y_inside y) as [j|]; cbn; [|lia]. specialize (Hin j Hnf eq_refl). pose proof (inside_calls_budget y ns j Hns Hin). lia. }
  destruct m as [m1|f]; cbn; (split; [lia|]; split; [done|]); [|done].
  intros _. destruct (Hnext m1 eq_refl) as (n1 & Hlt & Hb1).
  destruct Hnew as [->|[s ->]].
  - exists (n1 + sum_list ns - held (y_inside y))%nat. split; [lia|]. exists n1, ns. cbn. repeat split; try done. lia.
  - rewrite length_app in *. cbn in *. exists (n1 + (sum_list ns + 3) - held (y_inside y))%nat. split; [lia|].
    exists n1, (ns ++ [3%nat]). cbn [y_threads y_main y_inside]. rewrite length_app.
    split; [done|]. split; [|rewrite sum_list_with_app; cbn; lia].
    apply Forall2_app; [done|]. constructor; [|done]. right. eauto.
Qed.

(** ** The bound holds in every reachable state *)

Definition thread_bounded (t : hthread) : Prop := ∃ n, (n ≤ 15)%nat ∧ thread_calls t n.

Lemma new_handler_bounded s : thread_bounded (new_handler s).
Proof. exists 15%nat. split; [lia|]. exists 12%nat. split; [apply handler_body_within|lia]. Qed.

Lemma hthread_step_bounded b (d : D) t d' t1 :
  thread_bounded t → hthread_step b d t d' (inl t1) → thread_bounded t1.
Proof.
  intros (n & Hn & Hc) Hs. destruct t as [s p|s p|]; cbn in Hc, Hs; [| |done].
  - destruct Hc as (g & Hw & ->), Hs as (p' & Hs & Ht).
    destruct (call_step_within _ _ _ _ _ _ _ Hw Hs) as (g' & -> & Hw').
    destruct p' as [[l|l]|c k|e|u|c]; cbn in Ht; try done; injection Ht as ->.
    + exists 15%nat. split; [lia|]. exists 12%nat. split; [apply handler_body_within|lia].
    + exists 2%nat. split; [lia|]. apply handler_end_within.
    + exists (g' + 3)%nat. split; [lia|]. by exists g'.
  - destruct Hs as (p' & Hs & Ht).
    destruct (call_step_within _ _ _ _ _ _ _ Hc Hs) as (g' & -> & Hw').
    destruct (settle_end_budget _ _ _ _ Hw' (eq_sym Ht)) as (n' & ? & ?). exists n'. split; [lia|done].
Qed.

Lemma main_step_bounded b (d : D) ts m n d' ts' m1 :
  dir_ok d → Forall (thread_ok d) ts → main_thread_ok ts m →
  (n ≤ length ts + 22)%nat → main_calls (length ts) m n → main_step b d ts m d' ts' (inl m1) →
  new_threads ts ts' ∧ ∃ n1, (n1 ≤ length ts' + 22)%nat ∧ main_calls (length ts') m1 n1.
Proof.
  intros Hd Hts (j & Hj & Hm) Hn Hc Hs.
  destruct m as [p|s p|p|code]; cbn in Hc, Hs, Hm; [| | |done]; destruct Hm as [_ Hm].
  - destruct Hc as (g & Hw & ->), Hs as (p' & Hs & Hm1).
    destruct (main_call_within _ _ _ _ _ _ _ _ _ Hw Hs) as (g' & Hg & Hw' & Hnew & Hts').
    specialize (Hts' eq_refl) as ->. split; [done|].
    destruct p' as [[c|s]|c k|e|u|c]; cbn in Hm1; try done; injection Hm1 as ->.
    + exists 0%nat. split; [lia|done].
    + eexists. split; [|exists 4%nat; split; [apply accept_body_within|done]]. lia.
    + eexists. split; [|exists g'; split; [done|done]]. lia.
  - destruct Hc as (g & Hw & ->), Hs as (p' & Hs & Hm1).
    destruct (main_call_within _ _ _ _ _ _ _ _ _ Hw Hs) as (g' & Hg & Hw' & Hnew & _).
    split; [done|]. pose proof (length_new_threads _ _ Hnew).
    destruct (main_call_ok _ _ _ _ _ _ _ _ _ Hd Hts Hj Hm Hs) as (_ & _ & j' & _ & Hwp).
    destruct p' as [[n|n]|c k|e|u|c]; cbn [settle_accept] in Hm1; try done.
    + injection Hm1 as ->. eexists. split; [|exists 4%nat; split; [apply accept_body_within|done]]. lia.
    + cbn in Hwp. injection Hwp as Hl _. subst n.
      destruct (settle_main_end_budget (length ts') _ _ _ (main_end_within s _) (eq_sym Hm1))
        as (n & ? & ?). exists n. split; [lia|done].
    + injection Hm1 as ->. eexists. split; [|exists g'; split; [done|done]]. lia.
  - destruct Hs as (p' & Hs & Hm1).
    destruct (main_call_within _ _ _ _ _ _ _ _ _ Hc Hs) as (g' & Hg & Hw' & Hnew & Hts').
    specialize (Hts' eq_refl) as ->. split; [done|].
    destruct (settle_main_end_budget (length ts) _ _ _ Hw' (eq_sym Hm1)) as (n1 & ? & ?).
    exists n1. split; [lia|done].
Qed.

Definition system_bounded (y : system D) : Prop :=
  y_fault y = None →
  (∃ n, (n ≤ length (y_threads y) + 22)%nat ∧ main_calls (length (y_threads y)) (y_main y) n) ∧
  Forall thread_bounded (y_threads y).

Lemma set_thread_bounded (y : system D) i t d t' inside :
  system_bounded y → y_fault y = None → y_threads y !! i = Some t → hthread_step (y_running y) (y_store y) t d t' →
  system_bounded (set_thread (set_inside inside y) i d t').
Proof.
  intros Hb Hnf Ht Hs. destruct (Hb Hnf) as [(n & Hn & Hm) Hth]. destruct t' as [t1|f]; [|done].
  intros _. cbn. rewrite length_insert. split; [eauto|]. apply Forall_insert; [done|].
  eapply hthread_step_bounded; [|done]. rewrite Forall_forall in Hth. apply Hth. by eapply list_elem_of_lookup_2.
Qed.

Lemma move_bounded (y y' : system D) :
  system_ok y → system_bounded y → move y y' → system_bounded y'.
Proof.
  intros [Hd Hts Hmt _] Hb Hmv. destruct Hmv as [y i y' Hnf Hs|y d ts m Hnf Hs].
  - destruct Hs as [t d t' Ht _ Hs|c _ _|t d t' Ht _ Hs|c j c' _ _ _ _ _|fd data _]; [|exact Hb| |done|done].
    + assert (set_inside (y_inside y) y = y) as E by by destruct y.
      pose proof (set_thread_bounded y i t d t' (y_inside y) Hb Hnf Ht Hs) as H'. by rewrite E in H'.
    + by eapply set_thread_bounded.
  - destruct (Hb Hnf) as [(n & Hn & Hm) Hth]. destruct m as [m1|f]; [|done]. intros _. cbn.
    destruct (main_step_bounded _ _ _ _ _ _ _ _ Hd Hts (Hmt Hnf) Hn Hm Hs) as ([->|[s ->]] & ?);
      (split; [done|]); [done|].
    apply Forall_app_2; [done|]. apply Forall_singleton. apply new_handler_bounded.
Qed.

Lemma steps_bounded (y y' : system D) :
  system_ok y → system_bounded y → rtc step y y' → system_bounded y'.
Proof.
  intros Hy Hb Hs. induction Hs as [y|y y1 y2 Hs1 _ IH]; [done|].
  destruct (step_ok _ _ Hy Hs1) as [Hy1 _]. apply IH; [done|].
  destruct Hs1 as [y0 y0' Hm|y0 Hf]; [by apply (move_bounded y0)|exact Hb].
Qed.

Lemma init_bounded argv : system_bounded (init_system (D:=D) argv).
Proof.
  unfold system_bounded, init_system, init_main. pose proof (main_setup_within argv) as Hw.
  destruct (main_setup argv) as [[c|s]|c k|e|u|c] eqn:E; cbn; try done; intros _; (split; [|done]).
  - exists 0%nat. split; [lia|done].
  - eexists. split; [|exists 4%nat; split; [apply accept_body_within|done]]. lia.
  - eexists. split; [|exists 5%nat; split; [done|done]]. lia.
Qed.

(** The budget of a reachable state with [k] threads is at most [16 * k + 22]. *)
Lemma bounded_budget (y : system D) :
  (∀ i, y_fault y = None → y_inside y = Some i → is_store_call (handler_call y i) = true) →
  system_bounded y → y_fault y = None →
  ∃ n, (n ≤ 16 * length (y_threads y) + 22)%nat ∧ budget y n.
Proof.
  intros Hi Hb Hf. destruct (Hb Hf) as [(nm & Hn & Hm) Hth].
  assert (∃ ns, Forall2 thread_budget (y_threads y) ns ∧
    (sum_list ns ≤ 15 * length (y_threads y))%nat) as (ns & Hns & Hsum).
  { clear -Hth. induction Hth as [|t ts (n & Hn & Ht) _ (ns & Hns & Hsum)].
    - exists []. split; [constructor|]. cbn. lia.
    - exists (n :: ns). split; [constructor; [by left|done]|]. cbn in *. lia. }
  assert (Forall2 thread_budget (y_threads y) ns) as Hns' by done.
  assert (held (y_inside y) ≤ sum_list ns)%nat as Hheld.
  { destruct (y_inside y) as [j|]; cbn; [|lia]. specialize (Hi j Hf eq_refl). pose proof (inside_calls_budget y ns j Hns' Hi). lia. }
  exists (nm + sum_list ns - held (y_inside y))%nat. split; [lia|]. exists nm, ns. split; [by left|]. split; [done|lia].
Qed.

(** ** Progress *)

Lemma call_answer b (d : D) c :
  match c with CSpawn _ | CJoin _ => False | _ => True end → ∃ r d', answers b d c r d'.
Proof.
  destruct c as [|sc|nc| |s|t]; intros Hc; try done.
  - by exists b, d.
  - destruct (store_sem sc d) as [r d'] eqn:E. by exists r, d'.
  - assert (∃ r, net_ok nc r) as [r Hr]; [|by exists r, d].
    destruct nc; cbn; try (exists 0; lia); try (exists 0; split; [lia|apply blen_nonneg]);
      [by exists RecvError|by exists tt].
  - exists 0, d. by split; [left|].
Qed.

(** The next call of a handler that is not over can be made, whatever it is. *)
Lemma thread_progress b (d : D) t : thread_ok d t → t ≠ HDone → ∃ d' t', hthread_step b d t d' t'.
Proof.
  intros Ht Hd. destruct t as [s p|s p|]; cbn in Ht; [| |done];
    destruct Ht as (Ha & known & _ & Hwp); destruct p as [|c k| | |]; try done;
    destruct Hwp as [Hpre _];
    (destruct (call_answer b d c) as (r & d' & Hr); [by destruct c|]);
    eexists d', _; exists (k r); (split; [by exists r|done]).
Qed.

(** [main] is about to join a handler that is not over. *)
Definition waits_to_join (ts : list hthread) (m : mthread) : Prop :=
  ∃ j t, mthread_call m = Some (CJoin j) ∧ ts !! j = Some t ∧ t ≠ HDone.

(** [main] can move unless it waits for a thread that is not over. *)
Lemma main_progress b (d : D) ts m :
  main_thread_ok ts m →
  (∃ code, m = MExited code) ∨ waits_to_join ts m ∨ ∃ d' ts' m', main_step b d ts m d' ts' m'.
Proof.
  intros (j & Hj & Hm).
  assert (∀ A (p : sprog A) Q, is_act p → mwp (length ts, j) p Q →
    (∃ k t, p = Act (CJoin j) k ∧ ts !! j = Some t ∧ t ≠ HDone) ∨ ∃ d' ts' p', main_call b d ts p d' ts' p') as Hcall.
  { intros A p Q Ha Hw. destruct p as [|c k| | |]; try done. destruct Hw as [Hpre _].
    assert (match c with CSpawn _ | CJoin _ => False | _ => True end →
      ∃ d' ts' p', main_call b d ts (Act c k) d' ts' p') as Hc.
    { intros Hc. destruct (call_answer b d c Hc) as (r & d' & Hr). exists d', ts, (k r).
      destruct c; try done; (split; [by exists r|done]). }
    destruct c as [|sc|nc| |s|t]; try (right; by apply Hc).
    - right. eexists _, _, _. split; [done|]. by left.
    - cbn in Hpre. destruct Hpre as [-> Hlt].
      destruct (lookup_lt_is_Some_2 ts j Hlt) as [t Ht].
      destruct t as [s p|s p|]; [left; eexists _, _; split; [done|]; split; [exact Ht|done]..|].
      right. by eexists _, _, _. }
  destruct m as [p|s p|p|code]; [right..|eauto]; destruct Hm as [Ha Hw];
    (destruct (Hcall _ p _ Ha Hw) as [(k & t & -> & Ht & Hd)|(d' & ts' & p' & Hs)]; [left; by exists j, t|right; by eexists d', ts', _, p']).
Qed.

(** The thread in the store can leave it. *)
Lemma inside_leaves (y : system D) j :
  system_ok y → y_fault y = None → y_inside y = Some j →
  ∃ y', handler_move j y y' ∧ y_inside y' = None ∧ ∀ i, i ≠ j → handler_call y' i = handler_call y i.
Proof.
  intros Hy Hf Hj. pose proof (ok_inside y Hy j Hf Hj) as Hc. unfold handler_call in Hc.
  destruct (y_threads y !! j) as [t|] eqn:Ht; [|done]. cbn in Hc.
  destruct (thread_progress (y_running y) (y_store y) t) as (d' & t' & Hs); [by eapply thread_of|by intros ->|].
  eexists. split; [by eapply handler_leaves|]. destruct t' as [t'|f]; (split; [done|]); [|done].
  intros i Hij. unfold handler_call. cbn. by rewrite list_lookup_insert_ne.
Qed.

(** Nothing is in the way of the next call of handler [i], the store included. *)
Definition unhindered (y : system D) (i : nat) : Prop :=
  ∃ y', handler_move i y y' ∧ ∀ c c', y_fault y' ≠ Some (FaultRace c c').

Lemma handler_unhindered (y : system D) i t :
  system_ok y → y_fault y = None → y_threads y !! i = Some t → t ≠ HDone →
  unhindered y i ∨ ∃ j, i ≠ j ∧ y_inside y = Some j ∧ is_store_call (handler_call y i) = true.
Proof.
  intros Hy Hf Ht Hd. destruct (thread_progress (y_running y) (y_store y) t) as (d' & t' & Hs); [by eapply thread_of|done|].
  assert (∀ f, t' = inr f → ∃ u, f = FaultUndefined u) as Hu.
  { destruct (hthread_step_ok _ _ _ _ _ (ok_store _ Hy) (thread_of _ _ _ Hy Ht) Hs) as (_ & _ & Ht').
    intros f ->. apply Ht'. }
  assert (∀ s, ∀ c c', y_fault (set_thread (set_inside s y) i d' t') ≠ Some (FaultRace c c')) as Hnr.
  { intros s c c'. destruct t' as [|f]; [done|]. by destruct (Hu f eq_refl) as [u ->]. }
  assert (handler_call y i = hthread_call t) as Hct by (unfold handler_call; by rewrite Ht).
  destruct (is_store_call (hthread_call t)) eqn:Hsc.
  - destruct (y_inside y) as [j|] eqn:Hj.
    + destruct (decide (i = j)) as [<-|Hij].
      * left. eexists. split; [by eapply handler_leaves|apply Hnr].
      * right. exists j. by rewrite Hct.
    + left. destruct (hthread_call t) as [[|c| | | |]|] eqn:Htc; try done.
      eexists. split; [by eapply handler_enters|]. intros c1 c2. cbn. by rewrite Hf.
  - left. eexists. split; [by eapply handler_calls|]. specialize (Hnr (y_inside y)). by destruct y.
Qed.

(** No reachable state is a deadlock. *)
Lemma system_moves (y : system D) :
  system_ok y → y_fault y = None → (∃ code, y_main y = MExited code) ∨ ∃ y', move y y'.
Proof.
  intros Hy Hf. pose proof Hy as [Hd Hts Hmt _].
  destruct (main_progress (y_running y) (y_store y) _ _ (Hmt Hf))
    as [?|[(j & t & _ & Ht & Htd)|(d' & ts' & m' & Hs)]]; [by left|right..].
  - destruct (handler_unhindered y j t Hy Hf Ht Htd) as [(y' & Hm & _)|(i & _ & Hi & _)].
    + exists y'. by eapply move_handler.
    + destruct (inside_leaves y i Hy Hf Hi) as (y' & Hm & _). exists y'. by eapply move_handler.
  - eexists. by eapply move_main.
Qed.

Lemma system_progress (y : system D) :
  system_ok y → y_fault y = None → (∀ y', ¬ move y y') → ∃ code, y_main y = MExited code.
Proof. intros Hy Hf Hstuck. destruct (system_moves y Hy Hf) as [?|[y' Hm]]; [done|]. by destruct (Hstuck y'). Qed.

(** ** Properties *)

(** C2 (termination): once SIGINT has set [running] to [false], the server makes at most
    [16 * k + 22] more steps, [k] being the number of threads it has started; a call is one
    step, and an operation of the store two.  If it can make no step any more and the process
    has not been ended otherwise, [main] has returned. *)
Theorem shutdown argv (y : system D) :
  y_fault (init_system (D:=D) argv) = None → reachable argv y →
  y_fault y = None → y_running y = false →
  (∀ n y', nsteps move n y y' → (n ≤ 16 * length (y_threads y) + 22)%nat) ∧
  (∀ y', rtc move y y' → y_fault y' = None → (∀ y'', ¬ move y' y'') → ∃ code, y_main y' = MExited code).
Proof.
  intros Hi Hr Hf Hrun. pose proof (init_system_ok argv Hi) as Hinit.
  destruct (steps_ok _ y Hinit Hr) as [Hy _]. split.
  - destruct (bounded_budget y (ok_inside y Hy) (steps_bounded _ y Hinit (init_bounded argv) Hr) Hf) as (n0 & Hn0 & Hb0).
    enough (∀ n y', nsteps move n y y' → (n ≤ n0)%nat) as He by (intros n y' Hn; specialize (He n y' Hn); lia).
    clear Hr Hn0. intros n. revert y n0 Hf Hrun Hy Hb0.
    induction n as [|n IH]; intros y n0 Hf Hrun Hy Hb y' Hn; [lia|].
    inversion Hn as [|? ? y1 ? Hmv Hn']; subst.
    destruct (move_budget _ _ _ Hy Hrun Hb Hmv) as (Hpos & Hrun1 & Hnext).
    destruct (move_ok _ _ Hy Hmv) as [Hy1 _].
    destruct (y_fault y1) eqn:Hf1.
    + destruct n as [|n]; [lia|]. inversion Hn' as [|? ? y2 ? Hmv2 _]; subst.
      destruct Hmv2; congruence.
    + destruct (Hnext eq_refl) as (n1 & Hlt & Hb1).
      specialize (IH y1 n1 Hf1 Hrun1 Hy1 Hb1 y' Hn'). lia.
  - intros y' Hs Hf' Hstuck. assert (system_ok y') as Hy'.
    { clear -Hy Hs H0. induction Hs as [y|y y1 y2 Hmv _ IH]; [done|]. apply IH.
      by destruct (move_ok _ _ Hy Hmv). }
    by apply system_progress.
Qed.

End budget.


Lemma shutdown_witness :
  ∃ y : system users_map, reachable server_argv y ∧ y_running y = false ∧
    length (y_threads y) = 1%nat ∧ ∀ n y', nsteps move n y y' → (n ≤ 38)%nat.
Proof.
  destruct (run_server_check (start_events ++ accept_events 4 ++ receive_events 0 b#"LOGOUT " ++ [ESigint])
    (λ y, bool_decide (y_fault y = None) && negb (y_running y) && bool_decide (length (y_threads y) = 1%nat)))
    as (y & Hy & HP); [vm_compute; reflexivity|].
  apply andb_true_iff in HP as [[Hf%bool_decide_eq_true Hr%negb_true_iff]%andb_true_iff
    Hl%bool_decide_eq_true].
  exists y. do 3 (split; [done|]).
  destruct (shutdown server_argv y) as [Hb _]; [done|done|done|done|].
  intros n y' Hn. specialize (Hb n y' Hn). rewrite Hl in Hb. exact Hb.
Defined.
