(* ===== verification/Peer.v ===== *)
(** * Peer: the environment of the programs with a peer connection
      ([src/client.cpp], [src/offerer.cpp], [src/answerer.cpp], [src/simple_*.cpp])

    These programs share the network, the console, flags and strings that other threads
    write, and libdatachannel.  Each of these is a [peer_call]; a thread is a [prog]
    of such calls.  libdatachannel is compiled code: a call to it returns or throws, as
    the environment chooses; the callbacks that the programs register with it are the
    functions [on_gathering_complete], [on_local_candidate] and [relay]. *)

From S2P Require Import Prelude CString Prog Net JsonValue JsonParser JsonDump.

(** ** Calls *)

(** Extraction from [std::cin].  [None]: the stream is at its end or in a failed state,
    and the variable keeps its value. *)
Inductive cin_call :=
| CinWord        (** [cin >> std::string] and [cin >> char*] *)
| CinInt         (** [cin >> int] *)
| CinChar        (** [cin >> char] *)
| CinLine.       (** [getline] *)

Definition cin_result (c : cin_call) : Type :=
  match c with CinInt => option Z | _ => option bytes end.

(** A word has no white space and is not empty; an [int] is in range. *)
Definition cin_ok (c : cin_call) : cin_result c → Prop :=
  match c with
  | CinWord => λ r, match r with Some w => w ≠ [] ∧ forallb not_space w = true | None => True end
  | CinInt => λ r, match r with Some z => in_int z = true | None => True end
  | CinChar => λ r, match r with Some w => blen w = 1 | None => True end
  | CinLine => λ r, match r with Some w => LF ∉ w | None => True end
  end.

Inductive rtc_call :=
| RInitLogger
| RPeerConnection (iceServers : list bytes)
| RAddTrack (mid : bytes) (direction : bytes)
| RCreateDataChannel (label : bytes)
| RDescription (sdp type : bytes)
| RSetLocalDescription (type : bytes)
| RSetRemoteDescription (sdp type : bytes)
| RCandidate (candidate : bytes)
| RAddRemoteCandidate (candidate : bytes)
| RDataChannelSend (message : bytes)
| RSetMediaHandler
| ROnMessage
| RTrackSend (data : bytes)
| RIsOpen.

(** [None]: the library throws. *)
Definition rtc_result (c : rtc_call) : Type :=
  match c with RIsOpen => bool | _ => option unit end.

Inductive peer_call :=
| PNet (c : net_call)
| PCin (c : cin_call)
| PRtc (c : rtc_call)
| PRunning                  (** [running.load()] *)
| PLocalSdp                 (** the string the gathering callback assigns *)
| PSdpGenerated             (** the flag it sets *)
| PLocalCandidates          (** the vector the candidate callback fills *)
| PSigaction
| PKill                     (** [kill(getpid(), SIGINT)] *)
| PSpawn (port : Z)         (** [std::thread(&server_handler, port, pc)] *)
| PJoin
| PSleep (seconds : Z).

Definition peer_result (c : peer_call) : Type :=
  match c with
  | PNet c => net_result c
  | PCin c => cin_result c
  | PRtc c => rtc_result c
  | PRunning | PSdpGenerated => bool
  | PLocalSdp => bytes
  | PLocalCandidates => list bytes
  | PSigaction | PKill => Z
  | PSpawn _ | PJoin | PSleep _ => unit
  end.

(** What the environment promises of its answers. *)
Definition peer_ok (c : peer_call) : peer_result c → Prop :=
  match c with
  | PNet c => net_ok c
  | PCin c => cin_ok c
  | _ => λ _, True
  end.

Abbreviation pprog := (prog peer_result).

Definition pcall (c : peer_call) : pprog (peer_result c) := call (result:=peer_result) c.
Definition pnet (c : net_call) : pprog (net_result c) := pcall (PNet c).
Definition pcin (c : cin_call) : pprog (cin_result c) := pcall (PCin c).

(** A call to the library that returns nothing. *)
Definition or_throw (r : option unit) : pprog unit :=
  match r with Some _ => mret tt | None => Raise ExLibrary end.
Definition rtc_init_logger : pprog unit := r ← pcall (PRtc RInitLogger); or_throw r.
Definition rtc_peer_connection (iceServers : list bytes) : pprog unit :=
  r ← pcall (PRtc (RPeerConnection iceServers)); or_throw r.
Definition rtc_add_track (mid direction : bytes) : pprog unit :=
  r ← pcall (PRtc (RAddTrack mid direction)); or_throw r.
Definition rtc_create_data_channel (label : bytes) : pprog unit :=
  r ← pcall (PRtc (RCreateDataChannel label)); or_throw r.
Definition rtc_description (sdp type : bytes) : pprog unit :=
  r ← pcall (PRtc (RDescription sdp type)); or_throw r.
Definition rtc_set_local_description (type : bytes) : pprog unit :=
  r ← pcall (PRtc (RSetLocalDescription type)); or_throw r.
Definition rtc_set_remote_description (sdp type : bytes) : pprog unit :=
  r ← pcall (PRtc (RSetRemoteDescription sdp type)); or_throw r.
Definition rtc_candidate (candidate : bytes) : pprog unit :=
  r ← pcall (PRtc (RCandidate candidate)); or_throw r.
Definition rtc_add_remote_candidate (candidate : bytes) : pprog unit :=
  r ← pcall (PRtc (RAddRemoteCandidate candidate)); or_throw r.
Definition rtc_data_channel_send (message : bytes) : pprog unit :=
  r ← pcall (PRtc (RDataChannelSend message)); or_throw r.
Definition rtc_set_media_handler : pprog unit := r ← pcall (PRtc RSetMediaHandler); or_throw r.
Definition rtc_on_message : pprog unit := r ← pcall (PRtc ROnMessage); or_throw r.
Definition rtc_track_send (data : bytes) : pprog unit :=
  r ← pcall (PRtc (RTrackSend data)); or_throw r.
Definition rtc_is_open : pprog bool := pcall (PRtc RIsOpen).

(** A C string and its terminator: [s.c_str()]. *)
Definition c_str (s : bytes) : bytes := s ++ [NUL].

(** [std::cout << array]. *)
Definition pcout (array : bytes) : pprog unit := _ ← lift_c (cstr array); mret tt.

(** A JSON operation that may throw. *)
Definition lift_json {A} (r : A + exn) : pprog A :=
  match r with inl a => mret a | inr e => Raise e end.

(** [j[key].get<std::string>()]: the string, and [j] after the access. *)
Definition get_member (j : json) (key : bytes) : (bytes * json) + exn :=
  match subscript j key with
  | inr e => inr e
  | inl (v, j') => match get_string v with inl s => inl (s, j') | inr e => inr e end
  end.

(** ** Callbacks *)

(** The message of a description: [{{"type", typeString}, {"sdp", description}}]. *)
Definition description_message (typeString sdp : bytes) : json :=
  json_of_list [json_of_list [JString b#"type"; JString typeString];
                json_of_list [JString b#"sdp"; JString sdp]].

(** The gathering callback: what it prints and stores, or what it throws. *)
Definition on_gathering_complete `{FloatText} (typeString sdp : bytes) : dres bytes :=
  let message := description_message typeString sdp in
  _ ← json_to_string message;
  json_to_string message.

(** The candidate callback. *)
Definition on_local_candidate (candidate : bytes) (local_candidates : list bytes) : list bytes :=
  local_candidates ++ [candidate].

(** ** The RTP header *)

Definition RTP_HEADER_SIZE : Z := 12.

(** [RtpHeader::setSsrc], compiled code that rewrites the header of a packet. *)
Class SetSsrc := setSsrc : Z → bytes → bytes.

(** The body shared by the loops that send a received packet on the track: [len] bytes of
    [buffer]; the array after it. *)
Definition send_packet `{SetSsrc} (ssrc : Z) (buffer : bytes) (len : Z) : pprog bytes :=
  if len <? RTP_HEADER_SIZE then mret buffer else
  open ← rtc_is_open;
  if negb open then mret buffer else
  let buffer := setSsrc ssrc buffer in
  rtc_track_send (take (Z.to_nat len) buffer);;
  mret buffer.

(** The array handed to [send] or to the console as a C string. *)
Definition cstr_of (s : bytes) : bytes := default [] (match cstr (c_str s) with Def t => Some t | UB _ => None end).

(** [rtc::Description(j["sdp"].get<std::string>(), j["type"].get<std::string>())]: the
    arguments; compilers may evaluate them in either order, which only decides which
    of two equal exceptions is thrown. *)
Definition description_of (j : json) : (bytes * bytes) + exn :=
  match get_member j b#"sdp" with
  | inr e => inr e
  | inl (sdp, j) => match get_member j b#"type" with inr e => inr e | inl (type, _) => inl (sdp, type) end
  end.

(** ** A concrete environment

    One incoming stream of bytes, read in pieces as large as asked for; a console; what the
    callbacks have stored; a library that never throws. *)

Record peer_world := mkPeerWorld {
  incoming : bytes;
  console : list bytes;
  is_running : bool;
  stored_sdp : bytes;
  stored_candidates : list bytes;
  calls : list peer_call
}.

Definition net_stream (c : net_call) (s : bytes) : net_result c * bytes :=
  match c return net_result c * bytes with
  | NRecv _ n => (RecvBytes (take (Z.to_nat n) s), drop (Z.to_nat n) s)
  | NSend _ data | NSendTo _ data _ _ _ => (blen data, s)
  | NClose _ => (tt, s)
  | NInetPton _ => (1, s)
  | NSocket _ => (3, s)
  | NAccept _ => (4, s)
  | _ => (0, s)
  end.

Definition cin_next (c : cin_call) (lines : list bytes) : cin_result c :=
  match c return cin_result c with
  | CinInt => s ← head lines; r ← scan_int s; Some r.1
  | _ => head lines
  end.

Definition stream_env (c : peer_call) (w : peer_world) : peer_result c * peer_world :=
  let keep inc con run :=
    mkPeerWorld inc con run (stored_sdp w) (stored_candidates w) (calls w ++ [c]) in
  let same := keep (incoming w) (console w) (is_running w) in
  match c return peer_result c * peer_world with
  | PNet nc => let '(r, s) := net_stream nc (incoming w) in (r, keep s (console w) (is_running w))
  | PCin cc => (cin_next cc (console w), keep (incoming w) (tail (console w)) (is_running w))
  | PRtc rc => (match rc return rtc_result rc with RIsOpen => true | _ => Some tt end, same)
  | PRunning => (is_running w, same)
  | PSdpGenerated => (true, same)
  | PLocalSdp => (stored_sdp w, same)
  | PLocalCandidates => (stored_candidates w, same)
  | PSigaction => (0, same)
  | PKill => (0, keep (incoming w) (console w) false)
  | PSpawn _ | PJoin | PSleep _ => (tt, same)
  end.

(** Run a program against [stream_env]. *)
Ltac run_peer :=
  cbn [lift_c lift_json mret prog_mret mbind prog_mbind prog_bind exec stream_env net_stream cin_next
       incoming console is_running stored_sdp stored_candidates calls or_throw negb].
