(* ===== verification/Descriptions.v ===== *)
(** * Descriptions: the JSON text of a session description

    Every program sends its description as [{"sdp":...,"type":...}]: the text, that it
    holds no terminator, and what reading it back gives. *)

From S2P Require Import Prelude CString Prog Net Utf8 JsonValue JsonLexer JsonParser JsonDump.
From S2P Require Import JsonStrings JsonNumbers JsonRoundTrip Peer.

(** The value of a description. *)
Definition description_value (type sdp : bytes) : json :=
  JObject [(b#"sdp", JString sdp); (b#"type", JString type)].

Lemma description_message_value type sdp : description_message type sdp = description_value type sdp.
Proof. reflexivity. Qed.

Lemma utf8_literal (s : string) : forallb (λ c, byteZ c <? 0x80) (str s) = true → utf8_valid (str s).
Proof.
  intros Hs. exists (byteZ <$> str s). induction (str s) as [|c t IH]; [by split|].
  cbn in Hs. apply andb_true_iff in Hs as [Hc Ht]. destruct (IH Ht) as [Hsc Heq]. zify_bools.
  pose proof (byteZ_range c). split.
  - constructor; [|done]. unfold scalar. repeat (apply andb_true_iff; split || apply orb_true_iff; left); blia.
  - cbn. rewrite <- Heq. unfold utf8_encode. destruct (Z.ltb_spec (byteZ c) 0x80); [|lia].
    by rewrite Zbyte_byteZ.
Qed.

Lemma description_printable type sdp :
  utf8_valid type → utf8_valid sdp → printable (description_value type sdp).
Proof.
  intros. apply printable_object; [done|..].
  - apply Forall_cons_2; [|apply Forall_singleton]; by apply utf8_literal.
  - apply Forall_cons_2; [|apply Forall_singleton]; by apply printable_string.
Qed.

Lemma norm_description type sdp : norm (description_value type sdp) = description_value type sdp.
Proof. done. Qed.

(** ** The text holds no terminator *)

Lemma Zbyte_lor_nul k z : Z.testbit k 7 = true → Zbyte (Z.lor k z) ≠ NUL.
Proof.
  intros Hk E. apply (f_equal byteZ) in E. rewrite byteZ_Zbyte in E. change (byteZ NUL) with 0 in E.
  assert (Z.testbit (Z.lor k z mod 2 ^ 8) 7 = true) as Ht
    by (rewrite Z.mod_pow2_bits_low by lia; by rewrite Z.lor_spec, Hk).
  change (2 ^ 8) with 256 in Ht. by rewrite E in Ht.
Qed.

Lemma Zbyte_small_nul z : 0 < z < 256 → Zbyte z ≠ NUL.
Proof.
  intros Hz E. apply (f_equal byteZ) in E. rewrite byteZ_Zbyte, Z.mod_small in E by lia.
  change (byteZ NUL) with 0 in E. lia.
Qed.

Lemma utf8_encode_no_nul cp : 0 < cp → no_nul (utf8_encode cp) = true.
Proof.
  intros Hcp. unfold utf8_encode. repeat case_match; zify_bools;
    repeat (apply no_nul_cons; split); try reflexivity; try (by apply Zbyte_lor_nul).
  apply Zbyte_small_nul. lia.
Qed.

Lemma lower_hex_nul z : lower_hex (z mod 16) ≠ NUL.
Proof.
  pose proof (Z.mod_pos_bound z 16 ltac:(lia)). unfold lower_hex.
  destruct (Z.ltb_spec (z mod 16) 10); apply Zbyte_small_nul; lia.
Qed.

Lemma u_escape_no_nul z : no_nul (u_escape z) = true.
Proof. unfold u_escape. repeat (apply no_nul_cons; split); try done; apply lower_hex_nul. Qed.

Lemma escape_cp_no_nul ensure_ascii cp : scalar cp = true → no_nul (escape_cp ensure_ascii cp) = true.
Proof.
  intros Hcp. assert (0 ≤ cp) by (unfold scalar in Hcp; apply orb_true_iff in Hcp as [?|?]; split_bools; lia).
  unfold escape_cp. destruct (Z.ltb_spec cp 0x80) as [Hlow|Hhigh]; cbn [orb].
  - destruct (decide (cp ∈ short_escapes)) as [Hin|Hin].
    { repeat (apply elem_of_cons in Hin as [->|Hin]; [reflexivity|]). by apply not_elem_of_nil in Hin. }
    destruct (escape_low ensure_ascii cp) as [[-> _]|[-> ?]]; [done..|apply u_escape_no_nul|].
    apply utf8_encode_no_nul. lia.
  - destruct ensure_ascii; [|apply utf8_encode_no_nul; lia].
    destruct (escape_ascii cp Hhigh) as [[-> _]|[-> _]]; [apply u_escape_no_nul|].
    by rewrite no_nul_app, !u_escape_no_nul.
Qed.

Lemma escaped_no_nul ensure_ascii cps :
  Forall (λ cp, scalar cp = true) cps → no_nul (escaped ensure_ascii cps) = true.
Proof.
  induction 1 as [|cp cps Hcp _ IH]; [done|]. unfold escaped in *. cbn.
  by rewrite no_nul_app, escape_cp_no_nul, IH.
Qed.

(** ** The text *)

(** The text of the description whose fields have the given escaped texts. *)
Definition description_text (type sdp : bytes) : bytes :=
  b#"{" ++ QUOTED b#"sdp" ++ b#":" ++ QUOTED sdp ++ b#"," ++ QUOTED b#"type" ++ b#":" ++ QUOTED type ++ b#"}".

Lemma description_to_string `{FloatText} type sdp :
  Forall (λ cp, scalar cp = true) type → Forall (λ cp, scalar cp = true) sdp →
  json_to_string (description_message (decoded type) (decoded sdp))
  = DOk (description_text (escaped false type) (escaped false sdp)).
Proof.
  intros Ht Hs. rewrite description_message_value. unfold json_to_string, json_dump, description_value.
  change (0 <=? -1) with false. cbn iota. cbn [dump dump_items]. unfold dump_key.
  change (dump_escaped strict false b#"sdp") with (DOk b#"sdp").
  change (dump_escaped strict false b#"type") with (DOk b#"type").
  cbn [mbind dres_bind mret dres_ret]. rewrite !dump_escaped_decoded by done.
  cbn [mbind dres_bind mret dres_ret write output indent_string].
  unfold mret, dres_ret. f_equal. unfold description_text, QUOTED. cbn [app str].
  rewrite <- !app_assoc. cbn [app]. by rewrite <- !app_assoc.
Qed.

Lemma no_nul_quoted s : no_nul s = true → no_nul (QUOTED s) = true.
Proof. intros Hs. unfold QUOTED. change (QUOTE :: s ++ [QUOTE]) with ([QUOTE] ++ s ++ [QUOTE]). by rewrite !no_nul_app, Hs. Qed.

(** What the programs rely on: the text is a C string that every program reads back, in
    a receive buffer too. *)
Lemma description_text_spec `{FloatText} type sdp :
  utf8_valid type → utf8_valid sdp →
  ∃ text, json_to_string (description_message type sdp) = DOk text ∧ no_nul text = true ∧
    ∀ rest, ends_input rest = true → json_parse (text ++ rest) = inl (description_value type sdp).
Proof.
  intros Ht Hs.
  destruct (json_parse_dump (description_value type sdp) (-1) SPC false strict) as (text & Hd & Hp);
    [by apply description_printable|done|done|].
  exists text. split; [exact Hd|]. rewrite norm_description in Hp. split; [|exact Hp].
  destruct Ht as (ct & Hct & ->), Hs as (cs & Hcs & ->).
  change (json_to_string (description_message (decoded ct) (decoded cs)) = DOk text) in Hd.
  rewrite description_to_string in Hd by done. injection Hd as <-.
  unfold description_text. rewrite !no_nul_app, !no_nul_quoted by (done || by apply escaped_no_nul).
  done.
Qed.

Lemma ends_input_zeros n : ends_input (zeros n) = true.
Proof. unfold zeros. by destruct (Z.to_nat n). Qed.
