(* ===== verification/Client.v ===== *)
(** * Client: the program of a user ([src/client.cpp])

    Three threads share the program's globals: the menu ([open_menu], in [main]), the
    listener ([server_handler]) and the callbacks of libdatachannel.  The globals that
    only the menu uses are the record [menu]; [running] and [local_sdp], which other
    threads write, are read through the environment.  [remote_sdp] is only used by the
    round of the listener that assigns it. *)

From S2P Require Import Prelude CString Prog Net JsonValue JsonParser JsonDump Peer.

Record menu := mkMenu {
  username : bytes;
  password : bytes;
  server_disconnected : bool;
  exit_selected : bool;
  isLogin : bool
}.

#[export] Instance menu_eq_dec : EqDecision menu.
Proof. solve_decision. Defined.

Definition init_menu : menu := mkMenu [] [] false false false.

Definition set_credentials (u p : bytes) (m : menu) : menu :=
  mkMenu u p (server_disconnected m) (exit_selected m) (isLogin m).
Definition set_server_disconnected (b : bool) (m : menu) : menu :=
  mkMenu (username m) (password m) b (exit_selected m) (isLogin m).
Definition set_exit_selected (b : bool) (m : menu) : menu :=
  mkMenu (username m) (password m) (server_disconnected m) b (isLogin m).
Definition set_isLogin (b : bool) (m : menu) : menu :=
  mkMenu (username m) (password m) (server_disconnected m) (exit_selected m) b.

(** [memset] and [strncpy(message, s.c_str(), strlen(s.c_str()))]. *)
Definition message_of (s : bytes) : cres bytes :=
  n ← strlen (c_str s);
  strncpy (zeros SOCKET_BUFFER_SIZE) (c_str s) n.

(** What the three requests with an answer share, from the [memset] of [message] to the
    line that prints the answer: [None] for an early return. *)
Definition exchange (client_socket : Z) (request : bytes) (m : menu) : pprog (option menu) :=
  message ← lift_c (message_of request);
  r ← pnet (NSend client_socket message);
  if (r : Z) =? -1 then mret None else
  rcv ← pnet (NRecv client_socket SOCKET_BUFFER_SIZE);
  if recv_count rcv =? -1 then mret None else
  let buffer := recv_into rcv (zeros SOCKET_BUFFER_SIZE) in
  n ← lift_c (strlen buffer);
  let m := if n =? 0 then set_server_disconnected true m else m in
  pcout buffer;;
  mret (Some m).

Definition sign_up_login_user (client_socket option : Z) (m : menu) : pprog menu :=
  u ← pcin CinWord;
  let m := set_credentials (default (username m) u) (password m) m in
  p ← pcin CinWord;
  let m := set_credentials (username m) (default (password m) p) m in
  let state := if option =? 1 then b#"SIGNUP" else b#"LOGIN" in
  let register_request := state ++ b#" " ++ username m ++ b#" " ++ password m in
  r ← exchange client_socket register_request m;
  match r with
  | None => mret m
  | Some m => mret (set_isLogin true (set_exit_selected false m))
  end.

Definition logout_user (client_sock : Z) (user : bytes) (m : menu) : pprog menu :=
  r ← exchange client_sock (b#"LOGOUT " ++ user) m;
  match r with
  | None => mret m
  | Some m => mret (set_isLogin false m)
  end.

Definition exit_user (client_sock : Z) (m : menu) : pprog menu :=
  m ← (if bool_decide (username m = []) then mret m else logout_user client_sock (username m) m);
  r ← exchange client_sock b#"EXIT EXIT" m;
  match r with
  | None => mret m
  | Some m => mret (set_exit_selected true m)
  end.

Definition call_peer (client_sock : Z) : pprog unit :=
  w ← pcin CinWord;
  peer_username ← lift_c (match w with Some w => store_cstr (zeros 50) w | None => Def (zeros 50) end);
  local_sdp ← pcall PLocalSdp;
  peer ← lift_c (cstr peer_username);
  sdp ← lift_c (cstr (c_str local_sdp));
  message ← lift_c (sprintf (zeros SOCKET_BUFFER_SIZE) "CALL %s %s" [VStr peer; VStr sdp]);
  pnet (NSend client_sock message);;
  mret tt.

(** The [switch]. *)
Definition menu_switch (client_sock option : Z) (m : menu) : pprog menu :=
  if (option =? 1) || (option =? 2) then sign_up_login_user client_sock option m
  else if option =? 3 then (if isLogin m then call_peer client_sock else mret tt);; mret m
  else if option =? 4 then logout_user client_sock (username m) m
  else if option =? 5 then exit_user client_sock m
  else mret m.

(** One round of [open_menu]. *)
Definition menu_body (client_sock : Z) (m : menu) : pprog (ctl menu) :=
  o ← pcin CinInt;
  let option := default (-1) o in
  go ← pcall PRunning;
  if negb (go : bool) then (if exit_selected m then mret (Break m) else Halt client_sock) else
  if server_disconnected m then mret (Break m) else
  m ← menu_switch client_sock option m;
  if server_disconnected m then mret (Break m) else
  if option =? 5 then pcall PKill;; mret (Break m) else
  mret (Continue m).

(** ** [server_handler] *)

(** Up to [accept]: the descriptor of the connection, if there is one. *)
Definition listener_setup (port : Z) : pprog (option Z) :=
  server_socket ← pnet (NSocket false);
  if (server_socket : Z) =? -1 then mret None else
  r ← pnet (NSetsockopt server_socket);
  if (r : Z) =? -1 then mret None else
  r ← pnet (NBind server_socket INADDR_ANY (htons port));
  if (r : Z) =? -1 then mret None else
  r ← pnet (NListen server_socket);
  if (r : Z) =? -1 then mret None else
  client_socket ← pnet (NAccept server_socket);
  go ← pcall PRunning;
  if negb (go : bool) then mret None else
  if (client_socket : Z) =? -1 then mret None else
  mret (Some client_socket).

(** The caller's name, as printed, and the SDP of an INVITE. *)
Definition scan_invite (buffer : bytes) : cres (bytes * bytes) :=
  vs ← sscanf buffer "INVITE %s";
  remote_side_user ← store_str (zeros 50) (vs !! 0%nat);
  user ← cstr remote_side_user;
  let len := 6 + 1 + blen user + 1 in
  n ← strlen buffer;
  src ← from_index buffer len;
  remote_side_sdp ← strncpy (zeros SOCKET_BUFFER_SIZE) src (wrap 64 (n - len));
  sdp ← cstr remote_side_sdp;
  mret (user, sdp).

Definition on_invite (client_socket : Z) (buffer : bytes) : pprog unit :=
  pcout buffer;;
  '(_, remote_sdp) ← lift_c (scan_invite buffer);
  j0 ← lift_json (json_parse remote_sdp);
  '(description, _) ← lift_json (get_member j0 b#"description");
  rtc_description description b#"offer";;
  rtc_set_remote_description description b#"offer";;
  rtc_set_local_description b#"answer";;
  local_sdp ← pcall PLocalSdp;
  sdp ← lift_c (cstr (c_str local_sdp));
  answer_to_call ← lift_c (sprintf (zeros SOCKET_BUFFER_SIZE) "ACCEPT %s" [VStr sdp]);
  pnet (NSend client_socket answer_to_call);;
  mret tt.

Definition scan_accept (buffer : bytes) : cres bytes :=
  let len := 6 + 1 in
  n ← strlen buffer;
  src ← from_index buffer len;
  remote_sdp_char ← strncpy (zeros SOCKET_BUFFER_SIZE) src (wrap 64 (n - len));
  cstr remote_sdp_char.

Definition on_accept (buffer : bytes) : pprog unit :=
  remote_sdp ← lift_c (scan_accept buffer);
  j ← lift_json (json_parse remote_sdp);
  rtc_set_local_description b#"offer";;
  '(description, _) ← lift_json (get_member j b#"description");
  rtc_description description b#"answer";;
  rtc_set_remote_description description b#"answer".

(** One round of the listener's loop. *)
Definition listener_body (client_socket : Z) (_ : unit) : pprog (ctl unit) :=
  go ← pcall PRunning;
  if negb (go : bool) then mret (Break tt) else
  rcv ← pnet (NRecv client_socket SOCKET_BUFFER_SIZE);
  if recv_count rcv =? -1 then mret (Break tt) else
  let buffer := recv_into rcv (zeros SOCKET_BUFFER_SIZE) in
  n ← lift_c (strlen buffer);
  if n =? 0 then mret (Break tt) else
  is_exit ← lift_c (starts_with buffer "EXIT" 4);
  if (is_exit : bool) then mret (Break tt) else
  is_invite ← lift_c (starts_with buffer "INVITE" 6);
  is_accept ← (if (is_invite : bool) then mret false else lift_c (starts_with buffer "ACCEPT" 6));
  (if (is_invite : bool) then on_invite client_socket buffer
   else if (is_accept : bool) then on_accept buffer else mret tt);;
  go ← pcall PRunning;
  if negb (go : bool) then mret (Break tt) else mret (Continue tt).

Definition listener_end (client_socket : Z) : pprog unit := pnet (NClose client_socket);; mret tt.

(** ** [media_handler] *)

Definition MEDIA_BUFFER : Z := 2048.

(** The sockets, and the arrays, whose contents are whatever the stack held. *)
Definition media_setup : pprog (Z * Z) :=
  input_socket ← pnet (NSocket true);
  output_socket ← pnet (NSocket true);
  rtc_set_media_handler;;
  mret (input_socket, output_socket).

(** One round of the loop: a packet is received into [buffer] or, when that fails,
    [buffer2] is sent. *)
Definition media_body `{SetSsrc} (input_socket output_socket : Z) (buffer2 buffer : bytes)
    : pprog (ctl bytes) :=
  rcv ← pnet (NRecv input_socket MEDIA_BUFFER);
  if 0 <=? recv_count rcv then
    buffer ← send_packet 42 (recv_into rcv buffer) (recv_count rcv);
    mret (Continue buffer)
  else
    len ← pnet (NSend output_socket buffer2);
    if 0 <=? (len : Z) then buffer ← send_packet 42 buffer len; mret (Continue buffer)
    else mret (Break buffer).

(** [INADDR_LOOPBACK] as [inet_addr("127.0.0.1")] returns it, and what a 16-bit
    [sin_family] keeps of it. *)
Definition LOOPBACK : Z := 0x0100007F.

Definition media_end : pprog unit := rtc_on_message.

(** The callback given to [onMessage]. *)
Definition relay (output_socket : Z) (message : bytes) : pprog unit :=
  pnet (NSendTo output_socket message (wrap 16 LOOPBACK) INADDR_ANY (htons 6000));;
  mret tt.

(** ** [main] *)

Definition send_ip_and_port_to_server (client_socket : Z) (client_address : bytes) (client_port : Z)
    : pprog Z :=
  addr ← lift_c (cstr client_address);
  message ← lift_c (sprintf (zeros SOCKET_BUFFER_SIZE) "CLIENT %s %d" [VStr addr; VInt client_port]);
  pnet (NSend client_socket message).

Definition lift_stoi (r : stoi_result) : pprog Z :=
  match r with
  | StoiInvalidArgument => Raise ExInvalidArgument
  | StoiOutOfRange => Raise ExOutOfRange
  | StoiOk z => mret z
  end.

(** Up to the call of [media_handler]: an exit code, or the connected socket and the port
    of the listener. *)
Definition main_setup (argv : list bytes) : pprog (Z + Z * Z) :=
  match argv with
  | [_; server_address; server_port; client_address; client_port] =>
      rtc_init_logger;;
      rtc_peer_connection [];;
      rtc_add_track b#"video" b#"SendRecv";;
      r ← pcall PSigaction;
      if (r : Z) =? -1 then mret (inl 1) else
      server_port ← lift_stoi (stoi server_port);
      client_port ← lift_stoi (stoi client_port);
      client_socket ← pnet (NSocket false);
      if (client_socket : Z) =? -1 then mret (inl 1) else
      r ← pnet (NInetPton server_address);
      if negb ((r : Z) =? 1) then mret (inl 1) else
      r ← pnet (NConnect client_socket server_address (htons server_port));
      if (r : Z) =? -1 then mret (inl 1) else
      r ← send_ip_and_port_to_server client_socket (c_str client_address) client_port;
      if r =? -1 then pnet (NClose client_socket);; mret (inl (-1)) else
      mret (inr (client_socket, client_port))
  | _ => mret (inl 1)
  end.

(** After the menu. *)
Definition main_end (client_socket : Z) : pprog Z :=
  pnet (NClose client_socket);;
  pcall PJoin;;
  mret 0.

(** The whole of [main] against a deterministic environment: [media_handler], the start of
    the listener, the menu and the end, in this order.  [buffer] and [buffer2] are the
    uninitialised arrays. *)
Section main.
Context `{SetSsrc} {S : Type} (env : ∀ c : peer_call, S → peer_result c * S) (fuel : nat).

Definition then_exec {A B} (r : option (outcome A * S)) (k : A → S → option (outcome B * S))
    : option (outcome B * S) :=
  match r with
  | None => None
  | Some (Done a, s) => k a s
  | Some (Threw e, s) => Some (Threw e, s)
  | Some (Undefined u, s) => Some (Undefined u, s)
  | Some (Exited c, s) => Some (Exited c, s)
  end.

Definition media_handler (buffer buffer2 : bytes) (s : S) : option (outcome unit * S) :=
  then_exec (Some (exec env media_setup s)) (λ '(input_socket, output_socket) s,
  then_exec (exec_loop env fuel (media_body input_socket output_socket buffer2) buffer s) (λ _ s,
  Some (exec env media_end s))).

Definition open_menu (client_sock : Z) (m : menu) (s : S) : option (outcome menu * S) :=
  exec_loop env fuel (menu_body client_sock) m s.

Definition server_handler (port : Z) (s : S) : option (outcome unit * S) :=
  then_exec (Some (exec env (listener_setup port) s)) (λ r s,
  match r with
  | None => Some (Done tt, s)
  | Some client_socket =>
      then_exec (exec_loop env fuel (listener_body client_socket) tt s) (λ _ s,
      Some (exec env (listener_end client_socket) s))
  end).

Definition main (argv : list bytes) (buffer buffer2 : bytes) (s : S) : option (outcome Z * S) :=
  then_exec (Some (exec env (main_setup argv) s)) (λ r s,
  match r with
  | inl code => Some (Done code, s)
  | inr (client_socket, client_port) =>
      then_exec (media_handler buffer buffer2 s) (λ _ s,
      then_exec (Some (exec env (pcall (PSpawn client_port)) s)) (λ _ s,
      then_exec (open_menu client_socket init_menu s) (λ _ s,
      Some (exec env (main_end client_socket) s))))
  end).
End main.
