(* ===== verification/ClientSpec.v ===== *)
(** * ClientSpec: what the client does with the server's messages

    The rounds of the listener on the messages the server forwards, the menu, and the
    texts the client sends, as functions of what the environment answers. *)

From S2P Require Import Prelude CString Prog Net JsonValue JsonParser JsonDump JsonRoundTrip.
From S2P Require Import ServerSpec Peer Descriptions Utf8 Client.

(** ** The texts it sends *)

Lemma cstr_c_str s : no_nul s = true → cstr (c_str s) = Def s.
Proof. apply (cstr_nul s []). Qed.

Lemma message_of_packet s :
  no_nul s = true → blen s ≤ SOCKET_BUFFER_SIZE → message_of s = Def (packet s).
Proof.
  intros Hs Hb. unfold message_of, strlen, c_str. rewrite cstr_nul by done. cbn [mbind cres_bind mret cres_ret].
  by rewrite strncpy_zeros.
Qed.

(** A longer text overflows the array. *)
Lemma message_of_overflow s :
  no_nul s = true → SOCKET_BUFFER_SIZE < blen s → message_of s = UB UB_buffer_overflow.
Proof.
  intros Hs Hb. unfold message_of, strlen, c_str. rewrite cstr_nul by done. cbn [mbind cres_bind mret cres_ret].
  rewrite strncpy_overflow; [done|]. by rewrite blen_zeros by (unfold SOCKET_BUFFER_SIZE; lia).
Qed.

Definition call_text (peer sdp : bytes) : bytes := b#"CALL " ++ peer ++ b#" " ++ sdp.

Lemma sprintf_call peer sdp :
  sprintf (zeros SOCKET_BUFFER_SIZE) "CALL %s %s" [VStr peer; VStr sdp] =
  if blen (call_text peer sdp) <? SOCKET_BUFFER_SIZE then Def (packet (call_text peer sdp))
  else UB UB_buffer_overflow.
Proof.
  unfold sprintf. replace (print _ _) with (Def (call_text peer sdp)).
  - cbn [mbind cres_bind]. destruct (Z.ltb_spec (blen (call_text peer sdp)) SOCKET_BUFFER_SIZE).
    + by apply store_cstr_zeros.
    + apply store_cstr_overflow. by rewrite blen_zeros by (unfold SOCKET_BUFFER_SIZE; lia).
  - let f := eval vm_compute in (parse_fmt (str "CALL %s %s")) in
    change (parse_fmt (str "CALL %s %s")) with f.
    unfold call_text. cbn [print mbind cres_bind mret cres_ret]. by rewrite app_nil_r.
Qed.

Definition accept_text (sdp : bytes) : bytes := b#"ACCEPT " ++ sdp.

Lemma sprintf_accept sdp :
  sprintf (zeros SOCKET_BUFFER_SIZE) "ACCEPT %s" [VStr sdp] =
  if blen (accept_text sdp) <? SOCKET_BUFFER_SIZE then Def (packet (accept_text sdp))
  else UB UB_buffer_overflow.
Proof.
  unfold sprintf. replace (print _ _) with (Def (accept_text sdp)).
  - cbn [mbind cres_bind]. destruct (Z.ltb_spec (blen (accept_text sdp)) SOCKET_BUFFER_SIZE).
    + by apply store_cstr_zeros.
    + apply store_cstr_overflow. by rewrite blen_zeros by (unfold SOCKET_BUFFER_SIZE; lia).
  - let f := eval vm_compute in (parse_fmt (str "ACCEPT %s")) in
    change (parse_fmt (str "ACCEPT %s")) with f.
    unfold accept_text. cbn [print mbind cres_bind mret cres_ret]. by rewrite app_nil_r.
Qed.

(** ** The messages it receives *)

Definition invite_text (user sdp : bytes) : bytes := b#"INVITE " ++ user ++ b#" " ++ sdp.

Lemma invite_text_blen user sdp : blen (invite_text user sdp) = 6 + 1 + blen user + 1 + blen sdp.
Proof. unfold invite_text. rewrite !blen_app. eval_blen. lia. Qed.

Lemma scan_invite_packet user sdp :
  token user = true → blen user ≤ 49 → no_nul sdp = true →
  blen (invite_text user sdp) < SOCKET_BUFFER_SIZE →
  scan_invite (packet (invite_text user sdp)) = Def (user, sdp).
Proof.
  intros Hu Hlu Hs Hb. pose proof (token_no_nul _ Hu). pose proof (invite_text_blen user sdp) as Hlen.
  assert (no_nul (invite_text user sdp) = true) as Hn by (unfold invite_text; no_nul).
  unfold scan_invite. rewrite sscanf_packet by done.
  change (scan (parse_fmt (str "INVITE %s")) (invite_text user sdp))
    with (scan [FStr] (skip_ws (user ++ b#" " ++ sdp))).
  rewrite skip_ws_token, scan_token; [|done|by cbn; intros ? ? [= <- _]|done].
  cbn [CString.scan mbind cres_bind mret cres_ret lookup list_lookup].
  destruct (store_str_cstr 50 user) as (a & -> & Ha); [done|lia|]. cbn [mbind cres_bind]. rewrite Ha.
  cbn [mbind cres_bind]. unfold strlen. rewrite cstr_packet by done. cbn [mbind cres_bind mret cres_ret].
  assert (packet (invite_text user sdp)
    = (b#"INVITE " ++ user ++ b#" ") ++ sdp ++ zeros (SOCKET_BUFFER_SIZE - blen (invite_text user sdp))) as ->
    by (unfold packet, padded, invite_text; by rewrite <- !app_assoc).
  rewrite from_index_app by (rewrite !blen_app; eval_blen; lia).
  cbn [mbind cres_bind]. pose proof (blen_nonneg user). pose proof (blen_nonneg sdp).
  unfold SOCKET_BUFFER_SIZE in *.
  assert (wrap 64 (blen (invite_text user sdp) - (6 + 1 + blen user + 1)) = blen sdp) as ->
    by (unfold wrap; rewrite Z.mod_small; lia).
  rewrite strncpy_zeros by (done || lia).
  cbn [mbind cres_bind]. by rewrite cstr_padded by (done || lia).
Qed.

Lemma scan_accept_packet sdp :
  no_nul sdp = true → blen (accept_text sdp) < SOCKET_BUFFER_SIZE →
  scan_accept (packet (accept_text sdp)) = Def sdp.
Proof.
  intros Hs Hb. assert (no_nul (accept_text sdp) = true) by (unfold accept_text; no_nul).
  assert (blen (accept_text sdp) = 7 + blen sdp) as Hlen by (unfold accept_text; rewrite blen_app; eval_blen; lia).
  unfold scan_accept, strlen. rewrite cstr_packet by done. cbn [mbind cres_bind mret cres_ret].
  assert (packet (accept_text sdp)
    = b#"ACCEPT " ++ sdp ++ zeros (SOCKET_BUFFER_SIZE - blen (accept_text sdp))) as ->
    by (unfold packet, padded, accept_text; by rewrite <- !app_assoc).
  rewrite from_index_app by (eval_blen; lia). cbn [mbind cres_bind]. pose proof (blen_nonneg sdp).
  unfold SOCKET_BUFFER_SIZE in *.
  assert (wrap 64 (blen (accept_text sdp) - (6 + 1)) = blen sdp) as ->
    by (unfold wrap; rewrite Z.mod_small; lia).
  rewrite strncpy_zeros by (done || lia).
  cbn [mbind cres_bind]. by rewrite cstr_padded by (done || lia).
Qed.

(** What an invitation makes the listener do, given the text after the name. *)
Definition answer_invitation (client_socket : Z) (text : bytes) : pprog unit :=
  j0 ← lift_json (json_parse text);
  '(description, _) ← lift_json (get_member j0 b#"description");
  rtc_description description b#"offer";;
  rtc_set_remote_description description b#"offer";;
  rtc_set_local_description b#"answer";;
  local_sdp ← pcall PLocalSdp;
  sdp ← lift_c (cstr (c_str local_sdp));
  answer_to_call ← lift_c (sprintf (zeros SOCKET_BUFFER_SIZE) "ACCEPT %s" [VStr sdp]);
  pnet (NSend client_socket answer_to_call);;
  mret tt.

Definition use_answer (text : bytes) : pprog unit :=
  j ← lift_json (json_parse text);
  rtc_set_local_description b#"offer";;
  '(description, _) ← lift_json (get_member j b#"description");
  rtc_description description b#"answer";;
  rtc_set_remote_description description b#"answer".

Lemma on_invite_packet client_socket user sdp :
  token user = true → blen user ≤ 49 → no_nul sdp = true →
  blen (invite_text user sdp) < SOCKET_BUFFER_SIZE →
  on_invite client_socket (packet (invite_text user sdp)) = answer_invitation client_socket sdp.
Proof.
  intros Hu Hlu Hs Hb. pose proof (token_no_nul _ Hu). unfold on_invite, pcout.
  rewrite cstr_packet by (done || (unfold invite_text; no_nul)).
  by rewrite scan_invite_packet.
Qed.

Lemma on_accept_packet sdp :
  no_nul sdp = true → blen (accept_text sdp) < SOCKET_BUFFER_SIZE →
  on_accept (packet (accept_text sdp)) = use_answer sdp.
Proof. intros Hs Hb. unfold on_accept. by rewrite scan_accept_packet. Qed.

(** A description has the members "sdp" and "type": there is no "description" to get. *)
Lemma no_description type sdp :
  get_member (description_value type sdp) b#"description" = inr (ExJsonType 302).
Proof. reflexivity. Qed.

(** ** A round of the listener *)

Lemma padded_twice s :
  blen s ≤ SOCKET_BUFFER_SIZE → padded (SOCKET_BUFFER_SIZE * 2) s = packet s ++ zeros SOCKET_BUFFER_SIZE.
Proof.
  intros Hb. unfold packet, padded. rewrite <- app_assoc, <- zeros_add by (unfold SOCKET_BUFFER_SIZE in *; lia).
  do 2 f_equal. lia.
Qed.

(** The first half of an invitation, which the server sends in twice the space. *)
Lemma invitation_first user sdp :
  blen (invite_text user sdp) ≤ SOCKET_BUFFER_SIZE →
  take (Z.to_nat SOCKET_BUFFER_SIZE) (invitation user sdp) = packet (invite_text user sdp) ∧
  drop (Z.to_nat SOCKET_BUFFER_SIZE) (invitation user sdp) = zeros SOCKET_BUFFER_SIZE.
Proof.
  intros Hb. change (invitation user sdp) with (padded (SOCKET_BUFFER_SIZE * 2) (invite_text user sdp)).
  rewrite (padded_twice (invite_text user sdp)) by done.
  assert (length (packet (invite_text user sdp)) = Z.to_nat SOCKET_BUFFER_SIZE) as <-
    by (pose proof (blen_packet _ Hb) as E; unfold blen in E; rewrite <- E; by rewrite Nat2Z.id).
  by rewrite take_app_length, drop_app_length.
Qed.

(** The chain of tests on a received text. *)
Lemma listener_receives {S} (env : ∀ c : peer_call, S → peer_result c * S) client_socket s s1 s2 text :
  env PRunning s = (true, s1) →
  env (PNet (NRecv client_socket SOCKET_BUFFER_SIZE)) s1 = (RecvBytes (packet text), s2) →
  no_nul text = true → 0 < blen text < SOCKET_BUFFER_SIZE →
  exec env (listener_body client_socket tt) s =
  exec env
    (if prefix_test (packet text) b#"EXIT" then mret (Break tt) else
     (if prefix_test (packet text) b#"INVITE" then on_invite client_socket (packet text)
      else if prefix_test (packet text) b#"ACCEPT" then on_accept (packet text) else mret tt);;
     go ← pcall PRunning;
     if negb (go : bool) then mret (Break tt) else mret (Continue tt)) s2.
Proof.
  intros Hrun Hrecv Hn Hb. unfold listener_body, pnet, pcall, call.
  cbn [mbind prog_mbind prog_bind exec]. rewrite Hrun. cbn [negb prog_bind exec].
  cbn [mbind prog_mbind prog_bind exec]. rewrite Hrecv.
  cbn [recv_count]. rewrite blen_packet by lia. change (SOCKET_BUFFER_SIZE =? -1) with false. cbn iota.
  rewrite recv_packet by lia. unfold strlen. rewrite cstr_packet by (done || lia).
  cbn [mbind prog_mbind prog_bind cres_bind mret cres_ret lift_c exec].
  destruct (Z.eqb_spec (blen text) 0); [lia|].
  rewrite !starts_with_packet by (done || lia).
  cbn [mbind prog_mbind prog_bind lift_c]. destruct (prefix_test _ b#"EXIT"); [done|].
  cbn [mbind prog_mbind prog_bind lift_c]. destruct (prefix_test _ b#"INVITE"); [done|].
  cbn [mbind prog_mbind prog_bind lift_c]. done.
Qed.

Section listener.
Context {S : Type} (env : ∀ c : peer_call, S → peer_result c * S).

(** The listener is running and receives [data] next. *)
Definition listens (client_socket : Z) (data : bytes) (s s2 : S) : Prop :=
  ∃ s1, env PRunning s = (true, s1) ∧
        env (PNet (NRecv client_socket SOCKET_BUFFER_SIZE)) s1 = (RecvBytes data, s2).

Lemma invite_round client_socket user sdp s s2 :
  listens client_socket (packet (invite_text user sdp)) s s2 →
  token user = true → blen user ≤ 49 → no_nul sdp = true →
  blen (invite_text user sdp) < SOCKET_BUFFER_SIZE →
  exec env (listener_body client_socket tt) s =
  exec env (answer_invitation client_socket sdp;;
            go ← pcall PRunning;
            if negb (go : bool) then mret (Break tt) else mret (Continue tt)) s2.
Proof.
  intros (s1 & Hrun & Hrecv) Hu Hlu Hs Hb. pose proof (token_no_nul _ Hu).
  pose proof (invite_text_blen user sdp). pose proof (blen_nonneg user). pose proof (blen_nonneg sdp).
  rewrite (listener_receives env client_socket s s1 s2 (invite_text user sdp));
    [|done|done|by unfold invite_text; no_nul|lia].
  change (prefix_test (packet (invite_text user sdp)) b#"EXIT") with false.
  change (prefix_test (packet (invite_text user sdp)) b#"INVITE") with true. cbn iota.
  by rewrite on_invite_packet.
Qed.

Lemma accept_round client_socket sdp s s2 :
  listens client_socket (packet (accept_text sdp)) s s2 →
  no_nul sdp = true → blen (accept_text sdp) < SOCKET_BUFFER_SIZE →
  exec env (listener_body client_socket tt) s =
  exec env (use_answer sdp;;
            go ← pcall PRunning;
            if negb (go : bool) then mret (Break tt) else mret (Continue tt)) s2.
Proof.
  intros (s1 & Hrun & Hrecv) Hs Hb.
  rewrite (listener_receives env client_socket s s1 s2 (accept_text sdp));
    [|done|done|by unfold accept_text; no_nul|].
  - change (prefix_test (packet (accept_text sdp)) b#"EXIT") with false.
    change (prefix_test (packet (accept_text sdp)) b#"INVITE") with false.
    change (prefix_test (packet (accept_text sdp)) b#"ACCEPT") with true. cbn iota.
    by rewrite on_accept_packet.
  - unfold accept_text in *. rewrite blen_app in *. revert Hb. eval_blen. pose proof (blen_nonneg sdp). lia.
Qed.

(** Nothing but zeros, or nothing at all, ends the loop. *)
Lemma listener_zeros client_socket s s2 :
  listens client_socket (zeros SOCKET_BUFFER_SIZE) s s2 →
  exec env (listener_body client_socket tt) s = (Done (Break tt), s2).
Proof.
  intros (s1 & Hrun & Hrecv). unfold listener_body, pnet, pcall, call.
  cbn [mret prog_mret mbind prog_mbind prog_bind exec]. rewrite Hrun. cbn [negb prog_bind exec].
  rewrite Hrecv. cbn [recv_count]. change (blen (zeros SOCKET_BUFFER_SIZE) =? -1) with false. cbn iota.
  change (recv_into (RecvBytes (zeros SOCKET_BUFFER_SIZE)) (zeros SOCKET_BUFFER_SIZE))
    with (recv_into (RecvBytes (packet [])) (zeros SOCKET_BUFFER_SIZE)).
  rewrite recv_packet by done. unfold strlen. by rewrite cstr_packet.
Qed.

(** A call ends the receiving client.  The invitation that the server builds
    from the description a client sends is parsed, but it has no member "description":
    the listener throws [type_error.302], which nothing catches, without having sent
    an answer or used the peer connection. *)
Lemma call_ends_receiver `{FloatText} client_socket user type sdp s s2 :
  utf8_valid type → utf8_valid sdp → token user = true → blen user ≤ 49 →
  ∃ text, json_to_string (description_message type sdp) = DOk text ∧
    (blen (invite_text user text) < SOCKET_BUFFER_SIZE →
     listens client_socket (take (Z.to_nat SOCKET_BUFFER_SIZE) (invitation user text)) s s2 →
     exec env (listener_body client_socket tt) s = (Threw (ExJsonType 302), s2)).
Proof.
  intros Ht Hsdp Hu Hlu. destruct (description_text_spec type sdp Ht Hsdp) as (text & Htext & Hn & Hp).
  exists text. split; [done|]. intros Hb Hl.
  rewrite (proj1 (invitation_first user text ltac:(lia))) in Hl.
  rewrite (invite_round _ user text s s2) by done. unfold answer_invitation.
  pose proof (Hp [] eq_refl) as Hp0. rewrite app_nil_r in Hp0. rewrite Hp0. done.
Qed.

(** Nor can a caller use the answer: whatever the peer connection does, an
    ACCEPT with the description another client sends makes the listener throw, after it
    has set its local description. *)
Lemma accept_ends_caller `{FloatText} client_socket type sdp s s2 :
  utf8_valid type → utf8_valid sdp →
  ∃ text, json_to_string (description_message type sdp) = DOk text ∧
    (blen (accept_text text) < SOCKET_BUFFER_SIZE →
     listens client_socket (packet (accept_text text)) s s2 →
     exec env (listener_body client_socket tt) s =
       let '(r, s3) := env (PRtc (RSetLocalDescription b#"offer")) s2 in
       (Threw (match r with Some _ => ExJsonType 302 | None => ExLibrary end), s3)).
Proof.
  intros Ht Hsdp. destruct (description_text_spec type sdp Ht Hsdp) as (text & Htext & Hn & Hp).
  exists text. split; [done|]. intros Hb Hl.
  rewrite (accept_round _ text s s2) by done. unfold use_answer.
  pose proof (Hp [] eq_refl) as Hp0. rewrite app_nil_r in Hp0. rewrite Hp0.
  cbn [lift_json mbind prog_mbind prog_bind]. unfold rtc_set_local_description, pcall, call.
  cbn [mret prog_mret mbind prog_mbind prog_bind exec].
  destruct (env (PRtc (RSetLocalDescription b#"offer")) s2) as [[[]|] s3];
    cbn [or_throw mret prog_mret mbind prog_mbind prog_bind exec]; [|reflexivity].
  rewrite no_description. reflexivity.
Qed.
End listener.

(** Receiving from a stream that starts with [n] bytes. *)
Lemma stream_recv a b con run sdp cands cs client_socket :
  blen a = SOCKET_BUFFER_SIZE →
  stream_env (PNet (NRecv client_socket SOCKET_BUFFER_SIZE)) (mkPeerWorld (a ++ b) con run sdp cands cs) =
  (RecvBytes a, mkPeerWorld b con run sdp cands (cs ++ [PNet (NRecv client_socket SOCKET_BUFFER_SIZE)])).
Proof.
  intros Ha. unfold stream_env, net_stream. cbn [incoming console is_running stored_sdp stored_candidates calls].
  assert (Z.to_nat SOCKET_BUFFER_SIZE = length a) as -> by (unfold blen in Ha; lia).
  by rewrite take_app_length, drop_app_length.
Qed.

(** An invitation with a description is answered, in this environment. *)
Lemma answer_invitation_run client_socket text j d j' inc con sdp cands cs :
  json_parse text = inl j → get_member j b#"description" = inl (d, j') →
  no_nul sdp = true → blen (accept_text sdp) < SOCKET_BUFFER_SIZE →
  exec stream_env
    (answer_invitation client_socket text;;
     go ← pcall PRunning;
     if negb (go : bool) then mret (Break tt) else mret (Continue tt))
    (mkPeerWorld inc con true sdp cands cs) =
  (Done (Continue tt),
   mkPeerWorld inc con true sdp cands
     (cs ++ [PRtc (RDescription d b#"offer"); PRtc (RSetRemoteDescription d b#"offer");
             PRtc (RSetLocalDescription b#"answer"); PLocalSdp;
             PNet (NSend client_socket (packet (accept_text sdp))); PRunning])).
Proof.
  intros Hj Hd Hs Hb. unfold answer_invitation. rewrite Hj.
  cbn [lift_json mret prog_mret mbind prog_mbind prog_bind]. rewrite Hd.
  unfold rtc_description, rtc_set_remote_description, rtc_set_local_description, pnet, pcall, call.
  cbn [lift_json mret prog_mret mbind prog_mbind prog_bind exec stream_env or_throw
       incoming console is_running stored_sdp stored_candidates calls].
  rewrite cstr_c_str by done. cbn [lift_c mret prog_mret mbind prog_mbind prog_bind exec].
  rewrite sprintf_accept. destruct (Z.ltb_spec (blen (accept_text sdp)) SOCKET_BUFFER_SIZE); [|lia].
  cbn [lift_c mret prog_mret mbind prog_mbind prog_bind exec stream_env net_stream
       incoming console is_running stored_sdp stored_candidates calls negb].
  by rewrite <- !app_assoc.
Qed.

(** C12 (functional): the server sends an invitation in 2048 bytes, the listener receives
    1024: an invitation it can answer is answered, then the zeros that follow it are
    taken for the end of the connection; what the server sends later is never read. *)
Theorem one_invitation client_socket user text j d j' w more :
  token user = true → blen user ≤ 49 → no_nul text = true →
  blen (invite_text user text) < SOCKET_BUFFER_SIZE →
  json_parse text = inl j → get_member j b#"description" = inl (d, j') →
  no_nul (stored_sdp w) = true → blen (accept_text (stored_sdp w)) < SOCKET_BUFFER_SIZE →
  is_running w = true → incoming w = invitation user text ++ more →
  ∃ w', exec_loop stream_env 2 (listener_body client_socket) tt w = Some (Done tt, w') ∧
    incoming w' = more ∧
    calls w' = calls w ++
      [PRunning; PNet (NRecv client_socket SOCKET_BUFFER_SIZE);
       PRtc (RDescription d b#"offer"); PRtc (RSetRemoteDescription d b#"offer");
       PRtc (RSetLocalDescription b#"answer"); PLocalSdp;
       PNet (NSend client_socket (packet (accept_text (stored_sdp w))));
       PRunning; PRunning; PNet (NRecv client_socket SOCKET_BUFFER_SIZE)].
Proof.
  intros Hu Hlu Hn Hb Hj Hd Hns Hbs Hrun Hin. destruct w as [inc con run sdp cands cs].
  cbn [incoming stored_sdp is_running calls] in *. subst run inc.
  change (invitation user text) with (padded (SOCKET_BUFFER_SIZE * 2) (invite_text user text)).
  rewrite padded_twice, <- app_assoc by lia. cbn [exec_loop].
  rewrite (invite_round stream_env client_socket user text _ (mkPeerWorld
    (zeros SOCKET_BUFFER_SIZE ++ more) con true sdp cands
    ((cs ++ [PRunning]) ++ [PNet (NRecv client_socket SOCKET_BUFFER_SIZE)]))); [| |done..].
  2:{ eexists. split; [reflexivity|]. by apply stream_recv, blen_packet, Z.lt_le_incl. }
  rewrite (answer_invitation_run client_socket text j d j') by done.
  cbn [exec_loop]. erewrite listener_zeros.
  2:{ eexists. split; [reflexivity|]. by apply stream_recv. }
  eexists. split; [reflexivity|]. split; [done|]. cbn [calls]. by rewrite <- !app_assoc.
Qed.

(** ** The menu *)

Section menu.
Context {S : Type} (env : ∀ c : peer_call, S → peer_result c * S).

(** Sending a text of the menu and receiving [answer], read as [reply]. *)
Definition exchanges (client_socket : Z) (text answer reply : bytes) (s s2 : S) : Prop :=
  ∃ k s1, env (PNet (NSend client_socket (packet text))) s = (k, s1) ∧ k ≠ -1 ∧
    env (PNet (NRecv client_socket SOCKET_BUFFER_SIZE)) s1 = (RecvBytes answer, s2) ∧
    cstr (recv_into (RecvBytes answer) (zeros SOCKET_BUFFER_SIZE)) = Def reply.

Lemma exchange_run client_socket text answer reply m s s2 :
  exchanges client_socket text answer reply s s2 →
  no_nul text = true → blen text ≤ SOCKET_BUFFER_SIZE →
  exec env (exchange client_socket text m) s =
  (Done (Some (if bool_decide (reply = []) then set_server_disconnected true m else m)), s2).
Proof.
  intros (k & s1 & Hsend & Hk & Hrecv & Hreply) Hn Hb. unfold exchange, pnet, pcall, call.
  rewrite message_of_packet by done. cbn [lift_c mret prog_mret mbind prog_mbind prog_bind exec].
  rewrite Hsend. destruct (Z.eqb_spec k (-1)); [done|]. cbn [prog_bind exec]. rewrite Hrecv.
  cbn [recv_count]. destruct (Z.eqb_spec (blen answer) (-1)) as [E|_]; [pose proof (blen_nonneg answer); lia|].
  unfold strlen, pcout. rewrite Hreply.
  cbn [lift_c mret prog_mret mbind prog_mbind prog_bind cres_bind cres_ret exec].
  do 3 f_equal. case_bool_decide as Hr; destruct (Z.eqb_spec (blen reply) 0) as [E|E]; try done.
  - by subst.
  - destruct reply; [done|]. rewrite blen_cons in E. pose proof (blen_nonneg reply). lia.
Qed.

Definition credentials_text (option : Z) (u p : bytes) : bytes :=
  (if option =? 1 then b#"SIGNUP" else b#"LOGIN") ++ b#" " ++ u ++ b#" " ++ p.

(** After signing up or logging in, the client takes itself to be logged
    in whatever the server answered, also when the server refused or has gone; it
    notices only an empty answer, as a lost connection. *)
Lemma login_ignores_reply client_socket option m u p answer reply s s1 s2 s3 :
  env (PCin CinWord) s = (Some u, s1) → env (PCin CinWord) s1 = (Some p, s2) →
  no_nul u = true → no_nul p = true → blen (credentials_text option u p) ≤ SOCKET_BUFFER_SIZE →
  exchanges client_socket (credentials_text option u p) answer reply s2 s3 →
  exec env (sign_up_login_user client_socket option m) s =
  (Done (mkMenu u p (bool_decide (reply = []) || server_disconnected m) false true), s3).
Proof.
  intros Hu Hp Hnu Hnp Hb He.
  assert (no_nul (credentials_text option u p) = true) as Hn
    by (unfold credentials_text; destruct (option =? 1); no_nul).
  unfold sign_up_login_user, pcin, pcall, call. cbn [mret prog_mret mbind prog_mbind prog_bind exec].
  rewrite Hu. cbn [prog_bind exec]. rewrite Hp.
  cbn [default from_option id username password set_credentials server_disconnected exit_selected isLogin].
  change ((if option =? 1 then b#"SIGNUP" else b#"LOGIN") ++ b#" " ++ u ++ b#" " ++ p)
    with (credentials_text option u p).
  rewrite exec_bind. erewrite exchange_run by done. cbn. by case_bool_decide.
Qed.

(** When the console is at its end the menu does not leave: as long as
    no signal arrives it prints its choices for ever. *)
Lemma menu_spins_at_eof client_socket fuel m s :
  (∀ s, (env (PCin CinInt) s).1 = None) → (∀ s, (env PRunning s).1 = true) →
  server_disconnected m = false →
  exec_loop env fuel (menu_body client_socket) m s = None.
Proof.
  intros Hcin Hrun Hm. revert s. induction fuel as [|fuel IH]; intros s; [done|]. cbn [exec_loop].
  unfold menu_body, pcin, pcall, call. cbn [mret prog_mret mbind prog_mbind prog_bind exec].
  specialize (Hcin s). destruct (env (PCin CinInt) s) as [o s1]. cbn in Hcin. subst o.
  cbn [prog_bind exec]. specialize (Hrun s1). destruct (env PRunning s1) as [b s2]. cbn in Hrun. subst b.
  cbn [negb]. rewrite Hm. cbn. rewrite Hm. apply IH.
Qed.
End menu.

(** ** Witnesses *)

(** A client that listens to [inc], with the description of a call ready. *)
Definition offer_text : bytes := description_text b#"offer" b#"v=0".
Definition listening (inc : bytes) : peer_world := mkPeerWorld inc [] true offer_text [] [].

Lemma offer_to_string (f : FloatText) : json_to_string (description_message b#"offer" b#"v=0") = DOk offer_text.
Proof. vm_compute. reflexivity. Qed.

Lemma call_ends_receiver_witness :
  (exec stream_env (listener_body 4 tt) (listening (invitation b#"bob" offer_text))).1
  = Threw (ExJsonType 302).
Proof.
  destruct (call_ends_receiver stream_env (H := λ l, l) 4 b#"bob" b#"offer" b#"v=0"
    (listening (invitation b#"bob" offer_text))
    (mkPeerWorld (zeros SOCKET_BUFFER_SIZE) [] true offer_text []
       [PRunning; PNet (NRecv 4 SOCKET_BUFFER_SIZE)])) as (text & Htext & H);
    [by apply utf8_literal|by apply utf8_literal|done|done|].
  rewrite offer_to_string in Htext. injection Htext as <-.
  erewrite H; [reflexivity|vm_compute; reflexivity|].
  eexists. split; [reflexivity|]. vm_compute. reflexivity.
Defined.

Lemma accept_ends_caller_witness :
  (exec stream_env (listener_body 4 tt) (listening (packet (accept_text offer_text)))).1
  = Threw (ExJsonType 302).
Proof.
  destruct (accept_ends_caller stream_env (H := λ l, l) 4 b#"offer" b#"v=0"
    (listening (packet (accept_text offer_text)))
    (mkPeerWorld [] [] true offer_text [] [PRunning; PNet (NRecv 4 SOCKET_BUFFER_SIZE)]))
    as (text & Htext & H); [by apply utf8_literal|by apply utf8_literal|].
  rewrite offer_to_string in Htext. injection Htext as <-.
  erewrite H; [reflexivity|vm_compute; reflexivity|].
  eexists. split; [reflexivity|]. vm_compute. reflexivity.
Defined.

Definition good_offer : bytes :=
  b#"{" ++ QUOTED b#"description" ++ b#":" ++ QUOTED b#"v=0" ++ b#"}".

Lemma one_invitation_witness :
  ∃ w', exec_loop stream_env 2 (listener_body 4) tt (listening (invitation b#"bob" good_offer ++ b#"EXIT"))
        = Some (Done tt, w') ∧ incoming w' = b#"EXIT".
Proof.
  destruct (one_invitation 4 b#"bob" good_offer (JObject [(b#"description", JString b#"v=0")]) b#"v=0"
    (JObject [(b#"description", JString b#"v=0")])
    (listening (invitation b#"bob" good_offer ++ b#"EXIT")) b#"EXIT") as (w' & Hw & Hin & _);
    [reflexivity|done|reflexivity|reflexivity|vm_compute; reflexivity|reflexivity|reflexivity|reflexivity
    |reflexivity|reflexivity|].
  exists w'. split; [exact Hw|exact Hin].
Defined.

Lemma login_ignores_reply_witness :
  (exec stream_env (sign_up_login_user 3 2 init_menu)
    (mkPeerWorld (packet b#"No such user") [b#"eve"; b#"guess"] true [] [] [])).1
  = Done (mkMenu b#"eve" b#"guess" false false true).
Proof.
  erewrite (login_ignores_reply stream_env 3 2 init_menu b#"eve" b#"guess" (packet b#"No such user")
    b#"No such user"); [reflexivity|reflexivity|reflexivity|reflexivity|reflexivity|done|].
  eexists _, _. split; [reflexivity|]. split; [done|]. split; [vm_compute; reflexivity|reflexivity].
Defined.

(** A console at its end. *)
Definition eof_env (c : peer_call) (s : unit) : peer_result c * unit :=
  ((stream_env c (mkPeerWorld [] [] true [] [] [])).1, s).

Lemma menu_spins_at_eof_witness :
  exec_loop eof_env 1000 (menu_body 3) init_menu tt = None.
Proof. apply (menu_spins_at_eof eof_env 3 1000 init_menu tt); reflexivity. Defined.
