(* ===== verification/Dialogue.v ===== *)
(** * Dialogue: the client and the server together

    Every text that the client's functions build is what the server's commands expect:
    [dispatch] carries out the request the user chose.  The exceptions are the texts
    that do not fit, where the client overflows its own array first. *)

From S2P Require Import Prelude CString Prog Net JsonValue JsonParser JsonDump.
From S2P Require Import Server ServerSpec Protocol Peer ClientSpec.
From S2P Require Client.

Lemma decode_logout l user :
  no_nul user = true → blen user < 1000 → decode l (packet (b#"LOGOUT " ++ user)) = Def ReqLogout.
Proof.
  intros Hn Hb. assert (blen (b#"LOGOUT " ++ user) ≤ SOCKET_BUFFER_SIZE)
    by (unfold SOCKET_BUFFER_SIZE; rewrite blen_app; eval_blen; lia).
  unfold decode. by keyword_tests.
Qed.

(** ** What a client sends *)

Section sent.
Context {S : Type} (env : ∀ c : peer_call, S → peer_result c * S).

(** The arrays that a program hands to [send], with their sockets, run in an environment. *)
Fixpoint sent {A} (p : pprog A) (s : S) : list (Z * bytes) :=
  match p with
  | Act c k =>
      let '(r, s') := env c s in
      match c with PNet (NSend fd data) => [(fd, data)] | _ => [] end ++ sent (k r) s'
  | _ => []
  end.

(** What the user asks for by an option of the menu, with the words that are typed then. *)
Definition chosen (m : Client.menu) (option : Z) (s : S) : list request :=
  let '(w, s1) := env (PCin CinWord) s in
  match option with
  | 1 => [ReqSignup (default (Client.username m) w) (default (Client.password m) (env (PCin CinWord) s1).1)]
  | 2 => [ReqLogin (default (Client.username m) w) (default (Client.password m) (env (PCin CinWord) s1).1)]
  | 3 => if Client.isLogin m then [ReqCall (default [] w) (env PLocalSdp s1).1] else []
  | 4 => [ReqLogout]
  | 5 => if bool_decide (Client.username m = []) then [ReqExit] else [ReqLogout; ReqExit]
  | _ => []
  end.

(** Whatever is received has a terminator within the array. *)
Definition replies_terminated : Prop :=
  ∀ fd s, ∃ t, cstr (recv_into (env (PNet (NRecv fd SOCKET_BUFFER_SIZE)) s).1 (zeros SOCKET_BUFFER_SIZE)) = Def t.

(** The server, in any state of its session, does for the message what [carry_out] says of
    the request. *)
Definition understood (client_sock : Z) (message : Z * bytes) (q : request) : Prop :=
  message.1 = client_sock ∧ blen message.2 = SOCKET_BUFFER_SIZE ∧
  ∀ client_socket l, locals_ok l →
    dispatch client_socket l (recv_into (RecvBytes message.2) (zeros SOCKET_BUFFER_SIZE)) ≡ carry_out client_socket l q.

Lemma sent_bind {A B} (p : pprog A) (k : A → pprog B) s :
  sent (p ≫= k) s = sent p s ++ match exec env p s with (Done a, s') => sent (k a) s' | _ => [] end.
Proof.
  revert s. induction p as [a|c p IH|e|u|n]; intros s; try done. cbn. destruct (env c s) as [r s'].
  rewrite <- app_assoc. f_equal. apply IH.
Qed.

(** An exchange sends its request, and comes to an end. *)
Lemma exchange_sent client_socket text m s :
  replies_terminated → no_nul text = true → blen text ≤ SOCKET_BUFFER_SIZE →
  sent (Client.exchange client_socket text m) s = [(client_socket, packet text)] ∧
  ∃ r s', exec env (Client.exchange client_socket text m) s = (Done r, s').
Proof.
  intros Hr Hn Hb. unfold Client.exchange, pnet, pcall, call. rewrite message_of_packet by done.
  cbn [lift_c mbind prog_mbind prog_bind sent exec].
  destruct (env (PNet (NSend client_socket (packet text))) s) as [r s1].
  cbn [app prog_bind exec]. change (peer_result _) with Z in r. destruct (r =? -1); [by split; [|do 2 eexists]|].
  cbn [prog_bind sent exec app]. destruct (Hr client_socket s1) as [t Ht].
  destruct (env (PNet (NRecv client_socket SOCKET_BUFFER_SIZE)) s1) as [rcv s2]. cbn [fst] in Ht.
  cbn [app prog_bind exec]. destruct (recv_count rcv =? -1); [by split; [|do 2 eexists]|].
  unfold strlen, pcout. rewrite Ht. cbn [mbind cres_bind mret cres_ret lift_c prog_mbind prog_bind sent exec].
  by split; [|do 2 eexists].
Qed.

(** What is behind it sends nothing. *)
Lemma exchange_only client_socket text m (k : option Client.menu → pprog Client.menu) s :
  replies_terminated → no_nul text = true → blen text ≤ SOCKET_BUFFER_SIZE → (∀ r s, sent (k r) s = []) →
  sent (Client.exchange client_socket text m ≫= k) s = [(client_socket, packet text)].
Proof.
  intros Hr Hn Hb Hk. rewrite sent_bind.
  destruct (exchange_sent client_socket text m s) as (-> & r & s' & ->); [done..|]. by rewrite Hk.
Qed.

Lemma understood_request client_sock q :
  match q with ReqClient _ _ => False | _ => True end → well_formed q = true →
  understood client_sock (client_sock, packet (encode q)) q.
Proof.
  intros Hc Hq. pose proof (encode_blen q Hq). split; [done|]. split; [by apply blen_packet; lia|].
  intros client_socket l Hl. cbn [snd]. rewrite recv_packet by lia. rewrite dispatch_eq, decode_request by done.
  assert (received l q = q) as -> by (by destruct q). apply carry_out_equiv. destruct q; try done.
  cbn [well_formed] in Hq. split_bools. cbn [encode] in *. cbn [fits].
  pose proof (token_no_nul receiver). rewrite !blen_app in *. revert H. eval_blen. pose proof (blen_nonneg receiver). repeat split; [auto|lia|done|lia].
Qed.

Lemma understood_logout client_sock user :
  no_nul user = true → blen user < 1000 →
  understood client_sock (client_sock, packet (b#"LOGOUT " ++ user)) ReqLogout.
Proof.
  intros Hn Hb. assert (blen (b#"LOGOUT " ++ user) ≤ SOCKET_BUFFER_SIZE)
    by (unfold SOCKET_BUFFER_SIZE; rewrite blen_app; eval_blen; lia).
  split; [done|]. split; [by apply blen_packet|]. intros client_socket l Hl. cbn [snd].
  rewrite recv_packet by done. rewrite dispatch_eq, decode_logout by done. by apply carry_out_equiv.
Qed.

Lemma sign_up_login_sent client_sock option m s :
  let U := default (Client.username m) (env (PCin CinWord) s).1 in
  let P := default (Client.password m) (env (PCin CinWord) (env (PCin CinWord) s).2).1 in
  let text := (if option =? 1 then b#"SIGNUP" else b#"LOGIN") ++ b#" " ++ U ++ b#" " ++ P in
  replies_terminated → no_nul text = true → blen text ≤ SOCKET_BUFFER_SIZE →
  sent (Client.sign_up_login_user client_sock option m) s = [(client_sock, packet text)].
Proof.
  intros U P text Hr Hn Hb. subst U P. unfold Client.sign_up_login_user, pcin, pcall, call.
  cbn [mbind prog_mbind prog_bind sent]. destruct (env (PCin CinWord) s) as [u s1].
  cbn [app prog_bind sent fst snd] in *. destruct (env (PCin CinWord) s1) as [p s2].
  cbn [app prog_bind fst Client.username Client.password Client.set_credentials] in *.
  apply exchange_only; [done..|]. by intros [].
Qed.

Lemma logout_only client_sock m s :
  replies_terminated → no_nul (Client.username m) = true → blen (Client.username m) < 1000 →
  sent (Client.logout_user client_sock (Client.username m) m) s = [(client_sock, packet (b#"LOGOUT " ++ Client.username m))].
Proof.
  intros Hr Hn Hb. apply exchange_only; [done|by no_nul| |by intros []].
  unfold SOCKET_BUFFER_SIZE. rewrite blen_app. eval_blen. lia.
Qed.

(** Leaving logs out first, if there is a user name, whatever comes of it. *)
Lemma exit_sent client_sock m s :
  replies_terminated → no_nul (Client.username m) = true → blen (Client.username m) < 1000 →
  sent (Client.exit_user client_sock m) s =
    (if bool_decide (Client.username m = []) then [] else [(client_sock, packet (b#"LOGOUT " ++ Client.username m))])
    ++ [(client_sock, packet b#"EXIT EXIT")].
Proof.
  intros Hr Hn Hb. unfold Client.exit_user. rewrite sent_bind. case_bool_decide as Hu.
  - cbn [mret prog_mret sent exec app]. by apply exchange_only; [..|intros []].
  - rewrite logout_only by done. f_equal. unfold Client.logout_user. rewrite exec_bind.
    destruct (exchange_sent client_sock (b#"LOGOUT " ++ Client.username m) m s) as (_ & r & s' & ->);
      [done|by no_nul|unfold SOCKET_BUFFER_SIZE; rewrite blen_app; eval_blen; lia|].
    by destruct r; (apply exchange_only; [..|intros []]).
Qed.

Lemma call_peer_sent client_sock w sdp s s1 :
  env (PCin CinWord) s = (w, s1) → (env PLocalSdp s1).1 = sdp → well_formed (ReqCall (default [] w) sdp) = true →
  sent (Client.call_peer client_sock) s = [(client_sock, packet (encode (ReqCall (default [] w) sdp)))].
Proof.
  intros Hw Hs Hq. cbn [well_formed] in Hq. split_bools. pose proof (token_no_nul (default [] w)).
  unfold Client.call_peer, pcin, pnet, pcall, call. cbn [mbind prog_mbind prog_bind sent]. rewrite Hw.
  cbn [app prog_bind]. destruct w as [w|]; [|done]. change (default [] (Some w)) with w in *. rewrite store_cstr_zeros by lia.
  cbn [lift_c mbind prog_mbind prog_bind sent]. destruct (env PLocalSdp s1) as [x s2]. cbn in Hs. subst x.
  cbn [app prog_bind]. rewrite cstr_padded by (auto || lia). cbn [lift_c mbind prog_mbind prog_bind].
  rewrite cstr_c_str by done. cbn [lift_c mbind prog_mbind prog_bind]. rewrite sprintf_call.
  change (call_text w sdp) with (encode (ReqCall w sdp)).
  destruct (Z.ltb_spec (blen (encode (ReqCall w sdp))) SOCKET_BUFFER_SIZE); [|lia].
  cbn [lift_c mbind prog_mbind prog_bind sent]. by destruct (env _ s2).
Qed.
End sent.

(** C10 (refinement): what an option of the menu sends is what the user chose: whatever the user types, in
    any environment, the messages that [menu_switch] hands to [send] are one for one the
    requests of the option (the words typed for signing up and for logging in, the word typed and
    the local description for a call, and for leaving a LOGOUT before the EXIT if there is a
    user name), each to the server's socket and of 1024 bytes, and the server that receives
    one does, in every state of its session, what the specification says of that request
    ([carry_out]).  The words and the description must fit the arrays of the server ([well_formed]),
    the name in a LOGOUT has under 1000 bytes, and what the client receives is terminated. *)
Theorem menu_request_served {S} (env : ∀ c : peer_call, S → peer_result c * S) client_sock option m s :
  replies_terminated env →
  no_nul (Client.username m) = true → blen (Client.username m) < 1000 →
  Forall (λ q, well_formed q = true) (chosen env m option s) →
  Forall2 (understood client_sock) (sent env (Client.menu_switch client_sock option m) s) (chosen env m option s).
Proof.
  intros Hr Hn Hb Hq. unfold Client.menu_switch, chosen in *.
  destruct (Z.eqb_spec option 1) as [->|]; [|destruct (Z.eqb_spec option 2) as [->|]]; cbn [orb].
  - destruct (env (PCin CinWord) s) as [u s1] eqn:E. pose proof (Forall_inv Hq) as Hq1; cbn beta in Hq1.
    rewrite sign_up_login_sent; rewrite ?E; cbn [fst snd]; [|done|by apply (encode_no_nul _ Hq1)|by apply Z.lt_le_incl, (encode_blen _ Hq1)].
    constructor; [by apply (understood_request client_sock (ReqSignup _ _))|constructor].
  - destruct (env (PCin CinWord) s) as [u s1] eqn:E. pose proof (Forall_inv Hq) as Hq1; cbn beta in Hq1.
    rewrite sign_up_login_sent; rewrite ?E; cbn [fst snd]; [|done|by apply (encode_no_nul _ Hq1)|by apply Z.lt_le_incl, (encode_blen _ Hq1)].
    constructor; [by apply (understood_request client_sock (ReqLogin _ _))|constructor].
  - destruct (Z.eqb_spec option 3) as [->|]; [|destruct (Z.eqb_spec option 4) as [->|]; [|destruct (Z.eqb_spec option 5) as [->|]]].
    + destruct (env (PCin CinWord) s) as [w s1] eqn:E. destruct (Client.isLogin m); [|constructor].
      pose proof (Forall_inv Hq) as Hq1; cbn beta in Hq1. rewrite sent_bind.
      rewrite (call_peer_sent env client_sock w _ s s1 E eq_refl) by done.
      assert (∀ x : outcome unit * S, match x with (Done _, s') => sent env (mret m) s' | _ => [] end = []) as -> by (by intros [[] ?]). cbn [app].
      constructor; [by apply (understood_request client_sock (ReqCall _ _))|constructor].
    + destruct (env (PCin CinWord) s) as [w s1]. rewrite logout_only by done. constructor; [by apply understood_logout|constructor].
    + destruct (env (PCin CinWord) s) as [w s1]. rewrite exit_sent by done.
      pose proof (understood_request client_sock ReqExit I eq_refl). pose proof (understood_logout client_sock _ Hn Hb).
      case_bool_decide; repeat (constructor; [done|]); constructor.
    + destruct (env (PCin CinWord) s) as [w s1].
      assert (match option with
        | 1 => [ReqSignup (default (Client.username m) w) (default (Client.password m) (env (PCin CinWord) s1).1)]
        | 2 => [ReqLogin (default (Client.username m) w) (default (Client.password m) (env (PCin CinWord) s1).1)]
        | 3 => if Client.isLogin m then [ReqCall (default [] w) (env PLocalSdp s1).1] else []
        | 4 => [ReqLogout]
        | 5 => if bool_decide (Client.username m = []) then [ReqExit] else [ReqLogout; ReqExit]
        | _ => []
        end = []) as ->; [|constructor].
      destruct option as [|p|p]; try done. do 3 (destruct p as [p|p|]; try done).
Qed.

(** A user who types, and a server whose answers are empty. *)
Definition typing_env (c : peer_call) (typed : list bytes) : peer_result c * list bytes :=
  match c return peer_result c * list bytes with
  | PNet n => ((net_stream n []).1, typed)
  | PCin c => (cin_next c typed, tail typed)
  | PRtc RIsOpen => (true, typed)
  | PRtc _ => (Some tt, typed)
  | PRunning | PSdpGenerated => (true, typed)
  | PLocalSdp => (b#"v=0", typed)
  | PLocalCandidates => ([], typed)
  | PSigaction | PKill => (0, typed)
  | PSpawn _ | PJoin | PSleep _ => (tt, typed)
  end.

(** A sign-up, a call, and leaving with the name of an account. *)
Lemma menu_request_served_witness :
  let eve := Client.mkMenu b#"eve" b#"pw" false false true in
  replies_terminated typing_env ∧
  Forall2 (understood 3) (sent typing_env (Client.menu_switch 3 1 eve) [b#"bob"; b#"secret"]) [ReqSignup b#"bob" b#"secret"] ∧
  Forall2 (understood 3) (sent typing_env (Client.menu_switch 3 3 eve) [b#"bob"]) [ReqCall b#"bob" b#"v=0"] ∧
  Forall2 (understood 3) (sent typing_env (Client.menu_switch 3 5 eve) []) [ReqLogout; ReqExit].
Proof.
  assert (replies_terminated typing_env) as Hr by (intros fd s; by exists []).
  split; [done|]. repeat split.
  - apply (menu_request_served typing_env 3 1); [done|reflexivity|reflexivity|by repeat constructor].
  - apply (menu_request_served typing_env 3 3); [done|reflexivity|reflexivity|by repeat constructor].
  - apply (menu_request_served typing_env 3 5); [done|reflexivity|reflexivity|by repeat constructor].
Defined.

(** Calling a peer sends the CALL request that the server reads back, exactly
    when the text fits 1024 bytes with its terminator; a longer description, which
    nothing bounds, overflows the client's array. *)
Lemma call_peer_message {S} (env : ∀ c : peer_call, S → peer_result c * S) client_sock peer sdp s s1 s2 :
  env (PCin CinWord) s = (Some peer, s1) → env PLocalSdp s1 = (sdp, s2) →
  token peer = true → blen peer ≤ 49 → no_nul sdp = true →
  if blen (encode (ReqCall peer sdp)) <? SOCKET_BUFFER_SIZE
  then exec env (Client.call_peer client_sock) s =
         (Done tt, (env (PNet (NSend client_sock (packet (encode (ReqCall peer sdp))))) s2).2) ∧
       ∀ l, locals_ok l → decode l (packet (encode (ReqCall peer sdp))) = Def (ReqCall peer sdp)
  else exec env (Client.call_peer client_sock) s = (Undefined UB_buffer_overflow, s2).
Proof.
  intros Hw Hsdp Hp Hlp Hn. pose proof (token_no_nul _ Hp).
  assert (exec env (Client.call_peer client_sock) s =
    exec env (message ← lift_c (sprintf (zeros SOCKET_BUFFER_SIZE) "CALL %s %s" [VStr peer; VStr sdp]);
              pnet (NSend client_sock message);; mret tt) s2) as ->.
  { unfold Client.call_peer, pcin, pnet, pcall, call. cbn [mret prog_mret mbind prog_mbind prog_bind exec].
    rewrite Hw. cbn [prog_bind exec]. rewrite store_cstr_zeros by lia.
    cbn [lift_c mret prog_mret mbind prog_mbind prog_bind exec]. rewrite Hsdp.
    rewrite cstr_padded by (done || lia). cbn [lift_c mret prog_mret mbind prog_mbind prog_bind exec].
    by rewrite cstr_c_str. }
  rewrite sprintf_call. change (call_text peer sdp) with (encode (ReqCall peer sdp)).
  destruct (Z.ltb_spec (blen (encode (ReqCall peer sdp))) SOCKET_BUFFER_SIZE); [|done]. split.
  - unfold pnet, pcall, call. cbn [lift_c mret prog_mret mbind prog_mbind prog_bind exec].
    by destruct (env _ s2) as [r s3].
  - intros l Hl. by apply decode_call.
Qed.

Lemma call_peer_message_witness :
  (exec stream_env (Client.call_peer 3)
    (mkPeerWorld [] [b#"bob"] true (replicate (Z.to_nat 1015) "a"%char) [] [])).1
  = Undefined UB_buffer_overflow.
Proof.
  pose proof (call_peer_message stream_env 3 b#"bob" (replicate (Z.to_nat 1015) "a"%char)
    (mkPeerWorld [] [b#"bob"] true (replicate (Z.to_nat 1015) "a"%char) [] [])
    _ _ eq_refl eq_refl eq_refl ltac:(done) ltac:(vm_compute; reflexivity)) as H.
  change (blen (encode (ReqCall b#"bob" (replicate (Z.to_nat 1015) "a"%char))) <? SOCKET_BUFFER_SIZE)
    with false in H. by rewrite H.
Defined.

(** The first message of a client, and the address the server connects back to. *)
Lemma sprintf_client addr port :
  blen (encode (ReqClient addr port)) < SOCKET_BUFFER_SIZE →
  sprintf (zeros SOCKET_BUFFER_SIZE) "CLIENT %s %d" [VStr addr; VInt port]
  = Def (packet (encode (ReqClient addr port))).
Proof.
  intros Hb. unfold sprintf. replace (print _ _) with (Def (encode (ReqClient addr port))).
  - by apply store_cstr_zeros.
  - let f := eval vm_compute in (parse_fmt (str "CLIENT %s %d")) in
    change (parse_fmt (str "CLIENT %s %d")) with f.
    cbn [print mbind cres_bind mret cres_ret encode]. by rewrite app_nil_r.
Qed.

(** The message that announces the client's address is the CLIENT request
    of that address and port; the server connects back to exactly that port. *)
Lemma client_announced client_socket fd addr port l :
  well_formed (ReqClient addr port) = true → locals_ok l →
  Client.send_ip_and_port_to_server client_socket (c_str addr) port
  = pnet (NSend client_socket (packet (encode (ReqClient addr port)))) ∧
  dispatch fd l (packet (encode (ReqClient addr port)))
  = ('(r, conn) ← connect_to_client (overlay (addr ++ [NUL]) (client_ip_address l)) port;
     let l := set_endpoint (overlay (addr ++ [NUL]) (client_ip_address l)) port conn l in
     if negb (r =? 0) then mret (Break l) else
     net (NSend conn (reply b#"Hello from new server"));;
     mret (Continue l)).
Proof.
  intros Hq Hl. split.
  - pose proof (encode_blen _ Hq) as [_ Hb]. cbn [well_formed] in Hq. split_bools.
    unfold Client.send_ip_and_port_to_server. rewrite cstr_c_str by (by apply token_no_nul).
    cbn [lift_c mret prog_mret mbind prog_mbind prog_bind]. by rewrite sprintf_client.
  - by rewrite dispatch_eq, decode_request.
Qed.

Lemma client_announced_witness :
  Client.send_ip_and_port_to_server 3 (c_str b#"10.0.0.2") 8080
  = pnet (NSend 3 (packet b#"CLIENT 10.0.0.2 8080")).
Proof.
  apply (client_announced 3 4 b#"10.0.0.2" 8080 init_locals); [done|].
  split; [done|]. by apply in_zeros.
Defined.
