(* ===== verification/CallDialogue.v ===== *)
(** * CallDialogue: a call, from the menu of one client through the server to the listener
      of another

    The theorems of the caller, of the server and of the receiver put together, each with
    an environment of its own: what one sends is what the next receives. *)

From S2P Require Import Prelude CString Prog Net JsonValue JsonParser JsonDump JsonRoundTrip Utf8.
From S2P Require Import User Directory UserStore Server ServerSpec ServerEffect Peer Descriptions ClientSpec Dialogue.
From S2P Require Client.

(** ** A call between two clients *)

(** What the server does with a call whose receiver closes the connection. *)
Definition unanswered_call (client_socket fd : Z) (peer sdp : bytes) : list server_call :=
  receive_calls client_socket ++
  [CStore (SIsLogin peer); CStore (SHasUser peer); CStore (SGetUser peer);
   CNet (NSend fd (invitation peer sdp)); CNet (NRecv fd SOCKET_BUFFER_SIZE)].

(** C11 (error): no call between two clients succeeds.  The message that the menu of the caller
    sends makes the server, the receiver being online, send one invitation on the
    connection of the receiver; the listener of the receiver reads it and throws
    [type_error.302], which ends that process before it answers; and the server, whose
    wait for the answer then ends with the connection, sends the caller nothing and goes
    on.  The description is the one that the callback of libdatachannel stores, of any
    type and any session description that is valid UTF-8 and fits the arrays. *)
Theorem call_between_clients `{FloatText} {D N S1 S2} `{DirectoryLaws D} (netw : ∀ c : net_call, N → net_result c * N)
    (caller : ∀ c : peer_call, S1 → peer_result c * S1) (receiver : ∀ c : peer_call, S2 → peer_result c * S2) peer type sdp :
  utf8_valid type → utf8_valid sdp → token peer = true → blen peer ≤ 49 →
  ∃ text, json_to_string (description_message type sdp) = DOk text ∧
  (blen (invite_text peer text) < SOCKET_BUFFER_SIZE →
   (∀ client_sock s s1 s2, caller (PCin CinWord) s = (Some peer, s1) → caller PLocalSdp s1 = (text, s2) →
      exec caller (Client.call_peer client_sock) s =
      (Done tt, (caller (PNet (NSend client_sock (packet (encode (ReqCall peer text))))) s2).2)) ∧
   (∀ client_socket l (w : world D N) n a fd n', w_running w = true →
      netw (NRecv client_socket SOCKET_BUFFER_SIZE) (w_net w) = (RecvBytes (packet (encode (ReqCall peer text))), n) →
      locals_ok l → dir_ok (w_store w) → dir_account (w_store w) peer = Some a → acc_online a = true → acc_endpoint a = Some fd →
      after_invite netw fd (invitation peer text) n = (RecvBytes [], n') →
      run_round netw client_socket l w =
      (Done (Continue l), advance w (w_store w) n' (unanswered_call client_socket fd peer text))) ∧
   (∀ sock s s', listens receiver sock (take (Z.to_nat SOCKET_BUFFER_SIZE) (invitation peer text)) s s' →
      exec receiver (Client.listener_body sock tt) s = (Threw (ExJsonType 302), s'))).
Proof.
  intros Ht Hs Hp Hlp. destruct (description_text_spec type sdp Ht Hs) as (text & Htext & Hn & _).
  exists text. split; [done|]. intros Hb. pose proof (invite_text_blen peer text) as Hbi.
  assert (blen (encode (ReqCall peer text)) < SOCKET_BUFFER_SIZE) as Hbc by (cbn [encode]; rewrite !blen_app; eval_blen; lia).
  split; [|split].
  - intros client_sock s s1 s2 Hw Hsdp. pose proof (call_peer_message caller client_sock peer text s s1 s2 Hw Hsdp Hp Hlp Hn) as Hc.
    rewrite (proj2 (Z.ltb_lt _ _)) in Hc by done. apply Hc.
  - intros client_socket l w n a fd n' Hr Hm Hl Hd Ha Hon Hfd Hc.
    assert (well_formed (ReqCall peer text) = true) as Hwf.
    { cbn [well_formed]. rewrite Hp, Hn, (proj2 (Z.leb_le _ _) Hlp). by apply Z.ltb_lt. }
    assert (cstr (recv_into (RecvBytes []) (zeros SOCKET_BUFFER_SIZE)) = Def []) as Hz by reflexivity.
    rewrite (call_online_round netw client_socket l w peer text n a fd (RecvBytes []) n' []
      (conj Hr Hm) Hwf Hl Hd Ha Hon Hfd Hc Hz eq_refl).
    unfold forward_calls. change (prefix_test (first_token []) b#"ACCEPT") with false. reflexivity.
  - intros sock s s' Hlst. destruct (call_ends_receiver receiver sock peer type sdp s s' Ht Hs Hp Hlp) as (text' & Htext' & Hx).
    rewrite Htext in Htext'. injection Htext' as <-. by apply Hx.

Qed.

Lemma call_between_clients_witness :
  (exec stream_env (Client.call_peer 3) (mkPeerWorld [] [b#"bob"] true offer_text [] [])).1 = Done tt ∧
  w_log (run_round script_net 4 init_locals (script_world [packet (encode (ReqCall b#"bob" offer_text)); []])).2
    = unanswered_call 4 5 b#"bob" offer_text ∧
  (exec stream_env (Client.listener_body 4 tt) (listening (invitation b#"bob" offer_text))).1 = Threw (ExJsonType 302).
Proof.
  destruct (call_between_clients (H := λ l, l) script_net stream_env stream_env b#"bob" b#"offer" b#"v=0")
    as (text & Htext & Hcall); [by apply utf8_literal|by apply utf8_literal|done|done|].
  rewrite offer_to_string in Htext. injection Htext as <-.
  destruct Hcall as (Hcaller & Hserver & Hreceiver); [vm_compute; reflexivity|]. split; [|split].
  - erewrite Hcaller; [reflexivity|reflexivity|reflexivity].
  - erewrite (Hserver 4 init_locals _ [[]] (mkAccount b#"bob" b#"secret" true (Some 5)) 5 []);
      [reflexivity|reflexivity|reflexivity|apply init_locals_ok|apply bob_store_ok|reflexivity|reflexivity|reflexivity|reflexivity].
  - erewrite Hreceiver; [reflexivity|]. eexists. split; [reflexivity|]. vm_compute. reflexivity.
Defined.
