(* ===== verification/Offerer.v ===== *)
(** * Offerer: the peer that waits for a connection ([src/offerer.cpp])

    One thread: it sends its description as soon as a peer connects, receives the answer,
    exchanges candidates and sends a line read from the console.  [catch] clauses print a
    message; every exception of the programs is an [std::exception]. *)

From S2P Require Import Prelude CString Prog Net JsonValue JsonParser JsonDump Peer.

Definition PORT : Z := 8080.
Definition BUFFER_SIZE : Z := 1024.
Definition ICE_SERVER : bytes := b#"stun.l.google.com:19302".

(** The peer connection, its data channel and its description. *)
Definition setup : pprog unit :=
  rtc_init_logger;;
  rtc_peer_connection [ICE_SERVER];;
  rtc_create_data_channel b#"test";;
  rtc_set_local_description b#"offer".

(** The sockets: an exit code, or both descriptors. *)
Definition wait_for_peer : pprog (Z + Z * Z) :=
  sockfd ← pnet (NSocket false);
  if (sockfd : Z) <? 0 then mret (inl 1) else
  r ← pnet (NBind sockfd b#"192.168.43.19" (htons PORT));
  if (r : Z) <? 0 then mret (inl 1) else
  r ← pnet (NListen sockfd);
  if (r : Z) <? 0 then mret (inl 1) else
  connfd ← pnet (NAccept sockfd);
  if (connfd : Z) <? 0 then mret (inl 1) else
  mret (inr (sockfd, connfd)).

(** The inner [try]: only [json::parse_error] is caught. *)
Definition catch_parse_error (e : exn) : pprog unit :=
  match e with ExJsonParse _ => mret tt | _ => Raise e end.

Definition set_answer (buffer : bytes) : pprog unit :=
  try_catch
    (j ← lift_json (json_parse buffer);
     '(sdp, type) ← lift_json (description_of j);
     rtc_description sdp type;;
     rtc_set_remote_description sdp type)
    catch_parse_error.

Definition exchange_descriptions (connfd : Z) : pprog unit :=
  local_sdp ← pcall PLocalSdp;
  pnet (NSend connfd (cstr_of local_sdp));;
  rcv ← pnet (NRecv connfd BUFFER_SIZE);
  let buffer := recv_into rcv (zeros BUFFER_SIZE) in
  pcout buffer;;
  set_answer buffer.

(** [local_candidates[i]]. *)
Definition candidate_at (local_candidates : list bytes) (i : nat) : cres bytes :=
  match local_candidates !! i with Some c => Def c | None => UB UB_out_of_bounds end.

(** The loop from [i] on, [n] candidates being left. *)
Fixpoint send_candidates (connfd : Z) (i n : nat) : pprog unit :=
  match n with
  | O => mret tt
  | S n =>
      local_candidates ← pcall PLocalCandidates;
      c ← lift_c (candidate_at local_candidates i);
      pnet (NSend connfd (cstr_of c));;
      send_candidates connfd (S i) n
  end.

(** The number of candidates as an [int], then every candidate. *)
Definition send_local_candidates (connfd : Z) : pprog unit :=
  local_candidates ← pcall PLocalCandidates;
  let candidate_number := blen local_candidates in
  pnet (NSend connfd (int_bytes candidate_number));;
  send_candidates connfd 0 (Z.to_nat candidate_number).

(** The number is received and printed; one [recv] then takes what there is. *)
Definition receive_candidate (connfd : Z) : pprog Z :=
  rcv ← pnet (NRecv connfd 4);
  let remote_cand_count := int_of_bytes (recv_into rcv (int_bytes 0)) in
  rcv ← pnet (NRecv connfd BUFFER_SIZE);
  let remote_candidates := recv_into rcv (zeros BUFFER_SIZE) in
  candidate ← lift_c (cstr remote_candidates);
  rtc_candidate candidate;;
  rtc_add_remote_candidate candidate;;
  mret remote_cand_count.

Definition main_body : pprog Z :=
  setup;;
  fds ← wait_for_peer;
  match fds with
  | inl code => mret code
  | inr (sockfd, connfd) =>
      exchange_descriptions connfd;;
      send_local_candidates connfd;;
      receive_candidate connfd;;
      line ← pcin CinLine;
      rtc_data_channel_send (default [] line);;
      pnet (NClose connfd);;
      pnet (NClose sockfd);;
      mret 0
  end.

Definition main : pprog Z := try_catch main_body (λ _, mret 0).
