(* ===== verification/Answerer.v ===== *)
(** * Answerer: the peer that connects ([src/answerer.cpp])

    One thread: it receives the offer, waits until the gathering callback has produced an
    answer, sends it and exchanges candidates.  Nothing catches its exceptions. *)

From S2P Require Import Prelude CString Prog Net JsonValue JsonParser JsonDump Peer.

Definition BUFFER_SIZE : Z := 2048.
Definition ICE_SERVER : bytes := b#"stun.l.google.com:19302".

(** The arguments: [argv[2]] as the port, [argv[1]] copied to [remote_ip]; the element
    past the last argument is a null pointer. *)
Definition arguments (argv : list bytes) : cres (bytes * Z) :=
  match argv !! 2%nat with
  | None => UB UB_null
  | Some port =>
      PORT ← atoi port;
      ip ← match argv !! 1%nat with Some ip => Def ip | None => UB UB_null end;
      remote_ip ← store_cstr (zeros 50) ip;
      ip ← cstr remote_ip;
      mret (ip, PORT)
  end.

Definition connect_to_peer (remote_ip : bytes) (PORT : Z) : pprog (Z + Z) :=
  client_socket ← pnet (NSocket false);
  if (client_socket : Z) =? -1 then mret (inl 1) else
  r ← pnet (NInetPton remote_ip);
  if negb ((r : Z) =? 1) then mret (inl 1) else
  r ← pnet (NConnect client_socket remote_ip (htons PORT));
  if (r : Z) =? -1 then mret (inl 1) else
  mret (inr client_socket).

Definition receive_offer (client_socket : Z) : pprog unit :=
  rcv ← pnet (NRecv client_socket BUFFER_SIZE);
  let buffer := recv_into rcv (zeros BUFFER_SIZE) in
  remote_offer_sdp ← lift_c (cstr buffer);
  j ← lift_json (json_parse remote_offer_sdp);
  '(sdp, type) ← lift_json (description_of j);
  rtc_description sdp type;;
  rtc_set_remote_description sdp type.

(** [while(!sdp_generated) ;]. *)
Definition wait_body (_ : unit) : pprog (ctl unit) :=
  generated ← pcall PSdpGenerated;
  if (generated : bool) then mret (Break tt) else mret (Continue tt).

(** The answer; the number of the peer's candidates, which is printed; one [recv] takes
    what there is of the candidates. *)
Definition exchange_answer (client_socket : Z) : pprog Z :=
  my_local_answer_sdp ← pcall PLocalSdp;
  pnet (NSend client_socket (cstr_of my_local_answer_sdp));;
  rcv ← pnet (NRecv client_socket 4);
  let remote_cand_count := int_of_bytes (recv_into rcv (int_bytes 0)) in
  rcv ← pnet (NRecv client_socket BUFFER_SIZE);
  let remote_candidates := recv_into rcv (zeros BUFFER_SIZE) in
  candidate ← lift_c (cstr remote_candidates);
  rtc_candidate candidate;;
  rtc_add_remote_candidate candidate;;
  mret remote_cand_count.

(** The number of local candidates and [local_candidates_vector.at(0)]. *)
Definition send_candidate (client_socket : Z) : pprog unit :=
  local_candidates_vector ← pcall PLocalCandidates;
  pnet (NSend client_socket (int_bytes (blen local_candidates_vector)));;
  local_candidates_vector ← pcall PLocalCandidates;
  my_local_cand ← match local_candidates_vector !! 0%nat with
                  | Some c => mret c
                  | None => Raise ExOutOfRange
                  end;
  pnet (NSend client_socket my_local_cand);;
  mret tt.

Definition main_end (client_socket : Z) : pprog Z :=
  exchange_answer client_socket;;
  send_candidate client_socket;;
  pcall (PSleep 100);;
  pnet (NClose client_socket);;
  mret 0.

(** Up to the busy wait: an exit code, or the socket. *)
Definition main_setup (argv : list bytes) : pprog (Z + Z) :=
  '(remote_ip, PORT) ← lift_c (arguments argv);
  rtc_init_logger;;
  rtc_peer_connection [ICE_SERVER];;
  r ← connect_to_peer remote_ip PORT;
  match r with
  | inl code => mret (inl code)
  | inr client_socket => receive_offer client_socket;; mret (inr client_socket)
  end.
