(* ===== verification/SimplePeers.v ===== *)
(** * SimplePeers: the media examples
      ([src/simple_offerer.cpp], [src/simple_answerer.cpp])

    The answer is pasted on the console.  The sender relays RTP packets from a UDP socket
    to its track, the receiver from its track to a UDP socket. *)

From S2P Require Import Prelude CString Prog Net JsonValue JsonParser JsonDump Peer.

Definition BUFFER_SIZE : Z := 2048.

(** The pasted description, set as the remote one. *)
Definition paste_description : pprog unit :=
  line ← pcin CinLine;
  let sdp := default [] line in
  j ← lift_json (json_parse sdp);
  '(sdp, type) ← lift_json (description_of j);
  rtc_description sdp type;;
  rtc_set_remote_description sdp type.

(** ** The sender *)

Module SimpleOfferer.

Definition setup : pprog Z :=
  rtc_init_logger;;
  rtc_peer_connection [];;
  sock ← pnet (NSocket true);
  r ← pnet (NBind sock LOCALHOST (htons 6000));
  (if (r : Z) <? 0 then Raise (ExRuntimeError b#"Failed to bind UDP socket on 127.0.0.1:6000") else mret tt);;
  pnet (NSetsockopt sock);;
  rtc_add_track b#"video" b#"SendOnly";;
  rtc_set_local_description b#"offer";;
  paste_description;;
  mret sock.

(** [std::cin >> num_cand]: the variable is not initialised. *)
Definition read_num_cand : pprog Z :=
  n ← pcin CinInt;
  match n with Some n => mret n | None => Undef UB_indeterminate end.

(** One round of [while(num_cand<0)]. *)
Definition candidate_body (num_cand : Z) : pprog (ctl Z) :=
  if negb (num_cand <? 0) then mret (Break num_cand) else
  line ← pcin CinLine;
  rtc_candidate (default [] line);;
  rtc_add_remote_candidate (default [] line);;
  if in_int (num_cand - 1) then mret (Continue (num_cand - 1)) else Undef UB_int_overflow.

(** One round of the loop over packets. *)
Definition packet_body `{SetSsrc} (sock : Z) (buffer : bytes) : pprog (ctl bytes) :=
  rcv ← pnet (NRecv sock BUFFER_SIZE);
  if negb (0 <=? recv_count rcv) then mret (Break buffer) else
  buffer ← send_packet 42 (recv_into rcv buffer) (recv_count rcv);
  mret (Continue buffer).

End SimpleOfferer.

(** ** The receiver *)

Module SimpleAnswerer.

Definition main_body : pprog Z :=
  rtc_init_logger;;
  rtc_peer_connection [];;
  sock ← pnet (NSocket true);
  rtc_add_track b#"video" b#"RecvOnly";;
  rtc_set_media_handler;;
  rtc_on_message;;
  paste_description;;
  rtc_set_local_description b#"answer";;
  pcin CinChar;;
  mret 0.

Definition main : pprog Z := try_catch main_body (λ _, mret 0).

(** The callback given to [onMessage]. *)
Definition relay (sock : Z) (message : bytes) : pprog unit :=
  pnet (NSendTo sock message AF_INET LOCALHOST (htons 5000));;
  mret tt.

End SimpleAnswerer.
