(* ===== verification/PeerSpec.v ===== *)
(** * PeerSpec: the offerer and the answerer together, and the media examples

    What one peer sends is what the other reads: descriptions, the number of
    candidates, candidates; the loops of the media examples. *)

From S2P Require Import Prelude CString Prog Net Utf8 JsonValue JsonParser JsonDump JsonRoundTrip.
From S2P Require Import Peer Descriptions Client ClientSpec SimplePeers.
From S2P Require Offerer Answerer.

(** ** Descriptions *)

Lemma description_of_value type sdp : description_of (description_value type sdp) = inl (sdp, type).
Proof. reflexivity. Qed.

(** Setting a received description. *)
Definition use_description (sdp type : bytes) : pprog unit :=
  rtc_description sdp type;; rtc_set_remote_description sdp type.

(** C40 (roundtrip): the description that one peer sends is the one the other sets: the
    answerer's reading of an offer, and the offerer's reading of an answer in its
    zero-filled array, give the two fields that the gathering callback wrote. *)
Theorem descriptions_exchanged `{FloatText} type sdp :
  utf8_valid type → utf8_valid sdp →
  ∃ text, on_gathering_complete type sdp = DOk text ∧
    (blen text < Offerer.BUFFER_SIZE →
     Offerer.set_answer (recv_into (RecvBytes text) (zeros Offerer.BUFFER_SIZE))
     = try_catch (use_description sdp type) Offerer.catch_parse_error) ∧
    (blen text < Answerer.BUFFER_SIZE →
     ∀ S (env : ∀ c : peer_call, S → peer_result c * S) fd s s1,
       env (PNet (NRecv fd Answerer.BUFFER_SIZE)) s = (RecvBytes text, s1) →
       exec env (Answerer.receive_offer fd) s = exec env (use_description sdp type) s1).
Proof.
  intros Ht Hs. destruct (description_text_spec type sdp Ht Hs) as (text & Htext & Hn & Hp).
  exists text. split; [by unfold on_gathering_complete; rewrite Htext|]. split.
  - intros Hb. rewrite recv_into_zeros. unfold Offerer.set_answer, padded.
    by rewrite Hp by apply ends_input_zeros.
  - intros Hb S env fd s s1 Hrecv. unfold Answerer.receive_offer, pnet, pcall, call.
    cbn [mret prog_mret mbind prog_mbind prog_bind exec]. rewrite Hrecv, recv_into_zeros.
    rewrite cstr_padded by done. cbn [lift_c mret prog_mret mbind prog_mbind prog_bind].
    pose proof (Hp [] eq_refl) as Hp0. rewrite app_nil_r in Hp0. by rewrite Hp0.
Qed.

(** An answer that fills the offerer's array, half as large as the answerer's,
    is read past its end. *)
Lemma long_answer_undefined {S} (env : ∀ c : peer_call, S → peer_result c * S)
    fd answer local_sdp k s s0 s1 s2 :
  env PLocalSdp s = (local_sdp, s0) →
  env (PNet (NSend fd (cstr_of local_sdp))) s0 = (k, s1) →
  env (PNet (NRecv fd Offerer.BUFFER_SIZE)) s1 = (RecvBytes answer, s2) →
  blen answer = Offerer.BUFFER_SIZE → no_nul answer = true →
  exec env (Offerer.exchange_descriptions fd) s = (Undefined UB_over_read, s2).
Proof.
  intros Hsdp Hsend Hrecv Hb Hn. unfold Offerer.exchange_descriptions, pnet, pcall, call.
  cbn [mret prog_mret mbind prog_mbind prog_bind exec]. rewrite Hsdp. cbn [prog_bind exec].
  rewrite Hsend. cbn [prog_bind exec]. rewrite Hrecv, recv_into_zeros, padded_full by done.
  unfold pcout. by rewrite cstr_no_nul.
Qed.

(** ** The number of candidates *)

Lemma little_endian x :
  0 ≤ x < 4294967296 →
  x mod 256 + 256 * (x / 256 mod 256 + 256 * (x / 65536 mod 256 + 256 * (x / 16777216 mod 256 + 256 * 0))) = x.
Proof. intros. Z.div_mod_to_equations. lia. Qed.

Lemma int_of_bytes_int z rest : in_int z = true → int_of_bytes (int_bytes z ++ rest) = z.
Proof.
  unfold in_int, INT_MIN, INT_MAX, int_bytes, int_of_bytes, wrap. intros Hz. split_bools.
  change (2 ^ 32) with 4294967296. change (2 ^ 31) with 2147483648 in *.
  cbv zeta. set (x := z mod 4294967296). cbn [app take foldr].
  rewrite take_0, !byteZ_Zbyte. cbn [foldr].
  rewrite little_endian by (apply Z.mod_pos_bound; lia).
  subst x. destruct (Z.ltb_spec (z mod 4294967296) 2147483648); Z.div_mod_to_equations; lia.
Qed.

(** An [int] sent as its four bytes is received as that [int]. *)
Lemma int_bytes_roundtrip z rest : in_int z = true → int_of_bytes (int_bytes z ++ rest) = z.
Proof. apply int_of_bytes_int. Qed.

Lemma int_bytes_roundtrip_witness : int_of_bytes (int_bytes (-2) ++ b#"x") = -2.
Proof. apply (int_bytes_roundtrip (-2) b#"x"). reflexivity. Defined.

(** ** Candidates *)

(** The bytes that a sequence of calls puts on the wire. *)
Definition sent_bytes (cs : list peer_call) : bytes :=
  concat ((λ c, match c with PNet (NSend _ data) => data | _ => [] end) <$> cs).

Lemma sent_bytes_app cs ds : sent_bytes (cs ++ ds) = sent_bytes cs ++ sent_bytes ds.
Proof. unfold sent_bytes. by rewrite fmap_app, concat_app. Qed.

(** Log more calls. *)
Definition logged (cs : list peer_call) (w : peer_world) : peer_world :=
  mkPeerWorld (incoming w) (console w) (is_running w) (stored_sdp w) (stored_candidates w) (calls w ++ cs).

Lemma logged_logged cs ds w : logged ds (logged cs w) = logged (cs ++ ds) w.
Proof. unfold logged. cbn. by rewrite <- app_assoc. Qed.

Lemma cstr_of_no_nul s : no_nul s = true → cstr_of s = s.
Proof. intros Hs. unfold cstr_of, c_str. by rewrite (cstr_nul s []). Qed.

Lemma send_candidates_run connfd i n w :
  Forall (λ c, no_nul c = true) (stored_candidates w) → (i + n = length (stored_candidates w))%nat →
  ∃ cs, exec stream_env (Offerer.send_candidates connfd i n) w = (Done tt, logged cs w) ∧
    sent_bytes cs = concat (drop i (stored_candidates w)).
Proof.
  intros Hn. revert i w Hn. induction n as [|n IH]; intros i w Hn Hi; cbn [Offerer.send_candidates].
  - exists []. split; [by destruct w; unfold logged; cbn; rewrite app_nil_r|].
    rewrite drop_ge by lia. done.
  - destruct (lookup_lt_is_Some_2 (stored_candidates w) i ltac:(lia)) as [c Hc].
    assert (no_nul c = true) as Hcn by (by eapply Forall_lookup_1 in Hn).
    set (w1 := logged [PLocalCandidates; PNet (NSend connfd c)] w).
    destruct (IH (S i) w1) as (cs & Hrun & Hsent); [done|cbn; lia|].
    exists ([PLocalCandidates; PNet (NSend connfd c)] ++ cs). split.
    + unfold pnet, pcall, call. run_peer. unfold Offerer.candidate_at. rewrite Hc. run_peer.
      rewrite cstr_of_no_nul by done. rewrite <- logged_logged. fold w1. rewrite <- Hrun. f_equal.
      unfold w1, logged. cbn. by rewrite <- app_assoc.
    + rewrite sent_bytes_app, Hsent. unfold w1. cbn [logged stored_candidates].
      rewrite (drop_S _ c i) by done. cbn. by rewrite app_nil_r.
Qed.

(** The offerer sends the number of its candidates and all of them, one
    after the other with nothing between; the answerer takes what follows the number as
    one candidate: with more than one, it adds a candidate that neither peer has. *)
Lemma candidates_merged connfd fd wo wa :
  Forall (λ c, no_nul c = true) (stored_candidates wo) →
  blen (concat (stored_candidates wo)) < Answerer.BUFFER_SIZE →
  in_int (blen (stored_candidates wo)) = true →
  ∃ cs, exec stream_env (Offerer.send_local_candidates connfd) wo = (Done tt, logged cs wo) ∧
    (incoming wa = sent_bytes cs →
     ∃ wa', exec stream_env (Answerer.exchange_answer fd) wa
              = (Done (blen (stored_candidates wo)), wa') ∧
       calls wa' = calls wa ++
         [PLocalSdp; PNet (NSend fd (cstr_of (stored_sdp wa))); PNet (NRecv fd 4);
          PNet (NRecv fd Answerer.BUFFER_SIZE);
          PRtc (RCandidate (concat (stored_candidates wo)));
          PRtc (RAddRemoteCandidate (concat (stored_candidates wo)))]).
Proof.
  intros Hn Hb Hi. set (count := PNet (NSend connfd (int_bytes (blen (stored_candidates wo))))).
  destruct (send_candidates_run connfd 0 (length (stored_candidates wo)) (logged [PLocalCandidates; count] wo))
    as (cs & Hrun & Hsent); [done|done|].
  exists ([PLocalCandidates; count] ++ cs). split.
  - unfold Offerer.send_local_candidates, pnet, pcall, call.
    run_peer. rewrite <- logged_logged, <- Hrun. unfold blen at 1. rewrite Nat2Z.id.
    f_equal. unfold logged. cbn. by rewrite <- app_assoc.
  - intros Hin. rewrite sent_bytes_app, Hsent in Hin. cbn [logged stored_candidates] in Hin. rewrite drop_0 in Hin.
    assert (no_nul (concat (stored_candidates wo)) = true) as Hnc.
    { clear -Hn. induction Hn as [|c cs Hc _ IH]; [done|]. cbn. by rewrite no_nul_app, Hc, IH. }
    destruct wa as [inc con run sdp cands cl]. cbn [incoming calls stored_sdp] in *. subst inc.
    assert (sent_bytes [PLocalCandidates; count] = int_bytes (blen (stored_candidates wo))) as -> by done.
    set (n := blen (stored_candidates wo)) in *. set (c := concat (stored_candidates wo)) in *.
    eexists. unfold Answerer.exchange_answer, pnet, pcall, call. run_peer.
    change (take (Z.to_nat 4) (int_bytes n ++ c)) with (int_bytes n).
    change (drop (Z.to_nat 4) (int_bytes n ++ c)) with c.
    rewrite (take_ge c) by (unfold blen in Hb; unfold Answerer.BUFFER_SIZE in *; lia).
    rewrite recv_into_zeros, cstr_padded by done.
    change (recv_into (RecvBytes (int_bytes n)) (int_bytes 0)) with (int_bytes n ++ []).
    rewrite int_of_bytes_int by done. unfold rtc_candidate, rtc_add_remote_candidate, pcall, call. run_peer.
    split; [reflexivity|]. run_peer. by rewrite <- !app_assoc.
Qed.

Lemma candidates_merged_witness (wo := mkPeerWorld [] [] true [] [b#"cand1"; b#"cand2"] [])
    (wa := mkPeerWorld (int_bytes 2 ++ b#"cand1cand2") [] true b#"{}" [] []) :
  ∃ wa', exec stream_env (Answerer.exchange_answer 3) wa = (Done 2, wa') ∧
    PRtc (RAddRemoteCandidate b#"cand1cand2") ∈ calls wa'.
Proof.
  destruct (candidates_merged 4 3 wo wa) as (cs & Hrun & H);
    [repeat constructor|reflexivity|reflexivity|].
  destruct H as (wa' & Hrun' & Hcalls).
  - vm_compute in Hrun. injection Hrun as <-. reflexivity.
  - exists wa'. split; [exact Hrun'|]. rewrite Hcalls. set_solver.
Defined.

(** An answerer without candidates sends the number 0 and then throws
    [std::out_of_range], which nothing catches; otherwise it sends the number and the
    first candidate only. *)
Lemma send_candidate_first client_socket w :
  exec stream_env (Answerer.send_candidate client_socket) w =
  let count := PNet (NSend client_socket (int_bytes (blen (stored_candidates w)))) in
  match stored_candidates w with
  | [] => (Threw ExOutOfRange, logged [PLocalCandidates; count; PLocalCandidates] w)
  | c :: _ => (Done tt, logged [PLocalCandidates; count; PLocalCandidates; PNet (NSend client_socket c)] w)
  end.
Proof.
  unfold Answerer.send_candidate, pnet, pcall, call. run_peer. unfold logged.
  destruct (stored_candidates w) as [|c cs]; cbn [lookup list_lookup]; run_peer; by rewrite <- !app_assoc.
Qed.

(** ** Waiting for the answer *)

(** The answerer's wait ends as soon as the gathering callback has set its
    flag, and not before: if gathering never completes, it never ends. *)
Lemma busy_wait {S} (env : ∀ c : peer_call, S → peer_result c * S) s :
  (∀ fuel s', exec_loop env fuel Answerer.wait_body tt s = Some (Done tt, s') →
     ∃ s0, env PSdpGenerated s0 = (true, s')) ∧
  ((∀ s, (env PSdpGenerated s).1 = false) → ∀ fuel, exec_loop env fuel Answerer.wait_body tt s = None).
Proof.
  split.
  - intros fuel s'. revert s. induction fuel as [|fuel IH]; intros s; [done|]. cbn.
    destruct (env PSdpGenerated s) as [[|] s1] eqn:E; cbn; [|by apply IH].
    intros [= <-]. by exists s.
  - intros Hnever fuel. revert s. induction fuel as [|fuel IH]; intros s; [done|]. cbn.
    specialize (Hnever s). destruct (env PSdpGenerated s) as [b s1]. cbn in Hnever. subst b. cbn. apply IH.
Qed.

(** ** The candidates typed into the media sender *)

(** The loop over typed candidates runs for a negative number only: a
    number of candidates that is zero or more reads none of them, and a negative one
    never ends the loop, whose counter goes down until it overflows. *)
Lemma typed_candidates {S} (env : ∀ c : peer_call, S → peer_result c * S) num_cand s fuel :
  if 0 <=? num_cand
  then exec_loop env (1 + fuel) SimpleOfferer.candidate_body num_cand s = Some (Done num_cand, s)
  else match exec_loop env fuel SimpleOfferer.candidate_body num_cand s with
       | Some (Done _, _) | Some (Exited _, _) => False
       | Some (Undefined u, _) => u = UB_int_overflow
       | _ => True
       end.
Proof.
  destruct (Z.leb_spec 0 num_cand) as [Hn|Hn].
  - cbn. unfold SimpleOfferer.candidate_body. by destruct (Z.ltb_spec num_cand 0); [lia|].
  - revert num_cand Hn s. induction fuel as [|fuel IH]; intros num_cand Hn s; [done|]. cbn [exec_loop].
    unfold SimpleOfferer.candidate_body. destruct (Z.ltb_spec num_cand 0); [|lia]. cbn [negb].
    unfold rtc_candidate, rtc_add_remote_candidate, pcin, pcall, call.
    cbn [mret prog_mret mbind prog_mbind prog_bind exec].
    destruct (env (PCin CinLine) s) as [line s1]. cbn [prog_bind exec].
    destruct (env (PRtc (RCandidate (default [] line))) s1) as [[[]|] s2]; cbn; [|done].
    destruct (env (PRtc (RAddRemoteCandidate (default [] line))) s2) as [[[]|] s3]; cbn; [|done].
    destruct (in_int (num_cand - 1)); cbn; [|done]. apply IH. lia.
Qed.

(** ** Packets *)

(** What the loops over packets may put on the track. *)
Definition track_pre (g : unit) (c : peer_call) : Prop :=
  match c with PRtc (RTrackSend data) => RTP_HEADER_SIZE ≤ blen data ≤ MEDIA_BUFFER | _ => True end.
Definition track_ok (g : unit) (c : peer_call) (r : peer_result c) (g' : unit) : Prop := peer_ok c r.

Section packets.
Context `{SetSsrc} (Hssrc : ∀ ssrc buffer, blen (setSsrc ssrc buffer) = blen buffer).

Lemma send_packet_wp ssrc buffer len (Q : unit → outcome bytes → Prop) :
  blen buffer = MEDIA_BUFFER → len ≤ MEDIA_BUFFER →
  (∀ buffer', blen buffer' = MEDIA_BUFFER → Q tt (Done buffer')) → Q tt (Threw ExLibrary) →
  wp track_pre track_ok tt (send_packet ssrc buffer len) Q.
Proof.
  intros Hb Hlen HQ HT. unfold send_packet. destruct (Z.ltb_spec len RTP_HEADER_SIZE); [by apply HQ|].
  unfold rtc_is_open, rtc_track_send, pcall, call. cbn. split; [done|]. intros [] [] _; cbn; [|by apply HQ].
  assert (blen (setSsrc ssrc buffer) = MEDIA_BUFFER) as Hs by (by rewrite Hssrc).
  split.
  - rewrite blen_take by (unfold RTP_HEADER_SIZE in *; lia). lia.
  - intros [[]|] [] _; cbn; [by apply HQ|done].
Qed.

(** Both media loops hand the track nothing shorter than an RTP header and
    nothing longer than their array, whatever arrives; in the client's loop also when it
    sends its array again instead of having received a packet. *)
Lemma packets_bounded input_socket output_socket sock buffer buffer2 :
  blen buffer = MEDIA_BUFFER → blen buffer2 = MEDIA_BUFFER →
  wp track_pre track_ok tt (media_body input_socket output_socket buffer2 buffer)
    (λ _ o, match o with Done (Continue b) | Done (Break b) => blen b = MEDIA_BUFFER | Threw e => e = ExLibrary | _ => False end) ∧
  wp track_pre track_ok tt (SimpleOfferer.packet_body sock buffer)
    (λ _ o, match o with Done (Continue b) | Done (Break b) => blen b = MEDIA_BUFFER | Threw e => e = ExLibrary | _ => False end).
Proof.
  intros Hb Hb2.
  assert (∀ r, net_ok (NRecv sock MEDIA_BUFFER) r → blen (recv_into r buffer) = MEDIA_BUFFER ∧ recv_count r ≤ MEDIA_BUFFER) as Hrecv.
  { intros [|s] Hr; cbn in *; [by split; [|unfold MEDIA_BUFFER]|]. split; [|done]. rewrite blen_overlay; lia. }
  split.
  - unfold media_body, pnet, pcall, call. cbn. split; [done|]. intros r [] Hr.
    destruct (Hrecv r Hr) as [Hb' Hc]. destruct (Z.leb_spec 0 (recv_count r)).
    + wp_step. apply send_packet_wp; [done|done|by intros|done].
    + cbn. split; [done|]. intros len [] Hlen. cbn in Hlen. destruct (Z.leb_spec 0 len); [|done].
      wp_step. apply send_packet_wp; [done|lia|by intros|done].
  - unfold SimpleOfferer.packet_body, pnet, pcall, call. cbn. split; [done|]. intros r [] Hr.
    destruct (Hrecv r Hr) as [Hb' Hc]. destruct (Z.leb_spec 0 (recv_count r)); cbn; [|done].
    wp_step. apply send_packet_wp; [done|done|by intros|done].
Qed.
End packets.

(** ** Witnesses *)

Lemma descriptions_exchanged_witness :
  (exec stream_env (Answerer.receive_offer 3) (mkPeerWorld offer_text [] true [] [] [])).1 = Done tt.
Proof.
  destruct (descriptions_exchanged (H := λ l, l) b#"offer" b#"v=0") as (text & Htext & _ & H);
    [by apply utf8_literal|by apply utf8_literal|].
  vm_compute in Htext. injection Htext as <-.
  erewrite H; [reflexivity|reflexivity|reflexivity].
Defined.

Definition long_answer : bytes := replicate (Z.to_nat 1024) "a"%char.

Lemma long_answer_undefined_witness :
  (exec stream_env (Offerer.exchange_descriptions 4) (mkPeerWorld long_answer [] true b#"{}" [] [])).1
  = Undefined UB_over_read.
Proof.
  erewrite (long_answer_undefined stream_env 4 long_answer b#"{}" 2 (mkPeerWorld long_answer [] true b#"{}" [] []));
    [reflexivity|reflexivity|reflexivity|vm_compute; reflexivity|reflexivity|vm_compute; reflexivity].
Defined.

Lemma packets_bounded_witness (f := (λ _ b, b) : SetSsrc) :
  wp track_pre track_ok tt (media_body 5 6 (zeros 2048) (zeros 2048))
    (λ _ o, match o with Done (Continue b) | Done (Break b) => blen b = MEDIA_BUFFER | Threw e => e = ExLibrary | _ => False end).
Proof. apply (packets_bounded (λ _ b, eq_refl) 5 6 5 (zeros 2048) (zeros 2048)); reflexivity. Defined.
